(* ===== verification/_CoqProject ===== *)
-Q . S2P
Prelude.v
Routing.v
KernelPlan.v
Netip.v
RouteSource.v
Firewall.v
Health.v
ProxyDial.v
Redact.v
Registry.v
RegistrySpec.v
Loadgen.v
DnsCache.v
Url.v
ProxyPolicy.v
Config.v
Startup.v
Context.v
TunnelDns.v
Router.v
Fetch.v
Server.v
Relay.v
Shutdown.v
Netlink.v
Wg.v
WgKernel.v
WgFrame.v
WgSpec.v
WgTunnel.v
Gateway.v
GatewaySpec.v
Plan.v
PlanSpec.v
Updater.v
Status.v
StatusSpec.v
Process.v
Manage.v
Daemon.v
DaemonFrame.v
DaemonUp.v
DaemonLoop.v
ManageSpec.v
UpdaterSpec.v
