(* ===== verification/Prelude.v ===== *)
(** * sakhtar-wg

    sakhtar-wg is a daemon that brings up WireGuard tunnels, routes each of them by a
    firewall mark, and runs a transparent proxy that reads the host name of a TLS or
    HTTP connection and sends it out through the tunnel, or the failover group of
    tunnels, that its rules name.  It can also act as a gateway for a LAN, refresh its
    routes from remote lists, and repair what others change in the kernel.  This library
    is a shallow embedding of its Go sources with the theorems that make it correct.

    ** Parts, files and sources

    Sources are under src/; internal/ is src/internal, cmd/ is src/cmd/sakhtar-wg.  A
    file named after another with Spec holds the proofs about it.

    - Prelude: results and errors, loops, machine integers, strings, sorting; the state
      and error monad [M] of code that acts on the host, with its reasoning principles.
    - Netip, Url, Context: what the code uses of net/netip, net, strconv, net/url and
      context, down to the bytes.
    - Routing: internal/routing, routeplan.go.  The suffix matcher and the route diff.
    - KernelPlan: internal/kernel.  The ownership-safe plan between a desired and a
      current set of kernel objects, and the check of marks, tables and priorities.
    - RouteSource: internal/routesource.  Merging and aggregating lists of prefixes.
    - Firewall: internal/firewall.  Compilation of the chains of the gateway and of the
      egress guard, and their meaning as a packet filter.
    - Health: internal/health.  Probe verdicts, the monitor and its groups, the prober.
    - ProxyDial: internal/proxy.  Choice and order of addresses, bounded dialling.
    - DnsCache: internal/dns.  The cache with single flight, stale and negative answers.
    - Redact, Registry, RegistrySpec, Manage, ManageSpec: internal/observability and
      observability_linux.go.  Redaction of logs, the metrics registry and its text
      format, the management server, readiness and what feeds them.
    - ProxyPolicy: proxy_policy.go.  Host names, source ACL, destination policy.
    - Config: config.go.  The configuration, its defaults, its validation, its lookups.
    - Startup: egress_guard.go, gateway.go, dnscache.go, health.go.  What is built from a
      configuration.
    - TunnelDns: tunneldns.go.  Resolving through a tunnel with several servers.
    - Router: sni.go.  The router of a generation and the dial path of a request.
    - Fetch: routesrc.go, dial_linux.go.  The clients of route sources and probes.
    - Server: sni.go.  Admission, sessions, handlers and byte accounting.
    - Relay: sni.go.  Peeking at a connection and the relay of a session.
    - Shutdown: sni.go.  Listeners, accept loops and [Stop].
    - Netlink: the interface of the kernel, a class with its documented laws.  WgKernel:
      an instance, a small kernel, which shows that the laws can hold.
    - Wg, WgFrame, WgSpec, WgTunnel: wg.go, wgconfig.go.  Links, addresses, routes, rules
      and sysctls of a tunnel: operations, what they leave alone, what they achieve.
    - Gateway, GatewaySpec: gateway.go.  The owned chains on an iptables interface.
    - Plan, PlanSpec: dryrun.go, kernel_watch.go.  The survey of the host and its drift.
    - Updater, UpdaterSpec: routesrc.go, pfsync.go, listserver.go.  Route sources, the
      mirror to pfSense and the published list.
    - Status, StatusSpec: reconcile_status.go.  Recorded and live drift.
    - Process: main.go, status.go, version.go, routesrc.go.  The lock on the pid file,
      the route cache on disk, the commands and what they print.
    - Daemon, DaemonFrame, DaemonUp, DaemonLoop: main.go, wg.go, kernel_watch_linux.go.
      Start, reload with rollback, refresh, repair, shutdown, and the main loop.
    - Loadgen: src/cmd/loadgen.  The load generator.

    ** How the code is represented

    A struct is a record, an enum or a set of error values an inductive type, a function
    that returns an error a function into [result].  Go's int, int64, uint64 and uint32
    are [Z]; a sum or product that can leave its width is wrapped where the source would
    wrap it.  A string is its bytes.  A map is a [gmap]; where the source ranges over one
    and the order can be seen, the order is sorted by the source or is a parameter.
    Code that acts on the kernel or on iptables runs in [M], whose state is a world of
    type [K] or a firewall of type [F] with a class of operations and laws; every call
    may fail, so a theorem about an operation covers its failure at each call.

    Goroutines are step relations with one step per critical section: sessions and
    admission (Server), the two copies of a relay (Relay), accept loops and [Stop]
    (Shutdown), callers and resolvers of the DNS cache (DnsCache), probes (Health), the
    main loop with the updater, the monitor, the probers and management requests
    (Daemon), instances of the process (Process).  Theorems about them hold in every
    interleaving.

    ** What the theorems show

    - Reload, start and repair (DaemonUp, DaemonFrame, DaemonLoop): a reload that commits
      leaves every tunnel serving and guarded, with its address and routes unless it
      changed the address, which can cost both; one that fails changed nothing or was
      rolled back; no operation of the daemon touches the links of others, their
      addresses and routes, the rules of others or their chains; in every run the
      configuration, the router, the updater and the queue agree; a repair reports what
      it did.
    - Readiness (ManageSpec): /readyz answers 200 exactly when a generation is active,
      the listeners are up and the recorded status is clean, and then every tunnel and
      chain is in place.
    - Tunnels (WgSpec, WgTunnel): reconciling converges to the configured routes and
      rules; bringing a tunnel up achieves it, taking it down removes it, and at whatever
      call they fail other links keep their addresses and their routes without a preferred
      source.
    - Firewall (Firewall, GatewaySpec): the compiled chains accept exactly what is
      configured, the guard stops exactly marked packets that would leave through another
      interface, and installing them leaves foreign rules alone.
    - Plans and drift (KernelPlan, PlanSpec, StatusSpec): a plan touches only owned
      objects and carrying it out gives the desired state; no pending change means that
      everything is in place.
    - The proxy (Router, ProxyPolicy, Fetch, Relay, Server, Shutdown): a host leaves only
      through the egress its rule names, unless a tunnel or group is called direct, and is
      resolved by that egress; every socket carries a mark of it and goes to an address that
      the policy allows; peeking stays within its limit and loses no byte; a relay writes
      exactly what it reads and ends once it is closed; admission counts exactly; [Stop]
      returns and leaves nothing behind.
    - DNS (DnsCache): one resolver call per key, bounded tables, every flight completes,
      and no answer outlives its stale window, except for callers that join a refresh.
    - Configuration (Config, Startup): a configuration that loads is in normal form and
      everything built from it is accepted.
    - Routes, files and logs (RouteSource, UpdaterSpec, Process, Redact, RegistrySpec):
      aggregation is exact and minimal, a cycle keeps the last good list, the cache survives a
      crash at any point, at most one instance runs until one has exited, logs do not
      depend on values under sensitive keys nor on the user part of a URL up to its first
      at sign, the metrics text is well formed.

    ** Assumptions

    They are class laws or named hypotheses, each with an instance or a witness: the
    netlink and iptables interfaces and the kernel behind them (a link takes its IPv4
    routes along when its last IPv4 address goes; MTUs are of the size that IPv4 needs;
    addresses have no peer), the parsing of keys, the
    IDNA profile, the tables of Unicode, the exchange of DNS messages, the contracts of
    io.Reader and io.Writer.  [float64] is a class without laws.

    ** Fuel and bounds

    Recursion that is not structural has fuel or a measure: writing a buffer has its
    length, because each round writes a byte; splitting a range of addresses into
    prefixes has 2^32 rounds, by doubling, because each advances by an address; the
    matchers and splitters of text have its length; the scale of a byte count has 7,
    since 1024^7 exceeds an int64.  Lemmas beside the definitions show what the loops
    compute, so that the fuel is enough.  A closed session ends within nine steps, and [Stop] within a number of steps
    given by the loops and connections that are left.

    ** Not modelled

    - Decoders and encoders of YAML and JSON: the files are their decoded contents.  What
      is lost is UnmarshalYAML, LoadConfig's reading of the file and the JSON that plan,
      status, version and /status print.
    - The TLS and HTTP parsers, the HTTP server and client: a peek holds for every parser,
      a fetch is the body that arrives.
    - Sockets: dialling, reading and writing are the environment of a step; socket
      options other than the mark and deadlines are left out.
    - Times: deadlines of the relay are compared with a clock, other timers are steps
      that may happen at any moment.  The jitter of the prober is left out.
    - Signals, flag parsing, logging and the metric summary in the log; the ssh process
      of a push, of which the arguments are modelled.
    - process_linux.go and process_other.go read counters of the operating system,
      dial_nonlinux.go is a stub for systems the daemon does not run on,
      internal/integration holds only documentation. *)
From stdpp Require Export base gmap strings list sorting pretty fin_maps relations.
From Stdlib Require Export ZArith Lia Bool.
From Stdlib Require Ascii.
Export Stdlib.Strings.Ascii (ascii(..), N_of_ascii, ascii_of_N).
Export (notations) Stdlib.Strings.Ascii.

(** ** Results

    A Go function that returns [(T, error)] is a function into [result E T]: [Ok]
    carries the value of the [nil]-error path and [Err] the error.  [E] is an
    inductive type with one constructor per error the function builds. *)

Inductive result (E A : Type) : Type :=
| Ok (a : A)
| Err (e : E).
Arguments Ok {E A} a.
Arguments Err {E A} e.

#[export] Instance result_ret {E} : MRet (result E) := λ A a, Ok a.
#[export] Instance result_bind {E} : MBind (result E) := λ A B f r,
  match r with Ok a => f a | Err e => Err e end.
#[export] Instance result_fmap {E} : FMap (result E) := λ A B f r,
  match r with Ok a => Ok (f a) | Err e => Err e end.

#[export] Instance result_eq_dec {E A} `{EqDecision E, EqDecision A} :
  EqDecision (result E A).
Proof. solve_decision. Defined.

Definition is_ok {E A} (r : result E A) : bool :=
  match r with Ok _ => true | Err _ => false end.

(** [guard c e k]: the idiom [if c { return e }; k]. *)
Definition fail_if {E A} (c : bool) (e : E) (k : result E A) : result E A :=
  if c then Err e else k.

(** A [for _, x := range l] loop whose body may return an error early. *)
Fixpoint foldM {E S A} (f : S → A → result E S) (s : S) (l : list A) : result E S :=
  match l with
  | [] => Ok s
  | a :: l => match f s a with Ok s' => foldM f s' l | Err e => Err e end
  end.

Lemma foldM_app {E S A} (f : S → A → result E S) s l1 l2 :
  foldM f s (l1 ++ l2) =
  match foldM f s l1 with Ok s' => foldM f s' l2 | Err e => Err e end.
Proof.
  revert s. induction l1 as [|a l1 IH]; intros s; simpl; [done|].
  by destruct (f s a).
Qed.

(** Invariant rule: an invariant that relates the processed prefix to the state. *)
Lemma foldM_inv {E S A} (f : S → A → result E S) (I : list A → S → Prop) l s s' :
  I [] s →
  (∀ done a t t', I done t → f t a = Ok t' → I (done ++ [a]) t') →
  foldM f s l = Ok s' → I l s'.
Proof.
  intros H0 Hstep. cut (∀ done t, I done t → foldM f t l = Ok s' → I (done ++ l) s').
  { intros H Hf. by apply (H []) in H0. }
  clear s H0. induction l as [|a l IH]; intros done t Ht; simpl.
  - intros [= ->]. by rewrite app_nil_r.
  - destruct (f t a) as [t'|] eqn:E1; [|done]. intros Hf.
    rewrite cons_middle, app_assoc. eapply IH; eauto.
Qed.

(** ** Bounded loops

    [loop2 n body s] runs [body] at most [2^n] times; [inl] is "go round again"
    and [inr] is the value the loop returns.  The binary recursion keeps the
    fuel small as a number while the loop still stops as soon as [body] does. *)
Fixpoint loop2 {S R} (n : nat) (body : S → S + R) (s : S) : S + R :=
  match n with
  | O => body s
  | S n => match loop2 n body s with
           | inl s' => loop2 n body s'
           | inr r => inr r
           end
  end.

Section loop2.
Context {St R : Type} (body : St → St + R) (I : St → Prop) (mu : St → Z).
Context (Hmu : ∀ s, I s → (0 ≤ mu s)%Z).
Context (Hstep : ∀ s s', I s → body s = inl s' → I s' ∧ (mu s' < mu s)%Z).

Lemma loop2_inl n s s' :
  I s → loop2 n body s = inl s' → I s' ∧ (mu s' ≤ mu s - 2 ^ Z.of_nat n)%Z.
Proof.
  revert s s'. induction n as [|n IH]; intros s s' Hs; simpl.
  - intros Hb. destruct (Hstep _ _ Hs Hb). split; [done|]. lia.
  - destruct (loop2 n body s) as [t|r] eqn:E1; [|done]. intros E2.
    destruct (IH _ _ Hs E1) as [Ht ?]. destruct (IH _ _ Ht E2) as [Hs' ?].
    split; [done|]. rewrite Nat2Z.inj_succ, Z.pow_succ_r by lia. lia.
Qed.

(** Enough fuel: a loop whose measure is below [2^n] returns. *)
Lemma loop2_terminates n s :
  I s → (mu s < 2 ^ Z.of_nat n)%Z → ∃ r, loop2 n body s = inr r.
Proof.
  intros Hs Hlt. destruct (loop2 n body s) as [s'|r] eqn:E1; [|eauto].
  destruct (loop2_inl _ _ _ Hs E1) as [Hs' ?]. pose proof (Hmu _ Hs'). lia.
Qed.

Lemma loop2_post (Q : R → Prop) n s r :
  (∀ s r, I s → body s = inr r → Q r) →
  I s → loop2 n body s = inr r → Q r.
Proof.
  intros HQ. revert s. induction n as [|n IH]; intros s Hs; simpl; [by eauto|].
  destruct (loop2 n body s) as [t|r'] eqn:E1.
  - intros E2. destruct (loop2_inl _ _ _ Hs E1) as [Ht ?]. eauto.
  - intros [= ->]. eauto.
Qed.
End loop2.

(** ** Machine integers

    Go's fixed-width integers are [Z] with the wrap-around written out at the
    operations that can leave the range. *)
Definition u32_max : Z := 4294967295.
Definition wrap32 (z : Z) : Z := z mod 2 ^ 32.
Definition wrap64 (z : Z) : Z := z mod 2 ^ 64.
Definition is_u32 (z : Z) : Prop := (0 ≤ z < 2 ^ 32)%Z.

Lemma wrap32_u32 z : is_u32 (wrap32 z).
Proof. apply Z.mod_pos_bound. lia. Qed.
Lemma wrap32_id z : is_u32 z → wrap32 z = z.
Proof. intros. by apply Z.mod_small. Qed.

(** [^x] on a [uint32]. *)
Definition not32 (z : Z) : Z := u32_max - z.

(** A 64-bit signed sum or product, wrapped. *)
Definition to_int64 (z : Z) : Z := if (wrap64 z <? 2 ^ 63)%Z then wrap64 z else (wrap64 z - 2 ^ 64)%Z.
Lemma to_int64_id z : (- 2 ^ 63 ≤ z < 2 ^ 63)%Z → to_int64 z = z.
Proof.
  intros Hz. unfold to_int64, wrap64. destruct (Z.lt_ge_cases z 0).
  - assert (z mod 2 ^ 64 = z + 2 ^ 64)%Z as ->.
    { symmetry. apply (Z.mod_unique_pos _ _ (-1)); lia. }
    rewrite (proj2 (Z.ltb_ge _ _)); lia.
  - rewrite Z.mod_small by lia. rewrite (proj2 (Z.ltb_lt _ _)); lia.
Qed.
Lemma wrap64_add_l a b : wrap64 (wrap64 a + b) = wrap64 (a + b).
Proof. unfold wrap64. by rewrite Zplus_mod_idemp_l. Qed.
Lemma wrap64_add_r a b : wrap64 (a + wrap64 b) = wrap64 (a + b).
Proof. by rewrite Z.add_comm, wrap64_add_l, Z.add_comm. Qed.
Lemma wrap64_idemp a : wrap64 (wrap64 a) = wrap64 a.
Proof. apply Zmod_mod. Qed.
Lemma wrap64_to_int64 a : wrap64 (to_int64 a) = wrap64 a.
Proof. unfold to_int64. case_match; [apply wrap64_idemp|]. unfold wrap64. by rewrite Zminus_mod, Z_mod_same_full, Z.sub_0_r, !Zmod_mod. Qed.

(** [int32(x)] of a [uint32]. *)
Definition to_int32 (z : Z) : Z := if (z <? 2 ^ 31)%Z then z else (z - 2 ^ 32)%Z.
Lemma wrap32_to_int32 z : is_u32 z → wrap32 (to_int32 z) = z.
Proof.
  unfold is_u32, wrap32, to_int32. intros Hz. destruct (Z.ltb_spec z (2 ^ 31)).
  - by apply Z.mod_small.
  - rewrite <-(Z.mod_add _ 1), Z.mod_small by lia. lia.
Qed.

(** ** Time

    [time.Time] is nanoseconds since the zero time, so [IsZero] is [= 0];
    [time.Duration] is a signed 64-bit count of nanoseconds.  [Sub] saturates. *)
Definition int64_max : Z := 2 ^ 63 - 1.
Definition int64_min : Z := - 2 ^ 63.
Definition time_sub (a b : Z) : Z := (int64_min `max` ((a - b) `min` int64_max))%Z.
Definition second : Z := 1000000000.

(** ** Strings

    A Go string is a byte string: [String.string] over 8-bit [ascii].  Slicing is
    [str_drop]/[str_take]; the functions of package [strings] that the sources
    call follow.  [String.le] is Go's byte-wise order on strings. *)
Fixpoint str_drop (n : nat) (s : string) : string :=
  match n, s with
  | O, _ => s
  | S n, EmptyString => EmptyString
  | S n, String _ s => str_drop n s
  end.

Fixpoint str_take (n : nat) (s : string) : string :=
  match n, s with
  | O, _ => EmptyString
  | S n, EmptyString => EmptyString
  | S n, String c s => String c (str_take n s)
  end.

(** [strings.IndexByte], with [None] for [-1]. *)
Fixpoint index_byte (c : ascii) (s : string) : option nat :=
  match s with
  | EmptyString => None
  | String d s => if decide (c = d) then Some 0 else S <$> index_byte c s
  end.

Definition has_prefix (p s : string) : bool := String.prefix p s.
Definition has_suffix (p s : string) : bool :=
  (String.length p <=? String.length s) &&
  bool_decide (str_drop (String.length s - String.length p) s = p).
Definition trim_prefix (p s : string) : string :=
  if has_prefix p s then str_drop (String.length p) s else s.
Definition trim_suffix (p s : string) : string :=
  if has_suffix p s then str_take (String.length s - String.length p) s else s.

(** [strings.Contains]. *)
Fixpoint str_contains (sub s : string) : bool :=
  has_prefix sub s ||
  match s with EmptyString => false | String _ s => str_contains sub s end.

Fixpoint str_forallb (f : ascii → bool) (s : string) : bool :=
  match s with EmptyString => true | String c s => f c && str_forallb f s end.
Definition str_existsb (f : ascii → bool) (s : string) : bool :=
  negb (str_forallb (λ c, negb (f c)) s).

(** [strings.Count] of a single byte. *)
Fixpoint str_count (c : ascii) (s : string) : nat :=
  match s with
  | EmptyString => 0
  | String d s => (if decide (c = d) then 1 else 0) + str_count c s
  end.

(** [strings.Split] on a one-byte separator. *)
Fixpoint str_split (c : ascii) (s : string) : list string :=
  match s with
  | EmptyString => [EmptyString]
  | String d s =>
      if decide (c = d) then EmptyString :: str_split c s
      else match str_split c s with
           | [] => [String d EmptyString]
           | w :: ws => String d w :: ws
           end
  end.

(** [strings.Join]. *)
Fixpoint str_join (sep : string) (l : list string) : string :=
  match l with
  | [] => EmptyString
  | [w] => w
  | w :: ws => (w +:+ sep +:+ str_join sep ws)
  end.

(** [fmt.Sprintf], given its arguments already rendered by their verbs: each
    [%v], [%s], [%d], ... or [%#x] takes the next one.  No caller has [%%]. *)
Fixpoint sprintf (format : string) (args : list string) : string :=
  match format with
  | EmptyString => EmptyString
  | String "%" (String "#" (String _ f)) | String "%" (String _ f) =>
      match args with [] => sprintf f [] | a :: args => a +:+ sprintf f args end
  | String c f => String c (sprintf f args)
  end.
Definition nl : string := String "010" EmptyString.

Definition byte_of (c : ascii) : Z := Z.of_N (N_of_ascii c).
Definition byte_between (lo hi : Z) (c : ascii) : bool :=
  (lo <=? byte_of c)%Z && (byte_of c <=? hi)%Z.
Definition is_digit : ascii → bool := byte_between 48 57.
Definition is_lower : ascii → bool := byte_between 97 122.
Definition is_upper : ascii → bool := byte_between 65 90.

(** Unicode case mapping is table data; [strings.ToLower] only consults it for a
    string with a byte at or above [0x80]. *)
Class UnicodeTables := { unicode_to_lower : string → string }.

Definition lower_byte (c : ascii) : ascii :=
  if is_upper c then ascii_of_N (N_of_ascii c + 32) else c.
Fixpoint ascii_lower (s : string) : string :=
  match s with
  | EmptyString => EmptyString
  | String c s => String (lower_byte c) (ascii_lower s)
  end.
Definition to_lower `{UnicodeTables} (s : string) : string :=
  if str_forallb (byte_between 0 127) s then ascii_lower s else unicode_to_lower s.

(** The UTF-8 encodings of the runes with [unicode.IsSpace]. *)
Definition bytes_str (l : list N) : string :=
  foldr (λ n s, String (ascii_of_N n) s) EmptyString l.
Definition space_runes : list string :=
  bytes_str <$>
  ([[9]; [10]; [11]; [12]; [13]; [32]; [194; 133]; [194; 160]; [225; 154; 128];
    [226; 128; 128]; [226; 128; 129]; [226; 128; 130]; [226; 128; 131]; [226; 128; 132];
    [226; 128; 133]; [226; 128; 134]; [226; 128; 135]; [226; 128; 136]; [226; 128; 137];
    [226; 128; 138]; [226; 128; 168]; [226; 128; 169]; [226; 128; 175]; [226; 129; 159];
    [227; 128; 128]]%N).

Fixpoint first_prefix (ps : list string) (s : string) : option string :=
  match ps with
  | [] => None
  | p :: ps => if has_prefix p s then Some p else first_prefix ps s
  end.
Fixpoint first_suffix (ps : list string) (s : string) : option string :=
  match ps with
  | [] => None
  | p :: ps => if has_suffix p s then Some p else first_suffix ps s
  end.
Fixpoint trim_left_fuel (n : nat) (s : string) : string :=
  match n with
  | O => s
  | S n => match first_prefix space_runes s with
           | Some p => trim_left_fuel n (str_drop (String.length p) s)
           | None => s
           end
  end.
Fixpoint trim_right_fuel (n : nat) (s : string) : string :=
  match n with
  | O => s
  | S n => match first_suffix space_runes s with
           | Some p => trim_right_fuel n (str_take (String.length s - String.length p) s)
           | None => s
           end
  end.
(** [strings.TrimSpace]: each round removes at least one byte, so the length of
    the string is enough fuel. *)
Definition trim_space (s : string) : string :=
  let s := trim_left_fuel (String.length s) s in trim_right_fuel (String.length s) s.
(** [strings.Fields]: the runs between the encodings of white space. *)
Fixpoint fields_fuel (n : nat) (cur s : string) : list string :=
  let emit := if bool_decide (cur = "") then [] else [cur] in
  match n, s with
  | O, _ | _, EmptyString => emit
  | S n, String c s' =>
      match first_prefix space_runes s with
      | Some p => emit ++ fields_fuel n "" (str_drop (String.length p) s)
      | None => fields_fuel n (cur +:+ String c "") s'
      end
  end.
Definition fields (s : string) : list string := fields_fuel (S (String.length s)) "" s.

(** *** Lemmas on strings *)
Lemma str_app_cons c s t : String c s +:+ t = String c (s +:+ t).
Proof. done. Qed.
Lemma str_app_nil_l s : EmptyString +:+ s = s.
Proof. done. Qed.
Lemma str_app_nil_r s : s +:+ EmptyString = s.
Proof. induction s as [|c s IH]; [done|]. by rewrite str_app_cons, IH. Qed.
Lemma str_app_assoc s t u : s +:+ (t +:+ u) = (s +:+ t) +:+ u.
Proof. induction s as [|c s IH]; [done|]. by rewrite !str_app_cons, IH. Qed.
Lemma str_length_app s t :
  String.length (s +:+ t) = String.length s + String.length t.
Proof. induction s as [|c s IH]; [done|]. rewrite str_app_cons. simpl. by rewrite IH. Qed.
Lemma str_drop_app s t n : String.length s = n → str_drop n (s +:+ t) = t.
Proof.
  revert n. induction s as [|c s IH]; simpl; intros n <-; [done|].
  rewrite str_app_cons. simpl. auto.
Qed.
Lemma str_take_app s t n : String.length s = n → str_take n (s +:+ t) = s.
Proof.
  revert n. induction s as [|c s IH]; simpl; intros n <-; [done|].
  rewrite str_app_cons. simpl. f_equal. auto.
Qed.
Lemma str_length_take n s : n ≤ String.length s → String.length (str_take n s) = n.
Proof. revert s. induction n as [|n IH]; intros [|c s]; cbn; [done..|lia|]. intros Hn. rewrite IH; lia. Qed.
Lemma str_take_drop n s : str_take n s +:+ str_drop n s = s.
Proof.
  revert s. induction n as [|n IH]; intros [|c s]; simpl; try done.
  by rewrite str_app_cons, IH.
Qed.
Lemma length_str_drop n s : String.length (str_drop n s) = String.length s - n.
Proof. revert s. induction n; intros [|? s]; simpl; auto. Qed.
Lemma length_str_take n s : String.length (str_take n s) = n `min` String.length s.
Proof. revert s. induction n; intros [|? s]; simpl; auto. Qed.

Lemma str_forallb_app f s t : str_forallb f (s +:+ t) = str_forallb f s && str_forallb f t.
Proof.
  induction s as [|c s IH]; [done|]. rewrite str_app_cons. simpl.
  by rewrite IH, andb_assoc.
Qed.
Lemma str_forallb_impl (f g : ascii → bool) s :
  (∀ c, f c = true → g c = true) → str_forallb f s = true → str_forallb g s = true.
Proof.
  intros H. induction s as [|c s IH]; simpl; [done|]. rewrite !andb_true_iff. naive_solver.
Qed.

(** A byte that does not occur. *)
Definition str_free (c : ascii) (s : string) : Prop :=
  str_forallb (λ d, negb (bool_decide (c = d))) s = true.
Lemma str_free_cons c d s : str_free c (String d s) ↔ c ≠ d ∧ str_free c s.
Proof.
  unfold str_free. simpl. rewrite andb_true_iff. case_bool_decide; simpl; naive_solver.
Qed.
Lemma str_free_app c s t : str_free c (s +:+ t) ↔ str_free c s ∧ str_free c t.
Proof. unfold str_free. by rewrite str_forallb_app, andb_true_iff. Qed.
Lemma str_free_bytes f c s :
  str_forallb f s = true → f c = false → str_free c s.
Proof.
  intros Hs Hc. eapply str_forallb_impl; [|exact Hs]. intros d Hd. simpl.
  case_bool_decide; [|done]. congruence.
Qed.

Lemma index_byte_first c s t :
  str_free c s → index_byte c (s +:+ String c t) = Some (String.length s).
Proof.
  induction s as [|d s IH]; intros Hf.
  - rewrite str_app_nil_l. simpl. by rewrite decide_True.
  - apply str_free_cons in Hf as [Hcd Hf]. rewrite str_app_cons. simpl.
    rewrite decide_False by done. by rewrite IH.
Qed.
Lemma index_byte_free c s : index_byte c s = None ↔ str_free c s.
Proof.
  induction s as [|d s IH]; simpl; [done|]. rewrite str_free_cons, <-IH.
  destruct (decide (c = d)); [naive_solver|].
  destruct (index_byte c s); naive_solver.
Qed.
Lemma str_split_free c s : str_free c s → str_split c s = [s].
Proof.
  induction s as [|d s IH]; [done|]. intros [Hcd Hf]%str_free_cons. simpl.
  rewrite decide_False by done. by rewrite IH.
Qed.
Lemma str_split_first c s t :
  str_free c s → str_split c (s +:+ String c t) = s :: str_split c t.
Proof.
  induction s as [|d s IH]; intros Hf.
  - rewrite str_app_nil_l. simpl. by rewrite decide_True.
  - apply str_free_cons in Hf as [Hcd Hf]. rewrite str_app_cons. simpl.
    rewrite decide_False by done. by rewrite IH.
Qed.

Lemma str_split_join c l :
  l ≠ [] → Forall (str_free c) l → str_split c (str_join (String c EmptyString) l) = l.
Proof.
  induction l as [|w l IH]; [done|]. intros _ [Hw Hl]%Forall_cons.
  destruct l as [|w' l]; [by apply str_split_free|].
  change (str_join (String c "") (w :: w' :: l))
    with (w +:+ String c "" +:+ str_join (String c "") (w' :: l)).
  rewrite str_app_cons, str_app_nil_l, str_split_first by done. by rewrite IH.
Qed.

(** *** TrimSpace on printable text *)
Fixpoint str_last (s : string) : option ascii :=
  match s with
  | EmptyString => None
  | String c EmptyString => Some c
  | String _ s => str_last s
  end.
Definition str_first (s : string) : option ascii :=
  match s with EmptyString => None | String c _ => Some c end.
Definition printable : ascii → bool := byte_between 33 126.

Lemma str_last_app s t : t ≠ "" → str_last (s +:+ t) = str_last t.
Proof.
  intros Ht. induction s as [|c s IH]; [done|]. rewrite str_app_cons. simpl.
  destruct (s +:+ t) eqn:E; [|done]. destruct s; [|done]. done.
Qed.
Lemma str_last_drop n s : n < String.length s → str_last (str_drop n s) = str_last s.
Proof.
  revert s. induction n as [|n IH]; intros [|c s] Hn; simpl in *; try done.
  rewrite IH by lia. destruct s; [simpl in *; lia|done].
Qed.

(** A space rune neither starts nor ends with a printable ASCII byte. *)
Definition edge_ok (r : string) : bool :=
  match str_first r, str_last r with
  | Some c, Some d => negb (printable c) && negb (printable d)
  | _, _ => false
  end.

Lemma first_prefix_printable ps c s :
  forallb edge_ok ps = true → printable c = true → first_prefix ps (String c s) = None.
Proof.
  intros Hps Hc. induction ps as [|p ps IH]; simpl in *; [done|].
  apply andb_true_iff in Hps as [Hp Hps]. rewrite IH by done.
  destruct p as [|d p]; [done|]. unfold has_prefix. simpl.
  destruct (Ascii.ascii_dec d c) as [->|]; [|done]. unfold edge_ok in Hp. simpl in Hp.
  repeat case_match; simplify_eq; rewrite Hc in Hp; done.
Qed.

Lemma first_suffix_printable ps c s :
  forallb edge_ok ps = true → str_last s = Some c → printable c = true →
  first_suffix ps s = None.
Proof.
  intros Hps Hl Hc. induction ps as [|p ps IH]; simpl in *; [done|].
  apply andb_true_iff in Hps as [Hp Hps]. rewrite IH by done.
  destruct (has_suffix p s) eqn:E; [exfalso|done]. unfold has_suffix in E.
  apply andb_true_iff in E as [Hlen E]. apply Nat.leb_le in Hlen.
  apply bool_decide_eq_true in E. unfold edge_ok in Hp.
  assert (str_last p = Some c) as Hpl.
  { rewrite <-E, str_last_drop; [done|]. destruct p; [done|]. simpl in *. lia. }
  destruct (str_first p); [|done]. rewrite Hpl in Hp. rewrite Hc in Hp.
  by rewrite andb_false_r in Hp.
Qed.

Lemma trim_space_printable c d s :
  str_first s = Some c → str_last s = Some d → printable c = true → printable d = true →
  trim_space s = s.
Proof.
  intros Hf Hl Hc Hd. destruct s as [|c' s]; [done|]. simplify_eq/=.
  unfold trim_space. cbn [String.length trim_left_fuel].
  rewrite first_prefix_printable by done. cbn [String.length trim_right_fuel].
  by rewrite (first_suffix_printable _ d).
Qed.

(** ** Sorting and map iteration

    [sort.Strings].  A Go map is iterated in an unspecified order; the sources
    collect its keys and sort them, and a sorted list is determined by its
    elements, so [sorted_set] is that idiom for every iteration order. *)
Definition sort_strings (l : list string) : list string := merge_sort String.le l.
Definition sorted_set (s : gset string) : list string := sort_strings (elements s).

(** [sort.Slice] by a string key. *)
Definition sort_by {A} (key : A → string) (l : list A) : list A :=
  merge_sort (λ a b, String.le (key a) (key b)) l.

Lemma sort_strings_perm l : sort_strings l ≡ₚ l.
Proof. apply merge_sort_Permutation. Qed.
Lemma sort_strings_sorted l : StronglySorted String.le (sort_strings l).
Proof. apply StronglySorted_merge_sort; apply _. Qed.
Lemma elem_of_sort_strings x l : x ∈ sort_strings l ↔ x ∈ l.
Proof. by rewrite sort_strings_perm. Qed.
Lemma sort_strings_unique l1 l2 : l1 ≡ₚ l2 → sort_strings l1 = sort_strings l2.
Proof.
  intros Hp. apply (StronglySorted_unique String.le); auto using sort_strings_sorted.
  by rewrite !sort_strings_perm.
Qed.
Lemma length_sort_strings l : length (sort_strings l) = length l.
Proof. by rewrite sort_strings_perm. Qed.

Lemma sort_strings_fixed l : StronglySorted String.le l → sort_strings l = l.
Proof.
  intros. apply (StronglySorted_unique String.le); auto using sort_strings_sorted.
  apply sort_strings_perm.
Qed.

Lemma elem_of_sorted_set x s : x ∈ sorted_set s ↔ x ∈ s.
Proof. unfold sorted_set. by rewrite elem_of_sort_strings, elem_of_elements. Qed.
Lemma sorted_set_NoDup s : NoDup (sorted_set s).
Proof. unfold sorted_set. rewrite sort_strings_perm. apply NoDup_elements. Qed.
Lemma sorted_set_sorted s : StronglySorted String.le (sorted_set s).
Proof. apply sort_strings_sorted. Qed.

(** Whatever the order [ks] in which the keys of a map were visited, sorting
    them gives [sorted_set]. *)
Lemma sorted_set_any_order (s : gset string) ks :
  NoDup ks → (∀ k, k ∈ ks ↔ k ∈ s) → sort_strings ks = sorted_set s.
Proof.
  intros Hnd Hks. apply sort_strings_unique.
  apply NoDup_Permutation; [done|apply NoDup_elements|].
  intros k. by rewrite Hks, elem_of_elements.
Qed.

Lemma sort_by_perm {A} (key : A → string) l : sort_by key l ≡ₚ l.
Proof. apply merge_sort_Permutation. Qed.
Lemma sort_by_sorted {A} (key : A → string) l :
  StronglySorted (λ a b, String.le (key a) (key b)) (sort_by key l).
Proof.
  unfold sort_by.
  assert (Transitive (λ a b, String.le (key a) (key b))) by (intros a b c; apply transitivity).
  assert (Total (λ a b, String.le (key a) (key b))) by (intros a b; apply (total String.le)).
  apply StronglySorted_merge_sort; apply _.
Qed.
Lemma elem_of_sort_by {A} (key : A → string) x l : x ∈ sort_by key l ↔ x ∈ l.
Proof. by rewrite sort_by_perm. Qed.

Create HintDb wg discriminated.
Create Rewrite HintDb wg.
#[export] Hint Resolve sort_strings_sorted sorted_set_NoDup sorted_set_sorted
  sort_by_sorted wrap32_u32 : wg.
#[export] Hint Rewrite @elem_of_sort_strings @elem_of_sorted_set @elem_of_sort_by : wg.

(** A map filled by a loop over a list. *)
Lemma foldl_insert_lookup {A} (key : A → string) (l : list A) (m : gmap string A) k x :
  foldl (λ m a, <[key a := a]> m) m l !! k = Some x → m !! k = Some x ∨ x ∈ l ∧ key x = k.
Proof.
  revert m. induction l as [|a l IH]; intros m; cbn [foldl]; [by left|].
  intros [Hx|[??]]%IH; [|right; split; [by right|done]]. apply lookup_insert_Some in Hx as [[<- <-]|[_ ?]]; [|by left].
  right. split; [by left|done].
Qed.
