(* ===== verification/Routing.v ===== *)
(** * internal/routing: hostname suffix lookup and set differences

    [SuffixMatcher] models the struct of the same name, a Go [map[string]T];
    a [nil] receiver is [None].  [Lookup] is the loop over label boundaries and
    [PlanDiff] the sorted set difference that route planning uses
    (cmd/sakhtar-wg/routeplan.go only re-labels its result). *)
From S2P Require Import Prelude.

(** ** SuffixMatcher *)
Record SuffixMatcher (T : Type) := { values : gmap string T }.
Arguments values {T} _.
Arguments Build_SuffixMatcher {T} _.

Section matcher.
Context {T : Type}.

Definition NewSuffixMatcher : option (SuffixMatcher T) :=
  Some {| values := ∅ |}.

(** [AddFirst]: the new receiver and the returned flag. *)
Definition AddFirst (m : option (SuffixMatcher T)) (suffix : string) (value : T) :
    option (SuffixMatcher T) * bool :=
  match m with
  | None => (None, false)
  | Some sm =>
      match values sm !! suffix with
      | Some _ => (m, false)
      | None => (Some {| values := <[suffix := value]> (values sm) |}, true)
      end
  end.

(** The loop of [Lookup]; [rest] is [host[offset:]]. *)
Fixpoint lookup_loop (fuel : nat) (vals : gmap string T) (rest : string) : option T :=
  match fuel, rest with
  | O, _ | _, EmptyString => None
  | S fuel, _ =>
      match vals !! rest with
      | Some value => Some value
      | None =>
          match index_byte "."%char rest with
          | None => None
          | Some dot => lookup_loop fuel vals (str_drop (dot + 1) rest)
          end
      end
  end.

Definition Lookup (m : option (SuffixMatcher T)) (host : string) : option T :=
  match m with
  | None => None
  | Some sm => lookup_loop (String.length host) (values sm) host
  end.

(** The loops of [newRouterGeneration] (cmd/sakhtar-wg/sni.go) that fill the
    matcher: a rule is its egress and the suffixes routed to it. *)
Definition add_rule (m : option (SuffixMatcher T)) (rule : T * list string) :
    option (SuffixMatcher T) :=
  foldl (λ m suffix, (AddFirst m suffix rule.1).1) m rule.2.
Definition add_rules (rules : list (T * list string)) : option (SuffixMatcher T) :=
  foldl add_rule NewSuffixMatcher rules.
End matcher.

(** ** PlanDiff *)
Record Diff := { diff_Add : list string; diff_Delete : list string }.

Definition PlanDiff (current desired : list string) : Diff :=
  let have : gset string := list_to_set current in
  let want : gset string := list_to_set desired in
  {| diff_Add := sort_strings (filter (λ x, x ∉ have) (elements want));
     diff_Delete := sort_strings (filter (λ x, x ∉ want) (elements have)) |}.

(** [planRouteDiff] of cmd/sakhtar-wg/routeplan.go. *)
Definition planRouteDiff (current desired : list string) : Diff :=
  let diff := PlanDiff current desired in
  {| diff_Add := diff_Add diff; diff_Delete := diff_Delete diff |}.

(** ** Label suffixes *)

(** [suf] is [host] itself or what follows one of its dots. *)
Definition label_suffix (suf host : string) : Prop :=
  suf = host ∨ ∃ pre, host = pre +:+ String "."%char suf.

Lemma index_byte_Some c s n :
  index_byte c s = Some n →
  ∃ pre, s = pre +:+ String c (str_drop (n + 1) s) ∧ index_byte c pre = None.
Proof.
  revert n. induction s as [|d s IH]; intros n; simpl; [done|].
  case_decide as Hcd.
  - intros [= <-]. subst. by exists EmptyString.
  - destruct (index_byte c s) as [k|] eqn:E1; [|done]. intros [= <-].
    destruct (IH k) as (pre & Hs & Hpre); [done|].
    exists (String d pre). split; simpl.
    + rewrite str_app_cons. by f_equal.
    + rewrite decide_False by done. by rewrite Hpre.
Qed.

Lemma index_byte_app_None c pre s :
  index_byte c (pre +:+ String c s) ≠ None.
Proof.
  induction pre as [|d pre IH]; simpl.
  - by rewrite decide_True.
  - case_decide; [done|]. by destruct (index_byte c (pre +:+ String c s)).
Qed.

Lemma index_byte_split c pre1 pre2 s1 s2 :
  index_byte c pre1 = None → pre1 +:+ String c s1 = pre2 +:+ String c s2 →
  s1 = s2 ∨ ∃ pre, s1 = pre +:+ String c s2.
Proof.
  revert pre2. induction pre1 as [|d pre1 IH]; intros pre2 H1 Heq.
  - destruct pre2 as [|e pre2]; injection Heq; eauto.
  - simpl in H1. case_decide; [done|].
    destruct pre2 as [|e pre2]; [by injection Heq; intros; simplify_eq|].
    injection Heq as -> Heq. apply (IH pre2); [|done].
    by destruct (index_byte c pre1).
Qed.

(** The two cases of one round of the loop. *)
Lemma label_suffix_no_dot s suf :
  index_byte "."%char s = None → label_suffix suf s ↔ suf = s.
Proof.
  intros H1. split; [|by left]. intros [?|[pre ->]]; [done|].
  by apply index_byte_app_None in H1.
Qed.
Lemma label_suffix_dot s n suf :
  index_byte "."%char s = Some n →
  label_suffix suf s ↔ suf = s ∨ label_suffix suf (str_drop (n + 1) s).
Proof.
  intros H1. destruct (index_byte_Some _ _ _ H1) as (pre & Hs & Hpre). split.
  - intros [?|[pre' Heq]]; [by left|]. right. rewrite Hs in Heq.
    destruct (index_byte_split _ _ _ _ _ Hpre Heq) as [?|[q ?]]; [by left|].
    right. by exists q.
  - intros [?|[->|[q Hq]]]; [by left|by right; eexists|].
    right. exists (pre +:+ String "."%char q). rewrite Hs, Hq.
    by rewrite <-str_app_assoc, str_app_cons.
Qed.
Lemma label_suffix_length suf s :
  label_suffix suf s → suf = s ∨ String.length suf < String.length s.
Proof.
  intros [->|[pre ->]]; [by left|right].
  rewrite str_length_app. simpl. lia.
Qed.

(** ** What [Lookup] returns *)

(** The loop finds the longest non-empty label suffix of [rest] that is a key. *)
Lemma lookup_loop_spec {T} fuel (vals : gmap string T) rest :
  String.length rest ≤ fuel →
  match lookup_loop fuel vals rest with
  | Some v => ∃ suf, label_suffix suf rest ∧ suf ≠ EmptyString ∧ vals !! suf = Some v ∧
      ∀ suf', label_suffix suf' rest → suf' ≠ EmptyString → is_Some (vals !! suf') →
      String.length suf' ≤ String.length suf
  | None => ∀ suf, label_suffix suf rest → suf ≠ EmptyString → vals !! suf = None
  end.
Proof.
  revert rest. induction fuel as [|fuel IH]; intros [|c rest] Hlen; simpl in Hlen;
    try lia; try (simpl; intros suf []%label_suffix_length; destruct suf; naive_solver lia).
  remember (String c rest) as s eqn:Es. simpl lookup_loop. rewrite Es. rewrite <-Es.
  destruct (vals !! s) as [v|] eqn:Ev.
  { exists s. split_and!; try done; [by left|by subst|].
    intros suf' [->|?]%label_suffix_length; lia. }
  destruct (index_byte "."%char s) as [dot|] eqn:Ei.
  - assert (String.length (str_drop (dot + 1) s) ≤ fuel) as Hd.
    { rewrite length_str_drop. subst s. simpl in *. lia. }
    specialize (IH _ Hd). destruct (lookup_loop fuel vals _) as [v|].
    + destruct IH as (suf & Hsuf & Hne & Hv & Hmax). exists suf.
      rewrite label_suffix_dot by done. split_and!; try done; [by right|].
      intros suf' [->|?]%(label_suffix_dot _ _ _ Ei) Hne' Hsome; [|by auto].
      rewrite Ev in Hsome. by destruct Hsome.
    + intros suf [->|?]%(label_suffix_dot _ _ _ Ei) Hne'; [done|by auto].
  - intros suf ->%label_suffix_no_dot; done.
Qed.

(** [Lookup] returns the value of the longest non-empty label suffix of the
    host that is configured, and reports a miss exactly when no label suffix of
    the host is configured. *)
Theorem Lookup_most_specific {T} (sm : SuffixMatcher T) host :
  match Lookup (Some sm) host with
  | Some v => ∃ suf, label_suffix suf host ∧ suf ≠ EmptyString ∧ values sm !! suf = Some v ∧
      ∀ suf', label_suffix suf' host → suf' ≠ EmptyString → is_Some (values sm !! suf') →
      String.length suf' ≤ String.length suf
  | None => ∀ suf, label_suffix suf host → suf ≠ EmptyString → values sm !! suf = None
  end.
Proof. by apply lookup_loop_spec. Qed.

(** ** First rule wins *)

(** The suffixes of the rules in configuration order, each with its egress. *)
Definition flat_rules {T} (rules : list (T * list string)) : list (string * T) :=
  r ← rules; (λ suf, (suf, r.1)) <$> r.2.

(** The first pair of an association list with a given key. *)
Fixpoint first_rule {T} (l : list (string * T)) (suf : string) : option T :=
  match l with
  | [] => None
  | (s, v) :: l => if decide (s = suf) then Some v else first_rule l suf
  end.

Lemma AddFirst_values {T} (sm : SuffixMatcher T) suf v k :
  ∃ sm', (AddFirst (Some sm) suf v).1 = Some sm' ∧
    values sm' !! k = match values sm !! k with
                      | Some w => Some w
                      | None => if decide (suf = k) then Some v else None
                      end.
Proof.
  simpl. destruct (values sm !! suf) as [w|] eqn:E1; simpl; eexists; split; eauto; simpl.
  - destruct (values sm !! k) eqn:E2; [done|]. case_decide; congruence.
  - destruct (decide (suf = k)) as [->|].
    + by rewrite lookup_insert_eq, E1.
    + rewrite lookup_insert_ne by done. by destruct (values sm !! k).
Qed.

Lemma add_rule_flat {T} m (rules : list (T * list string)) :
  foldl add_rule m rules = foldl (λ m p, (AddFirst m p.1 p.2).1) m (flat_rules rules).
Proof.
  revert m. induction rules as [|[v sufs] rules IH]; intros m; [done|].
  unfold flat_rules in *. simpl. rewrite foldl_app, IH. f_equal.
  unfold add_rule. simpl. clear. revert m. induction sufs as [|s sufs IH]; intros m; [done|].
  simpl. apply IH.
Qed.

Lemma add_rules_values {T} (rules : list (T * list string)) :
  ∃ sm, add_rules rules = Some sm ∧ ∀ k, values sm !! k = first_rule (flat_rules rules) k.
Proof.
  unfold add_rules. rewrite add_rule_flat. generalize (flat_rules rules) as l. intros l.
  cut (∀ sm0 : SuffixMatcher T, ∃ sm,
    foldl (λ m p, (AddFirst m p.1 p.2).1) (Some sm0) l = Some sm ∧
    ∀ k, values sm !! k = match values sm0 !! k with Some w => Some w | None => first_rule l k end).
  { intros H. destruct (H {| values := ∅ |}) as (sm & Hsm & Hk). exists sm.
    split; [done|]. intros k. rewrite Hk. simpl. by rewrite lookup_empty. }
  induction l as [|[s v] l IH]; intros sm0.
  { exists sm0. split; [done|]. intros k. by destruct (values sm0 !! k). }
  destruct (AddFirst_values sm0 s v s) as (sm1 & H1 & _). cbn [foldl fst snd]. rewrite H1.
  destruct (IH sm1) as (sm & Hsm & Hk). exists sm. split; [done|]. intros k. rewrite Hk.
  destruct (AddFirst_values sm0 s v k) as (sm1' & H1' & Hk1).
  assert (sm1' = sm1) as -> by congruence. rewrite Hk1.
  destruct (values sm0 !! k); [done|]. simpl. by case_decide.
Qed.

(** The matcher does not look at the egresses: mapping them before or after a
    lookup is the same. *)
Lemma Lookup_map {T U} (f : T → U) (rules : list (T * list string)) host :
  Lookup (add_rules ((λ r, (f r.1, r.2)) <$> rules)) host = f <$> Lookup (add_rules rules) host.
Proof.
  destruct (add_rules_values rules) as (sm&->&Hk).
  destruct (add_rules_values ((λ r, (f r.1, r.2)) <$> rules)) as (sm'&->&Hk').
  assert (∀ k, values sm' !! k = f <$> values sm !! k) as Hv.
  { intros k. rewrite Hk, Hk'. clear. unfold flat_rules. induction rules as [|[v l] rules IH]; [done|].
    cbn. induction l as [|x l IHl]; [done|]. cbn. by case_decide. }
  cbn. generalize (String.length host) as n. intros n. revert host.
  induction n as [|n IH]; intros [|c host]; cbn [lookup_loop]; [done..|].
  rewrite Hv. destruct (values sm !! _); [done|]. cbn [fmap option_fmap option_map].
  by destruct (index_byte _ _).
Qed.

Lemma first_rule_Some {T} (l : list (string * T)) suf v :
  first_rule l suf = Some v ↔
  ∃ i, l !! i = Some (suf, v) ∧ ∀ j w, l !! j = Some (suf, w) → i ≤ j.
Proof.
  induction l as [|[s w] l IH]; simpl.
  { split; [done|]. by intros (i & ? & _). }
  case_decide as Hs; [subst s|rewrite IH]; split.
  - intros [= ->]. exists 0. split; [done|]. lia.
  - intros ([|i] & Hi & Hmin); [by injection Hi as ->|].
    specialize (Hmin 0 w eq_refl). lia.
  - intros (i & Hi & Hmin). exists (S i). split; [done|].
    intros [|j] w'; simpl; [congruence|]. intros Hj. apply Hmin in Hj. lia.
  - intros ([|i] & Hi & Hmin); [by simplify_eq/=|]. exists i. split; [done|].
    intros j w' Hj. specialize (Hmin (S j) w' Hj). lia.
Qed.

Lemma Lookup_in {T} (rules : list (T * list string)) host v :
  Lookup (add_rules rules) host = Some v → v ∈ rules.*1.
Proof.
  destruct (add_rules_values rules) as (sm&->&Hk). intros Hl. cbn in Hl.
  pose proof (lookup_loop_spec _ (values sm) host (le_n _)) as H. rewrite Hl in H.
  destruct H as (suf&_&_&Hv&_). rewrite Hk in Hv. apply first_rule_Some in Hv as (i&Hi&_).
  apply list_elem_of_lookup_2 in Hi. unfold flat_rules in Hi.
  apply list_elem_of_bind in Hi as (r&Hi&Hr). apply list_elem_of_fmap in Hi as (?&[= _ ->]&_).
  by apply list_elem_of_fmap_2.
Qed.

Lemma label_suffix_inj s t host :
  label_suffix s host → label_suffix t host → String.length s = String.length t → s = t.
Proof.
  intros [->|[p Hp]] Ht Hlen; [destruct Ht as [->|[q Hq]]; [done|]|].
  - rewrite Hq, str_length_app in Hlen. simpl in Hlen. lia.
  - destruct Ht as [->|[q Hq]].
    { rewrite Hp, str_length_app in Hlen. simpl in Hlen. lia. }
    rewrite Hp in Hq. apply (f_equal (str_drop (String.length p))) in Hq as Hq'.
    apply (f_equal String.length) in Hq as Hl. rewrite !str_length_app in Hl.
    simpl in Hl. rewrite !str_drop_app in Hq' by lia. congruence.
Qed.

(** Routing by configured rules: the egress chosen for a host is the one of
    a rule whose suffix is a label suffix of the host; no configured label suffix
    of the host is longer, and no earlier rule carries the same suffix. *)
Theorem add_rules_Lookup {T} (rules : list (T * list string)) host v :
  Lookup (add_rules rules) host = Some v ↔
  ∃ i suf, flat_rules rules !! i = Some (suf, v) ∧
    label_suffix suf host ∧ suf ≠ EmptyString ∧
    ∀ j suf' w, flat_rules rules !! j = Some (suf', w) →
      label_suffix suf' host → suf' ≠ EmptyString →
      String.length suf' < String.length suf ∨ (suf' = suf ∧ i ≤ j).
Proof.
  destruct (add_rules_values rules) as (sm & -> & Hk).
  pose proof (lookup_loop_spec _ (values sm) host (le_n _)) as H. generalize dependent (flat_rules rules).
  intros l Hk. split.
  - simpl. intros Hv. rewrite Hv in H. destruct H as (suf & Hsuf & Hne & Hfst & Hmax).
    rewrite Hk in Hfst. setoid_rewrite Hk in Hmax.
    apply first_rule_Some in Hfst as (i & Hi & Hmin). exists i, suf. split_and!; try done.
    intros j suf' w Hj Hsuf' Hne'. destruct (decide (suf' = suf)) as [->|Hd].
    { right. eauto. }
    left. assert (String.length suf' ≠ String.length suf).
    { intros ?. by eapply Hd, label_suffix_inj. }
    cut (String.length suf' ≤ String.length suf); [lia|]. apply Hmax; try done.
    clear -Hj. revert j Hj. induction l as [|[s x] l IH]; intros [|j] Hj; simplify_eq/=.
    + rewrite decide_True by done. eauto.
    + case_decide; eauto.
  - intros (i & suf & Hi & Hsuf & Hne & Hmin).
    assert (first_rule l suf = Some v) as Hv.
    { apply first_rule_Some. exists i. split; [done|].
      intros j w Hj. destruct (Hmin j suf w) as [?|[_ ?]]; [done..|lia|done]. }
    simpl. destruct (lookup_loop _ _ host) as [w|].
    + destruct H as (suf2 & Hsuf2 & Hne2 & Hfst2 & Hmax2).
      rewrite Hk in Hfst2. setoid_rewrite Hk in Hmax2.
      apply first_rule_Some in Hfst2 as Hx. destruct Hx as (i2 & Hi2 & _).
      destruct (Hmin _ _ _ Hi2 Hsuf2 Hne2) as [Hlt|[-> _]]; [|congruence].
      specialize (Hmax2 suf Hsuf Hne (ltac:(eauto))). lia.
    + by rewrite <-Hk, (H suf) in Hv.
Qed.

(** [PlanDiff] is the exact, sorted and duplicate-free difference of the two
    sets: it adds only missing desired items, deletes only present undesired
    items, and carrying it out turns the current set into the desired one. *)
Theorem PlanDiff_exact current desired :
  let d := PlanDiff current desired in
  let have : gset string := list_to_set current in
  let want : gset string := list_to_set desired in
  StronglySorted String.le (diff_Add d) ∧ StronglySorted String.le (diff_Delete d) ∧
  NoDup (diff_Add d) ∧ NoDup (diff_Delete d) ∧
  (∀ x, x ∈ diff_Add d ↔ x ∈ desired ∧ x ∉ current) ∧
  (∀ x, x ∈ diff_Delete d ↔ x ∈ current ∧ x ∉ desired) ∧
  (have ∖ list_to_set (diff_Delete d)) ∪ list_to_set (diff_Add d) = want.
Proof.
  intros d have want.
  assert (∀ x, x ∈ diff_Add d ↔ x ∈ desired ∧ x ∉ current) as HA.
  { intros x. subst d; unfold PlanDiff; simpl. autorewrite with wg.
    rewrite list_elem_of_filter, elem_of_elements, !elem_of_list_to_set. tauto. }
  assert (∀ x, x ∈ diff_Delete d ↔ x ∈ current ∧ x ∉ desired) as HD.
  { intros x. subst d; unfold PlanDiff; simpl. autorewrite with wg.
    rewrite list_elem_of_filter, elem_of_elements, !elem_of_list_to_set. tauto. }
  assert (∀ (P : string → Prop) `{!∀ x, Decision (P x)} (s : gset string),
    NoDup (sort_strings (filter P (elements s)))) as HND.
  { intros. rewrite sort_strings_perm. apply NoDup_filter, NoDup_elements. }
  split_and!; try done; try apply sort_strings_sorted; try apply HND.
  apply set_eq. intros x.
  rewrite elem_of_union, elem_of_difference, !elem_of_list_to_set, HA, HD.
  subst have want. rewrite !elem_of_list_to_set.
  destruct (decide (x ∈ current)), (decide (x ∈ desired)); tauto.
Qed.
