(* ===== verification/KernelPlan.v ===== *)
(** * internal/kernel: ownership-safe planning of kernel objects

    The planner shared by the Linux reconciler and the dry run.  It is pure: two
    snapshots go in, a plan of operations and drift comes out.  [view],
    [apply_ops] and [converged] are the abstract specification: the kernel as a
    map from object keys to a value and an ownership bit, and what carrying out
    a plan must leave behind. *)
From S2P Require Import Prelude.

(** ** Data *)
Definition RouteProtocol : Z := 186.
Definition RulePriorityMin : Z := 31000.
Definition RulePriorityMax : Z := 31999.
Definition FullMarkMask : Z := u32_max.

Inductive Action := Add | Update | Delete.
#[export] Instance Action_eq_dec : EqDecision Action.
Proof. solve_decision. Defined.

(** [Kind] is a string type in the source; an object may carry an empty kind. *)
Definition Link : string := "link".
Definition Address : string := "address".
Definition Route : string := "route".
Definition Rule : string := "rule".

Record Object := {
  o_Kind : string; o_ID : string; o_Value : string;
  o_Owned : bool; o_Evidence : string; o_AllowAdopt : bool }.

Definition key (o : Object) : string := o_Kind o +:+ ":" +:+ o_ID o.

Record Operation := {
  op_Action : Action; op_Kind : string; op_ID : string;
  op_Before : string; op_After : string; op_Evidence : string }.

Record Drift := { d_Kind : string; d_ID : string; d_Blocking : bool; d_Reason : string }.

Record Plan := { Operations : list Operation; Drifts : list Drift }.

Definition HasBlockingDrift (p : Plan) : bool := existsb d_Blocking (Drifts p).

Inductive index_error :=
| MissingKindOrID
| LacksEvidence (k : string)
| DuplicateObject (k : string).

Inductive plan_error :=
| CurrentState (e : index_error)
| DesiredState (e : index_error).

(** ** indexObjects and PlanDiff *)
Definition index_object (desired : bool) (indexed : gmap string Object) (o : Object) :
    result index_error (gmap string Object) :=
  if bool_decide (o_Kind o = "") || bool_decide (o_ID o = "") then Err MissingKindOrID
  else if desired && bool_decide (o_Evidence o = "") then Err (LacksEvidence (key o))
  else match indexed !! key o with
       | Some _ => Err (DuplicateObject (key o))
       | None => Ok (<[key o := o]> indexed)
       end.

Definition indexObjects (objects : list Object) (desired : bool) :
    result index_error (gmap string Object) :=
  foldM (index_object desired) ∅ objects.

Definition collision_reason : string :=
  "desired tuple collides with an object lacking ownership evidence".

Definition plan_nil : Plan := {| Operations := []; Drifts := [] |}.
Definition plan_op (o : Operation) : Plan := {| Operations := [o]; Drifts := [] |}.
Definition plan_drift (d : Drift) : Plan := {| Operations := []; Drifts := [d] |}.

(** The [switch] of the loop over the sorted keys: what one key appends. *)
Definition plan_key (cur dst : option Object) : Plan :=
  match cur, dst with
  | None, None => plan_nil
  | None, Some dst =>
      plan_op {| op_Action := Add; op_Kind := o_Kind dst; op_ID := o_ID dst;
                 op_Before := ""; op_After := o_Value dst; op_Evidence := o_Evidence dst |}
  | Some cur, None =>
      if o_Owned cur then
        plan_op {| op_Action := Delete; op_Kind := o_Kind cur; op_ID := o_ID cur;
                   op_Before := o_Value cur; op_After := ""; op_Evidence := o_Evidence cur |}
      else plan_nil
  | Some cur, Some dst =>
      if negb (o_Owned cur) then
        if o_AllowAdopt dst && bool_decide (o_Value cur = o_Value dst) then
          plan_op {| op_Action := Update; op_Kind := o_Kind dst; op_ID := o_ID dst;
                     op_Before := o_Value cur; op_After := o_Value dst;
                     op_Evidence := o_Evidence dst |}
        else
          plan_drift {| d_Kind := o_Kind dst; d_ID := o_ID dst; d_Blocking := true;
                        d_Reason := collision_reason |}
      else if negb (bool_decide (o_Value cur = o_Value dst)) then
        plan_op {| op_Action := Update; op_Kind := o_Kind dst; op_ID := o_ID dst;
                   op_Before := o_Value cur; op_After := o_Value dst;
                   op_Evidence := o_Evidence cur |}
      else plan_nil
  end.

Definition plan_maps (have want : gmap string Object) : Plan :=
  foldl (λ p k, let q := plan_key (have !! k) (want !! k) in
                {| Operations := Operations p ++ Operations q;
                   Drifts := Drifts p ++ Drifts q |})
    plan_nil (sorted_set (dom have ∪ dom want)).

Definition PlanDiff (current desired : list Object) : result plan_error Plan :=
  match indexObjects current false with
  | Err e => Err (CurrentState e)
  | Ok have =>
      match indexObjects desired true with
      | Err e => Err (DesiredState e)
      | Ok want => Ok (plan_maps have want)
      end
  end.

(** ** ValidateAllocations *)
Record Allocation := {
  al_Name : string; al_Mark : Z; al_Mask : Z; al_Table : Z; al_Priority : Z }.

Inductive allocation_error :=
| NameRequired (i : nat)
| MarkZero (name : string)
| MaskNotExact (name : string) (mask mark : Z)
| TableReserved (name : string) (table : Z)
| PriorityOutside (name : string) (priority : Z)
| TableUsed (name : string) (table : Z) (by_name : string)
| PriorityUsed (name : string) (priority : Z) (by_name : string)
| SelectorsOverlap (b a : string).

(** The inner loop over [allocations[:i]]. *)
Fixpoint check_pairs (a : Allocation) (prev : list Allocation) : result allocation_error unit :=
  match prev with
  | [] => Ok tt
  | b :: prev =>
      if (al_Table a =? al_Table b)%Z then Err (TableUsed (al_Name a) (al_Table a) (al_Name b))
      else if (al_Priority a =? al_Priority b)%Z then
        Err (PriorityUsed (al_Name a) (al_Priority a) (al_Name b))
      else
        let common := Z.land (al_Mask a) (al_Mask b) in
        if (Z.land (al_Mark a) common =? Z.land (al_Mark b) common)%Z then
          Err (SelectorsOverlap (al_Name b) (al_Name a))
        else check_pairs a prev
  end.

Definition check_allocation (prev : list Allocation) (a : Allocation) :
    result allocation_error unit :=
  if bool_decide (al_Name a = "") then Err (NameRequired (length prev))
  else if (al_Mark a =? 0)%Z then Err (MarkZero (al_Name a))
  else if (al_Mask a =? 0)%Z || negb (Z.land (al_Mark a) (al_Mask a) =? al_Mark a)%Z then
    Err (MaskNotExact (al_Name a) (al_Mask a) (al_Mark a))
  else if (al_Table a <=? 0)%Z || (al_Table a =? 253)%Z || (al_Table a =? 254)%Z
          || (al_Table a =? 255)%Z then Err (TableReserved (al_Name a) (al_Table a))
  else if (al_Priority a <? RulePriorityMin)%Z || (RulePriorityMax <? al_Priority a)%Z then
    Err (PriorityOutside (al_Name a) (al_Priority a))
  else check_pairs a prev.

Definition ValidateAllocations (allocations : list Allocation) :
    result allocation_error unit :=
  match foldM (λ prev a, match check_allocation prev a with
                         | Ok _ => Ok (prev ++ [a])
                         | Err e => Err e
                         end) [] allocations with
  | Ok _ => Ok tt
  | Err e => Err e
  end.

(** ** Indexing *)

(** What [indexObjects] accepts. *)
Definition indexable (desired : bool) (objects : list Object) : Prop :=
  NoDup (key <$> objects) ∧
  Forall (λ o, o_Kind o ≠ "" ∧ o_ID o ≠ "" ∧ (desired = true → o_Evidence o ≠ "")) objects.

Lemma index_object_Ok desired m o m' :
  index_object desired m o = Ok m' ↔
  o_Kind o ≠ "" ∧ o_ID o ≠ "" ∧ (desired = true → o_Evidence o ≠ "") ∧
  m !! key o = None ∧ m' = <[key o := o]> m.
Proof.
  unfold index_object. repeat case_bool_decide; simpl; try (split; naive_solver).
  all: destruct desired; simpl; destruct (m !! key o); naive_solver.
Qed.

(** The index maps exactly the keys of the list to their objects. *)
Lemma indexObjects_Ok objects desired m :
  indexObjects objects desired = Ok m ↔
  indexable desired objects ∧ m = list_to_map ((λ o, (key o, o)) <$> objects).
Proof.
  unfold indexObjects, indexable. revert m.
  induction objects as [|o l IH] using rev_ind; intros m.
  { simpl. split; [intros [= <-]; split_and!; constructor|naive_solver]. }
  assert (((λ o, (key o, o)) <$> l).*1 = key <$> l) as Hfst
    by (rewrite <-list_fmap_compose; done).
  rewrite foldM_app, !fmap_app, Forall_app. simpl. split.
  - destruct (foldM _ ∅ l) as [m1|e] eqn:E1; [|done].
    destruct (proj1 (IH m1) eq_refl) as [[Hnd Hall] ->].
    destruct (index_object _ _ o) as [m2|] eqn:E2; [|done]. intros [= <-].
    apply index_object_Ok in E2 as (?&?&?&Hnone&->).
    apply not_elem_of_list_to_map in Hnone. rewrite Hfst in Hnone.
    split_and!; auto.
    + rewrite NoDup_app. split_and!; [done| |by repeat constructor; inversion 1].
      intros x Hx ->%list_elem_of_singleton. done.
    + rewrite list_to_map_snoc by (by rewrite Hfst). done.
  - intros [[Hnd [Hall Ho]] ->].
    apply NoDup_app in Hnd as (Hnd&Hni&_). inversion_clear Ho as [|?? (?&?&?) _].
    assert (key o ∉ (key <$> l)) as Hk by (intros ?; eapply Hni; [done|by left]).
    destruct (IH (list_to_map ((λ o, (key o, o)) <$> l))) as [_ ->]; [|done].
    rewrite list_to_map_snoc by (by rewrite Hfst).
    destruct (index_object desired _ o) as [m2|] eqn:E2.
    + by apply index_object_Ok in E2 as (?&?&?&?&->).
    + exfalso. revert E2. set (m1 := list_to_map _ : gmap string Object).
      assert (index_object desired m1 o = Ok (<[key o:=o]> m1)) as ->; [|done].
      apply index_object_Ok. split_and!; auto.
      apply not_elem_of_list_to_map_1. by rewrite Hfst.
Qed.

Lemma indexObjects_key objects desired m k o :
  indexObjects objects desired = Ok m → m !! k = Some o → key o = k ∧ o ∈ objects.
Proof.
  intros [_ ->]%indexObjects_Ok Ho%elem_of_list_to_map_2.
  apply list_elem_of_fmap in Ho as (o'&[= -> ->]&?). done.
Qed.

Lemma indexObjects_elem objects desired m o :
  indexObjects objects desired = Ok m → o ∈ objects → m !! key o = Some o.
Proof.
  intros [[Hnd _] ->]%indexObjects_Ok Ho. apply elem_of_list_to_map_1.
  - by rewrite <-list_fmap_compose.
  - by apply (list_elem_of_fmap_2 (λ o, (key o, o))).
Qed.

Lemma indexObjects_None objects desired m k :
  indexObjects objects desired = Ok m → m !! k = None → ∀ o, o ∈ objects → key o ≠ k.
Proof.
  intros [_ ->]%indexObjects_Ok Hn%not_elem_of_list_to_map o Ho <-. apply Hn.
  rewrite <-list_fmap_compose. by apply (list_elem_of_fmap_2 key).
Qed.

Lemma indexObjects_perm objects objects' desired m :
  objects ≡ₚ objects' → indexObjects objects desired = Ok m →
  indexObjects objects' desired = Ok m.
Proof.
  rewrite !indexObjects_Ok. intros Hp [[Hnd Hall] ->]. unfold indexable.
  split; [split; by rewrite <-Hp|].
  apply list_to_map_proper; [by rewrite <-list_fmap_compose|].
  by apply fmap_Permutation.
Qed.

(** ** The shape of a plan *)
Definition plan_keys (have want : gmap string Object) : list string :=
  sorted_set (dom have ∪ dom want).

Lemma plan_maps_alt have want :
  plan_maps have want =
  {| Operations := plan_keys have want ≫= (λ k, Operations (plan_key (have !! k) (want !! k)));
     Drifts := plan_keys have want ≫= (λ k, Drifts (plan_key (have !! k) (want !! k))) |}.
Proof.
  unfold plan_maps, plan_keys. generalize (sorted_set (dom have ∪ dom want)) as l.
  assert (∀ l p, foldl (λ p k, let q := plan_key (have !! k) (want !! k) in
      {| Operations := Operations p ++ Operations q; Drifts := Drifts p ++ Drifts q |}) p l =
    {| Operations := Operations p ++ (l ≫= (λ k, Operations (plan_key (have !! k) (want !! k))));
       Drifts := Drifts p ++ (l ≫= (λ k, Drifts (plan_key (have !! k) (want !! k)))) |}) as H.
  { induction l as [|k l IH]; intros [ops ds]; csimpl; [by rewrite !app_nil_r|].
    rewrite IH. simpl. by rewrite <-!app_assoc. }
  intros l. apply H.
Qed.

Lemma elem_of_plan_keys have want k :
  k ∈ plan_keys have want ↔ is_Some (have !! k) ∨ is_Some (want !! k).
Proof.
  unfold plan_keys. rewrite elem_of_sorted_set, elem_of_union, !elem_of_dom. done.
Qed.

Lemma elem_of_plan_ops have want op :
  op ∈ Operations (plan_maps have want) ↔
  ∃ k, op ∈ Operations (plan_key (have !! k) (want !! k)).
Proof.
  rewrite plan_maps_alt. simpl. rewrite list_elem_of_bind. split.
  - intros (k&?&_). eauto.
  - intros (k&Hop). exists k. split; [done|]. apply elem_of_plan_keys.
    destruct (have !! k), (want !! k); eauto. by apply elem_of_nil in Hop.
Qed.

Lemma elem_of_plan_drifts have want d :
  d ∈ Drifts (plan_maps have want) ↔
  ∃ k, d ∈ Drifts (plan_key (have !! k) (want !! k)).
Proof.
  rewrite plan_maps_alt. simpl. rewrite list_elem_of_bind. split.
  - intros (k&?&_). eauto.
  - intros (k&Hop). exists k. split; [done|]. apply elem_of_plan_keys.
    destruct (have !! k), (want !! k); eauto. by apply elem_of_nil in Hop.
Qed.

(** What each action of a key says about its current and desired object. *)
Lemma plan_key_ops cur dst op :
  op ∈ Operations (plan_key cur dst) →
  match op_Action op with
  | Add => cur = None ∧ ∃ d, dst = Some d ∧ op_After op = o_Value d
  | Update => ∃ c d, cur = Some c ∧ dst = Some d ∧
      op_Before op = o_Value c ∧ op_After op = o_Value d ∧
      (o_Owned c = true ∧ o_Value c ≠ o_Value d ∨
       o_Owned c = false ∧ o_AllowAdopt d = true ∧ o_Value c = o_Value d)
  | Delete => dst = None ∧ ∃ c, cur = Some c ∧ op_Before op = o_Value c ∧ o_Owned c = true
  end.
Proof.
  unfold plan_key. destruct cur as [c|], dst as [d|];
    [destruct (o_Owned c) eqn:Eo; simpl; [|destruct (o_AllowAdopt d) eqn:Ea];
       try case_bool_decide|destruct (o_Owned c) eqn:Eo|..]; simpl;
    rewrite ?elem_of_nil, ?list_elem_of_singleton; try done; intros ->; simpl;
    naive_solver.
Qed.

Lemma plan_key_drifts cur dst dr :
  dr ∈ Drifts (plan_key cur dst) →
  ∃ c d, cur = Some c ∧ dst = Some d ∧ o_Owned c = false ∧
    ¬ (o_AllowAdopt d = true ∧ o_Value c = o_Value d).
Proof.
  unfold plan_key. destruct cur as [c|], dst as [d|];
    [destruct (o_Owned c) eqn:Eo; simpl; [|destruct (o_AllowAdopt d) eqn:Ea];
       try case_bool_decide|destruct (o_Owned c) eqn:Eo|..]; simpl;
    rewrite ?elem_of_nil; try done; intros _; exists c, d; 
    refine (conj eq_refl (conj eq_refl (conj Eo _)));
    intros [??]; congruence.
Qed.

Lemma HasBlockingDrift_true p : HasBlockingDrift p = true ↔ ∃ d, d ∈ Drifts p ∧ d_Blocking d = true.
Proof.
  unfold HasBlockingDrift. rewrite existsb_exists.
  setoid_rewrite list_elem_of_In. done.
Qed.

(** ** The abstract kernel *)

(** What the planner sees of the kernel: each key with its value and whether
    this application owns it. *)
Abbreviation kview := (gmap string (string * bool)).
Definition view (m : gmap string Object) : kview := (λ o, (o_Value o, o_Owned o)) <$> m.

Definition op_key (op : Operation) : string := op_Kind op +:+ ":" +:+ op_ID op.

(** Carrying out one operation; whatever it writes is owned afterwards. *)
Definition apply_op (m : kview) (op : Operation) : kview :=
  match op_Action op with
  | Delete => delete (op_key op) m
  | _ => <[op_key op := (op_After op, true)]> m
  end.
Definition apply_ops : kview → list Operation → kview := foldl apply_op.

(** The promise: what is desired is present and owned, an owned object that is
    not desired is gone, and every foreign object keeps its value. *)
Definition converged_at (cur dst : option Object) : option (string * bool) :=
  match dst, cur with
  | Some d, _ => Some (o_Value d, true)
  | None, Some c => if o_Owned c then None else Some (o_Value c, false)
  | None, None => None
  end.
Definition converged (have want : gmap string Object) : kview :=
  merge converged_at have want.

Lemma lookup_converged have want k :
  converged have want !! k = converged_at (have !! k) (want !! k).
Proof.
  unfold converged. rewrite lookup_merge.
  by destruct (have !! k), (want !! k).
Qed.

Definition keyed (m : gmap string Object) : Prop := ∀ k o, m !! k = Some o → key o = k.

Lemma indexObjects_keyed objects desired m :
  indexObjects objects desired = Ok m → keyed m.
Proof. intros H k o ?. by eapply indexObjects_key. Qed.

Lemma plan_key_op_key have want k op :
  keyed have → keyed want →
  op ∈ Operations (plan_key (have !! k) (want !! k)) → op_key op = k.
Proof.
  intros Hh Hw. unfold plan_key, op_key.
  destruct (have !! k) as [c|] eqn:E1, (want !! k) as [d|] eqn:E2; repeat case_match;
    simpl; rewrite ?list_elem_of_singleton, ?elem_of_nil; try done; intros ->; simpl.
  all: first [by apply Hw|by apply Hh].
Qed.

(** Operations of distinct keys do not interfere. *)
Lemma apply_ops_lookup (f : string → list Operation) ks m k :
  (∀ k op, op ∈ f k → op_key op = k) → NoDup ks →
  apply_ops m (ks ≫= f) !! k =
  if decide (k ∈ ks) then apply_ops m (f k) !! k else m !! k.
Proof.
  intros Hf. unfold apply_ops.
  assert (∀ ops m, (∀ op, op ∈ ops → op_key op ≠ k) → foldl apply_op m ops !! k = m !! k) as Hne.
  { induction ops as [|op ops IH]; intros m' Hops; simpl; [done|].
    rewrite IH by (intros; apply Hops; by right).
    unfold apply_op. assert (op_key op ≠ k) by (apply Hops; by left).
    destruct (op_Action op); rewrite ?lookup_insert_ne, ?lookup_delete_ne by done; done. }
  assert (∀ ops m1 m2, m1 !! k = m2 !! k → foldl apply_op m1 ops !! k = foldl apply_op m2 ops !! k)
    as Hcong.
  { induction ops as [|op ops IH]; intros m1 m2 Hm; simpl; [done|]. apply IH. unfold apply_op.
    destruct (decide (op_key op = k)) as [->|].
    - destruct (op_Action op); by rewrite ?lookup_insert_eq, ?lookup_delete_eq.
    - destruct (op_Action op); by rewrite ?lookup_insert_ne, ?lookup_delete_ne by done. }
  revert m. induction ks as [|k' ks IH]; intros m Hnd; [done|].
  apply NoDup_cons in Hnd as [Hni Hnd]. csimpl. rewrite foldl_app, IH by done.
  destruct (decide (k' = k)) as [->|Hkk].
  - rewrite decide_False, decide_True by (done || by left). done.
  - assert (foldl apply_op m (f k') !! k = m !! k) as Hm.
    { apply Hne. intros op Hop. by rewrite (Hf k' op). }
    destruct (decide (k ∈ ks)).
    + rewrite decide_True by (by right). by apply Hcong.
    + rewrite decide_False by (by inversion 1). done.
Qed.

(** One key: without drift, its operations take it to the promised state. *)
Lemma plan_key_converges have want k :
  keyed have → keyed want →
  Drifts (plan_key (have !! k) (want !! k)) = [] →
  apply_ops (view have) (Operations (plan_key (have !! k) (want !! k))) !! k =
  converged_at (have !! k) (want !! k).
Proof.
  intros Hh Hw. unfold plan_key, converged_at.
  destruct (have !! k) as [c|] eqn:E1, (want !! k) as [d|] eqn:E2; simpl.
  - destruct (o_Owned c) eqn:Eo; simpl.
    + case_bool_decide as Ev; simpl; intros _.
      * unfold view. rewrite lookup_fmap, E1. simpl. by rewrite Eo, Ev.
      * unfold apply_op. simpl. fold (key d). unfold op_key; simpl.
        fold (key d). rewrite (Hw _ _ E2). by rewrite lookup_insert_eq.
    + case_match; simpl; [|done]. intros _.
      unfold apply_op, op_key; simpl. fold (key d). rewrite (Hw _ _ E2).
      by rewrite lookup_insert_eq.
  - intros _. destruct (o_Owned c) eqn:Eo; simpl.
    + unfold apply_op, op_key; simpl. fold (key c). rewrite (Hh _ _ E1).
      by rewrite lookup_delete_eq.
    + unfold view. rewrite lookup_fmap, E1. simpl. by rewrite Eo.
  - intros _. unfold apply_op, op_key; simpl. fold (key d). rewrite (Hw _ _ E2).
    by rewrite lookup_insert_eq.
  - intros _. unfold view. by rewrite lookup_fmap, E1.
Qed.

Lemma plan_maps_converges have want :
  keyed have → keyed want → HasBlockingDrift (plan_maps have want) = false →
  apply_ops (view have) (Operations (plan_maps have want)) = converged have want.
Proof.
  intros Hh Hw Hb. apply map_eq. intros k. rewrite lookup_converged, plan_maps_alt. simpl.
  rewrite (apply_ops_lookup (λ k, Operations (plan_key (have !! k) (want !! k))));
    [|by eauto using plan_key_op_key|apply sorted_set_NoDup].
  assert (Drifts (plan_key (have !! k) (want !! k)) = []) as Hd.
  { destruct (Drifts (plan_key _ _)) as [|d ds] eqn:E; [done|]. exfalso.
    apply not_true_iff_false in Hb. apply Hb, HasBlockingDrift_true. exists d. split.
    - apply elem_of_plan_drifts. exists k. rewrite E. by left.
    - clear -E. unfold plan_key in E. repeat case_match; simpl in E; simplify_eq; done. }
  destruct (decide _) as [|Hni]; [by apply plan_key_converges|].
  rewrite elem_of_plan_keys in Hni. unfold view. rewrite lookup_fmap.
  destruct (have !! k), (want !! k); naive_solver.
Qed.

(** Planning from a state that already is as promised plans nothing. *)
Lemma plan_maps_fixpoint have have' want :
  view have' = converged have want → plan_maps have' want = plan_nil.
Proof.
  intros Hv. rewrite plan_maps_alt.
  assert (∀ k, plan_key (have' !! k) (want !! k) = plan_nil) as Hk.
  { intros k. pose proof (f_equal (λ m : kview, m !! k) Hv) as Hvk. simpl in Hvk.
    rewrite lookup_converged in Hvk. unfold view in Hvk. rewrite lookup_fmap in Hvk.
    unfold plan_key. destruct (have' !! k) as [c|], (want !! k) as [d|]; simpl in Hvk.
    - injection Hvk as Hval Hown. rewrite Hown, Hval, bool_decide_true by done. done.
    - destruct (have !! k) as [h|]; simpl in Hvk; [|done].
      destruct (o_Owned h); [done|]. injection Hvk as _ Hown. by rewrite Hown.
    - done.
    - done. }
  unfold plan_nil.
  assert (∀ l : list string,
    (l ≫= λ k, Operations (plan_key (have' !! k) (want !! k))) = [] ∧
    (l ≫= λ k, Drifts (plan_key (have' !! k) (want !! k))) = []) as Hl.
  { induction l as [|k l [IH1 IH2]]; [done|]. csimpl. rewrite IH1, IH2, !Hk. done. }
  destruct (Hl (plan_keys have' want)) as [-> ->]. done.
Qed.

(** A plan has at most one operation for a key. *)
Lemma plan_maps_NoDup have want :
  keyed have → keyed want → NoDup (op_key <$> Operations (plan_maps have want)).
Proof.
  intros Hh Hw. rewrite plan_maps_alt. simpl. unfold plan_keys.
  assert (∀ k, NoDup (op_key <$> Operations (plan_key (have !! k) (want !! k)))) as Hone.
  { intros k. unfold plan_key. repeat case_match; simpl; repeat constructor; set_solver. }
  pose proof (sorted_set_NoDup (dom have ∪ dom want)) as Hnd. revert Hnd.
  generalize (sorted_set (dom have ∪ dom want)) as ks.
  induction 1 as [|k ks Hk Hnd IH]; csimpl; [constructor|].
  rewrite fmap_app. apply NoDup_app. split_and!; [apply Hone| |done].
  intros x (op&->&Hop)%list_elem_of_fmap (op'&Heq&(k'&Hop'&Hk')%list_elem_of_bind)%list_elem_of_fmap.
  rewrite (plan_key_op_key _ _ _ _ Hh Hw Hop), (plan_key_op_key _ _ _ _ Hh Hw Hop') in Heq. congruence.
Qed.

(** ** Allocations *)

(** The packets an [ip rule] with this fwmark/mask selects. *)
Definition selects (a : Allocation) (packet_mark : Z) : Prop :=
  Z.land packet_mark (al_Mask a) = al_Mark a.

(** A single allocation inside the documented ranges. *)
Definition allocation_ok (a : Allocation) : Prop :=
  al_Name a ≠ "" ∧ al_Mark a ≠ 0%Z ∧ al_Mask a ≠ 0%Z ∧
  Z.land (al_Mark a) (al_Mask a) = al_Mark a ∧
  (0 < al_Table a)%Z ∧ ¬ (253 ≤ al_Table a ≤ 255)%Z ∧
  (RulePriorityMin ≤ al_Priority a ≤ RulePriorityMax)%Z.

(** Two allocations that share no table, no priority and no packet mark. *)
Definition compatible (b a : Allocation) : Prop :=
  al_Table b ≠ al_Table a ∧ al_Priority b ≠ al_Priority a ∧
  ∀ m, selects b m → selects a m → False.

(** The mask arithmetic of [check_pairs] decides whether the selectors share a
    packet mark; the shared mark is the union of the two. *)
Lemma selectors_overlap a b :
  Z.land (al_Mark a) (al_Mask a) = al_Mark a →
  Z.land (al_Mark b) (al_Mask b) = al_Mark b →
  Z.land (al_Mark a) (Z.land (al_Mask a) (al_Mask b)) =
    Z.land (al_Mark b) (Z.land (al_Mask a) (al_Mask b)) ↔
  ∃ m, selects b m ∧ selects a m.
Proof.
  unfold selects. intros Ha Hb. split.
  - intros Hc. exists (Z.lor (al_Mark a) (al_Mark b)).
    split; apply Z.bits_inj'; intros n Hn;
      apply (f_equal (λ z, Z.testbit z n)) in Ha, Hb, Hc;
      rewrite ?Z.land_spec, ?Z.lor_spec in *;
      destruct (Z.testbit (al_Mark a) n), (Z.testbit (al_Mark b) n),
        (Z.testbit (al_Mask a) n), (Z.testbit (al_Mask b) n); simpl in *; congruence.
  - intros (m&Hmb&Hma). rewrite <-Hma at 1. rewrite <-Hmb at 1.
    apply Z.bits_inj'. intros n Hn. rewrite !Z.land_spec.
    destruct (Z.testbit m n), (Z.testbit (al_Mask a) n), (Z.testbit (al_Mask b) n); done.
Qed.

Lemma check_pairs_Ok a prev :
  Z.land (al_Mark a) (al_Mask a) = al_Mark a →
  Forall (λ b, Z.land (al_Mark b) (al_Mask b) = al_Mark b) prev →
  check_pairs a prev = Ok tt ↔ Forall (λ b, compatible b a) prev.
Proof.
  intros Ha. induction 1 as [|b prev Hb Hprev IH]; simpl; [done|].
  rewrite Forall_cons. unfold compatible at 1.
  pose proof (selectors_overlap a b Ha Hb) as Ho.
  destruct (Z.eqb_spec (al_Table a) (al_Table b)); [split; [done|]; intros [[? ?] ?]; congruence|].
  destruct (Z.eqb_spec (al_Priority a) (al_Priority b)); [split; [done|]; intros [(?&?&?) ?]; congruence|].
  destruct (Z.eqb_spec (Z.land (al_Mark a) (Z.land (al_Mask a) (al_Mask b)))
    (Z.land (al_Mark b) (Z.land (al_Mask a) (al_Mask b)))) as [Heq|Hne].
  - apply Ho in Heq as (m&?&?). split; [done|]. intros [(_&_&Hm) _]. by destruct (Hm m).
  - rewrite IH. split; [|tauto]. intros Hp. split_and!; [congruence..| |done].
    intros m ??. apply Hne, Ho. eauto.
Qed.

Lemma check_allocation_Ok prev a :
  Forall allocation_ok prev →
  check_allocation prev a = Ok tt ↔ allocation_ok a ∧ Forall (λ b, compatible b a) prev.
Proof.
  intros Hprev. unfold check_allocation, allocation_ok, RulePriorityMin, RulePriorityMax.
  case_bool_decide; [split; naive_solver|].
  destruct (Z.eqb_spec (al_Mark a) 0); [split; naive_solver|].
  destruct (Z.eqb_spec (al_Mask a) 0); [split; naive_solver|]. simpl.
  destruct (Z.eqb_spec (Z.land (al_Mark a) (al_Mask a)) (al_Mark a)); simpl; [|split; naive_solver].
  destruct ((al_Table a <=? 0)%Z || _ || _ || _) eqn:Et.
  { split; [done|]. lia. }
  destruct ((al_Priority a <? 31000)%Z || _) eqn:Ep.
  { split; [done|]. lia. }
  rewrite check_pairs_Ok; [|done|].
  - split; [|tauto]. intros. split; [|done]. split_and!; try done; lia.
  - eapply Forall_impl; [done|]. intros b (?&?&?&?&?). done.
Qed.

(** Every element stands in [R] to every later one. *)
Definition pairwise {A} (R : A → A → Prop) (l : list A) : Prop :=
  ∀ i j a b, i < j → l !! i = Some a → l !! j = Some b → R a b.

Lemma pairwise_snoc {A} (R : A → A → Prop) l a :
  pairwise R (l ++ [a]) ↔ pairwise R l ∧ Forall (λ b, R b a) l.
Proof.
  split.
  - intros H. split.
    + intros i j x y Hij Hi Hj. apply (H i j); [done|by apply lookup_app_l_Some..].
    + apply Forall_lookup. intros i x Hi. pose proof (lookup_lt_Some _ _ _ Hi).
      apply (H i (length l)); [done|by apply lookup_app_l_Some|].
      rewrite lookup_app_r, Nat.sub_diag by done. done.
  - intros [H1 H2] i j x y Hij Hi Hj.
    assert (i < length l) as Hlt.
    { apply lookup_lt_Some in Hj. rewrite length_app in Hj. simpl in Hj. lia. }
    rewrite lookup_app_l in Hi by done. apply lookup_app_Some in Hj as [Hj|[? Hj]].
    + by apply (H1 i j).
    + destruct (j - length l) eqn:E; [|done]. simplify_eq/=.
      rewrite Forall_lookup in H2. eauto.
Qed.

Lemma pairwise_NoDup {A B} (R : A → A → Prop) (f : A → B) l : (∀ a b, R a b → f a ≠ f b) → pairwise R l → NoDup (f <$> l).
Proof.
  intros Hf Hp. apply NoDup_alt. intros i j x. rewrite !list_lookup_fmap.
  destruct (l !! i) as [a|] eqn:Hi; [|done]. destruct (l !! j) as [b|] eqn:Hj; [|done]. cbn. intros [= <-] [= Heq].
  destruct (Nat.lt_trichotomy i j) as [Hlt|[?|Hlt]]; [|done|]; exfalso.
  - apply (Hf a b); [by eapply Hp|done].
  - apply (Hf b a); [by eapply Hp|done].
Qed.

Lemma ValidateAllocations_iff l :
  ValidateAllocations l = Ok tt ↔ Forall allocation_ok l ∧ pairwise compatible l.
Proof.
  unfold ValidateAllocations. set (f := λ _ _, _).
  assert (∀ l prev, Forall allocation_ok prev → pairwise compatible prev →
    (∃ r, foldM f prev l = Ok r) ↔
      Forall allocation_ok (prev ++ l) ∧ pairwise compatible (prev ++ l)) as H.
  { clear l. induction l as [|a l IH]; intros prev H1 H2; simpl.
    - rewrite app_nil_r. naive_solver.
    - rewrite cons_middle, app_assoc. unfold f at 1.
      pose proof (check_allocation_Ok prev a H1) as Hc.
      destruct (check_allocation prev a) as [[]|e].
      + destruct (proj1 Hc eq_refl) as [Ha Hpa]. apply IH; [by apply Forall_app; auto|].
        apply pairwise_snoc. done.
      + split; [naive_solver|]. intros [Hall Hpw]. apply Forall_app in Hall as [Hall _].
        apply Forall_app in Hall as [_ Ha]. rewrite Forall_singleton in Ha.
        assert (pairwise compatible (prev ++ [a])) as [_ Hp]%pairwise_snoc.
        { intros i j x y Hij Hi Hj. eapply Hpw; [done|by apply lookup_app_l_Some..]. }
        discriminate (proj2 Hc (conj Ha Hp)). }
  specialize (H l [] (Forall_nil_2 _)). simpl in H. rewrite <-H; [|intros ???? _ ?; done].
  destruct (foldM f [] l); naive_solver.
Qed.

(** ** Properties *)

(** C9: ownership safety.  A plan only deletes an object this application owns
    and that is not desired, only updates an object it owns or one it may adopt
    because it already has the desired value, and only adds at a free key. *)
Theorem PlanDiff_ownership current desired p op :
  PlanDiff current desired = Ok p → op ∈ Operations p →
  match op_Action op with
  | Add => ∃ d, d ∈ desired ∧ key d = op_key op ∧ op_After op = o_Value d ∧
             ∀ c, c ∈ current → key c ≠ op_key op
  | Update => ∃ c d, c ∈ current ∧ d ∈ desired ∧ key c = op_key op ∧ key d = op_key op ∧
             op_Before op = o_Value c ∧ op_After op = o_Value d ∧
             (o_Owned c = true ∧ o_Value c ≠ o_Value d ∨
              o_Owned c = false ∧ o_AllowAdopt d = true ∧ o_Value c = o_Value d)
  | Delete => ∃ c, c ∈ current ∧ key c = op_key op ∧ op_Before op = o_Value c ∧
             o_Owned c = true ∧ ∀ d, d ∈ desired → key d ≠ op_key op
  end.
Proof.
  unfold PlanDiff.
  destruct (indexObjects current false) as [have|] eqn:Eh; [|done].
  destruct (indexObjects desired true) as [want|] eqn:Ew; [|done].
  intros [= <-] (k&Hop)%elem_of_plan_ops.
  pose proof (plan_key_op_key _ _ _ _ (indexObjects_keyed _ _ _ Eh)
    (indexObjects_keyed _ _ _ Ew) Hop) as Hk. rewrite Hk.
  pose proof (indexObjects_None _ _ _ k Eh) as Hhn.
  pose proof (indexObjects_None _ _ _ k Ew) as Hwn.
  apply plan_key_ops in Hop.
  destruct (op_Action op);
    repeat match goal with
    | H : _ ∧ _ |- _ => destruct H
    | H : ∃ _, _ |- _ => destruct H
    | H : have !! _ = Some _ |- _ => destruct (indexObjects_key _ _ _ _ _ Eh H); clear H
    | H : want !! _ = Some _ |- _ => destruct (indexObjects_key _ _ _ _ _ Ew H); clear H
    end; eauto 10.
Qed.

Lemma PlanDiff_ownership_witness :
  let o := {| o_Kind := "route"; o_ID := "a"; o_Value := "v"; o_Owned := true;
              o_Evidence := "e"; o_AllowAdopt := false |} in
  ∃ c, c ∈ [o] ∧ o_Owned c = true.
Proof.
  intros o.
  destruct (PlanDiff_ownership [o] [] _
    {| op_Action := Delete; op_Kind := "route"; op_ID := "a"; op_Before := "v";
       op_After := ""; op_Evidence := "e" |} eq_refl) as (c&?&?&?&?&?).
  - vm_compute. left.
  - by exists c.
Defined.

(** C10: convergence.  Carrying out a plan without blocking drift turns the
    observed kernel into the promised one, and planning again from any
    observation of that kernel plans nothing. *)
Theorem PlanDiff_converges current desired have want p :
  indexObjects current false = Ok have → indexObjects desired true = Ok want →
  PlanDiff current desired = Ok p → HasBlockingDrift p = false →
  apply_ops (view have) (Operations p) = converged have want ∧
  ∀ current' have', indexObjects current' false = Ok have' →
    view have' = apply_ops (view have) (Operations p) →
    PlanDiff current' desired = Ok plan_nil.
Proof.
  unfold PlanDiff. intros Eh Ew. rewrite Eh, Ew. intros [= <-] Hb.
  assert (apply_ops (view have) (Operations (plan_maps have want)) = converged have want) as Hc
    by eauto using plan_maps_converges, indexObjects_keyed.
  split; [done|]. intros current' have' -> Hv. rewrite Hc in Hv.
  by rewrite (plan_maps_fixpoint _ _ _ Hv).
Qed.

Lemma PlanDiff_converges_witness :
  let o := {| o_Kind := "route"; o_ID := "a"; o_Value := "v"; o_Owned := true;
              o_Evidence := "e"; o_AllowAdopt := false |} in
  let d := {| o_Kind := "rule"; o_ID := "b"; o_Value := "w"; o_Owned := true;
              o_Evidence := "e"; o_AllowAdopt := false |} in
  ∃ m, m !! "rule:b" = Some ("w", true) ∧ m !! "route:a" = None ∧
    apply_ops (view {[ "route:a" := o ]})
      (Operations (plan_maps {[ "route:a" := o ]} {[ "rule:b" := d ]})) = m.
Proof.
  intros o d. exists (converged {[ "route:a" := o ]} {[ "rule:b" := d ]}).
  split; [reflexivity|]. split; [reflexivity|].
  refine (proj1 (PlanDiff_converges [o] [d] {[ "route:a" := o ]} {[ "rule:b" := d ]} _ _ _ _ _));
    vm_compute; reflexivity.
Defined.

(** Blocking drift is exactly a collision: a desired tuple held by an object
    without ownership evidence that may not be adopted as it stands. *)
Theorem PlanDiff_drift current desired p :
  PlanDiff current desired = Ok p →
  HasBlockingDrift p = true ↔
  ∃ c d, c ∈ current ∧ d ∈ desired ∧ key c = key d ∧ o_Owned c = false ∧
         ¬ (o_AllowAdopt d = true ∧ o_Value c = o_Value d).
Proof.
  unfold PlanDiff.
  destruct (indexObjects current false) as [have|] eqn:Eh; [|done].
  destruct (indexObjects desired true) as [want|] eqn:Ew; [|done].
  intros [= <-]. rewrite HasBlockingDrift_true. setoid_rewrite elem_of_plan_drifts. split.
  - intros (dr&(k&Hd)&_). apply plan_key_drifts in Hd as (c&d&Ec&Ed&?).
    apply (indexObjects_key _ _ _ _ _ Eh) in Ec as [<- ?].
    apply (indexObjects_key _ _ _ _ _ Ew) in Ed as [? ?]. exists c, d. naive_solver.
  - intros (c&d&Hc&Hd&Hk&Ho&Ha).
    apply (indexObjects_elem _ _ _ _ Eh) in Hc. apply (indexObjects_elem _ _ _ _ Ew) in Hd.
    rewrite <-Hk in Hd. eexists. split; [exists (key c); rewrite Hc, Hd|].
    + unfold plan_key. rewrite Ho. simpl.
      destruct (o_AllowAdopt d); case_bool_decide; simpl; first [by left|naive_solver].
    + done.
Qed.

Lemma PlanDiff_drift_witness :
  let c := {| o_Kind := "route"; o_ID := "a"; o_Value := "v"; o_Owned := false;
              o_Evidence := ""; o_AllowAdopt := false |} in
  let d := {| o_Kind := "route"; o_ID := "a"; o_Value := "v"; o_Owned := true;
              o_Evidence := "e"; o_AllowAdopt := false |} in
  ∃ p, PlanDiff [c] [d] = Ok p ∧ HasBlockingDrift p = true.
Proof.
  intros c d. eexists. split; [reflexivity|].
  apply (PlanDiff_drift [c] [d] _ eq_refl). exists c, d.
  split_and!; [by left|by left|done..|]. by intros [? ?].
Defined.

(** A plan does not depend on the order in which either snapshot lists its
    objects, and planning succeeds exactly on snapshots without duplicates,
    with complete identities and with evidence on everything desired. *)
Theorem PlanDiff_deterministic current desired :
  ((∃ p, PlanDiff current desired = Ok p) ↔
     indexable false current ∧ indexable true desired) ∧
  ∀ current' desired' p, current ≡ₚ current' → desired ≡ₚ desired' →
    PlanDiff current desired = Ok p → PlanDiff current' desired' = Ok p.
Proof.
  unfold PlanDiff. split.
  - destruct (indexObjects current false) as [have|e] eqn:Eh.
    + apply indexObjects_Ok in Eh as [Hc _].
      destruct (indexObjects desired true) as [want|e] eqn:Ew.
      * apply indexObjects_Ok in Ew as [Hd _]. naive_solver.
      * split; [naive_solver|]. intros [_ Hd].
        rewrite (proj2 (indexObjects_Ok desired true _) (conj Hd eq_refl)) in Ew. done.
    + split; [naive_solver|]. intros [Hc _].
      rewrite (proj2 (indexObjects_Ok current false _) (conj Hc eq_refl)) in Eh. done.
  - intros current' desired' p Hc Hd.
    destruct (indexObjects current false) as [have|] eqn:Eh; [|done].
    destruct (indexObjects desired true) as [want|] eqn:Ew; [|done].
    by rewrite (indexObjects_perm _ _ _ _ Hc Eh), (indexObjects_perm _ _ _ _ Hd Ew).
Qed.

(** Accepted allocations are exactly those inside the reserved ranges whose
    tables and priorities are distinct and whose selectors never both match:
    no packet mark is routed by two tunnels. *)
Theorem ValidateAllocations_exact l :
  ValidateAllocations l = Ok tt ↔
  Forall allocation_ok l ∧
  ∀ i j a b, l !! i = Some a → l !! j = Some b → i ≠ j →
    al_Table a ≠ al_Table b ∧ al_Priority a ≠ al_Priority b ∧
    ∀ m, ¬ (selects a m ∧ selects b m).
Proof.
  rewrite ValidateAllocations_iff. apply and_iff_compat_l. unfold compatible. split.
  - intros Hp i j a b Ha Hb Hij. destruct (decide (i < j)).
    + destruct (Hp i j a b) as (?&?&?); [done..|]. naive_solver.
    + destruct (Hp j i b a) as (?&?&?); [lia|done..|]. naive_solver.
  - intros Hp i j a b Hij Ha Hb. destruct (Hp i j a b) as (?&?&?); [done..|lia|]. naive_solver.
Qed.
