(* ===== verification/Netip.v ===== *)
(** * Addresses and prefixes

    The parts of Go's [net/netip], [net] and [strconv] that the sources call:
    addresses, prefixes, their parsers and printers, [net.ParseCIDR],
    [net.SplitHostPort] and [strconv.Atoi].  A parser returns [None] where the Go
    function returns an error; the sources never look inside those errors. *)
From S2P Require Import Prelude.

(** ** Data

    [netip.Addr]: the zero value, an IPv4 address, or an IPv6 address with a zone. *)
Inductive Addr :=
| AddrZero
| Addr4 (v : Z)
| Addr6 (v : Z) (zone : string).

#[export] Instance Addr_eq_dec : EqDecision Addr.
Proof. solve_decision. Defined.
#[export] Instance Addr_countable : Countable Addr.
Proof.
  apply (inj_countable'
    (λ a, match a with
          | AddrZero => inl tt
          | Addr4 v => inr (inl v)
          | Addr6 v z => inr (inr (v, z))
          end)
    (λ s, match s with
          | inl _ => AddrZero
          | inr (inl v) => Addr4 v
          | inr (inr (v, z)) => Addr6 v z
          end)).
  by intros [].
Defined.

(** Values that Go's types can hold. *)
Definition addr_wf (a : Addr) : Prop :=
  match a with
  | AddrZero => True
  | Addr4 v => (0 ≤ v < 2 ^ 32)%Z
  | Addr6 v _ => (0 ≤ v < 2 ^ 128)%Z
  end.

Definition IsValid (a : Addr) : bool := match a with AddrZero => false | _ => true end.
Definition Zone (a : Addr) : string := match a with Addr6 _ z => z | _ => "" end.
Definition Is4 (a : Addr) : bool := match a with Addr4 _ => true | _ => false end.
Definition Is6 (a : Addr) : bool := match a with Addr6 _ _ => true | _ => false end.
Definition Is4In6 (a : Addr) : bool :=
  match a with Addr6 v _ => (Z.shiftr v 32 =? 65535)%Z | _ => false end.
Definition Unmap (a : Addr) : Addr :=
  match a with
  | Addr6 v _ => if Is4In6 a then Addr4 (v mod 2 ^ 32) else a
  | _ => a
  end.
Definition BitLen (a : Addr) : Z :=
  match a with AddrZero => 0 | Addr4 _ => 32 | Addr6 _ _ => 128 end.
Definition addr_value (a : Addr) : Z :=
  match a with AddrZero => 0 | Addr4 v => v | Addr6 v _ => v end.
Definition withoutZone (a : Addr) : Addr :=
  match a with Addr6 v _ => Addr6 v "" | _ => a end.

(** ** Address classes *)
Definition IsUnspecified (a : Addr) : bool :=
  bool_decide (a = Addr4 0) || bool_decide (a = Addr6 0 "").
Definition IsLoopback (a : Addr) : bool :=
  match Unmap a with
  | Addr4 v => (Z.shiftr v 24 =? 127)%Z
  | Addr6 v _ => (v =? 1)%Z
  | AddrZero => false
  end.
Definition IsMulticast (a : Addr) : bool :=
  match Unmap a with
  | Addr4 v => (Z.land (Z.shiftr v 24) 240 =? 224)%Z
  | Addr6 v _ => (Z.shiftr v 120 =? 255)%Z
  | AddrZero => false
  end.
Definition IsLinkLocalUnicast (a : Addr) : bool :=
  match Unmap a with
  | Addr4 v => (Z.shiftr v 16 =? 169 * 256 + 254)%Z
  | Addr6 v _ => (Z.land (Z.shiftr v 112) 65472 =? 65152)%Z
  | AddrZero => false
  end.
Definition IsLinkLocalMulticast (a : Addr) : bool :=
  match Unmap a with
  | Addr4 v => (Z.shiftr v 8 =? 224 * 65536)%Z
  | Addr6 v _ => (Z.land (Z.shiftr v 112) 65295 =? 65282)%Z
  | AddrZero => false
  end.
Definition IsPrivate (a : Addr) : bool :=
  match Unmap a with
  | Addr4 v => (Z.shiftr v 24 =? 10)%Z || (Z.land (Z.shiftr v 16) 65520 =? 172 * 256 + 16)%Z
               || (Z.shiftr v 16 =? 192 * 256 + 168)%Z
  | Addr6 v _ => (Z.land (Z.shiftr v 120) 254 =? 252)%Z
  | AddrZero => false
  end.

(** ** Prefixes

    [bits] is -1 in an invalid prefix. *)
Record Prefix := { p_ip : Addr; p_bits : Z }.
#[export] Instance Prefix_eq_dec : EqDecision Prefix.
Proof. solve_decision. Defined.

Definition prefix_zero : Prefix := {| p_ip := AddrZero; p_bits := -1 |}.
Definition PrefixFrom (a : Addr) (bits : Z) : Prefix :=
  {| p_ip := withoutZone a;
     p_bits := if IsValid a && (0 <=? bits)%Z && (bits <=? BitLen a)%Z then bits else -1 |}.
Definition prefix_IsValid (p : Prefix) : bool := (0 <=? p_bits p)%Z.

(** Clear all but the first [bits] bits. *)
Definition mask_value (len bits v : Z) : Z := Z.shiftl (Z.shiftr v (len - bits)) (len - bits).
Definition mask_addr (a : Addr) (bits : Z) : Addr :=
  match a with
  | AddrZero => AddrZero
  | Addr4 v => Addr4 (mask_value 32 bits v)
  | Addr6 v _ => Addr6 (mask_value 128 bits v) ""
  end.
Definition Masked (p : Prefix) : Prefix :=
  if prefix_IsValid p && IsValid (p_ip p)
  then {| p_ip := mask_addr (p_ip p) (p_bits p); p_bits := p_bits p |} else prefix_zero.
Definition Contains (p : Prefix) (a : Addr) : bool :=
  prefix_IsValid p && bool_decide (Zone a = "") &&
  negb (BitLen a =? 0)%Z && (BitLen (p_ip p) =? BitLen a)%Z &&
  (Z.shiftr (addr_value a) (BitLen a - p_bits p) =?
   Z.shiftr (addr_value (p_ip p)) (BitLen a - p_bits p))%Z.
Definition Overlaps (p q : Prefix) : bool :=
  prefix_IsValid p && prefix_IsValid q &&
  (bool_decide (p = q) ||
   bool_decide (Is4 (p_ip p) = Is4 (p_ip q)) &&
   (let m := (p_bits p `min` p_bits q)%Z in
    (m =? 0)%Z || bool_decide (mask_addr (p_ip p) m = mask_addr (p_ip q) m))).

(** ** strconv.Atoi *)
Definition digit_of (c : ascii) : Z := byte_of c - 48.
Fixpoint digits_acc (acc : Z) (s : string) : option Z :=
  match s with
  | EmptyString => Some acc
  | String c s => if is_digit c then digits_acc (acc * 10 + digit_of c) s else None
  end.
Definition digits_value (s : string) : option Z :=
  match s with EmptyString => None | _ => digits_acc 0 s end.
Definition fits_int64 (z : Z) : bool := (- 2 ^ 63 <=? z)%Z && (z <? 2 ^ 63)%Z.
Definition Atoi (s : string) : option Z :=
  let v := match s with
           | String "-" s => Z.opp <$> digits_value s
           | String "+" s => digits_value s
           | _ => digits_value s
           end in
  match v with Some z => if fits_int64 z then Some z else None | None => None end.

(** [fmt]'s [%d] and [strconv.Itoa]. *)
Definition itoa (z : Z) : string := pretty z.

(** ** Parsing addresses *)

(** One dotted field: digits only, no leading zero, at most 255. *)
Definition parse_octet (s : string) : option Z :=
  match s with
  | String "0" (String _ _) => None
  | _ => match digits_value s with
         | Some v => if (v <=? 255)%Z then Some v else None
         | None => None
         end
  end.

Definition parseIPv4 (s : string) : option Z :=
  match str_split "." s with
  | [a; b; c; d] =>
      match parse_octet a, parse_octet b, parse_octet c, parse_octet d with
      | Some a, Some b, Some c, Some d => Some (((a * 256 + b) * 256 + c) * 256 + d)%Z
      | _, _, _, _ => None
      end
  | _ => None
  end.

Definition hex_digit (c : ascii) : option Z :=
  if is_digit c then Some (byte_of c - 48)%Z
  else if byte_between 97 102 c then Some (byte_of c - 87)%Z
  else if byte_between 65 70 c then Some (byte_of c - 55)%Z
  else None.

(** A field of at most four hexadecimal digits: how many there were, their value
    and what follows them. *)
Fixpoint scan_hex (off : nat) (acc : Z) (s : string) : option (nat * Z * string) :=
  match s with
  | EmptyString => Some (off, acc, s)
  | String c s' =>
      match hex_digit c with
      | Some d => if 3 <? off then None else scan_hex (S off) (acc * 16 + d) s'
      | None => Some (off, acc, s)
      end
  end.

(** The field loop: [groups] are the 16-bit fields so far and [ell] is where the
    double colon was.  At most eight fields fit, which is the fuel. *)
Fixpoint parse6_loop (fuel : nat) (s : string) (groups : list Z) (ell : option nat) :
    option (list Z * option nat * string) :=
  match fuel with
  | O => Some (groups, ell, s)
  | S fuel =>
      match scan_hex 0 0 s with
      | None | Some (O, _, _) => None
      | Some (_, acc, rest) =>
          match rest with
          | EmptyString => Some (groups ++ [acc], ell, EmptyString)
          | String "." _ =>
              if bool_decide (ell = None) && negb (length groups =? 6) then None
              else if 6 <? length groups then None
              else match parseIPv4 s with
                   | Some v => Some (groups ++ [Z.shiftr v 16; v mod 2 ^ 16]%Z, ell, EmptyString)
                   | None => None
                   end
          | String ":" EmptyString => None
          | String ":" (String ":" r) =>
              match ell with
              | Some _ => None
              | None =>
                  match r with
                  | EmptyString =>
                      Some (groups ++ [acc], Some (S (length groups)), EmptyString)
                  | _ => parse6_loop fuel r (groups ++ [acc]) (Some (S (length groups)))
                  end
              end
          | String ":" r => parse6_loop fuel r (groups ++ [acc]) ell
          | _ => None
          end
      end
  end.

Definition groups_value (groups : list Z) : Z := foldl (λ a g, a * 65536 + g)%Z 0%Z groups.

Definition expand_groups (groups : list Z) (ell : option nat) : option (list Z) :=
  if length groups <? 8 then
    match ell with
    | None => None
    | Some e => Some (take e groups ++ replicate (8 - length groups) 0%Z ++ drop e groups)
    end
  else match ell with Some _ => None | None => Some groups end.

(** An IPv6 literal without its zone. *)
Definition parseIPv6_value (s : string) : option Z :=
  let '(s', ell) := match s with
                    | String ":" (String ":" r) => (r, Some 0)
                    | _ => (s, None)
                    end in
  if bool_decide (ell = Some 0) && bool_decide (s' = "") then Some 0%Z
  else match parse6_loop 8 s' [] ell with
       | Some (groups, ell, EmptyString) => groups_value <$> expand_groups groups ell
       | _ => None
       end.

Definition parseIPv6 (s : string) : option Addr :=
  match index_byte "%" s with
  | Some i =>
      let zone := str_drop (S i) s in
      if bool_decide (zone = "") then None
      else (λ v, Addr6 v zone) <$> parseIPv6_value (str_take i s)
  | None => (λ v, Addr6 v "") <$> parseIPv6_value s
  end.

(** The first of dot, colon and percent decides the family. *)
Fixpoint addr_family (s : string) : option ascii :=
  match s with
  | EmptyString => None
  | String c s => if bool_decide (c ∈ ["."; ":"; "%"]%char) then Some c else addr_family s
  end.
Definition ParseAddr (s : string) : option Addr :=
  match addr_family s with
  | Some "."%char => Addr4 <$> parseIPv4 s
  | Some ":"%char => parseIPv6 s
  | _ => None
  end.

Fixpoint last_index_byte (c : ascii) (s : string) : option nat :=
  match s with
  | EmptyString => None
  | String d s =>
      match last_index_byte c s with
      | Some i => Some (S i)
      | None => if decide (c = d) then Some 0 else None
      end
  end.

Definition parse_bits (s : string) : option Z :=
  match s with
  | String c (String _ _) => if byte_between 49 57 c then Atoi s else None
  | _ => Atoi s
  end.

Definition ParsePrefix (s : string) : option Prefix :=
  match last_index_byte "/" s with
  | None => None
  | Some i =>
      match ParseAddr (str_take i s) with
      | None => None
      | Some a =>
          if negb (bool_decide (Zone a = "")) then None
          else match parse_bits (str_drop (S i) s) with
               | Some bits => if (0 <=? bits)%Z && (bits <=? BitLen a)%Z
                              then Some (PrefixFrom a bits) else None
               | None => None
               end
      end
  end.

(** ** Printing *)
Definition octet (v k : Z) : Z := Z.shiftr v k mod 256.
Definition string4 (v : Z) : string :=
  itoa (octet v 24) +:+ "." +:+ itoa (octet v 16) +:+ "." +:+
  itoa (octet v 8) +:+ "." +:+ itoa (octet v 0).

Definition hex_char (d : Z) : ascii :=
  ascii_of_N (Z.to_N (if (d <? 10)%Z then d + 48 else d + 87)%Z).
Fixpoint hex_fuel (n : nat) (v : Z) (acc : string) : string :=
  match n with
  | O => acc
  | S n => let acc := String (hex_char (v mod 16)) acc in
           if (v <? 16)%Z then acc else hex_fuel n (v / 16) acc
  end.
(** [%x] of a 16-bit field; four digits are enough. *)
Definition hex16 (v : Z) : string := hex_fuel 4 v "".

Definition groups_of (v : Z) : list Z :=
  (λ i, Z.shiftr v (112 - 16 * Z.of_nat i) mod 65536)%Z <$> seq 0 8.

Fixpoint zeros_prefix (l : list Z) : nat :=
  match l with g :: l => if (g =? 0)%Z then S (zeros_prefix l) else 0 | [] => 0 end.
(** The leftmost longest run of at least two zero fields. *)
Fixpoint zero_run (i : nat) (l : list Z) (best : option (nat * nat)) : option (nat * nat) :=
  match l with
  | [] => best
  | _ :: l' =>
      let n := zeros_prefix l in
      let better := (2 <=? n) &&
        match best with None => true | Some (_, m) => m <? n end in
      zero_run (S i) l' (if better then Some (i, n) else best)
  end.
Definition string6 (v : Z) : string :=
  let g := groups_of v in
  match zero_run 0 g None with
  | Some (i, n) =>
      str_join ":" (hex16 <$> take i g) +:+ "::" +:+ str_join ":" (hex16 <$> drop (i + n) g)
  | None => str_join ":" (hex16 <$> g)
  end.

Definition addr_String (a : Addr) : string :=
  match a with
  | AddrZero => "invalid IP"
  | Addr4 v => string4 v
  | Addr6 v zone =>
      (if Is4In6 a then "::ffff:" +:+ string4 (v mod 2 ^ 32) else string6 v) +:+
      (if bool_decide (zone = "") then "" else "%" +:+ zone)
  end.
Definition prefix_String (p : Prefix) : string :=
  if prefix_IsValid p then addr_String (p_ip p) +:+ "/" +:+ itoa (p_bits p)
  else "invalid Prefix".

(** ** Package net *)

(** [net.IPNet]: the address is [Addr4] for a 4-byte slice and [Addr6] for 16. *)
Record IPNet := { n_ip : Addr; n_ones : Z }.

(** [IP.To4]. *)
Definition To4 (a : Addr) : option Z :=
  match Unmap a with Addr4 v => Some v | _ => None end.

(** [dtoi]: a run of digits below 0xFFFFFF that is the whole string. *)
Definition dtoi (s : string) : option Z :=
  match digits_value s with
  | Some v => if (v <? 16777215)%Z then Some v else None
  | None => None
  end.

Definition ParseCIDR (s : string) : option IPNet :=
  match index_byte "/" s with
  | None => None
  | Some i =>
      match ParseAddr (str_take i s) with
      | None => None
      | Some a =>
          if negb (bool_decide (Zone a = "")) then None
          else match dtoi (str_drop (S i) s) with
               | Some n => if (n <=? BitLen a)%Z
                           then Some {| n_ip := mask_addr a n; n_ones := n |} else None
               | None => None
               end
      end
  end.

(** [net.ParseIP]: an address without a zone. *)
Definition ParseIP (s : string) : option Addr :=
  match ParseAddr s with
  | Some a => if bool_decide (Zone a = "") then Some a else None
  | None => None
  end.

Definition SplitHostPort (hostport : string) : option (string * string) :=
  match last_index_byte ":" hostport with
  | None => None
  | Some i =>
      let port := str_drop (S i) hostport in
      match hostport with
      | String "[" rest =>
          match index_byte "]" hostport with
          | None => None
          | Some e =>
              if negb (S e =? i) then None
              else if bool_decide (index_byte "[" rest = None) &&
                      bool_decide (index_byte "]" (str_drop (S e) hostport) = None)
                   then Some (str_take (e - 1) rest, port) else None
          end
      | _ =>
          let host := str_take i hostport in
          if bool_decide (index_byte ":" host = None) &&
             bool_decide (index_byte "[" hostport = None) &&
             bool_decide (index_byte "]" hostport = None)
          then Some (host, port) else None
      end
  end.

Definition JoinHostPort (host port : string) : string :=
  if str_existsb (λ c, bool_decide (c = ":"%char)) host
  then "[" +:+ host +:+ "]:" +:+ port else host +:+ ":" +:+ port.

(** [netip.AddrFromSlice] of the bytes of a [net.IP]. *)
Definition bytes_value (b : list Z) : Z := foldl (λ a x, a * 256 + x)%Z 0%Z b.
Definition AddrFromSlice (b : list Z) : option Addr :=
  if length b =? 4 then Some (Addr4 (bytes_value b))
  else if length b =? 16 then Some (Addr6 (bytes_value b) "")
  else None.

#[global] Arguments itoa : simpl never.
#[global] Arguments octet : simpl never.
#[global] Arguments string4 : simpl never.
#[global] Arguments mask_value : simpl never.

(** ** Round trip of the IPv4 printers and parsers *)

(** A check over the first [n] naturals decides a statement about all of them. *)
Lemma forall_below (P : Z → bool) n :
  forallb (λ i, P (Z.of_nat i)) (seq 0 n) = true → ∀ z, (0 ≤ z < Z.of_nat n)%Z → P z = true.
Proof.
  intros H z Hz. rewrite forallb_forall in H.
  rewrite <-(Z2Nat.id z) by lia. apply H, in_seq. lia.
Qed.

Definition all_digits (s : string) : bool := str_forallb is_digit s && negb (bool_decide (s = "")).

Lemma small_itoa z :
  (0 ≤ z < 256)%Z →
  all_digits (itoa z) = true ∧ parse_octet (itoa z) = Some z ∧
  parse_bits (itoa z) = Some z ∧ dtoi (itoa z) = Some z.
Proof.
  intros Hz. pose (P := λ z, all_digits (itoa z) && bool_decide (parse_octet (itoa z) = Some z)
    && bool_decide (parse_bits (itoa z) = Some z) && bool_decide (dtoi (itoa z) = Some z)).
  assert (P z = true) as HP.
  { apply (forall_below P 256); [|lia]. vm_compute. reflexivity. }
  unfold P in HP. rewrite !andb_true_iff, !bool_decide_eq_true in HP. tauto.
Qed.

Lemma octet_bound v k : (0 ≤ octet v k < 256)%Z.
Proof. apply Z.mod_pos_bound. lia. Qed.

Lemma all_digits_free c s : is_digit c = false → all_digits s = true → str_free c s.
Proof.
  unfold all_digits. rewrite andb_true_iff. intros Hc [Hs _]. by apply (str_free_bytes is_digit).
Qed.

Lemma pretty_go_free c x s : is_digit c = false → str_free c s → str_free c (pretty_N_go x s).
Proof.
  intros Hc. revert s. induction (N.lt_wf_0 x) as [x _ IH]; intros s Hs.
  assert (x = 0 ∨ 0 < x)%N as [->|?] by lia; [by rewrite pretty_N_go_0|].
  rewrite pretty_N_go_step by done. apply IH; [by apply N.div_lt|]. apply str_free_cons. split; [|done].
  intros ->. revert Hc. unfold pretty_N_char. by repeat case_match.
Qed.
Lemma itoa_free c z : is_digit c = false → c ≠ "-"%char → str_free c (itoa z).
Proof.
  intros Hc Hd. assert (∀ n, str_free c (pretty (N.pos n))) as Hp.
  { intros n. unfold pretty, pretty_N. case_decide; [|by apply pretty_go_free].
    apply str_free_cons. split; [by intros ->|done]. }
  unfold itoa. destruct z as [|n|n]; [|apply Hp|].
  - apply str_free_cons. split; [by intros ->|done].
  - change (str_free c (String "-" (pretty (N.pos n)))). apply str_free_cons. auto.
Qed.
Lemma octet_free c v k : is_digit c = false → str_free c (itoa (octet v k)).
Proof.
  intros. apply all_digits_free; [done|]. apply small_itoa, octet_bound.
Qed.

Lemma string4_free c v : is_digit c = false → c ≠ "."%char → str_free c (string4 v).
Proof.
  intros. unfold string4. rewrite !str_free_app.
  assert (str_free c ".") by (apply str_free_cons; done).
  split_and!; auto using octet_free.
Qed.

Lemma octets_value v :
  (0 ≤ v < 2 ^ 32)%Z →
  (((octet v 24 * 256 + octet v 16) * 256 + octet v 8) * 256 + octet v 0 = v)%Z.
Proof.
  intros Hv. unfold octet. rewrite !Z.shiftr_div_pow2 by lia.
  change (2 ^ 24)%Z with 16777216%Z. change (2 ^ 16)%Z with 65536%Z.
  change (2 ^ 8)%Z with 256%Z. change (2 ^ 0)%Z with 1%Z.
  change (2 ^ 32)%Z with 4294967296%Z in Hv.
  Z.to_euclidean_division_equations. lia.
Qed.

Lemma parseIPv4_string4 v : (0 ≤ v < 2 ^ 32)%Z → parseIPv4 (string4 v) = Some v.
Proof.
  intros Hv. unfold parseIPv4, string4.
  rewrite !(str_app_cons "." ""), !str_app_nil_l.
  rewrite (str_split_first "." (itoa (octet v 24))) by (by apply octet_free).
  rewrite (str_split_first "." (itoa (octet v 16))) by (by apply octet_free).
  rewrite (str_split_first "." (itoa (octet v 8))) by (by apply octet_free).
  rewrite (str_split_free "." (itoa (octet v 0))) by (by apply octet_free).
  destruct (small_itoa _ (octet_bound v 24)) as (_&->&_).
  destruct (small_itoa _ (octet_bound v 16)) as (_&->&_).
  destruct (small_itoa _ (octet_bound v 8)) as (_&->&_).
  destruct (small_itoa _ (octet_bound v 0)) as (_&->&_).
  by rewrite octets_value.
Qed.

Lemma addr_family_digits s t :
  str_forallb is_digit s = true → addr_family (s +:+ String "." t) = Some "."%char.
Proof.
  induction s as [|c s IH]; intros Hs; [done|].
  simpl in Hs. apply andb_true_iff in Hs as [Hc Hs].
  rewrite str_app_cons. simpl. rewrite bool_decide_false; [auto|].
  intros Hin. repeat (apply elem_of_cons in Hin as [->|Hin]; [done|]). by apply elem_of_nil in Hin.
Qed.

Lemma ParseAddr_string4 v : (0 ≤ v < 2 ^ 32)%Z → ParseAddr (string4 v) = Some (Addr4 v).
Proof.
  intros Hv. unfold ParseAddr.
  assert (addr_family (string4 v) = Some "."%char) as ->.
  { unfold string4. apply addr_family_digits.
    destruct (small_itoa _ (octet_bound v 24)) as (Hd&_).
    unfold all_digits in Hd. by apply andb_true_iff in Hd as [-> _]. }
  by rewrite parseIPv4_string4.
Qed.

Lemma last_index_byte_last c s t :
  str_free c t → last_index_byte c (s +:+ String c t) = Some (String.length s).
Proof.
  intros Ht. assert (last_index_byte c t = None) as Hn.
  { clear s. induction t as [|d t IH]; [done|]. apply str_free_cons in Ht as [? Ht].
    simpl. rewrite IH by done. by rewrite decide_False. }
  induction s as [|d s IH].
  - rewrite str_app_nil_l. simpl. by rewrite Hn, decide_True.
  - rewrite str_app_cons. simpl. by rewrite IH.
Qed.

Lemma str_drop_S_app s c t : str_drop (S (String.length s)) (s +:+ String c t) = t.
Proof. induction s as [|d s IH]; [done|]. rewrite str_app_cons. simpl. exact IH. Qed.

(** A canonical IPv4 prefix: an address of 32 bits and 0 to 32 prefix bits. *)
Definition prefix4 (v bits : Z) : Prefix := {| p_ip := Addr4 v; p_bits := bits |}.

Lemma prefix_String4 v bits :
  (0 ≤ bits)%Z → prefix_String (prefix4 v bits) = string4 v +:+ "/" +:+ itoa bits.
Proof.
  intros. unfold prefix_String, prefix_IsValid. simpl. by rewrite (proj2 (Z.leb_le _ _)).
Qed.

Lemma ParsePrefix_String4 v bits :
  (0 ≤ v < 2 ^ 32)%Z → (0 ≤ bits ≤ 32)%Z →
  ParsePrefix (prefix_String (prefix4 v bits)) = Some (prefix4 v bits).
Proof.
  intros Hv Hb. rewrite prefix_String4 by lia. unfold ParsePrefix.
  destruct (small_itoa bits) as (Hd&_&Hpb&_); [lia|].
  change ("/" +:+ itoa bits) with (String "/" (itoa bits)).
  rewrite last_index_byte_last by (by apply all_digits_free).
  rewrite str_take_app, str_drop_S_app by done.
  rewrite ParseAddr_string4, Hpb by done. simpl.
  rewrite (proj2 (Z.leb_le 0 bits)), (proj2 (Z.leb_le bits 32)) by lia.
  unfold PrefixFrom, prefix4. simpl.
  by rewrite (proj2 (Z.leb_le 0 bits)), (proj2 (Z.leb_le bits 32)) by lia.
Qed.

Lemma ParseCIDR_String4 v bits :
  (0 ≤ v < 2 ^ 32)%Z → (0 ≤ bits ≤ 32)%Z →
  ParseCIDR (string4 v +:+ "/" +:+ itoa bits) =
  Some {| n_ip := Addr4 (mask_value 32 bits v); n_ones := bits |}.
Proof.
  intros Hv Hb. unfold ParseCIDR.
  destruct (small_itoa bits) as (Hd&_&_&Hdt); [lia|].
  change ("/" +:+ itoa bits) with (String "/" (itoa bits)).
  rewrite index_byte_first by (by apply string4_free).
  rewrite str_take_app, str_drop_S_app by done.
  rewrite ParseAddr_string4, Hdt by done. simpl.
  by rewrite (proj2 (Z.leb_le bits 32)) by lia.
Qed.

(** ** Bit lemmas *)
Lemma octet_testbit v k n :
  (0 ≤ k)%Z → (0 ≤ n)%Z → Z.testbit (octet v k) n = (n <? 8)%Z && Z.testbit v (n + k).
Proof.
  intros. unfold octet. change 256%Z with (2 ^ 8)%Z. destruct (Z.ltb_spec n 8).
  - rewrite Z.mod_pow2_bits_low, Z.shiftr_spec by lia. done.
  - by rewrite Z.mod_pow2_bits_high by lia.
Qed.

Lemma testbit_high v n k :
  (0 ≤ v < 2 ^ k)%Z → (k ≤ n)%Z → (0 ≤ k)%Z → Z.testbit v n = false.
Proof.
  intros Hv Hn Hk. rewrite <-(Z.mod_small v (2 ^ k)) by done.
  apply Z.mod_pow2_bits_high. lia.
Qed.

Lemma shiftl_mod x s : (0 ≤ s)%Z → (Z.shiftl x s mod 2 ^ s = 0)%Z.
Proof. intros. rewrite Z.shiftl_mul_pow2 by done. apply Z.mod_mul. lia. Qed.

Lemma mask_value_aligned len bits v :
  (0 ≤ bits ≤ len)%Z → (v mod 2 ^ (len - bits) = 0)%Z → mask_value len bits v = v.
Proof.
  intros Hb Hm. unfold mask_value. rewrite Z.shiftr_div_pow2, Z.shiftl_mul_pow2 by lia.
  pose proof (Z.div_mod v (2 ^ (len - bits))). lia.
Qed.

Lemma mask_value_bounds len bits v :
  (0 ≤ bits ≤ len)%Z → (0 ≤ v)%Z → (0 ≤ mask_value len bits v ≤ v)%Z.
Proof.
  intros Hb Hv. unfold mask_value. rewrite Z.shiftr_div_pow2, Z.shiftl_mul_pow2 by lia.
  assert (0 < 2 ^ (len - bits))%Z by (apply Z.pow_pos_nonneg; lia).
  pose proof (Z.div_mod v (2 ^ (len - bits))). pose proof (Z.mod_pos_bound v (2 ^ (len - bits))).
  pose proof (Z.div_pos v (2 ^ (len - bits))). nia.
Qed.

(** ** What the parsers return is well formed *)
Lemma byte_of_bound c : (0 ≤ byte_of c < 256)%Z.
Proof.
  unfold byte_of. assert (N_of_ascii c < 256)%N by apply Ascii.N_ascii_bounded. lia.
Qed.

Lemma is_digit_value c : is_digit c = true → (0 ≤ digit_of c ≤ 9)%Z.
Proof. unfold is_digit, byte_between, digit_of. rewrite andb_true_iff. lia. Qed.

Lemma digits_acc_nonneg s acc v : (0 ≤ acc)%Z → digits_acc acc s = Some v → (0 ≤ v)%Z.
Proof.
  revert acc. induction s as [|c s IH]; intros acc Ha; simpl; [intros [= ->]; done|].
  destruct (is_digit c) eqn:E; [|done]. apply IH. apply is_digit_value in E. lia.
Qed.

Lemma digits_value_nonneg s v : digits_value s = Some v → (0 ≤ v)%Z.
Proof. destruct s; [done|]. apply digits_acc_nonneg. lia. Qed.

Lemma parse_octet_bound s v : parse_octet s = Some v → (0 ≤ v ≤ 255)%Z.
Proof.
  intros H. assert (∃ w, digits_value s = Some w ∧ v = w ∧ (w ≤ 255)%Z) as (w&Hw&->&?).
  { unfold parse_octet in H. repeat case_match; simplify_eq; eexists; split_and!; eauto; lia. }
  apply digits_value_nonneg in Hw. lia.
Qed.

Lemma parseIPv4_bound s v : parseIPv4 s = Some v → (0 ≤ v < 2 ^ 32)%Z.
Proof.
  unfold parseIPv4. repeat case_match; intros; simplify_eq.
  repeat match goal with H : parse_octet _ = Some _ |- _ => apply parse_octet_bound in H end. lia.
Qed.

Lemma dtoi_nonneg s v : dtoi s = Some v → (0 ≤ v)%Z.
Proof.
  unfold dtoi. destruct (digits_value s) eqn:E; [|done]. case_match; [|done].
  intros [= <-]. by apply digits_value_nonneg in E.
Qed.

Lemma ParseAddr_Addr4 s v : ParseAddr s = Some (Addr4 v) → (0 ≤ v < 2 ^ 32)%Z.
Proof.
  unfold ParseAddr, parseIPv6. intros H. repeat case_match; try done.
  all: try (destruct (parseIPv4 s) eqn:E; [|done]; simplify_eq/=; by apply parseIPv4_bound in E).
  all: destruct (parseIPv6_value _); done.
Qed.

(** ** IPv4 prefixes as sets of addresses *)
Lemma ParsePrefix_Is4 s p :
  ParsePrefix s = Some p → Is4 (p_ip p) = true →
  ∃ v bits, p = prefix4 v bits ∧ (0 ≤ v < 2 ^ 32)%Z ∧ (0 ≤ bits ≤ 32)%Z.
Proof.
  unfold ParsePrefix. destruct (last_index_byte _ _) as [i|]; [|done].
  destruct (ParseAddr _) as [a|] eqn:Ha; [|done]. destruct (negb _); [done|].
  destruct (parse_bits _) as [bits|]; [|done].
  destruct (_ && _) eqn:Hb; [|done]. intros [= <-].
  destruct a as [|v|v z]; intros H4; try done.
  apply ParseAddr_Addr4 in Ha. unfold PrefixFrom. cbn [IsValid andb] in *. rewrite Hb.
  apply andb_true_iff in Hb as [?%Z.leb_le ?%Z.leb_le]. cbn in *.
  exists v, bits. split_and!; [done|lia..].
Qed.

Lemma Masked4 v bits :
  (0 ≤ bits)%Z → Masked (prefix4 v bits) = prefix4 (mask_value 32 bits v) bits.
Proof. intros. unfold Masked, prefix_IsValid. cbn. by rewrite (proj2 (Z.leb_le _ _)). Qed.

Lemma Contains4 v bits x :
  (0 ≤ bits)%Z →
  Contains (prefix4 v bits) (Addr4 x) = (Z.shiftr x (32 - bits) =? Z.shiftr v (32 - bits))%Z.
Proof. intros. unfold Contains, prefix_IsValid. cbn. by rewrite (proj2 (Z.leb_le _ _)). Qed.

Lemma Contains4_inv v bits a : Contains (prefix4 v bits) a = true → ∃ x, a = Addr4 x.
Proof.
  unfold Contains. destruct a as [|x|x z]; cbn; [|by eauto|]; by rewrite ?andb_false_r.
Qed.

Lemma shiftr_mask_value len bits v :
  (bits ≤ len)%Z → Z.shiftr (mask_value len bits v) (len - bits) = Z.shiftr v (len - bits).
Proof.
  intros. unfold mask_value. rewrite Z.shiftr_shiftl_l by lia.
  by rewrite Z.sub_diag, Z.shiftl_0_r.
Qed.

Lemma Contains_mask4 v bits a :
  (0 ≤ bits ≤ 32)%Z →
  Contains (prefix4 (mask_value 32 bits v) bits) a = Contains (prefix4 v bits) a.
Proof.
  intros Hb. destruct a as [|x|x z].
  - unfold Contains. cbn. by rewrite !andb_false_r.
  - rewrite !Contains4 by lia. by rewrite shiftr_mask_value by lia.
  - unfold Contains. cbn. by rewrite !andb_false_r.
Qed.

Lemma shiftr_coarser v w b c :
  (b ≤ c ≤ 32)%Z → Z.shiftr v (32 - c) = Z.shiftr w (32 - c) →
  Z.shiftr v (32 - b) = Z.shiftr w (32 - b).
Proof.
  intros Hb He. replace (32 - b)%Z with ((32 - c) + (c - b))%Z by lia.
  by rewrite <-!Z.shiftr_shiftr, He by lia.
Qed.

Lemma shiftr32 v : (0 ≤ v < 2 ^ 32)%Z → Z.shiftr v 32 = 0%Z.
Proof. intros. rewrite Z.shiftr_div_pow2 by lia. by apply Z.div_small. Qed.

Lemma Overlaps4_bits v b w c :
  (0 ≤ v < 2 ^ 32)%Z → (0 ≤ w < 2 ^ 32)%Z → (0 ≤ b ≤ 32)%Z → (0 ≤ c ≤ 32)%Z →
  Overlaps (prefix4 v b) (prefix4 w c) = true ↔
  Z.shiftr v (32 - b `min` c) = Z.shiftr w (32 - b `min` c).
Proof.
  intros Hv Hw Hb Hc. unfold Overlaps, prefix_IsValid. cbn [p_bits p_ip prefix4 Is4 mask_addr].
  rewrite (proj2 (Z.leb_le 0 b)), (proj2 (Z.leb_le 0 c)) by lia. cbn [andb].
  rewrite orb_true_iff, andb_true_iff, orb_true_iff, !bool_decide_eq_true, Z.eqb_eq.
  split.
  - intros [[= -> ->]|[_ [Hm|Hm]]]; [done| |].
    + rewrite Hm, Z.sub_0_r. by rewrite !shiftr32.
    + injection Hm as Hm. rewrite <-(shiftr_mask_value 32 (b `min` c) v), Hm by lia.
      by apply shiftr_mask_value; lia.
  - intros He. right. split; [done|]. right. unfold mask_value. by rewrite He.
Qed.

Lemma Overlaps4 v b w c :
  (0 ≤ v < 2 ^ 32)%Z → (0 ≤ w < 2 ^ 32)%Z → (0 ≤ b ≤ 32)%Z → (0 ≤ c ≤ 32)%Z →
  Overlaps (prefix4 v b) (prefix4 w c) = true ↔
  ∃ a, Contains (prefix4 v b) a = true ∧ Contains (prefix4 w c) a = true.
Proof.
  intros Hv Hw Hb Hc. rewrite Overlaps4_bits by done. split.
  - intros He. destruct (Z.le_ge_cases b c).
    + rewrite Z.min_l in He by lia. exists (Addr4 w). rewrite !Contains4 by lia.
      by rewrite He, !Z.eqb_refl.
    + rewrite Z.min_r in He by lia. exists (Addr4 v). rewrite !Contains4 by lia.
      by rewrite He, !Z.eqb_refl.
  - intros (a&H1&H2). destruct (Contains4_inv _ _ _ H1) as [x ->].
    rewrite Contains4, Z.eqb_eq in H1, H2 by lia.
    transitivity (Z.shiftr x (32 - b `min` c)); [symmetry|].
    + apply (shiftr_coarser _ _ _ b); [lia|done].
    + apply (shiftr_coarser _ _ _ c); [lia|done].
Qed.

Lemma prefix_String4_free c v bits :
  (0 ≤ bits ≤ 32)%Z → is_digit c = false → c ≠ "."%char → c ≠ "/"%char →
  str_free c (prefix_String (prefix4 v bits)).
Proof.
  intros Hb Hd H1 H2. rewrite prefix_String4 by lia. rewrite !str_free_app. split_and!.
  - by apply string4_free.
  - apply str_free_cons. done.
  - apply all_digits_free; [done|]. apply small_itoa. lia.
Qed.

(** ** The two CIDR parsers agree on IPv4 *)
Lemma digits_acc_digits acc s v : digits_acc acc s = Some v → str_forallb is_digit s = true.
Proof.
  revert acc. induction s as [|c s IH]; intros acc; [done|]. cbn [digits_acc str_forallb].
  destruct (is_digit c); [|done]. apply IH.
Qed.
Lemma parse_octet_digits s v : parse_octet s = Some v → str_forallb is_digit s = true.
Proof.
  intros H. assert (∃ w, digits_value s = Some w) as [w Hw].
  { unfold parse_octet in H. repeat case_match; eauto; done. }
  destruct s; [done|]. by eapply digits_acc_digits.
Qed.
Lemma str_free_split c d s : c ≠ d → Forall (str_free c) (str_split d s) → str_free c s.
Proof.
  intros Hcd. induction s as [|x s IH]; [done|]. cbn [str_split]. case_decide as Hd.
  - subst x. intros [_ ?]%Forall_cons. apply str_free_cons. auto.
  - destruct (str_split d s) as [|w ws]; intros Hf; apply Forall_cons in Hf as [[? Hw]%str_free_cons Hf];
      apply str_free_cons; split; [done|apply IH; constructor|done|apply IH; by constructor].
Qed.
Lemma ParseAddr_Addr4_free c s v :
  is_digit c = false → c ≠ "."%char → ParseAddr s = Some (Addr4 v) → str_free c s.
Proof.
  intros Hc Hd H. assert (parseIPv4 s = Some v) as H4.
  { revert H. unfold ParseAddr, parseIPv6. repeat case_match; try done.
    all: try (destruct (parseIPv4 s); [|done]; by intros [= ->]). all: destruct (parseIPv6_value _); done. }
  apply (str_free_split _ "."%char); [done|]. unfold parseIPv4 in H4. repeat case_match; try done.
  repeat constructor; by eapply (str_free_bytes is_digit), Hc; eapply parse_octet_digits.
Qed.
Lemma last_index_byte_Some c s i :
  last_index_byte c s = Some i → s = str_take i s +:+ String c (str_drop (S i) s) ∧ String.length (str_take i s) = i.
Proof.
  revert i. induction s as [|d s IH]; intros i; cbn [last_index_byte]; [done|].
  destruct (last_index_byte c s) as [j|].
  - intros [= <-]. destruct (IH j eq_refl) as [Hs Hl]. cbn [str_take str_drop String.length]. split; [|by rewrite Hl].
    exact (f_equal (String d) Hs).
  - case_decide; [|done]. intros [= <-]. subst. by destruct s.
Qed.
Lemma ParseCIDR_Is4 s p n :
  ParsePrefix s = Some p → Is4 (p_ip p) = true → ParseCIDR s = Some n → Is4 (n_ip n) = true.
Proof.
  unfold ParsePrefix. destruct (last_index_byte _ _) as [i|] eqn:Hi; [|done].
  destruct (ParseAddr _) as [a|] eqn:Ha; [|done]. destruct (negb _); [done|].
  destruct (parse_bits _) as [bits|]; [|done].
  destruct (_ && _) eqn:Hb; [|done]. intros [= <-].
  destruct a as [|v|v z]; intros H4; try done. apply last_index_byte_Some in Hi as [Hs Hl].
  unfold ParseCIDR. rewrite Hs at 1. rewrite index_byte_first by (by eapply ParseAddr_Addr4_free).
  rewrite Hl, Ha. destruct (negb _); [done|]. destruct (dtoi _) as [z|]; [|done]. destruct (z <=? _)%Z; [|done].
  by intros [= <-].
Qed.
(** A prefix of netip is a CIDR of net. *)
Lemma Atoi_unsigned s v : Atoi s = Some v → has_prefix "-" s = false → has_prefix "+" s = false → digits_value s = Some v.
Proof.
  unfold Atoi. destruct s as [|c s]; [done|]. unfold has_prefix. cbn [String.prefix].
  destruct (Ascii.ascii_dec "-" c) as [<-|Hm]; [by destruct s|]. destruct (Ascii.ascii_dec "+" c) as [<-|Hp]; [by destruct s|].
  intros H _ _. destruct (digits_value (String c s)) as [w|] eqn:Hd; repeat case_match; simplify_eq; done.
Qed.
Lemma parse_bits_dtoi s v : parse_bits s = Some v → (v <= 128)%Z → dtoi s = Some v.
Proof.
  intros H Hv. assert (digits_value s = Some v) as Hd.
  { unfold parse_bits in H. destruct s as [|c [|c' s]]; [done| |].
    - apply Atoi_unsigned; [done|..]; unfold has_prefix; cbn [String.prefix]; destruct (Ascii.ascii_dec _ _) as [<-|]; done.
    - destruct (byte_between 49 57 c) eqn:Hb; [|done].
      apply Atoi_unsigned; [done|..]; unfold has_prefix; cbn [String.prefix]; destruct (Ascii.ascii_dec _ _) as [<-|]; done. }
  unfold dtoi. rewrite Hd. destruct (Z.ltb_spec v 16777215); [done|lia].
Qed.
Lemma ParsePrefix_ParseCIDR s p : ParsePrefix s = Some p → Is4 (p_ip p) = true → is_Some (ParseCIDR s).
Proof.
  unfold ParsePrefix. destruct (last_index_byte _ _) as [i|] eqn:Hi; [|done].
  destruct (ParseAddr _) as [a|] eqn:Ha; [|done]. destruct (negb _) eqn:Hz; [done|].
  destruct (parse_bits _) as [bits|] eqn:Hbits; [|done].
  destruct (_ && _) eqn:Hb; [|done]. apply andb_true_iff in Hb as [_ Hb%Z.leb_le]. intros [= <-].
  destruct a as [|v|v z]; intros H4; try done. apply last_index_byte_Some in Hi as [Hs Hl].
  unfold ParseCIDR. rewrite Hs at 1. rewrite index_byte_first by (by eapply ParseAddr_Addr4_free).
  rewrite Hl, Ha, Hz, (parse_bits_dtoi _ _ Hbits) by (unfold BitLen in Hb; lia).
  rewrite (proj2 (Z.leb_le _ _)) by done. eauto.
Qed.
