(* ===== verification/RouteSource.v ===== *)
(** * internal/routesource: merging and aggregating prefix lists

    [MergeDedup] and [AggregateIPv4] with its helpers.  [AggregateIPv4] is
    documented to return the minimal sorted covering prefix set; the theorems
    show that its output is the set of maximal aligned blocks of the covered
    addresses, hence exact, disjoint, minimal in number and canonical. *)
From S2P Require Import Prelude Netip.

(** ** Operations *)
Definition MergeDedup (groups : list (list string)) : list string :=
  sorted_set (foldl (λ set group, foldl (λ set item, {[item]} ∪ set) set group) ∅ groups).

Record interval := { low : Z; high : Z }.

(** [ipUint32] of the four bytes of [To4]. *)
Definition ipUint32 (v : Z) : Z :=
  Z.lor (Z.lor (Z.lor (Z.shiftl (octet v 24) 24) (Z.shiftl (octet v 16) 16))
    (Z.shiftl (octet v 8) 8)) (octet v 0).
Definition uint32IP (value : Z) : string := string4 value.

Definition cidrRange (raw : string) : option (Z * Z) :=
  match ParseCIDR (trim_space raw) with
  | None => None
  | Some network =>
      match To4 (n_ip network) with
      | None => None
      | Some ip =>
          let low := ipUint32 ip in
          if (n_ones network =? 0)%Z then Some (low, u32_max)
          else Some (low, Z.lor low (Z.shiftr u32_max (n_ones network)))
      end
  end.

Fixpoint ptrailing (p : positive) : nat :=
  match p with xO p => S (ptrailing p) | _ => 0 end.
(** [bits.TrailingZeros32]. *)
Definition TrailingZeros32 (z : Z) : nat :=
  match z with Zpos p => ptrailing p | _ => 32 end.

(** [for size > 0 && uint64(1)<<size > n { size-- }]. *)
Fixpoint shrink (size : nat) (n : Z) : nat :=
  match size with
  | O => O
  | S s => if (n <? 2 ^ Z.of_nat size)%Z then shrink s n else size
  end.

(** One round of the loop of [rangeCIDRs]; a block is its base and its size. *)
Definition range_round (high : Z) (st : Z * list (Z * nat)) :
    (Z * list (Z * nat)) + list (Z * nat) :=
  let '(low, result) := st in
  let size := if (low =? 0)%Z then 32 else TrailingZeros32 low in
  let size := shrink size (wrap64 (high - low + 1)) in
  let result := result ++ [(low, size)] in
  let next := (low + 2 ^ Z.of_nat size)%Z in
  if (high <? next)%Z then inr result else inl (wrap32 next, result).

(** The loop advances by at least one address, so 2^32 rounds are enough. *)
Definition range_blocks (low high : Z) : list (Z * nat) :=
  match loop2 32 (range_round high) (low, []) with
  | inr result => result
  | inl (_, result) => result
  end.

Definition block_string (b : Z * nat) : string :=
  uint32IP b.1 +:+ "/" +:+ itoa (32 - Z.of_nat b.2).

Definition rangeCIDRs (low high : Z) : list string := block_string <$> range_blocks low high.

(** The intervals sorted by their low end. *)
Definition low_le (a b : interval) : Prop := (low a ≤ low b)%Z.
#[export] Instance low_le_dec a b : Decision (low_le a b) := Z.le_dec (low a) (low b).
Definition sort_intervals (l : list interval) : list interval := merge_sort low_le l.

(** The merge loop, [last] being the last element of [merged].  [merged] shares
    its array with [intervals], but it never grows past the element being read. *)
Fixpoint merge_from (last : interval) (rest : list interval) : list interval :=
  match rest with
  | [] => [last]
  | candidate :: rest =>
      if (low candidate <=? high last)%Z ||
         (negb (high last =? u32_max)%Z && (low candidate =? wrap32 (high last + 1))%Z)
      then merge_from {| low := low last;
                         high := if (high last <? high candidate)%Z
                                 then high candidate else high last |} rest
      else last :: merge_from candidate rest
  end.

Definition cidr_interval (cidr : string) : option interval :=
  (λ r, {| low := r.1; high := r.2 |}) <$> cidrRange cidr.

Definition merged_intervals (cidrs : list string) : list interval :=
  match sort_intervals (omap cidr_interval cidrs) with
  | [] => []
  | first :: rest => merge_from first rest
  end.

Definition AggregateIPv4 (cidrs : list string) : list string :=
  sort_strings (merged_intervals cidrs ≫= λ item, rangeCIDRs (low item) (high item)).

(** ** MergeDedup *)
Lemma elem_of_foldl_add (group : list string) (s : gset string) x :
  x ∈ foldl (λ set item, {[item]} ∪ set) s group ↔ x ∈ s ∨ x ∈ group.
Proof. revert s. induction group as [|y g IH]; intros s; simpl; [|rewrite IH]; set_solver. Qed.

Lemma elem_of_foldl_groups (groups : list (list string)) (s : gset string) x :
  x ∈ foldl (λ set group, foldl (λ set item, {[item]} ∪ set) set group) s groups ↔
  x ∈ s ∨ ∃ g, g ∈ groups ∧ x ∈ g.
Proof.
  revert s. induction groups as [|g gs IH]; intros s; simpl; [set_solver|].
  rewrite IH, elem_of_foldl_add. set_solver.
Qed.

(** ** Aligned blocks

    A block of size [s] at base [b] holds the addresses with the same quotient by
    [2^s]; [b] is aligned when it is a multiple of [2^s]. *)
Definition aligned (b : Z) (s : nat) : Prop :=
  s ≤ 32 ∧ (0 ≤ b < 2 ^ 32)%Z ∧ (b mod 2 ^ Z.of_nat s = 0)%Z.
Definition in_block (a b : Z) (s : nat) : Prop :=
  (a / 2 ^ Z.of_nat s = b / 2 ^ Z.of_nat s)%Z.
Definition inside (P : Z → Prop) (b : Z) (s : nat) : Prop := ∀ a, in_block a b s → P a.
(** A block of [P] whose parent block is not inside [P]. *)
Definition maximal (P : Z → Prop) (b : Z) (s : nat) : Prop :=
  aligned b s ∧ inside P b s ∧ (s < 32 → ¬ inside P b (S s)).

Lemma pow2_pos n : (0 < 2 ^ Z.of_nat n)%Z.
Proof. apply Z.pow_pos_nonneg; lia. Qed.

Lemma in_block_aligned a b s :
  aligned b s → in_block a b s ↔ (b ≤ a < b + 2 ^ Z.of_nat s)%Z.
Proof.
  intros (_&_&Hm). unfold in_block. pose proof (pow2_pos s) as Hp.
  set (p := (2 ^ Z.of_nat s)%Z) in *. pose proof (Z.div_mod b p) as Hb.
  split.
  - intros Heq. pose proof (Z.mod_pos_bound a p). pose proof (Z.div_mod a p). nia.
  - intros [??]. symmetry. apply (Z.div_unique_pos a p (b / p) (a - b)); lia.
Qed.

Lemma in_block_refl b s : in_block b b s.
Proof. done. Qed.

Lemma pow2_split s s' :
  s ≤ s' → (2 ^ Z.of_nat s' = 2 ^ Z.of_nat s * 2 ^ Z.of_nat (s' - s))%Z.
Proof. intros. rewrite <-Z.pow_add_r by lia. f_equal. lia. Qed.

(** Blocks nest: a smaller block that meets a larger one lies inside it. *)
Lemma in_block_nest a x b b' s s' :
  s ≤ s' → in_block x b s → in_block x b' s' → in_block a b s → in_block a b' s'.
Proof.
  unfold in_block. intros Hs Hxb Hxb' Hab.
  pose proof (pow2_pos s). pose proof (pow2_pos (s' - s)).
  rewrite (pow2_split s s') in * by done. rewrite <-!Z.div_div in * by lia.
  congruence.
Qed.

Lemma inside_nest P x b b' s s' :
  s ≤ s' → in_block x b s → in_block x b' s' → inside P b' s' → inside P b s.
Proof. intros Hs ?? Hin a Ha. apply Hin. by apply (in_block_nest a x b b' s s'). Qed.

(** Two maximal blocks that meet are the same block. *)
Lemma maximal_unique P x b b' s s' :
  maximal P b s → maximal P b' s' → in_block x b s → in_block x b' s' → b = b' ∧ s = s'.
Proof.
  intros Hm Hm' Hx Hx'. assert (s = s') as <-.
  { destruct (lt_eq_lt_dec s s') as [[Hlt| ->]|Hlt]; [exfalso|done|exfalso].
    - destruct Hm as (_&_&Hp). destruct Hm' as ((?&_)&Hin&_). apply Hp; [lia|].
      apply (inside_nest P x b b' (S s) s'); [lia| |done|done].
      apply (in_block_nest x b b b s); [lia|done..].
    - destruct Hm' as (_&_&Hp). destruct Hm as ((?&_)&Hin&_). apply Hp; [lia|].
      apply (inside_nest P x b' b (S s') s); [lia| |done|done].
      apply (in_block_nest x b' b' b' s'); [lia|done..]. }
  split; [|done]. destruct Hm as ((_&_&Hb)&_), Hm' as ((_&_&Hb')&_).
  unfold in_block in *. pose proof (pow2_pos s).
  rewrite (Z.div_mod b (2 ^ Z.of_nat s)), (Z.div_mod b' (2 ^ Z.of_nat s)) by lia. lia.
Qed.

(** ** The block decomposition of one interval *)

(** The alignment of an address, as [range_round] computes it. *)
Definition align (low : Z) : nat := if (low =? 0)%Z then 32 else TrailingZeros32 low.

Lemma pow2_S n : (2 ^ Z.of_nat (S n) = 2 * 2 ^ Z.of_nat n)%Z.
Proof. rewrite Nat2Z.inj_succ, Z.pow_succ_r by lia. done. Qed.

Lemma ptrailing_spec p :
  (Zpos p mod 2 ^ Z.of_nat (S (ptrailing p)) = 2 ^ Z.of_nat (ptrailing p))%Z.
Proof.
  induction p as [p IH|p IH|]; cbn [ptrailing]; [|  |done].
  - change (2 ^ Z.of_nat 1)%Z with 2%Z. change (2 ^ Z.of_nat 0)%Z with 1%Z.
    rewrite Pos2Z.inj_xI, Z.add_comm, Z.mul_comm, Z.mod_add by lia. done.
  - rewrite Pos2Z.inj_xO, (pow2_S (S _)), Z.mul_mod_distr_l, IH, <-pow2_S; [done| |lia].
    pose proof (pow2_pos (S (ptrailing p))). lia.
Qed.

(** An address is an odd multiple of the power of two of its alignment. *)
Lemma align_spec a :
  (0 ≤ a < 2 ^ 32)%Z →
  a = 0%Z ∧ align a = 32 ∨
  align a < 32 ∧ ∃ q, (0 ≤ q)%Z ∧ (a = (2 * q + 1) * 2 ^ Z.of_nat (align a))%Z.
Proof.
  intros Ha. unfold align. destruct (Z.eqb_spec a 0) as [->|Hne]; [by left|right].
  destruct a as [|p|p]; [done| |lia]. cbn [TrailingZeros32].
  pose proof (ptrailing_spec p) as Hp. pose proof (pow2_pos (ptrailing p)) as Hpos.
  pose proof (Z.div_mod (Zpos p) (2 ^ Z.of_nat (S (ptrailing p)))) as Hd.
  rewrite Hp, pow2_S in Hd.
  pose proof (Z.div_pos (Zpos p) (2 * 2 ^ Z.of_nat (ptrailing p))).
  set (q := (Zpos p / (2 * 2 ^ Z.of_nat (ptrailing p)))%Z) in *.
  split; [|exists q; lia].
  destruct (decide (ptrailing p < 32)); [done|exfalso].
  assert (2 ^ 32 ≤ 2 ^ Z.of_nat (ptrailing p))%Z by (apply Z.pow_le_mono_r; lia). nia.
Qed.

Lemma align_mod a j : (0 ≤ a < 2 ^ 32)%Z → j ≤ align a → (a mod 2 ^ Z.of_nat j = 0)%Z.
Proof.
  intros Ha Hj. destruct (align_spec a Ha) as [[-> _]|(Hlt&q&Hq&Heq)].
  { apply Z.mod_0_l. pose proof (pow2_pos j). lia. }
  rewrite Heq, (pow2_split j (align a)) by done. pose proof (pow2_pos j).
  replace ((2 * q + 1) * (2 ^ Z.of_nat j * 2 ^ Z.of_nat (align a - j)))%Z
    with (((2 * q + 1) * 2 ^ Z.of_nat (align a - j)) * 2 ^ Z.of_nat j)%Z by ring.
  apply Z.mod_mul. lia.
Qed.

Lemma align_le a : (0 ≤ a < 2 ^ 32)%Z → align a ≤ 32.
Proof. intros Ha. destruct (align_spec a Ha) as [[_ ->]|[? _]]; lia. Qed.

Lemma align_aligned a j : (0 ≤ a < 2 ^ 32)%Z → j ≤ align a → aligned a j.
Proof.
  intros Ha Hj. pose proof (align_le a Ha). split_and!; [lia|lia|lia|]. by apply align_mod.
Qed.

(** Stepping by less than the alignment sets it to the step. *)
Lemma align_step a s :
  (0 ≤ a)%Z → (a + 2 ^ Z.of_nat s < 2 ^ 32)%Z → s < align a →
  align (a + 2 ^ Z.of_nat s) = s.
Proof.
  intros Ha Hlt Hs. pose proof (pow2_pos s) as Hp.
  assert (0 ≤ a + 2 ^ Z.of_nat s < 2 ^ 32)%Z as Hr by lia.
  assert (a mod 2 ^ Z.of_nat (S s) = 0)%Z as Hm by (apply align_mod; lia).
  pose proof (Z.div_mod a (2 ^ Z.of_nat (S s))) as Hd. rewrite Hm, pow2_S in Hd.
  set (c := (a / (2 * 2 ^ Z.of_nat s))%Z) in *.
  destruct (decide (align (a + 2 ^ Z.of_nat s) < s)) as [Hl|Hl].
  - exfalso. destruct (align_spec _ Hr) as [[? ?]|(_&q&_&Heq)]; [lia|].
    set (t := align (a + 2 ^ Z.of_nat s)) in *. pose proof (pow2_pos t).
    rewrite (pow2_split (S t) s) in * by lia. rewrite pow2_S in *.
    assert (2 * q + 1 = 2 * (2 ^ Z.of_nat (s - S t) * (2 * c + 1)))%Z; [|lia].
    apply (Z.mul_reg_r _ _ (2 ^ Z.of_nat t)); lia.
  - destruct (decide (s < align (a + 2 ^ Z.of_nat s))) as [Hg|]; [exfalso|lia].
    pose proof (align_mod _ (S s) Hr Hg) as Hz.
    pose proof (Z.div_mod (a + 2 ^ Z.of_nat s) (2 ^ Z.of_nat (S s))) as He.
    rewrite Hz, pow2_S in He. set (x := ((a + _) / _)%Z) in He.
    assert (1 = 2 * (x - c))%Z; [|lia].
    apply (Z.mul_reg_r _ _ (2 ^ Z.of_nat s)); lia.
Qed.

(** Stepping by the full alignment raises it. *)
Lemma align_step_full a :
  (0 ≤ a)%Z → (a + 2 ^ Z.of_nat (align a) < 2 ^ 32)%Z →
  align a < align (a + 2 ^ Z.of_nat (align a)).
Proof.
  intros Ha Hlt. set (k := align a) in *. pose proof (pow2_pos k) as Hp.
  assert (0 ≤ a < 2 ^ 32)%Z as Har by lia.
  assert (0 ≤ a + 2 ^ Z.of_nat k < 2 ^ 32)%Z as Hr by lia.
  destruct (align_spec a Har) as [[-> Hk]|(_&q&Hq&Heq)].
  { fold k in Hk. rewrite Hk in Hlt. change (2 ^ Z.of_nat 32)%Z with (2 ^ 32)%Z in Hlt. lia. }
  fold k in Heq. destruct (align_spec _ Hr) as [[? ?]|(_&r&_&Her)]; [lia|].
  set (t := align (a + 2 ^ Z.of_nat k)) in *.
  destruct (decide (k < t)); [done|exfalso].
  assert (a + 2 ^ Z.of_nat k = (q + 1) * (2 * 2 ^ Z.of_nat k))%Z as Hs by lia.
  rewrite Her, (pow2_split t k) in Hs by lia. pose proof (pow2_pos t).
  assert (2 * r + 1 = 2 * ((q + 1) * 2 ^ Z.of_nat (k - t)))%Z; [|lia].
  apply (Z.mul_reg_r _ _ (2 ^ Z.of_nat t)); lia.
Qed.

Lemma shrink_spec size n :
  (1 ≤ n)%Z →
  shrink size n ≤ size ∧ (2 ^ Z.of_nat (shrink size n) ≤ n)%Z ∧
  (shrink size n < size → (n < 2 ^ Z.of_nat (S (shrink size n)))%Z).
Proof.
  intros Hn. induction size as [|s IH]; cbn [shrink]; [split_and!; [lia..]|].
  destruct (Z.ltb_spec n (2 ^ Z.of_nat (S s))) as [Hlt|Hge].
  - destruct IH as (?&?&?). split_and!; [lia|done|]. intros _.
    destruct (decide (shrink s n < s)); [auto|].
    replace (shrink s n) with s by lia. done.
  - split_and!; [lia|done|lia].
Qed.

Definition covers (blocks : list (Z * nat)) (a : Z) : Prop :=
  ∃ b s, (b, s) ∈ blocks ∧ in_block a b s.

Lemma covers_snoc blocks b s a :
  covers (blocks ++ [(b, s)]) a ↔ covers blocks a ∨ in_block a b s.
Proof.
  unfold covers. setoid_rewrite elem_of_app. setoid_rewrite list_elem_of_singleton.
  naive_solver.
Qed.

Section range.
Context (low0 hi : Z) (Hlow0 : (0 ≤ low0)%Z) (Hhi : (hi < 2 ^ 32)%Z).

Definition within (a : Z) : Prop := (low0 ≤ a ≤ hi)%Z.

(** The loop invariant: the blocks so far tile the addresses below [low], each
    is maximal, and the block that the alignment of [low] would extend to is
    not inside the interval. *)
Definition range_inv (st : Z * list (Z * nat)) : Prop :=
  let '(low, acc) := st in
  within low ∧ (∀ a, covers acc a ↔ (low0 ≤ a < low)%Z) ∧
  Forall (λ b, maximal within b.1 b.2) acc ∧ NoDup acc ∧
  (align low < 32 → ¬ inside within low (S (align low))).

Definition range_post (acc : list (Z * nat)) : Prop :=
  (∀ a, covers acc a ↔ within a) ∧ Forall (λ b, maximal within b.1 b.2) acc ∧ NoDup acc.

(** The block of one round. *)
Definition round_size (low : Z) : nat := shrink (align low) (hi - low + 1).

Lemma round_size_spec low :
  within low →
  round_size low ≤ align low ∧ (low + 2 ^ Z.of_nat (round_size low) ≤ hi + 1)%Z ∧
  (round_size low < align low → (hi + 1 < low + 2 ^ Z.of_nat (S (round_size low)))%Z).
Proof.
  intros [Hl Hh]. destruct (shrink_spec (align low) (hi - low + 1)) as (?&?&?); [lia|].
  unfold round_size. split_and!; [done|lia|]. intros. specialize (H1 H2). lia.
Qed.

Lemma round_maximal low acc : range_inv (low, acc) → maximal within low (round_size low).
Proof.
  intros (Hw&_&_&_&HJ). destruct (round_size_spec low Hw) as (Hs&Hle&Hgt).
  destruct Hw as [Hl Hh]. assert (0 ≤ low < 2 ^ 32)%Z as Hr by lia.
  assert (aligned low (round_size low)) as Hal by auto using align_aligned.
  split_and!; [done| |].
  - intros a Ha%in_block_aligned; [|done]. unfold within. lia.
  - intros H32. destruct (decide (round_size low < align low)) as [Hlt|].
    + intros Hin. assert (aligned low (S (round_size low))) as Hal2
        by (apply align_aligned; [done|lia]).
      specialize (Hgt Hlt). pose proof (pow2_pos (S (round_size low))).
      destruct (Hin (low + 2 ^ Z.of_nat (S (round_size low)) - 1)%Z); [|lia].
      apply in_block_aligned; [done|lia].
    + replace (round_size low) with (align low) in * by lia. auto.
Qed.

(** The invariant on the alignment of the next address. *)
Lemma round_align low :
  within low → (align low < 32 → ¬ inside within low (S (align low))) →
  let next := (low + 2 ^ Z.of_nat (round_size low))%Z in
  (next ≤ hi)%Z → align next < 32 → ¬ inside within next (S (align next)).
Proof.
  intros Hw HJ next Hn Hk Hin. destruct (round_size_spec low Hw) as (Hs&Hle&Hgt).
  destruct Hw as [Hl Hh]. pose proof (pow2_pos (round_size low)) as Hp.
  assert (0 ≤ next < 2 ^ 32)%Z as Hr by lia.
  destruct (decide (round_size low < align low)) as [Hlt|Hnlt].
  - specialize (Hgt Hlt). unfold next in Hin at 2. unfold next in Hk.
    rewrite (align_step low) in Hin by lia.
    assert (aligned low (S (round_size low))) as Hal by (apply align_aligned; lia).
    destruct (Hin (low + 2 ^ Z.of_nat (S (round_size low)) - 1)%Z); [|lia].
    pose proof (pow2_S (round_size low)).
    assert (in_block next low (S (round_size low))) as Hnl
      by (apply in_block_aligned; [done|lia]).
    unfold in_block in *. rewrite Hnl.
    apply (in_block_aligned _ low (S (round_size low))); [done|lia].
  - assert (round_size low = align low) as Hr2 by lia. unfold next in *. rewrite Hr2 in *.
    pose proof (align_step_full low) as Hup. set (k := align low) in *.
    set (t := align (low + 2 ^ Z.of_nat k)) in *. specialize (Hup ltac:(lia) ltac:(lia)).
    apply HJ; [lia|].
    apply (inside_nest within low low (low + 2 ^ Z.of_nat k) (S k) (S t));
      [lia|done| |done].
    destruct (align_spec _ Hr) as [[? ?]|(_&q&Hq&Heq)]; [lia|]. fold t in Heq.
    unfold in_block. pose proof (pow2_pos t) as Ht. rewrite pow2_S.
    assert (2 ^ Z.of_nat k ≤ 2 ^ Z.of_nat t)%Z by (apply Z.pow_le_mono_r; lia).
    rewrite <-(Z.div_unique_pos (low + 2 ^ Z.of_nat k) (2 * 2 ^ Z.of_nat t) q (2 ^ Z.of_nat t)) by lia.
    symmetry. apply (Z.div_unique_pos _ _ _ (2 ^ Z.of_nat t - 2 ^ Z.of_nat k)); lia.
Qed.

Lemma range_round_step low acc :
  range_inv (low, acc) →
  match range_round hi (low, acc) with
  | inl (low', acc') => range_inv (low', acc') ∧ (low < low')%Z
  | inr acc' => range_post acc'
  end.
Proof.
  intros Hinv. pose proof (round_maximal _ _ Hinv) as Hmax.
  destruct Hinv as (Hw&Hcov&Hall&Hnd&HJ). pose proof Hw as [Hl Hh].
  destruct (round_size_spec low Hw) as (Hs&Hle&Hgt).
  pose proof (pow2_pos (round_size low)) as Hp.
  cbn [range_round]. fold (align low).
  assert (wrap64 (hi - low + 1) = hi - low + 1)%Z as ->.
  { apply Z.mod_small. assert (2 ^ 32 < 2 ^ 64)%Z by done. lia. }
  fold (round_size low).
  assert (∀ a, covers (acc ++ [(low, round_size low)]) a ↔
    (low0 ≤ a < low + 2 ^ Z.of_nat (round_size low))%Z) as Hcov'.
  { intros a. rewrite covers_snoc, Hcov, in_block_aligned by apply Hmax. lia. }
  assert (Forall (λ b, maximal within b.1 b.2) (acc ++ [(low, round_size low)])) as Hall'.
  { apply Forall_app. split; [done|]. by constructor. }
  assert (NoDup (acc ++ [(low, round_size low)])) as Hnd'.
  { apply NoDup_app. split_and!; [done| |apply NoDup_singleton].
    intros x Hx ->%list_elem_of_singleton.
    assert (low0 ≤ low < low)%Z; [|lia]. apply Hcov. eexists _, _. split; [done|].
    apply in_block_refl. }
  destruct (Z.ltb_spec hi (low + 2 ^ Z.of_nat (round_size low))) as [Hend|Hmore].
  - split_and!; [|done|done]. intros a. rewrite Hcov'. unfold within. lia.
  - rewrite wrap32_id by (unfold is_u32; lia). split; [|lia].
    split_and!; [unfold within; lia..|done|done|done|]. by apply round_align.
Qed.

Lemma range_blocks_spec :
  (low0 ≤ hi)%Z →
  (∃ r, loop2 32 (range_round hi) (low0, []) = inr r) ∧ range_post (range_blocks low0 hi).
Proof.
  intros Hle.
  assert (range_inv (low0, [])) as H0.
  { split_and!; [unfold within; lia..| |by constructor|by constructor|].
    - intros a. split; [|lia]. intros (?&?&?%elem_of_nil&_). done.
    - intros Hk Hin. assert (0 ≤ low0 < 2 ^ 32)%Z as Hr by lia.
      destruct (align_spec low0 Hr) as [[_ ?]|(_&q&Hq&Heq)]; [lia|].
      pose proof (pow2_pos (align low0)) as Hp.
      destruct (Hin (low0 - 2 ^ Z.of_nat (align low0))%Z); [|lia].
      unfold in_block. rewrite pow2_S.
      rewrite <-(Z.div_unique_pos low0 (2 * 2 ^ Z.of_nat (align low0)) q
        (2 ^ Z.of_nat (align low0))) by lia.
      symmetry. apply (Z.div_unique_pos _ _ _ 0); lia. }
  assert (∀ s, range_inv s → (0 ≤ hi - s.1)%Z) as Hmu by (intros [] [[??] _]; simpl; lia).
  assert (∀ s s', range_inv s → range_round hi s = inl s' →
    range_inv s' ∧ (hi - s'.1 < hi - s.1)%Z) as Hstep.
  { intros [l acc] [l' acc'] Hs Heq. pose proof (range_round_step l acc Hs) as Hr.
    rewrite Heq in Hr. simpl. destruct Hr. split; [done|lia]. }
  destruct (loop2_terminates _ range_inv (λ s, hi - s.1)%Z Hmu Hstep 32 (low0, []) H0) as [r Hr];
    [simpl; lia|].
  split; [eauto|]. unfold range_blocks. rewrite Hr.
  eapply (loop2_post _ range_inv (λ s, hi - s.1)%Z); [exact Hstep| |exact H0|exact Hr].
  intros [l acc] r' Hs Heq. pose proof (range_round_step l acc Hs) as Hp.
  by rewrite Heq in Hp.
Qed.
End range.

(** ** Merging intervals *)
Definition cov (ivs : list interval) (a : Z) : Prop :=
  ∃ iv, iv ∈ ivs ∧ (low iv ≤ a ≤ high iv)%Z.
Definition interval_ok (iv : interval) : Prop := (0 ≤ low iv ≤ high iv ∧ high iv < 2 ^ 32)%Z.
(** Neither overlapping nor adjacent. *)
Definition apart (i j : interval) : Prop := (high i + 1 < low j)%Z.

Lemma cov_cons iv ivs a : cov (iv :: ivs) a ↔ (low iv ≤ a ≤ high iv)%Z ∨ cov ivs a.
Proof. unfold cov. setoid_rewrite elem_of_cons. naive_solver. Qed.

Lemma merge_from_spec last rest :
  interval_ok last → Forall interval_ok rest → StronglySorted low_le (last :: rest) →
  (∀ a, cov (merge_from last rest) a ↔ cov (last :: rest) a) ∧
  Forall interval_ok (merge_from last rest) ∧
  StronglySorted apart (merge_from last rest) ∧
  Forall (λ iv, (low last ≤ low iv)%Z) (merge_from last rest).
Proof.
  revert last. induction rest as [|c rest IH]; intros last Hl Hr Hs; cbn [merge_from].
  { split_and!; [done|by apply Forall_singleton| |by apply Forall_singleton].
    constructor; constructor. }
  apply Forall_cons in Hr as [Hc Hr].
  apply StronglySorted_inv in Hs as [Hs Hle]. apply Forall_cons in Hle as [Hlc Hle].
  destruct Hl as [[Hl1 Hl2] Hl3]. destruct Hc as [[Hc1 Hc2] Hc3]. unfold low_le in Hlc.
  destruct (_ || _) eqn:Ejoin.
  - set (last' := {| low := low last; high := _ |}).
    assert (low c ≤ high last + 1)%Z as Hadj.
    { apply orb_true_iff in Ejoin as [?|[Hm He]%andb_true_iff]; [lia|].
      apply negb_true_iff, Z.eqb_neq in Hm. apply Z.eqb_eq in He. unfold u32_max in Hm.
      rewrite wrap32_id in He by (unfold is_u32; lia). lia. }
    assert ((high last' = high last ∧ high c ≤ high last ∨
             high last' = high c ∧ high last < high c)%Z) as Hh.
    { unfold last'. simpl. destruct (Z.ltb_spec (high last) (high c)); lia. }
    destruct (IH last') as (H1&H2&H3&H4).
    + unfold interval_ok. change (low last') with (low last). lia.
    + done.
    + apply StronglySorted_inv in Hs as [Hs _]. by constructor.
    + split_and!; [|done..]. intros a. rewrite H1, !cov_cons.
      change (low last') with (low last).
      assert ((low last ≤ a ≤ high last')%Z ↔
        (low last ≤ a ≤ high last ∨ low c ≤ a ≤ high c)%Z) by lia. tauto.
  - apply orb_false_iff in Ejoin as [Hn Hn2]. apply Z.leb_gt in Hn.
    assert (high last + 1 < low c)%Z as Hap.
    { apply andb_false_iff in Hn2 as [Hn2|Hn2].
      - apply negb_false_iff, Z.eqb_eq in Hn2. unfold u32_max in Hn2. lia.
      - apply Z.eqb_neq in Hn2. rewrite wrap32_id in Hn2 by (unfold is_u32; lia). lia. }
    destruct (IH c) as (H1&H2&H3&H4); [done..|].
    split_and!.
    + intros a. rewrite !(cov_cons last), H1. done.
    + by constructor.
    + constructor; [done|]. eapply Forall_impl; [done|]. unfold apart. simpl. lia.
    + constructor; [lia|]. eapply Forall_impl; [done|]. simpl. lia.
Qed.

Lemma sort_intervals_sorted l : StronglySorted low_le (sort_intervals l).
Proof.
  assert (Transitive low_le) by (intros ???; unfold low_le; lia).
  assert (Total low_le) by (intros ??; unfold low_le; lia).
  apply StronglySorted_merge_sort; apply _.
Qed.

(** ** Blocks of separated intervals *)
Definition all_blocks (ivs : list interval) : list (Z * nat) :=
  ivs ≫= λ iv, range_blocks (low iv) (high iv).

Lemma apart_cases ivs i j :
  StronglySorted apart ivs → i ∈ ivs → j ∈ ivs → i = j ∨ apart i j ∨ apart j i.
Proof.
  induction 1 as [|x ivs Hs IH Hall]; [by intros ?%elem_of_nil|].
  rewrite Forall_forall in Hall. rewrite !elem_of_cons. naive_solver.
Qed.

Lemma in_block_convex a x b s :
  in_block a b s → (a ≤ x ≤ b ∨ b ≤ x ≤ a)%Z → in_block x b s.
Proof.
  unfold in_block. intros Ha Hx. pose proof (pow2_pos s).
  destruct Hx as [[Hx1 Hx2]|[Hx1 Hx2]];
    apply (Z.div_le_mono _ _ (2 ^ Z.of_nat s)) in Hx1, Hx2; lia.
Qed.

Section separated.
Context (ivs : list interval) (Hok : Forall interval_ok ivs) (Hap : StronglySorted apart ivs).

Lemma separated_gap iv :
  iv ∈ ivs → ¬ cov ivs (low iv - 1) ∧ ¬ cov ivs (high iv + 1).
Proof.
  intros Hiv. rewrite Forall_forall in Hok. pose proof (Hok _ Hiv) as [[]].
  split; intros (j&Hj&Hr); pose proof (Hok _ Hj) as [[]];
    destruct (apart_cases _ iv j Hap Hiv Hj) as [->|[Ha|Ha]]; unfold apart in *; lia.
Qed.

Lemma maximal_separated iv b s :
  iv ∈ ivs → maximal (within (low iv) (high iv)) b s → maximal (cov ivs) b s.
Proof.
  intros Hiv (Hal&Hin&Hpar). split_and!; [done| |].
  - intros a Ha. exists iv. split; [done|]. by apply Hin.
  - intros Hs Hcov. apply (Hpar Hs). intros a Ha.
    destruct (separated_gap iv Hiv) as [Hg1 Hg2].
    pose proof (Hin b (in_block_refl _ _)) as [??]. split.
    + destruct (decide (low iv ≤ a)%Z); [done|]. destruct Hg1. apply Hcov.
      apply (in_block_convex a); [done|lia].
    + destruct (decide (a ≤ high iv)%Z); [done|]. destruct Hg2. apply Hcov.
      apply (in_block_convex a); [done|lia].
Qed.

Lemma range_blocks_ok iv :
  iv ∈ ivs → range_post (low iv) (high iv) (range_blocks (low iv) (high iv)).
Proof.
  intros Hiv. rewrite Forall_forall in Hok. destruct (Hok _ Hiv) as [[]].
  apply range_blocks_spec; lia.
Qed.

(** The blocks of the intervals are exactly the maximal blocks of their union. *)
Lemma elem_of_all_blocks b s : (b, s) ∈ all_blocks ivs ↔ maximal (cov ivs) b s.
Proof.
  unfold all_blocks. rewrite list_elem_of_bind. split.
  - intros (iv&Hb&Hiv). destruct (range_blocks_ok iv Hiv) as (_&Hm&_).
    rewrite Forall_forall in Hm. apply (maximal_separated iv); [done|]. by apply (Hm (b, s)).
  - intros Hm. destruct Hm as (Hal&Hin&Hpar).
    destruct (Hin b (in_block_refl _ _)) as (iv&Hiv&Hr).
    destruct (range_blocks_ok iv Hiv) as (Hc&Hm'&_).
    destruct (proj2 (Hc b) Hr) as (b'&s'&Hb'&Hbb').
    exists iv. split; [|done]. rewrite Forall_forall in Hm'. specialize (Hm' _ Hb').
    apply maximal_separated in Hm'; [|done].
    destruct (maximal_unique (cov ivs) b b b' s s') as [-> ->]; try done.
Qed.

Lemma all_blocks_NoDup : NoDup (all_blocks ivs).
Proof.
  unfold all_blocks. apply NoDup_bind.
  - intros i j [b s] Hi Hj Hbi Hbj.
    destruct (range_blocks_ok i Hi) as (_&Hmi&_), (range_blocks_ok j Hj) as (_&Hmj&_).
    rewrite Forall_forall in Hmi, Hmj.
    destruct (Hmi _ Hbi) as (_&Hini&_), (Hmj _ Hbj) as (_&Hinj&_).
    pose proof (Hini b (in_block_refl _ _)) as [??]. pose proof (Hinj b (in_block_refl _ _)) as [??].
    destruct (apart_cases _ i j Hap Hi Hj) as [->|[Ha|Ha]]; unfold apart in *; [done|lia..].
  - intros i Hi. by apply range_blocks_ok.
  - clear -Hok Hap. induction Hap as [|x l Hs IH Hall]; constructor.
    + intros Hx. rewrite Forall_forall in Hall. specialize (Hall _ Hx).
      apply Forall_cons in Hok as [[[]] _]. unfold apart in Hall. lia.
    + apply IH; [by apply Forall_cons in Hok as [_ ?]|done].
Qed.
End separated.

(** ** Ranges of CIDR strings *)
Lemma ipUint32_id v : (0 ≤ v < 2 ^ 32)%Z → ipUint32 v = v.
Proof.
  intros Hv. unfold ipUint32. apply Z.bits_inj'. intros n Hn.
  rewrite !Z.lor_spec, !Z.shiftl_spec by lia.
  assert (∀ m k, (0 ≤ k)%Z → Z.testbit (octet v k) m =
    (0 <=? m)%Z && (m <? 8)%Z && Z.testbit v (m + k)) as Hoct.
  { intros m k Hk. destruct (Z.leb_spec 0 m); [by apply octet_testbit|].
    by rewrite Z.testbit_neg_r. }
  rewrite !Hoct by lia. rewrite !Z.sub_add, Z.add_0_r.
  destruct (decide (n < 32)%Z).
  - destruct (Z.testbit v n); [|by rewrite !andb_false_r].
    rewrite !andb_true_r, !orb_true_iff, !andb_true_iff. lia.
  - rewrite (testbit_high v n 32) by lia. by rewrite !andb_false_r.
Qed.

Lemma shiftr_u32_max s : s ≤ 32 → Z.shiftr u32_max (32 - Z.of_nat s) = Z.ones (Z.of_nat s).
Proof.
  intros Hs. change u32_max with (Z.ones 32). rewrite Z.ones_equiv, Z.shiftr_div_pow2 by lia.
  rewrite Z.ones_equiv. change (2 ^ 32)%Z with (2 ^ (Z.of_nat 32))%Z.
  rewrite (pow2_split s 32) by done.
  replace (Z.of_nat (32 - s)) with (32 - Z.of_nat s)%Z by lia.
  assert (0 < 2 ^ (32 - Z.of_nat s))%Z by (apply Z.pow_pos_nonneg; lia).
  symmetry. apply (Z.div_unique_pos _ _ _ (2 ^ (32 - Z.of_nat s) - 1)); lia.
Qed.

Lemma lor_ones_aligned b s :
  (b mod 2 ^ Z.of_nat s = 0)%Z → Z.lor b (Z.ones (Z.of_nat s)) = (b + 2 ^ Z.of_nat s - 1)%Z.
Proof.
  intros Hb. assert (Z.land b (Z.ones (Z.of_nat s)) = 0)%Z as Hl by (rewrite Z.land_ones; lia).
  rewrite <-Z.lxor_lor, <-Z.add_nocarry_lxor, Z.ones_equiv by done. lia.
Qed.

(** A range whose prefix length leaves [s] free bits. *)
Lemma range_high b s :
  aligned b s →
  (if (32 - Z.of_nat s =? 0)%Z then u32_max
   else Z.lor b (Z.shiftr u32_max (32 - Z.of_nat s))) = (b + 2 ^ Z.of_nat s - 1)%Z.
Proof.
  intros (Hs&Hb&Hm). rewrite shiftr_u32_max, lor_ones_aligned by done.
  destruct (Z.eqb_spec (32 - Z.of_nat s) 0) as [He|]; [|done].
  replace s with 32 in * by lia. change (2 ^ Z.of_nat 32)%Z with (2 ^ 32)%Z in *.
  rewrite Z.mod_small in Hm by done. unfold u32_max. lia.
Qed.

(** Every range is an aligned block: also that of an IPv4-mapped IPv6 prefix,
    which is taken as the single address at its base. *)
Lemma cidrRange_aligned c lo hi :
  cidrRange c = Some (lo, hi) → ∃ s, aligned lo s ∧ hi = (lo + 2 ^ Z.of_nat s - 1)%Z.
Proof.
  unfold cidrRange, ParseCIDR.
  destruct (index_byte _ _) as [i|]; [|done].
  destruct (ParseAddr _) as [[|v|v z]|] eqn:Ea; simpl; [| | |done].
  - destruct (dtoi _); [|done]. by destruct (_ <=? _)%Z.
  - destruct (dtoi _) as [n|] eqn:En; [|done]. apply dtoi_nonneg in En.
    apply ParseAddr_Addr4 in Ea. destruct (Z.leb_spec n 32) as [Hn|]; [|done].
    cbn [n_ip n_ones mask_addr To4 Unmap]. unfold To4. cbn [Unmap].
    pose proof (mask_value_bounds 32 n v) as Hb.
    rewrite ipUint32_id by lia. set (b := mask_value 32 n v) in *. intros Hr.
    exists (Z.to_nat (32 - n)).
    assert (aligned b (Z.to_nat (32 - n))) as Hal.
    { split_and!; [lia|lia|lia|]. rewrite Z2Nat.id by lia. apply shiftl_mod. lia. }
    split; [destruct (n =? 0)%Z; by simplify_eq|]. pose proof (range_high _ _ Hal) as Hh.
    rewrite Z2Nat.id in Hh by lia. replace (32 - (32 - n))%Z with n in Hh by lia.
    rewrite Z2Nat.id by lia. destruct (n =? 0)%Z; by simplify_eq.
  - destruct (bool_decide (z = "")); [|done]. simpl.
    destruct (dtoi _) as [n|] eqn:En; [|done]. apply dtoi_nonneg in En.
    destruct (Z.leb_spec n 128) as [Hn|]; [|done].
    cbn [n_ip n_ones mask_addr]. unfold To4. cbn [Unmap Is4In6].
    destruct (Z.eqb_spec (Z.shiftr (mask_value 128 n v) 32) 65535) as [Hmap|]; [|done].
    set (a := (mask_value 128 n v mod 2 ^ 32)%Z).
    assert (0 ≤ a < 2 ^ 32)%Z as Ha by (apply Z.mod_pos_bound; lia).
    rewrite ipUint32_id by done. intros Hr. exists 0.
    assert (aligned a 0) as Hal by (split_and!; [lia..|apply Z.mod_1_r]).
    assert (32 < n)%Z as Hn32.
    { destruct (decide (32 < n)%Z); [done|exfalso]. unfold mask_value in Hmap.
      set (x := Z.shiftr v (128 - n)) in Hmap.
      rewrite Z.shiftl_mul_pow2, Z.shiftr_div_pow2 in Hmap by lia.
      replace (128 - n)%Z with ((96 - n - 64) + 64 + 32)%Z in Hmap by lia.
      rewrite !Z.pow_add_r, !Z.mul_assoc, Z.div_mul in Hmap by lia. lia. }
    rewrite (proj2 (Z.eqb_neq n 0)) in Hr by lia.
    assert (Z.shiftr u32_max n = 0)%Z as Hz.
    { apply Z.shiftr_eq_0; [done|]. change (Z.log2 u32_max) with 31%Z. lia. }
    rewrite Hz, Z.lor_0_r in Hr. simplify_eq. split; [done|]. simpl. lia.
Qed.

Lemma all_digits_edges s :
  all_digits s = true →
  ∃ c d, str_first s = Some c ∧ str_last s = Some d ∧ printable c = true ∧ printable d = true.
Proof.
  unfold all_digits. rewrite andb_true_iff, negb_true_iff, bool_decide_eq_false.
  assert (∀ c, is_digit c = true → printable c = true) as Hp.
  { intros c. unfold is_digit, printable, byte_between. rewrite !andb_true_iff. lia. }
  intros [Hd Hne]. destruct s as [|c s]; [done|]. clear Hne.
  assert (∃ d, str_last (String c s) = Some d ∧ is_digit d = true) as (d&Hl&Hdd).
  { revert c Hd. induction s as [|c' s IH]; intros c Hd; simpl in *.
    - rewrite andb_true_r in Hd. eauto.
    - apply andb_true_iff in Hd as [_ Hd]. by apply IH. }
  simpl in Hd. apply andb_true_iff in Hd as [Hc _]. exists c, d. split_and!; auto.
Qed.

Lemma trim_space_block b s : aligned b s → trim_space (block_string (b, s)) = block_string (b, s).
Proof.
  intros (Hs&Hb&_). unfold block_string, uint32IP. cbn [fst snd].
  destruct (small_itoa (32 - Z.of_nat s)) as (Hd&_); [lia|].
  destruct (small_itoa (octet b 24) (octet_bound _ _)) as (Hd'&_).
  apply all_digits_edges in Hd as (?&d&_&Hlast&_&Hdp).
  apply all_digits_edges in Hd' as (c&?&Hfirst&_&Hcp&_).
  apply (trim_space_printable c d); [| |done|done].
  - unfold string4. destruct (itoa (octet b 24)); [done|]. by simplify_eq/=.
  - rewrite str_last_app by done. rewrite str_app_cons, str_app_nil_l.
    by destruct (itoa (32 - Z.of_nat s)).
Qed.

(** The range of a printed block is that block. *)
Lemma cidrRange_block b s :
  aligned b s → cidrRange (block_string (b, s)) = Some (b, b + 2 ^ Z.of_nat s - 1)%Z.
Proof.
  intros Hal. unfold cidrRange. rewrite trim_space_block by done. pose proof Hal as (Hs&Hb&Hm).
  unfold block_string, uint32IP. cbn [fst snd].
  rewrite ParseCIDR_String4 by lia. cbn [n_ip n_ones]. unfold To4. cbn [Unmap].
  rewrite mask_value_aligned
    by (first [lia|replace (32 - (32 - Z.of_nat s))%Z with (Z.of_nat s) by lia; done]).
  rewrite ipUint32_id by done. pose proof (range_high b s Hal).
  destruct (32 - Z.of_nat s =? 0)%Z; by f_equal; f_equal.
Qed.

Lemma block_string_inj b s b' s' :
  aligned b s → aligned b' s' → block_string (b, s) = block_string (b', s') →
  b = b' ∧ s = s'.
Proof.
  intros Ha Ha' Heq. pose proof (cidrRange_block _ _ Ha) as H.
  rewrite Heq, (cidrRange_block _ _ Ha') in H. injection H as -> Hp.
  split; [done|]. assert (2 ^ Z.of_nat s = 2 ^ Z.of_nat s')%Z as Hpow by lia.
  apply Z.pow_inj_r in Hpow; lia.
Qed.

(** ** The aggregate *)

(** The addresses of a list of CIDR strings; entries that [cidrRange] rejects
    stand for nothing. *)
Definition covered (cidrs : list string) (a : Z) : Prop :=
  ∃ c lo hi, c ∈ cidrs ∧ cidrRange c = Some (lo, hi) ∧ (lo ≤ a ≤ hi)%Z.

Lemma covered_intervals cidrs a : covered cidrs a ↔ cov (omap cidr_interval cidrs) a.
Proof.
  unfold covered, cov, cidr_interval. setoid_rewrite list_elem_of_omap. split.
  - intros (c&lo&hi&Hc&Hr&Ha). eexists. split; [exists c; by rewrite Hr|]. done.
  - intros (iv&(c&Hc&Hr)&Ha). destruct (cidrRange c) as [[lo hi]|] eqn:E; simplify_eq/=. eauto 10.
Qed.

Lemma cidr_interval_ok c iv : cidr_interval c = Some iv → interval_ok iv.
Proof.
  unfold cidr_interval. destruct (cidrRange c) as [[lo hi]|] eqn:E; simpl; [|done].
  intros [= <-]. apply cidrRange_aligned in E as (s&(Hs&Hb&Hm)&->).
  unfold interval_ok. simpl. pose proof (pow2_pos s). split; [lia|].
  assert (2 ^ 32 mod 2 ^ Z.of_nat s = 0)%Z as Hm32.
  { change (2 ^ 32)%Z with (2 ^ Z.of_nat 32)%Z. rewrite (pow2_split s 32), Z.mul_comm by done.
    apply Z.mod_mul. lia. }
  pose proof (Z.div_mod lo (2 ^ Z.of_nat s)). pose proof (Z.div_mod (2 ^ 32) (2 ^ Z.of_nat s)).
  set (p := (2 ^ Z.of_nat s)%Z) in *. set (q := (lo / p)%Z) in *. set (r := (2 ^ 32 / p)%Z) in *.
  assert (q < r)%Z by nia. nia.
Qed.

Lemma merged_intervals_spec cidrs :
  (∀ a, cov (merged_intervals cidrs) a ↔ covered cidrs a) ∧
  Forall interval_ok (merged_intervals cidrs) ∧
  StronglySorted apart (merged_intervals cidrs).
Proof.
  unfold merged_intervals. setoid_rewrite covered_intervals.
  set (ivs := omap cidr_interval cidrs).
  assert (Forall interval_ok (sort_intervals ivs)) as Hok.
  { apply Forall_forall. intros iv Hiv. unfold sort_intervals in Hiv.
    rewrite merge_sort_Permutation in Hiv. apply list_elem_of_omap in Hiv as (c&_&Hc).
    by eapply cidr_interval_ok. }
  assert (∀ a, cov (sort_intervals ivs) a ↔ cov ivs a) as Hcov.
  { intros a. unfold cov, sort_intervals. by setoid_rewrite merge_sort_Permutation. }
  pose proof (sort_intervals_sorted ivs) as Hs.
  destruct (sort_intervals ivs) as [|first rest].
  - split_and!; [done|constructor|constructor].
  - apply Forall_cons in Hok as [H1 H2].
    destruct (merge_from_spec first rest) as (Hc&?&?&_); [done..|].
    split_and!; [|done..]. intros a. by rewrite Hc, Hcov.
Qed.

Lemma maximal_ext (P Q : Z → Prop) b s : (∀ a, P a ↔ Q a) → maximal P b s → maximal Q b s.
Proof.
  intros H (Hal&Hin&Hp). split_and!; [done| |].
  - intros a Ha. by apply H, Hin.
  - intros Hs Hin'. apply (Hp Hs). intros a Ha. by apply H, Hin'.
Qed.

Lemma AggregateIPv4_perm cidrs :
  AggregateIPv4 cidrs ≡ₚ block_string <$> all_blocks (merged_intervals cidrs).
Proof.
  unfold AggregateIPv4. rewrite sort_strings_perm.
  assert (∀ l, (l ≫= λ item, rangeCIDRs (low item) (high item)) =
    block_string <$> all_blocks l) as ->; [|done].
  unfold all_blocks. induction l as [|iv l IH]; [done|]. csimpl.
  by rewrite fmap_app, IH.
Qed.

(** The output is the maximal blocks of the covered addresses. *)
Lemma elem_of_AggregateIPv4 cidrs c :
  c ∈ AggregateIPv4 cidrs ↔ ∃ b s, c = block_string (b, s) ∧ maximal (covered cidrs) b s.
Proof.
  rewrite AggregateIPv4_perm, list_elem_of_fmap.
  destruct (merged_intervals_spec cidrs) as (Hcov&Hok&Hap). split.
  - intros ([b s]&->&Hb). apply elem_of_all_blocks in Hb; [|done..].
    exists b, s. split; [done|]. by eapply maximal_ext.
  - intros (b&s&->&Hm). exists (b, s). split; [done|].
    apply elem_of_all_blocks; [done..|]. eapply maximal_ext; [|done].
    intros a. by rewrite Hcov.
Qed.

Lemma AggregateIPv4_NoDup cidrs : NoDup (AggregateIPv4 cidrs).
Proof.
  rewrite AggregateIPv4_perm. destruct (merged_intervals_spec cidrs) as (Hcov&Hok&Hap).
  apply NoDup_fmap_2_strong; [|by apply all_blocks_NoDup].
  intros [b s] [b' s'] (Ha&_)%elem_of_all_blocks (Ha'&_)%elem_of_all_blocks Heq; try done.
  destruct (block_string_inj b s b' s') as [-> ->]; done.
Qed.

Lemma AggregateIPv4_sorted cidrs : StronglySorted String.le (AggregateIPv4 cidrs).
Proof. apply sort_strings_sorted. Qed.

(** The range of an output entry is its block. *)
Lemma AggregateIPv4_range cidrs c :
  c ∈ AggregateIPv4 cidrs →
  ∃ b s, c = block_string (b, s) ∧ maximal (covered cidrs) b s ∧
    cidrRange c = Some (b, b + 2 ^ Z.of_nat s - 1)%Z ∧
    ∀ a, in_block a b s ↔ (b ≤ a ≤ b + 2 ^ Z.of_nat s - 1)%Z.
Proof.
  intros (b&s&->&Hm)%elem_of_AggregateIPv4. exists b, s.
  split_and!; [done|done|by apply cidrRange_block, Hm|].
  intros a. rewrite in_block_aligned by apply Hm. lia.
Qed.

Lemma AggregateIPv4_covered cidrs a : covered (AggregateIPv4 cidrs) a ↔ covered cidrs a.
Proof.
  split.
  - intros (c&lo&hi&Hc&Hr&Ha).
    destruct (AggregateIPv4_range _ _ Hc) as (b&s&_&(_&Hin&_)&Hr'&Hb).
    simplify_eq. by apply Hin, Hb.
  - destruct (merged_intervals_spec cidrs) as (Hcov&Hok&Hap). intros Ha.
    apply Hcov in Ha as (iv&Hiv&Hr).
    destruct (range_blocks_ok _ Hok iv Hiv) as (Hc&_&_).
    destruct (proj2 (Hc a) Hr) as (b&s&Hb&Hab).
    assert ((b, s) ∈ all_blocks (merged_intervals cidrs)) as Hall
      by (apply list_elem_of_bind; eauto).
    pose proof (proj1 (elem_of_all_blocks _ Hok Hap b s) Hall) as (Hal&_).
    exists (block_string (b, s)), b, (b + 2 ^ Z.of_nat s - 1)%Z. split_and!.
    + rewrite AggregateIPv4_perm. by apply (list_elem_of_fmap_2 block_string).
    + by apply cidrRange_block.
    + apply in_block_aligned in Hab; [lia|done].
    + apply in_block_aligned in Hab; [lia|done].
Qed.

(** Counting through a relation that is injective on its right-hand side. *)
Lemma length_le_relation {A B} (R : A → B → Prop) (l : list A) (l' : list B) :
  NoDup l → (∀ x, x ∈ l → ∃ y, y ∈ l' ∧ R x y) →
  (∀ x x' y, x ∈ l → x' ∈ l → R x y → R x' y → x = x') → length l ≤ length l'.
Proof.
  intros Hnd Hex Hinj.
  assert (∃ ys, length ys = length l ∧ NoDup ys ∧
    ∀ y, y ∈ ys → y ∈ l' ∧ ∃ x, x ∈ l ∧ R x y) as (ys&<-&Hys&Hin).
  { induction l as [|x l IH]; [exists []; split_and!; [done|constructor|by intros ? ?%elem_of_nil]|].
    apply NoDup_cons in Hnd as [Hx Hnd].
    destruct IH as (ys&Hlen&Hys&Hin); [done|set_solver|set_solver|].
    destruct (Hex x) as (y&Hy&HR); [by left|].
    exists (y :: ys). split_and!; [simpl; by rewrite Hlen| |].
    - constructor; [|done]. intros Hyy. destruct (Hin _ Hyy) as (_&x'&Hx'&HR').
      assert (x = x') as <- by (eapply Hinj; [by left|by right|done..]). done.
    - intros z [->|Hz]%elem_of_cons; [split; [done|exists x; split; [by left|done]]|].
      destruct (Hin _ Hz) as (?&x'&?&?). split; [done|]. exists x'. split; [by right|done]. }
  apply submseteq_length, NoDup_submseteq; [done|]. intros y Hy. by apply Hin.
Qed.

(** ** Properties *)

(** The aggregate covers exactly the addresses of the valid input entries; it
    is sorted, and no address lies in two of its entries. *)
Theorem AggregateIPv4_exact cidrs :
  (∀ a, covered (AggregateIPv4 cidrs) a ↔ covered cidrs a) ∧
  StronglySorted String.le (AggregateIPv4 cidrs) ∧
  ∀ i j c c' a, AggregateIPv4 cidrs !! i = Some c → AggregateIPv4 cidrs !! j = Some c' →
    covered [c] a → covered [c'] a → i = j.
Proof.
  split_and!; [apply AggregateIPv4_covered|apply AggregateIPv4_sorted|].
  intros i j c c' a Hi Hj (c1&lo&hi&->%list_elem_of_singleton&Hr&Ha)
    (c2&lo'&hi'&->%list_elem_of_singleton&Hr'&Ha').
  apply (NoDup_lookup _ _ _ _ (AggregateIPv4_NoDup cidrs) Hi).
  destruct (AggregateIPv4_range _ _ (list_elem_of_lookup_2 _ _ _ Hi)) as (b&s&->&Hm&H1&Hb).
  destruct (AggregateIPv4_range _ _ (list_elem_of_lookup_2 _ _ _ Hj)) as (b'&s'&->&Hm'&H1'&Hb').
  simplify_eq. apply Hb in Ha. apply Hb' in Ha'.
  by destruct (maximal_unique _ _ _ _ _ _ Hm Hm' Ha Ha') as [-> ->].
Qed.

(** C37: the aggregate stands for exactly the addresses of the valid entries and is
    minimal: no list of prefixes for the same addresses is shorter. *)
Theorem AggregateIPv4_minimal cidrs :
  (∀ a, covered (AggregateIPv4 cidrs) a ↔ covered cidrs a) ∧
  ∀ cidrs', (∀ a, covered cidrs' a ↔ covered cidrs a) → length (AggregateIPv4 cidrs) ≤ length cidrs'.
Proof.
  split; [apply AggregateIPv4_covered|]. intros cidrs' Hsame.
  apply (length_le_relation (λ c c', ∃ b s lo hi, c = block_string (b, s) ∧
    maximal (covered cidrs) b s ∧ cidrRange c' = Some (lo, hi) ∧ in_block lo b s)).
  - apply AggregateIPv4_NoDup.
  - intros c (b&s&->&Hm)%elem_of_AggregateIPv4.
    assert (covered cidrs' b) as (c'&lo&hi&Hc'&Hr&Hb)
      by (apply Hsame; by apply Hm).
    exists c'. split; [done|]. exists b, s, lo, hi. split_and!; [done..|].
    pose proof Hr as (s'&Hal&->)%cidrRange_aligned.
    assert (in_block b lo s') as Hbl by (apply in_block_aligned; [done|lia]).
    destruct (decide (s' ≤ s)) as [Hle|Hgt].
    + by apply (in_block_nest lo b lo b s' s).
    + exfalso. destruct Hm as ((?&_)&_&Hpar). apply Hpar; [destruct Hal; lia|].
      apply (inside_nest _ b b lo (S s) s'); [lia|done|done|].
      intros x Hx%in_block_aligned; [|done]. apply Hsame. exists c', lo, (lo + 2 ^ Z.of_nat s' - 1)%Z.
      split_and!; [done|done|lia|lia].
  - intros c1 c2 c' _ _ (b&s&lo&hi&->&Hm&Hr&Hb) (b2&s2&lo2&hi2&->&Hm2&Hr2&Hb2).
    simplify_eq. by destruct (maximal_unique _ _ _ _ _ _ Hm Hm2 Hb Hb2) as [-> ->].
Qed.

Lemma AggregateIPv4_minimal_witness :
  length (AggregateIPv4 ["10.0.0.0/25"; "10.0.0.128/25"; "bogus"]) ≤ 1.
Proof.
  apply (proj2 (AggregateIPv4_minimal ["10.0.0.0/25"; "10.0.0.128/25"; "bogus"]) ["10.0.0.0/24"]).
  intros a. rewrite !covered_intervals.
  assert (omap cidr_interval ["10.0.0.0/24"] =
    [{| low := 167772160; high := 167772415 |}]) as -> by (vm_compute; reflexivity).
  assert (omap cidr_interval ["10.0.0.0/25"; "10.0.0.128/25"; "bogus"] =
    [{| low := 167772160; high := 167772287 |}; {| low := 167772288; high := 167772415 |}])
    as -> by (vm_compute; reflexivity).
  rewrite !cov_cons. unfold cov. simpl. setoid_rewrite elem_of_nil. naive_solver lia.
Defined.

(** The aggregate is canonical: two lists that stand for the same addresses
    aggregate to the same list, so aggregating again changes nothing. *)
Theorem AggregateIPv4_canonical cidrs cidrs' :
  (∀ a, covered cidrs a ↔ covered cidrs' a) →
  AggregateIPv4 cidrs = AggregateIPv4 cidrs' ∧
  AggregateIPv4 (AggregateIPv4 cidrs) = AggregateIPv4 cidrs.
Proof.
  assert (∀ l l', (∀ a, covered l a ↔ covered l' a) → AggregateIPv4 l = AggregateIPv4 l') as H.
  { intros l l' Hl. apply (StronglySorted_unique String.le); [apply AggregateIPv4_sorted..|].
    apply NoDup_Permutation; [apply AggregateIPv4_NoDup..|]. intros c.
    rewrite !elem_of_AggregateIPv4. split; intros (b&s&->&Hm); exists b, s;
      (split; [done|]); (eapply maximal_ext; [|done]); intros a; by rewrite Hl. }
  intros Hs. split; [by apply H|]. apply H. intros a. apply AggregateIPv4_covered.
Qed.

Lemma AggregateIPv4_canonical_witness :
  AggregateIPv4 ["10.0.0.0/8"; "10.1.0.0/16"] = AggregateIPv4 ["10.0.0.0/8"].
Proof.
  refine (proj1 (AggregateIPv4_canonical _ _ _)). intros a. rewrite !covered_intervals.
  assert (omap cidr_interval ["10.0.0.0/8"] =
    [{| low := 167772160; high := 184549375 |}]) as -> by (vm_compute; reflexivity).
  assert (omap cidr_interval ["10.0.0.0/8"; "10.1.0.0/16"] =
    [{| low := 167772160; high := 184549375 |}; {| low := 167837696; high := 167903231 |}])
    as -> by (vm_compute; reflexivity).
  rewrite !cov_cons. unfold cov. simpl. setoid_rewrite elem_of_nil. naive_solver lia.
Defined.

(** The merge of several lists is their union, sorted and without
    duplicates, whatever the order of the lists and of their entries. *)
Theorem MergeDedup_union groups :
  StronglySorted String.le (MergeDedup groups) ∧ NoDup (MergeDedup groups) ∧
  (∀ x, x ∈ MergeDedup groups ↔ ∃ g, g ∈ groups ∧ x ∈ g) ∧
  ∀ groups', concat groups ≡ₚ concat groups' → MergeDedup groups = MergeDedup groups'.
Proof.
  assert (∀ gs x, x ∈ MergeDedup gs ↔ ∃ g, g ∈ gs ∧ x ∈ g) as Hin.
  { intros gs x. unfold MergeDedup. rewrite elem_of_sorted_set, elem_of_foldl_groups. set_solver. }
  assert (∀ (gs : list (list string)) (x : string), (∃ g, g ∈ gs ∧ x ∈ g) ↔ x ∈ concat gs) as Hcat.
  { intros gs x. rewrite list_elem_of_In, in_concat.
    setoid_rewrite list_elem_of_In. naive_solver. }
  split_and!; [apply sorted_set_sorted|apply sorted_set_NoDup|apply Hin|].
  intros groups' Hp. apply (StronglySorted_unique String.le); [apply sorted_set_sorted..|].
  apply NoDup_Permutation; [apply sorted_set_NoDup..|]. intros x.
  by rewrite !Hin, !Hcat, Hp.
Qed.
