(* ===== verification/Firewall.v ===== *)
(** * internal/firewall: the owned iptables chains

    [Compile] and [CompileEgressGuard] of plan.go down to the rule strings, and
    [RestoreInput], [RuleCount], [Summary], [RuleIsOwned].  The theorems read the
    strings back through a small semantics of the iptables syntax the rules use:
    which packets a compiled chain accepts, drops or rejects, and what
    [iptables-restore --noflush] does with the generated script. *)
From stdpp Require Import base gmap sets list strings sorting.
From S2P Require Import Prelude Netip.

Definition OwnerComment : string := "sakhtar-wg:owned:v1".
Definition FilterChain : string := "SAKHTAR_WG_FORWARD".
Definition NATChain : string := "SAKHTAR_WG_POSTROUTING".
Definition MangleChain : string := "SAKHTAR_WG_FORWARD".
Definition OutputChain : string := "SAKHTAR_WG_OUTPUT".

Record TunnelPolicy := { Interface : string; Destinations : list string }.
Record Policy := { ClientCIDRs : list string; Tunnels : list TunnelPolicy }.
Record Chain := {
  Table : string; Hook : string; Name : string; Comment : string; Rules : list string }.
Record Ruleset := { Chains : list Chain }.

(** [Panicked] is a panic of [netip.MustParsePrefix]. *)
Inductive fw_error :=
| NotIPv4Prefix (item : string)
| BadClientCIDRs (e : fw_error)
| BadDestinations (ifc : string) (e : fw_error)
| InvalidInterface (ifc : string)
| DuplicateInterface (ifc : string)
| DestinationOverlap (prefix : Prefix) (ifc : string) (owner : Prefix) (owner_ifc : string)
| BadMark (ifc : string) (mark mask : Z)
| Panicked (item : string).

(** ** canonicalPrefixes *)
Definition canonical_step (set : gset string) (item : string) : result fw_error (gset string) :=
  match ParsePrefix item with
  | Some prefix =>
      if Is4 (p_ip prefix) then Ok (set ∪ {[ prefix_String (Masked prefix) ]})
      else Err (NotIPv4Prefix item)
  | None => Err (NotIPv4Prefix item)
  end.
Definition canonicalPrefixes (raw : list string) : result fw_error (list string) :=
  sorted_set <$> foldM canonical_step ∅ raw.

Definition validInterface (name : string) : bool :=
  negb (bool_decide (name = "") ||
        str_existsb (λ c, bool_decide (c ∈ [" "; "009"; "013"; "010"; "034"; "'"]%char)) name).

(** ** Compile *)
Definition owner : string := "-m comment --comment " +:+ OwnerComment.
Definition forward_rule (client destination ifc : string) : string :=
  sprintf "-s %s -d %s -o %s %s -j ACCEPT" [client; destination; ifc; owner].
Definition return_rule (client destination ifc : string) : string :=
  sprintf "-s %s -d %s -i %s -m conntrack --ctstate RELATED,ESTABLISHED %s -j ACCEPT"
    [destination; client; ifc; owner].
Definition nat_rule (client destination ifc : string) : string :=
  sprintf "-s %s -d %s -o %s %s -j MASQUERADE" [client; destination; ifc; owner].
Definition mss_rule (client destination ifc : string) : string :=
  sprintf "-s %s -d %s -o %s -p tcp -m tcp --tcp-flags SYN,RST SYN %s -j TCPMSS --clamp-mss-to-pmtu"
    [client; destination; ifc; owner].
Definition destination_drop (destination ifc : string) : string :=
  sprintf "-d %s -o %s -m comment --comment %s -j DROP" [destination; ifc; OwnerComment].
Definition source_drop (client : string) : string := sprintf "-s %s %s -j DROP" [client; owner].
Definition client_drop (client : string) : string := sprintf "-d %s %s -j DROP" [client; owner].

(** The locals of [Compile] that its loop over the tunnels updates. *)
Record compile_state := {
  seenInterface : gset string;
  destinationOwners : list (Prefix * string);
  destinationDrops : list string;
  filter_rules : list string; nat_rules : list string; mangle_rules : list string }.
Definition compile_start : compile_state :=
  {| seenInterface := ∅; destinationOwners := []; destinationDrops := [];
     filter_rules := []; nat_rules := []; mangle_rules := [] |}.

Definition find_overlap (owners : list (Prefix * string)) (prefix : Prefix) (ifc : string) :
    option (Prefix * string) :=
  snd <$> list_find (λ o, o.2 ≠ ifc ∧ Overlaps o.1 prefix = true) owners.

(** One destination of a tunnel: its owner and its terminal drop. *)
Definition claim_destination (ifc : string) (st : compile_state) (destination : string) :
    result fw_error compile_state :=
  match ParsePrefix destination with
  | None => Err (Panicked destination)
  | Some prefix =>
      match find_overlap (destinationOwners st) prefix ifc with
      | Some (p, i) => Err (DestinationOverlap prefix ifc p i)
      | None =>
          Ok {| seenInterface := seenInterface st;
                destinationOwners := destinationOwners st ++ [(prefix, ifc)];
                destinationDrops := destinationDrops st ++ [destination_drop destination ifc];
                filter_rules := filter_rules st; nat_rules := nat_rules st;
                mangle_rules := mangle_rules st |}
      end
  end.

(** The client by destination loops of one tunnel. *)
Definition pairs (clients destinations : list string) : list (string * string) :=
  clients ≫= λ c, (λ d, (c, d)) <$> destinations.

Definition compile_tunnel (clients : list string) (st : compile_state) (t : TunnelPolicy) :
    result fw_error compile_state :=
  let ifc := Interface t in
  if negb (validInterface ifc) then Err (InvalidInterface ifc)
  else if bool_decide (ifc ∈ seenInterface st) then Err (DuplicateInterface ifc)
  else
    match canonicalPrefixes (Destinations t) with
    | Err e => Err (BadDestinations ifc e)
    | Ok destinations =>
        let st := {| seenInterface := seenInterface st ∪ {[ ifc ]};
                     destinationOwners := destinationOwners st;
                     destinationDrops := destinationDrops st; filter_rules := filter_rules st;
                     nat_rules := nat_rules st; mangle_rules := mangle_rules st |} in
        match foldM (claim_destination ifc) st destinations with
        | Err e => Err e
        | Ok st =>
            let ps := pairs clients destinations in
            Ok {| seenInterface := seenInterface st;
                  destinationOwners := destinationOwners st;
                  destinationDrops := destinationDrops st;
                  filter_rules := filter_rules st ++
                    (ps ≫= λ cd, [forward_rule cd.1 cd.2 ifc; return_rule cd.1 cd.2 ifc]);
                  nat_rules := nat_rules st ++ ((λ cd, nat_rule cd.1 cd.2 ifc) <$> ps);
                  mangle_rules := mangle_rules st ++ ((λ cd, mss_rule cd.1 cd.2 ifc) <$> ps) |}
        end
    end.

Definition Compile (policy : Policy) : result fw_error Ruleset :=
  match canonicalPrefixes (ClientCIDRs policy) with
  | Err e => Err (BadClientCIDRs e)
  | Ok clients =>
      match foldM (compile_tunnel clients) compile_start (sort_by Interface (Tunnels policy)) with
      | Err e => Err e
      | Ok st =>
          Ok {| Chains := [
            {| Table := "filter"; Hook := "FORWARD"; Name := FilterChain;
               Comment := OwnerComment +:+ ":filter-forward";
               Rules := sort_strings (filter_rules st) ++
                        (clients ≫= λ c, [source_drop c; client_drop c]) ++
                        sort_strings (destinationDrops st) |};
            {| Table := "nat"; Hook := "POSTROUTING"; Name := NATChain;
               Comment := OwnerComment +:+ ":nat-postrouting"; Rules := sort_strings (nat_rules st) |};
            {| Table := "mangle"; Hook := "FORWARD"; Name := MangleChain;
               Comment := OwnerComment +:+ ":mangle-forward"; Rules := sort_strings (mangle_rules st) |}
          ] |}
      end
  end.

(** ** CompileEgressGuard *)
Record MarkGuard := { g_Interface : string; Mark : Z; Mask : Z }.

(** [%#x] of a [uint32]. *)
Definition hex32 (v : Z) : string := "0x" +:+ hex_fuel 8 v "".

Definition markSelector (mark mask : Z) : string :=
  if (mask =? u32_max)%Z then sprintf "%#x" [hex32 mark]
  else sprintf "%#x/%#x" [hex32 mark; hex32 mask].

Definition loopback_rule : string := sprintf "-o lo %s -j RETURN" [owner].
Definition guard_rule (g : MarkGuard) : string :=
  sprintf "! -o %s -m mark --mark %s %s -j REJECT --reject-with icmp-port-unreachable"
    [g_Interface g; markSelector (Mark g) (Mask g); owner].

(** The loop over the sorted guards; [prev] is the interface before. *)
Fixpoint guard_rules (prev : option string) (sorted : list MarkGuard) : result fw_error (list string) :=
  match sorted with
  | [] => Ok []
  | g :: rest =>
      if negb (validInterface (g_Interface g)) then Err (InvalidInterface (g_Interface g))
      else if bool_decide (prev = Some (g_Interface g)) then Err (DuplicateInterface (g_Interface g))
      else if (Mark g =? 0)%Z || (Mask g =? 0)%Z || negb (Z.land (Mark g) (Mask g) =? Mark g)%Z then
        Err (BadMark (g_Interface g) (Mark g) (Mask g))
      else cons (guard_rule g) <$> guard_rules (Some (g_Interface g)) rest
  end.

Definition CompileEgressGuard (guards : list MarkGuard) : result fw_error Chain :=
  let chain rules := {| Table := "filter"; Hook := "OUTPUT"; Name := OutputChain;
                        Comment := OwnerComment +:+ ":filter-output"; Rules := rules |} in
  match guards with
  | [] => Ok (chain [])
  | _ => (λ rules, chain (loopback_rule :: rules)) <$> guard_rules None (sort_by g_Interface guards)
  end.

(** ** Rendering *)
Definition chain_lines (chain : Chain) : list string :=
  [sprintf "*%s" [Table chain]; sprintf ":%s - [0:0]" [Name chain]; sprintf "-F %s" [Name chain]] ++
  ((λ rule, sprintf "-A %s %s" [Name chain; rule]) <$> Rules chain) ++ ["COMMIT"].
Definition RestoreInput (r : Ruleset) : string :=
  foldr (λ line s, line +:+ nl +:+ s) "" (Chains r ≫= chain_lines).
Definition RuleCount (r : Ruleset) : nat := sum_list ((λ c, length (Rules c)) <$> Chains r).
Definition Summary (r : Ruleset) : list string :=
  (λ c, sprintf "%s/%s rules=%d jump=%s"
          [Table c; Name c; itoa (Z.of_nat (length (Rules c))); Hook c]) <$> Chains r.
Definition RuleIsOwned (rule : string) : bool :=
  str_contains ("--comment " +:+ OwnerComment) rule ||
  str_contains ("--comment " +:+ String "034" OwnerComment +:+ String "034" "") rule.

(** ** What iptables makes of a rule

    A packet at a chain, the fields the rules look at. *)
Record packet := {
  src : Addr; dst : Addr; in_if : string; out_if : string;
  established : bool; tcp : bool; syn : bool; fwmark : Z }.

Inductive target := ACCEPT | DROP | RETURN | MASQUERADE | TCPMSS | REJECT.

(** An interface name that ends in [+] stands for every name it begins. *)
Definition iface_match (pattern name : string) : bool :=
  if has_suffix "+" pattern then has_prefix (trim_suffix "+" pattern) name
  else bool_decide (pattern = name).

Fixpoint hex_value (acc : Z) (s : string) : option Z :=
  match s with
  | EmptyString => Some acc
  | String c s => match hex_digit c with Some d => hex_value (acc * 16 + d) s | None => None end
  end.
Definition parse_hex (s : string) : option Z :=
  match s with String "0" (String "x" s) => hex_value 0 s | _ => None end.
(** [--mark value] or [--mark value/mask]. *)
Definition parse_mark (s : string) : option (Z * Z) :=
  match str_split "/" s with
  | [v] => v ← parse_hex v; Some (v, u32_max)
  | [v; m] => v ← parse_hex v; m ← parse_hex m; Some (v, m)
  | _ => None
  end.

(** [None] is a rule iptables refuses; [Some None] a rule the packet does not match. *)
Definition and_match (b : option bool) (r : option (option target)) : option (option target) :=
  b ← b; r ← r; Some (if b : bool then r else None).

Definition parse_target (toks : list string) : option target :=
  match toks with
  | [t] => if bool_decide (t = "ACCEPT") then Some ACCEPT else if bool_decide (t = "DROP") then Some DROP
           else if bool_decide (t = "RETURN") then Some RETURN
           else if bool_decide (t = "MASQUERADE") then Some MASQUERADE else None
  | [t; o] => if bool_decide (t = "TCPMSS") && bool_decide (o = "--clamp-mss-to-pmtu")
              then Some TCPMSS else None
  | [t; o; w] => if bool_decide (t = "REJECT") && bool_decide (o = "--reject-with") &&
                    bool_decide (w = "icmp-port-unreachable") then Some REJECT else None
  | _ => None
  end.

Definition prefix_match (s : string) (a : Addr) : option bool := (λ p, Contains p a) <$> ParsePrefix s.

(** An option with one argument. *)
Definition match1 (t a : string) (pkt : packet) : option bool :=
  if bool_decide (t = "-s") then prefix_match a (src pkt)
  else if bool_decide (t = "-d") then prefix_match a (dst pkt)
  else if bool_decide (t = "-o") then Some (iface_match a (out_if pkt))
  else if bool_decide (t = "-i") then Some (iface_match a (in_if pkt))
  else if bool_decide (t = "-p") then if bool_decide (a = "tcp") then Some (tcp pkt) else None
  else None.
(** A match module with one option. *)
Definition match_module (m o v : string) (pkt : packet) : option bool :=
  if bool_decide (m = "comment") && bool_decide (o = "--comment") then Some true
  else if bool_decide (m = "conntrack") && bool_decide (o = "--ctstate") &&
          bool_decide (v = "RELATED,ESTABLISHED") then Some (established pkt)
  else if bool_decide (m = "mark") && bool_decide (o = "--mark") then
    (λ vm, Z.land (fwmark pkt) vm.2 =? vm.1)%Z <$> parse_mark v
  else None.

Fixpoint eval_tokens (pkt : packet) (toks : list string) : option (option target) :=
  match toks with
  | t :: a :: rest =>
      if bool_decide (t = "-j") then Some <$> parse_target (a :: rest)
      else if bool_decide (t = "!") then
        match rest with
        | i :: rest => if bool_decide (a = "-o")
                       then and_match (Some (negb (iface_match i (out_if pkt)))) (eval_tokens pkt rest)
                       else None
        | [] => None
        end
      else if bool_decide (t = "-m") then
        match rest with
        | o :: v :: rest =>
            if bool_decide (a = "tcp") then
              match rest with
              | c :: rest => if bool_decide (o = "--tcp-flags") && bool_decide (v = "SYN,RST") &&
                                bool_decide (c = "SYN")
                             then and_match (Some (syn pkt)) (eval_tokens pkt rest) else None
              | [] => None
              end
            else and_match (match_module a o v pkt) (eval_tokens pkt rest)
        | _ => None
        end
      else and_match (match1 t a pkt) (eval_tokens pkt rest)
  | _ => None
  end.
Definition eval_rule (pkt : packet) (rule : string) : option (option target) :=
  eval_tokens pkt (str_split " " rule).

(** The first rule that matches decides; [Some None] is the end of the chain. *)
Fixpoint eval_chain (pkt : packet) (rules : list string) : option (option target) :=
  match rules with
  | [] => Some None
  | r :: rules =>
      match eval_rule pkt r with
      | None => None
      | Some (Some t) => Some (Some t)
      | Some None => eval_chain pkt rules
      end
  end.

(** [iptables-restore --noflush]: the chains by table and name, and the table
    that is open.  Declaring or flushing a chain empties it; a chain that is
    flushed or deleted must exist, and only an empty one can be deleted. *)
Abbreviation tables := (gmap (string * string) (list string)).
Definition restore_line (st : tables * option string) (line : string) :
    option (tables * option string) :=
  let '(ts, cur) := st in
  match line, cur with
  | EmptyString, _ => Some st
  | String "*" t, None => Some (ts, Some t)
  | String ":" d, Some t =>
      match str_split " " d with name :: _ => Some (<[(t, name) := []]> ts, cur) | [] => None end
  | String "-" (String "F" (String " " name)), Some t =>
      match ts !! (t, name) with Some _ => Some (<[(t, name) := []]> ts, cur) | None => None end
  | String "-" (String "X" (String " " name)), Some t =>
      match ts !! (t, name) with Some [] => Some (delete (t, name) ts, cur) | _ => None end
  | String "-" (String "A" (String " " rest)), Some t =>
      match index_byte " " rest with
      | Some i =>
          match ts !! (t, str_take i rest) with
          | Some rs => Some (<[(t, str_take i rest) := rs ++ [str_drop (S i) rest]]> ts, cur)
          | None => None
          end
      | None => None
      end
  | _, Some t => if bool_decide (line = "COMMIT") then Some (ts, None) else None
  | _, None => None
  end.
Fixpoint restore_lines (st : tables * option string) (lines : list string) :
    option (tables * option string) :=
  match lines with
  | [] => Some st
  | l :: lines => match restore_line st l with Some st => restore_lines st lines | None => None end
  end.
Definition restore (ts : tables) (script : string) : option tables :=
  match restore_lines (ts, None) (str_split "010" script) with
  | Some (ts, None) => Some ts
  | _ => None
  end.

(** ** Canonical prefixes *)
Definition ipv4_prefix (s : string) : Prop := ∃ p, ParsePrefix s = Some p ∧ Is4 (p_ip p) = true.
Definition covers (s : string) (a : Addr) : Prop := ∃ p, ParsePrefix s = Some p ∧ Contains p a = true.
Definition covered (l : list string) (a : Addr) : Prop := ∃ s, s ∈ l ∧ covers s a.
Definition canonical (s : string) : Prop :=
  ∃ v b, s = prefix_String (prefix4 v b) ∧ (0 ≤ v < 2 ^ 32)%Z ∧ (0 ≤ b ≤ 32)%Z.

Lemma canonical_parse s :
  canonical s → ∃ v b, ParsePrefix s = Some (prefix4 v b) ∧ (0 ≤ v < 2 ^ 32)%Z ∧ (0 ≤ b ≤ 32)%Z.
Proof. intros (v&b&->&?&?). exists v, b. by rewrite ParsePrefix_String4. Qed.

Lemma canonical_free c s :
  canonical s → is_digit c = false → c ≠ "."%char → c ≠ "/"%char → str_free c s.
Proof. intros (v&b&->&?&?) ???. by apply prefix_String4_free. Qed.

Lemma masked_canonical s p :
  ParsePrefix s = Some p → Is4 (p_ip p) = true →
  canonical (prefix_String (Masked p)) ∧
  ∀ a, covers (prefix_String (Masked p)) a ↔ covers s a.
Proof.
  intros Hs H4. destruct (ParsePrefix_Is4 s p Hs H4) as (v&b&->&Hv&Hb).
  rewrite Masked4 by lia. pose proof (mask_value_bounds 32 b v Hb ltac:(lia)).
  split; [exists (mask_value 32 b v), b; split_and!; [done|lia..]|].
  intros a. unfold covers. rewrite ParsePrefix_String4, Hs by lia. split.
  - intros (?&[= <-]&Hc). rewrite Contains_mask4 in Hc by done. eauto.
  - intros (?&[= <-]&Hc). eexists. split; [done|]. by rewrite Contains_mask4.
Qed.

Lemma canonical_fold (set : gset string) raw :
  match foldM canonical_step set raw with
  | Ok set' => Forall ipv4_prefix raw ∧
      ∀ x, x ∈ set' ↔ x ∈ set ∨ ∃ s p, s ∈ raw ∧ ParsePrefix s = Some p ∧ x = prefix_String (Masked p)
  | Err e => (∃ item, e = NotIPv4Prefix item) ∧ ¬ Forall ipv4_prefix raw
  end.
Proof.
  revert set. induction raw as [|s raw IH]; intros set; cbn [foldM].
  { split; [done|]. intros x. split; [by left|]. intros [?|(?&?&Hs&_)]; [done|]. by apply elem_of_nil in Hs. }
  unfold canonical_step at 1. destruct (ParsePrefix s) as [p|] eqn:Hp.
  2:{ split; [by eauto|]. intros [(?&?&_) _]%Forall_cons. congruence. }
  destruct (Is4 (p_ip p)) eqn:H4.
  2:{ split; [by eauto|]. intros [(q&?&?) _]%Forall_cons. congruence. }
  specialize (IH (set ∪ {[prefix_String (Masked p)]})).
  destruct (foldM _ _ _) as [set'|e].
  - destruct IH as [Hf Hin]. split; [constructor; [by exists p|done]|]. intros x.
    rewrite Hin, elem_of_union, elem_of_singleton. setoid_rewrite elem_of_cons. split.
    + intros [[?| ->]|(s'&q&?&?&?)]; [by left|right; exists s, p; auto|right; exists s', q; auto].
    + intros [?|(s'&q&[->|?]&?&?)]; [auto| |right; eauto]. left. right. congruence.
  - destruct IH as [? Hn]. split; [done|]. by intros [_ ?]%Forall_cons.
Qed.

Lemma canonicalPrefixes_spec raw :
  match canonicalPrefixes raw with
  | Ok l => Forall ipv4_prefix raw ∧ Forall canonical l ∧ ∀ a, covered l a ↔ covered raw a
  | Err e => (∃ item, e = NotIPv4Prefix item) ∧ ¬ Forall ipv4_prefix raw
  end.
Proof.
  unfold canonicalPrefixes. pose proof (canonical_fold ∅ raw) as H.
  destruct (foldM _ _ _) as [set|e]; cbn; [|done]. destruct H as [Hf Hin].
  assert (∀ x, x ∈ sorted_set set ↔
    ∃ s p, s ∈ raw ∧ ParsePrefix s = Some p ∧ x = prefix_String (Masked p)) as Hl.
  { intros x. rewrite elem_of_sorted_set, Hin. split; [|by right]. by intros [?%elem_of_empty|?]. }
  assert (∀ s p, s ∈ raw → ParsePrefix s = Some p → Is4 (p_ip p) = true) as H4.
  { intros s p Hs Hp. rewrite Forall_forall in Hf. destruct (Hf s Hs) as (q&?&?). congruence. }
  split_and!; [done| |].
  - rewrite Forall_forall. intros x (s&p&Hs&Hp&->)%Hl. eapply masked_canonical; eauto.
  - intros a. split.
    + intros (x&Hx&Hc). apply Hl in Hx as (s&p&Hs&Hp&->). exists s. split; [done|].
      by eapply (masked_canonical s p); eauto.
    + intros (s&Hs&Hc). pose proof Hc as (p&Hp&_). exists (prefix_String (Masked p)).
      split; [apply Hl; eauto|]. eapply (masked_canonical s p); eauto.
Qed.

(** ** Reading the rules back *)
Definition matched (P : Prop) (t : target) (r : option (option target)) : Prop :=
  (P ∧ r = Some (Some t)) ∨ (¬ P ∧ r = Some None).

Lemma prefix_match_canonical s a :
  canonical s → ∃ b, prefix_match s a = Some b ∧ (b = true ↔ covers s a).
Proof.
  intros (v&b&Hp&_)%canonical_parse. unfold prefix_match, covers. rewrite Hp. cbn.
  eexists. split; [done|]. split; [by eauto|]. by intros (?&[= <-]&?).
Qed.

Definition token (s : string) : Prop := str_free " " s.

Lemma validInterface_token ifc : validInterface ifc = true → token ifc ∧ str_free "010" ifc.
Proof.
  unfold validInterface. rewrite negb_true_iff, orb_false_iff. intros [_ H].
  unfold str_existsb in H. rewrite negb_false_iff in H.
  split; (eapply str_free_bytes; [exact H|]); done.
Qed.

(** The rules as lists of tokens. *)
Lemma rule_tokens l : Forall token l → l ≠ [] → str_split " " (str_join " " l) = l.
Proof. intros. by apply str_split_join. Qed.

#[local] Arguments prefix_match : simpl never.
#[local] Arguments iface_match : simpl never.
#[local] Arguments parse_mark : simpl never.
#[local] Arguments and_match : simpl never.

Lemma and_match_some (b : bool) (P : Prop) r t Q :
  (b = true ↔ P) → matched Q t r → matched (P ∧ Q) t (and_match (Some b) r).
Proof.
  intros Hb [[HQ ->]|[HQ ->]]; unfold and_match, matched; destruct b; cbn; naive_solver.
Qed.
Lemma and_match_prefix s a r t Q :
  canonical s → matched Q t r → matched (covers s a ∧ Q) t (and_match (prefix_match s a) r).
Proof.
  intros Hs Hr. destruct (prefix_match_canonical s a Hs) as (b&->&Hb). by apply and_match_some.
Qed.
Lemma matched_target t : matched True t (Some (Some t)).
Proof. by left. Qed.
Lemma matched_iff P Q t r : (P ↔ Q) → matched P t r → matched Q t r.
Proof. unfold matched. naive_solver. Qed.

(** Turns a rule into its tokens, evaluates the literal ones and collects what
    the others say. *)
Ltac read_rule toks :=
  unfold eval_rule;
  match goal with |- context [str_split " " ?r] => change r with (str_join " " toks) end;
  rewrite rule_tokens; [|by repeat constructor|done];
  simpl; unfold match1, match_module; simpl;
  eapply matched_iff; [|solve [repeat first
    [ apply matched_target | apply and_match_prefix; [done|]
    | apply and_match_some; [reflexivity|] ]]]; tauto.

Section rules.
Context (pkt : packet) (c d i : string) (Hc : canonical c) (Hd : canonical d) (Hi : token i).

Let Hct : token c. Proof. by apply canonical_free. Qed.
Let Hdt : token d. Proof. by apply canonical_free. Qed.

Lemma forward_rule_eval :
  matched (covers c (src pkt) ∧ covers d (dst pkt) ∧ iface_match i (out_if pkt) = true) ACCEPT
    (eval_rule pkt (forward_rule c d i)).
Proof.
  read_rule ["-s"; c; "-d"; d; "-o"; i; "-m"; "comment"; "--comment"; OwnerComment; "-j"; "ACCEPT"].
Qed.
Lemma return_rule_eval :
  matched (covers d (src pkt) ∧ covers c (dst pkt) ∧ iface_match i (in_if pkt) = true ∧
           established pkt = true) ACCEPT
    (eval_rule pkt (return_rule c d i)).
Proof.
  read_rule ["-s"; d; "-d"; c; "-i"; i; "-m"; "conntrack"; "--ctstate"; "RELATED,ESTABLISHED";
             "-m"; "comment"; "--comment"; OwnerComment; "-j"; "ACCEPT"].
Qed.
Lemma nat_rule_eval :
  matched (covers c (src pkt) ∧ covers d (dst pkt) ∧ iface_match i (out_if pkt) = true) MASQUERADE
    (eval_rule pkt (nat_rule c d i)).
Proof.
  read_rule ["-s"; c; "-d"; d; "-o"; i; "-m"; "comment"; "--comment"; OwnerComment; "-j"; "MASQUERADE"].
Qed.
Lemma mss_rule_eval :
  matched (covers c (src pkt) ∧ covers d (dst pkt) ∧ iface_match i (out_if pkt) = true ∧
           tcp pkt = true ∧ syn pkt = true) TCPMSS
    (eval_rule pkt (mss_rule c d i)).
Proof.
  read_rule ["-s"; c; "-d"; d; "-o"; i; "-p"; "tcp"; "-m"; "tcp"; "--tcp-flags"; "SYN,RST"; "SYN";
             "-m"; "comment"; "--comment"; OwnerComment; "-j"; "TCPMSS"; "--clamp-mss-to-pmtu"].
Qed.
Lemma destination_drop_eval :
  matched (covers d (dst pkt) ∧ iface_match i (out_if pkt) = true) DROP
    (eval_rule pkt (destination_drop d i)).
Proof. read_rule ["-d"; d; "-o"; i; "-m"; "comment"; "--comment"; OwnerComment; "-j"; "DROP"]. Qed.
Lemma source_drop_eval : matched (covers c (src pkt)) DROP (eval_rule pkt (source_drop c)).
Proof. read_rule ["-s"; c; "-m"; "comment"; "--comment"; OwnerComment; "-j"; "DROP"]. Qed.
Lemma client_drop_eval : matched (covers c (dst pkt)) DROP (eval_rule pkt (client_drop c)).
Proof. read_rule ["-d"; c; "-m"; "comment"; "--comment"; OwnerComment; "-j"; "DROP"]. Qed.
End rules.

Lemma matched_eq P t r : matched P t r → (r = Some (Some t) ↔ P).
Proof. unfold matched. naive_solver. Qed.

(** Rules with one target, in any order. *)
Lemma eval_chain_uniform pkt t l :
  (∀ r, r ∈ l → ∃ P, matched P t (eval_rule pkt r)) →
  matched (∃ r, r ∈ l ∧ eval_rule pkt r = Some (Some t)) t (eval_chain pkt l).
Proof.
  induction l as [|r l IH]; intros Hl; cbn [eval_chain].
  { right. split; [|done]. intros (r&Hr&_). by apply elem_of_nil in Hr. }
  destruct (Hl r) as (P&[[HP He]|[HP He]]); [by left| |].
  - rewrite He. left. split; [|done]. exists r. split; [by left|done].
  - rewrite He. eapply matched_iff; [|apply IH; intros r' ?; apply Hl; by right].
    setoid_rewrite elem_of_cons. split; [intros (r'&?&?); eauto|].
    intros (r'&[->|?]&?); [congruence|eauto].
Qed.

Lemma eval_chain_app pkt l1 l2 :
  eval_chain pkt (l1 ++ l2) =
  match eval_chain pkt l1 with Some None => eval_chain pkt l2 | x => x end.
Proof.
  induction l1 as [|r l1 IH]; [done|]. cbn [app eval_chain].
  by destruct (eval_rule pkt r) as [[t|]|].
Qed.

(** ** What Compile builds *)
Definition canon (raw : list string) : list string :=
  match canonicalPrefixes raw with Ok l => l | Err _ => [] end.
Definition own (ifc : string) (ds : list string) : list (Prefix * string) :=
  (λ p, (p, ifc)) <$> omap ParsePrefix ds.
Definition tunnel_drops (t : TunnelPolicy) : list string :=
  (λ d, destination_drop d (Interface t)) <$> canon (Destinations t).
Definition accept_rules (clients : list string) (t : TunnelPolicy) : list string :=
  pairs clients (canon (Destinations t)) ≫=
    λ cd, [forward_rule cd.1 cd.2 (Interface t); return_rule cd.1 cd.2 (Interface t)].
Definition pair_rules (f : string → string → string → string) (clients : list string)
    (t : TunnelPolicy) : list string :=
  (λ cd, f cd.1 cd.2 (Interface t)) <$> pairs clients (canon (Destinations t)).

Definition disjoint_destinations (ts : list TunnelPolicy) : Prop :=
  ∀ t1 t2 a, t1 ∈ ts → t2 ∈ ts → Interface t1 ≠ Interface t2 →
    covered (Destinations t1) a → covered (Destinations t2) a → False.
Definition tunnels_ok (ts : list TunnelPolicy) : Prop :=
  Forall (λ t, validInterface (Interface t) = true ∧ Forall ipv4_prefix (Destinations t)) ts ∧
  NoDup (Interface <$> ts) ∧ disjoint_destinations ts.

Lemma canon_spec raw :
  Forall ipv4_prefix raw →
  canonicalPrefixes raw = Ok (canon raw) ∧ Forall canonical (canon raw) ∧
  ∀ a, covered (canon raw) a ↔ covered raw a.
Proof.
  intros Hr. unfold canon. pose proof (canonicalPrefixes_spec raw) as H.
  destruct (canonicalPrefixes raw); [by destruct H|by destruct H].
Qed.

Lemma tunnels_ok_perm ts ts' : ts ≡ₚ ts' → tunnels_ok ts → tunnels_ok ts'.
Proof.
  intros Hp (H1&H2&H3). split_and!.
  - by rewrite <-Hp.
  - eapply NoDup_Permutation_proper; [|exact H2]. by apply fmap_Permutation.
  - intros t1 t2 a Ht1 Ht2. rewrite <-Hp in Ht1, Ht2. by apply H3.
Qed.

Lemma tunnels_ok_prefix ts1 ts2 : tunnels_ok (ts1 ++ ts2) → tunnels_ok ts1.
Proof.
  intros (H1&H2&H3). split_and!.
  - by apply Forall_app in H1 as [? _].
  - rewrite fmap_app in H2. by apply NoDup_app in H2 as [? _].
  - intros t1 t2 a Ht1 Ht2. apply H3; apply elem_of_app; by left.
Qed.

Lemma claim_fold ifc st ds :
  Forall canonical ds →
  match foldM (claim_destination ifc) st ds with
  | Ok st' =>
      st' = {| seenInterface := seenInterface st;
               destinationOwners := destinationOwners st ++ own ifc ds;
               destinationDrops := destinationDrops st ++ ((λ d, destination_drop d ifc) <$> ds);
               filter_rules := filter_rules st; nat_rules := nat_rules st;
               mangle_rules := mangle_rules st |} ∧
      ∀ o d p, o ∈ destinationOwners st → o.2 ≠ ifc → d ∈ ds → ParsePrefix d = Some p →
        Overlaps o.1 p = false
  | Err e => ∃ o d p, o ∈ destinationOwners st ∧ o.2 ≠ ifc ∧ d ∈ ds ∧ ParsePrefix d = Some p ∧
               Overlaps o.1 p = true ∧ e = DestinationOverlap p ifc o.1 o.2
  end.
Proof.
  revert st. induction ds as [|d ds IH]; intros st Hc; cbn [foldM].
  { split; [|by intros ? ? ? ? ? ?%elem_of_nil]. destruct st. cbn. by rewrite !app_nil_r. }
  apply Forall_cons in Hc as [Hd Hc]. destruct (canonical_parse d Hd) as (v&b&Hp&_).
  unfold claim_destination at 1. rewrite Hp. unfold find_overlap.
  destruct (list_find _ _) as [[n [q i]]|] eqn:Hf; cbn.
  { apply list_find_Some in Hf as (Hq&[Hi Ho]&_). apply list_elem_of_lookup_2 in Hq.
    exists (q, i), d, (prefix4 v b). split_and!; try done. by left. }
  rewrite list_find_None, Forall_forall in Hf.
  set (st1 := {| destinationOwners := _ ++ _ |}).
  specialize (IH st1 Hc). destruct (foldM _ _ _) as [st'|e].
  - destruct IH as [-> Hno]. unfold st1. cbn. split.
    + unfold own. cbn [omap list_omap]. rewrite Hp. cbn. by rewrite <-!app_assoc.
    + intros o d' p Ho Hi [->|Hd']%elem_of_cons Hp'.
      * rewrite Hp in Hp'. injection Hp' as <-. apply not_true_is_false. intros Hov.
        by eapply Hf; eauto.
      * eapply (Hno o d'); [|done..]. cbn. apply elem_of_app. by left.
  - destruct IH as (o&d'&p&Ho&Hi&Hd'&?&?&?). cbn in Ho.
    apply elem_of_app in Ho as [Ho|Ho%list_elem_of_singleton]; [|by subst o].
    exists o, d', p. split_and!; try done. by right.
Qed.

Lemma overlap_covers d1 d2 p1 p2 :
  canonical d1 → canonical d2 → ParsePrefix d1 = Some p1 → ParsePrefix d2 = Some p2 →
  Overlaps p1 p2 = true ↔ ∃ a, covers d1 a ∧ covers d2 a.
Proof.
  intros H1 H2 Hp1 Hp2. unfold covers. rewrite Hp1, Hp2.
  destruct (canonical_parse d1 H1) as (v&b&Hq1&?&?). destruct (canonical_parse d2 H2) as (w&c&Hq2&?&?).
  assert (p1 = prefix4 v b) as -> by congruence. assert (p2 = prefix4 w c) as -> by congruence.
  rewrite Overlaps4 by done. split.
  - intros (a&?&?). exists a. split; by eexists.
  - intros (a&(?&[= <-]&?)&(?&[= <-]&?)). by exists a.
Qed.

Definition built (clients : list string) (ts : list TunnelPolicy) (st : compile_state) : Prop :=
  (∀ i, i ∈ seenInterface st ↔ i ∈ Interface <$> ts) ∧
  destinationOwners st = (ts ≫= λ t, own (Interface t) (canon (Destinations t))) ∧
  destinationDrops st = ts ≫= tunnel_drops ∧
  filter_rules st = ts ≫= accept_rules clients ∧
  nat_rules st = ts ≫= pair_rules nat_rule clients ∧
  mangle_rules st = ts ≫= pair_rules mss_rule clients.

Lemma elem_of_owners (ts : list TunnelPolicy) o :
  o ∈ (ts ≫= λ t, own (Interface t) (canon (Destinations t))) ↔
  ∃ t d, t ∈ ts ∧ d ∈ canon (Destinations t) ∧ ParsePrefix d = Some o.1 ∧ Interface t = o.2.
Proof.
  rewrite list_elem_of_bind. unfold own. setoid_rewrite list_elem_of_fmap.
  setoid_rewrite list_elem_of_omap. split.
  - intros (t&(p&->&d&Hd&Hp)&Ht). exists t, d. done.
  - intros (t&d&Ht&Hd&Hp&Hi). exists t. split; [|done]. destruct o as [p i]. cbn in *. subst i.
    exists p. eauto.
Qed.

(** Adding a tunnel keeps the destinations disjoint exactly when no other
    tunnel's destination overlaps one of its own. *)
Lemma disjoint_snoc ts t :
  Forall (λ t, Forall ipv4_prefix (Destinations t)) ts → Forall ipv4_prefix (Destinations t) →
  disjoint_destinations ts → Interface t ∉ Interface <$> ts →
  disjoint_destinations (ts ++ [t]) ↔
  ∀ o d p, o ∈ (ts ≫= λ t, own (Interface t) (canon (Destinations t))) → o.2 ≠ Interface t →
    d ∈ canon (Destinations t) → ParsePrefix d = Some p → Overlaps o.1 p = false.
Proof.
  intros Hts Ht Hd Hni. rewrite Forall_forall in Hts.
  destruct (canon_spec _ Ht) as (_&Hcan&Hcov). rewrite Forall_forall in Hcan.
  assert (∀ t1, t1 ∈ ts → Interface t1 ≠ Interface t) as Hne.
  { intros t1 H1 He. apply Hni. rewrite <-He. by apply list_elem_of_fmap_2. }
  split.
  - intros Hall o d p (t1&d1&H1&Hd1&Hp1&Hi1)%elem_of_owners Hne1 Hd2 Hp2.
    destruct (canon_spec _ (Hts t1 H1)) as (_&Hcan1&Hcov1). rewrite Forall_forall in Hcan1.
    apply not_true_is_false. intros (a&Ha1&Ha2)%(overlap_covers d1 d); [|by auto..].
    eapply (Hall t1 t a); [apply elem_of_app; by left|apply elem_of_app; right; by left|by auto| |].
    + apply Hcov1. by exists d1.
    + apply Hcov. by exists d.
  - intros Hno. assert (∀ t1 a, t1 ∈ ts → covered (Destinations t1) a → covered (Destinations t) a → False) as Hx.
    { intros t1 a H1 Ha1 Ha. destruct (canon_spec _ (Hts t1 H1)) as (_&Hcan1&Hcov1).
      rewrite Forall_forall in Hcan1. apply Hcov1 in Ha1 as (d1&Hd1&p1&Hp1&Hc1).
      apply Hcov in Ha as (d2&Hd2&p2&Hp2&Hc2).
      assert (Overlaps p1 p2 = false) as Hov.
      { apply (Hno (p1, Interface t1) d2 p2); [|cbn; by apply Hne|done..]. apply elem_of_owners. exists t1, d1. auto. }
      apply not_true_iff_false in Hov. apply Hov.
      apply (overlap_covers d1 d2); [by auto..|]. exists a. split; by eexists. }
    intros t1 t2 a [H1|H1%list_elem_of_singleton]%elem_of_app [H2|H2%list_elem_of_singleton]%elem_of_app;
      subst; eauto.
Qed.

Lemma tunnels_ok_snoc ts t :
  tunnels_ok ts → validInterface (Interface t) = true → Forall ipv4_prefix (Destinations t) →
  Interface t ∉ Interface <$> ts →
  tunnels_ok (ts ++ [t]) ↔ disjoint_destinations (ts ++ [t]).
Proof.
  intros (H1&H2&H3) Hv Hd Hni. split; [by intros (_&_&?)|]. intros Hdis. split_and!; [|  |done].
  - apply Forall_app. split; [done|]. by apply Forall_singleton.
  - rewrite fmap_app. apply NoDup_app. split_and!; [done| |apply NoDup_singleton].
    intros i Hi ->%list_elem_of_singleton. done.
Qed.

Lemma compile_tunnel_step clients ts st t :
  tunnels_ok ts → built clients ts st →
  match compile_tunnel clients st t with
  | Ok st' => tunnels_ok (ts ++ [t]) ∧ built clients (ts ++ [t]) st'
  | Err e => ¬ tunnels_ok (ts ++ [t]) ∧ ∀ s, e ≠ Panicked s
  end.
Proof.
  intros Hok (Hseen&Hown&Hdrop&Hf&Hn&Hm). pose proof Hok as (Hall&_&Hdis). unfold compile_tunnel.
  destruct (validInterface (Interface t)) eqn:Hv; cbn [negb].
  2:{ split; [|done]. intros ([_ [[? _] _]%Forall_cons]%Forall_app&_). congruence. }
  case_bool_decide as Hin.
  { split; [|done]. intros (_&Hnd&_). rewrite fmap_app in Hnd. apply NoDup_app in Hnd as (_&Hnd&_).
    apply (Hnd (Interface t)); [by apply Hseen|]. by left. }
  rewrite Hseen in Hin. pose proof (canonicalPrefixes_spec (Destinations t)) as Hc.
  destruct (canonicalPrefixes (Destinations t)) as [ds|e] eqn:Hds.
  2:{ split; [|done]. destruct Hc as [_ Hc]. by intros ([_ [[_ ?] _]%Forall_cons]%Forall_app&_). }
  assert (canon (Destinations t) = ds) as Hcan by (unfold canon; by rewrite Hds).
  destruct Hc as (H4&Hcs&_).
  assert (Forall (λ t, Forall ipv4_prefix (Destinations t)) ts) as H4s
    by (eapply Forall_impl; [exact Hall|]; by intros ? [_ ?]).
  pose proof (disjoint_snoc ts t H4s H4 Hdis Hin) as Hiff. rewrite Hcan, <-Hown in Hiff.
  rewrite <-(tunnels_ok_snoc ts t) in Hiff by done.
  set (st0 := {| seenInterface := _ ∪ _ |}).
  pose proof (claim_fold (Interface t) st0 ds Hcs) as Hcl. cbn [destinationOwners st0] in Hcl.
  destruct (foldM (claim_destination _) _ _) as [st'|e].
  - destruct Hcl as [-> Hno]. split; [by apply Hiff|]. unfold st0. cbn. split_and!; cbn.
    + intros i. rewrite fmap_app, elem_of_app, elem_of_union, elem_of_singleton, Hseen. cbn.
      by rewrite list_elem_of_singleton.
    + by rewrite bind_app, Hown; cbn; rewrite app_nil_r, Hcan.
    + by rewrite bind_app, Hdrop; cbn; unfold tunnel_drops at 3; rewrite app_nil_r, Hcan.
    + by rewrite bind_app, Hf; cbn; unfold accept_rules at 3; rewrite app_nil_r, Hcan.
    + by rewrite bind_app, Hn; cbn; unfold pair_rules at 3; rewrite app_nil_r, Hcan.
    + by rewrite bind_app, Hm; cbn; unfold pair_rules at 3; rewrite app_nil_r, Hcan.
  - destruct Hcl as (o&d&p&Ho&Hi&Hd&Hp&Hov&->). split; [|done]. intros Hno.
    pose proof (proj1 Hiff Hno) as Hno'. by rewrite (Hno' o d p) in Hov.
Qed.

Definition policy_ok (p : Policy) : Prop :=
  Forall ipv4_prefix (ClientCIDRs p) ∧ tunnels_ok (Tunnels p).

(** The three chains as functions of the policy. *)
Definition compiled_filter (p : Policy) : list string :=
  let clients := canon (ClientCIDRs p) in let ts := sort_by Interface (Tunnels p) in
  sort_strings (ts ≫= accept_rules clients) ++ (clients ≫= λ c, [source_drop c; client_drop c]) ++
  sort_strings (ts ≫= tunnel_drops).
Definition compiled_pairs (f : string → string → string → string) (p : Policy) : list string :=
  sort_strings (sort_by Interface (Tunnels p) ≫= pair_rules f (canon (ClientCIDRs p))).
Definition compiled (p : Policy) : Ruleset :=
  {| Chains := [
    {| Table := "filter"; Hook := "FORWARD"; Name := FilterChain;
       Comment := OwnerComment +:+ ":filter-forward"; Rules := compiled_filter p |};
    {| Table := "nat"; Hook := "POSTROUTING"; Name := NATChain;
       Comment := OwnerComment +:+ ":nat-postrouting"; Rules := compiled_pairs nat_rule p |};
    {| Table := "mangle"; Hook := "FORWARD"; Name := MangleChain;
       Comment := OwnerComment +:+ ":mangle-forward"; Rules := compiled_pairs mss_rule p |} ] |}.

Lemma compile_fold clients ts :
  match foldM (compile_tunnel clients) compile_start ts with
  | Ok st => tunnels_ok ts ∧ built clients ts st
  | Err e => ¬ tunnels_ok ts ∧ ∀ s, e ≠ Panicked s
  end.
Proof.
  induction ts as [|t ts IH] using rev_ind; cbn [foldM].
  { split; [split_and!; [done|constructor|]; by intros ? ? ? ?%elem_of_nil|].
    split_and!; [|done..]. intros i. cbn. by rewrite elem_of_empty, elem_of_nil. }
  rewrite foldM_app. destruct (foldM _ _ ts) as [st|e].
  - destruct IH as [Hok Hb]. pose proof (compile_tunnel_step clients ts st t Hok Hb) as H.
    cbn [foldM]. by destruct (compile_tunnel clients st t).
  - destruct IH as [Hn ?]. split; [|done]. by intros ?%tunnels_ok_prefix.
Qed.

Lemma Compile_spec p :
  match Compile p with
  | Ok rs => policy_ok p ∧ rs = compiled p
  | Err e => ¬ policy_ok p ∧ ∀ s, e ≠ Panicked s
  end.
Proof.
  unfold Compile, policy_ok. pose proof (canonicalPrefixes_spec (ClientCIDRs p)) as Hc.
  destruct (canonicalPrefixes _) as [clients|e] eqn:He.
  2:{ destruct Hc as [_ Hc]. split; [by intros [? _]|done]. }
  destruct Hc as (H4&_). pose proof (sort_by_perm Interface (Tunnels p)) as Hperm.
  pose proof (compile_fold clients (sort_by Interface (Tunnels p))) as Hf.
  destruct (foldM _ _ _) as [st|e].
  - destruct Hf as [Hok (_&_&Hd&Hfl&Hn&Hm)]. split.
    + split; [done|]. by eapply tunnels_ok_perm.
    + unfold compiled, compiled_filter, compiled_pairs, canon. rewrite He.
      by rewrite Hd, Hfl, Hn, Hm.
  - destruct Hf as [Hn ?]. split; [|done]. intros [_ Hok]. apply Hn.
    by eapply tunnels_ok_perm.
Qed.

(** *** Packets through the compiled chains *)
Section compiled.
Context (p : Policy) (Hp : policy_ok p) (pkt : packet).
#[local] Abbreviation clients := (ClientCIDRs p).

Definition allowed : Prop :=
  ∃ t, t ∈ Tunnels p ∧ covered clients (src pkt) ∧ covered (Destinations t) (dst pkt) ∧
       iface_match (Interface t) (out_if pkt) = true.
Definition reply : Prop :=
  ∃ t, t ∈ Tunnels p ∧ covered (Destinations t) (src pkt) ∧ covered clients (dst pkt) ∧
       iface_match (Interface t) (in_if pkt) = true ∧ established pkt = true.
Definition guarded : Prop :=
  covered clients (src pkt) ∨ covered clients (dst pkt) ∨
  ∃ t, t ∈ Tunnels p ∧ covered (Destinations t) (dst pkt) ∧ iface_match (Interface t) (out_if pkt) = true.

Lemma clients_canon :
  Forall canonical (canon clients) ∧ ∀ a, covered (canon clients) a ↔ covered clients a.
Proof. destruct Hp as [Hc _]. by apply canon_spec in Hc as (_&?&?). Qed.

Lemma tunnel_canon t :
  t ∈ sort_by Interface (Tunnels p) → t ∈ Tunnels p ∧ token (Interface t) ∧
  Forall canonical (canon (Destinations t)) ∧
  ∀ a, covered (canon (Destinations t)) a ↔ covered (Destinations t) a.
Proof.
  rewrite elem_of_sort_by. intros Ht. destruct Hp as [_ (Hall&_)]. rewrite Forall_forall in Hall.
  destruct (Hall t Ht) as [Hv H4]. split; [done|]. split; [by apply validInterface_token|].
  by apply canon_spec in H4 as (_&?&?).
Qed.

Lemma elem_of_pairs cs ds c d : (c, d) ∈ pairs cs ds ↔ c ∈ cs ∧ d ∈ ds.
Proof.
  unfold pairs. rewrite list_elem_of_bind. setoid_rewrite list_elem_of_fmap. split.
  - by intros (x&(y&[= -> ->]&?)&?).
  - intros [? ?]. exists c. split; [|done]. by exists d.
Qed.

(** Rules made from the client, destination and interface tuples with one target. *)
Lemma tuple_rules_eval (g : string → string → string → list string) t
    (P : string → string → string → string → Prop) :
  (∀ c d i r, canonical c → canonical d → token i → r ∈ g c d i →
     matched (P c d i r) t (eval_rule pkt r)) →
  matched (∃ tn c d r, tn ∈ Tunnels p ∧ c ∈ canon clients ∧ d ∈ canon (Destinations tn) ∧
             r ∈ g c d (Interface tn) ∧ P c d (Interface tn) r) t
    (eval_chain pkt (sort_strings (sort_by Interface (Tunnels p) ≫= λ tn,
       pairs (canon clients) (canon (Destinations tn)) ≫= λ cd, g cd.1 cd.2 (Interface tn)))).
Proof.
  intros Hg. destruct clients_canon as [Hcc _]. rewrite Forall_forall in Hcc.
  set (l := sort_strings _).
  assert (∀ r, r ∈ l ↔ ∃ tn c d, tn ∈ sort_by Interface (Tunnels p) ∧ c ∈ canon clients ∧
    d ∈ canon (Destinations tn) ∧ r ∈ g c d (Interface tn)) as Hl.
  { intros r. unfold l. rewrite elem_of_sort_strings, list_elem_of_bind.
    setoid_rewrite list_elem_of_bind. split.
    - intros (tn&([c d]&Hr&Hcd)&Ht). apply elem_of_pairs in Hcd as [? ?]. eauto 10.
    - intros (tn&c&d&Ht&Hc&Hd&Hr). exists tn. split; [|done]. exists (c, d).
      split; [done|]. by apply elem_of_pairs. }
  assert (∀ tn c d r, tn ∈ sort_by Interface (Tunnels p) → c ∈ canon clients →
    d ∈ canon (Destinations tn) → r ∈ g c d (Interface tn) →
    matched (P c d (Interface tn) r) t (eval_rule pkt r)) as Hm.
  { intros tn c d r Ht Hc Hd Hr. destruct (tunnel_canon tn Ht) as (_&?&Hds&_).
    rewrite Forall_forall in Hds. apply Hg; auto. }
  eapply matched_iff; [|apply eval_chain_uniform].
  - setoid_rewrite Hl. split.
    + intros (r&(tn&c&d&Ht&Hc&Hd&Hr)&He). exists tn, c, d, r.
      split_and!; try done; [by apply tunnel_canon|]. by eapply matched_eq, He; apply Hm.
    + intros (tn&c&d&r&Ht&Hc&Hd&Hr&HP). rewrite <-(elem_of_sort_by Interface) in Ht.
      exists r. split; [by eauto 10|]. by eapply matched_eq; [apply Hm|].
  - intros r (tn&c&d&Ht&Hc&Hd&Hr)%Hl. eauto.
Qed.

Lemma covered_clients a : (∃ c, c ∈ canon clients ∧ covers c a) ↔ covered clients a.
Proof. apply clients_canon. Qed.
Lemma covered_destinations t a :
  t ∈ Tunnels p → (∃ d, d ∈ canon (Destinations t) ∧ covers d a) ↔ covered (Destinations t) a.
Proof. rewrite <-(elem_of_sort_by Interface). intros Ht. by apply (tunnel_canon t Ht). Qed.

Lemma matched_unique P Q t r : matched P t r → matched Q t r → (P ↔ Q).
Proof. unfold matched. naive_solver. Qed.

(** The tuples that satisfy a condition on client, destination and interface. *)
Lemma tuples_covered (A B : Addr) (C : string → Prop) :
  (∃ t c d, t ∈ Tunnels p ∧ c ∈ canon clients ∧ d ∈ canon (Destinations t) ∧
     covers c A ∧ covers d B ∧ C (Interface t)) ↔
  ∃ t, t ∈ Tunnels p ∧ covered clients A ∧ covered (Destinations t) B ∧ C (Interface t).
Proof.
  split.
  - intros (t&c&d&Ht&Hc&Hd&HA&HB&HC). exists t. split_and!; try done.
    + apply covered_clients. eauto.
    + apply covered_destinations; eauto.
  - intros (t&Ht&HA&HB&HC). apply covered_clients in HA as (c&?&?).
    apply covered_destinations in HB as (d&?&?); [|done]. exists t, c, d. done.
Qed.

Lemma accepts_eval :
  matched (allowed ∨ reply) ACCEPT
    (eval_chain pkt (sort_strings (sort_by Interface (Tunnels p) ≫= accept_rules (canon clients)))).
Proof.
  eapply matched_iff; [|apply (tuple_rules_eval
    (λ c d i, [forward_rule c d i; return_rule c d i]) ACCEPT
    (λ c d i r,
       r = forward_rule c d i ∧ covers c (src pkt) ∧ covers d (dst pkt) ∧
         iface_match i (out_if pkt) = true ∨
       r = return_rule c d i ∧ covers c (dst pkt) ∧ covers d (src pkt) ∧
         iface_match i (in_if pkt) = true ∧ established pkt = true))].
  - unfold allowed, reply. split.
    + intros (t&c&d&r&Ht&Hc&Hd&_&[(_&H1&H2&H3)|(_&H1&H2&H3)]); [left|right].
      * apply (tuples_covered _ _ (λ i, iface_match i (out_if pkt) = true)). exists t, c, d. done.
      * assert (∃ t, t ∈ Tunnels p ∧ covered clients (dst pkt) ∧ covered (Destinations t) (src pkt) ∧
          iface_match (Interface t) (in_if pkt) = true ∧ established pkt = true) as (t'&?&?&?&?&?).
        { apply (tuples_covered _ _ (λ i, iface_match i (in_if pkt) = true ∧ established pkt = true)).
          exists t, c, d. done. }
        exists t'. done.
    + intros [H|(t&Ht&HB&HA&HC)].
      * apply (tuples_covered _ _ (λ i, iface_match i (out_if pkt) = true)) in H
          as (t&c&d&?&?&?&?&?&?). exists t, c, d, (forward_rule c d (Interface t)).
        split_and!; try done; [by left|by left].
      * destruct (proj2 (tuples_covered (dst pkt) (src pkt)
          (λ i, iface_match i (in_if pkt) = true ∧ established pkt = true))) as (t'&c&d&?&?&?&?&?&?&?);
          [by exists t|]. exists t', c, d, (return_rule c d (Interface t')).
        split_and!; try done; [by right; left|by right].
  - intros c d i r Hc Hd Hi [->|[->|[]%elem_of_nil]%elem_of_cons]%elem_of_cons.
    + pose proof (forward_rule_eval pkt c d i Hc Hd Hi) as H1.
      pose proof (return_rule_eval pkt c d i Hc Hd Hi) as H2.
      eapply matched_iff, H1. split; [by left|]. intros [[_ ?]|[He ?]]; [done|].
      rewrite <-He in H2. apply (matched_unique _ _ _ _ H2 H1). tauto.
    + pose proof (forward_rule_eval pkt c d i Hc Hd Hi) as H1.
      pose proof (return_rule_eval pkt c d i Hc Hd Hi) as H2.
      eapply matched_iff, H2. split; [right; tauto|]. intros [[He ?]|[_ ?]]; [|tauto].
      rewrite <-He in H1. by apply (matched_unique _ _ _ _ H1 H2).
Qed.

Lemma pair_rules_eval f t (C : Prop) :
  (∀ c d i, canonical c → canonical d → token i →
     matched (covers c (src pkt) ∧ covers d (dst pkt) ∧ iface_match i (out_if pkt) = true ∧ C) t
       (eval_rule pkt (f c d i))) →
  matched (allowed ∧ C) t (eval_chain pkt (compiled_pairs f p)).
Proof.
  intros Hf. eapply matched_iff;
    [|apply (tuple_rules_eval (λ c d i, [f c d i]) t
       (λ c d i r, r = f c d i ∧ covers c (src pkt) ∧ covers d (dst pkt) ∧
          iface_match i (out_if pkt) = true ∧ C))].
  - unfold allowed. split.
    + intros (tn&c&d&r&Ht&Hc&Hd&_&_&H1&H2&H3&HC). split; [|done].
      apply (tuples_covered _ _ (λ i, iface_match i (out_if pkt) = true)). exists tn, c, d. done.
    + intros [H HC]. apply (tuples_covered _ _ (λ i, iface_match i (out_if pkt) = true)) in H
        as (tn&c&d&?&?&?&?&?&?). exists tn, c, d, (f c d (Interface tn)).
      split_and!; try done. by left.
  - intros c d i r Hc Hd Hi ->%list_elem_of_singleton. eapply matched_iff, Hf; [|done..]. tauto.
Qed.

Lemma drops_eval :
  matched guarded DROP
    (eval_chain pkt ((canon clients ≫= λ c, [source_drop c; client_drop c]) ++
                     sort_strings (sort_by Interface (Tunnels p) ≫= tunnel_drops))).
Proof.
  destruct clients_canon as [Hcc _]. rewrite Forall_forall in Hcc.
  set (l := _ ++ _).
  assert (∀ r, r ∈ l ↔ (∃ c, c ∈ canon clients ∧ (r = source_drop c ∨ r = client_drop c)) ∨
    ∃ t d, t ∈ sort_by Interface (Tunnels p) ∧ d ∈ canon (Destinations t) ∧
           r = destination_drop d (Interface t)) as Hl.
  { intros r. unfold l. rewrite elem_of_app, elem_of_sort_strings, !list_elem_of_bind.
    unfold tunnel_drops. setoid_rewrite elem_of_cons. setoid_rewrite list_elem_of_singleton.
    setoid_rewrite list_elem_of_fmap. naive_solver. }
  assert (∀ t d, t ∈ sort_by Interface (Tunnels p) → d ∈ canon (Destinations t) →
    matched (covers d (dst pkt) ∧ iface_match (Interface t) (out_if pkt) = true) DROP
      (eval_rule pkt (destination_drop d (Interface t)))) as Hdd.
  { intros t d Ht Hd. destruct (tunnel_canon t Ht) as (_&?&Hds&_). rewrite Forall_forall in Hds.
    apply destination_drop_eval; auto. }
  eapply matched_iff; [|apply eval_chain_uniform].
  - setoid_rewrite Hl. unfold guarded. split.
    + intros (r&[(c&Hc&[->| ->])|(t&d&Ht&Hd&->)]&He).
      * left. apply covered_clients. exists c. split; [done|].
        by apply (matched_eq _ _ _ (source_drop_eval pkt c (Hcc c Hc))).
      * right. left. apply covered_clients. exists c. split; [done|].
        by apply (matched_eq _ _ _ (client_drop_eval pkt c (Hcc c Hc))).
      * right. right. apply (matched_eq _ _ _ (Hdd t d Ht Hd)) in He as [? ?].
        exists t. rewrite elem_of_sort_by in Ht. split_and!; [done| |done].
        apply covered_destinations; eauto.
    + intros [Hs|[Hs|(t&Ht&Hs&Hi)]].
      * apply covered_clients in Hs as (c&Hc&Hs). exists (source_drop c). split; [left; eauto|].
        by apply (matched_eq _ _ _ (source_drop_eval pkt c (Hcc c Hc))).
      * apply covered_clients in Hs as (c&Hc&Hs). exists (client_drop c). split; [left; eauto|].
        by apply (matched_eq _ _ _ (client_drop_eval pkt c (Hcc c Hc))).
      * apply covered_destinations in Hs as (d&Hd&Hs); [|done].
        rewrite <-(elem_of_sort_by Interface) in Ht. exists (destination_drop d (Interface t)).
        split; [right; eauto|]. by apply (matched_eq _ _ _ (Hdd t d Ht Hd)).
  - intros r [(c&Hc&[->| ->])|(t&d&Ht&Hd&->)]%Hl; eauto.
    + eexists. apply source_drop_eval. auto.
    + eexists. apply client_drop_eval. auto.
Qed.

Lemma filter_eval :
  ((allowed ∨ reply) ∧ eval_chain pkt (compiled_filter p) = Some (Some ACCEPT)) ∨
  (¬ (allowed ∨ reply) ∧ matched guarded DROP (eval_chain pkt (compiled_filter p))).
Proof.
  unfold compiled_filter. rewrite eval_chain_app.
  destruct accepts_eval as [[H ->]|[H ->]]; [by left|]. right. split; [done|apply drops_eval].
Qed.
End compiled.

(** ** The egress guard *)
Definition guard_ok (g : MarkGuard) : Prop :=
  validInterface (g_Interface g) = true ∧ Mark g ≠ 0%Z ∧ Mask g ≠ 0%Z ∧
  Z.land (Mark g) (Mask g) = Mark g.

Lemma guard_rules_spec prev l :
  StronglySorted (λ a b, String.le (g_Interface a) (g_Interface b)) l →
  (∀ i g, prev = Some i → g ∈ l → String.le i (g_Interface g)) →
  match guard_rules prev l with
  | Ok rules => rules = guard_rule <$> l ∧ Forall guard_ok l ∧ NoDup (g_Interface <$> l) ∧
      ∀ i, prev = Some i → i ∉ g_Interface <$> l
  | Err _ => ¬ (Forall guard_ok l ∧ NoDup (g_Interface <$> l) ∧ ∀ i, prev = Some i → i ∉ g_Interface <$> l)
  end.
Proof.
  revert prev. induction l as [|g l IH]; intros prev Hs Hle; cbn [guard_rules].
  { split_and!; [done..|constructor|]. by intros ? ? ?%elem_of_nil. }
  apply StronglySorted_cons in Hs as [Hg Hs]. rewrite Forall_forall in Hg.
  destruct (validInterface _) eqn:Hv; cbn [negb].
  2:{ intros ([(?&_) _]%Forall_cons&_). congruence. }
  case_bool_decide as Hprev.
  { intros (_&_&Hni). apply (Hni _ Hprev). by left. }
  destruct (_ || _) eqn:Hm.
  { intros ([(_&?&?&?) _]%Forall_cons&_). rewrite !orb_true_iff, negb_true_iff, !Z.eqb_eq in Hm.
    rewrite Z.eqb_neq in Hm. tauto. }
  rewrite !orb_false_iff, negb_false_iff, !Z.eqb_neq, Z.eqb_eq in Hm. destruct Hm as [[? ?] ?].
  specialize (IH (Some (g_Interface g)) Hs ltac:(intros i g' [= <-]; auto)).
  destruct (guard_rules _ l) as [rules|e]; cbn.
  - destruct IH as (->&Hall&Hnd&Hni). specialize (Hni _ eq_refl). split_and!; [done| | |].
    + by constructor.
    + by constructor.
    + intros i Hi [->|(g'&->&Hg')%list_elem_of_fmap]%elem_of_cons; [done|].
      apply Hprev. rewrite Hi. f_equal. apply (anti_symm String.le); [|by auto].
      apply Hle; [done|by left].
  - intros ([_ Hall]%Forall_cons&[Hni Hnd]%NoDup_cons&_). apply IH.
    split_and!; [done..|]. by intros ? [= <-].
Qed.

Lemma CompileEgressGuard_spec guards :
  match CompileEgressGuard guards with
  | Ok chain => Forall guard_ok guards ∧ NoDup (g_Interface <$> guards) ∧
      Table chain = "filter" ∧ Hook chain = "OUTPUT" ∧ Name chain = OutputChain ∧
      Rules chain = match guards with [] => [] | _ =>
                      loopback_rule :: (guard_rule <$> sort_by g_Interface guards) end
  | Err _ => ¬ (Forall guard_ok guards ∧ NoDup (g_Interface <$> guards))
  end.
Proof.
  unfold CompileEgressGuard. destruct guards as [|g0 guards0]; [by split_and!; [| constructor|..]|].
  set (guards := g0 :: guards0). pose proof (sort_by_perm g_Interface guards) as Hp.
  pose proof (guard_rules_spec None (sort_by g_Interface guards)
    ltac:(apply sort_by_sorted) ltac:(done)) as H.
  assert (NoDup (g_Interface <$> sort_by g_Interface guards) ↔ NoDup (g_Interface <$> guards)) as Hnd
    by (apply NoDup_Permutation_proper, fmap_Permutation, Hp).
  assert (Forall guard_ok (sort_by g_Interface guards) ↔ Forall guard_ok guards) as Hall
    by (by rewrite Hp).
  destruct (guard_rules _ _); cbn.
  - destruct H as (->&?&?&_). split_and!; try done; tauto.
  - intros [? ?]. apply H. split_and!; try done; tauto.
Qed.

Lemma hex_digit_char d : (0 ≤ d < 16)%Z → hex_digit (hex_char d) = Some d.
Proof.
  intros Hd. set (P z := match hex_digit (hex_char z) with Some w => (w =? z)%Z | None => false end).
  assert (P d = true) as H by (apply (forall_below P 16); [vm_compute; reflexivity|lia]).
  unfold P in H. destruct (hex_digit _); [|done]. f_equal. lia.
Qed.

Lemma hex_value_fuel n v acc :
  (0 ≤ v < 16 ^ Z.of_nat (S n))%Z → hex_value 0 (hex_fuel (S n) v acc) = hex_value v acc.
Proof.
  revert v acc. induction n as [|n IH]; intros v acc Hv; cbn [hex_fuel].
  - rewrite Z.mod_small by lia. replace (if (v <? 16)%Z then _ else _) with (String (hex_char v) acc)
      by (by destruct (v <? 16)%Z).
    cbn [hex_value]. by rewrite hex_digit_char by lia.
  - destruct (Z.ltb_spec v 16).
    + rewrite Z.mod_small by lia. cbn [hex_value]. by rewrite hex_digit_char by lia.
    + change (hex_value 0 (hex_fuel (S n) (v / 16) (String (hex_char (v mod 16)) acc)) = hex_value v acc).
      rewrite IH.
      * cbn [hex_value]. pose proof (Z.mod_pos_bound v 16 ltac:(lia)).
        rewrite hex_digit_char by lia. f_equal. pose proof (Z.div_mod v 16). lia.
      * rewrite (Nat2Z.inj_succ (S n)), Z.pow_succ_r in Hv by lia. split; [apply Z.div_pos; lia|].
        apply Z.div_lt_upper_bound; lia.
Qed.

Lemma parse_hex32 v : is_u32 v → parse_hex (hex32 v) = Some v.
Proof.
  intros Hv. change (parse_hex (hex32 v)) with (hex_value 0 (hex_fuel 8 v "")).
  by rewrite hex_value_fuel.
Qed.

Lemma hex_fuel_free c n v acc :
  hex_digit c = None → str_free c acc → str_free c (hex_fuel n v acc).
Proof.
  intros Hc. revert v acc. induction n as [|n IH]; intros v acc Ha; [done|]. cbn [hex_fuel].
  assert (str_free c (String (hex_char (v mod 16)) acc)).
  { apply str_free_cons. split; [|done]. intros ->.
    rewrite hex_digit_char in Hc; [done|]. by apply Z.mod_pos_bound. }
  destruct (v <? 16)%Z; auto.
Qed.
Lemma hex32_free c v : hex_digit c = None → c ≠ "x"%char → str_free c (hex32 v).
Proof.
  intros Hc Hx. unfold hex32. apply str_free_app. split; [|by apply hex_fuel_free].
  apply str_free_cons. split; [by intros ->|]. by apply str_free_cons.
Qed.

Lemma markSelector_spec mark mask :
  is_u32 mark → is_u32 mask →
  parse_mark (markSelector mark mask) = Some (mark, mask) ∧
  ∀ c, hex_digit c = None → c ≠ "x"%char → c ≠ "/"%char → str_free c (markSelector mark mask).
Proof.
  intros H1 H2. unfold markSelector, parse_mark. destruct (Z.eqb_spec mask u32_max) as [->|_].
  - change (sprintf "%#x" [hex32 mark]) with (hex32 mark +:+ ""). rewrite str_app_nil_r.
    rewrite str_split_free by (by apply hex32_free). cbn. rewrite parse_hex32 by done.
    split; [done|]. intros. by apply hex32_free.
  - change (sprintf "%#x/%#x" [hex32 mark; hex32 mask]) with
      (hex32 mark +:+ String "/" (hex32 mask +:+ "")). rewrite str_app_nil_r.
    rewrite str_split_first, str_split_free by (by apply hex32_free). cbn.
    rewrite !parse_hex32 by done. split; [done|]. intros c Hc Hx Hs.
    apply str_free_app. split; [by apply hex32_free|]. apply str_free_cons.
    split; [done|]. by apply hex32_free.
Qed.

Definition selects (g : MarkGuard) (pkt : packet) : Prop := Z.land (fwmark pkt) (Mask g) = Mark g.

Lemma guard_rule_eval pkt g :
  guard_ok g → is_u32 (Mark g) → is_u32 (Mask g) →
  matched (iface_match (g_Interface g) (out_if pkt) = false ∧ selects g pkt) REJECT
    (eval_rule pkt (guard_rule g)).
Proof.
  intros (Hv&_) H1 H2. destruct (markSelector_spec _ _ H1 H2) as [Hm Hf].
  assert (token (markSelector (Mark g) (Mask g))) as Ht by (by apply Hf).
  apply validInterface_token in Hv as [Hi _].
  unfold guard_rule, selects.
  set (sel := markSelector (Mark g) (Mask g)) in *. set (i := g_Interface g) in *.
  unfold eval_rule. change (sprintf _ _) with (str_join " " ["!"; "-o"; i; "-m"; "mark"; "--mark"; sel;
    "-m"; "comment"; "--comment"; OwnerComment; "-j"; "REJECT"; "--reject-with"; "icmp-port-unreachable"]).
  rewrite rule_tokens; [|by repeat constructor|done]. simpl. unfold match_module. simpl.
  rewrite Hm. simpl. eapply matched_iff; [|
    apply and_match_some; [reflexivity|]; apply and_match_some; [reflexivity|];
    apply and_match_some; [reflexivity|]; apply matched_target].
  rewrite negb_true_iff, Z.eqb_eq. tauto.
Qed.

Lemma loopback_rule_eval pkt :
  matched (out_if pkt = "lo") RETURN (eval_rule pkt loopback_rule).
Proof.
  assert (matched (iface_match "lo" (out_if pkt) = true) RETURN (eval_rule pkt loopback_rule)) as H.
  { read_rule ["-o"; "lo"; "-m"; "comment"; "--comment"; OwnerComment; "-j"; "RETURN"]. }
  eapply matched_iff, H. unfold iface_match.
  change (has_suffix "+" "lo") with false. rewrite bool_decide_eq_true. by split.
Qed.

(** Two selectors that [ValidateAllocations] accepts select no common packet. *)
Lemma selects_disjoint g1 g2 pkt :
  Z.land (Mark g1) (Z.land (Mask g1) (Mask g2)) ≠ Z.land (Mark g2) (Z.land (Mask g1) (Mask g2)) →
  selects g1 pkt → selects g2 pkt → False.
Proof.
  unfold selects. intros Hne H1 H2. apply Hne. rewrite <-H1, <-H2. apply Z.bits_inj. intros n. rewrite !Z.land_spec.
  by destruct (Z.testbit (fwmark pkt) n), (Z.testbit (Mask g1) n), (Z.testbit (Mask g2) n).
Qed.

Lemma guards_eval pkt guards :
  Forall guard_ok guards → Forall (λ g, is_u32 (Mark g) ∧ is_u32 (Mask g)) guards →
  matched (∃ g, g ∈ guards ∧ selects g pkt ∧ iface_match (g_Interface g) (out_if pkt) = false) REJECT
    (eval_chain pkt (guard_rule <$> sort_by g_Interface guards)).
Proof.
  rewrite !Forall_forall. intros Hok Hu.
  assert (∀ g, g ∈ guards → matched (iface_match (g_Interface g) (out_if pkt) = false ∧ selects g pkt)
    REJECT (eval_rule pkt (guard_rule g))) as Hm.
  { intros g Hg. destruct (Hu g Hg). by apply guard_rule_eval; auto. }
  eapply matched_iff; [|apply eval_chain_uniform].
  - setoid_rewrite list_elem_of_fmap. setoid_rewrite elem_of_sort_by. split.
    + intros (r&(g&->&Hg)&He). exists g. apply (matched_eq _ _ _ (Hm g Hg)) in He. tauto.
    + intros (g&Hg&Hs&Hi). exists (guard_rule g). split; [eauto|].
      by apply (matched_eq _ _ _ (Hm g Hg)).
  - intros r (g&->&Hg)%list_elem_of_fmap. rewrite elem_of_sort_by in Hg. eauto.
Qed.

(** ** The restore script *)
Lemma has_prefix_app p s : has_prefix p (p +:+ s) = true.
Proof.
  unfold has_prefix. induction p as [|c p IH]; [by destruct s|]. rewrite str_app_cons. simpl.
  by destruct (Ascii.ascii_dec c c).
Qed.
Lemma str_contains_app sub a b : str_contains sub (a +:+ sub +:+ b) = true.
Proof.
  induction a as [|c a IH].
  - rewrite str_app_nil_l. pose proof (has_prefix_app sub b) as H.
    destruct (sub +:+ b); cbn [str_contains]; by rewrite H.
  - rewrite str_app_cons. simpl. by rewrite IH, orb_true_r.
Qed.

Lemma str_free_join c sep l : str_free c sep → Forall (str_free c) l → str_free c (str_join sep l).
Proof.
  intros Hs. induction l as [|w l IH]; [done|]. intros [Hw Hl]%Forall_cons.
  destruct l as [|w' l]; [done|]. change (str_free c (w +:+ sep +:+ str_join sep (w' :: l))).
  rewrite !str_free_app. auto.
Qed.

(** What the script and the drift check need of a rule. *)
Definition good_rule (r : string) : Prop := str_free "010" r ∧ RuleIsOwned r = true.

Lemma owned_app a b r : r = a +:+ ("--comment " +:+ OwnerComment) +:+ b → RuleIsOwned r = true.
Proof. intros ->. unfold RuleIsOwned. by rewrite str_contains_app. Qed.

(** A rule given by its tokens before and after the owner comment. *)
Lemma good_tokens r l1 l2 :
  r = str_join " " (l1 ++ ["-m comment --comment " +:+ OwnerComment] ++ l2) →
  Forall (str_free "010") l1 → Forall (str_free "010") l2 →
  (∃ a b, r = a +:+ ("--comment " +:+ OwnerComment) +:+ b) → good_rule r.
Proof.
  intros -> H1 H2 (a&b&He). split; [|by eapply owned_app].
  apply str_free_join; [done|]. rewrite !Forall_app. split_and!; [done| |done]. by apply Forall_singleton.
Qed.

Lemma str_join_snoc l w r : l ≠ [] →
  str_join " " (l ++ w :: r) = str_join " " l +:+ " " +:+ str_join " " (w :: r).
Proof.
  induction l as [|x l IH]; [done|]. intros _. destruct l as [|y l]; [done|].
  change (str_join " " ((x :: y :: l) ++ w :: r)) with (x +:+ " " +:+ str_join " " ((y :: l) ++ w :: r)).
  rewrite IH by done. change (str_join " " (x :: y :: l)) with (x +:+ " " +:+ str_join " " (y :: l)).
  by rewrite !str_app_assoc.
Qed.

Lemma good_rule_tokens r l1 t l2 :
  r = str_join " " (l1 ++ ("-m comment --comment " +:+ OwnerComment) :: t :: l2) → l1 ≠ [] →
  Forall (str_free "010") (l1 ++ t :: l2) → good_rule r.
Proof.
  intros He Hne Hf. apply Forall_app in Hf as [H1 H2].
  apply (good_tokens r l1 (t :: l2)); [done..|].
  exists (str_join " " l1 +:+ " -m comment "), (" " +:+ str_join " " (t :: l2)).
  rewrite He, str_join_snoc by done.
  change (str_join " " (("-m comment --comment " +:+ OwnerComment) :: t :: l2)) with
    ("-m comment --comment " +:+ OwnerComment +:+ " " +:+ str_join " " (t :: l2)).
  rewrite <-!str_app_assoc. reflexivity.
Qed.

Ltac good_rule l1 t l2 :=
  apply (good_rule_tokens _ l1 t l2); [reflexivity|done|by repeat constructor].

Section good.
Context (c d i : string) (Hc : str_free "010" c) (Hd : str_free "010" d) (Hi : str_free "010" i).
Lemma forward_rule_good : good_rule (forward_rule c d i).
Proof. good_rule ["-s"; c; "-d"; d; "-o"; i] "-j" ["ACCEPT"]. Qed.
Lemma return_rule_good : good_rule (return_rule c d i).
Proof.
  good_rule ["-s"; d; "-d"; c; "-i"; i; "-m"; "conntrack"; "--ctstate"; "RELATED,ESTABLISHED"] "-j" ["ACCEPT"].
Qed.
Lemma nat_rule_good : good_rule (nat_rule c d i).
Proof. good_rule ["-s"; c; "-d"; d; "-o"; i] "-j" ["MASQUERADE"]. Qed.
Lemma mss_rule_good : good_rule (mss_rule c d i).
Proof.
  good_rule ["-s"; c; "-d"; d; "-o"; i; "-p"; "tcp"; "-m"; "tcp"; "--tcp-flags"; "SYN,RST"; "SYN"] "-j"
    ["TCPMSS"; "--clamp-mss-to-pmtu"].
Qed.
Lemma destination_drop_good : good_rule (destination_drop d i).
Proof. good_rule ["-d"; d; "-o"; i] "-j" ["DROP"]. Qed.
Lemma source_drop_good : good_rule (source_drop c).
Proof. good_rule ["-s"; c] "-j" ["DROP"]. Qed.
Lemma client_drop_good : good_rule (client_drop c).
Proof. good_rule ["-d"; c] "-j" ["DROP"]. Qed.
End good.

Lemma compiled_good p ch r : policy_ok p → ch ∈ Chains (compiled p) → r ∈ Rules ch → good_rule r.
Proof.
  intros Hp.
  assert (∀ c, c ∈ canon (ClientCIDRs p) → str_free "010" c) as Hcs.
  { intros c Hc. destruct (clients_canon p Hp) as [H _]. rewrite Forall_forall in H.
    apply canonical_free; auto. }
  assert (∀ t, t ∈ sort_by Interface (Tunnels p) → str_free "010" (Interface t) ∧
    ∀ d, d ∈ canon (Destinations t) → str_free "010" d) as Hts.
  { intros t Ht. destruct (tunnel_canon p Hp t Ht) as (Hin&_&H&_). split.
    - destruct Hp as [_ (Hall&_)]. rewrite Forall_forall in Hall. by apply validInterface_token, Hall.
    - intros d Hd. rewrite Forall_forall in H. apply canonical_free; auto. }
  assert (∀ f, (∀ c d i, str_free "010" c → str_free "010" d → str_free "010" i → good_rule (f c d i)) →
    r ∈ compiled_pairs f p → good_rule r) as Hpairs.
  { intros f Hf Hr. unfold compiled_pairs in Hr.
    rewrite elem_of_sort_strings, list_elem_of_bind in Hr. destruct Hr as (t&Hr&Ht).
    apply list_elem_of_fmap in Hr as ([c d]&->&Hcd). apply elem_of_pairs in Hcd as [Hc Hd].
    destruct (Hts t Ht). apply Hf; auto. }
  intros [->|[->|[->|[]%elem_of_nil]%elem_of_cons]%elem_of_cons]%elem_of_cons; cbn [Rules].
  2: apply Hpairs; auto using nat_rule_good.
  2: apply Hpairs; auto using mss_rule_good.
  unfold compiled_filter. rewrite !elem_of_app, !elem_of_sort_strings, !list_elem_of_bind.
  intros [(t&Hr&Ht)|[(c&Hr&Hc)|(t&Hr&Ht)]].
  - destruct (Hts t Ht). unfold accept_rules in Hr. apply list_elem_of_bind in Hr as ([c d]&Hr&Hcd).
    apply elem_of_pairs in Hcd as [Hc Hd].
    apply elem_of_cons in Hr as [->|[->|[]%elem_of_nil]%elem_of_cons];
      auto using forward_rule_good, return_rule_good.
  - apply elem_of_cons in Hr as [->|[->|[]%elem_of_nil]%elem_of_cons];
      auto using source_drop_good, client_drop_good.
  - destruct (Hts t Ht). apply list_elem_of_fmap in Hr as (d&->&Hd). auto using destination_drop_good.
Qed.

Lemma restore_lines_app st l1 l2 :
  restore_lines st (l1 ++ l2) =
  match restore_lines st l1 with Some st => restore_lines st l2 | None => None end.
Proof.
  revert st. induction l1 as [|l l1 IH]; intros st; [done|]. cbn [app restore_lines].
  by destruct (restore_line st l).
Qed.

Lemma restore_rules (ts : tables) t name rs0 rules :
  str_free " " name → ts !! (t, name) = Some rs0 →
  restore_lines (ts, Some t) ((λ rule, sprintf "-A %s %s" [name; rule]) <$> rules) =
  Some (<[(t, name) := rs0 ++ rules]> ts, Some t).
Proof.
  intros Hn. revert ts rs0. induction rules as [|r rules IH]; intros ts rs0 Hl; cbn [fmap list_fmap restore_lines].
  { by rewrite app_nil_r, insert_id. }
  change (sprintf "-A %s %s" [name; r]) with
    (String "-" (String "A" (String " " (name +:+ String " " (r +:+ ""))))).
  rewrite str_app_nil_r. cbn [restore_line]. rewrite index_byte_first by done.
  rewrite str_take_app, str_drop_S_app, Hl by done.
  rewrite IH with (rs0 := rs0 ++ [r]) by apply lookup_insert_eq.
  by rewrite insert_insert_eq, <-app_assoc.
Qed.

Lemma restore_chain (ts : tables) ch :
  str_free " " (Name ch) →
  restore_lines (ts, None) (chain_lines ch) = Some (<[(Table ch, Name ch) := Rules ch]> ts, None).
Proof.
  intros Hn. unfold chain_lines. rewrite restore_lines_app.
  assert (restore_lines (ts, None) [sprintf "*%s" [Table ch]; sprintf ":%s - [0:0]" [Name ch];
      sprintf "-F %s" [Name ch]] = Some (<[(Table ch, Name ch) := []]> ts, Some (Table ch))) as ->.
  { change (sprintf "*%s" [Table ch]) with (String "*" (Table ch +:+ "")).
    change (sprintf ":%s - [0:0]" [Name ch]) with (String ":" (Name ch +:+ String " " "- [0:0]")).
    change (sprintf "-F %s" [Name ch]) with (String "-" (String "F" (String " " (Name ch +:+ "")))).
    rewrite !str_app_nil_r. cbn [restore_lines restore_line]. rewrite str_split_first by done.
    cbn. by rewrite lookup_insert_eq, insert_insert_eq. }
  rewrite restore_lines_app. rewrite restore_rules with (rs0 := []) by (done || apply lookup_insert_eq).
  cbn. by rewrite insert_insert_eq.
Qed.

Lemma split_lines lines :
  Forall (str_free "010") lines →
  str_split "010" (foldr (λ line s, line +:+ nl +:+ s) "" lines) = lines ++ [""].
Proof.
  induction lines as [|l lines IH]; [done|]. intros [Hl Hf]%Forall_cons. cbn [foldr].
  unfold nl at 1. rewrite str_app_cons, str_app_nil_l, str_split_first by done. by rewrite IH.
Qed.

(** A script over chains with plain names and one-line rules sets exactly those chains. *)
Lemma restore_ruleset (ts : tables) rs :
  Forall (λ ch, str_free "010" (Table ch) ∧ str_free " " (Name ch) ∧ str_free "010" (Name ch) ∧
                Forall (str_free "010") (Rules ch)) (Chains rs) →
  restore ts (RestoreInput rs) =
  Some (foldl (λ ts ch, <[(Table ch, Name ch) := Rules ch]> ts) ts (Chains rs)).
Proof.
  intros Hall. unfold restore, RestoreInput. rewrite split_lines.
  - rewrite restore_lines_app. assert (∀ ts, restore_lines (ts, None) (Chains rs ≫= chain_lines) =
      Some (foldl (λ ts ch, <[(Table ch, Name ch) := Rules ch]> ts) ts (Chains rs), None)) as ->; [|done].
    induction Hall as [|ch l (_&Hn&_) Hl IH]; intros ts'; [done|]. cbn [mbind list_bind foldl].
    rewrite restore_lines_app, restore_chain by done. apply IH.
  - rewrite Forall_forall. intros line (ch&Hline&Hch)%list_elem_of_bind.
    rewrite Forall_forall in Hall. destruct (Hall ch Hch) as (Ht&_&Hn&Hr). rewrite Forall_forall in Hr.
    unfold chain_lines in Hline. rewrite !elem_of_app, list_elem_of_fmap, list_elem_of_singleton in Hline.
    destruct Hline as [Hline|[(r&->&Hin)| ->]]; [| |done].
    + apply elem_of_cons in Hline as [->|[->|[->|[]%elem_of_nil]%elem_of_cons]%elem_of_cons].
      * change (str_free "010" (String "*" (Table ch +:+ ""))). rewrite str_app_nil_r. by apply str_free_cons.
      * change (str_free "010" (String ":" (Name ch +:+ " - [0:0]"))). apply str_free_cons.
        split; [done|]. by apply str_free_app.
      * change (str_free "010" ("-F " +:+ (Name ch +:+ ""))). rewrite str_app_nil_r. by apply str_free_app.
    + change (str_free "010" ("-A " +:+ (Name ch +:+ " " +:+ (r +:+ "")))). rewrite str_app_nil_r.
      rewrite !str_free_app. split_and!; [done..|by apply Hr].
Qed.

(** ** Properties *)

(** [Compile] succeeds exactly on a policy whose CIDRs are IPv4 prefixes, whose
    interfaces are usable names, each once, and whose tunnels have pairwise
    disjoint destinations; it never panics on a prefix it printed itself. *)
Theorem Compile_accepts p :
  (is_ok (Compile p) = true ↔
   Forall ipv4_prefix (ClientCIDRs p) ∧
   Forall (λ t, validInterface (Interface t) = true ∧ Forall ipv4_prefix (Destinations t)) (Tunnels p) ∧
   NoDup (Interface <$> Tunnels p) ∧
   ∀ t1 t2 a, t1 ∈ Tunnels p → t2 ∈ Tunnels p → Interface t1 ≠ Interface t2 →
     covered (Destinations t1) a → covered (Destinations t2) a → False) ∧
  ∀ s, Compile p ≠ Err (Panicked s).
Proof.
  pose proof (Compile_spec p) as H. destruct (Compile p) as [rs|e].
  - destruct H as [H _]. done.
  - destruct H as [Hn He]. split; [|by intros s [= ->]; eapply He]. split; [done|]. intros H. by destruct Hn.
Qed.

(** C29: the compiled policy fails closed.  The forward chain accepts a packet
    exactly when it goes from a client to a destination of a tunnel out of that
    tunnel, or is an established reply the other way; every other packet of a
    client, to a client or to a destination out of its tunnel is dropped, and
    anything else is left to the rules after the chain.  NAT and MSS clamping
    apply to exactly the allowed packets. *)
Theorem Compile_fail_closed p rs :
  Compile p = Ok rs →
  ∃ filter nat mangle, Chains rs = [filter; nat; mangle] ∧
    (Table filter, Table nat, Table mangle) = ("filter", "nat", "mangle") ∧
    ∀ pkt,
      let allowed := ∃ t, t ∈ Tunnels p ∧ covered (ClientCIDRs p) (src pkt) ∧
                       covered (Destinations t) (dst pkt) ∧ iface_match (Interface t) (out_if pkt) = true in
      let reply := ∃ t, t ∈ Tunnels p ∧ covered (Destinations t) (src pkt) ∧
                     covered (ClientCIDRs p) (dst pkt) ∧ iface_match (Interface t) (in_if pkt) = true ∧
                     established pkt = true in
      let guarded := covered (ClientCIDRs p) (src pkt) ∨ covered (ClientCIDRs p) (dst pkt) ∨
                     ∃ t, t ∈ Tunnels p ∧ covered (Destinations t) (dst pkt) ∧
                       iface_match (Interface t) (out_if pkt) = true in
      (eval_chain pkt (Rules filter) = Some (Some ACCEPT) ↔ allowed ∨ reply) ∧
      (eval_chain pkt (Rules filter) = Some (Some DROP) ↔ guarded ∧ ¬ (allowed ∨ reply)) ∧
      (eval_chain pkt (Rules filter) = Some None ↔ ¬ guarded ∧ ¬ (allowed ∨ reply)) ∧
      (eval_chain pkt (Rules nat) = Some (Some MASQUERADE) ↔ allowed) ∧
      (eval_chain pkt (Rules mangle) = Some (Some TCPMSS) ↔ allowed ∧ tcp pkt = true ∧ syn pkt = true).
Proof.
  intros Hc. pose proof (Compile_spec p) as H. rewrite Hc in H. destruct H as [Hok ->].
  eexists _, _, _. split; [reflexivity|]. split; [done|]. intros pkt. cbv zeta. cbn [Rules].
  pose proof (filter_eval p Hok pkt) as Hf.
  pose proof (pair_rules_eval p Hok pkt nat_rule MASQUERADE True) as Hn.
  pose proof (pair_rules_eval p Hok pkt mss_rule TCPMSS (tcp pkt = true ∧ syn pkt = true)
    (mss_rule_eval pkt)) as Hm.
  specialize (Hn ltac:(intros; eapply matched_iff; [|by apply nat_rule_eval]; tauto)).
  apply matched_eq in Hn, Hm. split_and!.
  - destruct Hf as [[? ->]|[? [[? ->]|[? ->]]]]; (split; [done|]); by intros.
  - destruct Hf as [[? ->]|[? [[? ->]|[? ->]]]]; (split; [done|]); by intros [? ?].
  - destruct Hf as [[? ->]|[? [[? ->]|[? ->]]]]; (split; [done|]); by intros [? ?].
  - rewrite Hn. unfold allowed. tauto.
  - exact Hm.
Qed.

(** A policy of two clients and two tunnels. *)
Definition demo_policy : Policy :=
  {| ClientCIDRs := ["10.8.0.0/24"; "10.9.0.1/24"];
     Tunnels := [{| Interface := "wg1"; Destinations := ["203.0.113.0/24"] |};
                 {| Interface := "wg0"; Destinations := ["198.51.100.7/32"] |}] |}.
Definition demo_ruleset : Ruleset :=
  match Compile demo_policy with Ok rs => rs | Err _ => {| Chains := [] |} end.
Lemma demo_compiles : Compile demo_policy = Ok demo_ruleset.
Proof. vm_compute. reflexivity. Qed.

(** A packet of an unlisted flow between two clients. *)
Definition demo_packet : packet :=
  {| src := Addr4 (10 * 2 ^ 24 + 8 * 2 ^ 16 + 5); dst := Addr4 (8 * 2 ^ 24 + 8); in_if := "eth1";
     out_if := "eth0"; established := false; tcp := true; syn := true; fwmark := 0 |}.

Lemma Compile_fail_closed_witness :
  ∃ filter nat mangle, Chains demo_ruleset = [filter; nat; mangle] ∧
    eval_chain demo_packet (Rules filter) = Some (Some DROP).
Proof.
  destruct (Compile_fail_closed demo_policy demo_ruleset demo_compiles) as (f&n&m&Hc&_&H).
  exists f, n, m. split; [exact Hc|]. apply (proj1 (proj2 (H demo_packet))). split.
  - left. exists "10.8.0.0/24". split; [by left|]. eexists. split; vm_compute; reflexivity.
  - intros [(t&Ht&_&_&Hi)|(t&_&_&_&_&[=])].
    apply elem_of_cons in Ht as [->|[->|[]%elem_of_nil]%elem_of_cons]; vm_compute in Hi; done.
Defined.

(** Restoring a compiled policy replaces exactly the three owned chains by
    their rules, whatever the kernel held before, and every rule in them carries
    the owner comment that the drift check looks for. *)
Theorem Compile_restore (p : Policy) (rs : Ruleset) (ts : tables) :
  Compile p = Ok rs →
  restore ts (RestoreInput rs) =
    Some (foldl (λ ts ch, <[(Table ch, Name ch) := Rules ch]> ts) ts (Chains rs)) ∧
  (λ ch, (Table ch, Name ch)) <$> Chains rs =
    [("filter", FilterChain); ("nat", NATChain); ("mangle", MangleChain)] ∧
  ∀ ch r, ch ∈ Chains rs → r ∈ Rules ch → RuleIsOwned r = true.
Proof.
  intros Hc. pose proof (Compile_spec p) as H. rewrite Hc in H. destruct H as [Hok ->].
  pose proof (compiled_good p) as Hgood. split; [|split; [done|]].
  - apply restore_ruleset. rewrite Forall_forall. intros ch Hch.
    assert (Forall (str_free "010") (Rules ch)) as Hr.
    { rewrite Forall_forall. intros r Hr. by eapply Hgood. }
    apply elem_of_cons in Hch as [->|[->|[->|[]%elem_of_nil]%elem_of_cons]%elem_of_cons]; done.
  - intros ch r Hch Hr. by eapply Hgood.
Qed.

Lemma Compile_restore_witness :
  ∃ ts' : tables, restore {[ ("filter", "DOCKER") := ["-j RETURN"] ]} (RestoreInput demo_ruleset) = Some ts' ∧
    ts' !! ("filter", "DOCKER") = Some ["-j RETURN"].
Proof.
  destruct (Compile_restore demo_policy demo_ruleset {[ ("filter", "DOCKER") := ["-j RETURN"] ]}
    demo_compiles) as [H _].
  eexists. split; [exact H|]. vm_compute. reflexivity.
Defined.

(** C30: the egress guard.  It compiles exactly for distinct usable interfaces with
    marks inside their masks.  Loopback returns; any other packet is rejected
    exactly when it carries the mark of a tunnel and leaves through another
    interface.  With selectors as [ValidateAllocations] demands, a marked packet
    on its own tunnel is never rejected. *)
Theorem egress_guard guards :
  (is_ok (CompileEgressGuard guards) = true ↔
   Forall guard_ok guards ∧ NoDup (g_Interface <$> guards)) ∧
  ∀ chain pkt, CompileEgressGuard guards = Ok chain →
    Forall (λ g, is_u32 (Mark g) ∧ is_u32 (Mask g)) guards →
    (guards ≠ [] → out_if pkt = "lo" → eval_chain pkt (Rules chain) = Some (Some RETURN)) ∧
    (out_if pkt ≠ "lo" →
       (eval_chain pkt (Rules chain) = Some (Some REJECT) ↔
        ∃ g, g ∈ guards ∧ selects g pkt ∧ iface_match (g_Interface g) (out_if pkt) = false)) ∧
    ((∀ g1 g2, g1 ∈ guards → g2 ∈ guards → g1 ≠ g2 →
        Z.land (Mark g1) (Z.land (Mask g1) (Mask g2)) ≠ Z.land (Mark g2) (Z.land (Mask g1) (Mask g2))) →
     ∀ g, g ∈ guards → selects g pkt → iface_match (g_Interface g) (out_if pkt) = true →
       eval_chain pkt (Rules chain) ≠ Some (Some REJECT)).
Proof.
  pose proof (CompileEgressGuard_spec guards) as H. split.
  { destruct (CompileEgressGuard guards); [|done]. destruct H as (?&?&_). done. }
  intros chain pkt Hc Hu. rewrite Hc in H. destruct H as (Hok&_&_&_&_&Hr).
  pose proof (guards_eval pkt guards Hok Hu) as Hg.
  assert (eval_chain pkt (Rules chain) = Some (Some REJECT) → out_if pkt ≠ "lo" ∧
    ∃ g, g ∈ guards ∧ selects g pkt ∧ iface_match (g_Interface g) (out_if pkt) = false) as Hrej.
  { rewrite Hr. destruct guards as [|g0 gs]; [done|]. cbn [eval_chain].
    destruct (loopback_rule_eval pkt) as [[_ ->]|[? ->]]; [done|].
    intros He. split; [done|]. by apply (matched_eq _ _ _ Hg). }
  split_and!.
  - intros Hne Hlo. rewrite Hr. destruct guards; [done|]. cbn [eval_chain].
    by destruct (loopback_rule_eval pkt) as [[_ ->]|[? ->]].
  - intros Hlo. split; [by intros [_ ?]%Hrej|]. intros Hl. rewrite Hr.
    destruct guards as [|g0 gs]; [by destruct Hl as (?&?%elem_of_nil&_)|]. cbn [eval_chain].
    destruct (loopback_rule_eval pkt) as [[? _]|[_ ->]]; [done|]. by apply (matched_eq _ _ _ Hg).
  - intros Hdis g Hin Hsel Hif He. apply Hrej in He as (_&g'&Hin'&Hsel'&Hif').
    assert (g ≠ g') as Hne by congruence. by apply (selects_disjoint g g' pkt (Hdis g g' Hin Hin' Hne)).
Qed.

Lemma egress_guard_witness :
  let guards := [{| g_Interface := "wg1"; Mark := 2; Mask := u32_max |};
                 {| g_Interface := "wg0"; Mark := 1; Mask := 255 |}] in
  let pkt := {| src := Addr4 1; dst := Addr4 2; in_if := ""; out_if := "eth0"; established := false;
                tcp := true; syn := true; fwmark := 257 |} in
  ∃ chain, CompileEgressGuard guards = Ok chain ∧
    eval_chain pkt (Rules chain) = Some (Some REJECT).
Proof.
  intros guards pkt. eexists. split; [vm_compute; reflexivity|].
  apply (proj2 (egress_guard guards) _ pkt ltac:(vm_compute; reflexivity)).
  - repeat constructor; vm_compute; done.
  - done.
  - exists {| g_Interface := "wg0"; Mark := 1; Mask := 255 |}.
    split; [by right; left|]. split; vm_compute; reflexivity.
Defined.
