(* ===== verification/Health.v ===== *)
(** * internal/health: probe verdicts, group selection and the monitor

    [Probe] is probestate.go: per-tunnel hysteresis over active-probe results.
    [Monitor] is monitor.go: one snapshot of every device per poll, and for every
    group the member to use and the order in which to fail over.  [Prober] is
    probe.go: the bounded runner of probes, as a step relation over its
    semaphore and its goroutines.  The WireGuard client is an interface. *)
From S2P Require Import Prelude.

(** ** probestate.go *)
Module Probe.

Record ProbePolicy := { MaxAge : Z; FailAfter : Z; RecoverAfter : Z }.

Definition validate (p : ProbePolicy) : bool :=
  negb ((MaxAge p <=? 0)%Z || (FailAfter p <? 1)%Z || (RecoverAfter p <? 1)%Z).

Inductive ProbeVerdict := ProbeUnknown | ProbePassing | ProbeFailing | ProbeStale.
#[export] Instance ProbeVerdict_eq_dec : EqDecision ProbeVerdict.
Proof. solve_decision. Defined.

Definition Eligible (v : ProbeVerdict) : bool :=
  bool_decide (v = ProbeUnknown) || bool_decide (v = ProbePassing).

Record probeState := { lastAt : Z; passing : bool; failures : Z; successes : Z }.
Record probeTracker := { policy : ProbePolicy; byTunnel : gmap string probeState }.

Definition newProbeTracker (p : ProbePolicy) : probeTracker :=
  {| policy := p; byTunnel := ∅ |}.

Definition boolCount (value : bool) : Z := if value then 1 else 0.

(** What [record] does to the state of the tunnel. *)
Definition record_state (p : ProbePolicy) (state : option probeState) (success : bool) (at_ : Z) :
    probeState :=
  match state with
  | None => {| lastAt := at_; passing := success;
               failures := boolCount (negb success); successes := boolCount success |}
  | Some s =>
      let last := if (lastAt s <? at_)%Z then at_ else lastAt s in
      if success then
        let successes' := (successes s + 1)%Z in
        {| lastAt := last; failures := 0; successes := successes';
           passing := if (RecoverAfter p <=? successes')%Z then true else passing s |}
      else
        let failures' := (failures s + 1)%Z in
        {| lastAt := last; failures := failures'; successes := 0;
           passing := if (FailAfter p <=? failures')%Z then false else passing s |}
  end.

Definition record (t : probeTracker) (tunnel : string) (success : bool) (at_ : Z) : probeTracker :=
  {| policy := policy t;
     byTunnel := <[tunnel := record_state (policy t) (byTunnel t !! tunnel) success at_]>
                   (byTunnel t) |}.

Definition snapshot (t : probeTracker) (tunnels : list string) : gmap string probeState :=
  foldl (λ states tunnel,
    match byTunnel t !! tunnel with
    | Some state => <[tunnel := state]> states
    | None => states
    end) ∅ tunnels.

(** The keys of [states] are distinct, so the order of the map loop is immaterial. *)
Definition restore (t : probeTracker) (states : gmap string probeState) : probeTracker :=
  {| policy := policy t; byTunnel := byTunnel t ∪ states |}.

Definition verdict (t : option probeTracker) (tunnel : string) (now : Z) : ProbeVerdict :=
  match t with
  | None => ProbeUnknown
  | Some t =>
      match byTunnel t !! tunnel with
      | None => ProbeUnknown
      | Some state =>
          if (MaxAge (policy t) <? time_sub now (lastAt state))%Z then ProbeStale
          else if passing state then ProbePassing else ProbeFailing
      end
  end.

End Probe.
Import Probe.

(** ** monitor.go *)
Module Monitor.

(** The parts of a [wgtypes.Device] the monitor reads: its peers, each with the
    time of the last handshake and the transfer counters. *)
Record Peer := { LastHandshakeTime : Z; peer_Receive : Z; peer_Transmit : Z }.

(** [DeviceClient]: a query may fail and may change the state of the client. *)
Class DeviceClient (Cl : Type) := { Device : Cl → string → option (list Peer) * Cl }.

Record Member := { Tunnel : string; Mark : Z }.
Record Group := { g_Name : string; Members : list Member; HealthyAfter : Z }.
Record Config := { Interval : Z; Groups : list Group; Probe_ : option ProbePolicy }.

Inductive SessionSignal := SessionRecent | SessionIdleUnknown | SessionFailed.
#[export] Instance SessionSignal_eq_dec : EqDecision SessionSignal.
Proof. solve_decision. Defined.

Inductive Reason :=
| ReasonRecentHandshake
| ReasonRecentHandshakeProbePassing
| ReasonProbeFailingFailOpen
| ReasonNoRecentHandshakeFailOpen.

Inductive GroupHealth := Ready | Degraded.

(** [HandshakeAgeSec] is [HandshakeAge] as a float for JSON and is left out. *)
Record TunnelSnapshot := {
  ts_Tunnel : string; Signal : SessionSignal; HandshakeAge : Z;
  ReceiveBytes : Z; TransmitBytes : Z; ts_Error : string }.

Record GroupSnapshot := { gs_Name : string; ActiveMark : Z; State : GroupHealth; gs_Reason : Reason }.
Record Snapshot := { ObservedAt : Z; Tunnels : list TunnelSnapshot; gs_Groups : list GroupSnapshot }.

(** [active] is the 32-bit atomic, signed; [order] is the published slice. *)
Record groupState := { group : Group; active : Z; order : list Z }.

(** [byName] maps a name to the index of its group in [groups]. *)
Record Monitor := {
  groups : list groupState; byName : gmap string nat; interval : Z;
  probes : option probeTracker; last_snapshot : Snapshot }.

Inductive new_error := ClientRequired | IntervalNotPositive | InvalidProbePolicy | InvalidGroup.

Definition memberMarks (members : list Member) : list Z := Mark <$> members.

Definition chosenFirst (members : list Member) (chosen : nat) : list Z :=
  match members !! chosen with
  | Some m => Mark m :: (Mark <$> (take chosen members ++ drop (S chosen) members))
  | None => []
  end.

Definition empty_snapshot : Snapshot := {| ObservedAt := 0; Tunnels := []; gs_Groups := [] |}.

Definition new_group (m : Monitor) (g : Group) : result new_error Monitor :=
  match Members g with
  | first :: _ =>
      if bool_decide (g_Name g = "") || (HealthyAfter g <=? 0)%Z then Err InvalidGroup
      else Ok {| groups := groups m ++
                   [{| group := g; active := to_int32 (Mark first);
                       order := memberMarks (Members g) |}];
                 byName := <[g_Name g := length (groups m)]> (byName m);
                 interval := interval m; probes := probes m;
                 last_snapshot := last_snapshot m |}
  | [] => Err InvalidGroup
  end.

Definition empty_monitor (interval : Z) (probes : option probeTracker) : Monitor :=
  {| groups := []; byName := ∅; interval := interval; probes := probes;
     last_snapshot := empty_snapshot |}.

(** [client_nil] says that the client is nil. *)
Definition New (client_nil : bool) (cfg : Config) : result new_error Monitor :=
  if client_nil then Err ClientRequired
  else if (Interval cfg <=? 0)%Z then Err IntervalNotPositive
  else
    match Probe_ cfg with
    | Some p => if validate p
                then foldM new_group (empty_monitor (Interval cfg) (Some (newProbeTracker p)))
                       (Groups cfg)
                else Err InvalidProbePolicy
    | None => foldM new_group (empty_monitor (Interval cfg) None) (Groups cfg)
    end.

Definition find_group (m : option Monitor) (name : string) : option groupState :=
  match m with
  | None => None
  | Some m => match byName m !! name with Some i => groups m !! i | None => None end
  end.
(** The values behind the pointers that [Active] and [Order] return. *)
Definition Active (m : option Monitor) (name : string) : option Z := active <$> find_group m name.
Definition Order (m : option Monitor) (name : string) : option (list Z) :=
  order <$> find_group m name.

Definition with_probes (m : Monitor) (t : option probeTracker) : Monitor :=
  {| groups := groups m; byName := byName m; interval := interval m;
     probes := t; last_snapshot := last_snapshot m |}.

Definition ObserveProbe (m : option Monitor) (tunnel : string) (success : bool) (at_ : Z) :
    option Monitor :=
  match m with
  | None => None
  | Some m => match probes m with
              | None => Some m
              | Some t => Some (with_probes m (Some (record t tunnel success at_)))
              end
  end.

Definition InheritProbes (m prev : option Monitor) (tunnels : list string) : option Monitor :=
  match m, prev with
  | Some m, Some prev =>
      match probes m, probes prev with
      | Some t, Some t' => Some (with_probes m (Some (restore t (snapshot t' tunnels))))
      | _, _ => Some m
      end
  | _, _ => m
  end.

(** *** selectMember *)

(** The loop: the index of the first member with a recent handshake, the
    eligible marks and the verdict of the first of them. *)
Definition select_step (m : option probeTracker) (byTunnel : gmap string TunnelSnapshot) (now : Z)
    (st : option nat * list Z * option ProbeVerdict) (im : nat * Member) :=
  let '(firstRecent, eligible, v0) := st in
  let '(i, member) := im in
  match byTunnel !! Tunnel member with
  | Some ts =>
      if bool_decide (Signal ts = SessionRecent) then
        let firstRecent := match firstRecent with None => Some i | _ => firstRecent end in
        let v := verdict m (Tunnel member) now in
        if Eligible v then
          (firstRecent, eligible ++ [Mark member], match eligible with [] => Some v | _ => v0 end)
        else (firstRecent, eligible, v0)
      else st
  | None => st
  end.

Definition selectMember (m : option probeTracker) (members : list Member)
    (byTunnel : gmap string TunnelSnapshot) (now : Z) : Z * GroupHealth * Reason * list Z :=
  let '(firstRecent, eligible, v) :=
    foldl (select_step m byTunnel now) (None, [], None) (zip (seq 0 (length members)) members) in
  match eligible, firstRecent with
  | e :: _, _ =>
      (e, Ready, if bool_decide (v = Some ProbePassing) then ReasonRecentHandshakeProbePassing
                 else ReasonRecentHandshake, eligible)
  | [], Some i =>
      (default 0%Z (Mark <$> members !! i), Degraded, ReasonProbeFailingFailOpen,
       chosenFirst members i)
  | [], None =>
      (default 0%Z (Mark <$> members !! 0), Degraded, ReasonNoRecentHandshakeFailOpen,
       memberMarks members)
  end.

(** *** Poll *)
Definition thresholds (gs : list groupState) : gmap string Z :=
  foldl (λ th state,
    foldl (λ th member,
      let current := default 0%Z (th !! Tunnel member) in
      if (current =? 0)%Z || (HealthyAfter (group state) <? current)%Z
      then <[Tunnel member := HealthyAfter (group state)]> th else th)
      th (Members (group state))) ∅ gs.

(** The [switch] on one device query. *)
Definition tunnel_state (name : string) (device : option (list Peer)) (now threshold : Z) :
    TunnelSnapshot :=
  match device with
  | None => {| ts_Tunnel := name; Signal := SessionFailed; HandshakeAge := 0;
               ReceiveBytes := 0; TransmitBytes := 0; ts_Error := "device query failed" |}
  | Some [] => {| ts_Tunnel := name; Signal := SessionFailed; HandshakeAge := 0;
                  ReceiveBytes := 0; TransmitBytes := 0; ts_Error := "peer missing" |}
  | Some (peer :: _) =>
      if (LastHandshakeTime peer =? 0)%Z then
        {| ts_Tunnel := name; Signal := SessionIdleUnknown; HandshakeAge := 0;
           ReceiveBytes := peer_Receive peer; TransmitBytes := peer_Transmit peer; ts_Error := "" |}
      else
        let age := (time_sub now (LastHandshakeTime peer) `max` 0)%Z in
        {| ts_Tunnel := name;
           Signal := if (age <? threshold)%Z then SessionRecent else SessionIdleUnknown;
           HandshakeAge := age; ReceiveBytes := peer_Receive peer;
           TransmitBytes := peer_Transmit peer; ts_Error := "" |}
  end.

Definition poll_names (gs : list groupState) : list string := sorted_set (dom (thresholds gs)).

Fixpoint poll_devices `{DeviceClient Cl} (th : gmap string Z) (now : Z) (cl : Cl)
    (names : list string) : gmap string TunnelSnapshot * Cl :=
  match names with
  | [] => (∅, cl)
  | name :: names =>
      let '(device, cl) := Device cl name in
      let '(byTunnel, cl) := poll_devices th now cl names in
      (<[name := tunnel_state name device now (default 0%Z (th !! name))]> byTunnel, cl)
  end.

Definition poll_group (m : option probeTracker) (byTunnel : gmap string TunnelSnapshot) (now : Z)
    (state : groupState) : groupState * GroupSnapshot :=
  let '(chosen, health, reason, order) := selectMember m (Members (group state)) byTunnel now in
  ({| group := group state; active := to_int32 chosen; order := order |},
   {| gs_Name := g_Name (group state); ActiveMark := chosen; State := health; gs_Reason := reason |}).

(** One poll at time [now]; the snapshot is stored and handed to [observe]. *)
Definition Poll `{DeviceClient Cl} (m : Monitor) (cl : Cl) (now : Z) : Monitor * Cl :=
  let names := poll_names (groups m) in
  let '(byTunnel, cl) := poll_devices (thresholds (groups m)) now cl names in
  let polled := poll_group (probes m) byTunnel now <$> groups m in
  ({| groups := polled.*1; byName := byName m; interval := interval m; probes := probes m;
      last_snapshot :=
        {| ObservedAt := now; Tunnels := omap (λ n, byTunnel !! n) names;
           gs_Groups := polled.*2 |} |}, cl).

(** [Snapshot] copies the stored value. *)
Definition Snapshot_ (m : option Monitor) : Snapshot :=
  match m with None => empty_snapshot | Some m => last_snapshot m end.

End Monitor.
Import Monitor.

(** ** probe.go *)
Module Prober.

(** The goroutines that [Try] starts, by where they are: before [inFly.Add(1)],
    inside the probe, after storing the result, and between the two deferred
    releases.  [sem] counts the tokens in the channel. *)
Record ProbeResult := { At : Z; Success : bool }.
Record ProberState := {
  Timeout : Z; MaxConcurrent : Z; has_probe : bool;
  sem : nat; inFly : Z;
  starting : nat; probing : nat; stored : nat; releasing : nat;
  last : option ProbeResult }.

Definition NewProber (timeout maxConcurrent : Z) (has_probe : bool) : ProberState :=
  {| Timeout := timeout; MaxConcurrent := if (maxConcurrent <? 1)%Z then 1 else maxConcurrent;
     has_probe := has_probe; sem := 0; inFly := 0;
     starting := 0; probing := 0; stored := 0; releasing := 0; last := None |}.

(** [Try]: whether a probe was started. *)
Definition Try (p : ProberState) : bool * ProberState :=
  if negb (has_probe p) || (Timeout p <=? 0)%Z then (false, p)
  else if (Z.of_nat (sem p) <? MaxConcurrent p)%Z then
    (true, {| Timeout := Timeout p; MaxConcurrent := MaxConcurrent p; has_probe := has_probe p;
              sem := S (sem p); inFly := inFly p; starting := S (starting p);
              probing := probing p; stored := stored p; releasing := releasing p; last := last p |})
  else (false, p).

Definition set_phases (p : ProberState) (sem : nat) (inFly : Z) (a b c d : nat)
    (last : option ProbeResult) : ProberState :=
  {| Timeout := Timeout p; MaxConcurrent := MaxConcurrent p; has_probe := has_probe p;
     sem := sem; inFly := inFly; starting := a; probing := b; stored := c; releasing := d;
     last := last |}.

(** The interleavings of [Try] with the steps of the goroutines. *)
Inductive step (p : ProberState) : ProberState → Prop :=
| StepTry : step p (Try p).2
| StepStart a : starting p = S a →
    step p (set_phases p (sem p) (inFly p + 1) a (S (probing p)) (stored p) (releasing p) (last p))
| StepStore b r : probing p = S b →
    step p (set_phases p (sem p) (inFly p) (starting p) b (S (stored p)) (releasing p) (Some r))
| StepInFly c : stored p = S c →
    step p (set_phases p (sem p) (inFly p - 1) (starting p) (probing p) c (S (releasing p)) (last p))
| StepRelease d : releasing p = S d →
    step p (set_phases p (pred (sem p)) (inFly p) (starting p) (probing p) (stored p) d (last p)).

End Prober.
Import Prober.

(** ** Probe histories

    Results of one tunnel, newest first, each with its time. *)
Fixpoint state_of (p : ProbePolicy) (h : list (bool * Z)) : option probeState :=
  match h with
  | [] => None
  | (success, at_) :: h => Some (record_state p (state_of p h) success at_)
  end.

(** The length of the newest run of equal results. *)
Fixpoint run (b : bool) (l : list bool) : nat :=
  match l with [] => 0 | r :: l => if bool_decide (r = b) then S (run b l) else 0 end.

Definition has_run (n : nat) (b : bool) (l : list bool) : Prop :=
  ∃ l1 l2, l = l1 ++ replicate n b ++ l2.

(** The declarative verdict: the tunnel is vouched for by its first result or by
    [R] successes in a row, and since then there were never [F] failures in a row. *)
Definition vouched (F R : nat) (l : list bool) : Prop :=
  ∃ recent older, l = recent ++ older ∧ ¬ has_run F false recent ∧
    (older = [true] ∨ ∃ rest, older = replicate R true ++ rest).

Fixpoint latest (h : list (bool * Z)) : Z :=
  match h with [] => 0 | [r] => r.2 | r :: h => (latest h `max` r.2)%Z end.

Lemma run_replicate b l : ∃ l', l = replicate (run b l) b ++ l'.
Proof.
  induction l as [|r l [l' IH]]; simpl; [by exists []|].
  case_bool_decide as Hr; [|by exists (r :: l)]. exists l'. simpl. subst r. by rewrite <-IH.
Qed.

Lemma run_replicate_ge n b l : n ≤ run b l ↔ ∃ l', l = replicate n b ++ l'.
Proof.
  split.
  - intros Hn. destruct (run_replicate b l) as [l' Hl].
    exists (replicate (run b l - n) b ++ l'). rewrite app_assoc, <-replicate_add.
    by replace (n + (run b l - n)) with (run b l) by lia.
  - intros [l' ->]. induction n as [|n IH]; simpl; [lia|]. rewrite bool_decide_true by done. lia.
Qed.

Lemma run_app b l1 l2 : run b l1 ≤ run b (l1 ++ l2).
Proof. induction l1 as [|r l1 IH]; simpl; [lia|]. case_bool_decide; lia. Qed.

Lemma has_run_cons_ne n b r l : r ≠ b → 0 < n → has_run n b (r :: l) ↔ has_run n b l.
Proof.
  intros Hr Hn. destruct n as [|n]; [lia|]. split.
  - intros ([|x l1]&l2&Heq); simplify_eq/=. by exists l1, l2.
  - intros (l1&l2&->). by exists (r :: l1), l2.
Qed.

Lemma has_run_cons n b l :
  has_run n b (b :: l) ↔ n ≤ S (run b l) ∨ has_run n b l.
Proof.
  split.
  - intros ([|x l1]&l2&Heq).
    + left. assert (n ≤ run b (b :: l)) as Hn by (apply run_replicate_ge; by exists l2).
      simpl in Hn. by rewrite bool_decide_true in Hn.
    + right. simplify_eq/=. by exists l1, l2.
  - intros [Hn|(l1&l2&->)].
    + assert (n ≤ run b (b :: l)) as [l' Hl]%run_replicate_ge
        by (simpl; by rewrite bool_decide_true). by exists [], l'.
    + by exists (b :: l1), l2.
Qed.

Lemma run_app_ne b l1 r l2 : r ≠ b → run b (l1 ++ r :: l2) = run b l1.
Proof.
  intros Hr. induction l1 as [|x l1 IH]; simpl; [by rewrite bool_decide_false|].
  by rewrite IH.
Qed.

Lemma has_run_nil n b : 0 < n → ¬ has_run n b [].
Proof. intros Hn (l1&l2&Heq). destruct n; [lia|]. by destruct l1. Qed.

Lemma vouched_true F R l :
  0 < F → l ≠ [] → vouched F R (true :: l) ↔ R ≤ S (run true l) ∨ vouched F R l.
Proof.
  intros HF Hl. split.
  - intros ([|x rec]&older&Heq&Hn&Ho); simplify_eq/=.
    + left. destruct Ho as [Ho|[rest Ho]]; [by simplify_eq|].
      assert (R ≤ run true (true :: l)) as HR by (apply run_replicate_ge; by exists rest).
      exact HR.
    + right. exists rec, older. rewrite has_run_cons_ne in Hn by done. done.
  - intros [HR|(rec&older&->&Hn&Ho)].
    + exists [], (true :: l). split_and!; [done|by apply has_run_nil|].
      right. apply run_replicate_ge. exact HR.
    + exists (true :: rec), older. split_and!; [done| |done]. by rewrite has_run_cons_ne.
Qed.

Lemma vouched_false F R l :
  0 < F → 0 < R → vouched F R (false :: l) ↔ ¬ F ≤ S (run false l) ∧ vouched F R l.
Proof.
  intros HF HR. split.
  - intros ([|x rec]&older&Heq&Hn&Ho); simplify_eq/=.
    { destruct Ho as [Ho|[rest Ho]]; [done|]. by destruct R; [lia|]. }
    rewrite has_run_cons in Hn.
    assert (run false (rec ++ older) = run false rec) as ->.
    { destruct Ho as [->|[rest ->]]; [by apply run_app_ne|]. destruct R; [lia|].
      by apply run_app_ne. }
    split; [tauto|]. exists rec, older. tauto.
  - intros (HF'&rec&older&->&Hn&Ho). exists (false :: rec), older.
    split_and!; [done| |done]. rewrite has_run_cons. intros [?|?]; [|done].
    pose proof (run_app false rec older). lia.
Qed.

(** The counters are the newest runs, and [passing] is the declarative verdict. *)
Lemma state_of_spec p h :
  validate p = true → h ≠ [] →
  ∃ s, state_of p h = Some s ∧
    successes s = Z.of_nat (run true h.*1) ∧ failures s = Z.of_nat (run false h.*1) ∧
    lastAt s = latest h ∧
    (passing s = true ↔ vouched (Z.to_nat (FailAfter p)) (Z.to_nat (RecoverAfter p)) h.*1).
Proof.
  unfold validate. intros Hv.
  assert (1 ≤ FailAfter p ∧ 1 ≤ RecoverAfter p)%Z as [HF HR] by lia. clear Hv.
  set (F := Z.to_nat (FailAfter p)). set (R := Z.to_nat (RecoverAfter p)).
  assert (Z.of_nat F = FailAfter p ∧ Z.of_nat R = RecoverAfter p) as [HFz HRz] by lia.
  clearbody F R.
  induction h as [|[r t] h IH]; [done|]. intros _. cbn [state_of].
  destruct (decide (h = [])) as [->|Hh].
  { eexists. split; [done|]. simpl.
    destruct r; simpl; (split_and!; [done..|]); split; try done.
    - intros _. exists [], [true]. split_and!; [done|apply has_run_nil; lia|by left].
    - intros [_ (rec&older&Heq&_&Ho)]%vouched_false; [|lia..]. destruct rec; simplify_eq/=.
      destruct Ho as [?|[rest Ho]]; [done|]. destruct R; [lia|done]. }
  destruct (IH Hh) as (s&Hs&Hsu&Hfa&Hla&Hpa). rewrite Hs. eexists. split; [done|].
  assert (h.*1 ≠ []) as Hne by (destruct h; done).
  assert (latest ((r, t) :: h) = latest h `max` t)%Z as -> by (destruct h; done).
  assert ((if (lastAt s <? t)%Z then t else lastAt s) = latest h `max` t)%Z as Hlast.
  { rewrite Hla. destruct (Z.ltb_spec (latest h) t); lia. }
  destruct r; csimpl; rewrite Hlast, ?Hsu, ?Hfa; (split_and!; [lia..|done|]).
  - rewrite vouched_true by (done || lia).
    destruct (Z.leb_spec (RecoverAfter p) (Z.of_nat (run true h.*1) + 1)) as [HRr|HRr].
    + split; [intros _; left; lia|done].
    + rewrite Hpa. split; [by right|]. intros [?|?]; [lia|done].
  - rewrite vouched_false by lia.
    destruct (Z.leb_spec (FailAfter p) (Z.of_nat (run false h.*1) + 1)) as [HFr|HFr].
    + split; [done|]. intros [Hn _]. destruct Hn. lia.
    + rewrite Hpa. split; [|tauto]. split; [lia|done].
Qed.

(** *** The tracker *)
Record probe_event := { ev_tunnel : string; ev_success : bool; ev_at : Z }.

(** Events in the order they are recorded. *)
Definition record_all (t : probeTracker) (evs : list probe_event) : probeTracker :=
  foldl (λ t e, record t (ev_tunnel e) (ev_success e) (ev_at e)) t evs.

(** The results of one tunnel, newest first. *)
Definition history (tunnel : string) (evs : list probe_event) : list (bool * Z) :=
  (λ e, (ev_success e, ev_at e)) <$> filter (λ e, ev_tunnel e = tunnel) (reverse evs).

Lemma record_all_lookup p evs tunnel :
  policy (record_all (newProbeTracker p) evs) = p ∧
  byTunnel (record_all (newProbeTracker p) evs) !! tunnel = state_of p (history tunnel evs).
Proof.
  unfold record_all, history. induction evs as [|e evs IH] using rev_ind; [done|].
  rewrite foldl_snoc, reverse_snoc. destruct IH as [Hp IH]. simpl. rewrite Hp.
  split; [done|]. rewrite filter_cons.
  destruct (decide (ev_tunnel e = tunnel)) as [<-|Hne].
  - rewrite lookup_insert_eq, IH. done.
  - rewrite lookup_insert_ne by done. exact IH.
Qed.

Lemma elem_of_snapshot t tunnels tunnel :
  snapshot t tunnels !! tunnel =
  if decide (tunnel ∈ tunnels) then byTunnel t !! tunnel else None.
Proof.
  unfold snapshot. induction tunnels as [|x l IH] using rev_ind; [done|].
  rewrite foldl_snoc. destruct (decide (x = tunnel)) as [->|Hne].
  - rewrite decide_True by set_solver. destruct (byTunnel t !! tunnel) eqn:E.
    + by rewrite lookup_insert_eq.
    + rewrite IH. by case_decide.
  - assert (tunnel ∈ l ++ [x] ↔ tunnel ∈ l) as Hin by set_solver.
    rewrite (decide_ext _ _ _ _ Hin).
    by destruct (byTunnel t !! x); rewrite ?lookup_insert_ne by done.
Qed.

(** ** selectMember *)
Section select.
Context (m : option probeTracker) (tunnels : gmap string TunnelSnapshot) (now : Z).

Definition recent (mem : Member) : bool :=
  match tunnels !! Tunnel mem with
  | Some ts => bool_decide (Signal ts = SessionRecent)
  | None => false
  end.
Definition eligible (mem : Member) : bool :=
  recent mem && Eligible (verdict m (Tunnel mem) now).

Fixpoint first_recent (i : nat) (members : list Member) : option nat :=
  match members with
  | [] => None
  | x :: l => if recent x then Some i else first_recent (S i) l
  end.
Fixpoint first_verdict (members : list Member) : option ProbeVerdict :=
  match members with
  | [] => None
  | x :: l => if eligible x then Some (verdict m (Tunnel x) now) else first_verdict l
  end.
Definition eligible_marks (members : list Member) : list Z :=
  Mark <$> filter (λ x, eligible x = true) members.

Lemma select_step_alt fr el v i x :
  select_step m tunnels now (fr, el, v) (i, x) =
  (if recent x then match fr with None => Some i | _ => fr end else fr,
   if eligible x then el ++ [Mark x] else el,
   if eligible x then match el with [] => Some (verdict m (Tunnel x) now) | _ => v end else v).
Proof.
  unfold select_step, eligible, recent. destruct (tunnels !! Tunnel x); [|done].
  case_bool_decide; simpl; [|done]. by destruct (Eligible _).
Qed.

(** The loop collects the eligible marks, remembers the first recent index and
    the verdict of the first eligible member. *)
Lemma select_loop members i fr el v :
  foldl (select_step m tunnels now) (fr, el, v) (zip (seq i (length members)) members) =
  (match fr with Some _ => fr | None => first_recent i members end,
   el ++ eligible_marks members,
   match el, first_verdict members with [], Some w => Some w | _, _ => v end).
Proof.
  unfold eligible_marks. revert i fr el v.
  induction members as [|x l IH]; intros i fr el v; cbn [length seq zip zip_with foldl].
  { simpl. destruct fr, el; simpl; by rewrite ?app_nil_r. }
  rewrite select_step_alt, IH, filter_cons. cbn [first_recent first_verdict]. clear IH.
  assert (eligible x = true → recent x = true) as Hre by (by unfold eligible; intros [??]%andb_true_iff).
  destruct (eligible x).
  - rewrite Hre by done. rewrite decide_True by done. csimpl. rewrite <-app_assoc.
    destruct fr, el; done.
  - rewrite decide_False by done. destruct (recent x), fr, el; done.
Qed.

Lemma first_recent_spec i members :
  match first_recent i members with
  | None => Forall (λ x, recent x = false) members
  | Some j => ∃ pre x post, members = pre ++ x :: post ∧ j = i + length pre ∧
      Forall (λ x, recent x = false) pre ∧ recent x = true
  end.
Proof.
  revert i. induction members as [|x l IH]; intros i; simpl; [constructor|].
  destruct (recent x) eqn:Er.
  - exists [], x, l. split_and!; [done|simpl; lia|constructor|done].
  - specialize (IH (S i)). destruct (first_recent (S i) l) as [j|].
    + destruct IH as (pre&y&post&->&->&Hpre&Hy). exists (x :: pre), y, post.
      split_and!; [done|simpl; lia|by constructor|done].
    + by constructor.
Qed.

Lemma eligible_marks_spec members :
  match eligible_marks members with
  | [] => Forall (λ x, eligible x = false) members ∧ first_verdict members = None
  | e :: _ => ∃ pre x post, members = pre ++ x :: post ∧ e = Mark x ∧
      Forall (λ x, eligible x = false) pre ∧ eligible x = true ∧
      first_verdict members = Some (verdict m (Tunnel x) now)
  end.
Proof.
  unfold eligible_marks. induction members as [|x l IH]; [done|].
  rewrite filter_cons. cbn [first_verdict]. destruct (eligible x) eqn:Er.
  - rewrite decide_True by done. csimpl. exists [], x, l. split_and!; [done..|constructor|done|done].
  - rewrite decide_False by done. destruct (Mark <$> filter _ l) as [|e es].
    + destruct IH. by split; [constructor|].
    + destruct IH as (pre&y&post&->&->&Hpre&Hy&Hv). exists (x :: pre), y, post.
      split_and!; [done..|by constructor|done|done].
Qed.

Lemma chosenFirst_app pre x post :
  chosenFirst (pre ++ x :: post) (length pre) = Mark x :: (Mark <$> (pre ++ post)).
Proof.
  unfold chosenFirst. rewrite list_lookup_middle by done. do 2 f_equal.
  rewrite take_app_length, cons_middle, app_assoc, drop_app_length'; [done|].
  rewrite length_app. simpl. lia.
Qed.

(** The three ways [selectMember] chooses. *)
Lemma selectMember_cases members :
  members ≠ [] →
  let '(chosen, health, reason, order) := selectMember m members tunnels now in
  (∃ pre x post, members = pre ++ x :: post ∧
     Forall (λ x, eligible x = false) pre ∧ eligible x = true ∧
     chosen = Mark x ∧ health = Ready ∧ order = eligible_marks members ∧
     (∃ es, eligible_marks members = Mark x :: es) ∧
     reason = if bool_decide (verdict m (Tunnel x) now = ProbePassing)
              then ReasonRecentHandshakeProbePassing else ReasonRecentHandshake) ∨
  (Forall (λ x, eligible x = false) members ∧
   ∃ pre x post, members = pre ++ x :: post ∧
     Forall (λ x, recent x = false) pre ∧ recent x = true ∧
     chosen = Mark x ∧ health = Degraded ∧ reason = ReasonProbeFailingFailOpen ∧
     order = Mark x :: (Mark <$> (pre ++ post))) ∨
  (Forall (λ x, recent x = false) members ∧
   ∃ x rest, members = x :: rest ∧ chosen = Mark x ∧ health = Degraded ∧
     reason = ReasonNoRecentHandshakeFailOpen ∧ order = Mark <$> members).
Proof.
  intros Hne. unfold selectMember. rewrite select_loop. rewrite app_nil_l.
  pose proof (eligible_marks_spec members) as He.
  pose proof (first_recent_spec 0 members) as Hr.
  destruct (eligible_marks members) as [|e es] eqn:Eel.
  - destruct He as [He _]. destruct (first_recent 0 members) as [j|].
    + right; left. destruct Hr as (pre&x&post&Hm&->&Hpre&Hx). split; [done|].
      exists pre, x, post. subst members. rewrite list_lookup_middle by done.
      rewrite chosenFirst_app. split_and!; done.
    + right; right. split; [done|]. destruct members as [|x l]; [done|]. by exists x, l.
  - left. destruct He as (pre&x&post&Hm&->&Hpre&Hx&->). exists pre, x, post.
    split_and!; try done; [by exists es|].
    by destruct (verdict m (Tunnel x) now).
Qed.
End select.

(** ** Poll *)

(** [t] is a member of a group with that threshold. *)
Definition member_threshold (gs : list groupState) (t : string) (th : Z) : Prop :=
  ∃ g mem, g ∈ gs ∧ mem ∈ Members (group g) ∧ Tunnel mem = t ∧ HealthyAfter (group g) = th.

Definition is_threshold (gs : list groupState) (t : string) (o : option Z) : Prop :=
  match o with
  | None => ∀ th, ¬ member_threshold gs t th
  | Some th => member_threshold gs t th ∧ ∀ th', member_threshold gs t th' → (th ≤ th')%Z
  end.

(** The pairs of a tunnel and a threshold in the order the two loops visit them. *)
Definition threshold_pairs (gs : list groupState) : list (string * Z) :=
  gs ≫= λ g, (λ mem, (Tunnel mem, HealthyAfter (group g))) <$> Members (group g).

Definition lower (th : gmap string Z) (p : string * Z) : gmap string Z :=
  let current := default 0%Z (th !! p.1) in
  if (current =? 0)%Z || (p.2 <? current)%Z then <[p.1 := p.2]> th else th.

Lemma thresholds_pairs gs : thresholds gs = foldl lower ∅ (threshold_pairs gs).
Proof.
  unfold thresholds, threshold_pairs. generalize (∅ : gmap string Z) as th0.
  induction gs as [|g gs IH]; intros th0; csimpl; [done|].
  rewrite foldl_app, IH. f_equal. generalize (Members (group g)) as l. intros l. revert th0.
  induction l as [|x l IHl]; intros th0; csimpl; [done|]. apply IHl.
Qed.

Lemma elem_of_threshold_pairs gs t th :
  (t, th) ∈ threshold_pairs gs ↔ member_threshold gs t th.
Proof.
  unfold threshold_pairs, member_threshold. rewrite list_elem_of_bind.
  setoid_rewrite list_elem_of_fmap. naive_solver.
Qed.

(** [lower] keeps the minimum of the positive thresholds seen so far. *)
Lemma foldl_lower ps t :
  Forall (λ p, 0 < p.2)%Z ps →
  match foldl lower ∅ ps !! t with
  | None => ∀ th, (t, th) ∉ ps
  | Some th => (t, th) ∈ ps ∧ ∀ th', (t, th') ∈ ps → (th ≤ th')%Z
  end.
Proof.
  induction ps as [|[u x] ps IH] using rev_ind; intros Hpos.
  { simpl. rewrite lookup_empty. intros th. by intros ?%elem_of_nil. }
  apply Forall_app in Hpos as [Hpos Hx]. rewrite Forall_singleton in Hx. simpl in Hx.
  specialize (IH Hpos). rewrite foldl_snoc.
  set (th0 := foldl lower ∅ ps) in *. unfold lower. cbn [fst snd].
  assert (∀ th, th0 !! t = Some th → (0 < th)%Z) as Hth.
  { intros th Hl. rewrite Hl in IH. destruct IH as [Hin _].
    rewrite Forall_forall in Hpos. by apply (Hpos (t, th)). }
  assert (∀ th, (t, th) ∈ ps ++ [(u, x)] ↔ (t, th) ∈ ps ∨ (t, th) = (u, x)) as Hsnoc.
  { intros th. by rewrite elem_of_app, list_elem_of_singleton. }
  destruct (decide (u = t)) as [->|Hne].
  - destruct (th0 !! t) as [th|] eqn:El.
    + specialize (Hth th eq_refl). destruct IH as [Hin Hmin].
      change (default 0%Z (Some th)) with th.
      rewrite (proj2 (Z.eqb_neq th 0)) by lia. rewrite orb_false_l.
      destruct (Z.ltb_spec x th); [rewrite lookup_insert_eq|rewrite El];
        setoid_rewrite Hsnoc.
      * split; [by right|]. intros th' [Ht|[= ->]]; [specialize (Hmin _ Ht); lia|lia].
      * split; [by left|]. intros th' [Ht|[= ->]]; [by apply Hmin|lia].
    + simpl. rewrite lookup_insert_eq. setoid_rewrite Hsnoc. split; [by right|].
      intros th' [Ht|[= ->]]; [by destruct (IH th')|lia].
  - assert ((if (default 0%Z (th0 !! u) =? 0)%Z || (x <? default 0%Z (th0 !! u))%Z
             then <[u:=x]> th0 else th0) !! t = th0 !! t) as ->.
    { destruct (_ || _); [by rewrite lookup_insert_ne|done]. }
    destruct (th0 !! t); setoid_rewrite Hsnoc; naive_solver.
Qed.

Definition thresholds_positive (gs : list groupState) : Prop :=
  Forall (λ g, 0 < HealthyAfter (group g))%Z gs.

Lemma thresholds_spec gs t :
  thresholds_positive gs → is_threshold gs t (thresholds gs !! t).
Proof.
  intros Hpos. rewrite thresholds_pairs.
  assert (Forall (λ p, 0 < p.2)%Z (threshold_pairs gs)) as Hp.
  { apply Forall_forall. intros [u x] (g&mem&Hg&_&_&<-)%elem_of_threshold_pairs.
    unfold thresholds_positive in Hpos. rewrite Forall_forall in Hpos. by apply Hpos. }
  pose proof (foldl_lower (threshold_pairs gs) t Hp) as H. unfold is_threshold.
  by destruct (foldl lower ∅ (threshold_pairs gs) !! t);
    setoid_rewrite <-elem_of_threshold_pairs.
Qed.

Lemma elem_of_poll_names gs t :
  thresholds_positive gs →
  t ∈ poll_names gs ↔ ∃ g mem, g ∈ gs ∧ mem ∈ Members (group g) ∧ Tunnel mem = t.
Proof.
  intros Hpos. unfold poll_names. rewrite elem_of_sorted_set, elem_of_dom.
  pose proof (thresholds_spec gs t Hpos) as H. unfold is_threshold, member_threshold in H.
  destruct (thresholds gs !! t) as [th|].
  - split; [|by eauto]. intros _. destruct H as [(g&mem&?&?&?&?) _]. eauto.
  - split; [by intros [? ?]|]. intros (g&mem&?&?&?). exfalso. naive_solver.
Qed.

(** The sequence of answers of a client that is asked for [names] in order. *)
Fixpoint answers `{DeviceClient Cl} (cl : Cl) (names : list string) :
    list (string * option (list Peer)) * Cl :=
  match names with
  | [] => ([], cl)
  | n :: names => let '(d, cl) := Device cl n in
                  let '(ds, cl) := answers cl names in ((n, d) :: ds, cl)
  end.

Lemma poll_devices_spec `{DeviceClient Cl} th now (cl : Cl) names :
  NoDup names →
  (poll_devices th now cl names).2 = (answers cl names).2 ∧
  ∀ n, (poll_devices th now cl names).1 !! n =
    (λ d, tunnel_state n d now (default 0%Z (th !! n))) <$>
      (list_to_map (answers cl names).1 : gmap string (option (list Peer))) !! n.
Proof.
  revert cl. induction names as [|x l IH]; intros cl Hnd; [done|].
  apply NoDup_cons in Hnd as [Hx Hnd]. cbn [poll_devices answers].
  destruct (Device cl x) as [d cl']. specialize (IH cl' Hnd) as [IH1 IH2].
  destruct (poll_devices th now cl' l) as [bt cl1], (answers cl' l) as [ds cl2]. simpl in *.
  split; [done|]. intros n. destruct (decide (x = n)) as [->|Hne].
  - by rewrite !lookup_insert_eq.
  - rewrite !lookup_insert_ne by done. apply IH2.
Qed.

Lemma answers_names `{DeviceClient Cl} (cl : Cl) names : (answers cl names).1.*1 = names.
Proof.
  revert cl. induction names as [|x l IH]; intros cl; [done|].
  cbn [answers]. destruct (Device cl x) as [d cl']. specialize (IH cl').
  destruct (answers cl' l). cbn [fst] in *. by rewrite fmap_cons, IH.
Qed.

(** ** The monitor invariant *)

(** What a group publishes: a non-empty failover order over its own members that
    starts with the active mark. *)
Definition group_ok (g : groupState) : Prop :=
  (0 < HealthyAfter (group g))%Z ∧ Members (group g) ≠ [] ∧
  (∃ chosen rest, order g = chosen :: rest ∧ active g = to_int32 chosen) ∧
  ∀ x, x ∈ order g → x ∈ memberMarks (Members (group g)).
Definition monitor_ok (m : Monitor) : Prop :=
  Forall group_ok (groups m) ∧ ∀ name i, byName m !! name = Some i → i < length (groups m).

Lemma monitor_ok_positive m : monitor_ok m → thresholds_positive (groups m).
Proof. intros [Hg _]. eapply Forall_impl; [done|]. by intros ? [? _]. Qed.

Lemma new_group_ok m g m' : monitor_ok m → new_group m g = Ok m' → monitor_ok m'.
Proof.
  unfold new_group. intros [Hg Hn]. destruct (Members g) as [|x l] eqn:Em; [done|].
  destruct (_ || _) eqn:Eb; [done|]. intros [= <-]. apply orb_false_iff in Eb as [_ Eb].
  apply Z.leb_gt in Eb. split; simpl.
  - apply Forall_app. split; [done|]. apply Forall_singleton. split_and!; simpl; [done|by rewrite Em|..].
    + by exists (Mark x), (Mark <$> l).
    + by rewrite Em.
  - intros name i. rewrite length_app. simpl. destruct (decide (g_Name g = name)) as [<-|].
    + rewrite lookup_insert_eq. intros [= <-]. lia.
    + rewrite lookup_insert_ne by done. intros Hi%Hn. lia.
Qed.

Lemma foldM_ok {E S A} (f : S → A → result E S) (I : S → Prop) l s s' :
  (∀ s a s', I s → f s a = Ok s' → I s') → I s → foldM f s l = Ok s' → I s'.
Proof.
  intros Hf. revert s. induction l as [|a l IH]; intros s Hs; simpl; [by intros [= <-]|].
  destruct (f s a) eqn:E1; [|done]. eauto.
Qed.

Lemma New_ok nil cfg m : New nil cfg = Ok m → monitor_ok m.
Proof.
  unfold New. destruct nil; [done|]. destruct (_ <=? _)%Z; [done|].
  assert (∀ i p, monitor_ok (empty_monitor i p)) as H0.
  { intros i' p. split; [constructor|]. intros name i. simpl. by rewrite lookup_empty. }
  destruct (Probe_ cfg) as [p|]; [destruct (validate p); [|done]|];
    apply foldM_ok; eauto using new_group_ok.
Qed.

Lemma poll_group_ok t byTunnel now g : group_ok g → group_ok (poll_group t byTunnel now g).1.
Proof.
  intros (Hh&Hm&_&_). unfold poll_group.
  pose proof (selectMember_cases t byTunnel now (Members (group g)) Hm) as Hs.
  destruct (selectMember _ _ _ _) as [[[chosen health] reason] ord]. simpl.
  split_and!; simpl; try done.
  - destruct Hs as [(pre&x&post&_&_&_&->&_&->&(es&->)&_)|[(_&pre&x&post&_&_&_&->&_&_&->)|
      (_&x&rest&->&->&_&_&->)]]; [by eauto|by eauto|by exists (Mark x), (Mark <$> rest)].
  - unfold memberMarks. intros y. destruct Hs as [(_&_&_&_&_&_&_&_&->&_)|
      [(_&pre&x&post&->&_&_&_&_&_&->)|(_&_&_&_&_&_&_&->)]]; [| |done].
    + unfold eligible_marks. rewrite !list_elem_of_fmap. setoid_rewrite list_elem_of_filter.
      naive_solver.
    + rewrite !fmap_app, fmap_cons. set_solver.
Qed.

(** What a running monitor does, in any order. *)
Inductive monitor_step `{DeviceClient Cl} : Monitor * Cl → Monitor * Cl → Prop :=
| step_poll m cl now : monitor_step (m, cl) (Poll m cl now)
| step_observe m cl tunnel success at_ m' :
    ObserveProbe (Some m) tunnel success at_ = Some m' → monitor_step (m, cl) (m', cl)
| step_inherit m cl prev tunnels m' :
    InheritProbes (Some m) prev tunnels = Some m' → monitor_step (m, cl) (m', cl).

Lemma with_probes_ok m t : monitor_ok m → monitor_ok (with_probes m t).
Proof. done. Qed.

Lemma Poll_ok `{DeviceClient Cl} m (cl : Cl) now : monitor_ok m → monitor_ok (Poll m cl now).1.
Proof.
  intros [Hg Hn]. unfold Poll. destruct (poll_devices _ _ _ _) as [bt cl']. split; simpl.
  - rewrite !Forall_fmap. eapply Forall_impl; [exact Hg|]. intros g Hok. simpl.
    by apply poll_group_ok.
  - by rewrite !length_fmap.
Qed.

Lemma monitor_step_ok `{DeviceClient Cl} (s s' : Monitor * Cl) :
  monitor_ok s.1 → monitor_step s s' → monitor_ok s'.1.
Proof.
  intros Hok. inversion 1; subst; simpl in *.
  - by apply Poll_ok.
  - destruct (probes m); simplify_eq; by auto using with_probes_ok.
  - destruct prev as [prev|]; simplify_eq; [|done].
    destruct (probes m), (probes prev); simplify_eq; by auto using with_probes_ok.
Qed.

(** The groups of a monitor are those of its configuration, under their names. *)
Definition names_ok (m : Monitor) : Prop :=
  (∀ name i, byName m !! name = Some i → ∃ g, groups m !! i = Some g ∧ g_Name (group g) = name) ∧
  (∀ g, g ∈ groups m → is_Some (byName m !! g_Name (group g))).

Lemma new_group_names m g m' :
  names_ok m → new_group m g = Ok m' → names_ok m' ∧ group <$> groups m' = (group <$> groups m) ++ [g].
Proof.
  unfold new_group. intros [H1 H2]. destruct (Members g) as [|x l]; [done|].
  destruct (_ || _); [done|]. intros [= <-]. split; [|by cbn [groups]; rewrite fmap_app]. split; cbn [groups byName].
  - intros name i. destruct (decide (g_Name g = name)) as [<-|Hne].
    + rewrite lookup_insert_eq. intros [= <-]. eexists. split; [by apply list_lookup_middle|done].
    + rewrite lookup_insert_ne by done. intros (g'&Hg'&Hn)%H1. exists g'. split; [|done].
      by apply lookup_app_l_Some.
  - intros g' [Hg'%H2| ->%list_elem_of_singleton]%elem_of_app.
    + destruct (decide (g_Name g = g_Name (group g'))) as [->|Hne];
        [by rewrite lookup_insert_eq|by rewrite lookup_insert_ne].
    + by rewrite lookup_insert_eq.
Qed.

Lemma new_groups_names gs m m' :
  names_ok m → foldM new_group m gs = Ok m' → names_ok m' ∧ group <$> groups m' = (group <$> groups m) ++ gs.
Proof.
  revert m. induction gs as [|g gs IH]; intros m Hm; cbn [foldM]; [intros [= <-]; by rewrite app_nil_r|].
  destruct (new_group m g) as [m1|] eqn:E1; [|done]. apply new_group_names in E1 as [Hm1 Hg]; [|done].
  intros [? ->]%IH; [|done]. rewrite Hg, <-app_assoc. done.
Qed.

Lemma New_names nil cfg m : New nil cfg = Ok m → names_ok m ∧ group <$> groups m = Groups cfg.
Proof.
  unfold New. destruct nil; [done|]. destruct (_ <=? _)%Z; [done|].
  assert (∀ i p, names_ok (empty_monitor i p)) as H0.
  { intros i p. split; cbn; [intros name j; by rewrite lookup_empty|by intros g ?%elem_of_nil]. }
  destruct (Probe_ cfg) as [p|]; [destruct (validate p); [|done]|]; intros Hf;
    by apply new_groups_names in Hf.
Qed.

Lemma same_groups_names m m' :
  names_ok m → group <$> groups m' = group <$> groups m → byName m' = byName m → names_ok m'.
Proof.
  intros [H1 H2] Hg Hb. split; rewrite Hb.
  - intros name i (g&Hi&Hn)%H1. assert ((group <$> groups m') !! i = Some (group g)) as Hi'
      by (by rewrite Hg, list_lookup_fmap, Hi).
    rewrite list_lookup_fmap in Hi'. destruct (groups m' !! i) as [g'|]; [|done].
    exists g'. split; [done|]. injection Hi' as ->. done.
  - intros g Hin. assert (group g ∈ group <$> groups m) as (g'&Heq&Hg')%list_elem_of_fmap
      by (rewrite <-Hg; by apply list_elem_of_fmap_2).
    rewrite Heq. by apply H2.
Qed.

Lemma monitor_step_groups `{DeviceClient Cl} (s s' : Monitor * Cl) :
  monitor_step s s' → group <$> groups s'.1 = group <$> groups s.1 ∧ byName s'.1 = byName s.1.
Proof.
  inversion 1; subst; simpl in *.
  - unfold Poll. destruct (poll_devices _ _ _ _) as [bt cl']. simpl. split; [|done].
    rewrite <-!list_fmap_compose. apply list_fmap_ext. intros i g _. simpl. unfold poll_group.
    by destruct (selectMember _ _ _ _) as [[[chosen health] reason] ord].
  - by destruct (probes m); simplify_eq.
  - destruct prev as [prev|]; simplify_eq; [|done]. by destruct (probes m), (probes prev); simplify_eq.
Qed.

(** Both invariants hold of everything a monitor made by [New] becomes. *)
Lemma monitor_reachable `{DeviceClient Cl} nil cfg m (cl : Cl) s :
  New nil cfg = Ok m → rtc monitor_step (m, cl) s →
  monitor_ok s.1 ∧ names_ok s.1 ∧ group <$> groups s.1 = Groups cfg ∧ byName s.1 = byName m.
Proof.
  intros Hn. revert s. apply (rtc_ind_r (λ s, monitor_ok s.1 ∧ names_ok s.1 ∧
    group <$> groups s.1 = Groups cfg ∧ byName s.1 = byName m) (m, cl)).
  - split; [by eapply New_ok|]. by apply New_names in Hn as [??].
  - intros y z _ Hs (H1&H2&H3&H4). destruct (monitor_step_groups _ _ Hs) as [Hg Hb].
    split_and!; [by eapply monitor_step_ok|by eapply same_groups_names|congruence|congruence].
Qed.

(** ** The prober *)
Definition prober_ok (p : ProberState) : Prop :=
  sem p = starting p + probing p + stored p + releasing p ∧
  (Z.of_nat (sem p) ≤ MaxConcurrent p)%Z ∧ inFly p = Z.of_nat (probing p + stored p).

Lemma Try_ok p : prober_ok p → prober_ok (Try p).2.
Proof.
  intros (H1&H2&H3). unfold Try. destruct (_ || _); [done|].
  destruct (Z.ltb_spec (Z.of_nat (sem p)) (MaxConcurrent p)); [|done].
  unfold prober_ok. simpl. lia.
Qed.

Lemma prober_step_ok p p' : prober_ok p → step p p' → prober_ok p'.
Proof.
  intros Hok. pose proof Hok as (H1&H2&H3). inversion 1; subst; [by apply Try_ok|..];
    unfold prober_ok; simpl; lia.
Qed.

(** ** Properties *)

(** The verdict of a tunnel has the documented hysteresis.  It is unknown
    exactly without results, stale exactly when the newest result is older than
    [MaxAge], and otherwise passing exactly when the tunnel was vouched for by its
    first result or by [RecoverAfter] successes in a row and has not since failed
    [FailAfter] times in a row; results of other tunnels never matter. *)
Theorem verdict_hysteresis p evs tunnel now :
  validate p = true →
  let v := verdict (Some (record_all (newProbeTracker p) evs)) tunnel now in
  let h := history tunnel evs in
  let stale := (MaxAge p < time_sub now (latest h))%Z in
  (v = ProbeUnknown ↔ h = []) ∧
  (v = ProbeStale ↔ h ≠ [] ∧ stale) ∧
  (v = ProbePassing ↔ h ≠ [] ∧ ¬ stale ∧
     vouched (Z.to_nat (FailAfter p)) (Z.to_nat (RecoverAfter p)) h.*1).
Proof.
  intros Hv v h stale. unfold v, verdict.
  destruct (record_all_lookup p evs tunnel) as [Hp Hl]. rewrite Hp, Hl. fold h.
  destruct (decide (h = [])) as [Hh|Hh].
  { rewrite Hh. simpl. naive_solver. }
  destruct (state_of_spec p h Hv Hh) as (s&->&_&_&Hla&Hpa). rewrite Hla.
  unfold stale. destruct (Z.ltb_spec (MaxAge p) (time_sub now (latest h))).
  - split_and!; split; try done. intros (_&?&_). lia.
  - destruct (passing s); split_and!; split; try done; try (intros [_ ?]; lia).
    + intros _. split_and!; [done|lia|by apply Hpa].
    + intros (_&_&?%Hpa). done.
Qed.

Lemma verdict_hysteresis_witness :
  let p := {| MaxAge := 100; FailAfter := 2; RecoverAfter := 2 |} in
  let ev b t := {| ev_tunnel := "wg0"; ev_success := b; ev_at := t |} in
  verdict (Some (record_all (newProbeTracker p) [ev true 1; ev false 2]%Z)) "wg0" 3 = ProbePassing.
Proof.
  intros p ev.
  apply (verdict_hysteresis p [ev true 1; ev false 2]%Z "wg0" 3 eq_refl).
  split_and!; [done|vm_compute; by intros [=]|].
  exists [false], [true]. split_and!; [done| |by left].
  intros ([|? [|? ?]]&[|? ?]&[=]).
Defined.

(** Group selection.  The chosen mark heads the published order.  The group
    is ready exactly when some member has a recent handshake and an eligible
    probe verdict, and then the order is the eligible members in preference
    order.  Otherwise it fails open over all members: to the first member with a
    recent handshake, or to the primary when there is none. *)
Theorem selectMember_policy t tunnels members now :
  members ≠ [] →
  let '(chosen, health, reason, order) := selectMember t members tunnels now in
  (∃ rest, order = chosen :: rest) ∧
  (health = Ready ↔ Exists (λ x, eligible t tunnels now x = true) members) ∧
  (health = Ready → order = Mark <$> filter (λ x, eligible t tunnels now x = true) members) ∧
  (health = Degraded → order ≡ₚ Mark <$> members ∧
     ∃ pre x post, members = pre ++ x :: post ∧ chosen = Mark x ∧
       (recent tunnels x = true ∧ Forall (λ y, recent tunnels y = false) pre ∨
        pre = [] ∧ Forall (λ y, recent tunnels y = false) members)).
Proof.
  intros Hne. pose proof (selectMember_cases t tunnels now members Hne) as Hs.
  destruct (selectMember _ _ _ _) as [[[chosen health] reason] ord].
  assert (Forall (λ x, eligible t tunnels now x = false) members →
    ¬ Exists (λ x, eligible t tunnels now x = true) members) as Hex.
  { rewrite Forall_forall, Exists_exists. intros Hf (x&Hx&Hel). by rewrite Hf in Hel. }
  destruct Hs as [(pre&x&post&->&Hpre&Hx&->&->&->&(es&Hes)&_)|
    [(Hno&pre&x&post&->&Hpre&Hx&->&->&_&->)|(Hno&x&rest&->&->&->&_&->)]].
  - split_and!; [by eauto| |done|done]. split; [|done]. intros _.
    apply Exists_app. right. by left.
  - split_and!; [by eauto| |done|].
    + split; [done|]. intros He. by apply Hex in Hno.
    + intros _. split; [by rewrite !fmap_app, fmap_cons, Permutation_middle|].
      exists pre, x, post. split_and!; [done..|]. by left.
  - split_and!; [by exists (Mark <$> rest)| |done|].
    + split; [done|]. intros He%Exists_exists. destruct He as (y&Hy&Hel).
      rewrite Forall_forall in Hno. unfold eligible in Hel. by rewrite (Hno y) in Hel.
    + intros _. split; [done|]. exists [], x, rest. split_and!; [done..|]. by right.
Qed.

Lemma selectMember_policy_witness :
  let ts s := {| ts_Tunnel := ""; Signal := s; HandshakeAge := 0; ReceiveBytes := 0;
                 TransmitBytes := 0; ts_Error := "" |} in
  let '(chosen, health, _, order) :=
    selectMember None [{| Tunnel := "a"; Mark := 1 |}; {| Tunnel := "b"; Mark := 2 |}]
      {[ "a" := ts SessionFailed; "b" := ts SessionRecent ]} 0 in
  chosen = 2%Z ∧ (∃ rest, order = chosen :: rest) ∧ health = Ready.
Proof.
  intros ts.
  set (tunnels := {[ "a" := ts SessionFailed; "b" := ts SessionRecent ]} : gmap string TunnelSnapshot).
  set (members := [{| Tunnel := "a"; Mark := 1 |}; {| Tunnel := "b"; Mark := 2 |}]).
  pose proof (selectMember_policy None tunnels members 0 ltac:(done)) as H.
  destruct (selectMember None members tunnels 0) as [[[chosen health] reason] ord] eqn:E.
  destruct H as (Hh&Hr&_). split; [|split; [exact Hh|]].
  - vm_compute in E. by injection E.
  - apply Hr. right. left. vm_compute. reflexivity.
Defined.

(** A poll asks for every member's device exactly once, in sorted order,
    however many groups share it, and judges the answer by the smallest
    [HealthyAfter] of the groups the tunnel belongs to. *)
Theorem Poll_queries_once `{DeviceClient Cl} m (cl : Cl) now :
  monitor_ok m →
  let names := poll_names (groups m) in
  let '(ds, cl') := answers cl names in
  (Poll m cl now).2 = cl' ∧ NoDup names ∧ StronglySorted String.le names ∧
  (∀ t, t ∈ names ↔ ∃ g x, g ∈ groups m ∧ x ∈ Members (group g) ∧ Tunnel x = t) ∧
  ∃ th : gmap string Z, (∀ t, is_threshold (groups m) t (th !! t)) ∧
    Tunnels (last_snapshot (Poll m cl now).1) =
    (λ nd, tunnel_state nd.1 nd.2 now (default 0%Z (th !! nd.1))) <$> ds.
Proof.
  intros Hok names. pose proof (monitor_ok_positive m Hok) as Hpos.
  assert (NoDup names) as Hnd by apply sorted_set_NoDup.
  pose proof (poll_devices_spec (thresholds (groups m)) now cl names Hnd) as [H1 H2].
  pose proof (answers_names cl names) as Hnames. unfold Poll. fold names.
  destruct (answers cl names) as [ds cl'], (poll_devices _ now cl names) as [bt cl''].
  simpl in *. subst cl''. split_and!; [done|done|apply sorted_set_sorted|..].
  - intros t. by apply elem_of_poll_names.
  - exists (thresholds (groups m)). split; [intros t; by apply thresholds_spec|].
    assert (∀ l, l ⊆+ ds → omap (λ n, bt !! n) l.*1 =
      (λ nd, tunnel_state nd.1 nd.2 now (default 0%Z (thresholds (groups m) !! nd.1))) <$> l) as Hl.
    { induction l as [|[n d] l IH]; intros Hsub; [done|]. csimpl. rewrite H2.
      rewrite (elem_of_list_to_map_1 ds n d); [|by rewrite Hnames|].
      - simpl. f_equal. apply IH. etrans; [|done]. by apply submseteq_cons.
      - eapply elem_of_submseteq; [|done]. by left. }
    rewrite <-Hnames. by apply Hl.
Qed.

#[local] Instance log_client : DeviceClient (list string) :=
  {| Device := λ log name, (Some [], log ++ [name]) |}.

Lemma Poll_queries_once_witness :
  let g name := {| group := {| g_Name := name;
                               Members := [{| Tunnel := "b"; Mark := 2 |}; {| Tunnel := "a"; Mark := 1 |}];
                               HealthyAfter := 5 |};
                   active := 2; order := [2%Z] |} in
  let m := {| groups := [g "x"; g "y"]; byName := ∅; interval := 1; probes := None;
              last_snapshot := empty_snapshot |} in
  (Poll m ([] : list string) 0).2 = ["a"; "b"].
Proof.
  intros g m.
  assert (∀ n, group_ok (g n)) as Hg.
  { intros n. split_and!; simpl; [lia|done|by exists 2%Z, []|set_solver]. }
  assert (monitor_ok m) as Hok.
  { split; [|intros name i; simpl; by rewrite lookup_empty].
    constructor; [apply Hg|]. constructor; [apply Hg|constructor]. }
  pose proof (Poll_queries_once m ([] : list string) 0 Hok) as H.
  vm_compute in H. vm_compute. apply H.
Defined.

(** Whatever mix of polls, probe results and inherited histories a monitor
    goes through, every group publishes a non-empty failover order over its own
    members that starts with its active mark. *)
Theorem monitor_invariant `{DeviceClient Cl} nil cfg m (cl : Cl) s :
  New nil cfg = Ok m → rtc monitor_step (m, cl) s → monitor_ok s.1.
Proof.
  intros Hn Hr. apply New_ok in Hn.
  revert s Hr. apply (rtc_ind_r (λ s, monitor_ok s.1) (m, cl)); [done|].
  intros y z _ Hs Hy. by eapply monitor_step_ok.
Qed.

Lemma monitor_invariant_witness :
  let cfg := {| Interval := 1; Probe_ := None;
    Groups := [{| g_Name := "g"; Members := [{| Tunnel := "a"; Mark := 7 |}]; HealthyAfter := 5 |}] |} in
  ∃ m, New false cfg = Ok m ∧ monitor_ok (Poll m ([] : list string) 0).1.
Proof.
  intros cfg. eexists. split; [reflexivity|].
  eapply (monitor_invariant false cfg _ ([] : list string)); [reflexivity|].
  apply rtc_once. constructor.
Defined.

(** Inheriting probe histories gives a tunnel on the list its previous state
    unless it already has one, and touches no other tunnel. *)
Theorem InheritProbes_lookup m prev t t' tunnels tunnel :
  probes m = Some t → probes prev = Some t' →
  ∃ m' t2, InheritProbes (Some m) (Some prev) tunnels = Some m' ∧ probes m' = Some t2 ∧
    groups m' = groups m ∧ policy t2 = policy t ∧
    byTunnel t2 !! tunnel =
      match byTunnel t !! tunnel with
      | Some s => Some s
      | None => if decide (tunnel ∈ tunnels) then byTunnel t' !! tunnel else None
      end.
Proof.
  intros Ht Ht'. simpl. rewrite Ht, Ht'. eexists _, _. split_and!; [done..|].
  simpl. rewrite lookup_union, elem_of_snapshot.
  destruct (byTunnel t !! tunnel); [by rewrite union_Some_l|].
  by case_decide; [destruct (byTunnel t' !! tunnel)|].
Qed.

Lemma InheritProbes_lookup_witness :
  let p := {| MaxAge := 100; FailAfter := 2; RecoverAfter := 2 |} in
  let t' := record (newProbeTracker p) "wg0" false 5 in
  ∃ m' t2, InheritProbes (Some (empty_monitor 1 (Some (newProbeTracker p))))
             (Some (empty_monitor 1 (Some t'))) ["wg0"] = Some m' ∧
    probes m' = Some t2 ∧ byTunnel t2 !! "wg0" = byTunnel t' !! "wg0".
Proof.
  intros p t'.
  destruct (InheritProbes_lookup (empty_monitor 1 (Some (newProbeTracker p)))
    (empty_monitor 1 (Some t')) _ _ ["wg0"] "wg0" eq_refl eq_refl) as (m'&t2&H1&H2&_&_&H3).
  exists m', t2. split_and!; [exact H1|exact H2|]. rewrite H3. reflexivity.
Defined.

(** In every interleaving of calls to [Try] and of the goroutines they start,
    at most [MaxConcurrent] probes hold a token, the in-flight count never
    exceeds that, and [Try] starts a probe exactly when a token is free. *)
Theorem prober_bounded timeout maxConcurrent has p :
  rtc step (NewProber timeout maxConcurrent has) p →
  (1 ≤ MaxConcurrent p)%Z ∧
  (Z.of_nat (starting p + probing p + stored p + releasing p) ≤ MaxConcurrent p)%Z ∧
  (0 ≤ inFly p ≤ MaxConcurrent p)%Z ∧
  ((Try p).1 = true ↔ has_probe p = true ∧ (0 < Timeout p)%Z ∧
     (Z.of_nat (starting p + probing p + stored p + releasing p) < MaxConcurrent p)%Z).
Proof.
  intros Hr. assert (prober_ok p ∧ (1 ≤ MaxConcurrent p)%Z) as [(H1&H2&H3) Hm].
  { revert p Hr. apply (rtc_ind_r (λ p, prober_ok p ∧ (1 ≤ MaxConcurrent p)%Z)).
    - split; [split_and!; simpl; try done|]; simpl; destruct (Z.ltb_spec maxConcurrent 1); lia.
    - intros y z _ Hs [Hy Hm]. split; [by eapply prober_step_ok|].
      inversion Hs; subst; try done. unfold Try. repeat case_match; done. }
  split_and!; [lia..|]. unfold Try. rewrite <-H1.
  destruct (has_probe p); simpl; [|naive_solver].
  destruct (Z.leb_spec (Timeout p) 0); [naive_solver lia|].
  destruct (Z.ltb_spec (Z.of_nat (sem p)) (MaxConcurrent p)); naive_solver lia.
Qed.

Lemma prober_bounded_witness :
  (0 ≤ inFly (Try (NewProber 5 0 true)).2 ≤ 1)%Z.
Proof. apply (prober_bounded 5 0 true). apply rtc_once. constructor. Defined.
