(* ===== verification/ProxyDial.v ===== *)
(** * internal/proxy: address selection, dial budgets and connect metrics

    [RotatingSelector.Select] with its in-place rotation, [BudgetSlice],
    [DialCandidates] and [ConnectMetrics].  The dial function, the clock and the
    context of a dial are parameters: a dial maps the state of the world to an
    outcome and a new state. *)
From S2P Require Import Prelude Netip.

(** ** Address selection *)
Definition IPv4First : string := "ipv4_first".
Definition IPv6First : string := "ipv6_first".
Definition Interleave : string := "interleave".

Definition Valid (s : string) : bool :=
  bool_decide (s = IPv4First) || bool_decide (s = IPv6First) || bool_decide (s = Interleave).

Record RotatingSelector := { Strategy : string; MaxAttempts : Z; cursor : Z }.

(** The loop of [reverse]: swap inwards until the indices meet.  Half the
    length is enough fuel; the length is used. *)
Fixpoint reverse_loop {A} (fuel left right : nat) (l : list A) : list A :=
  match fuel with
  | O => l
  | S fuel =>
      if left <? right then
        match l !! left, l !! right with
        | Some x, Some y => reverse_loop fuel (S left) (right - 1) (<[right := x]> (<[left := y]> l))
        | _, _ => l
        end
      else l
  end.
Definition reverse_addrs {A} (addrs : list A) : list A :=
  reverse_loop (length addrs) 0 (length addrs - 1) addrs.

Definition rotate {A} (addrs : list A) (sequence : Z) : list A :=
  if length addrs <? 2 then addrs
  else
    let start := Z.to_nat (sequence mod Z.of_nat (length addrs)) in
    reverse_addrs (reverse_addrs (take start addrs) ++ reverse_addrs (drop start addrs)).

(** One input address: skipped, or appended to its family. *)
Definition select_step (allowed : option (Addr → bool)) (st : gset Addr * list Addr * list Addr)
    (addr : Addr) : gset Addr * list Addr * list Addr :=
  let '(seen, v4, v6) := st in
  if negb (IsValid addr) || negb (bool_decide (Zone addr = "")) then st
  else
    let addr := Unmap addr in
    if match allowed with Some f => negb (f addr) | None => false end then st
    else if bool_decide (addr ∈ seen) then st
    else if Is4 addr then ({[addr]} ∪ seen, v4 ++ [addr], v6)
    else ({[addr]} ∪ seen, v4, v6 ++ [addr]).

(** [for len(first) > 0 || len(second) > 0]: one of each per round. *)
Fixpoint interleave {A} (first second : list A) : list A :=
  match first, second with
  | [], second => second
  | first, [] => first
  | x :: first, y :: second => x :: y :: interleave first second
  end.

Definition order_families (strategy : string) (sequence : Z) (v4 v6 : list Addr) : list Addr :=
  if bool_decide (strategy = IPv6First) then v6 ++ v4
  else if bool_decide (strategy = Interleave) then
    if (sequence mod 2 =? 1)%Z then interleave v4 v6 else interleave v6 v4
  else v4 ++ v6.

Definition Select (s : RotatingSelector) (input : list Addr) (allowed : option (Addr → bool)) :
    list Addr * RotatingSelector :=
  if (MaxAttempts s <=? 0)%Z then ([], s)
  else
    let '(_, v4, v6) := foldl (select_step allowed) (∅, [], []) input in
    let cursor' := wrap64 (cursor s + 1) in
    let sequence := wrap64 (cursor' - 1) in
    let ordered := order_families (Strategy s) sequence (rotate v4 sequence) (rotate v6 sequence) in
    (take (Z.to_nat (MaxAttempts s)) ordered,
     {| Strategy := Strategy s; MaxAttempts := MaxAttempts s; cursor := cursor' |}).

(** ** Connect metrics *)
Definition DirectEgress : string := "direct".
Definition maxEgressLabels : nat := 16.

(** The counters by key; a nil map is the empty one. *)
Abbreviation ConnectMetrics := (gmap string Z).

Definition egress_class (egress : string) : string :=
  if bool_decide (egress = DirectEgress) then "direct" else "marked".
Definition metric_key (success : bool) (egress : string) : string :=
  (if success then "success" else "failure") +:+ "|" +:+ egress_class egress +:+ "|" +:+ egress.

Definition record (m : ConnectMetrics) (success : bool) (egress : string) : ConnectMetrics :=
  let egress := if bool_decide (egress = "") then DirectEgress else egress in
  let key := metric_key success egress in
  let key :=
    match m !! key with
    | Some _ => key
    | None => if maxEgressLabels * 4 <=? size m
              then (if success then "success" else "failure") +:+ "|" +:+ egress_class egress +:+ "|other"
              else key
    end in
  <[key := wrap64 (default 0%Z (m !! key) + 1)]> m.

Definition metrics_Snapshot (m : ConnectMetrics) : gmap string Z := m.

(** ** Dial budgets *)
Definition minAttemptTimeout : Z := second.

Definition BudgetSlice (remaining attemptsLeft : Z) : Z :=
  if (remaining <=? 0)%Z then 0
  else
    let slice := if (1 <? attemptsLeft)%Z then Z.quot remaining attemptsLeft else remaining in
    ((slice `max` minAttemptTimeout) `min` remaining)%Z.

(** ** DialCandidates *)
Inductive dial_error (E : Type) :=
| AttemptCapNotPositive
| NilDialFunction
| NoDialableAddresses
| Joined (errs : list (option string * E)).
Arguments AttemptCapNotPositive {E}.
Arguments NilDialFunction {E}.
Arguments NoDialableAddresses {E}.
Arguments Joined {E} errs.

Section dial.
Context {W Conn E : Type}.

(** The caller's context and clock, and the dial function: it gets the timeout of
    the attempt, when the context has a deadline, and the address. *)
Record dial_env := {
  ctx_err : W → option E;
  deadline : option Z;
  now : W → Z;
  dial : W → option Z → string → result E Conn * W }.

Definition candidate_address (port : string) (candidate : Addr) : string :=
  JoinHostPort (addr_String candidate) port.

(** The timeout given to the attempt that leaves [left] candidates, itself included. *)
Definition attempt_timeout (env : dial_env) (w : W) (left : nat) : option Z :=
  (λ d, BudgetSlice (time_sub d (now env w)) (Z.of_nat left)) <$> deadline env.

Fixpoint dial_loop (env : dial_env) (port egress : string) (candidates : list Addr)
    (i attempts : nat) (errs : list (option string * E)) (metrics : option ConnectMetrics) (w : W) :
    result (dial_error E) Conn * nat * option ConnectMetrics * W :=
  let finish := match errs with
                | [] => (Err NoDialableAddresses, 0, metrics, w)
                | _ => (Err (Joined errs), attempts, metrics, w)
                end in
  match candidates with
  | [] => finish
  | candidate :: rest =>
      match ctx_err env w with
      | Some e => (Err (Joined (errs ++ [(None, e)])), attempts, metrics, w)
      | None =>
          let address := candidate_address port candidate in
          let '(r, w) := dial env w (attempt_timeout env w (length candidates)) address in
          match r with
          | Ok conn => (Ok conn, S i, (λ m, record m true egress) <$> metrics, w)
          | Err e => dial_loop env port egress rest (S i) (S attempts)
                       (errs ++ [(Some address, e)]) ((λ m, record m false egress) <$> metrics) w
          end
      end
  end.

Definition DialCandidates (env : option dial_env) (candidates : list Addr) (port : string)
    (attemptCap : Z) (egress : string) (metrics : option ConnectMetrics) (w : W) :
    result (dial_error E) Conn * nat * option ConnectMetrics * W :=
  if (attemptCap <=? 0)%Z then (Err AttemptCapNotPositive, 0, metrics, w)
  else match env with
       | None => (Err NilDialFunction, 0, metrics, w)
       | Some env =>
           dial_loop env port egress (take (Z.to_nat attemptCap) candidates) 0 0 [] metrics w
       end.
End dial.
Arguments dial_env : clear implicits.

(** ** Rotation *)
Lemma reverse_loop_lookup {A} fuel left right (l : list A) i :
  right < length l → right - left ≤ fuel → left + right = length l - 1 →
  reverse_loop fuel left right l !! i =
  if decide (left ≤ i ≤ right) then l !! (length l - 1 - i) else l !! i.
Proof.
  revert left right l. induction fuel as [|fuel IH]; intros left right l Hr Hf Hs; simpl.
  - destruct (decide (left ≤ i ≤ right)); [|done].
    by replace (length l - 1 - i) with i by lia.
  - destruct (Nat.ltb_spec left right) as [Hlt|Hge].
    2:{ destruct (decide (left ≤ i ≤ right)); [|done].
        by replace (length l - 1 - i) with i by lia. }
    destruct (lookup_lt_is_Some_2 l left) as [x Hx]; [lia|].
    destruct (lookup_lt_is_Some_2 l right) as [y Hy]; [lia|].
    rewrite Hx, Hy.
    assert (length (<[right:=x]> (<[left:=y]> l)) = length l) as Hlen
      by (by rewrite !length_insert).
    rewrite IH; rewrite ?Hlen; [|lia..].
    destruct (decide (left = i)) as [<-|Hli].
    { rewrite decide_False, decide_True by lia. rewrite list_lookup_insert_ne by lia.
      rewrite list_lookup_insert_eq by lia. by replace (length l - 1 - left) with right by lia. }
    destruct (decide (right = i)) as [<-|Hri].
    { rewrite decide_False, decide_True by lia. rewrite list_lookup_insert_eq
        by (rewrite length_insert; lia).
      by replace (length l - 1 - right) with left by lia. }
    destruct (decide (left ≤ i ≤ right)).
    + rewrite decide_True by lia. by rewrite !list_lookup_insert_ne by lia.
    + rewrite decide_False by lia. by rewrite !list_lookup_insert_ne by lia.
Qed.

(** The swap loop reverses. *)
Lemma reverse_addrs_eq {A} (l : list A) : reverse_addrs l = reverse l.
Proof.
  destruct (decide (l = [])) as [->|Hl]; [done|].
  assert (0 < length l) by (destruct l; simpl in *; [done|lia]).
  apply list_eq. intros i. unfold reverse_addrs.
  rewrite reverse_loop_lookup by lia.
  destruct (decide (0 ≤ i ≤ length l - 1)).
  - rewrite reverse_lookup by lia. f_equal. lia.
  - rewrite !lookup_ge_None_2; [done|rewrite length_reverse; lia|lia].
Qed.

(** Three reversals rotate. *)
Lemma rotate_eq {A} (l : list A) sequence :
  let k := Z.to_nat (sequence mod Z.of_nat (length l)) in
  rotate l sequence = drop k l ++ take k l.
Proof.
  intros k. unfold rotate. destruct (Nat.ltb_spec (length l) 2) as [Hlt|Hge].
  - destruct l as [|x [|y l]]; simpl in *; [by rewrite drop_nil, take_nil| |lia].
    replace k with 0 by (unfold k; rewrite Z.mod_1_r; done). by rewrite app_nil_r.
  - fold k. rewrite !reverse_addrs_eq, reverse_app, !reverse_involutive. done.
Qed.

Lemma rotate_perm {A} (l : list A) sequence : rotate l sequence ≡ₚ l.
Proof. rewrite rotate_eq, (comm (++)). by rewrite take_drop. Qed.

Lemma rotate_head {A} (l : list A) sequence :
  head (rotate l sequence) = l !! Z.to_nat (sequence mod Z.of_nat (length l)).
Proof.
  rewrite rotate_eq. destruct (decide (l = [])) as [->|Hl]; [by rewrite drop_nil, take_nil|].
  set (k := Z.to_nat _).
  assert (k < length l) as Hk.
  { destruct l; [done|]. unfold k.
    pose proof (Z.mod_pos_bound sequence (Z.of_nat (length (a :: l)))). simpl in *. lia. }
  destruct (lookup_lt_is_Some_2 l k Hk) as [x Hx].
  by rewrite (drop_S l x k), Hx.
Qed.

(** ** Candidates *)

(** What the loop keeps: valid, without zone, allowed after unmapping, once each. *)
Definition candidate (allowed : option (Addr → bool)) (input : list Addr) (a : Addr) : Prop :=
  (∃ x, x ∈ input ∧ IsValid x = true ∧ Zone x = "" ∧ Unmap x = a) ∧
  match allowed with Some f => f a = true | None => True end.

Definition select_inv (allowed : option (Addr → bool)) (input : list Addr)
    (st : gset Addr * list Addr * list Addr) : Prop :=
  let '(seen, v4, v6) := st in
  NoDup (v4 ++ v6) ∧ (∀ a, a ∈ seen ↔ a ∈ v4 ++ v6) ∧
  (∀ a, a ∈ v4 ++ v6 ↔ candidate allowed input a) ∧
  Forall (λ a, Is4 a = true) v4 ∧ Forall (λ a, Is4 a = false) v6.

Lemma select_step_inv allowed input st addr :
  select_inv allowed input st → select_inv allowed (input ++ [addr]) (select_step allowed st addr).
Proof.
  destruct st as [[seen v4] v6]. intros (Hnd&Hseen&Hin&H4&H6).
  assert (∀ a, candidate allowed (input ++ [addr]) a ↔ candidate allowed input a ∨
    (IsValid addr = true ∧ Zone addr = "" ∧ Unmap addr = a ∧
     match allowed with Some f => f a = true | None => True end)) as Hsnoc.
  { intros a. unfold candidate. split.
    - intros [(x&[Hx|Hx%list_elem_of_singleton]%elem_of_app&?&?&?) Hal];
        [left; split; [by exists x|done]|right; by subst].
    - intros [[(x&?&?&?&?) ?]|(?&?&?&?)]; (split; [|done]);
        [exists x|exists addr]; (split_and!; [apply elem_of_app|done..]);
        [by left|right; by apply list_elem_of_singleton]. }
  unfold select_step.
  assert (∀ st', st' = (seen, v4, v6) →
    (∀ a, candidate allowed (input ++ [addr]) a → candidate allowed input a) →
    select_inv allowed (input ++ [addr]) st') as Hskip.
  { intros st' -> Hold. split_and!; try done. intros a. rewrite Hin, Hsnoc. 
    split; [by left|]. intros Hc. by apply Hold, Hsnoc. }
  destruct (_ || _) eqn:Ebad.
  { apply Hskip; [done|]. intros a [Hc|(Hv&Hz&_)]%Hsnoc; [done|]. exfalso.
    rewrite Hv, bool_decide_true in Ebad by done. done. }
  apply orb_false_iff in Ebad as [Hv Hz]. apply negb_false_iff in Hv.
  apply negb_false_iff, bool_decide_eq_true in Hz.
  destruct (match allowed with Some f => negb (f (Unmap addr)) | None => false end) eqn:Eal.
  { apply Hskip; [done|]. intros a [Hc|(_&_&<-&Ha)]%Hsnoc; [done|]. exfalso.
    destruct allowed; [|done]. by rewrite Ha in Eal. }
  assert (match allowed with Some f => f (Unmap addr) = true | None => True end) as Hal.
  { destruct allowed; [|done]. by apply negb_false_iff in Eal. }
  case_bool_decide as Hdup.
  { apply Hskip; [done|]. intros a [Hc|(_&_&<-&_)]%Hsnoc; [done|]. by apply Hin, Hseen. }
  assert (Unmap addr ∉ v4 ++ v6) as Hnew by (by rewrite <-Hseen).
  assert (∀ a, candidate allowed (input ++ [addr]) a ↔ a ∈ v4 ++ v6 ∨ a = Unmap addr) as Hc.
  { intros a. rewrite Hsnoc, <-Hin. naive_solver. }
  destruct (Is4 (Unmap addr)) eqn:E4; split_and!.
  - rewrite <-app_assoc. by apply NoDup_Permutation_proper with (Unmap addr :: v4 ++ v6);
      [rewrite Permutation_middle|constructor].
  - intros a. rewrite elem_of_union, Hseen. set_solver.
  - intros a. rewrite Hc. set_solver.
  - apply Forall_app. split; [done|]. by apply Forall_singleton.
  - done.
  - rewrite app_assoc. apply NoDup_app. split_and!; [done| |apply NoDup_singleton].
    intros a Ha ->%list_elem_of_singleton. done.
  - intros a. rewrite elem_of_union, Hseen. set_solver.
  - intros a. rewrite Hc. set_solver.
  - done.
  - apply Forall_app. split; [done|]. by apply Forall_singleton.
Qed.

Lemma select_loop_inv allowed input :
  select_inv allowed input (foldl (select_step allowed) (∅, [], []) input).
Proof.
  induction input as [|a l IH] using rev_ind.
  - split_and!; try constructor; try set_solver. intros ((?&?%elem_of_nil&_)&_). done.
  - rewrite foldl_snoc. by apply select_step_inv.
Qed.

Lemma interleave_perm {A} (l k : list A) : interleave l k ≡ₚ l ++ k.
Proof.
  revert k. induction l as [|x l IH]; intros [|y k]; simpl; [done|done|by rewrite app_nil_r|].
  rewrite IH. by rewrite <-Permutation_middle.
Qed.

Lemma order_families_perm strategy sequence v4 v6 :
  order_families strategy sequence v4 v6 ≡ₚ v4 ++ v6.
Proof.
  unfold order_families. repeat case_match; rewrite ?interleave_perm; try done; apply (comm (++)).
Qed.

Lemma Select_ordered s input allowed :
  (0 < MaxAttempts s)%Z → (0 ≤ cursor s < 2 ^ 64)%Z →
  let '(_, v4, v6) := foldl (select_step allowed) (∅, [], []) input in
  Select s input allowed =
  (take (Z.to_nat (MaxAttempts s))
     (order_families (Strategy s) (cursor s) (rotate v4 (cursor s)) (rotate v6 (cursor s))),
   {| Strategy := Strategy s; MaxAttempts := MaxAttempts s; cursor := wrap64 (cursor s + 1) |}).
Proof.
  intros Hm Hc. unfold Select. rewrite (proj2 (Z.leb_gt _ _)) by lia.
  destruct (foldl _ _ _) as [[seen v4] v6].
  assert (wrap64 (wrap64 (cursor s + 1) - 1) = cursor s) as ->; [|done].
  unfold wrap64. rewrite Zminus_mod_idemp_l. rewrite Z.add_simpl_r. by apply Z.mod_small.
Qed.

(** The first addresses of [n] consecutive calls. *)
Fixpoint first_choices (n : nat) (s : RotatingSelector) (input : list Addr)
    (allowed : option (Addr → bool)) : list (option Addr) :=
  match n with
  | O => []
  | S n => let '(out, s) := Select s input allowed in head out :: first_choices n s input allowed
  end.

Lemma rotate_lookup {A} (l : list A) sequence j :
  (0 ≤ sequence)%Z → j < length l →
  rotate l sequence !! j = l !! Z.to_nat ((sequence + Z.of_nat j) mod Z.of_nat (length l)).
Proof.
  intros Hs Hj. rewrite rotate_eq.
  set (n := Z.of_nat (length l)) in *. set (k := Z.to_nat (sequence mod n)).
  assert (0 < n)%Z by lia. pose proof (Z.mod_pos_bound sequence n).
  rewrite Zplus_mod, (Z.mod_small (Z.of_nat j)) by lia.
  destruct (decide (j < length l - k)).
  - rewrite lookup_app_l by (rewrite length_drop; lia). rewrite lookup_drop.
    f_equal. rewrite Z.mod_small by lia. lia.
  - rewrite lookup_app_r by (rewrite length_drop; lia). rewrite length_drop.
    rewrite lookup_take_lt by lia. f_equal.
    rewrite <-(Z.mod_add _ (-1)), Z.mod_small by lia. lia.
Qed.

Lemma first_choices_spec n s input allowed seen v4 v6 :
  (0 < MaxAttempts s)%Z → (0 ≤ cursor s)%Z → (cursor s + Z.of_nat n < 2 ^ 64)%Z →
  Strategy s ≠ IPv6First → Strategy s ≠ Interleave →
  foldl (select_step allowed) (∅, [], []) input = (seen, v4, v6) → v4 ≠ [] →
  first_choices n s input allowed =
  (λ j, v4 !! Z.to_nat ((cursor s + Z.of_nat j) mod Z.of_nat (length v4))) <$> seq 0 n.
Proof.
  intros Hm Hc Hcn Hs6 Hsi Hf Hne. revert s Hm Hc Hcn Hs6 Hsi.
  induction n as [|n IH]; intros s Hm Hc Hcn Hs6 Hsi; [done|].
  pose proof (Select_ordered s input allowed Hm) as Hsel. rewrite Hf in Hsel.
  cbn [first_choices]. rewrite Hsel by lia. rewrite IH; try done; simpl.
  - f_equal.
    + unfold order_families. rewrite !bool_decide_false by done.
      rewrite Z.add_0_r. rewrite <-rotate_head.
      destruct (rotate v4 (cursor s)) eqn:E.
      { exfalso. apply Hne, Permutation_nil_r. rewrite <-E. symmetry. apply rotate_perm. }
      destruct (Z.to_nat (MaxAttempts s)) eqn:E2; [lia|]. done.
    + rewrite <-(fmap_S_seq 0 n), <-list_fmap_compose. apply list_fmap_ext. intros i j _. simpl.
      unfold wrap64. rewrite (Z.mod_small (cursor s + 1)) by lia. do 3 f_equal. lia.
  - unfold wrap64. rewrite Z.mod_small by lia. lia.
  - unfold wrap64. rewrite Z.mod_small by lia. lia.
Qed.

(** ** Budgets *)
Lemma BudgetSlice_spec remaining left :
  (0 < remaining)%Z → (1 ≤ left)%Z →
  (0 < BudgetSlice remaining left ≤ remaining)%Z ∧
  (left = 1 → BudgetSlice remaining left = remaining)%Z ∧
  (minAttemptTimeout * left ≤ remaining → BudgetSlice remaining left = remaining / left)%Z.
Proof.
  intros Hr Hl. unfold BudgetSlice, minAttemptTimeout, second.
  rewrite (proj2 (Z.leb_gt _ _)) by lia.
  destruct (Z.ltb_spec 1 left).
  - rewrite Z.quot_div_nonneg by lia. split_and!; [lia..|].
    intros Hm. assert (1000000000 ≤ remaining / left)%Z by (apply Z.div_le_lower_bound; lia).
    assert (remaining / left ≤ remaining)%Z by (apply Z.div_le_upper_bound; nia). lia.
  - assert (left = 1)%Z as -> by lia. rewrite Z.div_1_r. split_and!; lia.
Qed.

(** Attempts, each with the slice it is granted and the time it uses of it. *)
Inductive attempts_run : Z → list (Z * Z) → Z → Prop :=
| run_nil r : attempts_run r [] r
| run_cons r granted used rest r' :
    granted = BudgetSlice r (Z.of_nat (S (length rest))) → (0 ≤ used ≤ granted)%Z →
    attempts_run (r - used) rest r' → attempts_run r ((granted, used) :: rest) r'.

Lemma attempts_run_nonneg r l r' : attempts_run r l r' → (0 ≤ r)%Z → (0 ≤ r' ≤ r)%Z.
Proof.
  induction 1 as [r|r granted used rest r' -> Hu Hrest IH]; intros Hr; [lia|].
  destruct (decide (r = 0)%Z) as [->|].
  - change (BudgetSlice 0 (Z.of_nat (S (length rest)))) with 0%Z in Hu. lia.
  - pose proof (BudgetSlice_spec r (Z.of_nat (S (length rest)))). lia.
Qed.

(** With room for the minimum per attempt, nobody is granted less than an even share. *)
Lemma attempts_run_share r l r' q :
  attempts_run r l r' → (minAttemptTimeout ≤ q)%Z → (q * Z.of_nat (length l) ≤ r)%Z →
  Forall (λ gu, q ≤ gu.1)%Z l.
Proof.
  intros Hr Hq. revert Hr. induction 1 as [r|r granted used rest r' -> Hu Hrest IH];
    intros Hle; constructor; cbn [length fst] in *;
    set (n := Z.of_nat (S (length rest))) in *;
    assert (0 < minAttemptTimeout)%Z as Hmin by done;
    assert (minAttemptTimeout * n ≤ q * n)%Z as Hmn by (apply Z.mul_le_mono_nonneg_r; lia);
    assert (1 * n ≤ q * n)%Z by (apply Z.mul_le_mono_nonneg_r; lia);
    assert (q ≤ r / n)%Z as Hqr by (apply Z.div_le_lower_bound; lia);
    (destruct (BudgetSlice_spec r n) as (_&_&He); [lia|lia|]); rewrite He in * by lia.
  - done.
  - apply IH. pose proof (Z.mul_div_le r n).
    assert (Z.of_nat (length rest) = n - 1)%Z as -> by lia.
    assert (q * (n - 1) ≤ (r / n) * (n - 1))%Z by (apply Z.mul_le_mono_nonneg_r; lia). lia.
Qed.

(** ** Dialling *)
Section dial_spec.
Context {W Conn E : Type} (env : dial_env W Conn E) (port egress : string).

(** [l] is dialled in order and every attempt fails; [left] candidates are left
    when it starts, and [errs] are the errors in order. *)
Inductive fails : nat → list Addr → list (option string * E) → W → W → Prop :=
| fails_nil left w : fails left [] [] w w
| fails_cons left c l errs e w w1 w2 :
    ctx_err env w = None →
    dial env w (attempt_timeout env w left) (candidate_address port c) = (Err e, w1) →
    fails (pred left) l errs w1 w2 →
    fails left (c :: l) ((Some (candidate_address port c), e) :: errs) w w2.

Definition record_failures (n : nat) (m : option ConnectMetrics) : option ConnectMetrics :=
  Nat.iter n (fmap (λ m, record m false egress)) m.

Lemma record_failures_S n m :
  record_failures (S n) m = record_failures n ((λ m, record m false egress) <$> m).
Proof. apply Nat.iter_succ_r. Qed.

Lemma dial_loop_spec l i errs m w :
  length errs = i →
  let '(r, n, m', w') := dial_loop env port egress l i i errs m w in
  match r with
  | Ok conn => ∃ pre c post es w1, l = pre ++ c :: post ∧ fails (length l) pre es w w1 ∧
      ctx_err env w1 = None ∧
      dial env w1 (attempt_timeout env w1 (length (c :: post))) (candidate_address port c) =
        (Ok conn, w') ∧
      n = i + length pre + 1 ∧
      m' = (λ m, record m true egress) <$> record_failures (length pre) m
  | Err e => ∃ pre post es, l = pre ++ post ∧ fails (length l) pre es w w' ∧
      n = i + length pre ∧ m' = record_failures (length pre) m ∧
      match post with
      | [] => e = match errs ++ es with [] => NoDialableAddresses | all => Joined all end
      | _ => ∃ x, ctx_err env w' = Some x ∧ e = Joined (errs ++ es ++ [(None, x)])
      end
  end.
Proof.
  revert i errs m w. induction l as [|c l IH]; intros i errs m w Hi; cbn [dial_loop].
  { assert (∀ n, 0 = i → n = i + 0 → n = 0) by lia.
    destruct errs as [|e errs]; exists [], [], []; (split_and!; [done|constructor| |done|]);
      simpl in *; rewrite ?app_nil_r; auto; lia. }
  destruct (ctx_err env w) as [x|] eqn:Ectx.
  { exists [], (c :: l), []. split_and!; [done|constructor|simpl; lia|done|]. eauto. }
  destruct (dial env w _ _) as [r1 w1] eqn:Ed. destruct r1 as [conn|e].
  { exists [], c, l, [], w. split_and!; [done|constructor|done|done|simpl; lia|done]. }
  specialize (IH (S i) (errs ++ [(Some (candidate_address port c), e)])
    ((λ m, record m false egress) <$> m) w1).
  rewrite length_app, Nat.add_comm in IH. specialize (IH ltac:(simpl; lia)).
  destruct (dial_loop env port egress l (S i) (S i) _ _ w1) as [[[r n] m'] w'].
  destruct r as [conn|e'].
  - destruct IH as (pre&c'&post&es&w2&->&Hf&Hc&Hd&->&->).
    exists (c :: pre), c', post, ((Some (candidate_address port c), e) :: es), w2.
    split_and!; [done|by econstructor|done|done|simpl; lia|].
    cbn [length]. by rewrite record_failures_S.
  - destruct IH as (pre&post&es&->&Hf&->&->&He).
    exists (c :: pre), post, ((Some (candidate_address port c), e) :: es).
    split_and!; [done|by econstructor|simpl; lia|cbn [length]; by rewrite record_failures_S|].
    rewrite <-app_assoc in He. simpl in He. destruct post; [done|].
    destruct He as (x&?&->). exists x. split; [done|]. by rewrite <-app_assoc.
Qed.
End dial_spec.

(** ** Metrics *)
Definition other_keys : gset string :=
  {[ "success|marked|other"; "failure|marked|other"; "success|direct|other"; "failure|direct|other" ]}.

(** The key that [record] counts under. *)
Definition counted_key (m : ConnectMetrics) (success : bool) (egress : string) : string :=
  let egress := if bool_decide (egress = "") then DirectEgress else egress in
  let key := metric_key success egress in
  match m !! key with
  | Some _ => key
  | None => if 64 <=? size m
            then (if success then "success" else "failure") +:+ "|" +:+ egress_class egress +:+ "|other"
            else key
  end.

Lemma record_counted m success egress :
  record m success egress =
  <[counted_key m success egress :=
      wrap64 (default 0%Z (m !! counted_key m success egress) + 1)]> m.
Proof. done. Qed.

Lemma counted_key_new m success egress :
  m !! counted_key m success egress = None →
  size m < 64 ∨ counted_key m success egress ∈ other_keys.
Proof.
  unfold counted_key. set (eg := if bool_decide (egress = "") then _ else _).
  destruct (m !! metric_key success eg) eqn:E; [by rewrite E|].
  destruct (Nat.leb_spec 64 (size m)); [|by left]. intros _. right.
  unfold egress_class. case_bool_decide; destruct success; vm_compute; done.
Qed.

Definition metrics_sum (m : ConnectMetrics) : Z := map_fold (λ _ v acc, v + acc)%Z 0%Z m.

Lemma metrics_sum_insert_new m k v :
  m !! k = None → metrics_sum (<[k := v]> m) = (v + metrics_sum m)%Z.
Proof.
  intros Hk. unfold metrics_sum. rewrite map_fold_insert_L; [done| |done]. intros; lia.
Qed.

Lemma metrics_sum_insert m k v :
  metrics_sum (<[k := v]> m) = (v - default 0 (m !! k) + metrics_sum m)%Z.
Proof.
  destruct (m !! k) as [x|] eqn:E; simpl.
  - rewrite <-(insert_delete_id m k x E) at 2. rewrite <-insert_delete_eq.
    rewrite !metrics_sum_insert_new by apply lookup_delete_eq. lia.
  - rewrite metrics_sum_insert_new by done. lia.
Qed.

Definition record_events (evs : list (bool * string)) : ConnectMetrics :=
  foldl (λ m e, record m e.1 e.2) ∅ evs.

Definition metrics_inv (evs : list (bool * string)) (m : ConnectMetrics) : Prop :=
  size (dom m ∖ other_keys) ≤ 64 ∧ metrics_sum m = Z.of_nat (length evs) ∧
  map_Forall (λ _ v, 0 ≤ v ≤ Z.of_nat (length evs))%Z m.

Lemma record_inv evs m success egress :
  metrics_inv evs m → (Z.of_nat (length evs) + 1 < 2 ^ 64)%Z →
  metrics_inv (evs ++ [(success, egress)]) (record m success egress).
Proof.
  intros (Hsz&Hsum&Hall) Hlt. rewrite record_counted.
  pose proof (counted_key_new m success egress) as Hnew. set (k := counted_key m success egress) in *.
  assert (0 ≤ default 0%Z (m !! k) ≤ Z.of_nat (length evs))%Z as Hv.
  { destruct (m !! k) as [v|] eqn:E; simpl; [by apply (Hall k v)|lia]. }
  unfold wrap64. rewrite Z.mod_small by lia. unfold metrics_inv. rewrite length_app. simpl.
  split_and!.
  - rewrite dom_insert_L. destruct (m !! k) as [v|] eqn:E.
    { assert (k ∈ dom m) by (by apply elem_of_dom_2 in E).
      by replace ({[k]} ∪ dom m) with (dom m) by set_solver. }
    destruct (Hnew eq_refl) as [Hs|Hk].
    + etrans; [apply subseteq_size, subseteq_difference_l; reflexivity|].
      rewrite size_union_alt. rewrite size_singleton. 
      pose proof (subseteq_size (dom m ∖ {[k]}) (dom m) ltac:(set_solver)).
      rewrite size_dom in *. lia.
    + by replace (({[k]} ∪ dom m) ∖ other_keys) with (dom m ∖ other_keys) by set_solver.
  - rewrite metrics_sum_insert, Hsum. lia.
  - apply map_Forall_insert_2; [lia|]. eapply map_Forall_impl; [done|]. simpl. intros; lia.
Qed.

Lemma record_events_inv evs :
  (Z.of_nat (length evs) < 2 ^ 64)%Z → metrics_inv evs (record_events evs).
Proof.
  unfold record_events. induction evs as [|[s e] evs IH] using rev_ind; intros Hlen.
  - split_and!; [by vm_compute; lia|done|apply map_Forall_empty].
  - rewrite foldl_snoc, length_app in *. simpl in *. apply record_inv; [apply IH|]; lia.
Qed.

(** ** Properties *)

Lemma Select_in s input allowed a : a ∈ (Select s input allowed).1 → candidate allowed input a.
Proof.
  pose proof (select_loop_inv allowed input) as Hinv. unfold Select.
  destruct (foldl _ _ _) as [[seen v4] v6]. destruct Hinv as (_&_&Hin&_&_).
  destruct (MaxAttempts s <=? 0)%Z; cbn [fst]; [by intros ?%elem_of_nil|].
  intros Ha. apply Hin. eapply elem_of_sublist in Ha; [|apply sublist_take].
  by rewrite order_families_perm, !rotate_perm in Ha.
Qed.

(** Selection.  The result holds only candidates (valid input addresses
    without zone, unmapped and allowed), each once; it has as many as the attempt
    cap permits, so a candidate is dropped only by the cap. *)
Theorem Select_candidates s input allowed :
  let out := (Select s input allowed).1 in
  NoDup out ∧ (∀ a, a ∈ out → candidate allowed input a) ∧
  ∃ all, NoDup all ∧ (∀ a, a ∈ all ↔ candidate allowed input a) ∧
    Z.of_nat (length out) = (0 `max` (MaxAttempts s `min` Z.of_nat (length all)))%Z.
Proof.
  pose proof (select_loop_inv allowed input) as Hinv. unfold Select.
  destruct (foldl _ _ _) as [[seen v4] v6]. destruct Hinv as (Hnd&_&Hin&_&_).
  destruct (Z.leb_spec (MaxAttempts s) 0) as [Hm|Hm].
  { split_and!; [constructor|set_solver|]. exists (v4 ++ v6). split_and!; [done..|]. simpl. lia. }
  cbn [fst]. set (sequence := wrap64 _). set (ord := order_families _ _ _ _).
  assert (ord ≡ₚ v4 ++ v6) as Hperm by (unfold ord; by rewrite order_families_perm, !rotate_perm).
  split_and!.
  - apply (sublist_NoDup _ ord); [|apply sublist_take]. by rewrite Hperm.
  - intros a Ha. apply Hin. rewrite <-Hperm. eapply elem_of_sublist; [done|]. apply sublist_take.
  - exists (v4 ++ v6). split_and!; [done..|]. rewrite length_take, Hperm. lia.
Qed.

(** Rotation.  With IPv4 first and [n] allowed IPv4 candidates, [n] calls in a
    row put every one of them first exactly once, starting from the cursor. *)
Theorem Select_rotates s input allowed :
  (0 < MaxAttempts s)%Z → (0 ≤ cursor s)%Z → Strategy s = IPv4First →
  let '(_, v4, _) := foldl (select_step allowed) (∅, [], []) input in
  v4 ≠ [] → (cursor s + Z.of_nat (length v4) < 2 ^ 64)%Z →
  first_choices (length v4) s input allowed = Some <$> rotate v4 (cursor s) ∧
  first_choices (length v4) s input allowed ≡ₚ Some <$> v4.
Proof.
  intros Hm Hc Hs. destruct (foldl _ _ _) as [[seen v4] v6] eqn:Hf. intros Hne Hlt.
  assert (first_choices (length v4) s input allowed = Some <$> rotate v4 (cursor s)) as ->.
  { rewrite (first_choices_spec _ _ _ _ seen v4 v6); try done; [|by rewrite Hs..].
    apply list_eq. intros j. rewrite !list_lookup_fmap.
    destruct (decide (j < length v4)).
    - rewrite lookup_seq_lt, rotate_lookup by lia. simpl.
      destruct (lookup_lt_is_Some_2 v4 (Z.to_nat ((cursor s + Z.of_nat j) mod Z.of_nat (length v4))))
        as [x ->]; [|done].
      pose proof (Z.mod_pos_bound (cursor s + Z.of_nat j) (Z.of_nat (length v4))). lia.
    - rewrite lookup_seq_ge, lookup_ge_None_2; [done|rewrite rotate_perm; lia|lia]. }
  split; [done|]. by rewrite rotate_perm.
Qed.

Lemma Select_rotates_witness :
  let s := {| Strategy := IPv4First; MaxAttempts := 2; cursor := 1 |} in
  first_choices 3 s [Addr4 1; Addr4 2; Addr4 1; Addr6 9 ""; Addr4 3] None =
  [Some (Addr4 2); Some (Addr4 3); Some (Addr4 1)].
Proof.
  intros s.
  refine (proj1 (Select_rotates s [Addr4 1; Addr4 2; Addr4 1; Addr6 9 ""; Addr4 3] None
    _ _ _ _ _)); done.
Defined.

(** Dial budgets.  However long the attempts take within what they are
    granted, together they never use more than the budget, and when the budget
    has room for the minimum per attempt, no attempt is granted less than an
    even share of it, blackholed candidates before it included. *)
Theorem BudgetSlice_fair budget l left :
  (0 ≤ budget)%Z → attempts_run budget l left →
  (0 ≤ left ≤ budget)%Z ∧
  (minAttemptTimeout * Z.of_nat (length l) ≤ budget →
   Forall (λ gu, budget / Z.of_nat (length l) ≤ gu.1 ∧ gu.1 ≤ budget) l)%Z.
Proof.
  intros Hb Hr. split; [by eapply attempts_run_nonneg|]. intros Hm.
  destruct (decide (l = [])) as [->|Hl]; [constructor|].
  assert (0 < length l) by (destruct l; simpl in *; [done|lia]).
  assert (Forall (λ gu, budget / Z.of_nat (length l) ≤ gu.1)%Z l) as Hlow.
  { eapply attempts_run_share; [done|apply Z.div_le_lower_bound; lia|].
    rewrite Z.mul_comm. apply Z.mul_div_le. lia. }
  assert (Forall (λ gu, gu.1 ≤ budget)%Z l) as Hhigh.
  { clear -Hr Hb. induction Hr as [r|r granted used rest r' -> Hu Hrest IH]; constructor; simpl.
    - destruct (decide (r = 0)%Z) as [->|];
        [done|pose proof (BudgetSlice_spec r (Z.of_nat (S (length rest)))); lia].
    - assert (0 ≤ r - used)%Z as Hnn.
      { destruct (decide (r = 0)%Z) as [->|].
        - change (BudgetSlice 0 (Z.of_nat (S (length rest)))) with 0%Z in Hu. lia.
        - pose proof (BudgetSlice_spec r (Z.of_nat (S (length rest)))). lia. }
      eapply Forall_impl; [by apply IH|]. simpl. lia. }
  by apply Forall_and.
Qed.

Lemma BudgetSlice_fair_witness :
  (0 ≤ 4 * second ≤ 10 * second)%Z.
Proof.
  refine (proj1 (BudgetSlice_fair (10 * second)
    [(5 * second, 5 * second); (5 * second, second)]%Z (4 * second) _ _)); [done|].
  econstructor; [reflexivity|done|]. econstructor; [reflexivity|done|]. constructor.
Defined.

(** Dialling.  At most the cap many candidates are dialled, in order.  A
    connection comes from the first candidate whose dial succeeds after all
    earlier ones failed; an error means every candidate up to the cap failed or
    the caller's context ended, and it joins the errors in order.  The count is
    the number of dials made and every dial is counted in the metrics. *)
Theorem DialCandidates_spec {W Conn E} (env : dial_env W Conn E) cands port cap egress m w :
  (0 < cap)%Z →
  let l := take (Z.to_nat cap) cands in
  let '(r, n, m', w') := DialCandidates (Some env) cands port cap egress m w in
  n ≤ length l ∧
  match r with
  | Ok conn => ∃ pre c post es w1, l = pre ++ c :: post ∧
      fails env port (length l) pre es w w1 ∧ ctx_err env w1 = None ∧
      dial env w1 (attempt_timeout env w1 (length (c :: post))) (candidate_address port c) =
        (Ok conn, w') ∧
      n = S (length pre) ∧
      m' = (λ m, record m true egress) <$> record_failures egress (length pre) m
  | Err e => ∃ pre post es, l = pre ++ post ∧ fails env port (length l) pre es w w' ∧
      n = length pre ∧ m' = record_failures egress (length pre) m ∧
      match post with
      | [] => e = match es with [] => NoDialableAddresses | _ => Joined es end
      | _ => ∃ x, ctx_err env w' = Some x ∧ e = Joined (es ++ [(None, x)])
      end
  end.
Proof.
  intros Hcap l. unfold DialCandidates. rewrite (proj2 (Z.leb_gt _ _)) by lia. fold l.
  pose proof (dial_loop_spec env port egress l 0 [] m w eq_refl) as H.
  destruct (dial_loop _ _ _ _ _ _ _ _ _) as [[[r n] m'] w']. destruct r as [conn|e].
  - destruct H as (pre&c&post&es&w1&Hl&?&?&?&->&?). split.
    + rewrite Hl, length_app. simpl. lia.
    + exists pre, c, post, es, w1. split_and!; [done..|lia|done].
  - destruct H as (pre&post&es&Hl&?&->&?&He). split.
    + rewrite Hl, length_app. simpl. lia.
    + exists pre, post, es. split_and!; [done..|]. destruct post; [by destruct es|done].
Qed.

Lemma DialCandidates_spec_witness :
  let env : dial_env nat string unit :=
    {| ctx_err := λ _, None; deadline := Some 10%Z; now := λ _, 0%Z;
       dial := λ n _ addr, (if n =? 0 then Err () else Ok addr, S n) |} in
  let '(r, n, _, _) := DialCandidates (Some env) [Addr4 1; Addr4 2; Addr4 3] "443" 3 "wg0" None 0 in
  n ≤ 3 ∧ r = Ok "0.0.0.2:443".
Proof.
  intros env.
  pose proof (DialCandidates_spec env [Addr4 1; Addr4 2; Addr4 3] "443" 3 "wg0" None 0 ltac:(done)) as H.
  destruct (DialCandidates _ _ _ _ _ _ _) as [[[r n] m'] w'] eqn:E. vm_compute in E.
  simplify_eq. split; [apply H|reflexivity].
Defined.

(** The connect metrics never hold more than 68 counters, and their sum is
    the number of attempts recorded. *)
Theorem ConnectMetrics_bounded evs :
  (Z.of_nat (length evs) < 2 ^ 64)%Z →
  size (record_events evs) ≤ 68 ∧ metrics_sum (record_events evs) = Z.of_nat (length evs).
Proof.
  intros (Hsz&Hsum&_)%record_events_inv. split; [|done].
  rewrite <-size_dom.
  assert (dom (record_events evs) ⊆ (dom (record_events evs) ∖ other_keys) ∪ other_keys) as Hsub.
  { intros k Hk. destruct (decide (k ∈ other_keys)); set_solver. }
  apply subseteq_size in Hsub. rewrite size_union in Hsub by set_solver.
  assert (size other_keys = 4) by (vm_compute; reflexivity). lia.
Qed.

Lemma ConnectMetrics_bounded_witness :
  metrics_sum (record_events [(true, "wg0"); (false, ""); (true, "wg0")]) = 3%Z.
Proof. apply (ConnectMetrics_bounded [(true, "wg0"); (false, ""); (true, "wg0")]). done. Defined.
