(* ===== verification/Redact.v ===== *)
(** * internal/observability/redaction.go

    The three regular expressions as matchers on bytes, the replacement loop of
    [regexp.ReplaceAll], and the log attributes.  A delimiter of the expressions is an
    ASCII byte, which is never part of another character's encoding, and an expression
    starts with ASCII or with a whole character, so matching bytes finds what matching
    characters finds. *)
From S2P Require Import Prelude.

(** ** Matching *)

(** A match at the start of a text, given the byte before it: the number of bytes and
    what replaces them. *)
Definition matcher : Type := option ascii → string → option (nat * string).
(** [ReplaceAll]: the leftmost matches that do not overlap; none is empty, so the
    length of the text is enough fuel. *)
Fixpoint replace_fuel (n : nat) (m : matcher) (prev : option ascii) (s : string) : string :=
  match n, s with
  | S n, String c rest =>
      match m prev s with
      | Some (k, replacement) => replacement +:+ replace_fuel n m (str_last (str_take k s)) (str_drop k s)
      | None => String c (replace_fuel n m (Some c) rest)
      end
  | _, _ => s
  end.
Definition replace_all (m : matcher) (s : string) : string := replace_fuel (String.length s) m None s.

(** [(?i)]: a letter in either case; [s] and [k] have a third form each, the long s and
    the Kelvin sign. *)
Definition fold_char (c : ascii) (s : string) : option string :=
  match s with
  | EmptyString => None
  | String d rest =>
      if bool_decide (lower_byte d = c) then Some rest
      else if bool_decide (c = "s"%char) && has_prefix (bytes_str [197%N; 191%N]) s then Some (str_drop 2 s)
      else if bool_decide (c = "k"%char) && has_prefix (bytes_str [226%N; 132%N; 170%N]) s then Some (str_drop 3 s)
      else None
  end.
Fixpoint fold_lit (p s : string) : option string :=
  match p with
  | EmptyString => Some s
  | String c p => match fold_char c s with Some rest => fold_lit p rest | None => None end
  end.
Definition lit (p s : string) : option string := if has_prefix p s then Some (str_drop (String.length p) s) else None.
(** The longest run of bytes that satisfy [f]. *)
Fixpoint span (f : ascii → bool) (s : string) : string * string :=
  match s with
  | EmptyString => (EmptyString, EmptyString)
  | String c rest => if f c then let '(run, rest) := span f rest in (String c run, rest) else (EmptyString, s)
  end.
(** One or more of them. *)
Definition span1 (f : ascii → bool) (s : string) : option (string * string) :=
  let '(run, rest) := span f s in if bool_decide (run = "") then None else Some (run, rest).

(** [\s] and [\w]. *)
Definition is_space (c : ascii) : bool := bool_decide (c ∈ [" "; "009"; "010"; "012"; "013"]%char).
Definition is_word (c : ascii) : bool := is_digit c || is_lower c || is_upper c || bool_decide (c = "_"%char).
(** [\b] between the byte before and the text. *)
Definition boundary (prev : option ascii) (s : string) : bool :=
  xorb (match prev with Some c => is_word c | None => false end)
       (match s with String c _ => is_word c | EmptyString => false end).
(** The bytes that were matched when [rest] is what is left of [s]. *)
Definition consumed (s rest : string) : nat := String.length s - String.length rest.

(** ** The expressions *)
Definition redacted : string := "[REDACTED]".

Definition scheme (s : string) : option string :=
  match fold_lit "http" s with
  | None => None
  | Some rest => match fold_char "s" rest with
                 | Some rest' => match lit "://" rest' with Some r => Some r | None => lit "://" rest end
                 | None => lit "://" rest
                 end
  end.
Definition is_user (c : ascii) : bool := negb (bool_decide (c = "/"%char) || bool_decide (c = "@"%char) || is_space c).
Definition credentialURL : matcher := λ _ s,
  match scheme s with
  | None => None
  | Some rest =>
      match span1 is_user rest with
      | Some (_, String "@" rest') =>
          Some (consumed s rest', str_take (consumed s rest) s +:+ redacted +:+ "@")
      | _ => None
      end
  end.

Definition secret_words : list string :=
  ["private_key"; "preshared_key"; "password"; "token"; "authorization"; "ssh_material"].
Definition is_assign (c : ascii) : bool := bool_decide (c = ":"%char) || bool_decide (c = "="%char).
Definition is_secret (c : ascii) : bool := negb (is_space c || bool_decide (c = ","%char) || bool_decide (c = "}"%char)).
(** What follows one of the words. *)
Definition assignment (rest : string) : option string :=
  match (span is_space rest).2 with
  | String c rest => if is_assign c then snd <$> span1 is_secret (span is_space rest).2 else None
  | EmptyString => None
  end.
Definition first_some {A B} (f : A → option B) (l : list A) : option B :=
  foldr (λ a r, match f a with Some b => Some b | None => r end) None l.
(** [strings.IndexAny]. *)
Fixpoint index_any (f : ascii → bool) (s : string) : option nat :=
  match s with EmptyString => None | String c s => if f c then Some 0 else S <$> index_any f s end.
Definition redact_assignment (text : string) : string :=
  match index_any is_assign text with Some i => str_take (S i) text +:+ redacted | None => redacted end.
Definition secretAssignment : matcher := λ prev s,
  if negb (boundary prev s) then None
  else match first_some (λ w, match fold_lit w s with Some rest => assignment rest | None => None end) secret_words with
       | Some rest => Some (consumed s rest, redact_assignment (str_take (consumed s rest) s))
       | None => None
       end.

Definition not_dash (c : ascii) : bool := negb (bool_decide (c = "-"%char)).
(** [-----BEGIN [^-]+-----] and its end. *)
Definition pem_mark (word s : string) : option string :=
  match lit word s with
  | Some rest => match span1 not_dash rest with Some (_, rest) => lit "-----" rest | None => None end
  | None => None
  end.
(** [.*?] and the mark after it: the nearest one. *)
Fixpoint pem_end (s : string) : option string :=
  match pem_mark "-----END " s with
  | Some rest => Some rest
  | None => match s with EmptyString => None | String _ s => pem_end s end
  end.
Definition pemMaterial : matcher := λ _ s,
  match pem_mark "-----BEGIN " s with
  | Some rest => match pem_end rest with Some rest => Some (consumed s rest, redacted) | None => None end
  | None => None
  end.

Definition RedactText (value : string) : string :=
  replace_all pemMaterial (replace_all secretAssignment (replace_all credentialURL value)).

(** ** Log attributes *)
Definition sensitive_fragments : list string :=
  ["private_key"; "preshared"; "password"; "token"; "authorization"; "cookie"; "ssh_material"; "raw_header";
   "config_body"; "sni"; "host"].
Fixpoint dash_to_underscore (s : string) : string :=
  match s with
  | EmptyString => EmptyString
  | String c s => String (if bool_decide (c = "-"%char) then "_"%char else c) (dash_to_underscore s)
  end.
Definition sensitiveKey `{UnicodeTables} (key : string) : bool :=
  let key := to_lower (dash_to_underscore key) in
  existsb (λ fragment, str_contains fragment key) sensitive_fragments ||
  bool_decide (key = "headers") || bool_decide (key = "header").

(** A resolved [slog.Value]: a group, a string, or a value of another kind. *)
Inductive attr := Attr (key : string) (value : attr_value)
with attr_value := Text (s : string) | Group (children : list attr) | Other (v : Z).
Fixpoint redactAttr `{UnicodeTables} (a : attr) : attr :=
  match a with
  | Attr key value =>
      if sensitiveKey key then Attr key (Text redacted)
      else match value with
           | Group children => Attr key (Group (redactAttr <$> children))
           | Text s => Attr key (Text (RedactText s))
           | Other v => Attr key (Other v)
           end
  end.

Definition WithAttrs `{UnicodeTables} (attrs : list attr) : list attr := redactAttr <$> attrs.

Example redact_examples :
  RedactText "dial https://user:pw@host/x token: abc, Password = p" = "dial https://[REDACTED]@host/x token:[REDACTED], Password =[REDACTED]" ∧
  RedactText "mytoken=abc http://@h" = "mytoken=abc http://@h" ∧
  RedactText "k -----BEGIN A-----xyz-----END A----- z" = "k [REDACTED] z" ∧
  RedactText "http://u:p@ss@host" = "http://[REDACTED]@ss@host".
Proof. vm_compute. auto. Qed.

(** ** Credentials have no influence *)



(** The first letter of a scheme. *)
Section first_letter.
Context (hh : ascii) (Hhh : hh = "h"%char ∨ hh = "H"%char).





End first_letter.





(** ** What a log record may not depend on *)




