(* ===== verification/Registry.v ===== *)
(** * internal/observability/registry.go

    The metrics and the operational state behind the management endpoint.  Times are
    nanoseconds, the zero time is [None]; the floating-point type is a parameter of
    which only the operations the code uses are known.  A sum over a Go map is taken
    in the order of the keys. *)
From S2P Require Import Prelude Netip Redact.

(** [float64]: zero, addition, [max(x, 0)], [time.Duration.Seconds] and [%v]. *)
Class Float64 := {
  float64 : Type; f_zero : float64; f_add : float64 → float64 → float64; f_max0 : float64 → float64;
  f_seconds : Z → float64; f_string : float64 → string }.

Section registry.
Context `{Float64}.

(** ** Data *)
Definition allowedComponents : list string :=
  ["config"; "proxy"; "listeners"; "kernel"; "firewall"; "health"; "dns"; "route_source"; "pfsync"; "list_server"; "management"].
Record ComponentState := {
  cs_Ready : bool; cs_Required : bool; cs_Outcome : string; cs_LastChecked : Z; cs_LastSuccess : option Z; cs_LastError : string }.
Record ProxySnapshot := {
  px_Active : Z; px_Accepted : Z; px_Rejected : gmap string Z; px_Completed : gmap string Z;
  px_DurationSeconds : gmap string float64; px_ClientBytes : gmap string Z; px_BackendBytes : gmap string Z;
  px_ConnectAttempts : gmap string Z }.
Record DNSResolution := { dr_Count : Z; dr_DurationSeconds : float64 }.
Record DNSSnapshot := {
  dn_EntriesPositive : Z; dn_EntriesNegative : Z; dn_EvictionsPositive : Z; dn_EvictionsNegative : Z; dn_Pending : Z;
  dn_RejectedPending : Z; dn_Requests : gmap string Z; dn_Resolutions : gmap string DNSResolution }.
Record WGSnapshot := {
  wg_Tunnel : string; wg_Signal : string; wg_HandshakeAge : float64; wg_ReceiveBytes : Z; wg_TransmitBytes : Z }.
Record GroupSnapshot := { gr_Name : string; gr_State : string; gr_Reason : string; gr_ActiveMark : Z }.
Record ProbeSnapshot := {
  pr_Tunnel : string; pr_ObservedAt : option Z; pr_Success : bool; pr_DurationSecond : float64; pr_LastError : string }.
Record RouteSourceSnapshot := {
  so_Name : string; so_LastSuccess : option Z; so_LastOutcome : string; so_PrefixCount : Z; so_LastError : string }.
Record Registry := {
  rg_started : Z; rg_generation : Z; rg_reload : gmap string Z; rg_reloadTime : gmap string float64;
  rg_components : gmap string ComponentState; rg_proxy : ProxySnapshot; rg_dns : DNSSnapshot;
  rg_wg : gmap string WGSnapshot; rg_groups : gmap string GroupSnapshot; rg_probes : gmap string ProbeSnapshot;
  rg_routes : gmap string RouteSourceSnapshot; rg_pfSync : gmap string Z; rg_kernelRepair : gmap string Z;
  rg_kernelDrift : Z; rg_firewallDrift : Z }.

Definition no_proxy : ProxySnapshot :=
  {| px_Active := 0; px_Accepted := 0; px_Rejected := ∅; px_Completed := ∅; px_DurationSeconds := ∅; px_ClientBytes := ∅;
     px_BackendBytes := ∅; px_ConnectAttempts := ∅ |}.
Definition no_dns : DNSSnapshot :=
  {| dn_EntriesPositive := 0; dn_EntriesNegative := 0; dn_EvictionsPositive := 0; dn_EvictionsNegative := 0; dn_Pending := 0;
     dn_RejectedPending := 0; dn_Requests := ∅; dn_Resolutions := ∅ |}.
Definition NewRegistry (now : Z) : Registry :=
  {| rg_started := now; rg_generation := 0; rg_reload := ∅; rg_reloadTime := ∅; rg_components := ∅; rg_proxy := no_proxy;
     rg_dns := no_dns; rg_wg := ∅; rg_groups := ∅; rg_probes := ∅; rg_routes := ∅; rg_pfSync := ∅; rg_kernelRepair := ∅;
     rg_kernelDrift := 0; rg_firewallDrift := 0 |}.

(** ** Bounded labels *)
Definition enum (value : string) (allowed : list string) : string :=
  if bool_decide (value ∈ allowed) then value else "other".
Definition boundedOutcome (value : string) : string :=
  enum value ["success"; "failure"; "completed"; "canceled"; "error"; "ok"; "degraded"; "skipped"; "rejected"].
Definition fixedParts (value : string) (count : nat) : list string :=
  let parts := str_split "|" value in take count (parts ++ replicate (count - length parts) "").
Definition part (value : string) (count i : nat) : string := nth i (fixedParts value count) "".
Definition egress_byte (c : ascii) : bool :=
  is_lower c || is_upper c || is_digit c || bool_decide (c = "-"%char) || bool_decide (c = "_"%char) || bool_decide (c = "."%char).
Definition egressIdentity (value : string) : string :=
  if bool_decide (value = "") then "direct"
  else if 64 <? String.length value then "other"
  else if str_forallb egress_byte value then value else "other".

(** [m[key] += value] for every entry, under the key [f] gives it. *)
Definition bump (m : gmap string Z) (key : string) (n : Z) : gmap string Z :=
  <[key := wrap64 (default 0%Z (m !! key) + n)]> m.
Definition fold_counts (f : string → string) (m : gmap string Z) : gmap string Z :=
  foldl (λ out kv, bump out (f kv.1) kv.2) ∅ (map_to_list m).
Definition sorted_entries {V} (m : gmap string V) : list (string * V) :=
  omap (λ k, (k,.) <$> m !! k) (sorted_set (dom m)).
Definition fold_floats (f : string → string) (m : gmap string float64) : gmap string float64 :=
  foldl (λ out kv, <[f kv.1 := f_add (default f_zero (out !! f kv.1)) kv.2]> out) ∅ (sorted_entries m).

(** ** The setters *)
Definition sessions_outcome (key : string) : string := enum key ["completed"; "canceled"; "error"].
Definition rejected_key (key : string) : string :=
  str_join "|" [enum (part key 3 0) ["tls"; "http"];
    enum (part key 3 1) ["source_denied"; "parse_error"; "destination_denied"; "overload"; "dial_error"];
    enum (part key 3 2) ["loopback"; "non_loopback"]].
Definition attempt_key (key : string) : string :=
  enum (part key 3 0) ["success"; "failure"] +:+ "|" +:+ enum (part key 3 1) ["direct"; "marked"] +:+ "|" +:+ egressIdentity (part key 3 2).
Definition normalizeProxy (value : ProxySnapshot) : ProxySnapshot :=
  {| px_Active := px_Active value; px_Accepted := px_Accepted value;
     px_Rejected := fold_counts rejected_key (px_Rejected value);
     px_Completed := fold_counts sessions_outcome (px_Completed value);
     px_DurationSeconds := fold_floats sessions_outcome (px_DurationSeconds value);
     px_ClientBytes := fold_counts sessions_outcome (px_ClientBytes value);
     px_BackendBytes := fold_counts sessions_outcome (px_BackendBytes value);
     px_ConnectAttempts := fold_counts attempt_key (px_ConnectAttempts value) |}.

Definition request_results : list string := ["hit"; "miss"; "stale"; "negative"; "refresh"; "rejection"].
Definition rcodes : list string := ["positive"; "nxdomain"; "nodata"; "transient"].
Definition add_resolution (out : gmap string DNSResolution) (key : string) (value : DNSResolution) : gmap string DNSResolution :=
  let current := default {| dr_Count := 0; dr_DurationSeconds := f_zero |} (out !! key) in
  <[key := {| dr_Count := wrap64 (dr_Count current + dr_Count value);
              dr_DurationSeconds := f_add (dr_DurationSeconds current) (dr_DurationSeconds value) |}]> out.
Definition fold_resolutions (f : string → string) (m : gmap string DNSResolution) : gmap string DNSResolution :=
  foldl (λ out kv, add_resolution out (f kv.1) kv.2) ∅ (sorted_entries m).
Definition resolution_key (key : string) : string := enum (part key 2 0) rcodes +:+ "|" +:+ egressIdentity (part key 2 1).
Definition normalizeDNS (s : DNSSnapshot) : DNSSnapshot :=
  {| dn_EntriesPositive := dn_EntriesPositive s; dn_EntriesNegative := dn_EntriesNegative s;
     dn_EvictionsPositive := dn_EvictionsPositive s; dn_EvictionsNegative := dn_EvictionsNegative s; dn_Pending := dn_Pending s;
     dn_RejectedPending := dn_RejectedPending s; dn_Requests := fold_counts (λ key, enum key request_results) (dn_Requests s);
     dn_Resolutions := fold_resolutions resolution_key (dn_Resolutions s) |}.

(** One field of the registry replaced. *)
Definition with_components (r : Registry) (v : gmap string ComponentState) : Registry :=
  {| rg_started := rg_started r; rg_generation := rg_generation r; rg_reload := rg_reload r;
     rg_reloadTime := rg_reloadTime r; rg_components := v; rg_proxy := rg_proxy r; rg_dns := rg_dns r; rg_wg := rg_wg r;
     rg_groups := rg_groups r; rg_probes := rg_probes r; rg_routes := rg_routes r; rg_pfSync := rg_pfSync r;
     rg_kernelRepair := rg_kernelRepair r; rg_kernelDrift := rg_kernelDrift r; rg_firewallDrift := rg_firewallDrift r |}.
Definition with_wg (r : Registry) (v : gmap string WGSnapshot) : Registry :=
  {| rg_started := rg_started r; rg_generation := rg_generation r; rg_reload := rg_reload r;
     rg_reloadTime := rg_reloadTime r; rg_components := rg_components r; rg_proxy := rg_proxy r; rg_dns := rg_dns r;
     rg_wg := v; rg_groups := rg_groups r; rg_probes := rg_probes r; rg_routes := rg_routes r; rg_pfSync := rg_pfSync r;
     rg_kernelRepair := rg_kernelRepair r; rg_kernelDrift := rg_kernelDrift r; rg_firewallDrift := rg_firewallDrift r |}.
Definition with_groups (r : Registry) (v : gmap string GroupSnapshot) : Registry :=
  {| rg_started := rg_started r; rg_generation := rg_generation r; rg_reload := rg_reload r;
     rg_reloadTime := rg_reloadTime r; rg_components := rg_components r; rg_proxy := rg_proxy r; rg_dns := rg_dns r;
     rg_wg := rg_wg r; rg_groups := v; rg_probes := rg_probes r; rg_routes := rg_routes r; rg_pfSync := rg_pfSync r;
     rg_kernelRepair := rg_kernelRepair r; rg_kernelDrift := rg_kernelDrift r; rg_firewallDrift := rg_firewallDrift r |}.
Definition with_probes (r : Registry) (v : gmap string ProbeSnapshot) : Registry :=
  {| rg_started := rg_started r; rg_generation := rg_generation r; rg_reload := rg_reload r;
     rg_reloadTime := rg_reloadTime r; rg_components := rg_components r; rg_proxy := rg_proxy r; rg_dns := rg_dns r;
     rg_wg := rg_wg r; rg_groups := rg_groups r; rg_probes := v; rg_routes := rg_routes r; rg_pfSync := rg_pfSync r;
     rg_kernelRepair := rg_kernelRepair r; rg_kernelDrift := rg_kernelDrift r; rg_firewallDrift := rg_firewallDrift r |}.
Definition with_routes (r : Registry) (v : gmap string RouteSourceSnapshot) : Registry :=
  {| rg_started := rg_started r; rg_generation := rg_generation r; rg_reload := rg_reload r;
     rg_reloadTime := rg_reloadTime r; rg_components := rg_components r; rg_proxy := rg_proxy r; rg_dns := rg_dns r;
     rg_wg := rg_wg r; rg_groups := rg_groups r; rg_probes := rg_probes r; rg_routes := v; rg_pfSync := rg_pfSync r;
     rg_kernelRepair := rg_kernelRepair r; rg_kernelDrift := rg_kernelDrift r; rg_firewallDrift := rg_firewallDrift r |}.
Definition with_pfSync (r : Registry) (v : gmap string Z) : Registry :=
  {| rg_started := rg_started r; rg_generation := rg_generation r; rg_reload := rg_reload r;
     rg_reloadTime := rg_reloadTime r; rg_components := rg_components r; rg_proxy := rg_proxy r; rg_dns := rg_dns r;
     rg_wg := rg_wg r; rg_groups := rg_groups r; rg_probes := rg_probes r; rg_routes := rg_routes r; rg_pfSync := v;
     rg_kernelRepair := rg_kernelRepair r; rg_kernelDrift := rg_kernelDrift r; rg_firewallDrift := rg_firewallDrift r |}.
Definition with_kernelRepair (r : Registry) (v : gmap string Z) : Registry :=
  {| rg_started := rg_started r; rg_generation := rg_generation r; rg_reload := rg_reload r;
     rg_reloadTime := rg_reloadTime r; rg_components := rg_components r; rg_proxy := rg_proxy r; rg_dns := rg_dns r;
     rg_wg := rg_wg r; rg_groups := rg_groups r; rg_probes := rg_probes r; rg_routes := rg_routes r;
     rg_pfSync := rg_pfSync r; rg_kernelRepair := v; rg_kernelDrift := rg_kernelDrift r;
     rg_firewallDrift := rg_firewallDrift r |}.

Definition SetActiveGeneration (r : Registry) (g : Z) : Registry :=
  {| rg_started := rg_started r; rg_generation := g; rg_reload := rg_reload r; rg_reloadTime := rg_reloadTime r;
     rg_components := rg_components r; rg_proxy := rg_proxy r; rg_dns := rg_dns r; rg_wg := rg_wg r;
     rg_groups := rg_groups r; rg_probes := rg_probes r; rg_routes := rg_routes r; rg_pfSync := rg_pfSync r;
     rg_kernelRepair := rg_kernelRepair r; rg_kernelDrift := rg_kernelDrift r; rg_firewallDrift := rg_firewallDrift r |}.
Definition RecordReload (r : Registry) (outcome : string) (duration : Z) : Registry :=
  {| rg_started := rg_started r; rg_generation := rg_generation r;
     rg_reload := bump (rg_reload r) (boundedOutcome outcome) 1;
     rg_reloadTime := <[boundedOutcome outcome := f_add (default f_zero (rg_reloadTime r !! boundedOutcome outcome)) (f_max0 (f_seconds duration))]> (rg_reloadTime r);
     rg_components := rg_components r; rg_proxy := rg_proxy r; rg_dns := rg_dns r; rg_wg := rg_wg r;
     rg_groups := rg_groups r; rg_probes := rg_probes r; rg_routes := rg_routes r; rg_pfSync := rg_pfSync r;
     rg_kernelRepair := rg_kernelRepair r; rg_kernelDrift := rg_kernelDrift r; rg_firewallDrift := rg_firewallDrift r |}.
Definition SetDrift (r : Registry) (kernel firewall : Z) : Registry :=
  {| rg_started := rg_started r; rg_generation := rg_generation r; rg_reload := rg_reload r;
     rg_reloadTime := rg_reloadTime r; rg_components := rg_components r; rg_proxy := rg_proxy r; rg_dns := rg_dns r;
     rg_wg := rg_wg r; rg_groups := rg_groups r; rg_probes := rg_probes r; rg_routes := rg_routes r;
     rg_pfSync := rg_pfSync r; rg_kernelRepair := rg_kernelRepair r; rg_kernelDrift := (kernel `max` 0)%Z;
     rg_firewallDrift := (firewall `max` 0)%Z |}.
Definition SetProxy (r : Registry) (snapshot : ProxySnapshot) : Registry :=
  {| rg_started := rg_started r; rg_generation := rg_generation r; rg_reload := rg_reload r;
     rg_reloadTime := rg_reloadTime r; rg_components := rg_components r; rg_proxy := normalizeProxy snapshot;
     rg_dns := rg_dns r; rg_wg := rg_wg r; rg_groups := rg_groups r; rg_probes := rg_probes r; rg_routes := rg_routes r;
     rg_pfSync := rg_pfSync r; rg_kernelRepair := rg_kernelRepair r; rg_kernelDrift := rg_kernelDrift r;
     rg_firewallDrift := rg_firewallDrift r |}.
Definition SetDNS (r : Registry) (snapshot : DNSSnapshot) : Registry :=
  {| rg_started := rg_started r; rg_generation := rg_generation r; rg_reload := rg_reload r;
     rg_reloadTime := rg_reloadTime r; rg_components := rg_components r; rg_proxy := rg_proxy r;
     rg_dns := normalizeDNS snapshot; rg_wg := rg_wg r; rg_groups := rg_groups r; rg_probes := rg_probes r;
     rg_routes := rg_routes r; rg_pfSync := rg_pfSync r; rg_kernelRepair := rg_kernelRepair r;
     rg_kernelDrift := rg_kernelDrift r; rg_firewallDrift := rg_firewallDrift r |}.
(** [err] is the text of the error. *)
Definition SetComponent (r : Registry) (now : Z) (name : string) (required ready : bool) (outcome : string) (err : option string) : Registry :=
  let name := if bool_decide (name ∈ allowedComponents) then name else "config" in
  let success := match err with None => if ready then Some now else None | Some _ => None end in
  let success := match success, rg_components r !! name with
                 | None, Some previous => cs_LastSuccess previous
                 | _, _ => success
                 end in
  with_components r (<[name := {| cs_Ready := ready; cs_Required := required; cs_Outcome := boundedOutcome outcome; cs_LastChecked := now;
                                  cs_LastSuccess := success; cs_LastError := match err with Some e => RedactText e | None => "" end |}]>
                       (rg_components r)).
Definition SetWG (r : Registry) (snapshots : list WGSnapshot) : Registry :=
  with_wg r (foldl (λ m s, <[wg_Tunnel s := s]> m) ∅ snapshots).
Definition group_states : list string := ["ready"; "degraded"; "failed"].
Definition group_reasons : list string :=
  ["recent_handshake"; "recent_handshake_probe_passing"; "probe_failing_fail_open_recent_handshake"; "no_recent_handshake_fail_open_primary"].
Definition bounded_group (s : GroupSnapshot) : GroupSnapshot :=
  {| gr_Name := gr_Name s; gr_State := enum (gr_State s) group_states; gr_Reason := enum (gr_Reason s) group_reasons;
     gr_ActiveMark := gr_ActiveMark s |}.
Definition SetGroups (r : Registry) (snapshots : list GroupSnapshot) : Registry :=
  with_groups r (foldl (λ m s, <[gr_Name s := bounded_group s]> m) ∅ snapshots).
Definition SetProbe (r : Registry) (s : ProbeSnapshot) : Registry :=
  let tunnel := if bool_decide (pr_Tunnel s = "") then "default" else pr_Tunnel s in
  with_probes r (<[tunnel := {| pr_Tunnel := tunnel; pr_ObservedAt := pr_ObservedAt s; pr_Success := pr_Success s;
                                pr_DurationSecond := pr_DurationSecond s; pr_LastError := RedactText (pr_LastError s) |}]> (rg_probes r)).
(** A source that failed keeps the time and the count of its last success. *)
Definition kept_success (r : Registry) (s : RouteSourceSnapshot) : option Z * Z :=
  match so_LastSuccess s with
  | Some t => (Some t, so_PrefixCount s)
  | None => let old := rg_routes r !! so_Name s in
            (old ≫= so_LastSuccess, if (so_PrefixCount s =? 0)%Z then default 0%Z (so_PrefixCount <$> old) else so_PrefixCount s)
  end.
Definition SetRouteSource (r : Registry) (now : Z) (s : RouteSourceSnapshot) : Registry :=
  if bool_decide (so_Name s = "") then r
  else
    let outcome := boundedOutcome (so_LastOutcome s) in
    let err := RedactText (so_LastError s) in
    let '(success, count) := kept_success r s in
    let r := with_routes r (<[so_Name s := {| so_Name := so_Name s; so_LastSuccess := success; so_LastOutcome := outcome;
                                              so_PrefixCount := count; so_LastError := err |}]> (rg_routes r)) in
    SetComponent r now "route_source" false (bool_decide (outcome = "success")) outcome (if bool_decide (err = "") then None else Some err).
Definition RecordPfSync (r : Registry) (now : Z) (outcome : string) (err : option string) : Registry :=
  let outcome := boundedOutcome outcome in
  let r := with_pfSync r (bump (rg_pfSync r) outcome 1) in
  SetComponent r now "pfsync" false (bool_decide (outcome = "success") || bool_decide (outcome = "skipped")) outcome err.
Definition RecordKernelRepair (r : Registry) (outcome : string) : Registry :=
  with_kernelRepair r (bump (rg_kernelRepair r) (boundedOutcome outcome) 1).

(** ** Reading *)
Definition unready (c : string * ComponentState) : bool := cs_Required c.2 && negb (cs_Ready c.2).
Definition Ready (r : Registry) : bool * list string :=
  let reasons := sort_strings
    ((if (rg_generation r =? 0)%Z then ["no_active_generation"] else []) ++
     ((λ c, c.1 +:+ ":" +:+ cs_Outcome c.2) <$> List.filter unready (map_to_list (rg_components r)))) in
  (bool_decide (reasons = []), reasons).
Record Status := {
  st_Live : bool; st_Ready : bool; st_Reasons : list string; st_Generation : Z; st_StartedAt : Z;
  st_Components : gmap string ComponentState; st_RouteSources : list RouteSourceSnapshot; st_WireGuard : list WGSnapshot;
  st_Groups : list GroupSnapshot; st_ActiveProbes : list ProbeSnapshot }.
Definition values {V} (m : gmap string V) : list V := (map_to_list m).*2.
Definition probed (s : ProbeSnapshot) : bool := bool_decide (is_Some (pr_ObservedAt s)).
Definition status (r : Registry) : Status :=
  {| st_Live := true; st_Ready := (Ready r).1; st_Reasons := (Ready r).2; st_Generation := rg_generation r; st_StartedAt := rg_started r;
     st_Components := rg_components r; st_RouteSources := sort_by so_Name (values (rg_routes r));
     st_WireGuard := sort_by wg_Tunnel (values (rg_wg r)); st_Groups := sort_by gr_Name (values (rg_groups r));
     st_ActiveProbes := sort_by pr_Tunnel (List.filter probed (values (rg_probes r))) |}.

(** ** The exposition *)
Inductive metric_value := VInt (n : Z) | VFloat (f : float64).
(** One call of [metric]; a sample without labels has none, not an empty set. *)
Record sample := { sm_Name : string; sm_Labels : option (list (string * string)); sm_Value : metric_value }.
Definition plain (name : string) (n : Z) : sample := {| sm_Name := name; sm_Labels := None; sm_Value := VInt n |}.
Definition count (name : string) (l : list (string * string)) (n : Z) : sample :=
  {| sm_Name := name; sm_Labels := Some l; sm_Value := VInt n |}.
Definition gauge (name : string) (l : list (string * string)) (f : float64) : sample :=
  {| sm_Name := name; sm_Labels := Some l; sm_Value := VFloat f |}.
Definition quote : ascii := "034".
Definition backslash : ascii := "092".
Fixpoint escape (s : string) : string :=
  match s with
  | EmptyString => EmptyString
  | String c s =>
      if bool_decide (c = backslash) then String backslash (String backslash (escape s))
      else if bool_decide (c = "010"%char) then String backslash (String "n" (escape s))
      else if bool_decide (c = quote) then String backslash (String quote (escape s))
      else String c (escape s)
  end.
Definition label_pair (l : string * string) : string := l.1 +:+ "=" +:+ String quote (escape l.2) +:+ String quote EmptyString.
Definition labels (l : list (string * string)) : string := "{" +:+ str_join "," (label_pair <$> l) +:+ "}".
Definition value_string (v : metric_value) : string := match v with VInt n => itoa n | VFloat f => f_string f end.
Definition metric (s : sample) : string :=
  sm_Name s +:+ match sm_Labels s with Some l => labels l | None => "" end +:+ " " +:+ value_string (sm_Value s) +:+ nl.

(** What the runtime says of the process. *)
Record process := { ps_uptime : Z; ps_goroutines : Z; ps_heap : Z; ps_fds : option Z }.
Definition process_samples (r : Registry) (p : process) : list sample :=
  [plain "sakhtar_wg_active_generation" (rg_generation r);
   {| sm_Name := "sakhtar_wg_process_uptime_seconds"; sm_Labels := None; sm_Value := VFloat (f_seconds (ps_uptime p)) |};
   plain "sakhtar_wg_process_goroutines" (ps_goroutines p); plain "sakhtar_wg_process_heap_bytes" (ps_heap p)] ++
  match ps_fds p with Some n => [plain "sakhtar_wg_process_open_fds" n] | None => [] end.
Definition reload_samples (r : Registry) : list sample :=
  sorted_entries (rg_reload r) ≫= λ kv,
    [count "sakhtar_wg_reload_attempts_total" [("outcome", kv.1)] kv.2;
     gauge "sakhtar_wg_reload_duration_seconds_sum" [("outcome", kv.1)] (default f_zero (rg_reloadTime r !! kv.1))].
Definition of_bool (b : bool) : Z := if b then 1 else 0.
Definition component_samples (r : Registry) : list sample :=
  (λ kv, count "sakhtar_wg_component_ready" [("component", kv.1)] (of_bool (cs_Ready kv.2))) <$> sorted_entries (rg_components r).
Definition rejected_sample (kv : string * Z) : sample :=
  count "sakhtar_wg_proxy_sessions_rejected_total"
    [("protocol", enum (part kv.1 3 0) ["tls"; "http"]);
     ("reason", enum (part kv.1 3 1) ["source_denied"; "parse_error"; "destination_denied"; "overload"; "dial_error"]);
     ("listener_class", enum (part kv.1 3 2) ["loopback"; "non_loopback"])] kv.2.
Definition session_samples (p : ProxySnapshot) : list sample :=
  ["completed"; "canceled"; "error"; "other"] ≫= λ outcome,
    match px_Completed p !! outcome with
    | None => []
    | Some total =>
        let l := [("outcome", outcome)] in
        [count "sakhtar_wg_proxy_sessions_completed_total" l total;
         gauge "sakhtar_wg_proxy_session_duration_seconds_sum" l (default f_zero (px_DurationSeconds p !! outcome));
         count "sakhtar_wg_proxy_client_bytes_total" l (default 0%Z (px_ClientBytes p !! outcome));
         count "sakhtar_wg_proxy_backend_bytes_total" l (default 0%Z (px_BackendBytes p !! outcome))]
    end.
Definition knownEgress (r : Registry) (value : string) : string :=
  if bool_decide (value = "direct") then value else if bool_decide (is_Some (rg_wg r !! value)) then value else "other".
Definition known_attempt (r : Registry) (key : string) : string :=
  part key 3 0 +:+ "|" +:+ part key 3 1 +:+ "|" +:+ knownEgress r (part key 3 2).
Definition attempt_samples (r : Registry) : list sample :=
  (λ kv, count "sakhtar_wg_proxy_backend_connect_attempts_total"
     [("outcome", part kv.1 3 0); ("egress_class", part kv.1 3 1); ("egress", part kv.1 3 2)] kv.2) <$>
  sorted_entries (fold_counts (known_attempt r) (px_ConnectAttempts (rg_proxy r))).
Definition proxy_samples (r : Registry) : list sample :=
  [plain "sakhtar_wg_kernel_drift" (rg_kernelDrift r); plain "sakhtar_wg_firewall_drift" (rg_firewallDrift r);
   plain "sakhtar_wg_proxy_sessions_active" (px_Active (rg_proxy r));
   plain "sakhtar_wg_proxy_sessions_accepted_total" (px_Accepted (rg_proxy r))] ++
  (rejected_sample <$> sorted_entries (px_Rejected (rg_proxy r))) ++ session_samples (rg_proxy r) ++ attempt_samples r.
Definition known_resolution (r : Registry) (key : string) : string :=
  part key 2 0 +:+ "|" +:+ knownEgress r (egressIdentity (part key 2 1)).
Definition resolution_samples (kv : string * DNSResolution) : list sample :=
  let egress := part kv.1 2 1 in
  let l := [("outcome", enum (part kv.1 2 0) rcodes);
            ("egress_class", if bool_decide (egress = "direct") then "direct" else "marked"); ("egress", egress)] in
  [count "sakhtar_wg_dns_resolutions_total" l (dr_Count kv.2);
   gauge "sakhtar_wg_dns_resolution_duration_seconds_sum" l (dr_DurationSeconds kv.2)].
Definition dns_samples (r : Registry) : list sample :=
  let d := rg_dns r in
  [count "sakhtar_wg_dns_cache_entries" [("class", "positive")] (dn_EntriesPositive d);
   count "sakhtar_wg_dns_cache_entries" [("class", "negative")] (dn_EntriesNegative d);
   count "sakhtar_wg_dns_cache_evictions_total" [("class", "positive")] (dn_EvictionsPositive d);
   count "sakhtar_wg_dns_cache_evictions_total" [("class", "negative")] (dn_EvictionsNegative d);
   plain "sakhtar_wg_dns_pending" (dn_Pending d); plain "sakhtar_wg_dns_pending_rejected_total" (dn_RejectedPending d)] ++
  ((λ kv, count "sakhtar_wg_dns_requests_total" [("result", enum kv.1 request_results)] kv.2) <$> sorted_entries (dn_Requests d)) ++
  (sorted_entries (fold_resolutions (known_resolution r) (dn_Resolutions d)) ≫= resolution_samples).
Definition wg_samples (kv : string * WGSnapshot) : list sample :=
  let l := [("tunnel", kv.1)] in
  [gauge "sakhtar_wg_wg_handshake_age_seconds" l (wg_HandshakeAge kv.2); count "sakhtar_wg_wg_receive_bytes" l (wg_ReceiveBytes kv.2);
   count "sakhtar_wg_wg_transmit_bytes" l (wg_TransmitBytes kv.2);
   count "sakhtar_wg_wg_session_recent" [("tunnel", kv.1); ("state", enum (wg_Signal kv.2) ["recent"; "idle_unknown"; "failed"])] 1].
Definition group_sample (kv : string * GroupSnapshot) : sample :=
  count "sakhtar_wg_group_policy_state" [("group", kv.1); ("state", gr_State kv.2); ("reason", gr_Reason kv.2)] 1.
(** [Unix] rounds down. *)
Definition unix (t : Z) : Z := t / second.
Definition probe_samples (kv : string * ProbeSnapshot) : list sample :=
  match pr_ObservedAt kv.2 with
  | None => []
  | Some at_ =>
      let l := [("tunnel", kv.1)] in
      [count "sakhtar_wg_active_probe_success" l (of_bool (pr_Success kv.2));
       gauge "sakhtar_wg_active_probe_duration_seconds" l (pr_DurationSecond kv.2);
       count "sakhtar_wg_active_probe_timestamp_seconds" l (unix at_)]
  end.
Definition source_samples (now : Z) (kv : string * RouteSourceSnapshot) : list sample :=
  let l := [("source", kv.1)] in
  count "sakhtar_wg_route_source_prefixes" l (so_PrefixCount kv.2) ::
  match so_LastSuccess kv.2 with
  | None => []
  | Some t => [count "sakhtar_wg_route_source_last_success_timestamp_seconds" l (unix t);
               gauge "sakhtar_wg_route_source_last_success_age_seconds" l (f_max0 (f_seconds (time_sub now t)))]
  end.
Definition WritePrometheus (r : Registry) (p : process) (now : Z) : list sample :=
  process_samples r p ++ reload_samples r ++ component_samples r ++ proxy_samples r ++ dns_samples r ++
  (sorted_entries (rg_wg r) ≫= wg_samples) ++ (group_sample <$> sorted_entries (rg_groups r)) ++
  (sorted_entries (rg_probes r) ≫= probe_samples) ++ (sorted_entries (rg_routes r) ≫= source_samples now) ++
  ((λ kv, count "sakhtar_wg_pfsync_reconcile_total" [("outcome", kv.1)] kv.2) <$> sorted_entries (rg_pfSync r)) ++
  ((λ kv, count "sakhtar_wg_kernel_repair_total" [("outcome", kv.1)] kv.2) <$> sorted_entries (rg_kernelRepair r)).
Definition exposition (r : Registry) (p : process) (now : Z) : string :=
  foldr (λ s text, metric s +:+ text) "" (WritePrometheus r p now).
Definition SeriesCount (r : Registry) (p : process) (now : Z) : nat :=
  length (List.filter (λ line, negb (bool_decide (line = "")) && negb (has_prefix "#" line)) (str_split "010" (exposition r p now))).
End registry.
