(* ===== verification/RegistrySpec.v ===== *)
(** * Properties of the registry

    Every sample of the exposition is one line whose labels are read back as they were
    put in, no series appears twice, egress labels are bounded, and folding keys keeps
    the totals. *)
From S2P Require Import Prelude Netip ProxyDial Redact Registry.

(** ** Reading labels back

    A reader of the text format: a label name up to [=], a quoted value in which a
    backslash escapes the next byte. *)
Fixpoint read_value (s : string) : option (string * string) :=
  match s with
  | EmptyString => None
  | String c s =>
      if bool_decide (c = quote) then Some (EmptyString, s)
      else if bool_decide (c = backslash) then
        match s with
        | String d s => match read_value s with
                        | Some (v, rest) => Some (String (if bool_decide (d = "n"%char) then "010"%char else d) v, rest)
                        | None => None
                        end
        | EmptyString => None
        end
      else match read_value s with Some (v, rest) => Some (String c v, rest) | None => None end
  end.
Fixpoint read_name (s : string) : option (string * string) :=
  match s with
  | EmptyString => None
  | String c s => if bool_decide (c = "="%char) then Some (EmptyString, s)
                  else match read_name s with Some (n, rest) => Some (String c n, rest) | None => None end
  end.
(** The pairs after the brace; each takes at least two bytes, so the length is enough. *)
Fixpoint read_pairs (n : nat) (s : string) : option (list (string * string) * string) :=
  match n with
  | O => None
  | S n =>
      match read_name s with
      | Some (name, String q s) =>
          if negb (bool_decide (q = quote)) then None
          else match read_value s with
               | Some (v, String "," s) =>
                   match read_pairs n s with Some (l, rest) => Some ((name, v) :: l, rest) | None => None end
               | Some (v, String "}" s) => Some ([(name, v)], s)
               | _ => None
               end
      | _ => None
      end
  end.
Definition read_labels (s : string) : option (list (string * string) * string) :=
  match s with
  | String "{" (String "}" s) => Some ([], s)
  | String "{" s => read_pairs (String.length s) s
  | _ => None
  end.

Lemma read_value_escape v rest : read_value (escape v +:+ String quote rest) = Some (v, rest).
Proof.
  induction v as [|c v IH]; [done|]. cbn [escape]. repeat case_bool_decide; subst; rewrite !str_app_cons; cbn [read_value].
  - by rewrite IH.
  - by rewrite IH.
  - by rewrite IH.
  - rewrite !bool_decide_false by done. by rewrite IH.
Qed.
Lemma read_name_free n rest : str_free "=" n → read_name (n +:+ String "=" rest) = Some (n, rest).
Proof.
  induction n as [|c n IH]; [done|]. intros [Hc Hn]%str_free_cons. rewrite str_app_cons. cbn [read_name].
  rewrite bool_decide_false by done. by rewrite IH.
Qed.
Lemma read_pairs_join l n rest : l ≠ [] → Forall (str_free "=") l.*1 → length l ≤ n →
  read_pairs n (str_join "," (label_pair <$> l) +:+ "}" +:+ rest) = Some (l, rest).
Proof.
  revert n. induction l as [|[k v] l IH]; [done|]. intros n _ [Hk Hl]%Forall_cons Hn.
  destruct n as [|n]; [simpl in Hn; lia|].
  assert (∀ t, label_pair (k, v) +:+ t = k +:+ String "=" (String quote (escape v +:+ String quote t))) as Hp.
  { intros t. unfold label_pair. cbn [fst snd]. by rewrite <-!str_app_assoc, !str_app_cons, !str_app_nil_l. }
  destruct l as [|kv l].
  - cbn [fmap list_fmap str_join]. rewrite Hp. cbn [read_pairs]. rewrite read_name_free by done.
    rewrite bool_decide_true by done. cbn [negb]. by rewrite read_value_escape.
  - cbn [fmap list_fmap]. change (str_join "," (label_pair (k, v) :: label_pair kv :: (label_pair <$> l)))
      with (label_pair (k, v) +:+ "," +:+ str_join "," (label_pair <$> kv :: l)).
    rewrite <-!str_app_assoc, Hp. cbn [read_pairs]. rewrite read_name_free by done.
    rewrite bool_decide_true by done. cbn [negb]. rewrite read_value_escape, str_app_cons, str_app_nil_l.
    rewrite IH; [done|done|done|simpl in *; lia].
Qed.
Definition label_name (n : string) : Prop := n ≠ "" ∧ str_forallb (λ c, is_lower c || bool_decide (c = "_"%char)) n = true.
Lemma label_name_free n c : label_name n → is_lower c = false → c ≠ "_"%char → str_free c n.
Proof. intros [_ Hn] Hc Hu. eapply str_free_bytes; [done|]. cbv beta. by rewrite Hc, bool_decide_false. Qed.
Lemma label_pair_long kv : 1 ≤ String.length (label_pair kv).
Proof. unfold label_pair. rewrite !str_length_app. cbn [String.length]. lia. Qed.
Lemma labels_long l : length l ≤ String.length (str_join "," (label_pair <$> l)).
Proof.
  induction l as [|kv l IH]; [done|]. pose proof (label_pair_long kv). destruct l as [|kv' l]; [done|].
  change (str_join "," (label_pair <$> kv :: kv' :: l)) with (label_pair kv +:+ "," +:+ str_join "," (label_pair <$> kv' :: l)).
  rewrite !str_length_app. cbn [String.length]. simpl in *. lia.
Qed.
Lemma read_labels_back l rest : Forall label_name l.*1 → read_labels (labels l +:+ rest) = Some (l, rest).
Proof.
  intros Hl. unfold labels. rewrite <-!str_app_assoc. destruct l as [|[k v] l]; [by destruct rest|].
  assert (Forall (str_free "=") ((k, v) :: l).*1) as Hf.
  { eapply Forall_impl; [done|]. intros n Hn. by apply label_name_free. }
  assert (∃ c t, str_join "," (label_pair <$> (k, v) :: l) +:+ "}" +:+ rest = String c t ∧ c ≠ "}"%char ∧
    length ((k, v) :: l) ≤ String.length (String c t)) as (c&t&E&Hc&Hlen).
  { apply Forall_cons in Hl as [[Hne Hk] _]. destruct k as [|c k]; [done|]. cbn in Hk. apply andb_true_iff in Hk as [Hk _].
    pose proof (labels_long ((String c k, v) :: l)) as Hlen.
    assert (∃ t, str_join "," (label_pair <$> (String c k, v) :: l) = String c t) as [t Et] by (by destruct l; eexists).
    rewrite Et in *. exists c, (t +:+ "}" +:+ rest). split_and!; [done|by intros ->|].
    cbn [String.length] in *. rewrite str_length_app. lia. }
  rewrite str_app_cons, str_app_nil_l. unfold read_labels. rewrite E.
  rewrite <-(read_pairs_join ((k, v) :: l) (String.length (String c t)) rest), E by done.
  by destruct c as [[] [] [] [] [] [] [] []].
Qed.

(** ** Keys made of parts *)
Lemma str_split_parts c s : Forall (str_free c) (str_split c s).
Proof.
  induction s as [|d s IH]; [by repeat constructor|]. cbn [str_split]. case_decide as Hd; [by constructor|].
  destruct (str_split c s) as [|w ws]; [|apply Forall_cons in IH as [Hw Hws]; constructor; [|done]].
  - repeat constructor; try done. apply str_free_cons. by split.
  - apply str_free_cons. by split.
Qed.
Lemma part_free k n i : str_free "|" (part k n i).
Proof.
  unfold part, fixedParts. destruct (nth_in_or_default i (take n (str_split "|" k ++ replicate (n - length (str_split "|" k)) "")) "") as [Hin| ->]; [|done].
  apply list_elem_of_In, elem_of_take in Hin as (j&Hj&_). apply list_elem_of_lookup_2 in Hj.
  apply elem_of_app in Hj as [Hj|[-> _]%elem_of_replicate]; [|done].
  pose proof (str_split_parts "|" k) as Hf. rewrite Forall_forall in Hf. by apply Hf.
Qed.
Lemma fixedParts3 a b c : str_free "|" a → str_free "|" b → str_free "|" c → fixedParts (a +:+ "|" +:+ b +:+ "|" +:+ c) 3 = [a; b; c].
Proof. intros. unfold fixedParts. by rewrite !str_app_cons, !str_app_nil_l, !str_split_first, str_split_free by done. Qed.
Lemma fixedParts2 a b : str_free "|" a → str_free "|" b → fixedParts (a +:+ "|" +:+ b) 2 = [a; b].
Proof. intros. unfold fixedParts. by rewrite !str_app_cons, !str_app_nil_l, str_split_first, str_split_free by done. Qed.

Section registry_spec.
Context `{Float64}.
Implicit Types (r : Registry) (s : sample).

(** ** Every registry the daemon can build *)
Inductive reached : Registry → Prop :=
| reached_new now : reached (NewRegistry now)
| reached_generation r g : reached r → reached (SetActiveGeneration r g)
| reached_reload r outcome d : reached r → reached (RecordReload r outcome d)
| reached_component r now name required ready outcome err : reached r → reached (SetComponent r now name required ready outcome err)
| reached_drift r k f : reached r → reached (SetDrift r k f)
| reached_proxy r p : reached r → reached (SetProxy r p)
| reached_dns r d : reached r → reached (SetDNS r d)
| reached_wg r l : reached r → reached (SetWG r l)
| reached_groups r l : reached r → reached (SetGroups r l)
| reached_probe r p : reached r → reached (SetProbe r p)
| reached_route r now p : reached r → reached (SetRouteSource r now p)
| reached_pfsync r now outcome err : reached r → reached (RecordPfSync r now outcome err)
| reached_repair r outcome : reached r → reached (RecordKernelRepair r outcome).

(** The keys of the counters are in normal form. *)
Record registry_ok r : Prop := {
  ok_rejected : ∀ k, k ∈ dom (px_Rejected (rg_proxy r)) → ∃ k', k = rejected_key k';
  ok_requests : ∀ k, k ∈ dom (dn_Requests (rg_dns r)) → ∃ k', k = enum k' request_results;
  ok_resolutions : ∀ k, k ∈ dom (dn_Resolutions (rg_dns r)) → ∃ k', k = resolution_key k' }.

Lemma foldl_keys {V W} (f : string → string) (g : gmap string W → string * V → W) (l : list (string * V)) (m : gmap string W) k :
  k ∈ dom (foldl (λ out kv, <[f kv.1 := g out kv]> out) m l) → k ∈ dom m ∨ ∃ k', k' ∈ l.*1 ∧ k = f k'.
Proof.
  revert m. induction l as [|kv l IH]; intros m; cbn [foldl]; [by left|]. intros [Hk|(k'&Hk'&->)]%IH.
  - rewrite dom_insert in Hk. apply elem_of_union in Hk as [->%elem_of_singleton|?]; [|by left].
    right. exists kv.1. split; [left|done].
  - right. exists k'. split; [by right|done].
Qed.
Lemma sorted_entries_keys {V} (m : gmap string V) : (sorted_entries m).*1 = sorted_set (dom m).
Proof.
  unfold sorted_entries. assert (∀ k, k ∈ sorted_set (dom m) → k ∈ dom m) as Hin by (intros k; by rewrite elem_of_sorted_set).
  induction (sorted_set (dom m)) as [|k l IH]; [done|]. cbn [omap list_omap].
  destruct (proj1 (elem_of_dom m k) (Hin k (list_elem_of_here _ _))) as [v ->]. cbn. f_equal. apply IH. intros k' ?. apply Hin. by right.
Qed.
Lemma elem_of_entries {V} (m : gmap string V) k v : (k, v) ∈ sorted_entries m → m !! k = Some v.
Proof.
  unfold sorted_entries. intros (k'&_&E)%list_elem_of_omap. destruct (m !! k') eqn:Em; [|done]. simplify_eq/=. done.
Qed.
Lemma fold_counts_keys f m k : k ∈ dom (fold_counts f m) → ∃ k', k' ∈ dom m ∧ k = f k'.
Proof.
  intros [Hk|(k'&Hk'&->)]%foldl_keys; [by rewrite dom_empty in Hk|]. exists k'. split; [|done].
  apply list_elem_of_fmap in Hk' as ([? v]&->&Hv%elem_of_map_to_list). by eapply elem_of_dom_2.
Qed.
Lemma fold_resolutions_keys f m k : k ∈ dom (fold_resolutions f m) → ∃ k', k' ∈ dom m ∧ k = f k'.
Proof.
  intros [Hk|(k'&Hk'&->)]%foldl_keys; [by rewrite dom_empty in Hk|]. exists k'. split; [|done].
  by rewrite sorted_entries_keys, elem_of_sorted_set in Hk'.
Qed.

Lemma reached_ok r : reached r → registry_ok r.
Proof.
  assert (∀ r r', rg_proxy r' = rg_proxy r → rg_dns r' = rg_dns r → registry_ok r → registry_ok r') as Hsame.
  { intros ? r' Hp Hd [???]. split; by rewrite ?Hp, ?Hd. }
  induction 1 as [| | | | |r p _ IH|r d _ IH| | | |r now p _ IH| |]; try (by eapply Hsame; [..|done]).
  - split; cbn; intros k; by rewrite dom_empty.
  - destruct IH. split; [|done..]. cbn. intros k (k'&_&->)%fold_counts_keys. eauto.
  - destruct IH. split; [done|..]; cbn.
    + intros k (k'&_&->)%fold_counts_keys. eauto.
    + intros k (k'&_&->)%fold_resolutions_keys. eauto.
  - unfold SetRouteSource. case_bool_decide; [done|]. destruct (kept_success r p). by eapply Hsame; [..|done].
Qed.

(** ** No series twice *)
Definition series s : string * option (list (string * string)) := (sm_Name s, sm_Labels s).
Definition first_label s : option string := match sm_Labels s with Some (l :: _) => Some l.2 | _ => None end.

Lemma series_names l : NoDup (sm_Name <$> l) → NoDup (series <$> l).
Proof.
  intros Hn. apply (NoDup_fmap_1 fst). rewrite <-list_fmap_compose. exact Hn.
Qed.
Lemma series_blocks bs Ns : Forall2 (λ b N, NoDup (series <$> b) ∧ Forall (λ s, sm_Name s ∈ N) b) bs Ns → NoDup (concat Ns) →
  NoDup (series <$> concat bs).
Proof.
  induction 1 as [|b N bs Ns [Hb Hn] Hbs IH]; [intros _; constructor|]. cbn [concat]. intros (HN&Hd&HNs)%NoDup_app. rewrite fmap_app. apply NoDup_app.
  split_and!; [done| |by apply IH]. intros x (s&->&Hs)%list_elem_of_fmap (s'&E&Hs')%list_elem_of_fmap.
  rewrite Forall_forall in Hn. apply (Hd (sm_Name s)); [by apply Hn|]. injection E as -> _. clear -Hs' Hbs.
  induction Hbs as [|b N bs Ns [_ Hn] _ IH]; [by apply elem_of_nil in Hs'|]. cbn in *.
  apply elem_of_app in Hs' as [Hs'|Hs']; apply elem_of_app; [left|right; auto]. rewrite Forall_forall in Hn. by apply Hn.
Qed.
(** Blocks with one part per key of a map. *)
Lemma entries_NoDup {V} (m : gmap string V) (f : string * V → list sample) :
  (∀ kv, NoDup (sm_Name <$> f kv)) →
  (∀ kv kv' s s', kv.1 ∈ dom m → kv'.1 ∈ dom m → s ∈ f kv → s' ∈ f kv' → series s = series s' → kv.1 = kv'.1) →
  NoDup (series <$> (sorted_entries m ≫= f)).
Proof.
  intros Hf Hinj. pose proof (sorted_set_NoDup (dom m)) as Hnd. rewrite <-sorted_entries_keys in Hnd.
  assert (∀ kv, kv ∈ sorted_entries m → kv.1 ∈ dom m) as Hdom by (intros [k v] Hk%elem_of_entries; by eapply elem_of_dom_2).
  induction (sorted_entries m) as [|kv l IH]; [constructor|]. csimpl. rewrite fmap_app. cbn in Hnd. apply NoDup_cons in Hnd as [Hk Hnd].
  apply NoDup_app. split_and!; [by apply series_names|..].
  - intros x (s&->&Hs)%list_elem_of_fmap (s'&E&(kv'&Hs'&Hkv')%list_elem_of_bind)%list_elem_of_fmap. apply Hk.
    rewrite (Hinj kv kv' s s'); [by apply list_elem_of_fmap_2|apply Hdom; by left|apply Hdom; by right|done..].
  - apply IH; [done|]. intros kv' ?. apply Hdom. by right.
Qed.
Lemma entries_first {V} (m : gmap string V) (f : string * V → list sample) :
  (∀ kv, NoDup (sm_Name <$> f kv)) → (∀ kv, Forall (λ s, first_label s = Some kv.1) (f kv)) →
  NoDup (series <$> (sorted_entries m ≫= f)).
Proof.
  intros Hf Hl. apply entries_NoDup; [done|]. intros kv kv' s s' _ _ Hs Hs' E. injection E as _ E.
  pose proof (Hl kv) as H1. pose proof (Hl kv') as H2. rewrite Forall_forall in H1, H2.
  specialize (H1 s Hs). specialize (H2 s' Hs'). unfold first_label in *. rewrite E in H1. congruence.
Qed.
Lemma fmap_entries {V} (m : gmap string V) (g : string * V → sample) : g <$> sorted_entries m = sorted_entries m ≫= λ kv, [g kv].
Proof. induction (sorted_entries m) as [|kv l IH]; [done|]. csimpl. by rewrite IH. Qed.

Definition block (b : list sample) (N : list string) : Prop := NoDup (series <$> b) ∧ Forall (λ s, sm_Name s ∈ N) b.
Lemma block_first {V} (m : gmap string V) (f : string * V → list sample) N :
  (∀ kv, NoDup (sm_Name <$> f kv) ∧ Forall (λ s, first_label s = Some kv.1) (f kv) ∧ Forall (λ s, sm_Name s ∈ N) (f kv)) →
  block (sorted_entries m ≫= f) N.
Proof.
  intros Hf. split; [apply entries_first; intros kv; by destruct (Hf kv) as (?&?&_)|].
  apply Forall_bind, Forall_forall. intros kv _. apply Hf.
Qed.
Lemma block_inj {V} (m : gmap string V) (f : string * V → list sample) N :
  (∀ kv, NoDup (sm_Name <$> f kv) ∧ Forall (λ s, sm_Name s ∈ N) (f kv)) →
  (∀ kv kv' s s', kv.1 ∈ dom m → kv'.1 ∈ dom m → s ∈ f kv → s' ∈ f kv' → sm_Labels s = sm_Labels s' → kv.1 = kv'.1) →
  block (sorted_entries m ≫= f) N.
Proof.
  intros Hf Hinj. split.
  - apply entries_NoDup; [intros kv; apply Hf|]. intros kv kv' s s' ???? [= _ E]. eauto.
  - apply Forall_bind, Forall_forall. intros kv _. apply Hf.
Qed.

Lemma enum_idem v l : enum (enum v l) l = enum v l.
Proof.
  unfold enum. destruct (bool_decide (v ∈ l)) eqn:E; [by rewrite E|]. by destruct (bool_decide ("other" ∈ l)).
Qed.
Lemma enum_free c v l : str_free c "other" → Forall (str_free c) l → str_free c (enum v l).
Proof. intros Ho Hl. unfold enum. case_bool_decide as Hv; [|done]. rewrite Forall_forall in Hl. auto. Qed.
Lemma egressIdentity_free v : str_free "|" (egressIdentity v).
Proof.
  unfold egressIdentity. case_bool_decide; [done|]. case_match; [done|]. destruct (str_forallb egress_byte v) eqn:E; [|done].
  by eapply str_free_bytes; [exact E|].
Qed.
Lemma rejected_key_parts k : fixedParts (rejected_key k) 3 =
  [enum (part k 3 0) ["tls"; "http"];
   enum (part k 3 1) ["source_denied"; "parse_error"; "destination_denied"; "overload"; "dial_error"];
   enum (part k 3 2) ["loopback"; "non_loopback"]].
Proof. apply fixedParts3; apply enum_free; by repeat constructor. Qed.
Lemma resolution_key_parts k : fixedParts (resolution_key k) 2 = [enum (part k 2 0) rcodes; egressIdentity (part k 2 1)].
Proof. apply fixedParts2; [apply enum_free; by repeat constructor|apply egressIdentity_free]. Qed.
Lemma knownEgress_free r v : str_free "|" v → str_free "|" (knownEgress r v).
Proof. intros. unfold knownEgress. by repeat case_bool_decide. Qed.
Lemma known_attempt_parts r k : fixedParts (known_attempt r k) 3 = [part k 3 0; part k 3 1; knownEgress r (part k 3 2)].
Proof. apply fixedParts3; [apply part_free..|]. apply knownEgress_free, part_free. Qed.
Lemma known_resolution_parts r k : fixedParts (known_resolution r k) 2 = [part k 2 0; knownEgress r (egressIdentity (part k 2 1))].
Proof. apply fixedParts2; [apply part_free|]. apply knownEgress_free, egressIdentity_free. Qed.

Ltac names := apply (bool_decide_unpack _); vm_compute; exact I.
Ltac in_names := repeat (apply Forall_cons; split); try apply Forall_nil; cbn [sm_Name count gauge plain]; set_solver.
Ltac per_key := split_and!; [names|repeat (apply Forall_cons; split); done|in_names].

Lemma rejected_block r : registry_ok r → block (rejected_sample <$> sorted_entries (px_Rejected (rg_proxy r))) ["sakhtar_wg_proxy_sessions_rejected_total"].
Proof.
  intros [Hr _ _]. rewrite fmap_entries. apply block_inj; [intros kv; split; [names|in_names]|].
  intros [k v] [k' v'] s s' (k1&E)%Hr (k2&E')%Hr -> %list_elem_of_singleton -> %list_elem_of_singleton. cbn [fst] in E, E'. subst k k'.
  unfold rejected_sample, part. cbn [count sm_Labels fst]. rewrite !rejected_key_parts. cbn [nth]. rewrite !enum_idem.
  intros [= E1 E2 E3]. unfold rejected_key. by rewrite E1, E2, E3.
Qed.
Lemma requests_block r : registry_ok r →
  block ((λ kv, count "sakhtar_wg_dns_requests_total" [("result", enum kv.1 request_results)] kv.2) <$> sorted_entries (dn_Requests (rg_dns r)))
    ["sakhtar_wg_dns_requests_total"].
Proof.
  intros [_ Hr _]. rewrite fmap_entries. apply block_inj; [intros kv; split; [names|in_names]|].
  intros [k v] [k' v'] s s' (k1&E)%Hr (k2&E')%Hr -> %list_elem_of_singleton -> %list_elem_of_singleton. cbn [fst] in E, E'. subst k k'.
  cbn [count sm_Labels fst]. rewrite !enum_idem. by intros [= E].
Qed.
Lemma attempts_block r : block (attempt_samples r) ["sakhtar_wg_proxy_backend_connect_attempts_total"].
Proof.
  unfold attempt_samples. rewrite fmap_entries. apply block_inj; [intros kv; split; [names|in_names]|].
  intros [k v] [k' v'] s s' (k1&_&E)%fold_counts_keys (k2&_&E')%fold_counts_keys -> %list_elem_of_singleton -> %list_elem_of_singleton.
  cbn [fst] in E, E'. subst k k'. unfold part. cbn [count sm_Labels fst]. rewrite !known_attempt_parts. cbn [nth].
  intros [= E1 E2 E3]. unfold known_attempt. by rewrite E1, E2, E3.
Qed.
Lemma resolutions_block r : registry_ok r →
  block (sorted_entries (fold_resolutions (known_resolution r) (dn_Resolutions (rg_dns r))) ≫= resolution_samples)
    ["sakhtar_wg_dns_resolutions_total"; "sakhtar_wg_dns_resolution_duration_seconds_sum"].
Proof.
  intros [_ _ Hr]. apply block_inj; [intros kv; split; [names|in_names]|].
  intros [k v] [k' v'] s s' (k1&(k3&->)%Hr&E)%fold_resolutions_keys (k2&(k4&->)%Hr&E')%fold_resolutions_keys Hs Hs' Hl.
  cbn [fst] in E, E'. subst k k'.
  assert (∀ k v s, s ∈ resolution_samples (known_resolution r (resolution_key k), v) → ∃ class,
    sm_Labels s = Some [("outcome", enum (part k 2 0) rcodes); ("egress_class", class);
                        ("egress", knownEgress r (egressIdentity (part (resolution_key k) 2 1)))]) as Hlab.
  { intros k0 v0 s0. unfold resolution_samples, part. cbn [fst]. rewrite !known_resolution_parts. cbn [nth]. unfold part.
    rewrite !resolution_key_parts. cbn [nth]. rewrite !enum_idem.
    intros [-> |[-> |[]%elem_of_nil]%elem_of_cons]%elem_of_cons; cbn [count gauge sm_Labels]; by eexists. }
  destruct (Hlab _ _ _ Hs) as [c E1]. destruct (Hlab _ _ _ Hs') as [c' E2]. rewrite E1, E2 in Hl. injection Hl as El _ Er.
  assert (part (resolution_key k3) 2 0 = part (resolution_key k4) 2 0) as Ep by (unfold part; by rewrite !resolution_key_parts).
  cbn [fst]. unfold known_resolution. by rewrite Er, Ep.
Qed.

Lemma entries_block {V} (m : gmap string V) (g : string * V → sample) n :
  (∀ kv, sm_Name (g kv) = n ∧ first_label (g kv) = Some kv.1) → block (g <$> sorted_entries m) [n].
Proof.
  intros Hg. rewrite fmap_entries. apply block_first. intros kv. destruct (Hg kv) as [Hn Hf].
  split_and!; [apply NoDup_singleton|by apply Forall_singleton|]. apply Forall_singleton. rewrite Hn. by left.
Qed.
Definition blocks r (p : process) (now : Z) : list (list sample) :=
  [process_samples r p; reload_samples r; component_samples r;
   take 4 (proxy_samples r); rejected_sample <$> sorted_entries (px_Rejected (rg_proxy r)); session_samples (rg_proxy r); attempt_samples r;
   take 6 (dns_samples r);
   (λ kv, count "sakhtar_wg_dns_requests_total" [("result", enum kv.1 request_results)] kv.2) <$> sorted_entries (dn_Requests (rg_dns r));
   sorted_entries (fold_resolutions (known_resolution r) (dn_Resolutions (rg_dns r))) ≫= resolution_samples;
   sorted_entries (rg_wg r) ≫= wg_samples; group_sample <$> sorted_entries (rg_groups r);
   sorted_entries (rg_probes r) ≫= probe_samples; sorted_entries (rg_routes r) ≫= source_samples now;
   (λ kv, count "sakhtar_wg_pfsync_reconcile_total" [("outcome", kv.1)] kv.2) <$> sorted_entries (rg_pfSync r);
   (λ kv, count "sakhtar_wg_kernel_repair_total" [("outcome", kv.1)] kv.2) <$> sorted_entries (rg_kernelRepair r)].
Lemma WritePrometheus_blocks r p now : WritePrometheus r p now = concat (blocks r p now).
Proof.
  unfold WritePrometheus, blocks, proxy_samples, dns_samples. cbn [concat take]. cbn [app]. rewrite <-!app_assoc, app_nil_r. done.
Qed.
Definition block_names : list (list string) :=
  [["sakhtar_wg_active_generation"; "sakhtar_wg_process_uptime_seconds"; "sakhtar_wg_process_goroutines"; "sakhtar_wg_process_heap_bytes";
    "sakhtar_wg_process_open_fds"];
   ["sakhtar_wg_reload_attempts_total"; "sakhtar_wg_reload_duration_seconds_sum"]; ["sakhtar_wg_component_ready"];
   ["sakhtar_wg_kernel_drift"; "sakhtar_wg_firewall_drift"; "sakhtar_wg_proxy_sessions_active"; "sakhtar_wg_proxy_sessions_accepted_total"];
   ["sakhtar_wg_proxy_sessions_rejected_total"];
   ["sakhtar_wg_proxy_sessions_completed_total"; "sakhtar_wg_proxy_session_duration_seconds_sum"; "sakhtar_wg_proxy_client_bytes_total";
    "sakhtar_wg_proxy_backend_bytes_total"];
   ["sakhtar_wg_proxy_backend_connect_attempts_total"];
   ["sakhtar_wg_dns_cache_entries"; "sakhtar_wg_dns_cache_evictions_total"; "sakhtar_wg_dns_pending"; "sakhtar_wg_dns_pending_rejected_total"];
   ["sakhtar_wg_dns_requests_total"]; ["sakhtar_wg_dns_resolutions_total"; "sakhtar_wg_dns_resolution_duration_seconds_sum"];
   ["sakhtar_wg_wg_handshake_age_seconds"; "sakhtar_wg_wg_receive_bytes"; "sakhtar_wg_wg_transmit_bytes"; "sakhtar_wg_wg_session_recent"];
   ["sakhtar_wg_group_policy_state"];
   ["sakhtar_wg_active_probe_success"; "sakhtar_wg_active_probe_duration_seconds"; "sakhtar_wg_active_probe_timestamp_seconds"];
   ["sakhtar_wg_route_source_prefixes"; "sakhtar_wg_route_source_last_success_timestamp_seconds"; "sakhtar_wg_route_source_last_success_age_seconds"];
   ["sakhtar_wg_pfsync_reconcile_total"]; ["sakhtar_wg_kernel_repair_total"]].
Lemma sessions_block p : block (session_samples p) (nth 5 block_names []).
Proof.
  unfold session_samples. csimpl.
  destruct (px_Completed p !! "completed"), (px_Completed p !! "canceled"), (px_Completed p !! "error"), (px_Completed p !! "other");
    (split; [names|in_names]).
Qed.
Lemma named_blocks r p now : registry_ok r → Forall2 block (blocks r p now) block_names.
Proof.
  intros Hok. unfold blocks, block_names. repeat apply Forall2_cons_2; [..|constructor]; cbv beta.
  - unfold process_samples. destruct (ps_fds p); (split; [names|in_names]).
  - apply block_first. intros kv. per_key.
  - apply entries_block. done.
  - split; [names|in_names].
  - by apply rejected_block.
  - apply sessions_block.
  - apply attempts_block.
  - split; [names|in_names].
  - by apply requests_block.
  - by apply resolutions_block.
  - apply block_first. intros kv. per_key.
  - by apply entries_block.
  - apply block_first. intros kv. unfold probe_samples. destruct (pr_ObservedAt kv.2); per_key.
  - apply block_first. intros kv. unfold source_samples. destruct (so_LastSuccess kv.2); per_key.
  - by apply entries_block.
  - by apply entries_block.
Qed.
Lemma series_unique r p now : registry_ok r → NoDup (series <$> WritePrometheus r p now).
Proof. intros Hok. rewrite WritePrometheus_blocks. apply (series_blocks _ block_names); [by apply named_blocks|names]. Qed.
Lemma sample_named r p now s : registry_ok r → s ∈ WritePrometheus r p now → sm_Name s ∈ concat block_names.
Proof.
  intros Hok. rewrite WritePrometheus_blocks. generalize (named_blocks r p now Hok). induction 1 as [|b N bs Ns [_ Hb] _ IH]; [by intros ?%elem_of_nil|].
  cbn [concat]. rewrite !elem_of_app. intros [Hs|Hs]; [left|right; by apply IH]. rewrite Forall_forall in Hb. by apply Hb.
Qed.

(** ** One line per sample *)
Definition name_byte (c : ascii) : bool := is_lower c || bool_decide (c = "_"%char).
Definition proper s : bool :=
  has_prefix "sakhtar_wg_" (sm_Name s) && str_forallb name_byte (sm_Name s) &&
  match sm_Labels s with
  | Some l => forallb (λ kv, negb (bool_decide (kv.1 = "")) && str_forallb name_byte kv.1) l
  | None => true
  end.
Definition no_egress s : bool :=
  match sm_Labels s with Some l => forallb (λ kv, negb (bool_decide (kv.1 = "egress"))) l | None => true end.
Definition resolutions r : list sample :=
  sorted_entries (fold_resolutions (known_resolution r) (dn_Resolutions (rg_dns r))) ≫= resolution_samples.
Lemma Forall_entries {V} (P : sample → Prop) (m : gmap string V) (f : string * V → list sample) :
  (∀ kv, Forall P (f kv)) → Forall P (sorted_entries m ≫= f).
Proof. intros Hf. apply Forall_bind, Forall_forall. intros kv _. apply Hf. Qed.
Lemma Forall_entry {V} (P : sample → Prop) (m : gmap string V) (f : string * V → sample) :
  (∀ kv, P (f kv)) → Forall P (f <$> sorted_entries m).
Proof. intros Hf. apply Forall_fmap, Forall_forall. intros kv _. apply Hf. Qed.
(** Names and label names are constants; only the two kinds of per-egress samples have
    an egress label. *)
Lemma all_samples (P : sample → Prop) r p now : (∀ s, proper s && no_egress s = true → P s) →
  Forall P (attempt_samples r) → Forall P (resolutions r) → Forall P (WritePrometheus r p now).
Proof.
  intros HP Ha Hr. assert (∀ l, forallb (λ s, proper s && no_egress s) l = true → Forall P l) as HF.
  { intros l. rewrite forallb_forall. intros Hl. apply Forall_forall. intros s Hs%list_elem_of_In. auto. }
  rewrite WritePrometheus_blocks, Forall_concat. unfold blocks.
  rewrite !Forall_cons. split_and!; [| | | | | | | | | | | | | | | |by apply Forall_nil]; try done.
  - apply HF. unfold process_samples. by destruct (ps_fds p).
  - apply Forall_entries. intros kv. by apply HF.
  - apply Forall_entry. intros kv. by apply HP.
  - by apply HF.
  - apply Forall_entry. intros kv. by apply HP.
  - apply HF. unfold session_samples. csimpl.
    by destruct (px_Completed (rg_proxy r) !! "completed"), (px_Completed (rg_proxy r) !! "canceled"),
      (px_Completed (rg_proxy r) !! "error"), (px_Completed (rg_proxy r) !! "other").
  - by apply HF.
  - apply Forall_entry. intros kv. by apply HP.
  - apply Forall_entries. intros kv. by apply HF.
  - apply Forall_entry. intros kv. by apply HP.
  - apply Forall_entries. intros kv. apply HF. unfold probe_samples. by case_match.
  - apply Forall_entries. intros kv. apply HF. unfold source_samples. by case_match.
  - apply Forall_entry. intros kv. by apply HP.
  - apply Forall_entry. intros kv. by apply HP.
Qed.
Lemma proper_blocks r p now : Forall (λ s, proper s = true) (WritePrometheus r p now).
Proof.
  apply all_samples; [by intros s [? _]%andb_true_iff|by apply Forall_entry|].
  apply Forall_entries. intros kv. repeat (apply Forall_cons; split; [done|]). by apply Forall_nil.
Qed.
Definition egress_known r s : Prop := ∀ l v, sm_Labels s = Some l → ("egress", v) ∈ l → v = "direct" ∨ v = "other" ∨ v ∈ dom (rg_wg r).
Lemma knownEgress_known r v : knownEgress r v = "direct" ∨ knownEgress r v = "other" ∨ knownEgress r v ∈ dom (rg_wg r).
Proof. unfold knownEgress. repeat case_bool_decide; [auto| |auto]. right. right. by apply elem_of_dom. Qed.
Lemma egress_bounded r p now : Forall (egress_known r) (WritePrometheus r p now).
Proof.
  apply all_samples.
  - intros s [_ Hn]%andb_true_iff l v E Hv. unfold no_egress in Hn. rewrite E, forallb_forall in Hn.
    by specialize (Hn _ (proj1 (list_elem_of_In _ _) Hv)).
  - apply Forall_fmap, Forall_forall. intros [k n] Hk l v [= <-] Hv. apply elem_of_entries, elem_of_dom_2, fold_counts_keys in Hk as (k'&_&->).
    cbn [fst] in Hv. unfold part in Hv. rewrite !known_attempt_parts in Hv. cbn [nth] in Hv.
    repeat (apply elem_of_cons in Hv as [[= ?]|Hv]); [|by apply elem_of_nil in Hv]. subst. apply knownEgress_known.
  - apply Forall_bind, Forall_forall. intros [k n] Hk. apply elem_of_entries, elem_of_dom_2, fold_resolutions_keys in Hk as (k'&_&->).
    assert (∀ s, s ∈ resolution_samples (known_resolution r k', n) → egress_known r s) as Hs; [|apply Forall_forall; apply Hs].
    intros s Hs l v El Hv. assert (("egress", v) ∈ [("outcome", enum (part (known_resolution r k') 2 0) rcodes);
      ("egress_class", if bool_decide (part (known_resolution r k') 2 1 = "direct") then "direct" else "marked");
      ("egress", part (known_resolution r k') 2 1)]) as Hin
      by (apply elem_of_cons in Hs as [-> |[-> |[]%elem_of_nil]%elem_of_cons]; by injection El as <-).
    repeat (apply elem_of_cons in Hin as [[= ?]|Hin]); [|by apply elem_of_nil in Hin]. subst.
    unfold part. rewrite known_resolution_parts. cbn [nth]. apply knownEgress_known.
Qed.

(** The line of a sample, without the newline. *)
Definition line s : string :=
  sm_Name s +:+ match sm_Labels s with Some l => labels l | None => "" end +:+ " " +:+ value_string (sm_Value s).
Lemma escape_free v : str_free "010" (escape v).
Proof.
  induction v as [|c v IH]; [done|]. cbn [escape]. repeat case_bool_decide; subst; repeat (apply str_free_cons; split); done.
Qed.
Lemma labels_free l : Forall (str_free "010") l.*1 → str_free "010" (labels l).
Proof.
  intros Hl. unfold labels. rewrite !str_free_app. split_and!; [done| |done].
  induction l as [|[k v] l IH]; [done|]. apply Forall_cons in Hl as [Hk Hl].
  assert (str_free "010" (label_pair (k, v))) as Hp.
  { unfold label_pair. rewrite str_free_app. split; [done|]. rewrite str_free_app. split; [done|].
    apply str_free_cons. split; [done|]. rewrite str_free_app. split; [apply escape_free|done]. }
  destruct l as [|kv l]; [done|]. change (str_free "010" (label_pair (k, v) +:+ "," +:+ str_join "," (label_pair <$> kv :: l))).
  rewrite !str_free_app. split_and!; [done|done|by apply IH].
Qed.
Lemma proper_labels s l : proper s = true → sm_Labels s = Some l → Forall label_name l.*1.
Proof.
  unfold proper. intros [_ Hl]%andb_true_iff E. rewrite E in Hl. apply Forall_fmap, Forall_forall. intros kv Hkv.
  rewrite forallb_forall in Hl. specialize (Hl kv (proj1 (list_elem_of_In _ _) Hkv)). apply andb_true_iff in Hl as [Hn Hb].
  split; [|done]. intros E0. by rewrite bool_decide_true in Hn.
Qed.
Lemma line_proper s : (∀ f, str_free "010" (f_string f)) → proper s = true →
  str_free "010" (line s) ∧ ∃ t, line s = String "s" t.
Proof.
  intros Hf Hp. pose proof Hp as Hp'. unfold proper in Hp'. apply andb_true_iff in Hp' as [[Hpre Hn]%andb_true_iff _]. split.
  - unfold line. rewrite !str_free_app. split_and!; [by eapply str_free_bytes| |done|].
    + destruct (sm_Labels s) as [l|] eqn:E; [|done]. apply labels_free. eapply Forall_impl; [by eapply proper_labels|].
      intros n Hl. by apply label_name_free.
    + destruct (sm_Value s); [by apply itoa_free|apply Hf].
  - unfold line, has_prefix in *. destruct (sm_Name s) as [|c n]; [done|]. cbn [String.prefix] in Hpre. destruct (Ascii.ascii_dec "s" c) as [<-|]; [|done].
    by eexists.
Qed.
Lemma exposition_lines r p now : (∀ f, str_free "010" (f_string f)) →
  str_split "010" (exposition r p now) = (line <$> WritePrometheus r p now) ++ [""].
Proof.
  intros Hf. unfold exposition. pose proof (proper_blocks r p now) as Hp.
  induction Hp as [|s l Hs _ IH]; [done|]. cbn [foldr fmap list_fmap app]. rewrite <-IH.
  rewrite <-str_split_first by (by apply line_proper). f_equal. unfold metric, line, nl. by rewrite <-!str_app_assoc.
Qed.
Lemma series_count r p now : (∀ f, str_free "010" (f_string f)) → SeriesCount r p now = length (WritePrometheus r p now).
Proof.
  intros Hf. unfold SeriesCount. rewrite exposition_lines by done. rewrite List.filter_app, length_app. set (f := λ line, _).
  assert (∀ l, Forall (λ s, proper s = true) l → length (List.filter f (line <$> l)) = length l) as Hl.
  { induction 1 as [|s l Hs _ IH]; [done|]. cbn [fmap list_fmap List.filter]. destruct (line_proper s Hf Hs) as [_ [t ->]].
    cbn [length]. rewrite <-IH. done. }
  rewrite Hl by apply proper_blocks. replace (List.filter f [""]) with (@nil string) by done. apply Nat.add_0_r.
Qed.

(** ** Totals *)
Lemma foldl_bump f (l : list (string * Z)) m :
  wrap64 (metrics_sum (foldl (λ out kv, bump out (f kv.1) kv.2) m l)) = wrap64 (metrics_sum m + foldr (λ kv acc, kv.2 + acc) 0 l)%Z.
Proof.
  revert m. induction l as [|[k n] l IH]; intros m; cbn [foldl foldr snd fst]; [by rewrite Z.add_0_r|]. rewrite IH.
  unfold bump. rewrite metrics_sum_insert. set (d := default 0%Z (m !! f k)). set (S := metrics_sum m). set (R := foldr _ _ l).
  replace (wrap64 (d + n) - d + S + R)%Z with (wrap64 (d + n) + (S + R - d))%Z by lia. rewrite wrap64_add_l. f_equal. lia.
Qed.
Lemma metrics_sum_list m : metrics_sum m = foldr (λ kv acc, kv.2 + acc)%Z 0%Z (map_to_list m).
Proof. unfold metrics_sum. rewrite map_fold_foldr. induction (map_to_list m) as [|[k v] l IH]; [done|]. cbn. by rewrite IH. Qed.
Lemma fold_counts_total f m : wrap64 (metrics_sum (fold_counts f m)) = wrap64 (metrics_sum m).
Proof. unfold fold_counts. rewrite foldl_bump, (metrics_sum_list m). done. Qed.
Definition samples_total (l : list sample) : Z :=
  foldr (λ s acc, match sm_Value s with VInt n => n | VFloat _ => 0 end + acc)%Z 0%Z l.
Lemma entries_total m (g : string * Z → sample) : (∀ kv, sm_Value (g kv) = VInt kv.2) → samples_total (g <$> sorted_entries m) = metrics_sum m.
Proof.
  intros Hg. rewrite metrics_sum_list. assert (sorted_entries m ≡ₚ map_to_list m) as Hp.
  { apply NoDup_Permutation; [apply (NoDup_fmap_1 fst); rewrite sorted_entries_keys; apply sorted_set_NoDup|apply NoDup_map_to_list|].
    intros [k v]. rewrite elem_of_map_to_list. split; [apply elem_of_entries|]. intros E. unfold sorted_entries.
    apply list_elem_of_omap. exists k. rewrite elem_of_sorted_set, E. split; [by eapply elem_of_dom_2|done]. }
  assert (∀ l, samples_total (g <$> l) = foldr (λ kv acc, kv.2 + acc)%Z 0%Z l) as ->.
  { induction l as [|kv l IH]; [done|]. cbn [fmap list_fmap foldr]. unfold samples_total in *. cbn [foldr]. by rewrite Hg, IH. }
  induction Hp as [|x l l' _ IH|x y l|l1 l2 l3 _ IH1 _ IH2]; cbn [foldr]; lia.
Qed.

(** No session, byte or connect attempt is lost on the way to the exposition.
    Whatever keys reach the registry, folding them into the bounded labels keeps the
    total of every counter, and so do the connect attempts written per egress. *)
Theorem proxy_totals r (x : ProxySnapshot) : let r' := SetProxy r x in
  wrap64 (metrics_sum (px_Rejected (rg_proxy r'))) = wrap64 (metrics_sum (px_Rejected x)) ∧
  wrap64 (metrics_sum (px_Completed (rg_proxy r'))) = wrap64 (metrics_sum (px_Completed x)) ∧
  wrap64 (metrics_sum (px_ClientBytes (rg_proxy r'))) = wrap64 (metrics_sum (px_ClientBytes x)) ∧
  wrap64 (metrics_sum (px_BackendBytes (rg_proxy r'))) = wrap64 (metrics_sum (px_BackendBytes x)) ∧
  wrap64 (samples_total (attempt_samples r')) = wrap64 (metrics_sum (px_ConnectAttempts x)).
Proof.
  cbn [rg_proxy SetProxy normalizeProxy px_Rejected px_Completed px_ClientBytes px_BackendBytes].
  split_and!; try apply fold_counts_total. unfold attempt_samples. rewrite entries_total by done.
  rewrite fold_counts_total. apply fold_counts_total.
Qed.

(** C32: the exposition is well-formed.  In every registry the daemon can build no series
    is written twice, whatever names tunnels, sources and groups have; the text is one
    line per sample, so no label value can add a line or a series; and an egress label
    is a reported tunnel, direct or other. *)
Theorem exposition_sound r p now : reached r → (∀ f, str_free "010" (f_string f)) →
  NoDup (series <$> WritePrometheus r p now) ∧
  str_split "010" (exposition r p now) = (line <$> WritePrometheus r p now) ++ [""] ∧
  SeriesCount r p now = length (WritePrometheus r p now) ∧
  Forall (egress_known r) (WritePrometheus r p now).
Proof.
  intros Hr Hf. split_and!; [by apply series_unique, reached_ok|by apply exposition_lines|by apply series_count|apply egress_bounded].
Qed.

(** The labels of every sample are read back from the text as they were put in:
    the escaping of names is undone by a reader of the format. *)
Theorem labels_roundtrip r p now :
  Forall (λ s, ∀ l rest, sm_Labels s = Some l → read_labels (labels l +:+ rest) = Some (l, rest)) (WritePrometheus r p now).
Proof.
  eapply Forall_impl; [apply proper_blocks|]. intros s Hs l rest El. apply read_labels_back. exact (proper_labels s l Hs El).
Qed.
End registry_spec.

(** ** A registry with an awkward tunnel name *)
Module RegistryDemo.
#[local] Instance whole : Float64 :=
  {| float64 := Z; f_zero := 0%Z; f_add := Z.add; f_max0 := Z.max 0%Z; f_seconds := λ d, (d / second)%Z; f_string := itoa |}.
Definition awkward : string := String "w" (String quote (String "010" "x")).
Definition seen : Registry :=
  SetProxy (SetWG (NewRegistry 0)
    [{| wg_Tunnel := awkward; wg_Signal := "recent"; wg_HandshakeAge := 3%Z; wg_ReceiveBytes := 5; wg_TransmitBytes := 7 |};
     {| wg_Tunnel := "wg1"; wg_Signal := "odd"; wg_HandshakeAge := 3%Z; wg_ReceiveBytes := 5; wg_TransmitBytes := 7 |}])
    {| px_Active := 1; px_Accepted := 4; px_Rejected := {["tls|overload|loopback" := 2; "x" := 1]}%Z; px_Completed := {["completed" := 1]}%Z;
       px_DurationSeconds := ∅; px_ClientBytes := ∅; px_BackendBytes := ∅;
       px_ConnectAttempts := {["success|marked|wg1" := 3; "success|marked|gone" := 1; "success|marked|lost" := 1]}%Z |}.
Definition proc : process := {| ps_uptime := 9; ps_goroutines := 3; ps_heap := 100; ps_fds := None |}.
Lemma exposition_sound_witness : SeriesCount seen proc 0 = 30 ∧ NoDup (series <$> WritePrometheus seen proc 0).
Proof.
  destruct (exposition_sound seen proc 0) as (Hn&_&Hc&_).
  - apply reached_proxy, reached_wg, reached_new.
  - intros f. by apply itoa_free.
  - split; [|exact Hn]. rewrite Hc. vm_compute. reflexivity.
Defined.
Example attempts_folded : line <$> attempt_samples seen =
  ["sakhtar_wg_proxy_backend_connect_attempts_total" +:+ labels [("outcome", "success"); ("egress_class", "marked"); ("egress", "other")] +:+ " 2";
   "sakhtar_wg_proxy_backend_connect_attempts_total" +:+ labels [("outcome", "success"); ("egress_class", "marked"); ("egress", "wg1")] +:+ " 3"].
Proof. vm_compute. reflexivity. Qed.
End RegistryDemo.
