(* ===== verification/Loadgen.v ===== *)
(** * cmd/loadgen: the load generator

    The checks of its options, the two fixtures down to their bytes, the outcome of a
    connection, the summary, the reading of a scrape and the comparison of two.  Sockets,
    timers and signals are what the environment answers; percentiles of floats, the
    scraping request, the reload it triggers and the JSON report are left out.
    [crypto/sha256] is modelled because the fixture contains a digest.
    [rejections_unseen] shows that the comparison never reports a rejection of the daemon:
    it sums a name that the registry does not export. *)
From S2P Require Import Prelude Netip ProxyDial Redact Registry RegistrySpec.

(** ** crypto/sha256 *)
Module Sha256.
Definition K : list Z :=
  [1116352408; 1899447441; 3049323471; 3921009573; 961987163; 1508970993; 2453635748; 2870763221; 3624381080; 310598401; 607225278; 1426881987; 1925078388; 2162078206; 2614888103; 3248222580; 3835390401; 4022224774; 264347078; 604807628; 770255983; 1249150122; 1555081692; 1996064986; 2554220882; 2821834349; 2952996808; 3210313671; 3336571891; 3584528711; 113926993; 338241895; 666307205; 773529912; 1294757372; 1396182291; 1695183700; 1986661051; 2177026350; 2456956037; 2730485921; 2820302411; 3259730800; 3345764771; 3516065817; 3600352804; 4094571909; 275423344; 430227734; 506948616; 659060556; 883997877; 958139571; 1322822218; 1537002063; 1747873779; 1955562222; 2024104815; 2227730452; 2361852424; 2428436474; 2756734187; 3204031479; 3329325298]%Z.
Definition rotr (x n : Z) : Z := Z.lor (Z.shiftr x n) (wrap32 (Z.shiftl x (32 - n))).
(** The eight words of the state. *)
Record state := { sa : Z; sb : Z; sc : Z; sd : Z; se : Z; sf : Z; sg : Z; sh : Z }.
Definition initial : state :=
  let w i := nth i [1779033703; 3144134277; 1013904242; 2773480762; 1359893119; 2600822924; 528734635; 1541459225]%Z 0%Z in
  {| sa := w 0; sb := w 1; sc := w 2; sd := w 3; se := w 4; sf := w 5; sg := w 6; sh := w 7 |}.
Definition round (s : state) (kw : Z * Z) : state :=
  let s1 := Z.lxor (Z.lxor (rotr (se s) 6) (rotr (se s) 11)) (rotr (se s) 25) in
  let ch := Z.lxor (Z.land (se s) (sf s)) (Z.land (Z.lxor (se s) (2 ^ 32 - 1)) (sg s)) in
  let t1 := wrap32 (sh s + s1 + ch + kw.1 + kw.2) in
  let s0 := Z.lxor (Z.lxor (rotr (sa s) 2) (rotr (sa s) 13)) (rotr (sa s) 22) in
  let maj := Z.lxor (Z.lxor (Z.land (sa s) (sb s)) (Z.land (sa s) (sc s))) (Z.land (sb s) (sc s)) in
  {| sa := wrap32 (t1 + (s0 + maj)); sb := sa s; sc := sb s; sd := sc s; se := wrap32 (sd s + t1); sf := se s; sg := sf s; sh := sg s |}.
(** The message schedule, latest word first. *)
Fixpoint extend (n : nat) (w : list Z) : list Z :=
  match n with
  | O => w
  | S n =>
      let v i := nth i w 0%Z in
      let s0 := Z.lxor (Z.lxor (rotr (v 14) 7) (rotr (v 14) 18)) (Z.shiftr (v 14) 3) in
      let s1 := Z.lxor (Z.lxor (rotr (v 1) 17) (rotr (v 1) 19)) (Z.shiftr (v 1) 10) in
      extend n (wrap32 (v 15 + s0 + v 6 + s1) :: w)
  end.
Fixpoint words (n : nat) (l : list Z) : list Z :=
  match n, l with
  | S n, a :: b :: c :: d :: l => (a * 2 ^ 24 + b * 2 ^ 16 + c * 2 ^ 8 + d)%Z :: words n l
  | _, _ => []
  end.
Definition block (s : state) (l : list Z) : state :=
  let r := foldl round s (zip K (rev (extend 48 (rev (words 16 l))))) in
  {| sa := wrap32 (sa s + sa r); sb := wrap32 (sb s + sb r); sc := wrap32 (sc s + sc r); sd := wrap32 (sd s + sd r);
     se := wrap32 (se s + se r); sf := wrap32 (sf s + sf r); sg := wrap32 (sg s + sg r); sh := wrap32 (sh s + sh r) |}.
Fixpoint blocks (n : nat) (s : state) (l : list Z) : state :=
  match n with O => s | S n => blocks n (block s (take 64 l)) (drop 64 l) end.
Definition be (n : nat) (z : Z) : list Z := (λ i, Z.shiftr z (8 * Z.of_nat (n - 1 - i)) mod 256)%Z <$> seq 0 n.
Definition Sum256 (l : list Z) : list Z :=
  let padding := (Z.to_nat ((119 - Z.of_nat (length l)) mod 64)) in
  let m := l ++ [128%Z] ++ replicate padding 0%Z ++ be 8 (8 * Z.of_nat (length l)) in
  let s := blocks (length m / 64) initial m in
  [sa s; sb s; sc s; sd s; se s; sf s; sg s; sh s] ≫= be 4.
Lemma length_Sum256 l : length (Sum256 l) = 32.
Proof. reflexivity. Qed.
(** The digest of "abc" begins with ba7816bf and ends with f20015ad. *)
Example abc : take 4 (Sum256 [97; 98; 99]%Z) = [186; 120; 22; 191]%Z ∧ drop 28 (Sum256 [97; 98; 99]%Z) = [242; 0; 21; 173]%Z.
Proof. vm_compute. auto. Qed.
Example long : take 4 (Sum256 (replicate 119 97%Z)) = [49; 235; 165; 28]%Z.
Proof. vm_compute. auto. Qed.
End Sha256.

(** ** Options *)
Record options := {
  o_target : string; o_managementURL : string; o_protocol : string; o_host : string; o_requests : Z; o_concurrency : Z;
  o_timeout : Z; o_hold : Z; o_readBytes : Z; o_slowloris : Z; o_reloadPID : Z; o_reloadAfter : Z; o_output : string }.
Definition validate (o : options) : option string :=
  match SplitHostPort (o_target o) with
  | None => Some "target"
  | Some _ =>
      if negb (bool_decide (o_protocol o = "tls")) && negb (bool_decide (o_protocol o = "http")) then Some "protocol must be tls or http"
      else if bool_decide (o_host o = "") || (253 <? String.length (o_host o)) then Some "host must contain 1-253 bytes"
      else if (o_requests o <? 1)%Z || (o_concurrency o <? 1)%Z || (o_requests o <? o_concurrency o)%Z
      then Some "requests must be positive and concurrency must be between 1 and requests"
      else if (o_timeout o <=? 0)%Z || (o_hold o <? 0)%Z || (o_readBytes o <? 0)%Z || (o_slowloris o <? 0)%Z
      then Some "timeouts, read bytes, and slowloris bytes must be non-negative"
      else if (0 <? o_reloadAfter o)%Z && (o_reloadPID o <=? 0)%Z then Some "reload-after requires reload-pid"
      else None
  end.

(** ** Fixtures *)
Fixpoint bytes (s : string) : list Z := match s with EmptyString => [] | String c s => byte_of c :: bytes s end.
Definition crlf : string := String "013" (String "010" EmptyString).
Definition httpFixture (host : string) : list Z :=
  bytes ("GET / HTTP/1.1" +:+ crlf +:+ "Host: " +:+ host +:+ crlf +:+ "User-Agent: sakhtar-wg-loadgen/1" +:+ crlf +:+ "Connection: close" +:+ crlf +:+ crlf).
(** The conversion to a byte keeps the low eight bits. *)
Definition byte_low (v : Z) : Z := v mod 256.
Definition appendUint16 (dst : list Z) (value : Z) : list Z := dst ++ [byte_low (Z.shiftr value 8); byte_low value].
Definition appendExtension (dst : list Z) (kind : Z) (body : list Z) : list Z :=
  appendUint16 (dst ++ [byte_low (Z.shiftr kind 8); byte_low kind]) (Z.of_nat (length body)) ++ body.
Definition sni_body (name : list Z) : list Z :=
  appendUint16 [] (1 + 2 + Z.of_nat (length name)) ++ [0%Z] ++ appendUint16 [] (Z.of_nat (length name)) ++ name.
Definition tls_extensions (name : list Z) : list Z :=
  let extensions := appendExtension [] 0 (sni_body name) in
  let extensions := appendExtension extensions 43 [2; 3; 4]%Z in
  let extensions := appendExtension extensions 10 [0; 2; 0; 29]%Z in
  appendExtension extensions 13 [0; 4; 4; 3; 8; 4]%Z.
Definition tlsFixture (host : string) : list Z :=
  let extensions := tls_extensions (bytes host) in
  let random := Sha256.Sum256 (bytes ("sakhtar-wg-loadgen:" +:+ host)) in
  let body := [3; 3]%Z ++ random ++ [0%Z] ++ [0; 4; 19; 1; 19; 2]%Z ++ [1; 0]%Z in
  let body := appendUint16 body (Z.of_nat (length extensions)) ++ extensions in
  let n := Z.of_nat (length body) in
  let handshake := [1; byte_low (Z.shiftr n 16); byte_low (Z.shiftr n 8); byte_low n]%Z ++ body in
  appendUint16 [22; 3; 1]%Z (Z.of_nat (length handshake)) ++ handshake.

(** ** One connection *)
(** The classes of the errors that are told apart. *)
Inductive net_error := DeadlineError | EOFError | RefusedError | ResetError | OtherError.
Definition classify (e : option net_error) : string :=
  match e with
  | None => ""
  | Some DeadlineError => "timeout"
  | Some EOFError => "eof"
  | Some RefusedError => "connection_refused"
  | Some ResetError => "connection_reset"
  | Some OtherError => "other"
  end.
Record observation := { sa_setup : Z; sa_wrote : bool; sa_response : bool; sa_errClass : string; sa_after : bool }.
(** What the network answers: the dial, the write of each chunk, whether the context ends
    during the hold, the read; the set-up time and whether a reload has happened. *)
Record answers := {
  an_dial : option net_error; an_write : list Z → nat → option net_error; an_hold : option net_error; an_read : option net_error;
  an_setup : Z; an_reloaded : bool }.
Definition failed_sample (a : answers) (e : option net_error) : observation :=
  {| sa_setup := 0; sa_wrote := false; sa_response := false; sa_errClass := classify e; sa_after := an_reloaded a |}.
(** The bytes one by one: the index counts the writes. *)
Fixpoint write_each (a : answers) (i : nat) (l : list Z) : option net_error :=
  match l with
  | [] => None
  | b :: l => match an_write a [b] i with Some e => Some e | None => write_each a (S i) l end
  end.
Definition connect (o : options) (fixture : list Z) (a : answers) : observation :=
  match an_dial a with
  | Some e => failed_sample a (Some e)
  | None =>
      let err := if (0 <? o_slowloris o)%Z then write_each a 0 (take (Z.to_nat (o_slowloris o)) fixture) else an_write a fixture 0 in
      match err with
      | Some e => failed_sample a (Some e)
      | None =>
          let ok response e :=
            {| sa_setup := an_setup a; sa_wrote := true; sa_response := response; sa_errClass := classify e;
               sa_after := match e with Some _ => an_reloaded a | None => false end |} in
          match (if (0 <? o_hold o)%Z then an_hold a else None) with
          | Some e => ok false (Some e)
          | None => if (0 <? o_readBytes o)%Z then match an_read a with Some e => ok false (Some e) | None => ok true None end
                    else ok false None
          end
      end
  end.

(** ** The summary *)
Record tally := {
  ta_Attempted : Z; ta_WriteSucceeded : Z; ta_ResponseSucceeded : Z; ta_Failed : Z; ta_FailedAfterReload : Z;
  ta_Errors : gmap string Z; ta_latencies : list Z }.
Definition no_tally : tally :=
  {| ta_Attempted := 0; ta_WriteSucceeded := 0; ta_ResponseSucceeded := 0; ta_Failed := 0; ta_FailedAfterReload := 0;
     ta_Errors := ∅; ta_latencies := [] |}.
Definition one (b : bool) : Z := if b then 1 else 0.
Definition add_observation (t : tally) (x : observation) : tally :=
  let failed := negb (bool_decide (sa_errClass x = "")) in
  {| ta_Attempted := wrap64 (ta_Attempted t + 1); ta_WriteSucceeded := wrap64 (ta_WriteSucceeded t + one (sa_wrote x));
     ta_ResponseSucceeded := wrap64 (ta_ResponseSucceeded t + one (sa_response x));
     ta_Failed := wrap64 (ta_Failed t + one failed);
     ta_FailedAfterReload := wrap64 (ta_FailedAfterReload t + one (failed && sa_after x));
     ta_Errors := if failed then bump (ta_Errors t) (sa_errClass x) 1 else ta_Errors t;
     ta_latencies := if sa_wrote x then ta_latencies t ++ [sa_setup x] else ta_latencies t |}.
Definition summarise (l : list observation) : tally := foldl add_observation no_tally l.
Definition fixture_of (o : options) : list Z := if bool_decide (o_protocol o = "tls") then tlsFixture (o_host o) else httpFixture (o_host o).
(** [run] up to the times, the reload and the metrics: the sample that arrives as the
    [i]-th comes from what the network answers to it. *)
Definition run (o : options) (net : nat → answers) : result string tally :=
  let fixture := fixture_of o in
  if (Z.of_nat (length fixture) <? o_slowloris o)%Z
  then Err ("slowloris-bytes " +:+ itoa (o_slowloris o) +:+ " exceeds fixture length " +:+ itoa (Z.of_nat (length fixture)))
  else Ok (summarise ((λ i, connect o fixture (net i)) <$> seq 0 (Z.to_nat (o_requests o)))).

(** ** The metrics before and after *)
Section metrics.
Context `{Float64} (f_sub f_div : float64 → float64 → float64) (f_positive : float64 → bool) (ParseFloat : string → option float64).

(** What one line of the response adds. *)
Definition scrape_line (m : gmap string float64) (line : string) : gmap string float64 :=
  let line := trim_space line in
  if bool_decide (line = "") || has_prefix "#" line then m
  else match fields line with
       | [name; text] =>
           if has_prefix "sakhtar_wg_" name then match ParseFloat text with Some v => <[name := v]> m | None => m end else m
       | _ => m
       end.
(** [bufio.Scanner] stops with an error at a line that fills its buffer of 64 KiB. *)
Fixpoint scan (m : gmap string float64) (lines : list string) : gmap string float64 * bool :=
  match lines with
  | [] => (m, true)
  | line :: rest => if (65536 <=? Z.of_nat (String.length line))%Z then (m, false) else scan (scrape_line m line) rest
  end.
(** [scrapeMetrics] from the body of a response with status 200: what was read and
    whether all of it was. *)
Definition scrape (body : string) : gmap string float64 * bool := scan ∅ (str_split "010" (str_take (Z.to_nat (8 * 1024 * 1024)) body)).

(** The deltas and what is derived from them; the sums go by the names, while the
    source's order of summing is that of a map. *)
Definition delta (before after : gmap string float64) : gmap string float64 :=
  map_imap (λ key v, Some (f_sub v (default f_zero (before !! key)))) after.
Definition sum_prefix (prefix : string) (m : gmap string float64) : float64 :=
  foldl (λ acc kv, if has_prefix prefix kv.1 then f_add acc kv.2 else acc) f_zero (sorted_entries m).
Definition compareMetrics (before after : gmap string float64) (duration : float64) : gmap string float64 * gmap string float64 :=
  let d := delta before after in
  let resolutions := sum_prefix "sakhtar_wg_dns_resolutions_total" d in
  let derived := <["dns_resolutions" := resolutions]> (<["rejections" := sum_prefix "sakhtar_wg_proxy_rejections_total" d]> ∅) in
  (d, if f_positive duration then <["dns_qps" := f_div resolutions duration]> derived else derived).
End metrics.

(** ** A reader of ClientHello records *)
Definition be_value (l : list Z) : Z := foldl (λ acc b, acc * 256 + b)%Z 0%Z l.
Definition take_n (n : nat) (l : list Z) : option (list Z * list Z) := if n <=? length l then Some (take n l, drop n l) else None.
(** A field behind a length of [k] bytes. *)
Definition vector (k : nat) (l : list Z) : option (list Z * list Z) :=
  '(n, rest) ← take_n k l; take_n (Z.to_nat (be_value n)) rest.
Definition expect (prefix l : list Z) : option (list Z) :=
  '(x, rest) ← take_n (length prefix) l; if bool_decide (x = prefix) then Some rest else None.
Definition complete (r : option (list Z * list Z)) : option (list Z) :=
  '(x, rest) ← r; if bool_decide (rest = []) then Some x else None.
(** The first extension of a kind, read to the end. *)
Fixpoint extension (fuel : nat) (kind : Z) (l : list Z) : option (list Z) :=
  match fuel, l with
  | S fuel, _ :: _ =>
      '(k, rest) ← take_n 2 l; '(body, rest) ← vector 2 rest;
      if (be_value k =? kind)%Z then Some body else extension fuel kind rest
  | _, _ => None
  end.
Definition server_name (l : list Z) : option (list Z) :=
  names ← complete (vector 2 l); rest ← expect [0%Z] names; complete (vector 2 rest).
(** The server name of a record that holds one whole ClientHello of TLS 1.2 or later. *)
Definition read_sni (l : list Z) : option (list Z) :=
  rest ← expect [22; 3; 1]%Z l; fragment ← complete (vector 2 rest);
  rest ← expect [1%Z] fragment; hello ← complete (vector 3 rest);
  rest ← expect [3; 3]%Z hello; '(_, rest) ← take_n 32 rest;
  '(_, rest) ← vector 1 rest; '(_, rest) ← vector 2 rest; '(_, rest) ← vector 1 rest;
  extensions ← complete (vector 2 rest);
  body ← extension (length extensions) 0 extensions; server_name body.
Example read_example : read_sni (tlsFixture "example.com") = Some (bytes "example.com").
Proof. vm_compute. reflexivity. Qed.

Lemma take_n_app a b : take_n (length a) (a ++ b) = Some (a, b).
Proof. unfold take_n. rewrite (proj2 (Nat.leb_le _ _)) by (rewrite length_app; lia). by rewrite take_app_length, drop_app_length. Qed.
Lemma expect_app a b : expect a (a ++ b) = Some b.
Proof. unfold expect. rewrite take_n_app. cbn. by rewrite bool_decide_eq_true_2. Qed.
Lemma be_value_2 n : (0 ≤ n < 65536)%Z → be_value [byte_low (Z.shiftr n 8); byte_low n] = n.
Proof. intros Hn. unfold be_value, byte_low. cbn [foldl]. rewrite Z.shiftr_div_pow2 by lia. change (2 ^ 8)%Z with 256%Z. Z.div_mod_to_equations. lia. Qed.
Lemma be_value_3 n : (0 ≤ n < 16777216)%Z → be_value [byte_low (Z.shiftr n 16); byte_low (Z.shiftr n 8); byte_low n] = n.
Proof.
  intros Hn. unfold be_value, byte_low. cbn [foldl]. rewrite !Z.shiftr_div_pow2 by lia. change (2 ^ 8)%Z with 256%Z. change (2 ^ 16)%Z with 65536%Z.
  Z.div_mod_to_equations. lia.
Qed.
Lemma vector_app k l a b : length l = k → be_value l = Z.of_nat (length a) → vector k (l ++ a ++ b) = Some (a, b).
Proof. intros <- Hl. unfold vector. rewrite take_n_app. cbn. rewrite Hl, Nat2Z.id. apply take_n_app. Qed.
Lemma vector_end k l a : length l = k → be_value l = Z.of_nat (length a) → complete (vector k (l ++ a)) = Some a.
Proof. intros Hk Hl. rewrite <-(app_nil_r a) at 1. by rewrite vector_app. Qed.

Lemma length_bytes s : length (bytes s) = String.length s.
Proof. induction s; cbn; congruence. Qed.
Lemma appendUint16_value v : (0 ≤ v < 65536)%Z → be_value (appendUint16 [] v) = v.
Proof. apply be_value_2. Qed.
Lemma appendUint16_nil dst v : appendUint16 dst v = dst ++ appendUint16 [] v.
Proof. done. Qed.
Lemma sni_body_read name : (Z.of_nat (length name) < 65000)%Z → server_name (sni_body name) = Some name.
Proof.
  intros Hn. unfold server_name, sni_body. rewrite vector_end; [|done|].
  - cbn [mbind option_bind]. rewrite (expect_app [0%Z]). cbn [mbind option_bind]. apply vector_end; [done|]. apply appendUint16_value. lia.
  - rewrite appendUint16_value by lia. rewrite !length_app. cbn [length app appendUint16]. lia.
Qed.
Lemma extension_here kind body rest n : (0 ≤ kind < 65536)%Z → (Z.of_nat (length body) < 65536)%Z →
  extension (S n) kind (appendExtension [] kind body ++ rest) = Some body.
Proof.
  intros Hk Hb. unfold appendExtension. rewrite appendUint16_nil, app_nil_l, <-!app_assoc.
  set (k := [byte_low (Z.shiftr kind 8); byte_low kind]). change (extension (S n) kind (k ++ appendUint16 [] (Z.of_nat (length body)) ++ body ++ rest) = Some body).
  cbn [extension]. destruct (k ++ _) as [|x l] eqn:E; [done|]. rewrite <-E. clear E x l. rewrite (take_n_app k).
  cbn [mbind option_bind]. rewrite vector_app by (try done; apply appendUint16_value; lia). cbn [mbind option_bind].
  unfold k. by rewrite be_value_2, Z.eqb_refl.
Qed.
Lemma appendExtension_nil dst kind body : appendExtension dst kind body = dst ++ appendExtension [] kind body.
Proof. unfold appendExtension. rewrite !(appendUint16_nil (_ ++ _)), app_nil_l, <-!app_assoc. done. Qed.

(** The fixture from the inside out. *)
Definition hello_body (random extensions : list Z) : list Z :=
  [3; 3]%Z ++ random ++ [0%Z] ++ [0; 4; 19; 1; 19; 2]%Z ++ [1; 0]%Z ++ appendUint16 [] (Z.of_nat (length extensions)) ++ extensions.
Definition handshake_of (body : list Z) : list Z :=
  let n := Z.of_nat (length body) in [1%Z] ++ [byte_low (Z.shiftr n 16); byte_low (Z.shiftr n 8); byte_low n]%Z ++ body.
Definition record_of (handshake : list Z) : list Z := [22; 3; 1]%Z ++ appendUint16 [] (Z.of_nat (length handshake)) ++ handshake.
Lemma tlsFixture_shape host : tlsFixture host =
  record_of (handshake_of (hello_body (Sha256.Sum256 (bytes ("sakhtar-wg-loadgen:" +:+ host))) (tls_extensions (bytes host)))).
Proof.
  unfold tlsFixture. cbv zeta. rewrite !(appendUint16_nil (_ ++ _)), !(appendUint16_nil [22; 3; 1]%Z). unfold record_of, handshake_of, hello_body.
  cbv zeta. by rewrite <-!app_assoc.
Qed.
Lemma length_extensions name : length (tls_extensions name) = 34 + length name.
Proof. unfold tls_extensions, appendExtension, sni_body, appendUint16. rewrite !length_app. cbn [length]. lia. Qed.
Lemma read_hello random extensions : length random = 32 → (Z.of_nat (length extensions) < 60000)%Z →
  read_sni (record_of (handshake_of (hello_body random extensions))) =
  (body ← extension (length extensions) 0 extensions; server_name body).
Proof.
  intros Hr He. unfold read_sni, record_of. set (h := handshake_of _).
  assert (length h = 49 + length extensions) as Hh.
  { unfold h, handshake_of, hello_body. cbv zeta. rewrite !length_app, Hr. cbn [length app appendUint16]. lia. }
  rewrite expect_app. cbn [mbind option_bind]. rewrite vector_end by (try done; apply appendUint16_value; lia). cbn [mbind option_bind].
  unfold h, handshake_of. cbv zeta. set (b := hello_body _ _).
  assert (length b = 45 + length extensions) as Hb.
  { unfold b, hello_body. rewrite !length_app, Hr. cbn [length app appendUint16]. lia. }
  rewrite expect_app. cbn [mbind option_bind]. rewrite vector_end by (try done; apply be_value_3; lia). cbn [mbind option_bind].
  unfold b, hello_body. rewrite expect_app. cbn [mbind option_bind]. rewrite <-Hr, take_n_app. cbn [mbind option_bind].
  change (vector 1 ([0%Z] ++ ?x)) with (vector 1 ([0%Z] ++ [] ++ x)). rewrite vector_app by done. cbn [mbind option_bind].
  change ([0; 4; 19; 1; 19; 2]%Z ++ ?x) with ([0; 4]%Z ++ [19; 1; 19; 2]%Z ++ x). rewrite vector_app by done. cbn [mbind option_bind].
  change ([1; 0]%Z ++ ?x) with ([1]%Z ++ [0]%Z ++ x). rewrite vector_app by done. cbn [mbind option_bind].
  by rewrite vector_end by (try done; apply appendUint16_value; lia).
Qed.

(** Whatever host name of 1 to 253 bytes the load generator is given, its TLS
    fixture is one well-formed record with one ClientHello, from which a reader of the
    format gets that name back, and it is 88 bytes longer than the name. *)
Theorem tlsFixture_roundtrip host : String.length host ≤ 253 →
  read_sni (tlsFixture host) = Some (bytes host) ∧ length (tlsFixture host) = 88 + String.length host.
Proof.
  intros Hn. rewrite tlsFixture_shape. rewrite <-length_bytes in *. set (random := Sha256.Sum256 _).
  assert (length random = 32) as Hr by apply Sha256.length_Sum256. clearbody random. split.
  - rewrite read_hello by (try done; rewrite length_extensions; lia).
    rewrite length_extensions. unfold tls_extensions. rewrite (appendExtension_nil (appendExtension (appendExtension _ _ _) _ _)),
      (appendExtension_nil (appendExtension (appendExtension [] 0 _) _ _)), (appendExtension_nil (appendExtension [] 0 _)), <-!app_assoc.
    cbn [Nat.add]. rewrite extension_here; [cbn [mbind option_bind]; apply sni_body_read; lia|lia|].
    unfold sni_body. rewrite !length_app. cbn [length app appendUint16]. lia.
  - unfold record_of, handshake_of, hello_body. cbv zeta. rewrite !length_app, length_extensions, Hr. cbn [length app appendUint16]. lia.
Qed.
Lemma tlsFixture_roundtrip_witness : read_sni (tlsFixture "proxy.example") = Some (bytes "proxy.example") ∧ length (tlsFixture "proxy.example") = 101.
Proof. apply (tlsFixture_roundtrip "proxy.example"). apply Nat.leb_le. reflexivity. Defined.

(** ** What the summary accounts for *)
(** A sample of [connect]: without a write it failed, a response comes without an error. *)
Definition sane (x : observation) : Prop :=
  (sa_wrote x = false → sa_errClass x ≠ "") ∧ (sa_response x = true → sa_wrote x = true ∧ sa_errClass x = "").
Lemma classify_named e : classify (Some e) ≠ "".
Proof. by destruct e. Qed.
Lemma connect_sane o fixture a : sane (connect o fixture a).
Proof. unfold connect, failed_sample, sane. repeat case_match; cbn [sa_wrote sa_response sa_errClass]; split; intros; done || apply classify_named || (split; done). Qed.
Record accounted (n : Z) (t : tally) : Prop := {
  acc_attempted : ta_Attempted t = n;
  acc_latencies : ta_WriteSucceeded t = Z.of_nat (length (ta_latencies t));
  acc_errors : ta_Failed t = metrics_sum (ta_Errors t);
  acc_bounds : (0 ≤ ta_FailedAfterReload t ≤ ta_Failed t ∧ 0 ≤ ta_ResponseSucceeded t ≤ ta_WriteSucceeded t)%Z;
  acc_covered : (ta_ResponseSucceeded t + ta_Failed t ≤ n ≤ ta_WriteSucceeded t + ta_Failed t)%Z;
  acc_written : (ta_WriteSucceeded t ≤ n)%Z;
  acc_counts : map_Forall (λ _ v, (0 ≤ v ≤ ta_Failed t)%Z) (ta_Errors t) }.
Lemma wrap64_small z : (0 ≤ z < 2 ^ 64)%Z → wrap64 z = z.
Proof. apply Z.mod_small. Qed.
Lemma bump_small m k n : (0 ≤ default 0 (m !! k) + n < 2 ^ 64)%Z → metrics_sum (bump m k n) = (metrics_sum m + n)%Z.
Proof. intros Hn. unfold bump. rewrite metrics_sum_insert, wrap64_small by done. lia. Qed.
Lemma add_observation_accounted n t x : (0 ≤ n < 2 ^ 64 - 1)%Z → sane x → accounted n t → accounted (n + 1) (add_observation t x).
Proof.
  intros Hn [Hw Hr] [Ha Hl He Hb Hc Hx Hm].
  assert (0 ≤ default 0 (ta_Errors t !! sa_errClass x) ≤ ta_Failed t)%Z as Hd.
  { destruct (ta_Errors t !! sa_errClass x) as [v|] eqn:E; cbn; [by apply (Hm _ _ E)|lia]. }
  destruct (decide (sa_errClass x = "")) as [E|E].
  - destruct (sa_wrote x) eqn:Ew; [|by destruct (Hw eq_refl)]. destruct (sa_response x) eqn:Er;
      split; unfold add_observation; rewrite bool_decide_eq_true_2, ?Ew, ?Er by done; cbn [negb one andb]; cbn;
      rewrite ?wrap64_small, ?length_app; cbn [length]; lia || done || (intros k v Hv; specialize (Hm k v Hv); cbn in Hm; lia).
  - destruct (sa_response x) eqn:Er; [by destruct (Hr eq_refl)|].
    assert (metrics_sum (bump (ta_Errors t) (sa_errClass x) 1) = metrics_sum (ta_Errors t) + 1)%Z as Hs by (apply bump_small; lia).
    destruct (sa_wrote x) eqn:Ew, (sa_after x) eqn:Ef;
      split; unfold add_observation; rewrite bool_decide_eq_false_2, ?Ew, ?Ef, ?Er by done; cbn [negb one andb]; cbn -[bump];
      rewrite ?Hs, ?wrap64_small, ?length_app; cbn [length]; lia || idtac.
    all: intros k v; unfold bump; destruct (decide (k = sa_errClass x)) as [->|Hk]; [rewrite lookup_insert_eq|rewrite lookup_insert_ne by done].
    all: try (intros [= <-]; rewrite wrap64_small; lia); intros Hv; specialize (Hm k v Hv); cbn in Hm; lia.
Qed.
Lemma validate_requests o : validate o = None → (0 ≤ o_requests o)%Z.
Proof.
  unfold validate. destruct (SplitHostPort _); [|done]. do 2 (case_match; [done|]).
  destruct (Z.ltb_spec (o_requests o) 1); cbn [orb]; [done|lia].
Qed.
Lemma summarise_accounted l : (Z.of_nat (length l) < 2 ^ 64)%Z → Forall sane l → accounted (Z.of_nat (length l)) (summarise l).
Proof.
  unfold summarise. induction l as [|x l IH] using rev_ind; intros Hn Hl.
  - split; cbn; lia || done || apply map_Forall_empty.
  - apply Forall_app in Hl as [Hl Hx]. apply Forall_cons_1 in Hx as [Hx _]. rewrite foldl_snoc, length_app in *. cbn [length] in *.
    replace (Z.of_nat (length l + 1)) with (Z.of_nat (length l) + 1)%Z by lia.
    apply add_observation_accounted; [lia|exact Hx|]. apply IH; [lia|done].
Qed.

(** A run of valid options either refuses a partial fixture longer than the whole or
    reports each of its requests: the attempts are the requests, the failures are the
    sum of the error classes, every attempt was written or failed, none both failed and
    got a response, and there is one latency per write. *)
Theorem run_accounts o (net : nat → answers) : validate o = None → (o_requests o < 2 ^ 63)%Z →
  match run o net with
  | Err _ => (Z.of_nat (length (fixture_of o)) < o_slowloris o)%Z
  | Ok t =>
      ta_Attempted t = o_requests o ∧ ta_Failed t = metrics_sum (ta_Errors t) ∧
      ta_WriteSucceeded t = Z.of_nat (length (ta_latencies t)) ∧ (ta_FailedAfterReload t ≤ ta_Failed t)%Z ∧
      (ta_ResponseSucceeded t + ta_Failed t ≤ ta_Attempted t ≤ ta_WriteSucceeded t + ta_Failed t)%Z
  end.
Proof.
  intros Hv Hn. unfold run. destruct (Z.ltb_spec (Z.of_nat (length (fixture_of o))) (o_slowloris o)) as [Hs|Hs]; [done|].
  set (l := _ <$> _). assert (Z.of_nat (length l) = o_requests o) as El.
  { unfold l. rewrite length_fmap, length_seq. pose proof (validate_requests o Hv). lia. }
  destruct (summarise_accounted l) as [Ha Hl He Hb Hc Hx _]; [lia|apply Forall_fmap, Forall_forall; intros i _; apply connect_sane|].
  rewrite Ha, El in *. split_and!; done || lia.
Qed.

(** ** The comparison and the daemon's metrics *)
Definition starts (p s : string) : Prop := ∃ t, s = p +:+ t.
Lemma starts_trans a b c : starts a b → starts b c → starts a c.
Proof. intros [t ->] [u ->]. exists (t +:+ u). by rewrite str_app_assoc. Qed.
Lemma has_prefix_starts p s : has_prefix p s = true → starts p s.
Proof.
  unfold has_prefix. revert s. induction p as [|c p IH]; intros s; [intros _; by exists s|]. destruct s as [|d s]; [done|]. cbn [String.prefix].
  destruct (Ascii.ascii_dec c d) as [<-|]; [|done]. intros [t ->]%IH. by exists t.
Qed.
Lemma trim_right_starts n s : starts (trim_right_fuel n s) s.
Proof.
  revert s. induction n as [|n IH]; intros s; [exists ""; by rewrite str_app_nil_r|]. cbn [trim_right_fuel]. destruct (first_suffix space_runes s) as [p|].
  - eapply starts_trans; [apply IH|]. eexists. symmetry. apply str_take_drop.
  - exists "". by rewrite str_app_nil_r.
Qed.
Lemma fields_starts n cur s f l : cur ≠ "" → fields_fuel n cur s = f :: l → starts f (cur +:+ s).
Proof.
  revert cur s. induction n as [|n IH]; intros cur s Hc; cbn [fields_fuel]; rewrite bool_decide_eq_false_2 by done; [intros [= <- _]; by exists s|].
  destruct s as [|c s]; [intros [= <- _]; by exists ""|]. destruct (first_prefix space_runes (String c s)) as [p|]; [intros [= <- _]; by eexists|].
  intros Hf%IH; [|by destruct cur]. by rewrite <-str_app_assoc in Hf.
Qed.
Lemma split_take_starts c n s t : t ∈ str_split c (str_take n s) → ∃ u, u ∈ str_split c s ∧ starts t u.
Proof.
  assert (∀ s n, ∃ h l h' l', str_split c s = h :: l ∧ str_split c (str_take n s) = h' :: l' ∧ starts h' h ∧
    Forall (λ t, ∃ u, u ∈ l ∧ starts t u) l') as Hs.
  { clear. induction s as [|d s IH]; intros n; [exists "", [], "", []; destruct n; split_and!; try done; by exists ""|].
    destruct n as [|n].
    - destruct (IH 0) as (h&l&_&_&E&_). cbn. rewrite E. case_decide; eexists _, _, "", []; (split_and!; [done|done| |done]); by eexists.
    - destruct (IH n) as (h&l&h'&l'&E&E'&[t ->]&Hl). cbn. rewrite E, E'. case_decide; eexists _, _, _, _; (split_and!; [done|done|..]).
      + by exists "".
      + constructor; [exists (h' +:+ t); split; [left|by exists t]|]. eapply Forall_impl; [exact Hl|]. intros ? (u&?&?). exists u. split; [by right|done].
      + by exists t.
      + done. }
  destruct (Hs s n) as (h&l&h'&l'&->&->&Hh&Hl). rewrite Forall_forall in Hl. intros [->|Ht]%elem_of_cons; [exists h; split; [left|done]|].
  destruct (Hl t Ht) as (u&?&?). exists u. split; [by right|done].
Qed.
(** A key of a scrape begins a line of the text, where the lines begin with an s. *)
Lemma scrape_line_keys `{Float64} ParseFloat m text u k v : starts text (String "s" u) → scrape_line ParseFloat m text !! k = Some v →
  m !! k = Some v ∨ starts k (String "s" u).
Proof.
  intros Hu. unfold scrape_line. destruct text as [|c t]; [by left|]. assert (c = "s"%char) as -> by (by destruct Hu as [? [= ->]]).
  change (trim_space (String "s" t)) with (trim_right_fuel (S (String.length t)) (String "s" t)).
  pose proof (trim_right_starts (S (String.length t)) (String "s" t)) as Ht. set (w := trim_right_fuel _ _) in *. clearbody w.
  assert (starts w (String "s" u)) as Hw by (by eapply starts_trans). clear Hu Ht.
  destruct w as [|c w]; [by left|]. assert (c = "s"%char) as -> by (by destruct Hw as [? [= ->]]).
  case_match; [by left|]. destruct (fields (String "s" w)) as [|f [|x []]] eqn:Hf; try by left.
  case_match; [|by left]. destruct (ParseFloat x) as [y|]; [|by left]. destruct (decide (f = k)) as [->|]; [|rewrite lookup_insert_ne by done; by left].
  intros _. right. eapply starts_trans; [|exact Hw]. by apply (fields_starts (S (String.length w)) "s" w k [x]).
Qed.
Lemma scan_keys `{Float64} ParseFloat (P : string → Prop) lines : Forall (λ t, ∃ u, P (String "s" u) ∧ starts t (String "s" u)) lines → ∀ m k v,
  (scan ParseFloat m lines).1 !! k = Some v → m !! k = Some v ∨ ∃ u, P (String "s" u) ∧ starts k (String "s" u).
Proof.
  induction 1 as [|t ts (u&Hp&Hu) _ IH]; intros m k v; cbn [scan]; [by left|]. destruct (_ <=? _)%Z; [by left|].
  intros [Hm|?]%IH; [|by right]. apply (scrape_line_keys _ _ _ u) in Hm as [?|?]; [by left|right; by exists u|done].
Qed.
(** Two strings that differ before either ends. *)
Fixpoint clash (a b : string) : bool :=
  match a, b with String x a, String y b => if bool_decide (x = y) then clash a b else true | _, _ => false end.
Lemma clash_starts a b t : clash a b = true → ¬ starts a (b +:+ t).
Proof.
  revert b. induction a as [|x a IH]; intros [|y b]; try done. cbn [clash]. intros Hc [u Hu]. rewrite !str_app_cons in Hu. injection Hu as -> Hu.
  rewrite bool_decide_eq_true_2 in Hc by done. apply (IH b Hc). by exists u.
Qed.
Definition rejections_prefix : string := "sakhtar_wg_proxy_rejections_total".
Lemma names_clash : forallb (clash rejections_prefix) (concat block_names) = true.
Proof. vm_compute. reflexivity. Qed.
Lemma sum_prefix_none `{Float64} p (m : gmap string float64) : (∀ k v, m !! k = Some v → has_prefix p k = false) → sum_prefix p m = f_zero.
Proof.
  intros Hm. unfold sum_prefix. assert (Forall (λ kv, has_prefix p kv.1 = false) (sorted_entries m)) as Hl.
  { apply Forall_forall. intros [k v] Hk%elem_of_entries. by eapply Hm. }
  generalize f_zero as a. induction Hl as [|kv l Hkv _ IH]; intros a; [done|]. cbn [foldl]. by rewrite Hkv.
Qed.
Lemma exposition_line `{Float64} r p now t : reached r → (∀ f, str_free "010" (f_string f)) → t ∈ str_split "010" (exposition r p now) →
  ∃ u, (∀ k, starts k (String "s" u) → has_prefix rejections_prefix k = false) ∧ starts t (String "s" u).
Proof.
  intros Hr Hf. rewrite exposition_lines by done. pose proof names_clash as Hn. rewrite forallb_forall in Hn.
  assert (∀ b w k, clash rejections_prefix b = true → starts k (b +:+ w) → has_prefix rejections_prefix k = false) as Hk.
  { intros b w k Hb Hw. apply not_true_is_false. intros Hp%has_prefix_starts. eapply clash_starts; [exact Hb|]. by eapply starts_trans. }
  intros [(s&->&Hs)%list_elem_of_fmap| ->%list_elem_of_singleton]%elem_of_app.
  - pose proof (sample_named _ _ _ _ (reached_ok _ Hr) Hs) as Hin. pose proof (Hn _ (proj1 (list_elem_of_In _ _) Hin)) as Hc. unfold line.
    assert (∃ b, sm_Name s = String "s" b) as [b Eb].
    { revert Hin. generalize (sm_Name s). apply Forall_forall. unfold block_names; cbn [concat app]. repeat (constructor; [by eexists|]). constructor. }
    rewrite Eb in *. rewrite str_app_cons. set (w := _ +:+ (_ +:+ _)). eexists. split; [|exists ""; symmetry; apply str_app_nil_r].
    intros k Hw. eapply Hk; [exact Hc|]. rewrite str_app_cons. exact Hw.
  - exists "". split; [|by exists "s"]. intros k [x Ex]. destruct k as [|? [|]]; [done| |done]. by injection Ex as <- _.
Qed.
Lemma scan_unseen `{Float64} ParseFloat n r p now k v : reached r → (∀ f, str_free "010" (f_string f)) →
  (scan ParseFloat ∅ (str_split "010" (str_take n (exposition r p now)))).1 !! k = Some v → has_prefix rejections_prefix k = false.
Proof.
  intros Hr Hf Hv. apply (scan_keys _ (λ u, ∀ k, starts k u → has_prefix rejections_prefix k = false)) in Hv as [Hv|(u&Hu&Hk)];
    [by rewrite lookup_empty in Hv|by apply Hu|].
  apply Forall_forall. intros t (w&Hw&Ht)%split_take_starts. destruct (exposition_line _ _ _ _ Hr Hf Hw) as (u&Hu&Hs).
  exists u. split; [done|]. by eapply starts_trans.
Qed.
Lemma rejections_none `{Float64} f_sub f_div f_positive before after duration :
  (∀ k v, after !! k = Some v → has_prefix rejections_prefix k = false) →
  (compareMetrics f_sub f_div f_positive before after duration).2 !! "rejections" = Some f_zero.
Proof.
  intros Ha. unfold compareMetrics. cbn [snd]. rewrite (sum_prefix_none "sakhtar_wg_proxy_rejections_total").
  - by destruct (f_positive duration); simplify_map_eq.
  - intros k v. unfold delta. rewrite map_lookup_imap. intros (v'&Hv&_)%bind_Some. by eapply Ha.
Qed.
(** The rejections derived from two scrapes of the daemon are none, whatever was rejected
    between them: no series of the exposition has the name that is summed. *)
Theorem rejections_unseen `{Float64} f_sub f_div f_positive ParseFloat before r p now duration : reached r → (∀ f, str_free "010" (f_string f)) →
  (compareMetrics f_sub f_div f_positive before (scrape ParseFloat (exposition r p now)).1 duration).2 !! "rejections" = Some f_zero.
Proof. intros Hr Hf. apply rejections_none. intros k v. unfold scrape. by apply scan_unseen. Qed.

Module LoadgenDemo.
Definition demo_options : options :=
  {| o_target := "127.0.0.1:443"; o_managementURL := ""; o_protocol := "http"; o_host := "proxy.example"; o_requests := 3; o_concurrency := 2;
     o_timeout := 5; o_hold := 0; o_readBytes := 1; o_slowloris := 0; o_reloadPID := 0; o_reloadAfter := 0; o_output := "" |}.
(** The first connection is refused, the second gets no response, the others do. *)
Definition demo_net (i : nat) : answers :=
  {| an_dial := if i =? 0 then Some RefusedError else None; an_write := λ _ _, None; an_hold := None;
     an_read := if i =? 1 then Some EOFError else None; an_setup := 7; an_reloaded := false |}.
Lemma run_accounts_witness : ∃ t, run demo_options demo_net = Ok t ∧ ta_Attempted t = 3%Z ∧ ta_WriteSucceeded t = 2%Z ∧ ta_Failed t = 2%Z ∧
  ta_Failed t = metrics_sum (ta_Errors t).
Proof.
  pose proof (run_accounts demo_options demo_net ltac:(vm_compute; reflexivity) ltac:(vm_compute; reflexivity)) as Hr.
  destruct (run demo_options demo_net) as [t|] eqn:E; [|exfalso; revert Hr; vm_compute; discriminate].
  exists t. split; [reflexivity|]. split; [apply Hr|]. revert Hr. vm_compute in E. injection E as <-. intros Hr.
  split; [reflexivity|]. split; [reflexivity|apply Hr].
Defined.
(** The registry has three rejected sessions, and the comparison none. *)
Lemma rejections_unseen_witness :
  metrics_sum (px_Rejected (rg_proxy RegistryDemo.seen)) = 3%Z ∧
  (compareMetrics (H := RegistryDemo.whole) Z.sub Z.div (Z.ltb 0) ∅
    (scrape (H := RegistryDemo.whole) (λ _, Some 2%Z) (exposition (H := RegistryDemo.whole) RegistryDemo.seen RegistryDemo.proc 0)).1 5%Z).2
    !! "rejections" = Some 0%Z.
Proof.
  split; [vm_compute; reflexivity|].
  apply (rejections_unseen (H := RegistryDemo.whole)); [apply reached_proxy, reached_wg, reached_new|intros f; by apply itoa_free].
Defined.
End LoadgenDemo.
