(* ===== verification/DnsCache.v ===== *)
(** * internal/dns: the bounded, sharded, single-flight DNS cache

    types.go, cache.go, metrics.go and resolver.go.  Every critical section of
    the cache is one function on the cache state: [takeEntry] and [insert] under a
    shard lock, [startFlight] and the end of [runFlight] under the flight lock.
    The goroutines that run resolver calls are explicit, and [step] interleaves
    the critical sections of any number of callers and flights.

    A flight is a heap object shared by its callers, so flights live in a store
    and are named by identifiers.  A loop over a Go map runs in an unspecified
    order, given here as a list of the keys. *)
From S2P Require Import Prelude Netip.

(** ** types.go *)
Definition RCodeSuccess : Z := 0.
Definition RCodeNXDOMAIN : Z := 1.
Definition RCodeNODATA : Z := 2.
Definition RCodeTransient : Z := 3.

Definition rcode_String (r : Z) : string :=
  if (r =? RCodeSuccess)%Z then "positive"
  else if (r =? RCodeNXDOMAIN)%Z then "nxdomain"
  else if (r =? RCodeNODATA)%Z then "nodata"
  else if (r =? RCodeTransient)%Z then "transient"
  else "unknown".

Definition FamilyAny : Z := 0.
Definition FamilyIPv4 : Z := 1.
Definition FamilyIPv6 : Z := 2.

(** Slices are values here, so [clone] is the identity and is not written. *)
Record Result := { Addrs : list Addr; ExpiresAt : Z; rcode : Z }.
Definition result_zero : Result := {| Addrs := []; ExpiresAt := 0; rcode := RCodeSuccess |}.

Record Query := { Host : string; q_Family : Z; Egress : string; q_Resolver : string; Generation : Z }.

Record key := { host : string; family : Z; egress : string; resolver : string; generation : Z }.
#[export] Instance key_eq_dec : EqDecision key.
Proof. solve_decision. Defined.
#[export] Instance key_countable : Countable key.
Proof.
  apply (inj_countable' (λ k, (host k, family k, egress k, resolver k, generation k))
    (λ '(h, f, e, r, g), {| host := h; family := f; egress := e; resolver := r; generation := g |})).
  by intros [].
Defined.

(** Why a resolution failed; the resolver's own error, or one of the cache's. *)
Inductive cause (E : Type) := ResolverErr (e : E) | ResolverPanicked | InvalidResponseClass.
Arguments ResolverErr {E} e.
Arguments ResolverPanicked {E}.
Arguments InvalidResponseClass {E}.

Inductive cache_error (E : Type) :=
| NilResolver | InvalidHostname | InvalidFamily (f : Z) | ErrPendingLimit
| ResolveError (c : cause E) | CtxDone.
Arguments NilResolver {E}.
Arguments InvalidHostname {E}.
Arguments InvalidFamily {E} f.
Arguments ErrPendingLimit {E}.
Arguments ResolveError {E} c.
Arguments CtxDone {E}.

Definition makeKey `{UnicodeTables} {E} (q : Query) : result (cache_error E) key :=
  let host := to_lower (trim_suffix "." (Host q)) in
  if bool_decide (host = "") || negb (bool_decide (trim_space host = host)) then Err InvalidHostname
  else if (FamilyIPv6 <? q_Family q)%Z then Err (InvalidFamily (q_Family q))
  else Ok {| host := host; family := q_Family q; egress := Egress q;
             resolver := q_Resolver q; generation := Generation q |}.

Definition StaleNever : string := "never".
Definition StaleTransient : string := "transient".

Record Policy := {
  PositiveCapacity : Z; NegativeCapacity : Z; MaxPending : Z;
  MinPositiveTTL : Z; MaxPositiveTTL : Z; NegativeTTL : Z; TransientFailureTTL : Z;
  StaleWindow : Z; Stale_Policy : string; ResolverTimeout : Z }.

Inductive policy_error :=
| BadPositiveCapacity | BadNegativeCapacity | BadMaxPending | BadMinPositiveTTL
| BadMaxPositiveTTL | BadNegativeTTL | BadTransientTTL | BadStaleWindow
| BadStalePolicy (p : string) | BadResolverTimeout.

Definition Validate (p : Policy) : result policy_error unit :=
  if (PositiveCapacity p <=? 0)%Z then Err BadPositiveCapacity
  else if (NegativeCapacity p <=? 0)%Z then Err BadNegativeCapacity
  else if (MaxPending p <=? 0)%Z then Err BadMaxPending
  else if (MinPositiveTTL p <=? 0)%Z then Err BadMinPositiveTTL
  else if (MaxPositiveTTL p <? MinPositiveTTL p)%Z then Err BadMaxPositiveTTL
  else if (NegativeTTL p <=? 0)%Z then Err BadNegativeTTL
  else if (TransientFailureTTL p <=? 0)%Z then Err BadTransientTTL
  else if (StaleWindow p <? 0)%Z then Err BadStaleWindow
  else if negb (bool_decide (Stale_Policy p = StaleNever)) &&
          negb (bool_decide (Stale_Policy p = StaleTransient)) then
    Err (BadStalePolicy (Stale_Policy p))
  else if (ResolverTimeout p <=? 0)%Z then Err BadResolverTimeout
  else Ok tt.

(** ** metrics.go *)
Inductive request_kind :=
| requestHit | requestMiss | requestStale | requestNegative | requestRefresh | requestRejected.
#[export] Instance request_kind_eq_dec : EqDecision request_kind.
Proof. solve_decision. Defined.

Inductive entry_class := classPositive | classNegative.
#[export] Instance entry_class_eq_dec : EqDecision entry_class.
Proof. solve_decision. Defined.

(** An array indexed by the class. *)
Record per_class := { of_positive : Z; of_negative : Z }.
Definition at_class (p : per_class) (c : entry_class) : Z :=
  match c with classPositive => of_positive p | classNegative => of_negative p end.
Definition add_class (p : per_class) (c : entry_class) (n : Z) : per_class :=
  match c with
  | classPositive => {| of_positive := of_positive p + n; of_negative := of_negative p |}
  | classNegative => {| of_positive := of_positive p; of_negative := of_negative p + n |}
  end.

Record resolutionMetric := { count : Z; nanos : Z }.

Record metrics := {
  m_entries : per_class; evictions : per_class; requests : request_kind → Z;
  pending : Z; rejected : Z; resolution : gmap string resolutionMetric }.

Definition metrics_zero : metrics := {|
  m_entries := {| of_positive := 0; of_negative := 0 |};
  evictions := {| of_positive := 0; of_negative := 0 |};
  requests := λ _, 0%Z; pending := 0; rejected := 0; resolution := ∅ |}.

Definition maxEgressLabels : nat := 16.
Definition egressDirect : string := "direct".

Definition add_entries (m : metrics) (c : entry_class) (n : Z) : metrics := {|
  m_entries := add_class (m_entries m) c n; evictions := evictions m; requests := requests m;
  pending := pending m; rejected := rejected m; resolution := resolution m |}.
Definition add_eviction (m : metrics) (c : entry_class) : metrics := {|
  m_entries := m_entries m; evictions := add_class (evictions m) c 1; requests := requests m;
  pending := pending m; rejected := rejected m; resolution := resolution m |}.
Definition add_request (m : metrics) (k : request_kind) : metrics := {|
  m_entries := m_entries m; evictions := evictions m;
  requests := λ k', if decide (k' = k) then wrap64 (requests m k + 1) else requests m k';
  pending := pending m; rejected := rejected m; resolution := resolution m |}.
Definition add_pending (m : metrics) (n : Z) : metrics := {|
  m_entries := m_entries m; evictions := evictions m; requests := requests m;
  pending := pending m + n; rejected := rejected m; resolution := resolution m |}.
Definition add_rejected (m : metrics) : metrics := {|
  m_entries := m_entries m; evictions := evictions m; requests := requests m;
  pending := pending m; rejected := wrap64 (rejected m + 1); resolution := resolution m |}.

Definition recordResolution (m : metrics) (rc : Z) (eg : string) (elapsed : Z) : metrics :=
  let rc := if (RCodeTransient <? rc)%Z then RCodeTransient else rc in
  let eg := if bool_decide (eg = "") then egressDirect else eg in
  let key := rcode_String rc +:+ "|" +:+ eg in
  let key := match resolution m !! key with
             | Some _ => key
             | None => if maxEgressLabels * 4 <=? size (resolution m)
                       then rcode_String rc +:+ "|other" else key
             end in
  let old := default {| count := 0; nanos := 0 |} (resolution m !! key) in
  {| m_entries := m_entries m; evictions := evictions m; requests := requests m;
     pending := pending m; rejected := rejected m;
     resolution := <[key := {| count := wrap64 (count old + 1);
                               nanos := wrap64 (nanos old + (elapsed `max` 0)) |}]>
                     (resolution m) |}.

(** [MetricsSnapshot] and [snapshot]; the counters are read one by one. *)
Record MetricsSnapshot := {
  EntriesPositive : Z; EntriesNegative : Z; EvictionsPositive : Z; EvictionsNegative : Z;
  Requests : gmap string Z; Pending : Z; RejectedPending : Z;
  Resolutions : gmap string resolutionMetric }.

Definition request_names : list (string * request_kind) :=
  [("hit", requestHit); ("miss", requestMiss); ("stale", requestStale);
   ("negative", requestNegative); ("refresh", requestRefresh); ("rejection", requestRejected)].

Definition metrics_snapshot (m : metrics) : MetricsSnapshot := {|
  EntriesPositive := of_positive (m_entries m); EntriesNegative := of_negative (m_entries m);
  EvictionsPositive := of_positive (evictions m); EvictionsNegative := of_negative (evictions m);
  Requests := list_to_map ((λ nk, (nk.1, requests m nk.2)) <$> request_names);
  Pending := pending m; RejectedPending := rejected m; Resolutions := resolution m |}.

(** ** resolver.go

    [lookup] is [LookupNetIP]: the addresses, or an error with whether it is a
    [net.DNSError] that says the name was not found. *)
Definition lookup_network (fam : Z) : string :=
  if (fam =? FamilyIPv4)%Z then "ip4" else if (fam =? FamilyIPv6)%Z then "ip6" else "ip".

Definition NetResolver_Resolve {E} (lookup : string → string → result (E * bool) (list Addr))
    (localTTL now : Z) (q : Query) : result E Result :=
  match lookup (lookup_network (q_Family q)) (Host q) with
  | Err (_, true) => Ok {| Addrs := []; ExpiresAt := 0; rcode := RCodeNXDOMAIN |}
  | Err (e, false) => Err e
  | Ok [] => Ok {| Addrs := []; ExpiresAt := 0; rcode := RCodeNODATA |}
  | Ok addrs => Ok {| Addrs := addrs; ExpiresAt := now + localTTL; rcode := RCodeSuccess |}
  end.

(** ** cache.go: data *)
Section cache.
Context {E : Type}.

Record cacheEntry := {
  result_ : Result; err : option (cache_error E); stale : Result; staleUntil : Z }.
Definition entry_zero : cacheEntry :=
  {| result_ := result_zero; err := None; stale := result_zero; staleUntil := 0 |}.

Definition class (e : cacheEntry) : entry_class :=
  if (rcode (result_ e) =? RCodeSuccess)%Z then classPositive else classNegative.

Record cacheShard := {
  entries : gmap key cacheEntry; counts : per_class; positiveCap : Z; negativeCap : Z }.

Definition capacity (s : cacheShard) (c : entry_class) : Z :=
  match c with classPositive => positiveCap s | classNegative => negativeCap s end.

(** [done] is the channel: closed or not. *)
Record flight := {
  done_ : bool; f_result : Result; f_err : option (cache_error E);
  f_stale : Result; serveStale : bool }.

(** A goroutine that runs [runFlight]: its arguments, and after [insert] the
    result it will publish. *)
Record running := {
  r_key : key; r_stale : Result; r_staleUntil : Z;
  r_inserted : option (Result * option (cache_error E)) }.

Record Cache := {
  policy : Policy; shards : list cacheShard; flights : gmap key nat;
  pendingByEgress : gmap string Z; mets : metrics;
  heap : gmap nat flight; goroutines : gmap nat running }.

Definition defaultShardCount : Z := 16.

Definition distributedCapacity (total shards index : Z) : Z :=
  if (index <? Z.rem total shards)%Z then (Z.quot total shards + 1)%Z else Z.quot total shards.

Definition shard_count (p : Policy) : Z :=
  (defaultShardCount `min` (PositiveCapacity p `min` NegativeCapacity p))%Z.

Definition NewCache (p : Policy) : result policy_error Cache :=
  match Validate p with
  | Err e => Err e
  | Ok _ =>
      let n := shard_count p in
      Ok {| policy := p;
            shards := (λ i, {| entries := ∅; counts := {| of_positive := 0; of_negative := 0 |};
                               positiveCap := distributedCapacity (PositiveCapacity p) n (Z.of_nat i);
                               negativeCap := distributedCapacity (NegativeCapacity p) n (Z.of_nat i) |})
                      <$> seq 0 (Z.to_nat n);
            flights := ∅; pendingByEgress := ∅; mets := metrics_zero;
            heap := ∅; goroutines := ∅ |}
  end.

(** ** shardFor: FNV-1a over the fields of the key *)
Definition fnv_byte (h b : Z) : Z := wrap64 (Z.lxor h b * 1099511628211).
Fixpoint fnv_string (h : Z) (s : string) : Z :=
  match s with EmptyString => h | String c s => fnv_string (fnv_byte h (byte_of c)) s end.
Definition key_hash (k : key) : Z :=
  let h := fnv_string 14695981039346656037 (host k) in
  let h := fnv_byte h (family k mod 256) in
  let h := fnv_string h (egress k) in
  let h := fnv_string h (resolver k) in
  foldl (λ h i, fnv_byte h (Z.shiftr (generation k) (i * 8) mod 256)) h [0; 1; 2; 3; 4; 5; 6; 7]%Z.
Definition shardFor (c : Cache) (k : key) : nat :=
  Z.to_nat (key_hash k mod Z.of_nat (length (shards c))).

(** ** Entries under a shard lock *)
Definition with_shards (c : Cache) (s : list cacheShard) (m : metrics) : Cache := {|
  policy := policy c; shards := s; flights := flights c; pendingByEgress := pendingByEgress c;
  mets := m; heap := heap c; goroutines := goroutines c |}.
Definition with_metrics (c : Cache) (m : metrics) : Cache := with_shards c (shards c) m.

Definition canServeStale (p : Policy) (e : cacheEntry) (now : Z) : bool :=
  bool_decide (Stale_Policy p = StaleTransient) &&
  negb (length (Addrs (stale e)) =? 0) && (now <? staleUntil e)%Z.

(** [deleteLocked] on the shard and the metrics. *)
Definition deleteLocked (sm : cacheShard * metrics) (k : key) (e : cacheEntry) :
    cacheShard * metrics :=
  let '(s, m) := sm in
  ({| entries := delete k (entries s); counts := add_class (counts s) (class e) (-1);
      positiveCap := positiveCap s; negativeCap := negativeCap s |},
   add_entries m (class e) (-1)).

Definition sweep_one (now : Z) (sm : cacheShard * metrics) (k : key) : cacheShard * metrics :=
  match entries sm.1 !! k with
  | Some e => if negb (now <? ExpiresAt (result_ e))%Z && negb (now <? staleUntil e)%Z
              then deleteLocked sm k e else sm
  | None => sm
  end.
(** The loop looks at the first [limit] keys of the iteration order. *)
Definition sweepLocked (order : list key) (sm : cacheShard * metrics) (now : Z) (limit : nat) :
    cacheShard * metrics :=
  foldl (sweep_one now) sm (take limit order).

(** The first key of the order whose entry has the class. *)
Fixpoint find_victim (s : cacheShard) (c : entry_class) (order : list key) : option (key * cacheEntry) :=
  match order with
  | [] => None
  | k :: order =>
      match entries s !! k with
      | Some e => if decide (class e = c) then Some (k, e) else find_victim s c order
      | None => find_victim s c order
      end
  end.

(** [insert] on the shard: [order1] is the order of the sweep and [order2] that of
    the search for a victim. *)
Definition insert_shard (order1 order2 : list key) (sm : cacheShard * metrics) (k : key)
    (e : cacheEntry) (now : Z) : cacheShard * metrics :=
  let sm := sweepLocked order1 sm now 4 in
  let sm := match entries sm.1 !! k with
            | Some previous => deleteLocked sm k previous
            | None => sm
            end in
  let sm := if (capacity sm.1 (class e) <=? at_class (counts sm.1) (class e))%Z then
              match find_victim sm.1 (class e) order2 with
              | Some (vk, v) => let '(s, m) := deleteLocked sm vk v in (s, add_eviction m (class e))
              | None => sm
              end
            else sm in
  let '(s, m) := sm in
  ({| entries := <[k := e]> (entries s); counts := add_class (counts s) (class e) 1;
      positiveCap := positiveCap s; negativeCap := negativeCap s |},
   add_entries m (class e) 1).

(** Run a function on the shard of a key. *)
Definition on_shard (c : Cache) (k : key) (f : cacheShard * metrics → cacheShard * metrics) : Cache :=
  match shards c !! shardFor c k with
  | Some s => let '(s, m) := f (s, mets c) in
              with_shards c (<[shardFor c k := s]> (shards c)) m
  | None => c
  end.

Definition lookup_entry (c : Cache) (k : key) : option cacheEntry :=
  match shards c !! shardFor c k with Some s => entries s !! k | None => None end.

Definition insert_ (order1 order2 : list key) (c : Cache) (k : key) (e : cacheEntry) (now : Z) : Cache :=
  on_shard c k (λ sm, insert_shard order1 order2 sm k e now).

Definition takeEntry (c : Cache) (k : key) (now : Z) : cacheEntry * bool * Cache :=
  match lookup_entry c k with
  | None => (entry_zero, false, c)
  | Some e =>
      if (now <? ExpiresAt (result_ e))%Z then (e, true, c)
      else if (rcode (result_ e) =? RCodeTransient)%Z && canServeStale (policy c) e now
      then (e, false, c)
      else (e, false, on_shard c k (λ sm, deleteLocked sm k e))
  end.

Definition peekFresh (c : Cache) (k : key) (now : Z) : option cacheEntry :=
  match lookup_entry c k with
  | Some e => if (now <? ExpiresAt (result_ e))%Z then Some e else None
  | None => None
  end.

Definition Invalidate `{UnicodeTables} (c : Cache) (q : Query) : Cache :=
  match makeKey (E := E) q with
  | Err _ => c
  | Ok k =>
      match lookup_entry c k with
      | None => c
      | Some e => on_shard c k (λ sm, let '(s, m) := deleteLocked sm k e in (s, add_eviction m (class e)))
      end
  end.

(** ** Results *)
Definition normalize_step (st : list Addr * gset Addr) (addr : Addr) : list Addr * gset Addr :=
  let '(out, seen) := st in
  if negb (IsValid addr) || negb (bool_decide (Zone addr = "")) then st
  else let addr := Unmap addr in
       if bool_decide (addr ∈ seen) then st else (out ++ [addr], {[addr]} ∪ seen).
Definition normalizeAddrs (input : list Addr) : list Addr :=
  (foldl normalize_step ([], ∅) input).1.

Definition transient (p : Policy) (now : Z) (c : cause E) : Result * option (cache_error E) :=
  ({| Addrs := []; ExpiresAt := now + TransientFailureTTL p; rcode := RCodeTransient |},
   Some (ResolveError c)).

(** [answer] is what [callResolver] returned: a recovered panic is an error. *)
Definition normalizeResult (p : Policy) (answer : result (cause E) Result) (now : Z) :
    Result * option (cache_error E) :=
  match answer with
  | Err e => transient p now e
  | Ok r =>
      let addrs := normalizeAddrs (Addrs r) in
      let rc := if (rcode r =? RCodeSuccess)%Z && (length addrs =? 0) then RCodeNODATA else rcode r in
      if (rc =? RCodeSuccess)%Z then
        let ttl := time_sub (ExpiresAt r) now in
        let ttl := if (ttl <? MinPositiveTTL p)%Z then MinPositiveTTL p else ttl in
        let ttl := if (MaxPositiveTTL p <? ttl)%Z then MaxPositiveTTL p else ttl in
        ({| Addrs := addrs; ExpiresAt := now + ttl; rcode := rc |}, None)
      else if (rc =? RCodeNXDOMAIN)%Z || (rc =? RCodeNODATA)%Z then
        ({| Addrs := []; ExpiresAt := now + NegativeTTL p; rcode := rc |}, None)
      else transient p now InvalidResponseClass
  end.

(** What [callResolver] makes of a resolver call that returns or panics. *)
Definition callResolver (outcome : option (result E Result)) : result (cause E) Result :=
  match outcome with
  | None => Err ResolverPanicked
  | Some (Ok r) => Ok r
  | Some (Err e) => Err (ResolverErr e)
  end.

(** ** Flights *)
Definition fresh_flight (c : Cache) : nat := fresh (dom (heap c)).

(** The outcome of [startFlight]: the flight joined or started, or the limit. *)
Definition startFlight (c : Cache) (k : key) (st : Result) (until : Z) (serve : bool)
    (now1 now2 : Z) : result (cache_error E) nat * Cache :=
  match flights c !! k with
  | Some existing => (Ok existing, c)
  | None =>
      let id := fresh_flight c in
      match peekFresh c k now1 with
      | Some e =>
          let '(r, er) :=
            if (rcode (result_ e) =? RCodeTransient)%Z then
              if canServeStale (policy c) e now2 then (stale e, None) else (result_ e, err e)
            else (result_ e, None) in
          let f := {| done_ := true; f_result := r; f_err := er;
                      f_stale := result_zero; serveStale := false |} in
          (Ok id, {| policy := policy c; shards := shards c; flights := flights c;
                     pendingByEgress := pendingByEgress c; mets := mets c;
                     heap := <[id := f]> (heap c); goroutines := goroutines c |})
      | None =>
          let waiting := default 0%Z (pendingByEgress c !! egress k) in
          if (MaxPending (policy c) <=? waiting)%Z then
            (Err ErrPendingLimit,
             with_metrics c (add_request (add_rejected (mets c)) requestRejected))
          else
            let f := {| done_ := false; f_result := result_zero; f_err := None;
                        f_stale := st; serveStale := serve |} in
            (Ok id, {| policy := policy c; shards := shards c; flights := <[k := id]> (flights c);
                       pendingByEgress := <[egress k := (waiting + 1)%Z]> (pendingByEgress c);
                       mets := add_pending (mets c) 1; heap := <[id := f]> (heap c);
                       goroutines := <[id := {| r_key := k; r_stale := st; r_staleUntil := until;
                                                r_inserted := None |}]> (goroutines c) |})
      end
  end.

(** The entry that [runFlight] caches for a normalized result. *)
Definition flight_entry (p : Policy) (g : running) (r : Result) (er : option (cache_error E))
    (now : Z) : cacheEntry :=
  if (rcode r =? RCodeSuccess)%Z then
    {| result_ := r; err := er; stale := result_zero; staleUntil := ExpiresAt r + StaleWindow p |}
  else if (rcode r =? RCodeTransient)%Z && negb (length (Addrs (r_stale g)) =? 0) &&
          (now <? r_staleUntil g)%Z then
    {| result_ := r; err := er; stale := r_stale g; staleUntil := r_staleUntil g |}
  else {| result_ := r; err := er; stale := result_zero; staleUntil := 0 |}.

(** [runFlight] up to the assignment of the outcome: resolve, normalize, count,
    insert and choose what the flight publishes. *)
Definition flight_insert (order1 order2 : list key) (c : Cache) (id : nat) (g : running)
    (outcome : option (result E Result)) (now elapsed : Z) : Cache :=
  let '(r, er) := normalizeResult (policy c) (callResolver outcome) now in
  let c := with_metrics c (recordResolution (mets c) (rcode r) (egress (r_key g)) elapsed) in
  let e := flight_entry (policy c) g r er now in
  let c := insert_ order1 order2 c (r_key g) e now in
  let '(published, c) :=
    if (rcode r =? RCodeTransient)%Z && canServeStale (policy c) e now
    then ((stale e, None), with_metrics c (add_request (mets c) requestStale))
    else ((r, er), c) in
  {| policy := policy c; shards := shards c; flights := flights c;
     pendingByEgress := pendingByEgress c; mets := mets c; heap := heap c;
     goroutines := <[id := {| r_key := r_key g; r_stale := r_stale g;
                              r_staleUntil := r_staleUntil g;
                              r_inserted := Some published |}]> (goroutines c) |}.

(** The end of [runFlight]: publish, unregister and close under the flight lock. *)
Definition flight_finish (c : Cache) (id : nat) (g : running)
    (published : Result * option (cache_error E)) : Cache :=
  let eg := egress (r_key g) in
  let left := (default 0 (pendingByEgress c !! eg) - 1)%Z in
  {| policy := policy c; shards := shards c; flights := delete (r_key g) (flights c);
     pendingByEgress := if (left <=? 0)%Z then delete eg (pendingByEgress c)
                        else <[eg := left]> (pendingByEgress c);
     mets := add_pending (mets c) (-1);
     heap := alter (λ f, {| done_ := true; f_result := published.1; f_err := published.2;
                            f_stale := f_stale f; serveStale := serveStale f |}) id (heap c);
     goroutines := delete id (goroutines c) |}.

(** ** Resolve

    What a caller does before it has to wait: an answer, or a flight to wait for. *)
Inductive resolve_outcome :=
| Answer (r : Result) (e : option (cache_error E))
| WaitFor (id : nat).

(** [f.result] of a closed flight. *)
Definition flight_answer (c : Cache) (id : nat) : option (Result * option (cache_error E)) :=
  match heap c !! id with
  | Some f => if done_ f then Some (f_result f, f_err f) else None
  | None => None
  end.

(** The first critical section: an answer from the cache, or the stale candidate
    and whether it may be served while a refresh runs. *)
Inductive lookup_outcome :=
| Fresh (r : Result) (e : option (cache_error E))
| NeedFlight (st : Result) (until : Z) (serve : bool).

Definition resolve_lookup (c : Cache) (k : key) (now : Z) : lookup_outcome * Cache :=
  let '(e, found, c) := takeEntry c k now in
  let rc := rcode (result_ e) in
  if found && (rc =? RCodeSuccess)%Z then
    (Fresh (result_ e) None, with_metrics c (add_request (mets c) requestHit))
  else if found && ((rc =? RCodeNXDOMAIN)%Z || (rc =? RCodeNODATA)%Z) then
    (Fresh (result_ e) None, with_metrics c (add_request (mets c) requestNegative))
  else if found && (rc =? RCodeTransient)%Z then
    if canServeStale (policy c) e now
    then (Fresh (stale e) None, with_metrics c (add_request (mets c) requestStale))
    else (Fresh (result_ e) (err e), with_metrics c (add_request (mets c) requestNegative))
  else if (rc =? RCodeSuccess)%Z && (now <? staleUntil e)%Z then
    (NeedFlight (result_ e) (staleUntil e) false, c)
  else if (rc =? RCodeTransient)%Z && canServeStale (policy c) e now then
    (NeedFlight (stale e) (staleUntil e) true, c)
  else (NeedFlight result_zero 0 false, c).

(** The second critical section and the non-blocking look at the flight. *)
Definition resolve_start (c : Cache) (k : key) (st : Result) (until : Z) (serve : bool)
    (now1 now2 : Z) : resolve_outcome * Cache :=
  if serve then
    match startFlight c k st until true now1 now2 with
    | (Err e, c) => (Answer result_zero (Some e), c)
    | (Ok id, c) =>
        match flight_answer c id with
        | Some (r, e) => (Answer r e, c)
        | None => (Answer st None,
                   with_metrics c (add_request (add_request (mets c) requestRefresh) requestStale))
        end
    end
  else
    let c := with_metrics c (add_request (mets c) requestMiss) in
    match startFlight c k st until false now1 now2 with
    | (Err e, c) => (Answer result_zero (Some e), c)
    | (Ok id, c) =>
        match flight_answer c id with
        | Some (r, e) => (Answer r e, c)
        | None =>
            match heap c !! id with
            | Some f => if serveStale f && negb (length (Addrs (f_stale f)) =? 0)
                        then (Answer (f_stale f) None, with_metrics c (add_request (mets c) requestStale))
                        else (WaitFor id, c)
            | None => (WaitFor id, c)
            end
        end
    end.

(** [Resolve] up to the wait, when no other caller runs between its two critical
    sections. *)
Definition Resolve `{UnicodeTables} (c : Cache) (q : Query) (nil_resolver : bool)
    (now now1 now2 : Z) : resolve_outcome * Cache :=
  if nil_resolver then (Answer result_zero (Some NilResolver), c)
  else match makeKey q with
       | Err e => (Answer result_zero (Some e), c)
       | Ok k =>
           match resolve_lookup c k now with
           | (Fresh r e, c) => (Answer r e, c)
           | (NeedFlight st until serve, c) => resolve_start c k st until serve now1 now2
           end
       end.

(** [waitForFlight]: nothing yet, the flight's outcome, or the context's end. *)
Definition waitForFlight (c : Cache) (id : nat) (ctx_done : bool) :
    option (Result * option (cache_error E)) :=
  match flight_answer c id with
  | Some a => Some a
  | None => if ctx_done then Some (result_zero, Some CtxDone) else None
  end.

(** ** Interleavings

    One critical section of some caller or of some flight. *)
Definition orders (c : Cache) (k : key) (order : list key) : Prop :=
  match shards c !! shardFor c k with
  | Some s => order ≡ₚ (map_to_list (entries s)).*1
  | None => order = []
  end.

(** The system: the cache, the callers that are between the two critical sections of
    [Resolve], each with the locals it carries from the first, and for each flight the
    time at which the caller that opened it had looked at the cache.  No operation reads
    the last component. *)
Record ticket := { t_key : key; t_stale : Result; t_until : Z; t_serve : bool; t_now : Z }.
Record sys := { cache_ : Cache; callers : list ticket; began : gmap nat Z }.

Definition after_lookup (ts : list ticket) (k : key) (now : Z) (o : lookup_outcome) : list ticket :=
  match o with
  | Fresh _ _ => ts
  | NeedFlight st until serve =>
      {| t_key := k; t_stale := st; t_until := until; t_serve := serve; t_now := now |} :: ts
  end.
Definition start_caller (c : Cache) (t : ticket) (now1 now2 : Z) : resolve_outcome * Cache :=
  resolve_start c (t_key t) (t_stale t) (t_until t) (t_serve t) now1 now2.
(** A flight in [c'] that was not in [c] was opened by [t]. *)
Definition opened (b : gmap nat Z) (c c' : Cache) (t : ticket) : gmap nat Z :=
  match flights c !! t_key t, flights c' !! t_key t with
  | None, Some id => <[id := t_now t]> b
  | _, _ => b
  end.

Inductive step : sys → sys → Prop :=
| step_lookup c ts b k now :
    step {| cache_ := c; callers := ts; began := b |}
         {| cache_ := (resolve_lookup c k now).2;
            callers := after_lookup ts k now (resolve_lookup c k now).1; began := b |}
| step_start c ts1 t ts2 b now1 now2 :
    step {| cache_ := c; callers := ts1 ++ t :: ts2; began := b |}
         {| cache_ := (start_caller c t now1 now2).2;
            callers := ts1 ++ ts2; began := opened b c (start_caller c t now1 now2).2 t |}
| step_insert c ts b order1 order2 id g outcome now elapsed :
    goroutines c !! id = Some g → r_inserted g = None → orders c (r_key g) order1 →
    order2 ≡ₚ order1 →
    step {| cache_ := c; callers := ts; began := b |}
         {| cache_ := flight_insert order1 order2 c id g outcome now elapsed; callers := ts; began := b |}
| step_finish c ts b id g published :
    goroutines c !! id = Some g → r_inserted g = Some published →
    step {| cache_ := c; callers := ts; began := b |}
         {| cache_ := flight_finish c id g published; callers := ts; began := b |}
| step_invalidate `{UnicodeTables} c ts b q :
    step {| cache_ := c; callers := ts; began := b |} {| cache_ := Invalidate c q; callers := ts; began := b |}.

End cache.
Arguments Cache : clear implicits.
Arguments cacheEntry : clear implicits.
Arguments cacheShard : clear implicits.
Arguments sys : clear implicits.
Arguments running : clear implicits.
Arguments flight : clear implicits.
#[local] Opaque key_hash.
#[local] Arguments at_class : simpl never.
#[local] Arguments add_class : simpl never.
#[local] Arguments class : simpl never.

(** ** Counting entries by class *)
Section counting.
Context {E : Type}.
Implicit Types (m : gmap key (cacheEntry E)) (s : cacheShard E).

Definition class_count m (cl : entry_class) : nat :=
  size (filter (λ ke, class ke.2 = cl) m).

Lemma class_count_delete m k e cl :
  m !! k = Some e →
  Z.of_nat (class_count (delete k m) cl) =
  (Z.of_nat (class_count m cl) - if decide (class e = cl) then 1 else 0)%Z.
Proof.
  intros Hk. unfold class_count. rewrite map_filter_delete, map_size_delete, map_lookup_filter, Hk.
  simpl. destruct (decide (class e = cl)) as [Hc|Hc].
  - rewrite option_guard_True by done. simpl.
    assert (filter (λ ke : key * cacheEntry E, class ke.2 = cl) m !! k = Some e) as Hf
      by (by apply map_lookup_filter_Some).
    assert (size (filter (λ ke : key * cacheEntry E, class ke.2 = cl) m) ≠ 0); [|lia].
    intros Hz%map_size_empty_inv. rewrite Hz in Hf. done.
  - rewrite option_guard_False by done. simpl. lia.
Qed.

Lemma class_count_insert m k e cl :
  m !! k = None →
  Z.of_nat (class_count (<[k := e]> m) cl) =
  (Z.of_nat (class_count m cl) + if decide (class e = cl) then 1 else 0)%Z.
Proof.
  intros Hk. unfold class_count. destruct (decide (class e = cl)) as [Hc|Hc].
  - rewrite map_filter_insert_True by done.
    rewrite map_size_insert_None; [lia|]. apply map_lookup_filter_None. by left.
  - rewrite map_filter_insert_False by done. rewrite delete_id by done. lia.
Qed.

Lemma class_count_pos m cl :
  0 < class_count m cl → ∃ k e, m !! k = Some e ∧ class e = cl.
Proof.
  unfold class_count. intros H.
  destruct (map_choose (filter (λ ke : key * cacheEntry E, class ke.2 = cl) m)) as (k&e&Hke).
  { intros Hz. rewrite Hz, map_size_empty in H. lia. }
  apply map_lookup_filter_Some in Hke as [? ?]. eauto.
Qed.

(** The counters of a shard count its entries and respect its capacity. *)
Definition counted s : Prop :=
  ∀ cl, at_class (counts s) cl = Z.of_nat (class_count (entries s) cl).
Definition shard_ok s : Prop :=
  counted s ∧ ∀ cl, (at_class (counts s) cl ≤ capacity s cl ∧ 1 ≤ capacity s cl)%Z.

(** A shard operation keeps the capacities and books every change in the metrics. *)
Definition booked (sm sm' : cacheShard E * metrics) : Prop :=
  (∀ cl, capacity sm'.1 cl = capacity sm.1 cl) ∧
  (∀ cl, at_class (m_entries sm'.2) cl - at_class (m_entries sm.2) cl =
         at_class (counts sm'.1) cl - at_class (counts sm.1) cl)%Z ∧
  pending sm'.2 = pending sm.2.

Lemma booked_refl sm : booked sm sm.
Proof. split_and!; [done|intros; lia|done]. Qed.
Lemma booked_trans sm1 sm2 sm3 : booked sm1 sm2 → booked sm2 sm3 → booked sm1 sm3.
Proof.
  intros (H1&H2&H3) (H4&H5&H6). split_and!.
  - intros. by rewrite H4.
  - intros cl. specialize (H2 cl). specialize (H5 cl). lia.
  - by rewrite H6.
Qed.

Lemma at_add_class p c n cl :
  at_class (add_class p c n) cl = (at_class p cl + if decide (c = cl) then n else 0)%Z.
Proof. destruct c, cl; unfold at_class, add_class; simpl; lia. Qed.

Lemma deleteLocked_spec s (ms : metrics) k e :
  counted s → entries s !! k = Some e →
  let sm' := deleteLocked (s, ms) k e in
  counted sm'.1 ∧ booked (s, ms) sm' ∧ entries sm'.1 = delete k (entries s) ∧
  (∀ cl, at_class (counts sm'.1) cl ≤ at_class (counts s) cl)%Z.
Proof.
  intros Hc Hk. cbn. split_and!; [|split_and!|done|].
  - intros cl. cbn. rewrite at_add_class, Hc. rewrite (class_count_delete _ _ _ _ Hk).
    destruct (decide _); lia.
  - done.
  - intros cl. cbn. rewrite !at_add_class. lia.
  - done.
  - intros cl. cbn. rewrite at_add_class. destruct (decide _); lia.
Qed.

(** What every step of a shard operation keeps. *)
Definition shrinks (sm sm' : cacheShard E * metrics) : Prop :=
  counted sm'.1 ∧ booked sm sm' ∧ entries sm'.1 ⊆ entries sm.1 ∧
  (∀ cl, at_class (counts sm'.1) cl ≤ at_class (counts sm.1) cl)%Z.

Lemma shrinks_refl sm : counted sm.1 → shrinks sm sm.
Proof. intros. split_and!; [done|apply booked_refl|done|intros; lia]. Qed.
Lemma shrinks_trans sm1 sm2 sm3 : shrinks sm1 sm2 → shrinks sm2 sm3 → shrinks sm1 sm3.
Proof.
  intros (?&Hb1&Hs1&Hc1) (?&Hb2&Hs2&Hc2). split_and!; [done|by eapply booked_trans|by etrans|].
  intros cl. specialize (Hc1 cl). specialize (Hc2 cl). lia.
Qed.

Lemma deleteLocked_shrinks sm k e :
  counted sm.1 → entries sm.1 !! k = Some e → shrinks sm (deleteLocked sm k e).
Proof.
  destruct sm as [s ms]. intros Hc Hk.
  destruct (deleteLocked_spec s ms k e Hc Hk) as (?&?&He&?). split_and!; [done|done| |done].
  rewrite He. apply delete_subseteq.
Qed.

Lemma sweepLocked_shrinks order sm now limit :
  counted sm.1 → shrinks sm (sweepLocked order sm now limit).
Proof.
  unfold sweepLocked. generalize (take limit order) as l. intros l. revert sm.
  induction l as [|k l IH]; intros sm Hc; simpl; [by apply shrinks_refl|].
  assert (shrinks sm (sweep_one now sm k)) as Hs.
  { unfold sweep_one. destruct (entries sm.1 !! k) as [e|] eqn:Hk; [|by apply shrinks_refl].
    destruct (_ && _); [by apply deleteLocked_shrinks|by apply shrinks_refl]. }
  eapply shrinks_trans; [exact Hs|]. apply IH. apply Hs.
Qed.

Lemma find_victim_Some s cl order k e :
  find_victim s cl order = Some (k, e) → entries s !! k = Some e ∧ class e = cl.
Proof.
  induction order as [|k' order IH]; simpl; [done|].
  destruct (entries s !! k') as [e'|] eqn:Hk; [|done].
  destruct (decide (class e' = cl)); [by intros [= <- <-]|done].
Qed.

Lemma find_victim_None s cl order k e :
  find_victim s cl order = None → k ∈ order → entries s !! k = Some e → class e ≠ cl.
Proof.
  induction order as [|k' order IH]; simpl; [by intros _ ?%elem_of_nil|].
  intros Hv Hin He. destruct (entries s !! k') as [e'|] eqn:Hk.
  - destruct (decide (class e' = cl)); [done|].
    apply elem_of_cons in Hin as [->|?]; [by simplify_eq|]. by apply IH.
  - apply elem_of_cons in Hin as [->|?]; [by simplify_eq|]. by apply IH.
Qed.

(** The eviction of [insert_shard]: afterwards there is room for one more. *)
Definition evict (order : list key) (sm : cacheShard E * metrics) (cl : entry_class) :
    cacheShard E * metrics :=
  if (capacity sm.1 cl <=? at_class (counts sm.1) cl)%Z then
    match find_victim sm.1 cl order with
    | Some (vk, v) => let '(s, m) := deleteLocked sm vk v in (s, add_eviction m cl)
    | None => sm
    end
  else sm.

Lemma evict_spec order sm cl :
  shard_ok sm.1 → (∀ k, is_Some (entries sm.1 !! k) → k ∈ order) →
  shrinks sm (evict order sm cl) ∧
  (at_class (counts (evict order sm cl).1) cl + 1 ≤ capacity sm.1 cl)%Z.
Proof.
  intros [Hc Hcap] Hord. unfold evict. destruct (Hcap cl) as [Hle Hge].
  destruct (Z.leb_spec (capacity sm.1 cl) (at_class (counts sm.1) cl)) as [Hfull|Hroom].
  2:{ split; [by apply shrinks_refl|lia]. }
  destruct (find_victim sm.1 cl order) as [[vk v]|] eqn:Ev.
  - apply find_victim_Some in Ev as [Hk Hcl].
    pose proof (deleteLocked_shrinks sm vk v Hc Hk) as Hs.
    destruct sm as [s ms]. cbn in *. split.
    + destruct Hs as (?&(?&?&?)&?&?). by split_and!.
    + rewrite at_add_class, decide_True by done. lia.
  - exfalso. rewrite Hc in Hfull. destruct (class_count_pos (entries sm.1) cl) as (k&e&Hk&Hcl); [lia|].
    eapply find_victim_None in Ev; [done| |exact Hk]. eauto.
Qed.

Lemma insert_shard_alt order1 order2 sm k e now :
  insert_shard order1 order2 sm k e now =
  let sm := sweepLocked order1 sm now 4 in
  let sm := match entries sm.1 !! k with
            | Some previous => deleteLocked sm k previous
            | None => sm
            end in
  let sm := evict order2 sm (class e) in
  ({| entries := <[k := e]> (entries sm.1); counts := add_class (counts sm.1) (class e) 1;
      positiveCap := positiveCap sm.1; negativeCap := negativeCap sm.1 |},
   add_entries sm.2 (class e) 1).
Proof.
  unfold insert_shard. cbv zeta. fold (evict order2 (match entries (sweepLocked order1 sm now 4).1 !! k with
    | Some previous => deleteLocked (sweepLocked order1 sm now 4) k previous
    | None => sweepLocked order1 sm now 4 end) (class e)).
  by destruct (evict _ _ _).
Qed.

Lemma insert_shard_ok order1 order2 sm k e now :
  shard_ok sm.1 → (∀ k, is_Some (entries sm.1 !! k) → k ∈ order2) →
  let sm' := insert_shard order1 order2 sm k e now in
  shard_ok sm'.1 ∧ booked sm sm' ∧ entries sm'.1 !! k = Some e ∧
  (∀ k' e', entries sm'.1 !! k' = Some e' → k' = k ∧ e' = e ∨ entries sm.1 !! k' = Some e').
Proof.
  intros Hok Hord. rewrite insert_shard_alt. cbv zeta.
  pose proof Hok as [Hc Hcap].
  pose proof (sweepLocked_shrinks order1 sm now 4 Hc) as Hs1.
  set (sm1 := sweepLocked order1 sm now 4) in *.
  set (sm2 := match entries sm1.1 !! k with
              | Some previous => deleteLocked sm1 k previous | None => sm1 end).
  assert (shrinks sm sm2 ∧ entries sm2.1 !! k = None) as [Hs2 Hnone].
  { unfold sm2. destruct (entries sm1.1 !! k) as [p|] eqn:Hk; [|done]. split.
    - eapply shrinks_trans; [done|]. apply deleteLocked_shrinks; [apply Hs1|done].
    - clearbody sm1. destruct sm1 as [s1 ms1].
      destruct (deleteLocked_spec s1 ms1 k p) as (_&_&->&_); [apply Hs1|done|].
      apply lookup_delete_eq. }
  clearbody sm2. clear Hs1 sm1.
  destruct Hs2 as (Hc2&Hb2&Hsub2&Hle2).
  assert (shard_ok sm2.1) as Hok2.
  { split; [done|]. intros cl. destruct Hb2 as (->&_&_). specialize (Hle2 cl).
    specialize (Hcap cl). lia. }
  destruct (evict_spec order2 sm2 (class e) Hok2) as [Hs3 Hroom].
  { intros k' [e' Hk']. apply Hord. exists e'. by eapply lookup_weaken. }
  set (sm3 := evict order2 sm2 (class e)) in *. clearbody sm3.
  destruct Hs3 as (Hc3&Hb3&Hsub3&Hle3).
  assert (entries sm3.1 !! k = None) as Hn3 by (by eapply lookup_weaken_None).
  split_and!.
  - split; cbn.
    + intros cl. cbn. rewrite at_add_class, Hc3.
      rewrite class_count_insert by done. done.
    + intros cl. destruct Hb3 as (Hcapeq&_&_), Hb2 as (Hcapeq2&_&_).
      specialize (Hle3 cl). destruct Hok2 as [_ Hcap2]. specialize (Hcap2 cl).
      rewrite at_add_class. specialize (Hcapeq cl).
      assert (capacity {| entries := <[k:=e]> (entries sm3.1);
        counts := add_class (counts sm3.1) (class e) 1; positiveCap := positiveCap sm3.1;
        negativeCap := negativeCap sm3.1 |} cl = capacity sm3.1 cl) as -> by (by destruct cl).
      destruct (decide (class e = cl)) as [<-|]; lia.
  - eapply booked_trans; [exact Hb2|]. eapply booked_trans; [exact Hb3|].
    split_and!; [by intros []| |done]. intros cl. cbn. rewrite !at_add_class. lia.
  - cbn. by rewrite lookup_insert_eq.
  - intros k' e'. cbn. destruct (decide (k = k')) as [<-|].
    + rewrite lookup_insert_eq. intros [= <-]. by left.
    + rewrite lookup_insert_ne by done. intros Hk'. right.
      eapply lookup_weaken; [|done]. by eapply lookup_weaken.
Qed.
End counting.

(** ** The invariant of the shards *)
Section shards.
Context {E : Type}.
Implicit Types (c : Cache E) (s : cacheShard E).

Definition shard_sum (cl : entry_class) (l : list (cacheShard E)) : Z :=
  foldr (λ s acc, at_class (counts s) cl + acc)%Z 0%Z l.

Lemma shard_sum_insert cl l i s s' :
  l !! i = Some s →
  shard_sum cl (<[i := s']> l) =
  (shard_sum cl l - at_class (counts s) cl + at_class (counts s') cl)%Z.
Proof.
  revert i. induction l as [|x l IH]; intros [|i] Hi; simplify_eq/=; [lia|].
  rewrite (IH i) by done. lia.
Qed.
#[local] Arguments shard_sum : simpl never.

(** The capacities that [NewCache] gave to the shards. *)
Definition class_capacity (p : Policy) (cl : entry_class) : Z :=
  match cl with classPositive => PositiveCapacity p | classNegative => NegativeCapacity p end.
Definition caps_of (p : Policy) (cl : entry_class) : list Z :=
  (λ i, distributedCapacity (class_capacity p cl) (shard_count p) (Z.of_nat i)) <$>
    seq 0 (Z.to_nat (shard_count p)).

Definition shards_ok c : Prop :=
  Forall shard_ok (shards c) ∧
  (∀ cl, (λ s, capacity s cl) <$> shards c = caps_of (policy c) cl) ∧
  (∀ cl, at_class (m_entries (mets c)) cl = shard_sum cl (shards c)).

Definition entries_all (P : key → cacheEntry E → Prop) c : Prop :=
  Forall (λ s, map_Forall P (entries s)) (shards c).

(** Nothing outside the shards and the metrics changes. *)
Definition frame c c' : Prop :=
  policy c' = policy c ∧ flights c' = flights c ∧ pendingByEgress c' = pendingByEgress c ∧
  heap c' = heap c ∧ goroutines c' = goroutines c ∧ pending (mets c') = pending (mets c).

Lemma frame_refl c : frame c c.
Proof. done. Qed.
Lemma frame_trans c1 c2 c3 : frame c1 c2 → frame c2 c3 → frame c1 c3.
Proof. unfold frame. intuition congruence. Qed.

Lemma with_metrics_ok c m :
  m_entries m = m_entries (mets c) → pending m = pending (mets c) →
  shards_ok c → shards_ok (with_metrics c m) ∧ frame c (with_metrics c m).
Proof.
  intros Hm Hp (H1&H2&H3). split; [|by split_and!]. split_and!; [done|done|].
  intros cl. cbn. by rewrite Hm.
Qed.

Lemma on_shard_ok c k f :
  shards_ok c →
  (∀ s, shards c !! shardFor c k = Some s →
    shard_ok (f (s, mets c)).1 ∧ booked (s, mets c) (f (s, mets c))) →
  shards_ok (on_shard c k f) ∧ frame c (on_shard c k f).
Proof.
  intros (H1&H2&H3) Hf. unfold on_shard.
  destruct (shards c !! shardFor c k) as [s|] eqn:Hs; [|done].
  destruct (Hf s eq_refl) as [Hok (Hcap&Hbook&Hpend)].
  destruct (f (s, mets c)) as [s' m']. cbn in *.
  split; [|by split_and!]. split_and!; cbn.
  - by apply Forall_insert.
  - intros cl. rewrite list_fmap_insert, Hcap, list_insert_id; [done|].
    by rewrite list_lookup_fmap, Hs.
  - intros cl. rewrite (shard_sum_insert _ _ _ s) by done. specialize (H3 cl).
    specialize (Hbook cl). lia.
Qed.

Lemma on_shard_entries P c k f :
  entries_all P c →
  (∀ s, shards c !! shardFor c k = Some s → map_Forall P (entries s) →
    map_Forall P (entries (f (s, mets c)).1)) →
  entries_all P (on_shard c k f).
Proof.
  intros Hall Hf. unfold on_shard, entries_all in *.
  destruct (shards c !! shardFor c k) as [s|] eqn:Hs; [|done].
  specialize (Hf s eq_refl). rewrite Forall_forall in Hall.
  pose proof (Hall s (list_elem_of_lookup_2 _ _ _ Hs)) as Hall_s.
  destruct (f (s, mets c)) as [s' m']. cbn in *.
  apply Forall_insert; [by apply Forall_forall|]. auto.
Qed.

Lemma lookup_entry_shard c k e :
  lookup_entry c k = Some e →
  ∃ s, shards c !! shardFor c k = Some s ∧ entries s !! k = Some e.
Proof. unfold lookup_entry. destruct (shards c !! shardFor c k); [by eauto|done]. Qed.

Lemma shard_ok_at c i s : shards_ok c → shards c !! i = Some s → shard_ok s.
Proof. intros (H&_) Hs. rewrite Forall_forall in H. apply H. by eapply list_elem_of_lookup_2. Qed.

Lemma shrinks_ok (sm sm' : cacheShard E * metrics) : shard_ok sm.1 → shrinks sm sm' → shard_ok sm'.1 ∧ booked sm sm'.
Proof.
  intros [_ Hcap] (Hc&Hb&_&Hle). split; [|done]. split; [done|]. intros cl.
  destruct Hb as (->&_&_). specialize (Hle cl). specialize (Hcap cl). lia.
Qed.

Lemma takeEntry_ok c k now :
  shards_ok c →
  let c' := (takeEntry c k now).2 in
  shards_ok c' ∧ frame c c' ∧ ∀ P, entries_all P c → entries_all P c'.
Proof.
  intros Hok. unfold takeEntry. destruct (lookup_entry c k) as [e|] eqn:Hl; [|done].
  destruct (now <? _)%Z; [done|]. destruct (_ && _); [done|]. cbn [snd].
  apply lookup_entry_shard in Hl as (s&Hs&Hk).
  assert (shrinks (s, mets c) (deleteLocked (s, mets c) k e)) as Hsh.
  { apply deleteLocked_shrinks; [apply (shard_ok_at c _ s Hok Hs)|done]. }
  destruct (on_shard_ok c k (λ sm, deleteLocked sm k e)) as [H1 H2]; [done| |].
  { intros s' Hs'. rewrite Hs in Hs'. injection Hs' as <-.
    apply (shrinks_ok (s, mets c)); [|done].
    by eapply shard_ok_at. }
  split_and!; [done|done|]. intros P HP. apply on_shard_entries; [done|].
  intros s' Hs' HP'. rewrite Hs in Hs'. injection Hs' as <-. destruct Hsh as (_&_&Hsub&_).
  intros k' e' Hk'. apply HP'. eapply lookup_weaken; [exact Hk'|exact Hsub].
Qed.

Lemma Invalidate_ok `{UnicodeTables} c q :
  shards_ok c →
  shards_ok (Invalidate c q) ∧ frame c (Invalidate c q) ∧
  ∀ P, entries_all P c → entries_all P (Invalidate c q).
Proof.
  intros Hok. unfold Invalidate. destruct (makeKey q) as [k|]; [|done].
  destruct (lookup_entry c k) as [e|] eqn:Hl; [|done].
  apply lookup_entry_shard in Hl as (s&Hs&Hk).
  assert (shrinks (s, mets c) (deleteLocked (s, mets c) k e)) as Hsh.
  { apply deleteLocked_shrinks; [apply (shard_ok_at c _ s Hok Hs)|done]. }
  set (f := λ sm : cacheShard E * metrics, let '(s, m) := deleteLocked sm k e in
    (s, add_eviction m (class e))).
  destruct (on_shard_ok c k f) as [H1 H2]; [done| |].
  { intros s' Hs'. rewrite Hs in Hs'. injection Hs' as <-.
    destruct (shrinks_ok (s, mets c) _ (shard_ok_at c _ s Hok Hs) Hsh).
    by split. }
  split_and!; [done|done|]. intros P HP. apply on_shard_entries; [done|].
  intros s' Hs' HP'. rewrite Hs in Hs'. injection Hs' as <-. destruct Hsh as (_&_&Hsub&_).
  intros k' e' Hk'. apply HP'. eapply lookup_weaken; [exact Hk'|exact Hsub].
Qed.

Lemma insert_ok order1 order2 c k e now :
  shards_ok c → orders c k order1 → order2 ≡ₚ order1 →
  let c' := insert_ order1 order2 c k e now in
  shards_ok c' ∧ frame c c' ∧ ∀ P, P k e → entries_all P c → entries_all P c'.
Proof.
  intros Hok Ho1 Ho2. unfold insert_. set (f := λ sm, insert_shard order1 order2 sm k e now).
  assert (∀ s, shards c !! shardFor c k = Some s →
    let sm' := insert_shard order1 order2 (s, mets c) k e now in
    shard_ok sm'.1 ∧ booked (s, mets c) sm' ∧ entries sm'.1 !! k = Some e ∧
    (∀ k' e', entries sm'.1 !! k' = Some e' → k' = k ∧ e' = e ∨ entries s !! k' = Some e')) as Hins.
  { intros s Hs. apply (insert_shard_ok order1 order2 (s, mets c)); [by eapply shard_ok_at|].
    intros k' [e' Hk']. rewrite Ho2. unfold orders in Ho1. rewrite Hs in Ho1. rewrite Ho1.
    apply list_elem_of_fmap. exists (k', e'). split; [done|]. by apply elem_of_map_to_list. }
  destruct (on_shard_ok c k f) as [H1 H2]; [done| |].
  { intros s Hs. split; by apply Hins. }
  split_and!; [done|done|]. intros P HPe HP. apply on_shard_entries; [done|].
  intros s Hs HPs k' e' Hk'. destruct (Hins s Hs) as (_&_&_&Hback).
  destruct (Hback k' e' Hk') as [[-> ->]|?]; [done|]. by apply HPs.
Qed.
End shards.

(** ** The invariant of the flights *)
Section flights.
Context {E : Type}.
Implicit Types (c : Cache E).

Definition egress_count (gs : gmap nat (running E)) (eg : string) : nat :=
  size (filter (λ ig, egress (r_key ig.2) = eg) gs).

Lemma egress_count_insert gs id g eg :
  gs !! id = None →
  Z.of_nat (egress_count (<[id := g]> gs) eg) =
  (Z.of_nat (egress_count gs eg) + if decide (egress (r_key g) = eg) then 1 else 0)%Z.
Proof.
  intros Hn. unfold egress_count. destruct (decide (egress (r_key g) = eg)) as [He|He].
  - rewrite map_filter_insert_True by done. rewrite map_size_insert_None; [lia|].
    apply map_lookup_filter_None. by left.
  - rewrite map_filter_insert_False by done. rewrite delete_id by done. lia.
Qed.

Lemma egress_count_delete gs id g eg :
  gs !! id = Some g →
  Z.of_nat (egress_count (delete id gs) eg) =
  (Z.of_nat (egress_count gs eg) - if decide (egress (r_key g) = eg) then 1 else 0)%Z.
Proof.
  intros Hg. rewrite <-(insert_delete_id gs id g Hg) at 2.
  rewrite egress_count_insert by apply lookup_delete_eq. lia.
Qed.

Lemma egress_count_replace gs id g g' eg :
  gs !! id = Some g → r_key g' = r_key g →
  egress_count (<[id := g']> gs) eg = egress_count gs eg.
Proof.
  intros Hg Hk. apply Nat2Z.inj. rewrite <-(insert_delete_id gs id g Hg) at 2.
  rewrite <-insert_delete_eq, !egress_count_insert, Hk by apply lookup_delete_eq. done.
Qed.

Definition flights_ok c : Prop :=
  (∀ k id, flights c !! k = Some id ↔ ∃ g, goroutines c !! id = Some g ∧ r_key g = k) ∧
  (∀ eg, default 0%Z (pendingByEgress c !! eg) = Z.of_nat (egress_count (goroutines c) eg)) ∧
  (∀ eg, Z.of_nat (egress_count (goroutines c) eg) ≤ MaxPending (policy c))%Z ∧
  pending (mets c) = Z.of_nat (size (goroutines c)) ∧
  (∀ id, is_Some (goroutines c !! id) ↔ ∃ f, heap c !! id = Some f ∧ done_ f = false).

Lemma flights_ok_frame c c' : frame c c' → flights_ok c → flights_ok c'.
Proof.
  intros (Hp&Hf&Hpe&Hh&Hg&Hm) H. unfold flights_ok. rewrite Hp, Hf, Hpe, Hh, Hg, Hm. exact H.
Qed.

Lemma fresh_flight_spec c : flights_ok c →
  heap c !! fresh_flight c = None ∧ goroutines c !! fresh_flight c = None.
Proof.
  intros (_&_&_&_&Hh). assert (heap c !! fresh_flight c = None) as Hn.
  { apply not_elem_of_dom. apply is_fresh. }
  split; [done|]. destruct (goroutines c !! fresh_flight c) eqn:E1; [|done].
  destruct (proj1 (Hh (fresh_flight c))) as (f&Hf&_); [by eauto|]. congruence.
Qed.

Lemma startFlight_ok c k st until serve now1 now2 :
  shards_ok c → flights_ok c →
  let c' := (startFlight c k st until serve now1 now2).2 in
  shards_ok c' ∧ flights_ok c' ∧ shards c' = shards c ∧ policy c' = policy c ∧
  (∀ id g, goroutines c' !! id = Some g → goroutines c !! id = Some g ∨
     g = {| r_key := k; r_stale := st; r_staleUntil := until; r_inserted := None |}).
Proof.
  intros Hs Hf. destruct (fresh_flight_spec c Hf) as [Hfh Hfg].
  unfold startFlight. destruct (flights c !! k) as [id|] eqn:Hk; [cbn; split_and!; by auto|].
  set (id := fresh_flight c) in *.
  destruct (peekFresh c k now1) as [e|].
  { destruct (if (rcode (result_ e) =? RCodeTransient)%Z then _ else _) as [r er].
    cbn. split_and!; [done| |done|done|by auto].
    destruct Hf as (H1&H2&H3&H4&H5). split_and!; [done..|]. intros id'. cbn.
    rewrite H5. destruct (decide (id = id')) as [<-|].
    - rewrite Hfh, lookup_insert_eq. split; [intros (?&?&?)|intros (?&?&?)]; naive_solver.
    - by rewrite lookup_insert_ne. }
  destruct (Z.leb_spec (MaxPending (policy c)) (default 0%Z (pendingByEgress c !! egress k)))
    as [Hfull|Hroom].
  { cbn. destruct (with_metrics_ok c (add_request (add_rejected (mets c)) requestRejected))
      as [H1 H2]; [done..|].
    split_and!; [done|by eapply flights_ok_frame|done|done|by auto]. }
  cbn. split_and!; [exact Hs| |done|done|].
  2:{ intros id' g. destruct (decide (id = id')) as [<-|].
      - rewrite lookup_insert_eq. intros [= <-]. by right.
      - rewrite lookup_insert_ne by done. by left. }
  destruct Hf as (H1&H2&H3&H4&H5). split_and!; cbn.
  - intros k' id'. destruct (decide (k = k')) as [<-|Hkk], (decide (id = id')) as [<-|Hii].
    + rewrite !lookup_insert_eq. naive_solver.
    + rewrite lookup_insert_eq, lookup_insert_ne by done. rewrite <-H1, Hk. naive_solver.
    + rewrite lookup_insert_ne, lookup_insert_eq by done. split; [|naive_solver].
      intros (g&Hg&_)%H1. congruence.
    + rewrite !lookup_insert_ne by done. apply H1.
  - intros eg. rewrite egress_count_insert by done. cbn.
    destruct (decide (egress k = eg)) as [<-|].
    + rewrite lookup_insert_eq. cbn. by rewrite H2.
    + rewrite lookup_insert_ne by done. rewrite H2. lia.
  - intros eg. rewrite egress_count_insert by done. cbn. specialize (H3 eg).
    destruct (decide (egress k = eg)) as [<-|]; [|lia]. rewrite H2 in Hroom. lia.
  - rewrite map_size_insert_None by done. lia.
  - intros id'. destruct (decide (id = id')) as [<-|].
    + rewrite !lookup_insert_eq. split; [by eauto|done].
    + rewrite !lookup_insert_ne by done. apply H5.
Qed.

Lemma flight_finish_ok c id g published :
  shards_ok c → flights_ok c → goroutines c !! id = Some g →
  let c' := flight_finish c id g published in
  shards_ok c' ∧ flights_ok c' ∧ shards c' = shards c ∧ policy c' = policy c ∧
  goroutines c' = delete id (goroutines c).
Proof.
  intros Hs (H1&H2&H3&H4&H5) Hg. cbn. split_and!; [exact Hs| |done|done|done].
  assert (flights c !! r_key g = Some id) as Hk by (apply H1; eauto).
  assert (∀ eg, Z.of_nat (egress_count (delete id (goroutines c)) eg) =
    (Z.of_nat (egress_count (goroutines c) eg) - if decide (egress (r_key g) = eg) then 1 else 0)%Z) as Hcnt.
  { intros eg. by apply egress_count_delete. }
  split_and!; cbn.
  - intros k' id'. destruct (decide (id = id')) as [<-|Hii].
    + rewrite lookup_delete_eq. split; [|naive_solver]. intros Hd.
      apply lookup_delete_Some in Hd as [Hne Hf]. apply H1 in Hf as (g'&Hg'&<-). congruence.
    + rewrite (lookup_delete_ne (goroutines c)) by done. rewrite <-H1. rewrite lookup_delete_Some.
      split; [tauto|]. intros Hf. split; [|done]. intros <-. congruence.
  - intros eg. rewrite Hcnt. specialize (H2 eg) as H2e.
    destruct (decide (egress (r_key g) = eg)) as [<-|Hne].
    + rewrite H2. destruct (Z.leb_spec (Z.of_nat (egress_count (goroutines c) (egress (r_key g))) - 1) 0).
      * rewrite lookup_delete_eq. cbn. specialize (Hcnt (egress (r_key g))).
        rewrite decide_True in Hcnt by done. lia.
      * by rewrite lookup_insert_eq.
    + assert ((if (default 0 (pendingByEgress c !! egress (r_key g)) - 1 <=? 0)%Z
        then delete (egress (r_key g)) (pendingByEgress c)
        else <[egress (r_key g):=(default 0 (pendingByEgress c !! egress (r_key g)) - 1)%Z]>
               (pendingByEgress c)) !! eg = pendingByEgress c !! eg) as ->.
      { destruct (_ <=? _)%Z; by rewrite ?lookup_delete_ne, ?lookup_insert_ne. }
      lia.
  - intros eg. rewrite Hcnt. specialize (H3 eg). destruct (decide _); lia.
  - rewrite map_size_delete, Hg. cbn. rewrite H4.
    assert (size (goroutines c) ≠ 0); [|lia]. intros Hz%map_size_empty_inv. by rewrite Hz in Hg.
  - intros id'. destruct (decide (id = id')) as [<-|].
    + rewrite lookup_delete_eq, lookup_alter_eq. split; [by intros []|].
      intros (f&Hf&Hd). destruct (heap c !! id); simplify_eq/=.
    + rewrite lookup_delete_ne, lookup_alter_ne by done. apply H5.
Qed.
End flights.

(** ** Entries *)
Section entries.
Context {E : Type}.
Implicit Types (c : Cache E) (e : cacheEntry E).

Lemma normalizeAddrs_spec input :
  NoDup (normalizeAddrs input) ∧
  ∀ a, a ∈ normalizeAddrs input ↔ ∃ x, x ∈ input ∧ IsValid x = true ∧ Zone x = "" ∧ Unmap x = a.
Proof.
  unfold normalizeAddrs.
  assert (let '(out, seen) := foldl normalize_step ([], ∅) input in
    NoDup out ∧ (∀ a, a ∈ seen ↔ a ∈ out) ∧
    ∀ a, a ∈ out ↔ ∃ x, x ∈ input ∧ IsValid x = true ∧ Zone x = "" ∧ Unmap x = a) as H.
  { induction input as [|x l IH] using rev_ind; [split_and!; [constructor|set_solver|set_solver]|].
    rewrite foldl_snoc. destruct (foldl _ _ l) as [out seen]. destruct IH as (Hnd&Hs&Hin).
    assert (∀ a, (∃ y, y ∈ l ++ [x] ∧ IsValid y = true ∧ Zone y = "" ∧ Unmap y = a) ↔
      a ∈ out ∨ (IsValid x = true ∧ Zone x = "" ∧ Unmap x = a)) as Hsnoc.
    { intros a. rewrite Hin. split.
      - intros (y&Hy&Hrest). apply elem_of_app in Hy as [Hy|Hy]; [left; by exists y|right].
        apply list_elem_of_singleton in Hy. by subst y.
      - intros [(y&?&?)|?]; [exists y|exists x]; (split; [apply elem_of_app|done]);
          [by left|right; by apply list_elem_of_singleton]. }
    assert (∀ out' (seen' : gset Addr), NoDup out' ∧ (∀ a, a ∈ seen' ↔ a ∈ out') ∧
      (∀ a, a ∈ out' ↔ a ∈ out ∨ (IsValid x = true ∧ Zone x = "" ∧ Unmap x = a)) →
      NoDup out' ∧ (∀ a, a ∈ seen' ↔ a ∈ out') ∧
      (∀ a, a ∈ out' ↔ ∃ y, y ∈ l ++ [x] ∧ IsValid y = true ∧ Zone y = "" ∧ Unmap y = a)) as Hgoal.
    { intros out' seen' (?&?&H3). split_and!; [done..|]. intros a. by rewrite H3, Hsnoc. }
    unfold normalize_step.
    destruct (_ || _) eqn:Ebad.
    { apply Hgoal. split_and!; [done|done|]. intros a. split; [by left|].
      intros [?|(Hv&Hz&_)]; [done|].
      rewrite Hv, bool_decide_true in Ebad by done. done. }
    apply orb_false_iff in Ebad as [Hv%negb_false_iff Hz].
    apply negb_false_iff, bool_decide_eq_true in Hz.
    case_bool_decide as Hd; apply Hgoal.
    - split_and!; [done|done|]. intros a. split; [by left|]. intros [?|(_&_&<-)]; [done|].
      by apply Hs.
    - split_and!.
      + apply NoDup_app. split_and!; [done| |apply NoDup_singleton].
        intros a Ha ->%list_elem_of_singleton. by apply Hd, Hs.
      + intros a. rewrite elem_of_union, Hs. set_solver.
      + intros a. rewrite elem_of_app, list_elem_of_singleton.
        split; (intros [?|Ha]; [by left|right]); [by subst a|by destruct Ha as (_&_&<-)]. }
  destruct (foldl _ _ input) as [out seen]. by destruct H as (?&_&?).
Qed.

(** A result as the cache stores it, made at [now]. *)
Definition normal (p : Policy) (now : Z) (r : Result) (er : option (cache_error E)) : Prop :=
  (rcode r = RCodeSuccess ∧ er = None ∧ Addrs r ≠ [] ∧ NoDup (Addrs r) ∧
     (now + MinPositiveTTL p ≤ ExpiresAt r ≤ now + MaxPositiveTTL p)%Z) ∨
  ((rcode r = RCodeNXDOMAIN ∨ rcode r = RCodeNODATA) ∧ er = None ∧ Addrs r = [] ∧
     ExpiresAt r = (now + NegativeTTL p)%Z) ∨
  (rcode r = RCodeTransient ∧ (∃ ca, er = Some (ResolveError ca)) ∧ Addrs r = [] ∧
     ExpiresAt r = (now + TransientFailureTTL p)%Z).

Lemma Validate_ok p :
  Validate p = Ok tt ↔
  (0 < PositiveCapacity p ∧ 0 < NegativeCapacity p ∧ 0 < MaxPending p ∧ 0 < MinPositiveTTL p ∧
   MinPositiveTTL p ≤ MaxPositiveTTL p ∧ 0 < NegativeTTL p ∧ 0 < TransientFailureTTL p ∧
   0 ≤ StaleWindow p ∧ 0 < ResolverTimeout p)%Z ∧
  (Stale_Policy p = StaleNever ∨ Stale_Policy p = StaleTransient).
Proof.
  unfold Validate.
  repeat match goal with
  | |- context [(?a <=? ?b)%Z] => destruct (Z.leb_spec a b); [split; [done|lia]|]
  | |- context [(?a <? ?b)%Z] => destruct (Z.ltb_spec a b); [split; [done|lia]|]
  | |- context [bool_decide ?P] => destruct (decide P); [rewrite (bool_decide_true P) by done|
      rewrite (bool_decide_false P) by done]; simpl
  end; try (split; [intros _; split; [lia|by auto]|done]).
  split; [done|]. intros [_ [?|?]]; done.
Qed.

Lemma normalizeResult_normal p (a : result (cause E) Result) now :
  Validate p = Ok tt →
  let '(r, er) := normalizeResult p a now in normal p now r er.
Proof.
  intros (Hv&_)%Validate_ok. unfold normalizeResult.
  destruct a as [r|e]; [|right; right; cbn; by eauto].
  destruct (normalizeAddrs_spec (Addrs r)) as [Hnd _].
  set (addrs := normalizeAddrs (Addrs r)) in *.
  set (rc := if _ && _ then _ else _).
  destruct (Z.eqb_spec rc RCodeSuccess) as [Hrc|Hrc].
  - left. cbn. split_and!; [done|done| |done|..].
    + intros Ha. unfold rc in Hrc. rewrite Ha in Hrc. cbn in Hrc. rewrite andb_true_r in Hrc.
      destruct (Z.eqb_spec (rcode r) RCodeSuccess); [done|]. congruence.
    + destruct (Z.ltb_spec (time_sub (ExpiresAt r) now) (MinPositiveTTL p));
        match goal with |- context [(?a <? ?b)%Z] => destruct (Z.ltb_spec a b) end; lia.
    + destruct (Z.ltb_spec (time_sub (ExpiresAt r) now) (MinPositiveTTL p));
        match goal with |- context [(?a <? ?b)%Z] => destruct (Z.ltb_spec a b) end; lia.
  - destruct (_ || _) eqn:Eneg; [|right; right; cbn; by eauto].
    right; left. cbn. split_and!; [|done..].
    apply orb_true_iff in Eneg as [?%Z.eqb_eq|?%Z.eqb_eq]; auto.
Qed.

(** A stale candidate: an answer and the end of its stale window. *)
Definition stale_pair (p : Policy) (st : Result) (until : Z) : Prop :=
  Addrs st ≠ [] → rcode st = RCodeSuccess ∧ until = (ExpiresAt st + StaleWindow p)%Z.

(** A cached entry: normalized when it was made, and any last-good answer it
    carries is a positive one with its own stale window. *)
Definition entry_ok (p : Policy) e : Prop :=
  (∃ made, normal p made (result_ e) (err e)) ∧
  (rcode (result_ e) = RCodeSuccess → staleUntil e = (ExpiresAt (result_ e) + StaleWindow p)%Z) ∧
  (Addrs (stale e) ≠ [] → rcode (result_ e) = RCodeTransient ∧ stale_pair p (stale e) (staleUntil e)).

Lemma flight_entry_ok p (g : running E) r er now :
  normal p now r er → stale_pair p (r_stale g) (r_staleUntil g) →
  entry_ok p (flight_entry p g r er now).
Proof.
  intros Hn Hst. unfold flight_entry. destruct (Z.eqb_spec (rcode r) RCodeSuccess) as [Hs|Hs].
  { split_and!; [by exists now|done|done]. }
  destruct (_ && _) eqn:Ec.
  - apply andb_true_iff in Ec as [Ec _]. apply andb_true_iff in Ec as [Ht%Z.eqb_eq _].
    split_and!; [by exists now|done|by auto].
  - split_and!; [by exists now|done|done].
Qed.

Lemma flight_insert_ok order1 order2 c id g outcome now elapsed :
  Validate (policy c) = Ok tt → shards_ok c → flights_ok c →
  goroutines c !! id = Some g → orders c (r_key g) order1 → order2 ≡ₚ order1 →
  stale_pair (policy c) (r_stale g) (r_staleUntil g) →
  let c' := flight_insert order1 order2 c id g outcome now elapsed in
  shards_ok c' ∧ flights_ok c' ∧ policy c' = policy c ∧
  (entries_all (λ _, entry_ok (policy c)) c → entries_all (λ _, entry_ok (policy c)) c') ∧
  ∃ pub, goroutines c' = <[id := {| r_key := r_key g; r_stale := r_stale g;
                              r_staleUntil := r_staleUntil g; r_inserted := Some pub |}]> (goroutines c).
Proof.
  intros Hv Hs Hf Hg Ho1 Ho2 Hst. unfold flight_insert.
  pose proof (normalizeResult_normal (policy c) (callResolver outcome) now Hv) as Hn.
  destruct (normalizeResult _ _ _) as [r er].
  set (m0 := recordResolution _ _ _ _).
  destruct (with_metrics_ok c m0) as [Hs0 Hfr0]; [done..|]. set (c0 := with_metrics c m0) in *.
  pose proof (flight_entry_ok (policy c) g r er now Hn Hst) as He.
  change (policy c0) with (policy c).
  set (e := flight_entry (policy c) g r er now) in *.
  destruct (insert_ok order1 order2 c0 (r_key g) e now) as (Hs1&Hfr1&HP); [exact Hs0|exact Ho1|exact Ho2|].
  set (c1 := insert_ order1 order2 c0 (r_key g) e now) in *.
  assert (∃ pub c2, (if (rcode r =? RCodeTransient)%Z && canServeStale (policy c1) e now
      then ((stale e, None), with_metrics c1 (add_request (mets c1) requestStale))
      else ((r, er), c1)) = (pub, c2) ∧ shards_ok c2 ∧ frame c1 c2 ∧ shards c2 = shards c1)
    as (pub&c2&->&Hs2&Hfr2&Hsh2).
  { destruct (_ && _); eexists _, _; (split; [reflexivity|]); [|by auto using frame_refl].
    destruct (with_metrics_ok c1 (add_request (mets c1) requestStale)) as [? ?]; by auto. }
  assert (frame c c2) as Hfr by (eapply frame_trans; [exact Hfr0|]; by eapply frame_trans).
  pose proof (flights_ok_frame c c2 Hfr Hf) as Hf2.
  destruct Hfr as (Hpol&Hfl&Hpe&Hh&Hgo&Hpd).
  split_and!.
  - exact Hs2.
  - destruct Hf2 as (H1&H2&H3&H4&H5). rewrite Hgo in H1, H2, H3, H4, H5. split_and!; cbn; rewrite ?Hgo.
    + intros k id'. rewrite H1. destruct (decide (id = id')) as [<-|];
        [rewrite lookup_insert_eq, Hg; naive_solver|by rewrite lookup_insert_ne].
    + intros eg. by rewrite (egress_count_replace _ _ g).
    + intros eg. by rewrite (egress_count_replace _ _ g).
    + rewrite map_size_insert_Some by eauto. done.
    + intros id'. rewrite <-H5. destruct (decide (id = id')) as [<-|];
        [rewrite lookup_insert_eq, Hg; naive_solver|by rewrite lookup_insert_ne].
  - done.
  - intros Hall. unfold entries_all. cbn. rewrite Hsh2. by apply (HP (λ _, entry_ok (policy c))).
  - exists pub. cbn. by rewrite Hgo.
Qed.
End entries.

(** ** The system invariant *)
Section system.
Context {E : Type}.
Implicit Types (c : Cache E) (x : sys E).

Definition core_ok c : Prop :=
  Validate (policy c) = Ok tt ∧ shards_ok c ∧ flights_ok c ∧
  entries_all (λ _, entry_ok (policy c)) c ∧
  map_Forall (λ _ g, stale_pair (policy c) (r_stale g) (r_staleUntil g)) (goroutines c).
Definition ticket_ok (p : Policy) (t : ticket) : Prop := stale_pair p (t_stale t) (t_until t).
Definition sys_ok x : Prop :=
  core_ok (cache_ x) ∧ Forall (ticket_ok (policy (cache_ x))) (callers x).

(** An operation on the shards and metrics that keeps the entries well formed. *)
Lemma core_ok_frame c c' :
  core_ok c → shards_ok c' → frame c c' →
  (∀ P, entries_all P c → entries_all P c') → core_ok c'.
Proof.
  intros (Hv&_&Hf&He&Hg) Hs Hfr HP. pose proof (flights_ok_frame c c' Hfr Hf) as Hf'.
  destruct Hfr as (Hp&_&_&_&Hgo&_). unfold core_ok. rewrite Hp, Hgo. split_and!; [done|done|done|by apply HP|done].
Qed.

Lemma core_ok_metrics c m :
  core_ok c → m_entries m = m_entries (mets c) → pending m = pending (mets c) →
  core_ok (with_metrics c m).
Proof.
  intros Hc Hm Hp. pose proof Hc as (_&Hs&_).
  destruct (with_metrics_ok c m Hm Hp Hs) as [Hs' Hfr]. by eapply core_ok_frame.
Qed.

Lemma core_ok_takeEntry c k now : core_ok c → core_ok (takeEntry c k now).2.
Proof.
  intros Hc. pose proof Hc as (_&Hs&_).
  destruct (takeEntry_ok c k now Hs) as (Hs'&Hfr&HP). by eapply core_ok_frame.
Qed.

Lemma lookup_entry_ok c k e : core_ok c → lookup_entry c k = Some e → entry_ok (policy c) e.
Proof.
  intros (_&_&_&He&_) (s&Hs&Hk)%lookup_entry_shard. unfold entries_all in He.
  rewrite Forall_forall in He. by apply (He s (list_elem_of_lookup_2 _ _ _ Hs) k e).
Qed.

(** The entry that [takeEntry] hands out is well formed or the zero entry. *)
Lemma takeEntry_entry c k now :
  core_ok c → let '(e, found, c') := takeEntry c k now in
  policy c' = policy c ∧
  (e = entry_zero ∧ found = false ∨ lookup_entry c k = Some e ∧ entry_ok (policy c) e ∧
     found = (now <? ExpiresAt (result_ e))%Z).
Proof.
  intros Hc. pose proof Hc as (_&Hs&_).
  pose proof (takeEntry_ok c k now Hs) as (_&(Hp&_)&_).
  unfold takeEntry in *. destruct (lookup_entry c k) as [e|] eqn:Hl; [|by auto].
  pose proof (lookup_entry_ok c k e Hc Hl). destruct (now <? ExpiresAt (result_ e))%Z eqn:Ef.
  - split; [done|]. right. by rewrite Ef.
  - destruct (_ && _); (split; [exact Hp|right; by rewrite Ef]).
Qed.

Lemma resolve_lookup_ok c k now :
  core_ok c →
  core_ok (resolve_lookup c k now).2 ∧ policy (resolve_lookup c k now).2 = policy c ∧
  match (resolve_lookup c k now).1 with
  | Fresh _ _ => True
  | NeedFlight st until _ => stale_pair (policy c) st until
  end.
Proof.
  intros Hc. pose proof (core_ok_takeEntry c k now Hc) as Hc'.
  pose proof (takeEntry_entry c k now Hc) as He. unfold resolve_lookup.
  destruct (takeEntry c k now) as [[e found] c']. destruct He as [Hp He].
  assert (∀ kind, core_ok (with_metrics c' (add_request (mets c') kind))) as Hm
    by (intros; by apply core_ok_metrics).
  repeat match goal with |- context [if ?b then _ else _] => destruct b eqn:? end; cbn;
    (split_and!; [by auto|done|]); try done.
  - destruct He as [(->&_)|(_&(_&Hsu&_)&_)]; [done|]. intros _.
    assert (rcode (result_ e) = RCodeSuccess) as Hrc by lia. by auto.
  - destruct He as [(->&_)|(_&(_&_&Hst)&_)]; [done|]. intros Hne. by apply Hst.
Qed.

Lemma core_ok_startFlight c k st until serve now1 now2 :
  core_ok c → stale_pair (policy c) st until →
  core_ok (startFlight c k st until serve now1 now2).2 ∧
  policy (startFlight c k st until serve now1 now2).2 = policy c.
Proof.
  intros (Hv&Hs&Hf&He&Hg) Hst.
  destruct (startFlight_ok c k st until serve now1 now2 Hs Hf) as (Hs'&Hf'&Hsh&Hp&Hgo).
  split; [|done]. unfold core_ok. rewrite Hp. split_and!; [done..| |].
  - unfold entries_all. by rewrite Hsh.
  - intros id g Hid. destruct (Hgo id g Hid) as [Hid'| ->]; [by apply (Hg id g)|done].
Qed.

Lemma resolve_start_ok c k st until serve now1 now2 :
  core_ok c → stale_pair (policy c) st until →
  core_ok (resolve_start c k st until serve now1 now2).2 ∧
  policy (resolve_start c k st until serve now1 now2).2 = policy c.
Proof.
  intros Hc Hst. unfold resolve_start. destruct serve.
  - destruct (core_ok_startFlight c k st until true now1 now2 Hc Hst) as [Hc' Hp'].
    destruct (startFlight _ _ _ _ _ _ _) as [[id|e] c']; [|done]. cbn [snd] in *.
    destruct (flight_answer c' id) as [[r er]|]; [done|]. split; [|done]. by apply core_ok_metrics.
  - set (c0 := with_metrics c _).
    assert (core_ok c0) as Hc0 by (by apply core_ok_metrics).
    destruct (core_ok_startFlight c0 k st until false now1 now2 Hc0 Hst) as [Hc' Hp'].
    destruct (startFlight _ _ _ _ _ _ _) as [[id|e] c']; [|done]. cbn [snd] in *.
    destruct (flight_answer c' id) as [[r er]|]; [done|].
    destruct (heap c' !! id) as [f|]; [|done]. destruct (_ && _); [|done].
    split; [|done]. by apply core_ok_metrics.
Qed.

Lemma step_ok x x' : sys_ok x → step x x' → sys_ok x'.
Proof.
  intros [Hc Ht] Hst. destruct Hst as [c ts b k now|c ts1 t ts2 b now1 now2|
    c ts b order1 order2 id g outcome now elapsed Hg Hni Ho1 Ho2|c ts b id g pub Hg Hpub|U c ts b q];
    cbn in *.
  - destruct (resolve_lookup_ok c k now Hc) as (Hc'&Hp&Hn). split; cbn; [done|]. rewrite Hp.
    destruct (resolve_lookup c k now).1; cbn; [done|]. by constructor.
  - apply Forall_app in Ht as [Ht1 Ht2]. apply Forall_cons in Ht2 as [Ht Ht2].
    destruct (resolve_start_ok c (t_key t) (t_stale t) (t_until t) (t_serve t) now1 now2 Hc Ht)
      as [Hc' Hp]. split; cbn; unfold start_caller; [done|]. rewrite Hp. by apply Forall_app.
  - pose proof Hc as (Hv&Hs&Hf&He&Hgo).
    destruct (flight_insert_ok order1 order2 c id g outcome now elapsed) as (Hs'&Hf'&Hp&He'&pub&Hg');
      [done..|by apply (Hgo id g)|].
    split; cbn [cache_ callers]; [|by rewrite Hp]. unfold core_ok. rewrite Hp.
    split_and!; [done..|by auto|]. rewrite Hg'. apply map_Forall_insert_2; [|done].
    by apply (Hgo id g).
  - pose proof Hc as (Hv&Hs&Hf&He&Hgo).
    destruct (flight_finish_ok c id g pub Hs Hf Hg) as (Hs'&Hf'&Hsh&Hp&Hg').
    split; cbn [cache_ callers]; [|done]. split_and!; [done..|].
    rewrite Hg'. by apply map_Forall_delete.
  - pose proof Hc as (_&Hs&_). destruct (Invalidate_ok c q Hs) as (Hs'&Hfr&HP).
    pose proof Hfr as (Hp&_). split; cbn; [|by rewrite Hp]. by eapply core_ok_frame.
Qed.

Lemma distributed_sum total n m :
  (0 < n ≤ total)%Z → (Z.of_nat m ≤ n)%Z →
  foldr Z.add 0%Z ((λ i, distributedCapacity total n (Z.of_nat i)) <$> seq 0 m) =
  (Z.of_nat m * (total / n) + Z.of_nat m `min` (total mod n))%Z.
Proof.
  intros Hn. induction m as [|m IH]; intros Hm.
  { cbn. pose proof (Z.mod_pos_bound total n). lia. }
  rewrite seq_S, fmap_app, foldr_app. cbn [fmap list_fmap foldr].
  assert (∀ l a, foldr Z.add a l = (foldr Z.add 0 l + a)%Z) as Hacc.
  { clear. induction l as [|x l IH]; intros a; cbn; [lia|]. rewrite IH. lia. }
  rewrite Hacc, IH by lia. unfold distributedCapacity.
  rewrite Z.quot_div_nonneg, Z.rem_mod_nonneg by lia. cbn [Nat.add].
  destruct (Z.ltb_spec (Z.of_nat m) (total mod n)); lia.
Qed.

Lemma distributedCapacity_pos total n i : (0 < n ≤ total)%Z → (1 ≤ distributedCapacity total n i)%Z.
Proof.
  intros Hn. unfold distributedCapacity. rewrite Z.quot_div_nonneg by lia.
  assert (1 ≤ total / n)%Z by (apply Z.div_le_lower_bound; lia). destruct (_ <? _)%Z; lia.
Qed.

Lemma shard_count_bounds p cl :
  Validate p = Ok tt → (0 < shard_count p ≤ class_capacity p cl)%Z.
Proof.
  intros [Hv _]%Validate_ok. unfold shard_count, defaultShardCount. destruct cl; cbn; lia.
Qed.

Lemma NewCache_ok p c : NewCache p = Ok c → sys_ok {| cache_ := c; callers := []; began := ∅ |} ∧ policy c = p.
Proof.
  unfold NewCache. destruct (Validate p) as [[]|] eqn:Hv; [|done]. intros [= <-].
  split; [|done]. split; [|constructor]. split_and!; cbn.
  - done.
  - split_and!; cbn.
    + apply Forall_fmap, Forall_forall. intros i _. split; cbn; [by intros []|].
      intros cl. pose proof (shard_count_bounds p cl Hv) as Hb.
      pose proof (distributedCapacity_pos _ _ (Z.of_nat i) Hb).
      destruct cl; cbn in *; unfold at_class; cbn; lia.
    + intros cl. rewrite <-list_fmap_compose. by destruct cl.
    + intros cl. unfold shard_sum. generalize (seq 0 (Z.to_nat (shard_count p))). intros l.
      assert (∀ (z : Z), z = 0%Z → z = foldr (λ s acc, (at_class (counts s) cl + acc)%Z) 0%Z
        ((λ i, {| entries := (∅ : gmap key (cacheEntry E));
           counts := {| of_positive := 0; of_negative := 0 |};
           positiveCap := distributedCapacity (PositiveCapacity p) (shard_count p) (Z.of_nat i);
           negativeCap := distributedCapacity (NegativeCapacity p) (shard_count p) (Z.of_nat i) |}) <$> l))
        as Hz.
      { intros z ->. induction l as [|i l IH]; [done|]. cbn. destruct cl; unfold at_class in *; cbn in *; lia. }
      apply Hz. by destruct cl.
  - split_and!; cbn; try done.
    + intros k id. setoid_rewrite lookup_empty. naive_solver.
    + intros eg. apply Validate_ok in Hv as [? _].
      change (egress_count (∅ : gmap nat (running E)) eg) with 0. lia.
    + intros id. rewrite !lookup_empty. split; [by intros []|naive_solver].
  - apply Forall_fmap, Forall_forall. intros i _. apply map_Forall_empty.
  - apply map_Forall_empty.
Qed.

Lemma step_policy x x' : sys_ok x → step x x' → policy (cache_ x') = policy (cache_ x).
Proof.
  intros [Hc Ht] Hst. destruct Hst as [c ts b k now|c ts1 t ts2 b now1 now2|
    c ts b order1 order2 id g outcome now elapsed Hg Hni Ho1 Ho2|c ts b id g pub Hg Hpub|U c ts b q];
    cbn in *.
  - by apply resolve_lookup_ok.
  - apply Forall_app in Ht as [_ Ht]. apply Forall_cons in Ht as [Ht _]. by apply resolve_start_ok.
  - destruct Hc as (Hv&Hs&Hf&He&Hgo).
    apply (flight_insert_ok order1 order2 c id g outcome now elapsed); try done.
    by apply (Hgo id g).
  - done.
  - destruct Hc as (_&Hs&_). by destruct (Invalidate_ok c q Hs) as (_&(Hp&_)&_).
Qed.

Definition reachable (p : Policy) x : Prop :=
  ∃ c, NewCache p = Ok c ∧ rtc step {| cache_ := c; callers := []; began := ∅ |} x.

Lemma reachable_ok p x : reachable p x → sys_ok x ∧ policy (cache_ x) = p.
Proof.
  intros (c&Hn&Hr). pose proof (NewCache_ok p c Hn) as [Hok Hp].
  revert x Hr. apply (rtc_ind_r (λ x, sys_ok x ∧ policy (cache_ x) = p)
    {| cache_ := c; callers := []; began := ∅ |}); [done|].
  intros y z _ Hs [Hy Hpy]. split; [by eapply step_ok|]. rewrite <-Hpy.
  by apply step_policy.
Qed.

(** The entries of a class in all shards. *)
Definition total_entries c (cl : entry_class) : Z :=
  foldr (λ s acc, Z.of_nat (class_count (entries s) cl) + acc)%Z 0%Z (shards c).

Lemma total_entries_bound c cl :
  core_ok c →
  total_entries c cl = at_class (m_entries (mets c)) cl ∧
  (total_entries c cl ≤ class_capacity (policy c) cl)%Z.
Proof.
  intros (Hv&(Hok&Hcaps&Hsum)&_). unfold total_entries. rewrite Hsum. split.
  - unfold shard_sum. clear -Hok. induction Hok as [|s l [Hc _] Hl IH]; cbn; [done|].
    by rewrite IH, Hc.
  - assert (foldr (λ s acc, Z.of_nat (class_count (entries s) cl) + acc)%Z 0%Z (shards c) ≤
      foldr Z.add 0 ((λ s, capacity s cl) <$> shards c))%Z as Hle.
    { clear -Hok. induction Hok as [|s l [Hc Hcap] Hl IH]; cbn; [lia|].
      specialize (Hcap cl). specialize (Hc cl). lia. }
    rewrite Hcaps in Hle. unfold caps_of in Hle.
    pose proof (shard_count_bounds (policy c) cl Hv) as Hb.
    rewrite distributed_sum in Hle by lia. rewrite Z2Nat.id in Hle by lia.
    pose proof (Z.div_mod (class_capacity (policy c) cl) (shard_count (policy c))).
    pose proof (Z.mod_pos_bound (class_capacity (policy c) cl) (shard_count (policy c))). lia.
Qed.
End system.

(** ** Properties *)
Section properties.
Context {E : Type}.
Implicit Types (c : Cache E) (x : sys E).

Lemma shardFor_on_shard c k f k' : shardFor (on_shard c k f) k' = shardFor c k'.
Proof.
  unfold shardFor, on_shard. destruct (shards c !! _); [|done].
  destruct (f _) as [s' m']. cbn. by rewrite length_insert.
Qed.

Lemma shards_nonempty c k : core_ok c → is_Some (shards c !! shardFor c k).
Proof.
  intros (Hv&(_&Hcaps&_)&_). apply lookup_lt_is_Some_2. unfold shardFor.
  assert (length (shards c) = Z.to_nat (shard_count (policy c))) as Hlen.
  { rewrite <-(length_fmap (λ s, capacity s classPositive)), Hcaps. unfold caps_of.
    by rewrite length_fmap, length_seq. }
  pose proof (shard_count_bounds (policy c) classPositive Hv).
  pose proof (Z.mod_pos_bound (key_hash k) (Z.of_nat (length (shards c)))). lia.
Qed.

(** What [insert] stores can be looked up. *)
Lemma lookup_entry_insert order1 order2 c k e now :
  core_ok c → orders c k order1 → order2 ≡ₚ order1 →
  lookup_entry (insert_ order1 order2 c k e now) k = Some e.
Proof.
  intros Hc Ho1 Ho2. destruct (shards_nonempty c k Hc) as [s Hs].
  unfold lookup_entry, insert_. rewrite shardFor_on_shard. unfold on_shard. rewrite Hs.
  destruct (insert_shard_ok order1 order2 (s, mets c) k e now) as (_&_&He&_).
  { destruct Hc as (_&Hok&_). by eapply shard_ok_at. }
  { intros k' [e' Hk']. rewrite Ho2. unfold orders in Ho1. rewrite Hs in Ho1. rewrite Ho1.
    apply list_elem_of_fmap. exists (k', e'). split; [done|]. by apply elem_of_map_to_list. }
  destruct (insert_shard order1 order2 (s, mets c) k e now) as [s' m']. cbn in *.
  rewrite list_lookup_insert_eq; [done|]. by eapply lookup_lt_Some.
Qed.

Lemma lookup_entry_deleted c k f :
  core_ok c → (∀ s, entries (f (s, mets c)).1 !! k = None) → lookup_entry (on_shard c k f) k = None.
Proof.
  intros Hc Hf. destruct (shards_nonempty c k Hc) as [s Hs].
  unfold lookup_entry. rewrite shardFor_on_shard. unfold on_shard. rewrite Hs.
  specialize (Hf s). destruct (f (s, mets c)) as [s' m']. cbn in *.
  rewrite list_lookup_insert_eq; [done|]. by eapply lookup_lt_Some.
Qed.

(** Capacity.  In every interleaving, the cache never holds more positive or
    negative entries than configured, and the entry gauges count them exactly. *)
Theorem cache_capacity p x cl :
  reachable p x →
  (total_entries (cache_ x) cl ≤ class_capacity p cl)%Z ∧
  total_entries (cache_ x) cl = at_class (m_entries (mets (cache_ x))) cl.
Proof.
  intros Hr. destruct (reachable_ok p x Hr) as [[Hc _] Hp].
  destruct (total_entries_bound (cache_ x) cl Hc) as [H1 H2]. rewrite Hp in H2. done.
Qed.

(** C38: single flight.  In every interleaving at most one resolver call runs per
    key, at most [MaxPending] run per egress whatever the other egresses do, and
    the pending gauge is the number of calls running. *)
Theorem cache_single_flight p x :
  reachable p x →
  (∀ id1 id2 g1 g2, goroutines (cache_ x) !! id1 = Some g1 → goroutines (cache_ x) !! id2 = Some g2 →
     r_key g1 = r_key g2 → id1 = id2) ∧
  (∀ eg, Z.of_nat (egress_count (goroutines (cache_ x)) eg) ≤ MaxPending p)%Z ∧
  pending (mets (cache_ x)) = Z.of_nat (size (goroutines (cache_ x))).
Proof.
  intros Hr. destruct (reachable_ok p x Hr) as [[(_&_&(H1&_&H3&H4&_)&_) _] Hp].
  split_and!; [|by rewrite <-Hp|done]. intros id1 id2 g1 g2 Hg1 Hg2 Hk.
  assert (flights (cache_ x) !! r_key g1 = Some id1) as Hf1 by (apply H1; eauto).
  assert (flights (cache_ x) !! r_key g1 = Some id2) as Hf2 by (apply H1; eauto).
  congruence.
Qed.

(** What a flight publishes: the normalized answer of the resolver, or the stale
    candidate it carries when the policy allows and its window is open. *)
Definition publishes (p : Policy) (g : running E) (outcome : option (result E Result)) (now : Z)
    (pub : Result * option (cache_error E)) : Prop :=
  let '(r, er) := normalizeResult p (callResolver outcome) now in
  pub = (r, er) ∨
  rcode r = RCodeTransient ∧ Stale_Policy p = StaleTransient ∧ (now < r_staleUntil g)%Z ∧
  Addrs (r_stale g) ≠ [] ∧ pub = (r_stale g, None).

Lemma insert_heap order1 order2 c k e now :
  heap (insert_ order1 order2 c k e now) = heap c ∧
  goroutines (insert_ order1 order2 c k e now) = goroutines c ∧
  policy (insert_ order1 order2 c k e now) = policy c.
Proof.
  unfold insert_, on_shard. destruct (shards c !! _); [|done].
  by destruct (insert_shard _ _ _ _ _ _).
Qed.

Lemma flight_entry_stale p (g : running E) r er now :
  rcode r = RCodeTransient → canServeStale p (flight_entry p g r er now) now = true →
  Stale_Policy p = StaleTransient ∧ (now < r_staleUntil g)%Z ∧ Addrs (r_stale g) ≠ [] ∧
  stale (flight_entry p g r er now) = r_stale g.
Proof.
  intros Ht. unfold canServeStale, flight_entry. rewrite Ht.
  change (RCodeTransient =? RCodeSuccess)%Z with false.
  change (RCodeTransient =? RCodeTransient)%Z with true. cbn [andb].
  destruct (negb (length (Addrs (r_stale g)) =? 0) && (now <? r_staleUntil g)%Z); cbn [stale staleUntil].
  - rewrite !andb_true_iff, bool_decide_eq_true, Z.ltb_lt. intros ((?&Hne)&?).
    split_and!; [done..| |done]. intros Ha. by rewrite Ha in Hne.
  - rewrite !andb_true_iff. by intros ((_&?)&_).
Qed.

Lemma flight_insert_publishes order1 order2 c id g outcome now elapsed :
  let c' := flight_insert order1 order2 c id g outcome now elapsed in
  heap c' = heap c ∧
  ∃ pub, publishes (policy c) g outcome now pub ∧
    goroutines c' !! id = Some {| r_key := r_key g; r_stale := r_stale g;
                                  r_staleUntil := r_staleUntil g; r_inserted := Some pub |}.
Proof.
  unfold flight_insert, publishes. destruct (normalizeResult _ _ _) as [r er].
  set (c0 := with_metrics c _). set (e := flight_entry _ _ _ _ _).
  destruct (insert_heap order1 order2 c0 (r_key g) e now) as (Hh&Hg&Hp).
  set (c1 := insert_ _ _ _ _ _ _) in *.
  destruct (_ && _) eqn:Es; cbn; (split; [done|]); eexists; rewrite lookup_insert_eq;
    (split; [|done]); [right|by left].
  rewrite Hp in Es. change (policy c0) with (policy c) in Es.
  apply andb_true_iff in Es as [Ht%Z.eqb_eq Es].
  destruct (flight_entry_stale _ _ _ _ _ Ht Es) as (?&?&?&Hst).
  split_and!; [done..|]. by unfold e; rewrite <-Hst.
Qed.

(** C40: no caller waits forever on a flight.  An open flight always has a running
    resolver call, and whatever that call returns, two more steps close the
    flight with the published outcome for every caller that waits on it. *)
Theorem flight_completes p x id f :
  reachable p x → heap (cache_ x) !! id = Some f → done_ f = false →
  ∃ g, goroutines (cache_ x) !! id = Some g ∧
    match r_inserted g with
    | Some pub => ∃ x', step x x' ∧ waitForFlight (cache_ x') id false = Some pub
    | None => ∀ outcome now, ∃ x1 x2 pub, step x x1 ∧ step x1 x2 ∧
        publishes p g outcome now pub ∧ waitForFlight (cache_ x2) id false = Some pub
    end.
Proof.
  intros Hr Hf Hd. pose proof (reachable_ok p x Hr) as [[Hc _] Hp].
  pose proof Hc as (_&_&(_&_&_&_&H5)&_).
  destruct (proj2 (H5 id)) as [g Hg]; [by eauto|]. exists g. split; [done|].
  assert (∀ c ts b g' pub, goroutines c !! id = Some g' → r_inserted g' = Some pub →
    heap c !! id = Some f → ∃ x', step {| cache_ := c; callers := ts; began := b |} x' ∧
      waitForFlight (cache_ x') id false = Some pub) as Hfin.
  { intros c ts b g' pub Hg' Hpub Hf'. eexists. split; [by eapply step_finish|]. cbn.
    unfold waitForFlight, flight_answer. cbn. rewrite lookup_alter_eq, Hf'. cbn. by destruct pub. }
  destruct x as [c ts b]. cbn in *.
  destruct (r_inserted g) as [pub|] eqn:Hi; [by eapply Hfin|]. intros outcome now.
  assert (∃ order, orders c (r_key g) order) as [order Ho].
  { unfold orders. destruct (shards c !! _) as [s|]; by eexists. }
  destruct (flight_insert_publishes order order c id g outcome now 0) as (Hh&pub&Hpub&Hg').
  destruct (Hfin (flight_insert order order c id g outcome now 0) ts b _ pub Hg') as (x'&Hx'&Hw);
    [done|by rewrite Hh|].
  eexists _, x', pub. split_and!; [by eapply step_insert|exact Hx'|by rewrite <-Hp|done].
Qed.

(** What the cache stores.  A failed or invalid resolution becomes a
    transient failure for its backoff; an answer without addresses becomes
    NODATA; a positive answer keeps its valid addresses, unmapped and without
    duplicates, for its own TTL clamped to the configured bounds. *)
Theorem normalizeResult_spec p (a : result (cause E) Result) now :
  Validate p = Ok tt →
  let '(r, er) := normalizeResult p a now in
  normal p now r er ∧
  match a with
  | Err ca => rcode r = RCodeTransient ∧ er = Some (ResolveError ca)
  | Ok a =>
      (rcode r = RCodeSuccess ↔ rcode a = RCodeSuccess ∧
         ∃ y, y ∈ Addrs a ∧ IsValid y = true ∧ Zone y = "") ∧
      (rcode r = RCodeSuccess →
         (∀ z, z ∈ Addrs r ↔ ∃ y, y ∈ Addrs a ∧ IsValid y = true ∧ Zone y = "" ∧ Unmap y = z) ∧
         ExpiresAt r = (now + Z.min (MaxPositiveTTL p)
                                (Z.max (MinPositiveTTL p) (time_sub (ExpiresAt a) now)))%Z)
  end.
Proof.
  intros Hv. pose proof (normalizeResult_normal p a now Hv) as Hn.
  destruct a as [a|ca]; [|by split].
  unfold normalizeResult in *. destruct (normalizeAddrs_spec (Addrs a)) as [_ Hin].
  set (addrs := normalizeAddrs (Addrs a)) in *.
  assert ((length addrs =? 0) = false ↔ ∃ y, y ∈ Addrs a ∧ IsValid y = true ∧ Zone y = "") as Hlen.
  { rewrite Nat.eqb_neq. split.
    - intros Hl. destruct addrs as [|z l]; [done|]. destruct (proj1 (Hin z)) as (y&?&?&?&?); [by left|]. eauto.
    - intros (y&?&?&?) Hz. assert (Unmap y ∈ addrs) as Hy by (apply Hin; eauto).
      apply nil_length_inv in Hz. rewrite Hz in Hy. by apply elem_of_nil in Hy. }
  destruct (Z.eqb_spec (rcode a) RCodeSuccess) as [Ha|Ha]; cbn [andb] in *.
  - destruct (length addrs =? 0) eqn:El.
    + change (RCodeNODATA =? RCodeSuccess)%Z with false in *.
      change ((RCodeNODATA =? RCodeNXDOMAIN)%Z || (RCodeNODATA =? RCodeNODATA)%Z) with true in *.
      split; [done|]. split; [|done]. split; [done|]. intros [_ Hy]. apply Hlen in Hy. done.
    + rewrite Ha in *. rewrite Z.eqb_refl in *. split; [done|]. split.
      * split; [|done]. intros _. split; [done|]. by apply Hlen.
      * intros _. split; [exact Hin|]. cbn.
        destruct (Z.ltb_spec (time_sub (ExpiresAt a) now) (MinPositiveTTL p));
          case_match eqn:Em; first [apply Z.ltb_lt in Em | apply Z.ltb_ge in Em]; lia.
  - rewrite (proj2 (Z.eqb_neq (rcode a) RCodeSuccess)) in * by done.
    destruct (_ || _) eqn:Eo; cbn in *; (split; [done|]); (split; [|done]); (split; [|by intros [? _]]).
    + done.
    + done.
Qed.

(** *** Freshness *)







(** A resolution is cached: right after a flight inserts its result, a lookup
    before the expiry answers with it. *)
Theorem insert_then_lookup p x order1 order2 id g outcome now elapsed later :
  reachable p x → goroutines (cache_ x) !! id = Some g →
  orders (cache_ x) (r_key g) order1 → order2 ≡ₚ order1 →
  let c' := flight_insert order1 order2 (cache_ x) id g outcome now elapsed in
  let '(r, er) := normalizeResult p (callResolver outcome) now in
  (later < ExpiresAt r)%Z → rcode r ≠ RCodeTransient →
  (resolve_lookup c' (r_key g) later).1 = Fresh r None.
Proof.
  intros Hr Hg Ho1 Ho2. destruct (reachable_ok p x Hr) as [[Hc _] Hp]. cbv zeta.
  unfold flight_insert. rewrite Hp.
  pose proof Hc as (Hv&_). rewrite Hp in Hv.
  pose proof (normalizeResult_normal p (callResolver outcome) now Hv) as Hn.
  destruct (normalizeResult _ _ _) as [r er]. intros Hlt Hnt.
  set (c0 := with_metrics (cache_ x) _).
  assert (core_ok c0) as Hc0 by (by apply core_ok_metrics).
  change (policy c0) with (policy (cache_ x)). rewrite Hp.
  set (e := flight_entry p g r er now).
  pose proof (lookup_entry_insert order1 order2 c0 (r_key g) e now Hc0 Ho1 Ho2) as Hl.
  set (c1 := insert_ order1 order2 c0 (r_key g) e now) in *.
  assert (result_ e = r ∧ err e = er) as [He Her].
  { unfold e, flight_entry. destruct (_ =? _)%Z; [done|]. by destruct (_ && _). }
  apply Z.eqb_neq in Hnt. rewrite Hnt. cbn [andb].
  unfold resolve_lookup, takeEntry.
  set (c2 := {| policy := policy c1 |}).
  assert (lookup_entry c2 (r_key g) = Some e) as Hl2 by exact Hl.
  rewrite Hl2, He. rewrite (proj2 (Z.ltb_lt _ _)) by done. cbn [andb].
  rewrite He, Hnt.
  destruct Hn as [(->&_)|[([-> | ->]&_)|(Ht&_)]]; [reflexivity..|]. by rewrite Ht in Hnt.
Qed.

(** Invalidation.  After a key is invalidated, the next lookup finds nothing,
    not even a stale answer, and goes upstream. *)
Theorem Invalidate_misses `{UnicodeTables} p x q k now :
  reachable p x → makeKey (E := E) q = Ok k → (0 ≤ now)%Z →
  (resolve_lookup (Invalidate (cache_ x) q) k now).1 = NeedFlight result_zero 0 false.
Proof.
  intros Hr Hk Hnow. destruct (reachable_ok p x Hr) as [[Hc _] _].
  assert (lookup_entry (Invalidate (cache_ x) q) k = None) as Hn.
  { unfold Invalidate. rewrite Hk. destruct (lookup_entry (cache_ x) k) as [e|] eqn:Hl; [|done].
    apply lookup_entry_deleted; [done|]. intros s. cbn. apply lookup_delete_eq. }
  unfold resolve_lookup, takeEntry. rewrite Hn. cbn [andb].
  change (rcode (result_ entry_zero) =? RCodeSuccess)%Z with true. cbn [andb].
  change (staleUntil entry_zero) with 0%Z. by rewrite (proj2 (Z.ltb_ge _ _)) by lia.
Qed.
End properties.

#[local] Instance demo_tables : UnicodeTables := {| unicode_to_lower := λ s, s |}.

(** ** A concrete run: one caller misses, starts a flight, the resolver answers *)
Definition demo_policy : Policy :=
  {| PositiveCapacity := 4; NegativeCapacity := 2; MaxPending := 1;
     MinPositiveTTL := second; MaxPositiveTTL := 60 * second; NegativeTTL := 5 * second;
     TransientFailureTTL := 2 * second; StaleWindow := 30 * second;
     Stale_Policy := StaleTransient; ResolverTimeout := 3 * second |}.
Definition demo_key : key :=
  {| host := "a.test"; family := 1; egress := "wg0"; resolver := ""; generation := 0 |}.
Definition demo_query : Query :=
  {| Host := "A.test."; q_Family := 1; Egress := "wg0"; q_Resolver := ""; Generation := 0 |}.
Definition demo_answer : Result :=
  {| Addrs := [Addr4 167772161]; ExpiresAt := 20 * second; rcode := RCodeSuccess |}.
Definition demo_0 : Cache unit :=
  match NewCache demo_policy with Ok c => c | Err _ =>
    {| policy := demo_policy; shards := []; flights := ∅; pendingByEgress := ∅;
       mets := metrics_zero; heap := ∅; goroutines := ∅ |} end.
Definition demo_1 : Cache unit := (resolve_lookup demo_0 demo_key second).2.
Definition demo_ticket : ticket :=
  {| t_key := demo_key; t_stale := result_zero; t_until := 0; t_serve := false; t_now := second |}.
Definition demo_2 : Cache unit := (resolve_start demo_1 demo_key result_zero 0 false second second).2.
Definition demo_flight : running unit :=
  {| r_key := demo_key; r_stale := result_zero; r_staleUntil := 0; r_inserted := None |}.
Definition demo_3 : Cache unit :=
  flight_insert [] [] demo_2 0 demo_flight (Some (Ok demo_answer)) second 0.
Definition demo_sys (c : Cache unit) : sys unit := {| cache_ := c; callers := []; began := {[ 0%nat := second ]} |}.

Lemma demo_orders : orders demo_2 demo_key [].
Proof. vm_compute. reflexivity. Qed.

Lemma demo_reachable2 : reachable demo_policy (demo_sys demo_2).
Proof.
  exists demo_0. split; [vm_compute; reflexivity|].
  apply (rtc_l _ _ {| cache_ := demo_1;
    callers := [demo_ticket]; began := ∅ |}).
  - exact (step_lookup demo_0 [] ∅ demo_key second).
  - apply rtc_once. assert (opened ∅ demo_1 demo_2 demo_ticket = {[ 0%nat := second ]}) as Ho by (vm_compute; reflexivity).
    unfold demo_sys. rewrite <-Ho. exact (step_start demo_1 [] demo_ticket [] ∅ second second).
Qed.

Lemma demo_reachable3 : reachable demo_policy (demo_sys demo_3).
Proof.
  destruct demo_reachable2 as (c&Hc&Hr). exists c. split; [done|].
  eapply rtc_r; [exact Hr|]. apply step_insert; [vm_compute; reflexivity|done|apply demo_orders|done].
Qed.

Lemma cache_capacity_witness :
  reachable demo_policy (demo_sys demo_3) ∧
  (total_entries demo_3 classPositive ≤ 4)%Z ∧
  total_entries demo_3 classPositive = at_class (m_entries (mets demo_3)) classPositive.
Proof.
  split; [exact demo_reachable3|].
  exact (cache_capacity demo_policy (demo_sys demo_3) classPositive demo_reachable3).
Defined.

Lemma cache_single_flight_witness :
  reachable demo_policy (demo_sys demo_2) ∧ size (goroutines demo_2) = 1%nat ∧
  pending (mets demo_2) = Z.of_nat (size (goroutines demo_2)).
Proof.
  split; [exact demo_reachable2|]. split; [vm_compute; reflexivity|].
  apply (cache_single_flight demo_policy (demo_sys demo_2) demo_reachable2).
Defined.

Lemma flight_completes_witness :
  ∃ g, goroutines demo_2 !! 0%nat = Some g ∧ r_inserted g = None ∧
    ∃ x1 x2 pub, step (demo_sys demo_2) x1 ∧ step x1 x2 ∧
      publishes demo_policy g None second pub ∧ waitForFlight (cache_ x2) 0 false = Some pub.
Proof.
  destruct (flight_completes demo_policy (demo_sys demo_2) 0
    {| done_ := false; f_result := result_zero; f_err := None; f_stale := result_zero;
       serveStale := false |} demo_reachable2) as (g&Hg&H); [vm_compute; reflexivity|done|].
  assert (g = demo_flight) as -> by (vm_compute in Hg; by injection Hg).
  exists demo_flight. split; [exact Hg|]. split; [done|]. exact (H None second).
Defined.

Lemma normalizeResult_spec_witness :
  Validate demo_policy = Ok tt ∧
  (∀ z, z ∈ Addrs (normalizeResult (E := unit) demo_policy (Ok demo_answer) second).1 ↔
     ∃ y, y ∈ Addrs demo_answer ∧ IsValid y = true ∧ Zone y = "" ∧ Unmap y = z).
Proof.
  split; [vm_compute; reflexivity|].
  pose proof (normalizeResult_spec (E := unit) demo_policy (Ok demo_answer) second
    ltac:(vm_compute; reflexivity)) as H.
  destruct (normalizeResult demo_policy (Ok demo_answer) second) as [r er] eqn:Hr.
  destruct H as (_&[_ H2] &H). apply H, H2. split; [done|].
  exists (Addr4 167772161). split; [by left|done].
Defined.


Lemma insert_then_lookup_witness :
  (resolve_lookup demo_3 demo_key (2 * second)).1 = Fresh demo_answer None.
Proof.
  pose proof (insert_then_lookup demo_policy (demo_sys demo_2) [] [] 0 demo_flight
    (Some (Ok demo_answer)) second 0 (2 * second) demo_reachable2
    ltac:(vm_compute; reflexivity) demo_orders ltac:(done)) as H.
  assert (normalizeResult (E := unit) demo_policy (callResolver (Some (Ok demo_answer))) second =
    (demo_answer, None)) as Hn by (vm_compute; reflexivity).
  cbv zeta in H. rewrite Hn in H. apply H; vm_compute; done.
Defined.

Lemma Invalidate_misses_witness :
  (resolve_lookup (Invalidate demo_3 demo_query) demo_key (2 * second)).1 =
  NeedFlight result_zero 0 false.
Proof.
  apply (Invalidate_misses demo_policy (demo_sys demo_3));
    [exact demo_reachable3|vm_compute; reflexivity|vm_compute; done].
Defined.
