(* ===== verification/Url.v ===== *)
(** * net/url: ParseRequestURI

    The part of the standard library's URL parser that the configuration checks
    look at: whether a request URI parses, its scheme, its host and whether it
    carries credentials. *)
From stdpp Require Import base list strings.
From S2P Require Import Prelude Netip.

Record URL := { Scheme : string; Host : string; has_User : bool }.

Definition is_letter (c : ascii) : bool := is_lower c || is_upper c.
Definition in_bytes (set : string) (c : ascii) : bool := bool_decide (index_byte c set ≠ None).

(** [getScheme]: [None] for a leading colon; the scheme and what follows it. *)
Fixpoint get_scheme (first : bool) (acc s : string) : option (string * string) :=
  match s with
  | EmptyString => Some ("", acc)
  | String c s' =>
      if is_letter c then get_scheme false (acc +:+ String c "") s'
      else if is_digit c || in_bytes "+-." c then
        if first then Some ("", acc +:+ s) else get_scheme false (acc +:+ String c "") s'
      else if bool_decide (c = ":"%char) then if first then None else Some (acc, s')
      else Some ("", acc +:+ s)
  end.

(** A percent sign starts two hexadecimal digits. *)
Fixpoint escapes_ok (ok : ascii → ascii → bool) (s : string) : bool :=
  match s with
  | EmptyString => true
  | String "%" s =>
      match s with
      | String a (String b s) =>
          bool_decide (hex_digit a ≠ None) && bool_decide (hex_digit b ≠ None) && ok a b && escapes_ok ok s
      | _ => false
      end
  | String _ s => escapes_ok ok s
  end.
(** In a host an escape stands for a percent sign or a byte at or above [0x80]. *)
Definition host_escape (a b : ascii) : bool :=
  (8 <=? default 0 (hex_digit a))%Z || bool_decide (a = "2"%char) && bool_decide (b = "5"%char).
Definition host_byte_ok (c : ascii) : bool :=
  negb (byte_between 0 127 c) || is_letter c || is_digit c ||
  in_bytes "-_.~!$&'()*+,;=:[]<>%" c || bool_decide (c = "034"%char).
Definition unescape_host (s : string) : bool := str_forallb host_byte_ok s && escapes_ok host_escape s.

(** [validOptionalPort]: nothing, or a colon and digits. *)
Definition validOptionalPort (s : string) : bool :=
  match s with
  | EmptyString => true
  | String c s => bool_decide (c = ":"%char) && str_forallb is_digit s
  end.

(** The hostname between brackets is an IPv6 literal, its zone after an escaped
    percent sign. *)
Definition bracketed_ok (hostname : string) : bool :=
  let plain := match str_split "%" hostname with [] => "" | w :: _ => w end in
  unescape_host hostname &&
  match ParseAddr plain with Some a => Is6 a | None => false end.

Definition parse_host (host : string) : option string :=
  match last_index_byte "[" host with
  | Some (S _) => None
  | Some O =>
      match last_index_byte "]" host with
      | None => None
      | Some i => if validOptionalPort (str_drop (S i) host) && bracketed_ok (str_take (i - 1) (str_drop 1 host))
                  then Some host else None
      end
  | None =>
      let port := match index_byte ":" host with Some i => str_drop i host | None => "" end in
      if validOptionalPort port && unescape_host host then Some host else None
  end.

Definition userinfo_ok (s : string) : bool :=
  str_forallb (λ c, is_letter c || is_digit c || in_bytes "-._:~!$&'()*+,;=%@" c) s &&
  escapes_ok (λ _ _, true) s.

(** [parseAuthority]: the host and whether there is user information. *)
Definition parse_authority (authority : string) : option (string * bool) :=
  match last_index_byte "@" authority with
  | None => (λ h, (h, false)) <$> parse_host authority
  | Some i =>
      match parse_host (str_drop (S i) authority) with
      | Some h => if userinfo_ok (str_take i authority) then Some (h, true) else None
      | None => None
      end
  end.

Definition ParseRequestURI (raw : string) : option URL :=
  if negb (str_forallb (λ c, (32 <=? byte_of c)%Z && negb (byte_of c =? 127)%Z) raw) then None
  else if bool_decide (raw = "") then None
  else if bool_decide (raw = "*") then Some {| Scheme := ""; Host := ""; has_User := false |}
  else
    match get_scheme true "" raw with
    | None => None
    | Some (scheme, rest) =>
        let scheme := ascii_lower scheme in
        let rest := match index_byte "?" rest with Some i => str_take i rest | None => rest end in
        if negb (has_prefix "/" rest) then
          if bool_decide (scheme = "") then None
          else Some {| Scheme := scheme; Host := ""; has_User := false |}
        else
          let found :=
            if negb (bool_decide (scheme = "")) && has_prefix "//" rest then
              let authority := str_drop 2 rest in
              match index_byte "/" authority with
              | Some i => (λ hu, (hu, str_drop i authority)) <$> parse_authority (str_take i authority)
              | None => (λ hu, (hu, "")) <$> parse_authority authority
              end
            else Some (("", false), rest) in
          match found with
          | None => None
          | Some ((host, user), path) =>
              if escapes_ok (λ _ _, true) path
              then Some {| Scheme := scheme; Host := host; has_User := user |} else None
          end
    end.

Example ParseRequestURI_examples :
  ParseRequestURI "https://example.com/x?y" =
    Some {| Scheme := "https"; Host := "example.com"; has_User := false |} ∧
  ParseRequestURI "http://u:p@10.0.0.1:8080" =
    Some {| Scheme := "http"; Host := "10.0.0.1:8080"; has_User := true |} ∧
  ParseRequestURI "HTTP://[::1]:80/" = Some {| Scheme := "http"; Host := "[::1]:80"; has_User := false |} ∧
  ParseRequestURI "example.com" = None ∧ ParseRequestURI "http://a b/" = None ∧
  ParseRequestURI "http://a:80:80/" = None ∧ ParseRequestURI ":x" = None.
Proof. by vm_compute. Qed.
