(* ===== verification/ProxyPolicy.v ===== *)
(** * cmd/sakhtar-wg/proxy_policy.go: hosts, destinations and sources

    [canonicalHost], the only normalization of SNI names, HTTP hosts and
    configured suffixes, and the policies on destination and source addresses.
    [idna.Lookup.ToASCII] is outside the repository and a parameter. *)
From stdpp Require Import base gmap sets list strings sorting.
From S2P Require Import Prelude Netip.

(** [utf8.ValidString]. *)
Definition cont_byte : ascii → bool := byte_between 128 191.
Fixpoint utf8_valid (s : string) : bool :=
  match s with
  | EmptyString => true
  | String a s1 =>
      if byte_between 0 127 a then utf8_valid s1
      else match s1 with
      | EmptyString => false
      | String b s2 =>
          if byte_between 194 223 a then cont_byte b && utf8_valid s2
          else match s2 with
          | EmptyString => false
          | String c s3 =>
              if byte_between 224 239 a then
                byte_between (if (byte_of a =? 224)%Z then 160 else 128)
                             (if (byte_of a =? 237)%Z then 159 else 191) b &&
                cont_byte c && utf8_valid s3
              else match s3 with
              | EmptyString => false
              | String d s4 =>
                  byte_between 240 244 a &&
                  byte_between (if (byte_of a =? 240)%Z then 144 else 128)
                               (if (byte_of a =? 244)%Z then 143 else 191) b &&
                  cont_byte c && cont_byte d && utf8_valid s4
              end
          end
      end
  end.

(** ** Hosts *)
Inductive host_error :=
| HostEmptyOrSpace | HostNotASCII | HostBadPort | HostUnbracketed | HostBrackets
| HostEmptyOrZone | HostNeither | HostTrailingDots | HostLength | HostNotIDNA
| HostLabelSize | HostLabelEdge | HostLabelByte | HostAmbiguous.

Definition isAlphaNum (c : ascii) : bool := is_lower c || is_digit c.

Definition validPort (port : string) : bool :=
  match Atoi port with Some n => (1 <=? n)%Z && (n <=? 65535)%Z | None => false end.

(** The bytes of a label but the first and the last. *)
Definition inner (label : string) : string := str_take (String.length label - 2) (str_drop 1 label).

Definition check_label (label : string) : option host_error :=
  match str_first label, str_last label with
  | Some first, Some last =>
      if 63 <? String.length label then Some HostLabelSize
      else if negb (isAlphaNum first) || negb (isAlphaNum last) then Some HostLabelEdge
      else if str_forallb (λ c, isAlphaNum c || bool_decide (c = "-"%char)) (inner label) then None
      else Some HostLabelByte
  | _, _ => Some HostLabelSize
  end.
Fixpoint check_labels (labels : list string) : option host_error :=
  match labels with
  | [] => None
  | label :: labels => match check_label label with Some e => Some e | None => check_labels labels end
  end.

Definition ambiguousIPName (labels : list string) : bool :=
  let last := default "" (list.last labels) in
  if str_forallb is_digit last then true
  else if (length labels =? 1) && (2 <? String.length last) && has_prefix "0x" last then
    str_forallb (λ c, is_digit c || byte_between 97 102 c) (str_drop 2 last)
  else false.

(** The host without its port, when a port is allowed. *)
Definition strip_port (raw : string) (allowPort : bool) : result host_error string :=
  let split := match SplitHostPort raw with
               | Some (host, port) => if validPort port then Ok host else Err HostBadPort
               | None => Err HostBadPort
               end in
  if allowPort then
    if has_prefix "[" raw then
      if has_suffix "]" raw then Ok (trim_suffix "]" (trim_prefix "[" raw)) else split
    else if str_count ":" raw =? 1 then split
    else if 1 <? str_count ":" raw then Err HostUnbracketed
    else Ok raw
  else if has_prefix "[" raw || has_suffix "]" raw then Err HostBrackets
  else Ok raw.

Section host.
Context `{UnicodeTables} (toASCII : string → option string).

(** What [canonicalHost] does once the host is not an IP literal. *)
Definition canonicalName (host : string) : result host_error string :=
  if str_contains ":" host then Err HostNeither
  else if has_suffix ".." host then Err HostTrailingDots
  else
    let host := to_lower (trim_suffix "." host) in
    if bool_decide (host = "") || (253 <? String.length host) then Err HostLength
    else if negb (bool_decide (toASCII host = Some host)) then Err HostNotIDNA
    else
      let labels := str_split "." host in
      match check_labels labels with
      | Some e => Err e
      | None => if ambiguousIPName labels then Err HostAmbiguous else Ok host
      end.

Definition canonicalHost (raw : string) (allowPort : bool) : result host_error (string * bool) :=
  if bool_decide (raw = "") || negb (bool_decide (trim_space raw = raw)) || negb (utf8_valid raw)
  then Err HostEmptyOrSpace
  else if negb (str_forallb printable raw) then Err HostNotASCII
  else
    match strip_port raw allowPort with
    | Err e => Err e
    | Ok host =>
        if bool_decide (host = "") || str_contains "%" host then Err HostEmptyOrZone
        else match ParseAddr host with
             | Some ip => Ok (addr_String (Unmap ip), true)
             | None => (λ name, (name, false)) <$> canonicalName host
             end
    end.
End host.

(** ** Policy prefixes *)
Inductive prefix_error := PrefixParse | PrefixZone | PrefixMappedBroad.

Definition parsePolicyPrefix (raw : string) : result prefix_error Prefix :=
  match ParsePrefix raw with
  | None => Err PrefixParse
  | Some p =>
      let addr := p_ip p in
      if negb (bool_decide (Zone addr = "")) then Err PrefixZone
      else if Is4In6 addr then
        if (p_bits p <? 96)%Z then Err PrefixMappedBroad
        else Ok (Masked (PrefixFrom (Unmap addr) (p_bits p - 96)))
      else Ok (Masked p)
  end.

Definition mustPolicyPrefixes (raw : list string) : list Prefix :=
  omap (λ value, match parsePolicyPrefix value with Ok p => Some p | Err _ => None end) raw.

(** [netip.MustParsePrefix] of a constant. *)
Definition must_prefix (s : string) : Prefix := default prefix_zero (ParsePrefix s).

Definition defaultDeniedDestinationPrefixes : list Prefix :=
  must_prefix <$> ["192.0.2.0/24"; "198.51.100.0/24"; "203.0.113.0/24"; "2001:db8::/32";
                   "198.18.0.0/15"; "2001:2::/48"].

(** ** Destinations *)
Record destinationPolicy := { allowByMark : gmap Z (list Prefix) }.

Definition denied_by_default (addr : Addr) : bool :=
  IsLoopback addr || IsPrivate addr || IsLinkLocalUnicast addr || IsLinkLocalMulticast addr ||
  existsb (λ prefix, Contains prefix addr) defaultDeniedDestinationPrefixes.

Definition addressAllowed (p : destinationPolicy) (addr : Addr) (mark : Z) (self : gset Addr) : bool :=
  if negb (IsValid addr) || negb (bool_decide (Zone addr = "")) then false
  else
    let addr := Unmap addr in
    if IsUnspecified addr || IsMulticast addr then false
    else if bool_decide (addr ∈ self) then false
    else if negb (denied_by_default addr) then true
    else existsb (λ prefix, Contains prefix addr) (default [] (allowByMark p !! mark)).

Definition requestedHostAllowed (p : destinationPolicy) (host : string) (isIP : bool) (mark : Z)
    (self : gset Addr) : bool :=
  if isIP then
    match ParseAddr host with Some addr => addressAllowed p addr mark self | None => false end
  else
    negb (bool_decide (host ∈ ["localhost"; "localhost.localdomain"; "ip6-localhost"; "ip6-loopback";
                               "broadcasthost"])) &&
    negb (has_suffix ".localhost" host) && negb (has_suffix ".local" host).

Definition answerAllowed (p : destinationPolicy) (mark : Z) (addr : Addr) : bool :=
  addressAllowed p addr mark ∅.

(** ** Sources

    [None] is an address that is not a [*net.TCPAddr], [Some bytes] its IP. *)
Definition sourceAllowed (addr : option (list Z)) (prefixes : list Prefix) : Addr * bool :=
  match addr ≫= AddrFromSlice with
  | None => (AddrZero, false)
  | Some ip => let ip := Unmap ip in (ip, existsb (λ prefix, Contains prefix ip) prefixes)
  end.

(** ** Canonical names *)
Definition name_byte (c : ascii) : bool := isAlphaNum c || bool_decide (c = "-"%char).
Definition host_byte (c : ascii) : bool := name_byte c || bool_decide (c = "."%char).

(** The LDH rule: 1 to 63 letters, digits and inner hyphens. *)
Definition ldh_label (w : string) : Prop :=
  1 ≤ String.length w ≤ 63 ∧ str_forallb name_byte w = true ∧
  (∃ c, str_first w = Some c ∧ isAlphaNum c = true) ∧ (∃ c, str_last w = Some c ∧ isAlphaNum c = true).

Definition hostname (h : string) : Prop :=
  1 ≤ String.length h ≤ 253 ∧ Forall ldh_label (str_split "." h) ∧
  ambiguousIPName (str_split "." h) = false.

Lemma str_last_inner w c d :
  str_first w = Some c → str_last w = Some d → w = String c "" ∧ c = d ∨ w = String c (inner w +:+ String d "").
Proof.
  destruct w as [|c' w]; [done|]. intros [= ->] Hl. destruct w as [|e w]; [left; cbn in Hl; by injection Hl|].
  right. f_equal. unfold inner. cbn [str_drop]. replace (String.length (String c (String e w)) - 2)
    with (String.length w) by (simpl; lia).
  change (str_last (String c (String e w))) with (str_last (String e w)) in Hl. revert e Hl.
  induction w as [|f w IH]; intros e Hl; [cbn in Hl; by injection Hl as ->|].
  change (str_last (String e (String f w))) with (str_last (String f w)) in Hl.
  cbn [String.length str_take]. rewrite str_app_cons. f_equal. by apply IH.
Qed.

Lemma isAlphaNum_name c : isAlphaNum c = true → name_byte c = true.
Proof. unfold name_byte. by intros ->. Qed.

Lemma check_label_ok w : check_label w = None ↔ ldh_label w.
Proof.
  unfold check_label, ldh_label. destruct (str_first w) as [c|] eqn:Hf.
  2:{ split; [done|]. by intros (_&_&(?&?&_)&_). }
  destruct (str_last w) as [d|] eqn:Hl.
  2:{ split; [done|]. by intros (_&_&_&(?&?&_)). }
  destruct (Nat.ltb_spec 63 (String.length w)) as [Hlen|Hlen].
  { split; [done|]. intros ([_ ?]&_). lia. }
  assert (1 ≤ String.length w) by (destruct w; simpl in *; [done|lia]).
  destruct (isAlphaNum c) eqn:Hc, (isAlphaNum d) eqn:Hd; cbn [negb orb];
    try (split; [done|intros (_&_&(?&[= <-]&?)&(?&[= <-]&?)); congruence]).
  assert (str_forallb name_byte w = str_forallb name_byte (inner w)) as ->.
  { destruct (str_last_inner w c d Hf Hl) as [[-> ->]|Hw].
    - unfold inner. cbn. by rewrite isAlphaNum_name.
    - rewrite Hw at 1. cbn [str_forallb]. rewrite str_forallb_app. cbn [str_forallb].
      rewrite !isAlphaNum_name by done. by rewrite !andb_true_r. }
  change (λ c, isAlphaNum c || _) with name_byte.
  destruct (str_forallb name_byte (inner w)); (split; [|by intros (_&?&_)]); [|done].
  intros _. split_and!; [lia|lia|done|eauto|eauto].
Qed.

Lemma check_labels_ok l : check_labels l = None ↔ Forall ldh_label l.
Proof.
  induction l as [|w l IH]; cbn [check_labels]; [done|].
  rewrite Forall_cons, <-check_label_ok, <-IH. destruct (check_label w); naive_solver.
Qed.

Lemma split_forallb c f s :
  Forall (λ w, str_forallb f w = true) (str_split c s) →
  str_forallb (λ d, f d || bool_decide (d = c)) s = true.
Proof.
  induction s as [|d s IH]; [done|]. cbn [str_split str_forallb].
  destruct (decide (c = d)) as [->|Hne].
  - intros [_ Hf]%Forall_cons. rewrite bool_decide_eq_true_2, orb_true_r by done. by apply IH.
  - destruct (str_split c s) as [|w ws].
    + intros [Hw _]%Forall_cons. cbn in Hw. apply andb_true_iff in Hw as [-> _]. cbn. by apply IH.
    + intros [Hw Hws]%Forall_cons. cbn in Hw. apply andb_true_iff in Hw as [-> Hw]. cbn. apply IH.
      by constructor.
Qed.

Lemma split_nonempty c s : str_split c s ≠ [].
Proof. destruct s as [|d s]; [done|]. cbn. by destruct (decide (c = d)), (str_split c s). Qed.

Lemma split_last_sep c s : str_last s = Some c → list.last (str_split c s) = Some "".
Proof.
  induction s as [|d s IH]; [done|]. intros Hl. destruct s as [|e s].
  { injection Hl as ->. cbn. by rewrite decide_True. }
  change (str_last (String d (String e s))) with (str_last (String e s)) in Hl.
  specialize (IH Hl). pose proof (split_nonempty c s) as Hne.
  assert (∃ w w' ws, str_split c (String e s) = w :: w' :: ws) as (w&w'&ws&He).
  { cbn [str_split] in *. destruct (decide (c = e)), (str_split c s) as [|x [|y ws]]; cbn in *; eauto; done. }
  rewrite He in IH. cbn [str_split] in *. rewrite He. by destruct (decide (c = d)).
Qed.

Ltac all_bytes := intros [[] [] [] [] [] [] [] []]; vm_compute; done.

Lemma host_byte_printable : ∀ c, host_byte c = true → printable c = true.
Proof. all_bytes. Qed.
Lemma host_byte_ascii : ∀ c, host_byte c = true → byte_between 0 127 c = true.
Proof. all_bytes. Qed.
Lemma host_byte_lower : ∀ c, host_byte c = true → lower_byte c = c.
Proof. all_bytes. Qed.

Lemma hostname_bytes h : hostname h → str_forallb host_byte h = true.
Proof.
  intros (_&Hf&_). apply (split_forallb "." name_byte). eapply Forall_impl; [exact Hf|].
  by intros w (_&?&_).
Qed.

Lemma lower_id s : str_forallb host_byte s = true → ascii_lower s = s.
Proof.
  induction s as [|c s IH]; [done|]. cbn [str_forallb ascii_lower]. intros [Hc Hs]%andb_true_iff.
  by rewrite host_byte_lower, IH.
Qed.
Lemma to_lower_id `{UnicodeTables} s : str_forallb host_byte s = true → to_lower s = s.
Proof.
  intros Hs. unfold to_lower. rewrite (str_forallb_impl _ _ _ host_byte_ascii Hs). by apply lower_id.
Qed.

Lemma utf8_valid_ascii s : str_forallb (byte_between 0 127) s = true → utf8_valid s = true.
Proof.
  induction s as [|c s IH]; [done|]. cbn [str_forallb]. intros [Hc Hs]%andb_true_iff.
  cbn [utf8_valid]. rewrite Hc. by apply IH.
Qed.

Lemma str_first_last s : s ≠ "" → ∃ c d, str_first s = Some c ∧ str_last s = Some d.
Proof.
  destruct s as [|c s]; [done|]. intros _. exists c. revert c.
  induction s as [|d s IH]; intros c; [by exists c|]. destruct (IH d) as (e&_&He). exists e. done.
Qed.
Lemma str_forallb_first f s c : str_forallb f s = true → str_first s = Some c → f c = true.
Proof. destruct s; [done|]. cbn. intros [? _]%andb_true_iff [= <-]. done. Qed.
Lemma str_forallb_last f s c : str_forallb f s = true → str_last s = Some c → f c = true.
Proof.
  induction s as [|d s IH]; [done|]. cbn [str_forallb]. intros [Hd Hs]%andb_true_iff Hl.
  destruct s as [|e s]; [by injection Hl as <-|]. by apply IH.
Qed.

Lemma str_contains_free c s : str_free c s → str_contains (String c "") s = false.
Proof.
  induction s as [|d s IH]; [done|]. intros [Hne Hs]%str_free_cons. cbn [str_contains].
  rewrite IH by done. rewrite orb_false_r. unfold has_prefix. cbn.
  by destruct (Ascii.ascii_dec c d).
Qed.
Lemma str_count_free c s : str_free c s → str_count c s = 0.
Proof.
  induction s as [|d s IH]; [done|]. intros [Hne Hs]%str_free_cons. cbn.
  rewrite decide_False by done. by apply IH.
Qed.

Lemma has_prefix_first c s : has_prefix (String c "") s = true → str_first s = Some c.
Proof.
  unfold has_prefix. destruct s as [|d s]; [done|]. cbn. by destruct (Ascii.ascii_dec c d) as [->|].
Qed.

(** A suffix that is there ends the string. *)
Lemma has_suffix_last p s : has_suffix p s = true → p ≠ "" → str_last s = str_last p.
Proof.
  unfold has_suffix. rewrite andb_true_iff, bool_decide_eq_true. intros [Hl%Nat.leb_le He] Hp.
  rewrite <-(str_last_drop (String.length s - String.length p) s), He; [done|].
  assert (0 < String.length p) by (destruct p; simpl; [done|lia]). lia.
Qed.

Lemma hostname_no_dot h : hostname h → str_last h ≠ Some "."%char.
Proof.
  intros (_&Hf&_) Hl. apply split_last_sep in Hl. apply last_Some in Hl as (l&Hl).
  rewrite Hl, Forall_app, Forall_cons in Hf. destruct Hf as (_&([? _]&_)&_). simpl in *. lia.
Qed.

Lemma strip_port_id h allowPort :
  h ≠ "" → str_forallb host_byte h = true → strip_port h allowPort = Ok h.
Proof.
  intros Hne Hb. destruct (str_first_last h Hne) as (c&d&Hc&Hd).
  pose proof (str_forallb_first _ _ _ Hb Hc) as Hcb. pose proof (str_forallb_last _ _ _ Hb Hd) as Hdb.
  assert (has_prefix "[" h = false) as Hp.
  { apply not_true_is_false. intros Hp%has_prefix_first. rewrite Hc in Hp. injection Hp as ->.
    by vm_compute in Hcb. }
  assert (has_suffix "]" h = false) as Hs.
  { apply not_true_is_false. intros Hs%has_suffix_last; [|done]. rewrite Hd in Hs. injection Hs as ->.
    by vm_compute in Hdb. }
  unfold strip_port. rewrite Hp, Hs. rewrite str_count_free by (by eapply str_free_bytes).
  by destruct allowPort.
Qed.

Lemma addr_family_host h :
  str_forallb host_byte h = true → addr_family h = None ∨ addr_family h = Some "."%char.
Proof.
  induction h as [|c h IH]; [by left|]. cbn [str_forallb addr_family]. intros [Hc Hh]%andb_true_iff.
  case_bool_decide as Hin; [|by apply IH]. right.
  rewrite !elem_of_cons, elem_of_nil in Hin. destruct Hin as [->|[->|[->|[]]]]; [done|by vm_compute in Hc..].
Qed.

(** The address of no host is hidden behind a name. *)
Lemma hostname_not_ip h : hostname h → ParseAddr h = None.
Proof.
  intros Hh. pose proof (hostname_bytes h Hh) as Hb. destruct Hh as (_&_&Ha). unfold ParseAddr.
  destruct (addr_family_host h Hb) as [-> | ->]; [done|].
  destruct (parseIPv4 h) as [v|] eqn:Hv; [exfalso|done]. unfold parseIPv4 in Hv.
  unfold ambiguousIPName in Ha.
  destruct (str_split "." h) as [|a [|b [|c [|d [|]]]]]; try done.
  destruct (parse_octet a), (parse_octet b), (parse_octet c), (parse_octet d) eqn:Hd; try done.
  apply parse_octet_digits in Hd. cbn in Ha. by rewrite Hd in Ha.
Qed.

Lemma canonicalName_ok `{UnicodeTables} toASCII host h :
  canonicalName toASCII host = Ok h → hostname h ∧ toASCII h = Some h.
Proof.
  unfold canonicalName. destruct (str_contains _ _); [done|]. destruct (has_suffix _ _); [done|].
  set (name := to_lower _). case_bool_decide as He; cbn [orb]; [done|].
  destruct (Nat.ltb_spec 253 (String.length name)) as [|Hlen]; [done|].
  case_bool_decide as Ha; cbn [negb]; [|done].
  destruct (check_labels _) eqn:Hc; [done|]. apply check_labels_ok in Hc.
  destruct (ambiguousIPName _) eqn:Hamb; [done|]. intros [= <-].
  split; [|done]. split_and!; [|done..].
  destruct name as [|c s]; [done|]. simpl in *. lia.
Qed.

Lemma canonicalName_id `{UnicodeTables} toASCII h :
  hostname h → toASCII h = Some h → canonicalName toASCII h = Ok h.
Proof.
  intros Hh Ha. pose proof (hostname_bytes h Hh) as Hb. pose proof (hostname_no_dot h Hh) as Hd.
  pose proof Hh as (Hlen&Hl&Hamb). unfold canonicalName.
  rewrite str_contains_free by (by eapply str_free_bytes).
  assert (∀ p, str_last p = Some "."%char → has_suffix p h = false) as Hs.
  { intros p Hp. apply not_true_is_false. intros Hx%has_suffix_last; [congruence|]. by intros ->. }
  rewrite Hs by done. unfold trim_suffix. rewrite Hs by done. rewrite to_lower_id by done.
  rewrite bool_decide_eq_false_2 by (intros ->; simpl in Hlen; lia).
  rewrite (proj2 (Nat.ltb_ge _ _)) by lia. cbn [orb]. rewrite bool_decide_eq_true_2 by done. cbn [negb].
  apply check_labels_ok in Hl. by rewrite Hl, Hamb.
Qed.

Lemma canonicalHost_bytes `{UnicodeTables} toASCII h allowPort :
  h ≠ "" → str_forallb host_byte h = true →
  canonicalHost toASCII h allowPort =
  match ParseAddr h with
  | Some ip => Ok (addr_String (Unmap ip), true)
  | None => (λ name, (name, false)) <$> canonicalName toASCII h
  end.
Proof.
  intros Hne Hb. unfold canonicalHost. rewrite (bool_decide_eq_false_2 (h = "")) by done.
  destruct (str_first_last h Hne) as (c&d&Hc&Hd).
  pose proof (host_byte_printable c (str_forallb_first _ _ _ Hb Hc)).
  pose proof (host_byte_printable d (str_forallb_last _ _ _ Hb Hd)).
  rewrite (trim_space_printable c d h) by done.
  rewrite (bool_decide_eq_true_2 (h = h)) by done.
  rewrite utf8_valid_ascii by (eapply str_forallb_impl, Hb; apply host_byte_ascii).
  rewrite (str_forallb_impl _ _ _ host_byte_printable Hb). cbn [negb orb].
  rewrite strip_port_id by done. rewrite (bool_decide_eq_false_2 (h = "")) by done.
  by rewrite str_contains_free by (by eapply str_free_bytes).
Qed.

Lemma str_contains_index c s : str_contains (String c "") s = false → index_byte c s = None.
Proof.
  induction s as [|d s IH]; [done|]. cbn [str_contains index_byte].
  rewrite orb_false_iff. unfold has_prefix. cbn. intros [Hp Hs].
  destruct (decide (c = d)) as [->|Hne]; [|by rewrite IH].
  revert Hp. destruct (Ascii.ascii_dec d d); [|done]. by destruct s.
Qed.
Lemma ParseAddr_no_zone s a : str_contains "%" s = false → ParseAddr s = Some a → Zone a = "".
Proof.
  intros Hs%str_contains_index. unfold ParseAddr. destruct (addr_family s) as [c|]; [|done].
  intros H. assert ((∃ v, a = Addr4 v) ∨ parseIPv6 s = Some a) as [[v ->]|Hp].
  { repeat case_match; try done; [left|by right]. destruct (parseIPv4 s); [|done]. injection H as <-. eauto. }
  - done.
  - unfold parseIPv6 in Hp. rewrite Hs in Hp. destruct (parseIPv6_value s); [|done]. by injection Hp as <-.
Qed.

Lemma ParseAddr_valid s a : ParseAddr s = Some a → IsValid a = true.
Proof.
  intros H. destruct a; [|done..]. exfalso. revert H. unfold ParseAddr, parseIPv6. intros H.
  repeat case_match; try done. all: try (by destruct (parseIPv4 s)). all: by destruct (parseIPv6_value _).
Qed.
Lemma ParseAddr_Unmap4 s a v : ParseAddr s = Some a → Unmap a = Addr4 v → (0 ≤ v < 2 ^ 32)%Z.
Proof.
  destruct a as [|w|w z]; unfold Unmap; [done| |].
  - intros H [= <-]. by eapply ParseAddr_Addr4.
  - intros _. destruct (Is4In6 _); [|done]. intros [= <-]. by apply Z.mod_pos_bound.
Qed.

Lemma string4_bytes v : str_forallb host_byte (string4 v) = true ∧ string4 v ≠ "".
Proof.
  assert (∀ k, str_forallb host_byte (itoa (octet v k)) = true ∧ itoa (octet v k) ≠ "") as Ho.
  { intros k. destruct (small_itoa (octet v k) (octet_bound v k)) as [Hd _].
    unfold all_digits in Hd. apply andb_true_iff in Hd as [Hd Hne].
    rewrite negb_true_iff, bool_decide_eq_false in Hne. split; [|done].
    eapply str_forallb_impl, Hd. intros c Hc. unfold host_byte, name_byte, isAlphaNum.
    by rewrite Hc, orb_true_r. }
  split.
  - unfold string4. rewrite !str_forallb_app.
    rewrite !(proj1 (Ho _)). done.
  - unfold string4. intros He. apply (proj2 (Ho 24%Z)).
    destruct (itoa (octet v 24)); [done|]. by rewrite str_app_cons in He.
Qed.

Lemma canonicalHost_name `{UnicodeTables} toASCII raw allowPort h :
  canonicalHost toASCII raw allowPort = Ok (h, false) → hostname h ∧ toASCII h = Some h.
Proof.
  unfold canonicalHost. destruct (_ || _); [done|]. destruct (negb _); [done|].
  destruct (strip_port raw allowPort) as [host|]; [|done]. destruct (_ || _); [done|].
  destruct (ParseAddr host); [done|]. destruct (canonicalName toASCII host) eqn:Hn; [|done].
  intros [= <-]. by eapply canonicalName_ok.
Qed.
Lemma canonicalHost_hostname `{UnicodeTables} toASCII h allowPort :
  hostname h → toASCII h = Some h → canonicalHost toASCII h allowPort = Ok (h, false).
Proof.
  intros Hh Ha. rewrite canonicalHost_bytes, hostname_not_ip, canonicalName_id; try done.
  - destruct Hh as ([? _]&_). intros ->. simpl in *. lia.
  - by apply hostname_bytes.
Qed.

(** Canonical hosts.  A name that is accepted is a lower-case LDH hostname
    within the DNS limits, is not an address in disguise and is its own
    canonical form.  An address literal that is accepted has no zone and is
    printed unmapped; an IPv4 one reads back as itself. *)
Theorem canonicalHost_canonical `{UnicodeTables} toASCII raw allowPort h isIP :
  canonicalHost toASCII raw allowPort = Ok (h, isIP) →
  if isIP then
    ∃ ip, IsValid ip = true ∧ Zone ip = "" ∧ h = addr_String (Unmap ip) ∧
      ∀ v, Unmap ip = Addr4 v →
        ParseAddr h = Some (Addr4 v) ∧ ∀ b, canonicalHost toASCII h b = Ok (h, true)
  else hostname h ∧ ParseAddr h = None ∧ ∀ b, canonicalHost toASCII h b = Ok (h, false).
Proof.
  intros Hc. destruct isIP.
  - unfold canonicalHost in Hc at 1. destruct (_ || _); [done|]. destruct (negb _); [done|].
    destruct (strip_port raw allowPort) as [host|]; [|done].
    destruct (_ || _) eqn:Hz; [done|]. apply orb_false_iff in Hz as [_ Hz].
    destruct (ParseAddr host) as [ip|] eqn:Hp; [|by destruct (canonicalName toASCII host)].
    injection Hc as <-. exists ip.
    split_and!; [by eapply ParseAddr_valid|by eapply ParseAddr_no_zone|done|].
    intros v Hu. pose proof (ParseAddr_Unmap4 host ip v Hp Hu) as Hv. rewrite Hu. cbn [addr_String].
    destruct (string4_bytes v) as [Hb Hne]. split; [by apply ParseAddr_string4|]. intros b.
    by rewrite canonicalHost_bytes, ParseAddr_string4.
  - apply canonicalHost_name in Hc as [Hh Ha]. split_and!; [done|by apply hostname_not_ip|].
    intros b. by apply canonicalHost_hostname.
Qed.

Lemma canonicalHost_canonical_witness :
  let tables := {| unicode_to_lower := λ s, s |} in
  canonicalHost (H := tables) Some "API.Example.com.:8443" true = Ok ("api.example.com", false) ∧
  hostname "api.example.com".
Proof.
  intros tables. assert (canonicalHost (H := tables) Some "API.Example.com.:8443" true =
    Ok ("api.example.com", false)) as H by (vm_compute; reflexivity).
  split; [exact H|]. exact (proj1 (canonicalHost_canonical (H := tables) Some _ _ _ _ H)).
Defined.

(** ** Destination addresses as ranges *)
Definition ip4 (a b c d : Z) : Z := ((a * 256 + b) * 256 + c) * 256 + d.

(** The IPv4 blocks that are denied unless a policy allows them. *)
Definition special_v4 : list (Z * Z) :=
  [(ip4 10 0 0 0, 8); (ip4 127 0 0 0, 8); (ip4 169 254 0 0, 16); (ip4 172 16 0 0, 12);
   (ip4 192 168 0 0, 16); (ip4 192 0 2 0, 24); (ip4 198 18 0 0, 15); (ip4 198 51 100 0, 24);
   (ip4 203 0 113 0, 24)]%Z.
Definition in_block (v : Z) (b : Z * Z) : Prop := (b.1 ≤ v < b.1 + 2 ^ (32 - b.2))%Z.

Lemma shiftr_block v k x : (0 ≤ k)%Z → Z.shiftr v k = x ↔ (x * 2 ^ k ≤ v < x * 2 ^ k + 2 ^ k)%Z.
Proof.
  intros Hk. rewrite Z.shiftr_div_pow2 by done. assert (0 < 2 ^ k)%Z by (by apply Z.pow_pos_nonneg).
  pose proof (Z.div_mod v (2 ^ k)). pose proof (Z.mod_pos_bound v (2 ^ k)). split; [nia|].
  intros Hv. symmetry. apply (Z.div_unique_pos v (2 ^ k) x (v - x * 2 ^ k)); lia.
Qed.

Lemma eqb_block v k x lo n :
  (0 ≤ k)%Z → (x * 2 ^ k = lo)%Z → (2 ^ k = n)%Z →
  (Z.shiftr v k =? x)%Z = true ↔ (lo ≤ v < lo + n)%Z.
Proof. intros Hk <- <-. by rewrite Z.eqb_eq, shiftr_block. Qed.

(** Masking the high bits of a bounded number is dropping the low ones. *)
Lemma land_high x a b :
  (0 ≤ a)%Z → (0 ≤ b)%Z → (0 ≤ x < 2 ^ (a + b))%Z →
  Z.land x (Z.shiftl (Z.ones b) a) = Z.shiftl (Z.shiftr x a) a.
Proof.
  intros Ha Hb Hx. apply Z.bits_inj'. intros n Hn. rewrite Z.land_spec, !Z.shiftl_spec by done.
  destruct (Z.lt_ge_cases n a).
  - rewrite !(Z.testbit_neg_r _ (n - a)) by lia. apply andb_false_r.
  - rewrite Z.shiftr_spec by lia. replace (n - a + a)%Z with n by lia.
    destruct (Z.lt_ge_cases n (a + b)).
    + rewrite Z.ones_spec_low by lia. apply andb_true_r.
    + by rewrite (testbit_high x n (a + b)) by lia.
Qed.

Lemma land_block v k a b x lo n :
  (0 ≤ k)%Z → (0 ≤ a)%Z → (0 ≤ b)%Z → (0 ≤ v < 2 ^ (k + a + b))%Z →
  (x * 2 ^ (k + a) = lo)%Z → (2 ^ (k + a) = n)%Z →
  (Z.land (Z.shiftr v k) (Z.shiftl (Z.ones b) a) =? x * 2 ^ a)%Z = true ↔ (lo ≤ v < lo + n)%Z.
Proof.
  intros Hk Ha Hb Hv Hlo Hn. rewrite land_high; [|done|done|].
  - rewrite Z.eqb_eq, Z.shiftr_shiftr, Z.shiftl_mul_pow2 by done. rewrite <-Hlo, <-Hn.
    assert (0 < 2 ^ a)%Z by (by apply Z.pow_pos_nonneg).
    rewrite <-shiftr_block by lia. nia.
  - rewrite Z.shiftr_div_pow2 by done. rewrite <-Z.add_assoc, Z.pow_add_r in Hv by lia.
    assert (0 < 2 ^ k)%Z by (by apply Z.pow_pos_nonneg).
    split; [apply Z.div_pos; lia|]. apply Z.div_lt_upper_bound; lia.
Qed.

Section v4.
Context (v : Z) (Hv : (0 ≤ v < 2 ^ 32)%Z).

Lemma denied_v4 :
  denied_by_default (Addr4 v) = true ↔
  Exists (in_block v) special_v4 ∨ (ip4 224 0 0 0 ≤ v < ip4 224 0 1 0)%Z.
Proof.
  unfold denied_by_default, IsLoopback, IsPrivate, IsLinkLocalUnicast, IsLinkLocalMulticast,
    defaultDeniedDestinationPrefixes. cbn [Unmap fmap list_fmap existsb].
  assert (must_prefix "192.0.2.0/24" = prefix4 (ip4 192 0 2 0) 24) as -> by (vm_compute; reflexivity).
  assert (must_prefix "198.51.100.0/24" = prefix4 (ip4 198 51 100 0) 24) as -> by (vm_compute; reflexivity).
  assert (must_prefix "203.0.113.0/24" = prefix4 (ip4 203 0 113 0) 24) as -> by (vm_compute; reflexivity).
  assert (must_prefix "198.18.0.0/15" = prefix4 (ip4 198 18 0 0) 15) as -> by (vm_compute; reflexivity).
  assert (Contains (must_prefix "2001:db8::/32") (Addr4 v) = false) as -> by (vm_compute; done).
  assert (Contains (must_prefix "2001:2::/48") (Addr4 v) = false) as -> by (vm_compute; done).
  rewrite !Contains4 by lia. rewrite !orb_true_iff.
  change (Z.land (Z.shiftr v 16) 65520 =? 172 * 256 + 16)%Z with
    (Z.land (Z.shiftr v 16) (Z.shiftl (Z.ones 12) 4) =? 2753 * 2 ^ 4)%Z.
  rewrite (land_block v 16 4 12 2753 (ip4 172 16 0 0) (2 ^ 20)) by (done || lia).
  repeat match goal with |- context [Z.shiftr (ip4 ?a ?b ?c ?d) ?k] =>
    let x := eval vm_compute in (Z.shiftr (ip4 a b c d) k) in change (Z.shiftr (ip4 a b c d) k) with x end.
  rewrite !Z.eqb_eq, !shiftr_block by lia. unfold special_v4. rewrite !Exists_cons, Exists_nil.
  unfold in_block, ip4. cbn [fst snd]. lia.
Qed.

(** C35: destinations.  Without a policy entry the proxy may dial an IPv4 address
    exactly when it is not unspecified, multicast, one of the daemon's own, nor
    in a loopback, private, link-local, documentation or benchmarking block; an
    address of those blocks needs a prefix allowed for the mark it would leave
    with.  An IPv4-mapped IPv6 form is judged as the address it carries. *)
Theorem addressAllowed_v4 p mark self :
  (addressAllowed p (Addr4 v) mark self = true ↔
   v ≠ 0%Z ∧ ¬ (ip4 224 0 0 0 ≤ v < ip4 240 0 0 0)%Z ∧ (Addr4 v ∉ self) ∧
   (Exists (in_block v) special_v4 →
    ∃ l prefix, allowByMark p !! mark = Some l ∧ prefix ∈ l ∧ Contains prefix (Addr4 v) = true)) ∧
  addressAllowed p (Addr6 (65535 * 2 ^ 32 + v) "") mark self = addressAllowed p (Addr4 v) mark self.
Proof.
  split.
  - assert (IsUnspecified (Addr4 v) = true ↔ v = 0%Z) as Hu.
    { unfold IsUnspecified. rewrite orb_true_iff, !bool_decide_eq_true. split; [by intros [[=]|[=]]|].
      intros ->. by left. }
    assert (IsMulticast (Addr4 v) = true ↔ (ip4 224 0 0 0 ≤ v < ip4 240 0 0 0)%Z) as Hm.
    { unfold IsMulticast. cbn [Unmap].
      change (Z.land (Z.shiftr v 24) 240 =? 224)%Z with
        (Z.land (Z.shiftr v 24) (Z.shiftl (Z.ones 4) 4) =? 14 * 2 ^ 4)%Z.
      apply (land_block v 24 4 4 14 (ip4 224 0 0 0) (2 ^ 28)); first [done | lia]. }
    pose proof denied_v4 as Hd. unfold addressAllowed. cbn [IsValid Zone Unmap negb orb].
    rewrite bool_decide_eq_true_2 by done. cbn [negb].
    destruct (IsUnspecified (Addr4 v)); cbn [orb]; [split; [done|]; naive_solver|].
    destruct (IsMulticast (Addr4 v)); [split; [done|]; naive_solver|].
    case_bool_decide as Hs; [split; [done|]; naive_solver|].
    assert (v ≠ 0%Z ∧ ¬ (ip4 224 0 0 0 ≤ v < ip4 240 0 0 0)%Z) as [Hv0 Hnm] by naive_solver.
    assert (¬ (ip4 224 0 0 0 ≤ v < ip4 224 0 1 0)%Z) as Hnl by (unfold ip4 in *; lia).
    destruct (denied_by_default (Addr4 v)); cbn [negb].
    + assert (Exists (in_block v) special_v4) as Hx by tauto. split.
      * intros He. split_and!; [done..|]. intros _. destruct (allowByMark p !! mark) as [l|]; [|done].
        apply existsb_exists in He as (q&Hq&Hc). exists l, q. by rewrite list_elem_of_In.
      * intros (_&_&_&Hal). destruct (Hal Hx) as (l&q&->&Hq&Hc). apply existsb_exists.
        exists q. by rewrite <-list_elem_of_In.
    + split; [|done]. intros _. split_and!; [done..|]. intros Hx. exfalso. assert (false = true) by tauto. done.
  - unfold addressAllowed. cbn [IsValid Zone]. assert (Unmap (Addr6 (65535 * 2 ^ 32 + v) "") = Addr4 v) as ->.
    { assert (Z.shiftr (65535 * 2 ^ 32 + v) 32 = 65535%Z) as Hs by (apply shiftr_block; lia).
      unfold Unmap, Is4In6. rewrite Hs. cbn [Z.eqb Pos.eqb]. f_equal. rewrite Z.add_comm, Z.mod_add by done. by apply Z.mod_small. }
    reflexivity.
Qed.
End v4.

Lemma addressAllowed_v4_witness :
  addressAllowed {| allowByMark := ∅ |} (Addr4 (ip4 8 8 8 8)) 0 ∅ = true ∧
  addressAllowed {| allowByMark := ∅ |} (Addr6 (65535 * 2 ^ 32 + ip4 169 254 169 254) "") 0 ∅ =
    addressAllowed {| allowByMark := ∅ |} (Addr4 (ip4 169 254 169 254)) 0 ∅.
Proof.
  split.
  - apply (proj2 (proj1 (addressAllowed_v4 (ip4 8 8 8 8) ltac:(by vm_compute) _ _ _))).
    split_and!; [done|by vm_compute; intros [? ?]|apply not_elem_of_empty|].
    intros Hx. exfalso. unfold special_v4, in_block, ip4 in Hx.
    rewrite !Exists_cons, Exists_nil in Hx. cbn [fst snd] in Hx. lia.
  - exact (proj2 (addressAllowed_v4 (ip4 169 254 169 254) ltac:(by vm_compute) _ _ _)).
Defined.
