(* ===== verification/Config.v ===== *)
(** * cmd/sakhtar-wg/config.go: the configuration

    The configuration records, [normalize] (the defaults) and [validate] (the
    strict checks), with the lookups the daemon makes in a configuration.  The
    YAML decoder, [wgtypes.ParseKey] and [idna.Lookup.ToASCII] are outside the
    repository and parameters.  An error names the setting it is about; the text
    of the message is left out. *)
From stdpp Require Import base gmap sets list strings.
From S2P Require Import Prelude Netip Url KernelPlan ProxyPolicy.

Definition maxConfigBytes : Z := 2 ^ 20.
Definition defaultMaxConnections : Z := 1024.
Definition defaultHandshakeTimeout : Z := 5.
Definition defaultShutdownGrace : Z := 10.
Definition defaultMaxClientHelloBytes : Z := 64 * 2 ^ 10.
Definition defaultMaxHTTPHeaderBytes : Z := 64 * 2 ^ 10.
Definition defaultDNSPositiveCapacity : Z := 4096.
Definition defaultDNSNegativeCapacity : Z := 1024.
Definition defaultDNSMaxPending : Z := 128.
Definition defaultDNSMinPositiveTTL : Z := 5.
Definition defaultDNSMaxPositiveTTL : Z := 300.
Definition defaultDNSNegativeTTL : Z := 20.
Definition defaultDNSTransientTTL : Z := 2.
Definition defaultDNSStaleWindow : Z := 3600.
Definition defaultDNSResolverTimeout : Z := 5.
Definition defaultConnectAttemptCap : Z := 4.
Definition defaultManagementReadHeaderTimeout : Z := 5.
Definition defaultManagementWriteTimeout : Z := 10.
Definition defaultManagementIdleTimeout : Z := 30.
Definition defaultManagementShutdownTimeout : Z := 5.
Definition defaultManagementMaxHeaderBytes : Z := 16 * 2 ^ 10.
Definition maxConfiguredConnections : Z := 2 ^ 20.
Definition maxConfiguredProtocolBytes : Z := 256 * 2 ^ 10.
Definition maxDNSCapacity : Z := 2 ^ 20.
Definition maxConnectAttemptCap : Z := 64.
Definition defaultResolver : string := "1.1.1.1:53".
Definition maxResolvers : nat := 4.
Definition maxDurationSeconds : Z := int64_max / second.

Abbreviation ResolverList := (list string).
Definition orDefault (l : ResolverList) : ResolverList :=
  match l with [] => [defaultResolver] | _ => l end.

(** ** Records

    A slice of a [Tunnel] is [None] when it is nil: [reflect.DeepEqual] tells a
    nil slice from an empty one. *)
Record Peer := {
  pe_PublicKey : string; pe_Endpoint : string; pe_AllowedIPs : option (list string); pe_Keepalive : Z }.
Record RouteSource := { rs_Name : string; rs_URL : string; rs_Format : string; rs_Via : string }.
Record Tunnel := {
  t_Name : string; t_PrivateKey : string; t_Address : string; t_MTU : Z; t_Fwmark : Z;
  t_FwmarkMask : Z; t_Table : Z; t_RulePriority : Z; t_AdoptExisting : bool;
  t_Routes : option (list string); t_RouteSources : option (list RouteSource); t_Peer : Peer;
  t_Resolver : ResolverList }.
Record Group := { g_Name : string; g_Members : list string; g_HealthyAfter : Z }.
Record Rule := { r_Via : string; r_Suffixes : list string }.
Record DestinationPolicy := {
  dp_DirectAllowCIDRs : list string; dp_TunnelAllowCIDRs : gmap string (list string) }.
Record Proxy := {
  px_HTTPSListen : string; px_HTTPListen : string; px_Default : string;
  px_AllowedSourceCIDRs : list string; px_MaxConnections : Z; px_MaxConnectionsPerSource : Z;
  px_HandshakeTimeout : Z; px_DialTimeout : Z; px_IdleTimeout : Z; px_ShutdownGrace : Z;
  px_MaxClientHelloBytes : Z; px_MaxHTTPHeaderBytes : Z; px_DestinationPolicy : DestinationPolicy;
  px_Resolver : ResolverList; px_DNSCacheTTL : Z; px_DNSPositiveCapacity : Z;
  px_DNSNegativeCapacity : Z; px_DNSMaxPending : Z; px_DNSMinPositiveTTL : Z;
  px_DNSMaxPositiveTTL : Z; px_DNSNegativeTTL : Z; px_DNSTransientFailureTTL : Z;
  px_DNSStaleWindow : Z; px_DNSStalePolicy : string; px_DNSResolverTimeout : Z;
  px_AddressFamilyStrategy : string; px_ConnectAttemptCap : Z; px_Rules : list Rule }.
Record Gateway := { gw_Enabled : bool; gw_ClientCIDRs : list string; gw_ListListen : string }.
Record PfSync := {
  pf_Enabled : bool; pf_SSHHost : string; pf_SSHPort : Z; pf_SSHUser : string; pf_SSHKey : string;
  pf_KnownHosts : string; pf_FromTunnel : string; pf_KeepNetworks : list string }.
Record Management := {
  mg_Disabled : bool; mg_Listen : string; mg_ReadHeaderTimeout : Z; mg_WriteTimeout : Z;
  mg_IdleTimeout : Z; mg_ShutdownTimeout : Z; mg_MaxHeaderBytes : Z; mg_Pprof : bool }.
Record HealthProbe := {
  hp_Enabled : bool; hp_Endpoint : string; hp_Via : string; hp_Interval : Z; hp_Timeout : Z;
  hp_JitterPercent : Z; hp_MaxConcurrent : Z; hp_FailAfter : Z; hp_RecoverAfter : Z; hp_MaxAge : Z }.
Record Config := {
  c_Tunnels : list Tunnel; c_Groups : list Group; c_Proxy : Proxy; c_Gateway : Gateway;
  c_RouteRefresh : Z; c_HealthInterval : Z; c_PfSync : PfSync; c_Management : Management;
  c_HealthProbe : HealthProbe }.

Definition routes (t : Tunnel) : list string := default [] (t_Routes t).
Definition route_sources (t : Tunnel) : list RouteSource := default [] (t_RouteSources t).
Definition allowed_ips (t : Tunnel) : list string := default [] (pe_AllowedIPs (t_Peer t)).

#[export] Instance Peer_eq_dec : EqDecision Peer.
Proof. solve_decision. Defined.
#[export] Instance RouteSource_eq_dec : EqDecision RouteSource.
Proof. solve_decision. Defined.
#[export] Instance Tunnel_eq_dec : EqDecision Tunnel.
Proof. solve_decision. Defined.

(** ** normalize *)
Definition or_zero (v d : Z) : Z := if (v =? 0)%Z then d else v.
Definition or_empty (v d : string) : string := if bool_decide (v = "") then d else v.

Definition normalize_source (s : RouteSource) : RouteSource :=
  {| rs_Name := rs_Name s; rs_URL := rs_URL s; rs_Format := rs_Format s; rs_Via := or_empty (rs_Via s) "direct" |}.
Definition normalize_tunnel (i : nat) (t : Tunnel) : Tunnel :=
  {| t_Name := t_Name t; t_PrivateKey := t_PrivateKey t; t_Address := t_Address t;
     t_MTU := or_zero (t_MTU t) 1420; t_Fwmark := t_Fwmark t;
     t_FwmarkMask := or_zero (t_FwmarkMask t) FullMarkMask;
     t_Table := or_zero (t_Table t) (t_Fwmark t);
     t_RulePriority := or_zero (t_RulePriority t) (RulePriorityMin + Z.of_nat i);
     t_AdoptExisting := t_AdoptExisting t; t_Routes := t_Routes t;
     t_RouteSources := match t_RouteSources t with
                       | Some l => Some (normalize_source <$> l) | None => None end;
     t_Peer := {| pe_PublicKey := pe_PublicKey (t_Peer t); pe_Endpoint := pe_Endpoint (t_Peer t);
                  pe_AllowedIPs := match allowed_ips t with [] => Some ["0.0.0.0/0"] | _ => pe_AllowedIPs (t_Peer t) end;
                  pe_Keepalive := pe_Keepalive (t_Peer t) |};
     t_Resolver := t_Resolver t |}.
Definition normalize_group (g : Group) : Group :=
  {| g_Name := g_Name g; g_Members := g_Members g; g_HealthyAfter := or_zero (g_HealthyAfter g) 180 |}.
Definition normalize_probe (h : HealthProbe) : HealthProbe :=
  let interval := or_zero (hp_Interval h) 30 in
  {| hp_Enabled := hp_Enabled h; hp_Endpoint := hp_Endpoint h; hp_Via := hp_Via h;
     hp_Interval := interval; hp_Timeout := or_zero (hp_Timeout h) 5;
     hp_JitterPercent := or_zero (hp_JitterPercent h) 20; hp_MaxConcurrent := or_zero (hp_MaxConcurrent h) 1;
     hp_FailAfter := or_zero (hp_FailAfter h) 2; hp_RecoverAfter := or_zero (hp_RecoverAfter h) 3;
     hp_MaxAge := or_zero (hp_MaxAge h) (to_int64 (3 * interval)) |}.
Definition normalize_management (m : Management) : Management :=
  {| mg_Disabled := mg_Disabled m; mg_Listen := or_empty (mg_Listen m) "127.0.0.1:9090";
     mg_ReadHeaderTimeout := or_zero (mg_ReadHeaderTimeout m) defaultManagementReadHeaderTimeout;
     mg_WriteTimeout := or_zero (mg_WriteTimeout m) defaultManagementWriteTimeout;
     mg_IdleTimeout := or_zero (mg_IdleTimeout m) defaultManagementIdleTimeout;
     mg_ShutdownTimeout := or_zero (mg_ShutdownTimeout m) defaultManagementShutdownTimeout;
     mg_MaxHeaderBytes := or_zero (mg_MaxHeaderBytes m) defaultManagementMaxHeaderBytes;
     mg_Pprof := mg_Pprof m |}.
Definition normalize_rule (r : Rule) : Rule :=
  {| r_Via := r_Via r; r_Suffixes := trim_prefix "." <$> r_Suffixes r |}.
Definition normalize_proxy (p : Proxy) : Proxy :=
  let maxTTL := or_zero (px_DNSMaxPositiveTTL p) defaultDNSMaxPositiveTTL in
  {| px_HTTPSListen := px_HTTPSListen p; px_HTTPListen := px_HTTPListen p;
     px_Default := or_empty (px_Default p) "direct"; px_AllowedSourceCIDRs := px_AllowedSourceCIDRs p;
     px_MaxConnections := or_zero (px_MaxConnections p) defaultMaxConnections;
     px_MaxConnectionsPerSource := px_MaxConnectionsPerSource p;
     px_HandshakeTimeout := or_zero (px_HandshakeTimeout p) defaultHandshakeTimeout;
     px_DialTimeout := or_zero (px_DialTimeout p) 10; px_IdleTimeout := px_IdleTimeout p;
     px_ShutdownGrace := or_zero (px_ShutdownGrace p) defaultShutdownGrace;
     px_MaxClientHelloBytes := or_zero (px_MaxClientHelloBytes p) defaultMaxClientHelloBytes;
     px_MaxHTTPHeaderBytes := or_zero (px_MaxHTTPHeaderBytes p) defaultMaxHTTPHeaderBytes;
     px_DestinationPolicy := px_DestinationPolicy p; px_Resolver := orDefault (px_Resolver p);
     px_DNSCacheTTL := or_zero (px_DNSCacheTTL p) maxTTL;
     px_DNSPositiveCapacity := or_zero (px_DNSPositiveCapacity p) defaultDNSPositiveCapacity;
     px_DNSNegativeCapacity := or_zero (px_DNSNegativeCapacity p) defaultDNSNegativeCapacity;
     px_DNSMaxPending := or_zero (px_DNSMaxPending p) defaultDNSMaxPending;
     px_DNSMinPositiveTTL := or_zero (px_DNSMinPositiveTTL p) defaultDNSMinPositiveTTL;
     px_DNSMaxPositiveTTL := maxTTL;
     px_DNSNegativeTTL := or_zero (px_DNSNegativeTTL p) defaultDNSNegativeTTL;
     px_DNSTransientFailureTTL := or_zero (px_DNSTransientFailureTTL p) defaultDNSTransientTTL;
     px_DNSStaleWindow := or_zero (px_DNSStaleWindow p) defaultDNSStaleWindow;
     px_DNSStalePolicy := or_empty (px_DNSStalePolicy p) "transient";
     px_DNSResolverTimeout := or_zero (px_DNSResolverTimeout p) defaultDNSResolverTimeout;
     px_AddressFamilyStrategy := or_empty (px_AddressFamilyStrategy p) "interleave";
     px_ConnectAttemptCap := or_zero (px_ConnectAttemptCap p) defaultConnectAttemptCap;
     px_Rules := normalize_rule <$> px_Rules p |}.
Definition normalize (c : Config) : Config :=
  {| c_Tunnels := imap normalize_tunnel (c_Tunnels c); c_Groups := normalize_group <$> c_Groups c;
     c_Proxy := normalize_proxy (c_Proxy c); c_Gateway := c_Gateway c;
     c_RouteRefresh := or_zero (c_RouteRefresh c) 21600; c_HealthInterval := or_zero (c_HealthInterval c) 10;
     c_PfSync := c_PfSync c; c_Management := normalize_management (c_Management c);
     c_HealthProbe := normalize_probe (c_HealthProbe c) |}.

(** ** validate *)
Inductive config_error :=
| BadSetting (name : string)
| TunnelNameRequired (i : nat)
| BadTunnel (tunnel setting : string)
| DuplicateTunnel (tunnel : string)
| BadAllocations (e : allocation_error)
| RoutesOverlap (other route : string * Prefix)
| BadSource (source setting : string)
| GroupNameRequired (i : nat)
| BadGroup (group setting : string)
| BadResolvers (field : string) (setting : string)
| BadRuleVia (i : nat)
| BadSuffix (i j : nat) (e : option host_error).

(** The first condition that holds decides the error. *)
Fixpoint checks (l : list (bool * config_error)) : result config_error unit :=
  match l with
  | [] => Ok tt
  | (bad, e) :: l => if bad then Err e else checks l
  end.

Definition validSeconds (seconds : Z) : bool := (0 <=? seconds)%Z && (seconds <=? maxDurationSeconds)%Z.
Definition outside (lo hi v : Z) : bool := (v <? lo)%Z || (hi <? v)%Z.
Definition is_empty (s : string) : bool := bool_decide (s = "").

(** [validateHostPort]: [None] when the address is fine, else what is wrong. *)
Definition validateHostPort (addr : string) (emptyHostOK : bool) : option string :=
  match SplitHostPort addr with
  | None => Some "must be host:port"
  | Some (host, portText) =>
      if negb emptyHostOK && is_empty host then Some "requires a host"
      else match Atoi portText with
           | Some port => if outside 1 65535 port then Some "has an invalid port" else None
           | None => Some "has an invalid port"
           end
  end.
Definition bad_hostport (addr : string) (emptyHostOK : bool) : bool :=
  bool_decide (validateHostPort addr emptyHostOK ≠ None).

Definition split_host (addr : string) : string :=
  match SplitHostPort addr with Some (host, _) => host | None => "" end.
Definition validateListener (addr : string) : option string :=
  match validateHostPort addr true with
  | Some e => Some e
  | None =>
      let host := split_host addr in
      if is_empty host then None
      else if str_contains "%" host then Some "must not contain an IPv6 zone"
      else match ParseAddr host with
           | None => Some "listener host must be an IP literal or empty wildcard"
           | Some _ => None
           end
  end.
Definition listenerNeedsSourceACL (addr : string) : bool :=
  match SplitHostPort addr with
  | None => true
  | Some (host, _) =>
      if is_empty host then true
      else match ParseAddr host with Some ip => negb (IsLoopback (Unmap ip)) | None => true end
  end.

(** [interfaceNameRE] and [operationalNameRE]. *)
Definition name_char (c : ascii) : bool :=
  is_lower c || is_upper c || is_digit c || bool_decide (c ∈ ["_"; "."; "-"]%char).
Definition interfaceNameRE (s : string) : bool := negb (is_empty s) && str_forallb name_char s.
Definition operationalNameRE (s : string) : bool :=
  negb (is_empty s) && (String.length s <=? 64) && str_forallb name_char s.

Definition http_url (raw : string) : option URL :=
  match ParseRequestURI raw with
  | Some u => if bool_decide (Host u = "") || negb (bool_decide (Scheme u ∈ ["http"; "https"])) then None else Some u
  | None => None
  end.

Definition ipv4_cidr (s : string) : option Prefix :=
  match ParsePrefix s with Some p => if Is4 (p_ip p) then Some p else None | None => None end.
Definition bad_cidr (s : string) : bool := bool_decide (ParseCIDR s = None).
Definition bad_policy_prefix (s : string) : bool := negb (is_ok (parsePolicyPrefix s)).

(** The order of the timeouts, a map in the code, decides only which is named. *)
Definition validate_management (m : Management) : result config_error unit :=
  if mg_Disabled m then Ok tt
  else
    let bad_listen :=
      if has_prefix "unix:" (mg_Listen m) then
        let path := trim_prefix "unix:" (mg_Listen m) in
        negb (has_prefix "/" path) || (String.length path <? 2)
      else match SplitHostPort (mg_Listen m) with
           | None => true
           | Some (host, _) => match ParseIP host with Some ip => negb (IsLoopback ip) | None => true end
           end in
    let bad_timeout v := negb (validSeconds v) || (v =? 0)%Z in
    checks [(bad_listen, BadSetting "management.listen");
            (bad_timeout (mg_ReadHeaderTimeout m) || bad_timeout (mg_WriteTimeout m) ||
             bad_timeout (mg_IdleTimeout m) || bad_timeout (mg_ShutdownTimeout m),
             BadSetting "management timeout");
            (outside 1024 maxConfiguredProtocolBytes (mg_MaxHeaderBytes m),
             BadSetting "management.max_header_bytes")].

(** The locals of [validate] that its loop over the tunnels updates. *)
Record tunnels_seen := {
  seenName : gset string; seenMark : gset Z; seenTable : gset Z;
  allocations : list Allocation; gatewayRoutes : list (string * Prefix) }.
Definition nothing_seen : tunnels_seen :=
  {| seenName := ∅; seenMark := ∅; seenTable := ∅; allocations := []; gatewayRoutes := [] |}.

Definition validate_route (name : string) (st : gset string * list (string * Prefix)) (route : string) :
    result config_error (gset string * list (string * Prefix)) :=
  let '(seenRoute, owners) := st in
  match ipv4_cidr route with
  | None => Err (BadTunnel name "route")
  | Some prefix =>
      let canonical := prefix_String (Masked prefix) in
      if bool_decide (canonical ∈ seenRoute) then Err (BadTunnel name "duplicate route")
      else Ok (seenRoute ∪ {[ canonical ]}, owners ++ [(name, Masked prefix)])
  end.

Section validate.
Context `{UnicodeTables} (toASCII : string → option string) (ParseKey : string → bool).

Definition allocation_of (t : Tunnel) : Allocation :=
  {| al_Name := t_Name t; al_Mark := wrap32 (t_Fwmark t); al_Mask := t_FwmarkMask t;
     al_Table := t_Table t; al_Priority := t_RulePriority t |}.

Definition validate_tunnel (st : nat * tunnels_seen) (t : Tunnel) :
    result config_error (nat * tunnels_seen) :=
  let '(i, st) := st in
  let name := t_Name t in
  let bad setting := BadTunnel name setting in
  match checks [
    (is_empty name, TunnelNameRequired i);
    ((15 <? String.length name) || negb (interfaceNameRE name), bad "name");
    (bool_decide (name ∈ seenName st), DuplicateTunnel name);
    (is_empty (t_PrivateKey t), bad "private_key");
    (negb (ParseKey (t_PrivateKey t)), bad "private_key");
    (is_empty (t_Address t), bad "address");
    (bool_decide (ipv4_cidr (t_Address t) = None), bad "address");
    ((t_MTU t <? 0)%Z, bad "mtu");
    (outside 1 u32_max (t_Fwmark t), bad "fwmark");
    (bool_decide (t_Fwmark t ∈ seenMark st), bad "fwmark in use");
    (outside 1 (2 ^ 31 - 1) (t_Table t), bad "table");
    (bool_decide (t_Table t ∈ seenTable st), bad "table in use");
    (is_empty (pe_PublicKey (t_Peer t)), bad "peer.public_key");
    (negb (ParseKey (pe_PublicKey (t_Peer t))), bad "peer.public_key");
    (is_empty (pe_Endpoint (t_Peer t)), bad "peer.endpoint");
    (bad_hostport (pe_Endpoint (t_Peer t)) false, bad "peer.endpoint");
    (negb (validSeconds (pe_Keepalive (t_Peer t))), bad "peer.keepalive");
    (existsb bad_cidr (allowed_ips t), bad "allowed_ips")] with
  | Err e => Err e
  | Ok _ =>
      match foldM (validate_route name) (∅, gatewayRoutes st) (routes t) with
      | Err e => Err e
      | Ok (_, owners) =>
          Ok (S i, {| seenName := seenName st ∪ {[ name ]}; seenMark := seenMark st ∪ {[ t_Fwmark t ]};
                      seenTable := seenTable st ∪ {[ t_Table t ]};
                      allocations := allocations st ++ [allocation_of t]; gatewayRoutes := owners |})
      end
  end.

Definition validate_probe (names : gset string) (h : HealthProbe) : result config_error unit :=
  if negb (hp_Enabled h) then Ok tt
  else
    let credentials := match http_url (hp_Endpoint h) with Some u => has_User u | None => false end in
    checks [
      (bool_decide (http_url (hp_Endpoint h) = None), BadSetting "health_probe.endpoint");
      (credentials, BadSetting "health_probe.endpoint credentials");
      (negb (is_empty (hp_Via h)) && negb (bool_decide (hp_Via h ∈ names)), BadSetting "health_probe.via");
      ((hp_Interval h <? 5)%Z || negb (validSeconds (hp_Interval h)), BadSetting "health_probe.interval");
      ((hp_Timeout h <? 1)%Z || (hp_Interval h <=? hp_Timeout h)%Z, BadSetting "health_probe.timeout");
      (outside 0 100 (hp_JitterPercent h), BadSetting "health_probe.jitter_percent");
      (outside 1 8 (hp_MaxConcurrent h), BadSetting "health_probe.max_concurrent");
      (outside 1 10 (hp_FailAfter h), BadSetting "health_probe.fail_after");
      (outside 1 10 (hp_RecoverAfter h), BadSetting "health_probe.recover_after");
      (negb (validSeconds (hp_MaxAge h)) || (hp_MaxAge h <? to_int64 (hp_Interval h + hp_Timeout h))%Z,
       BadSetting "health_probe.max_age")].

(** Each gateway route against the ones before it. *)
Fixpoint validate_overlaps (before rest : list (string * Prefix)) : result config_error unit :=
  match rest with
  | [] => Ok tt
  | route :: rest =>
      match list_find (λ other, route.1 ≠ other.1 ∧ Overlaps route.2 other.2 = true) before with
      | Some (_, other) => Err (RoutesOverlap other route)
      | None => validate_overlaps (before ++ [route]) rest
      end
  end.

Definition validate_source (names : gset string) (tunnel : string) (seenSource : gset string) (s : RouteSource) :
    result config_error (gset string) :=
  let bad setting := BadSource (rs_Name s) setting in
  match checks [
    (is_empty (rs_Name s), BadTunnel tunnel "route source name");
    (negb (operationalNameRE (rs_Name s)), bad "name");
    (bool_decide (rs_Name s ∈ seenSource), bad "duplicate");
    (is_empty (rs_URL s), bad "url");
    (bool_decide (http_url (rs_URL s) = None), bad "url");
    (negb (bool_decide (rs_Format s ∈ ["cidr-lines"; "ripe-prefixes"])), bad "format");
    (negb (is_empty (rs_Via s)) && negb (bool_decide (rs_Via s = "direct")) &&
     negb (bool_decide (rs_Via s ∈ names)), bad "via")] with
  | Err e => Err e
  | Ok _ => Ok (seenSource ∪ {[ rs_Name s ]})
  end.
Definition validate_sources (names : gset string) (ts : list Tunnel) : result config_error (gset string) :=
  foldM (λ seen t, foldM (validate_source names (t_Name t)) seen (route_sources t)) ∅ ts.

Definition validate_gateway (g : Gateway) : result config_error unit :=
  checks [
    (existsb (λ c, bool_decide (ipv4_cidr c = None)) (gw_ClientCIDRs g), BadSetting "gateway.client_cidrs");
    (negb (is_empty (gw_ListListen g)) && bad_hostport (gw_ListListen g) true, BadSetting "gateway.list_listen")].

Definition validate_pfsync (names : gset string) (p : PfSync) : result config_error unit :=
  if negb (pf_Enabled p) then Ok tt
  else checks [
    (is_empty (pf_SSHHost p) || is_empty (pf_SSHUser p) || is_empty (pf_SSHKey p) || is_empty (pf_KnownHosts p),
     BadSetting "pfsync");
    (outside 0 65535 (pf_SSHPort p), BadSetting "pfsync.ssh_port");
    (negb (bool_decide (pf_FromTunnel p ∈ names)), BadSetting "pfsync.from_tunnel");
    (existsb bad_cidr (pf_KeepNetworks p), BadSetting "pfsync.keep_networks")].

Definition validate_member (names : gset string) (group : string) (seen : gset string) (m : string) :
    result config_error (gset string) :=
  if negb (bool_decide (m ∈ names)) then Err (BadGroup group "unknown member")
  else if bool_decide (m ∈ seen) then Err (BadGroup group "duplicate member")
  else Ok (seen ∪ {[ m ]}).
Definition validate_group (names : gset string) (st : nat * gset string) (g : Group) :
    result config_error (nat * gset string) :=
  let '(i, seenGroup) := st in
  let bad setting := BadGroup (g_Name g) setting in
  match checks [
    (is_empty (g_Name g), GroupNameRequired i);
    (negb (operationalNameRE (g_Name g)), bad "name");
    (bool_decide (g_Name g ∈ names), bad "name collides with a tunnel");
    (bool_decide (g_Name g ∈ seenGroup), bad "duplicate");
    (bool_decide (g_Members g = []), bad "members");
    (negb (validSeconds (g_HealthyAfter g)), bad "healthy_after")] with
  | Err e => Err e
  | Ok _ => match foldM (validate_member names (g_Name g)) ∅ (g_Members g) with
            | Err e => Err e
            | Ok _ => Ok (S i, seenGroup ∪ {[ g_Name g ]})
            end
  end.

Definition validate_proxy_limits (p : Proxy) : result config_error unit :=
  let seconds v := negb (validSeconds v) in
  let positive v := negb (validSeconds v) || (v =? 0)%Z in
  checks [
    (seconds (px_DialTimeout p), BadSetting "proxy.dial_timeout");
    (seconds (px_HandshakeTimeout p), BadSetting "proxy.handshake_timeout");
    (seconds (px_IdleTimeout p), BadSetting "proxy.idle_timeout");
    (seconds (px_ShutdownGrace p), BadSetting "proxy.shutdown_grace");
    (seconds (px_DNSCacheTTL p), BadSetting "proxy.dns_cache_ttl");
    (positive (px_DNSMinPositiveTTL p), BadSetting "proxy.dns_min_positive_ttl");
    (seconds (px_DNSMaxPositiveTTL p) || (px_DNSMaxPositiveTTL p <? px_DNSMinPositiveTTL p)%Z,
     BadSetting "proxy.dns_max_positive_ttl");
    (outside (px_DNSMinPositiveTTL p) (px_DNSMaxPositiveTTL p) (px_DNSCacheTTL p), BadSetting "proxy.dns_cache_ttl");
    (positive (px_DNSNegativeTTL p), BadSetting "proxy.dns_negative_ttl");
    (positive (px_DNSTransientFailureTTL p), BadSetting "proxy.dns_transient_failure_ttl");
    (seconds (px_DNSStaleWindow p), BadSetting "proxy.dns_stale_window");
    (positive (px_DNSResolverTimeout p), BadSetting "proxy.dns_resolver_timeout");
    (outside 1 maxDNSCapacity (px_DNSPositiveCapacity p), BadSetting "proxy.dns_positive_capacity");
    (outside 1 maxDNSCapacity (px_DNSNegativeCapacity p), BadSetting "proxy.dns_negative_capacity");
    (outside 1 maxDNSCapacity (px_DNSMaxPending p), BadSetting "proxy.dns_max_pending");
    (negb (bool_decide (px_DNSStalePolicy p ∈ ["transient"; "never"])), BadSetting "proxy.dns_stale_policy");
    (negb (bool_decide (px_AddressFamilyStrategy p ∈ ["interleave"; "ipv4_first"; "ipv6_first"])),
     BadSetting "proxy.address_family_strategy");
    (outside 1 maxConnectAttemptCap (px_ConnectAttemptCap p), BadSetting "proxy.connect_attempt_cap");
    (outside 1 maxConfiguredConnections (px_MaxConnections p), BadSetting "proxy.max_connections");
    (outside 0 (px_MaxConnections p) (px_MaxConnectionsPerSource p),
     BadSetting "proxy.max_connections_per_source");
    (outside 1 maxConfiguredProtocolBytes (px_MaxClientHelloBytes p), BadSetting "proxy.max_client_hello_bytes");
    (outside 1 maxConfiguredProtocolBytes (px_MaxHTTPHeaderBytes p), BadSetting "proxy.max_http_header_bytes")].

Definition validate_listeners (p : Proxy) : result config_error unit :=
  let open := bool_decide (px_AllowedSourceCIDRs p = []) in
  let listener addr field :=
    [(negb (is_empty addr) && bool_decide (validateListener addr ≠ None), BadSetting field);
     (negb (is_empty addr) && listenerNeedsSourceACL addr && open, BadSetting "proxy.allowed_source_cidrs")] in
  checks ((existsb bad_policy_prefix (px_AllowedSourceCIDRs p), BadSetting "proxy.allowed_source_cidrs") ::
          listener (px_HTTPSListen p) "proxy.https_listen" ++ listener (px_HTTPListen p) "proxy.http_listen").

Definition validate_resolver (field : string) (seen : gset string) (r : string) : result config_error (gset string) :=
  if bad_hostport r false then Err (BadResolvers field "host:port")
  else if bool_decide (r ∈ seen) then Err (BadResolvers field "listed twice")
  else Ok (seen ∪ {[ r ]}).
Definition validateResolvers (field : string) (resolvers : ResolverList) : result config_error unit :=
  if maxResolvers <? length resolvers then Err (BadResolvers field "too many")
  else match foldM (validate_resolver field) ∅ resolvers with Err e => Err e | Ok _ => Ok tt end.

Definition validate_destinations (names : gset string) (d : DestinationPolicy) : result config_error unit :=
  checks [
    (existsb bad_policy_prefix (dp_DirectAllowCIDRs d), BadSetting "direct_allow_cidrs");
    (existsb (λ nl, negb (bool_decide (nl.1 ∈ names)) || existsb bad_policy_prefix nl.2)
       (map_to_list (dp_TunnelAllowCIDRs d)), BadSetting "tunnel_allow_cidrs")].

(** The suffixes of a rule, replaced by their canonical form. *)
Fixpoint validate_suffixes (i j : nat) (l : list string) : result config_error (list string) :=
  match l with
  | [] => Ok []
  | suffix :: l =>
      match canonicalHost toASCII suffix false with
      | Err e => Err (BadSuffix i j (Some e))
      | Ok (_, true) => Err (BadSuffix i j None)
      | Ok (normalized, false) => cons normalized <$> validate_suffixes i (S j) l
      end
  end.
Fixpoint validate_rules (valid : string → bool) (i : nat) (l : list Rule) : result config_error (list Rule) :=
  match l with
  | [] => Ok []
  | r :: l =>
      if negb (valid (r_Via r)) then Err (BadRuleVia i)
      else match validate_suffixes i 0 (r_Suffixes r) with
           | Err e => Err e
           | Ok suffixes =>
               cons {| r_Via := r_Via r; r_Suffixes := suffixes |} <$> validate_rules valid (S i) l
           end
  end.
Definition valid_via (names groups : gset string) (via : string) : bool :=
  is_empty via || bool_decide (via = "direct") || bool_decide (via ∈ names) || bool_decide (via ∈ groups).

Definition with_rules (c : Config) (rules : list Rule) : Config :=
  let p := c_Proxy c in
  {| c_Tunnels := c_Tunnels c; c_Groups := c_Groups c;
     c_Proxy :=
       {| px_HTTPSListen := px_HTTPSListen p; px_HTTPListen := px_HTTPListen p; px_Default := px_Default p;
          px_AllowedSourceCIDRs := px_AllowedSourceCIDRs p; px_MaxConnections := px_MaxConnections p;
          px_MaxConnectionsPerSource := px_MaxConnectionsPerSource p;
          px_HandshakeTimeout := px_HandshakeTimeout p; px_DialTimeout := px_DialTimeout p;
          px_IdleTimeout := px_IdleTimeout p; px_ShutdownGrace := px_ShutdownGrace p;
          px_MaxClientHelloBytes := px_MaxClientHelloBytes p; px_MaxHTTPHeaderBytes := px_MaxHTTPHeaderBytes p;
          px_DestinationPolicy := px_DestinationPolicy p; px_Resolver := px_Resolver p;
          px_DNSCacheTTL := px_DNSCacheTTL p; px_DNSPositiveCapacity := px_DNSPositiveCapacity p;
          px_DNSNegativeCapacity := px_DNSNegativeCapacity p; px_DNSMaxPending := px_DNSMaxPending p;
          px_DNSMinPositiveTTL := px_DNSMinPositiveTTL p; px_DNSMaxPositiveTTL := px_DNSMaxPositiveTTL p;
          px_DNSNegativeTTL := px_DNSNegativeTTL p; px_DNSTransientFailureTTL := px_DNSTransientFailureTTL p;
          px_DNSStaleWindow := px_DNSStaleWindow p; px_DNSStalePolicy := px_DNSStalePolicy p;
          px_DNSResolverTimeout := px_DNSResolverTimeout p;
          px_AddressFamilyStrategy := px_AddressFamilyStrategy p;
          px_ConnectAttemptCap := px_ConnectAttemptCap p; px_Rules := rules |};
     c_Gateway := c_Gateway c; c_RouteRefresh := c_RouteRefresh c; c_HealthInterval := c_HealthInterval c;
     c_PfSync := c_PfSync c; c_Management := c_Management c; c_HealthProbe := c_HealthProbe c |}.

Definition validate_tunnel_resolvers (ts : list Tunnel) : result config_error unit :=
  foldM (λ _ t, validateResolvers ("tunnels[" +:+ t_Name t +:+ "].resolver") (t_Resolver t)) tt ts.

(** [validate]: an error, or the configuration with its suffixes made canonical. *)
Definition validate (c : Config) : result config_error Config :=
  _ ← checks [(negb (validSeconds (c_RouteRefresh c)), BadSetting "route_refresh");
              (negb (validSeconds (c_HealthInterval c)), BadSetting "health_interval")];
  _ ← validate_management (c_Management c);
  seen ← foldM validate_tunnel (0, nothing_seen) (c_Tunnels c);
  let names := seenName seen.2 in
  _ ← validate_probe names (c_HealthProbe c);
  _ ← match ValidateAllocations (allocations seen.2) with Ok _ => Ok tt | Err e => Err (BadAllocations e) end;
  _ ← if gw_Enabled (c_Gateway c) then validate_overlaps [] (gatewayRoutes seen.2) else Ok tt;
  _ ← validate_sources names (c_Tunnels c);
  _ ← validate_gateway (c_Gateway c);
  _ ← validate_pfsync names (c_PfSync c);
  groups ← foldM (validate_group names) (0, ∅) (c_Groups c);
  _ ← validate_proxy_limits (c_Proxy c);
  _ ← validate_listeners (c_Proxy c);
  _ ← validateResolvers "proxy.resolver" (px_Resolver (c_Proxy c));
  _ ← validate_tunnel_resolvers (c_Tunnels c);
  _ ← validate_destinations names (px_DestinationPolicy (c_Proxy c));
  let valid := valid_via names groups.2 in
  _ ← checks [(negb (valid (px_Default (c_Proxy c))), BadSetting "proxy.default")];
  rules ← validate_rules valid 0 (px_Rules (c_Proxy c));
  Ok (with_rules c rules).

(** [parseConfig] over the YAML decoder: the configuration of the first document
    and whether another document follows it. *)
Inductive parse_error := TooLong | BadYAML | MultipleDocuments | BadTrailing | BadConfig (e : config_error).
Inductive trailing := AtEOF | AnotherDocument | TrailingError.

Definition parseConfig (decode : string → option (Config * trailing)) (raw : string) : result parse_error Config :=
  if (maxConfigBytes <? Z.of_nat (String.length raw))%Z then Err TooLong
  else match decode raw with
       | None => Err BadYAML
       | Some (_, AnotherDocument) => Err MultipleDocuments
       | Some (_, TrailingError) => Err BadTrailing
       | Some (c, AtEOF) => match validate (normalize c) with
                            | Ok c => Ok c
                            | Err e => Err (BadConfig e)
                            end
       end.
End validate.

(** [readBounded] on a reader that yields these bytes. *)
Definition readBounded (content : string) (limit : nat) : option string :=
  let b := str_take (limit + 1) content in if limit <? String.length b then None else Some b.

(** ** Lookups *)
Definition without_resolver (t : Tunnel) : Tunnel :=
  {| t_Name := t_Name t; t_PrivateKey := t_PrivateKey t; t_Address := t_Address t; t_MTU := t_MTU t;
     t_Fwmark := t_Fwmark t; t_FwmarkMask := t_FwmarkMask t; t_Table := t_Table t;
     t_RulePriority := t_RulePriority t; t_AdoptExisting := t_AdoptExisting t; t_Routes := t_Routes t;
     t_RouteSources := t_RouteSources t; t_Peer := t_Peer t; t_Resolver := [] |}.
Definition sameTunnelSpec (a b : Tunnel) : bool := bool_decide (without_resolver a = without_resolver b).

Definition tunnels_by_name (c : Config) : gmap string Tunnel :=
  foldl (λ (m : gmap string Tunnel) t, <[t_Name t := t]> m) ∅ (c_Tunnels c).
Definition unchangedTunnels (old next : Config) : list string :=
  let previous := tunnels_by_name old in
  t_Name <$> List.filter (λ t, match previous !! t_Name t with
                               | Some prev => sameTunnelSpec prev t
                               | None => false
                               end) (c_Tunnels next).

Definition resolversFor (c : Config) (mark : Z) : ResolverList :=
  match list_find (λ t, t_Fwmark t = mark ∧ t_Resolver t ≠ []) (c_Tunnels c) with
  | Some (_, t) => t_Resolver t
  | None => orDefault (px_Resolver (c_Proxy c))
  end.

Definition markFor (c : Config) (via : string) : Z :=
  if bool_decide (via = "direct") || is_empty via then 0
  else match list_find (λ t, t_Name t = via) (c_Tunnels c) with
       | Some (_, t) => t_Fwmark t
       | None => 0
       end.

(** ** proxy_policy.go: the policies of a configuration *)
Definition newDestinationPolicy (c : Config) : destinationPolicy :=
  let d := px_DestinationPolicy (c_Proxy c) in
  {| allowByMark :=
       foldl (λ (m : gmap Z (list Prefix)) t,
                <[t_Fwmark t := mustPolicyPrefixes (default [] (dp_TunnelAllowCIDRs d !! t_Name t))]> m)
             {[ 0%Z := mustPolicyPrefixes (dp_DirectAllowCIDRs d) ]} (c_Tunnels c) |}.

Definition compileSourceACL (c : Config) : list Prefix :=
  match px_AllowedSourceCIDRs (c_Proxy c) with
  | [] => [must_prefix "127.0.0.0/8"; must_prefix "::1/128"]
  | l => mustPolicyPrefixes l
  end.

(** ** normalize is idempotent *)
Lemma or_zero_idem v d : or_zero (or_zero v d) d = or_zero v d.
Proof. unfold or_zero. destruct (v =? 0)%Z eqn:E; [by destruct (d =? 0)%Z|by rewrite E]. Qed.
Lemma or_empty_idem v d : or_empty (or_empty v d) d = or_empty v d.
Proof.
  unfold or_empty. destruct (bool_decide (v = "")) eqn:E; [by destruct (bool_decide (d = ""))|by rewrite E].
Qed.
Lemma orDefault_idem l : orDefault (orDefault l) = orDefault l.
Proof. by destruct l. Qed.
#[local] Hint Rewrite or_zero_idem or_empty_idem orDefault_idem : wg.

Lemma normalize_source_idem s : normalize_source (normalize_source s) = normalize_source s.
Proof. unfold normalize_source. cbn. by autorewrite with wg. Qed.
Lemma normalize_tunnel_idem i t : normalize_tunnel i (normalize_tunnel i t) = normalize_tunnel i t.
Proof.
  unfold normalize_tunnel at 1. cbn -[or_zero]. autorewrite with wg. unfold normalize_tunnel, allowed_ips. f_equal.
  - destruct (t_RouteSources t) as [l|]; [|done]. f_equal. rewrite <-list_fmap_compose.
    apply list_fmap_ext. intros i' s _. apply normalize_source_idem.
  - cbn -[or_zero]. f_equal. destruct (pe_AllowedIPs (t_Peer t)) as [[|]|]; done.
Qed.
Lemma normalize_with_rules c rules :
  normalize (with_rules (normalize c) rules) = with_rules (normalize c) (normalize_rule <$> rules).
Proof.
  unfold normalize, with_rules, normalize_proxy, normalize_management, normalize_probe. cbn -[or_zero to_int64].
  autorewrite with wg. f_equal.
  - apply list_eq. intros i. rewrite !list_lookup_imap. destruct (c_Tunnels c !! i); [|done].
    cbn [fmap option_fmap option_map]. by rewrite normalize_tunnel_idem.
  - rewrite <-list_fmap_compose. apply list_fmap_ext. intros i g _. unfold normalize_group. cbn -[or_zero].
    by autorewrite with wg.
Qed.

Lemma result_bind_ok {E A B} (m : result E A) (f : A → result E B) y :
  (m ≫= f) = Ok y ↔ ∃ x, m = Ok x ∧ f x = Ok y.
Proof. destruct m; cbn; naive_solver. Qed.

Lemma checks_cons b e l : checks ((b, e) :: l) = Ok tt ↔ b = false ∧ checks l = Ok tt.
Proof. destruct b; naive_solver. Qed.

Section facts.
Context `{UnicodeTables} (toASCII : string → option string) (ParseKey : string → bool).

(** Every part of [validate] that succeeded. *)
Record validated (c : Config) (seen : nat * tunnels_seen) (groups : nat * gset string) (rules : list Rule) := {
  v_seconds : validSeconds (c_RouteRefresh c) = true ∧ validSeconds (c_HealthInterval c) = true;
  v_management : validate_management (c_Management c) = Ok tt;
  v_tunnels : foldM (validate_tunnel ParseKey) (0, nothing_seen) (c_Tunnels c) = Ok seen;
  v_probe : validate_probe (seenName seen.2) (c_HealthProbe c) = Ok tt;
  v_allocations : ValidateAllocations (allocations seen.2) = Ok tt;
  v_overlaps : gw_Enabled (c_Gateway c) = true → validate_overlaps [] (gatewayRoutes seen.2) = Ok tt;
  v_gateway : validate_gateway (c_Gateway c) = Ok tt;
  v_groups : foldM (validate_group (seenName seen.2)) (0, ∅) (c_Groups c) = Ok groups;
  v_limits : validate_proxy_limits (c_Proxy c) = Ok tt;
  v_listeners : validate_listeners (c_Proxy c) = Ok tt;
  v_destinations : validate_destinations (seenName seen.2) (px_DestinationPolicy (c_Proxy c)) = Ok tt;
  v_default : valid_via (seenName seen.2) groups.2 (px_Default (c_Proxy c)) = true;
  v_rules : validate_rules toASCII (valid_via (seenName seen.2) groups.2) 0 (px_Rules (c_Proxy c)) = Ok rules }.

Lemma validate_inv c c' :
  validate toASCII ParseKey c = Ok c' →
  ∃ seen groups rules, c' = with_rules c rules ∧ validated c seen groups rules ∧
    (validate_rules toASCII (valid_via (seenName seen.2) groups.2) 0 rules = Ok rules →
     validate toASCII ParseKey c' = Ok c').
Proof.
  unfold validate. intros Hv.
  apply result_bind_ok in Hv as ([]&H1&Hv). apply result_bind_ok in Hv as ([]&H2&Hv).
  apply result_bind_ok in Hv as (seen&H3&Hv). apply result_bind_ok in Hv as ([]&H4&Hv).
  apply result_bind_ok in Hv as ([]&H5&Hv). apply result_bind_ok in Hv as ([]&H6&Hv).
  apply result_bind_ok in Hv as (srcs&H7&Hv). apply result_bind_ok in Hv as ([]&H8&Hv).
  apply result_bind_ok in Hv as ([]&H9&Hv). apply result_bind_ok in Hv as (groups&H10&Hv).
  apply result_bind_ok in Hv as ([]&H11&Hv). apply result_bind_ok in Hv as ([]&H12&Hv).
  apply result_bind_ok in Hv as ([]&H13&Hv). apply result_bind_ok in Hv as ([]&H14&Hv).
  apply result_bind_ok in Hv as ([]&H15&Hv). apply result_bind_ok in Hv as ([]&H16&Hv).
  apply result_bind_ok in Hv as (rules&H17&Hv). injection Hv as <-.
  exists seen, groups, rules. split; [done|]. split.
  - apply checks_cons in H1 as [Ha [Hb _]%checks_cons]. apply checks_cons in H16 as [Hd _].
    apply negb_false_iff in Ha, Hb, Hd.
    split; [done|exact H2|exact H3|exact H4| | |exact H8|exact H10|exact H11|exact H12|exact H15
      |exact Hd|exact H17].
    + by destruct (ValidateAllocations _) as [[]|].
    + intros Hg. by rewrite Hg in H6.
  - intros Hr. cbn [c_RouteRefresh c_HealthInterval c_Management c_Tunnels c_HealthProbe c_Gateway
      c_PfSync c_Groups c_Proxy with_rules px_Resolver px_DestinationPolicy px_Default px_Rules].
    change (validate_proxy_limits _) with (validate_proxy_limits (c_Proxy c)).
    change (validate_listeners _) with (validate_listeners (c_Proxy c)).
    rewrite H1; cbn [mbind result_bind]. rewrite H2; cbn [mbind result_bind].
    rewrite H3; cbn [mbind result_bind]. rewrite H4; cbn [mbind result_bind].
    rewrite H5; cbn [mbind result_bind]. rewrite H6; cbn [mbind result_bind].
    rewrite H7; cbn [mbind result_bind]. rewrite H8; cbn [mbind result_bind].
    rewrite H9; cbn [mbind result_bind]. rewrite H10; cbn [mbind result_bind].
    rewrite H11; cbn [mbind result_bind]. rewrite H12; cbn [mbind result_bind].
    rewrite H13; cbn [mbind result_bind]. rewrite H14; cbn [mbind result_bind].
    rewrite H15; cbn [mbind result_bind]. rewrite H16; cbn [mbind result_bind].
    by rewrite Hr.
Qed.

Definition canonical_suffix (s : string) : Prop := hostname s ∧ toASCII s = Some s.

Lemma validate_suffixes_canonical i j l l' :
  validate_suffixes toASCII i j l = Ok l' → Forall canonical_suffix l'.
Proof.
  revert j l'. induction l as [|s l IH]; intros j l'; cbn [validate_suffixes]; [by intros [= <-]|].
  destruct (canonicalHost toASCII s false) as [[h []]|] eqn:Hc; [done| |done].
  destruct (validate_suffixes toASCII i (S j) l) as [l1|] eqn:Hl; [|done]. intros [= <-].
  constructor; [|by eapply IH]. by eapply canonicalHost_name.
Qed.
Lemma validate_suffixes_id i j l :
  Forall canonical_suffix l → validate_suffixes toASCII i j l = Ok l ∧ trim_prefix "." <$> l = l.
Proof.
  intros Hl. revert j. induction Hl as [|s l [Hs Ha] Hl IH]; intros j; [done|].
  cbn [validate_suffixes]. rewrite (canonicalHost_hostname toASCII s false Hs Ha).
  destruct (IH (S j)) as [-> IH2]. split; [done|]. cbn [fmap list_fmap]. f_equal; [|exact IH2].
  unfold trim_prefix. destruct (has_prefix "." s) eqn:Hp; [exfalso|done].
  apply has_prefix_first in Hp. destruct Hs as (_&Hf&_). destruct s as [|c s]; [done|].
  injection Hp as ->. cbn [str_split] in Hf. rewrite decide_True in Hf by done.
  apply Forall_cons in Hf as [[[? _] _] _]. simpl in *. lia.
Qed.

Lemma validate_rules_spec valid i l l' :
  validate_rules toASCII valid i l = Ok l' →
  Forall (λ r, valid (r_Via r) = true ∧ Forall canonical_suffix (r_Suffixes r)) l' ∧
  r_Via <$> l' = r_Via <$> l.
Proof.
  revert i l'. induction l as [|r l IH]; intros i l'; cbn [validate_rules]; [by intros [= <-]|].
  destruct (valid (r_Via r)) eqn:Hv; cbn [negb]; [|done].
  destruct (validate_suffixes _ _ _ _) as [ss|] eqn:Hs; [|done].
  destruct (validate_rules toASCII valid (S i) l) as [l1|] eqn:Hl; [|done]. intros [= <-].
  destruct (IH _ _ Hl) as [IH1 IH2]. split; [|cbn; by f_equal].
  constructor; [|done]. split; [done|]. by eapply validate_suffixes_canonical.
Qed.
Lemma validate_rules_id valid i l :
  Forall (λ r, valid (r_Via r) = true ∧ Forall canonical_suffix (r_Suffixes r)) l →
  validate_rules toASCII valid i l = Ok l ∧ normalize_rule <$> l = l.
Proof.
  intros Hl. revert i. induction Hl as [|r l [Hv Hs] Hl IH]; intros i; [done|]. cbn [validate_rules].
  rewrite Hv. cbn [negb]. destruct (validate_suffixes_id i 0 (r_Suffixes r) Hs) as [-> Ht].
  destruct (IH (S i)) as [-> IH2]. split; [by destruct r|]. cbn [fmap list_fmap]. f_equal; [|exact IH2].
  unfold normalize_rule. rewrite Ht. by destruct r.
Qed.

Lemma parseConfig_inv decode raw c :
  parseConfig toASCII ParseKey decode raw = Ok c →
  ∃ c0, validate toASCII ParseKey (normalize c0) = Ok c.
Proof.
  unfold parseConfig. destruct (_ <? _)%Z; [done|]. destruct (decode raw) as [[c0 []]|]; try done.
  destruct (validate _ _ _) eqn:Hv; [|done]. intros [= <-]. by exists c0.
Qed.

(** What holds of every tunnel, whatever the others are. *)
Record tunnel_ok (t : Tunnel) : Prop := {
  ok_name : interfaceNameRE (t_Name t) = true ∧ String.length (t_Name t) ≤ 15;
  ok_address : ipv4_cidr (t_Address t) ≠ None;
  ok_fwmark : (1 ≤ t_Fwmark t ≤ u32_max)%Z;
  ok_table : (1 ≤ t_Table t ≤ 2 ^ 31 - 1)%Z;
  ok_routes : Forall (λ r, ipv4_cidr r ≠ None) (routes t) }.

Definition owned_routes (t : Tunnel) : list (string * Prefix) :=
  (λ p, (t_Name t, Masked p)) <$> omap ipv4_cidr (routes t).

Record tunnels_inv (ts : list Tunnel) (st : nat * tunnels_seen) : Prop := {
  inv_names : ∀ n, n ∈ seenName st.2 ↔ n ∈ t_Name <$> ts;
  inv_nodup : NoDup (t_Name <$> ts);
  inv_marks : ∀ m, m ∈ seenMark st.2 ↔ m ∈ t_Fwmark <$> ts;
  inv_marks_nodup : NoDup (t_Fwmark <$> ts);
  inv_allocations : allocations st.2 = allocation_of <$> ts;
  inv_routes : gatewayRoutes st.2 = ts ≫= owned_routes;
  inv_ok : Forall tunnel_ok ts }.

Lemma validate_routes_inv name rs st st' :
  foldM (validate_route name) st rs = Ok st' →
  Forall (λ r, ipv4_cidr r ≠ None) rs ∧ st'.2 = st.2 ++ ((λ p, (name, Masked p)) <$> omap ipv4_cidr rs).
Proof.
  revert st. induction rs as [|r rs IH]; intros [seen owners]; cbn [foldM].
  { intros [= <-]. by rewrite app_nil_r. }
  unfold validate_route at 1. destruct (ipv4_cidr r) as [p|] eqn:Hp; [|done].
  case_bool_decide; [done|]. intros Hf. destruct (IH _ Hf) as [Hall ->]. split.
  - constructor; [|done]. by rewrite Hp.
  - cbn. rewrite Hp. cbn. by rewrite <-app_assoc.
Qed.

Lemma NoDup_snoc {A} (l : list A) x : NoDup l → (x ∉ l) → NoDup (l ++ [x]).
Proof.
  intros Hl Hx. apply NoDup_app. split_and!; [done| |apply NoDup_singleton].
  by intros y Hy ->%list_elem_of_singleton.
Qed.

Lemma validate_tunnels_inv ts st :
  foldM (validate_tunnel ParseKey) (0, nothing_seen) ts = Ok st → tunnels_inv ts st.
Proof.
  apply (foldM_inv _ tunnels_inv).
  { split; cbn; [|by apply NoDup_nil| |by apply NoDup_nil|done|done|done];
      intros; by rewrite elem_of_empty, elem_of_nil. }
  clear. intros done t [i st] st' [H1 H2 H3 H4 H5 H6 H7]. unfold validate_tunnel.
  destruct (checks _) as [[]|] eqn:Hc; [|done].
  destruct (foldM (validate_route _) _ _) as [[seenR owners]|] eqn:Hr; [|done]. intros [= <-].
  apply validate_routes_inv in Hr as [Hr Ho]. cbn in Ho, H1, H3, H5, H6.
  apply checks_cons in Hc as [_ Hc]. apply checks_cons in Hc as [Hn Hc].
  apply checks_cons in Hc as [Hdn Hc]. do 3 apply checks_cons in Hc as [_ Hc].
  apply checks_cons in Hc as [Ha Hc]. apply checks_cons in Hc as [_ Hc].
  apply checks_cons in Hc as [Hm Hc]. apply checks_cons in Hc as [Hdm Hc].
  apply checks_cons in Hc as [Ht Hc]. clear Hc.
  apply bool_decide_eq_false in Hdn, Ha, Hdm. apply orb_false_iff in Hn as [Hlen Hn].
  apply Nat.ltb_ge in Hlen. apply negb_false_iff in Hn.
  unfold outside in Hm, Ht. apply orb_false_iff in Hm as [?%Z.ltb_ge ?%Z.ltb_ge], Ht as [?%Z.ltb_ge ?%Z.ltb_ge].
  rewrite H1 in Hdn. rewrite H3 in Hdm. split; cbn; rewrite ?fmap_app; cbn [fmap list_fmap].
  - intros n. by rewrite elem_of_union, elem_of_singleton, elem_of_app, list_elem_of_singleton, H1.
  - by apply NoDup_snoc.
  - intros m. by rewrite elem_of_union, elem_of_singleton, elem_of_app, list_elem_of_singleton, H3.
  - by apply NoDup_snoc.
  - by rewrite H5.
  - rewrite Ho, H6, bind_app. cbn. by rewrite app_nil_r.
  - apply Forall_app. split; [done|]. by apply Forall_singleton; split.
Qed.

Lemma parseConfig_fix decode raw c :
  parseConfig toASCII ParseKey decode raw = Ok c →
  normalize c = c ∧ validate toASCII ParseKey c = Ok c.
Proof.
  intros (c0&Hv)%parseConfig_inv. apply validate_inv in Hv as (seen&groups&rules&->&Hval&Hfix).
  apply v_rules in Hval. apply validate_rules_spec in Hval as [Hr _].
  destruct (validate_rules_id _ 0 _ Hr) as [Hid Hn]. split; [|by apply Hfix].
  by rewrite normalize_with_rules, Hn.
Qed.

(** What the rest of the daemon relies on. *)
Lemma parseConfig_validated decode raw c :
  parseConfig toASCII ParseKey decode raw = Ok c →
  normalize c = c ∧ ∃ seen groups,
    validated c seen groups (px_Rules (c_Proxy c)) ∧ tunnels_inv (c_Tunnels c) seen.
Proof.
  intros [Hn Hv]%parseConfig_fix. split; [done|].
  apply validate_inv in Hv as (seen&groups&rules&Hc&Hval&_). exists seen, groups.
  assert (px_Rules (c_Proxy c) = rules) as -> by (by rewrite Hc).
  split; [done|]. by apply validate_tunnels_inv, (v_tunnels _ _ _ _ Hval).
Qed.

Definition group_ok (names : gset string) (g : Group) : Prop :=
  g_Name g ≠ "" ∧ g_Members g ≠ [] ∧ (0 ≤ g_HealthyAfter g ≤ maxDurationSeconds)%Z ∧
  Forall (λ m, m ∈ names) (g_Members g) ∧ NoDup (g_Members g).

Lemma validate_members_inv names group ms seen :
  foldM (validate_member names group) ∅ ms = Ok seen → Forall (λ m, m ∈ names) ms ∧ NoDup ms.
Proof.
  intros Hf. assert ((∀ m, m ∈ seen ↔ m ∈ ms) ∧ Forall (λ m, m ∈ names) ms ∧ NoDup ms) as (_&?&?); [|done].
  revert Hf. apply (foldM_inv _ (λ ms (seen : gset string),
    (∀ m, m ∈ seen ↔ m ∈ ms) ∧ Forall (λ m, m ∈ names) ms ∧ NoDup ms)).
  { split_and!; [|done|by apply NoDup_nil]. intros m. by rewrite elem_of_empty, elem_of_nil. }
  intros done m st st' (H1&H2&H3). unfold validate_member.
  case_bool_decide as Hm; cbn [negb]; [|done]. case_bool_decide as Hd; [done|]. intros [= <-].
  rewrite H1 in Hd. split_and!.
  - intros x. by rewrite elem_of_union, elem_of_singleton, elem_of_app, list_elem_of_singleton, H1.
  - apply Forall_app. split; [done|]. by apply Forall_singleton.
  - by apply NoDup_snoc.
Qed.

Lemma validSeconds_bound v : validSeconds v = true ↔ (0 ≤ v ≤ maxDurationSeconds)%Z.
Proof. unfold validSeconds. rewrite andb_true_iff, !Z.leb_le. done. Qed.

Lemma validate_groups_inv names gs st :
  foldM (validate_group names) (0, ∅) gs = Ok st →
  (∀ n, n ∈ st.2 ↔ n ∈ g_Name <$> gs) ∧ Forall (group_ok names) gs.
Proof.
  apply (foldM_inv _ (λ gs (st : nat * gset string),
    (∀ n, n ∈ st.2 ↔ n ∈ g_Name <$> gs) ∧ Forall (group_ok names) gs)).
  { split; [|done]. intros n. cbn. by rewrite elem_of_empty, elem_of_nil. }
  clear. intros done g [i seen] st' [H1 H2]. unfold validate_group.
  destruct (checks _) as [[]|] eqn:Hc; [|done].
  destruct (foldM (validate_member _ _) _ _) as [ms|] eqn:Hm; [|done]. intros [= <-].
  apply validate_members_inv in Hm as [Hm1 Hm2].
  apply checks_cons in Hc as [Hn Hc]. do 3 apply checks_cons in Hc as [_ Hc].
  apply checks_cons in Hc as [Hne Hc]. apply checks_cons in Hc as [Hs _].
  apply negb_false_iff, validSeconds_bound in Hs. unfold is_empty in Hn.
  apply bool_decide_eq_false in Hn, Hne. cbn [snd] in *. split.
  - intros n. rewrite fmap_app, elem_of_union, elem_of_singleton, elem_of_app. cbn [fmap list_fmap].
    by rewrite list_elem_of_singleton, H1.
  - apply Forall_app. split; [done|]. by apply Forall_singleton.
Qed.

Lemma markFor_tunnel c t :
  NoDup (t_Name <$> c_Tunnels c) → t ∈ c_Tunnels c → t_Name t ≠ "" → t_Name t ≠ "direct" →
  markFor c (t_Name t) = t_Fwmark t.
Proof.
  intros Hnd Ht Hne Hd. unfold markFor, is_empty. rewrite !bool_decide_eq_false_2 by done. cbn [orb].
  destruct (list_find _ _) as [[i t']|] eqn:Hf.
  - apply list_find_Some in Hf as (Hi&He&_). apply list_elem_of_lookup_1 in Ht as [j Hj].
    assert (i = j) as ->; [|congruence].
    eapply (NoDup_lookup _ _ _ (t_Name t) Hnd); rewrite list_lookup_fmap; [by rewrite Hi; cbn; rewrite He|by rewrite Hj].
  - apply list_find_None in Hf. rewrite Forall_forall in Hf. by apply Hf in Ht.
Qed.

Lemma interfaceNameRE_nonempty s : interfaceNameRE s = true → s ≠ "".
Proof. unfold interfaceNameRE. by intros [? _]%andb_true_iff ->. Qed.

(** C33: a configuration that loads is in normal form: the defaults are filled in,
    marks and names are unique, every rule suffix is a canonical hostname, every
    egress that a rule, the default or a group names exists, and the name of every
    tunnel that is not called [direct] leads to its own nonzero mark; applying the
    defaults or the validation again changes nothing.  A tunnel called [direct] loads
    as well, but its name leads to no mark: [tunnel_named_direct]. *)
Theorem parseConfig_normal decode raw c :
  parseConfig toASCII ParseKey decode raw = Ok c →
  normalize c = c ∧ validate toASCII ParseKey c = Ok c ∧
  NoDup (t_Name <$> c_Tunnels c) ∧ NoDup (t_Fwmark <$> c_Tunnels c) ∧
  (∀ t, t ∈ c_Tunnels c → t_Name t ≠ "direct" → markFor c (t_Name t) = t_Fwmark t ∧ t_Fwmark t ≠ 0%Z) ∧
  (∀ g m, g ∈ c_Groups c → m ∈ g_Members g → m ∈ t_Name <$> c_Tunnels c) ∧
  (∀ via, via ∈ px_Default (c_Proxy c) :: (r_Via <$> px_Rules (c_Proxy c)) →
     via ∈ [""; "direct"] ++ (t_Name <$> c_Tunnels c) ++ (g_Name <$> c_Groups c)) ∧
  (∀ r s, r ∈ px_Rules (c_Proxy c) → s ∈ r_Suffixes r → hostname s).
Proof.
  intros Hp. pose proof (parseConfig_fix decode raw c Hp) as [Hn Hv].
  destruct (parseConfig_validated decode raw c Hp) as (_&seen&groups&Hval&Hinv).
  destruct Hinv as [Hnames Hnd _ Hndm _ _ Hok]. rewrite Forall_forall in Hok.
  destruct (validate_groups_inv _ _ _ (v_groups _ _ _ _ Hval)) as [Hgn Hgo].
  destruct (validate_rules_spec _ _ _ _ (v_rules _ _ _ _ Hval)) as [Hr _].
  rewrite Forall_forall in Hr. rewrite Forall_forall in Hgo.
  assert (∀ via, valid_via (seenName seen.2) groups.2 via = true →
    via ∈ [""; "direct"] ++ (t_Name <$> c_Tunnels c) ++ (g_Name <$> c_Groups c)) as Hvia.
  { intros via. unfold valid_via, is_empty. rewrite !orb_true_iff, !bool_decide_eq_true, Hnames, Hgn.
    rewrite !elem_of_app, !elem_of_cons, elem_of_nil. tauto. }
  split_and!; [done..| | | |].
  - intros t Ht Hd. destruct (Hok t Ht) as [[Hname _] _ Hm _ _]. split; [|lia].
    apply markFor_tunnel; [done..|by apply interfaceNameRE_nonempty|done].
  - intros g m Hg Hm. destruct (Hgo g Hg) as (_&_&_&Hms&_). rewrite Forall_forall in Hms.
    by apply Hnames, Hms.
  - intros via [->|(r&->&Hin)%list_elem_of_fmap]%elem_of_cons; apply Hvia;
      [apply (v_default _ _ _ _ Hval)|by apply Hr].
  - intros r s Hin Hs. destruct (Hr r Hin) as [_ Hss]. rewrite Forall_forall in Hss. by apply Hss.
Qed.
End facts.

(** ** A configuration: two tunnels, a failover group and one rule *)
#[local] Instance demo_tables : UnicodeTables := {| unicode_to_lower := λ s, s |}.
Definition demo_tunnel (name address : string) (mark : Z) (cidr : string) : Tunnel :=
  {| t_Name := name; t_PrivateKey := "key"; t_Address := address; t_MTU := 0; t_Fwmark := mark;
     t_FwmarkMask := 0; t_Table := 0; t_RulePriority := 0; t_AdoptExisting := false;
     t_Routes := Some [cidr]; t_RouteSources := None;
     t_Peer := {| pe_PublicKey := "key"; pe_Endpoint := "vpn.example:51820"; pe_AllowedIPs := None;
                  pe_Keepalive := 25 |};
     t_Resolver := [] |}.
Definition demo_proxy : Proxy :=
  {| px_HTTPSListen := "127.0.0.1:443"; px_HTTPListen := ""; px_Default := ""; px_AllowedSourceCIDRs := [];
     px_MaxConnections := 0; px_MaxConnectionsPerSource := 0; px_HandshakeTimeout := 0; px_DialTimeout := 0;
     px_IdleTimeout := 0; px_ShutdownGrace := 0; px_MaxClientHelloBytes := 0; px_MaxHTTPHeaderBytes := 0;
     px_DestinationPolicy := {| dp_DirectAllowCIDRs := []; dp_TunnelAllowCIDRs := ∅ |}; px_Resolver := [];
     px_DNSCacheTTL := 0; px_DNSPositiveCapacity := 0; px_DNSNegativeCapacity := 0; px_DNSMaxPending := 0;
     px_DNSMinPositiveTTL := 0; px_DNSMaxPositiveTTL := 0; px_DNSNegativeTTL := 0;
     px_DNSTransientFailureTTL := 0; px_DNSStaleWindow := 0; px_DNSStalePolicy := ""; px_DNSResolverTimeout := 0;
     px_AddressFamilyStrategy := ""; px_ConnectAttemptCap := 0;
     px_Rules := [{| r_Via := "eu"; r_Suffixes := [".Example.com"] |}] |}.
Definition demo_config (first : string) : Config :=
  {| c_Tunnels := [demo_tunnel first "10.200.0.2/32" 100 "203.0.113.0/24";
                   demo_tunnel "wg1" "10.201.0.2/32" 101 "198.51.100.0/24"];
     c_Groups := [{| g_Name := "eu"; g_Members := [first; "wg1"]; g_HealthyAfter := 0 |}];
     c_Proxy := demo_proxy;
     c_Gateway := {| gw_Enabled := true; gw_ClientCIDRs := ["10.8.0.0/24"]; gw_ListListen := "" |};
     c_RouteRefresh := 0; c_HealthInterval := 0;
     c_PfSync := {| pf_Enabled := false; pf_SSHHost := ""; pf_SSHPort := 0; pf_SSHUser := ""; pf_SSHKey := "";
                    pf_KnownHosts := ""; pf_FromTunnel := ""; pf_KeepNetworks := [] |};
     c_Management := {| mg_Disabled := false; mg_Listen := ""; mg_ReadHeaderTimeout := 0; mg_WriteTimeout := 0;
                        mg_IdleTimeout := 0; mg_ShutdownTimeout := 0; mg_MaxHeaderBytes := 0; mg_Pprof := false |};
     c_HealthProbe := {| hp_Enabled := true; hp_Endpoint := "https://probe.example/ok"; hp_Via := ""; hp_Interval := 0;
                         hp_Timeout := 0; hp_JitterPercent := 0; hp_MaxConcurrent := 0; hp_FailAfter := 0;
                         hp_RecoverAfter := 0; hp_MaxAge := 0 |} |}.
Definition demo_parse (first : string) : result parse_error Config :=
  parseConfig Some (λ _, true) (λ _, Some (demo_config first, AtEOF)) "".
Definition demo_loaded (first : string) : Config :=
  match demo_parse first with Ok c => c | Err _ => demo_config first end.

Lemma demo_parses : demo_parse "wg0" = Ok (demo_loaded "wg0").
Proof. vm_compute. reflexivity. Qed.

Lemma parseConfig_normal_witness :
  normalize (demo_loaded "wg0") = demo_loaded "wg0" ∧
  markFor (demo_loaded "wg0") "wg0" = 100%Z ∧ hostname "example.com".
Proof.
  destruct (parseConfig_normal Some (λ _, true) _ "" (demo_loaded "wg0") demo_parses)
    as (Hn&_&_&_&Hm&_&_&Hs).
  split; [exact Hn|]. split.
  - apply (Hm (normalize_tunnel 0 (demo_tunnel "wg0" "10.200.0.2/32" 100 "203.0.113.0/24"))).
    + left.
    + vm_compute. done.
  - apply (Hs {| r_Via := "eu"; r_Suffixes := ["example.com"] |}); left.
Defined.

(** A tunnel may be called [direct]: its name then means the host's own route. *)
Example tunnel_named_direct :
  demo_parse "direct" = Ok (demo_loaded "direct") ∧ markFor (demo_loaded "direct") "direct" = 0%Z.
Proof. vm_compute. done. Qed.
