(* ===== verification/Startup.v ===== *)
(** * From a configuration to the running parts

    What the daemon derives from a loaded configuration before it serves: the
    firewall rulesets (egress_guard.go, gateway.go), the DNS cache adapter
    (dnscache.go) and the health monitor (health.go).  The theorem is that a
    configuration that loads never makes any of them fail. *)
From stdpp Require Import base gmap sets list strings.
From S2P Require Import Prelude Netip Url KernelPlan ProxyPolicy Firewall Health ProxyDial DnsCache Config.

(** ** egress_guard.go and gateway.go *)
Definition mark_guards (cfg : Config.Config) : list MarkGuard :=
  (λ t, {| g_Interface := t_Name t; Firewall.Mark := wrap32 (t_Fwmark t); Mask := t_FwmarkMask t |}) <$> c_Tunnels cfg.
Definition compileEgressGuardRuleset (cfg : Config.Config) : result fw_error Ruleset :=
  match CompileEgressGuard (mark_guards cfg) with
  | Err e => Err e
  | Ok chain => Ok {| Chains := [chain] |}
  end.

Definition gateway_policy (cfg : Config.Config) : Firewall.Policy :=
  if gw_Enabled (c_Gateway cfg) then
    {| ClientCIDRs := gw_ClientCIDRs (c_Gateway cfg);
       Firewall.Tunnels :=
         (λ t, {| Interface := t_Name t; Destinations := routes t |}) <$>
           List.filter (λ t, negb (length (routes t) =? 0)) (c_Tunnels cfg) |}
  else {| ClientCIDRs := []; Firewall.Tunnels := [] |}.
Definition compileGatewayRuleset (cfg : Config.Config) : result fw_error Ruleset := Compile (gateway_policy cfg).

(** ** dnscache.go *)
Definition seconds (v : Z) : Z := to_int64 (v * second).
Definition positiveOr (value fallback : Z) : Z := if (value <=? 0)%Z then fallback else value.

(** The adapter; the cache inside is the pure one. *)
Record dnsCache (E : Type) := {
  cache : Cache E; d_generation : Z; resolverID : string; d_egressNames : gmap Z string }.
Arguments cache {E} d.
Arguments d_generation {E} d.
Arguments resolverID {E} d.
Arguments d_egressNames {E} d.

Definition tunnelNamesByMark (c : Config.Config) : gmap Z string :=
  foldl (λ (names : gmap Z string) t, <[t_Fwmark t := t_Name t]> names) ∅ (c_Tunnels c).

(** [None] is the panic on a policy that [NewCache] refuses. *)
Definition newDNSCacheWithPolicy {E} (p : DnsCache.Policy) (generation : Z) (resolverID : string)
    (egressNames : gmap Z string) : option (dnsCache E) :=
  let p := if (MaxPositiveTTL p <? MinPositiveTTL p)%Z
           then {| PositiveCapacity := PositiveCapacity p; NegativeCapacity := NegativeCapacity p;
                   MaxPending := MaxPending p; MinPositiveTTL := MinPositiveTTL p;
                   MaxPositiveTTL := MinPositiveTTL p; NegativeTTL := NegativeTTL p;
                   TransientFailureTTL := TransientFailureTTL p; StaleWindow := StaleWindow p;
                   Stale_Policy := Stale_Policy p; ResolverTimeout := ResolverTimeout p |}
           else p in
  match NewCache p with
  | Ok c => Some {| cache := c; d_generation := generation; resolverID := resolverID; d_egressNames := egressNames |}
  | Err _ => None
  end.

(** The policy for a positive TTL alone, for the callers outside the proxy. *)
Definition newDNSCache {E} (posTTL : Z) : option (dnsCache E) :=
  newDNSCacheWithPolicy
    {| PositiveCapacity := defaultDNSPositiveCapacity; NegativeCapacity := defaultDNSNegativeCapacity;
       MaxPending := defaultDNSMaxPending; MinPositiveTTL := second; MaxPositiveTTL := posTTL;
       NegativeTTL := seconds defaultDNSNegativeTTL; TransientFailureTTL := seconds defaultDNSTransientTTL;
       StaleWindow := seconds defaultDNSStaleWindow; Stale_Policy := StaleTransient;
       ResolverTimeout := seconds defaultDNSResolverTimeout |} 1 "legacy" ∅.

Definition config_dns_policy (c : Config.Config) : DnsCache.Policy :=
  let p := c_Proxy c in
  {| PositiveCapacity := positiveOr (px_DNSPositiveCapacity p) defaultDNSPositiveCapacity;
     NegativeCapacity := positiveOr (px_DNSNegativeCapacity p) defaultDNSNegativeCapacity;
     MaxPending := positiveOr (px_DNSMaxPending p) defaultDNSMaxPending;
     MinPositiveTTL := seconds (positiveOr (px_DNSMinPositiveTTL p) defaultDNSMinPositiveTTL);
     MaxPositiveTTL := seconds (positiveOr (px_DNSMaxPositiveTTL p) defaultDNSMaxPositiveTTL);
     NegativeTTL := seconds (positiveOr (px_DNSNegativeTTL p) defaultDNSNegativeTTL);
     TransientFailureTTL := seconds (positiveOr (px_DNSTransientFailureTTL p) defaultDNSTransientTTL);
     StaleWindow := seconds (or_zero (px_DNSStaleWindow p) defaultDNSStaleWindow);
     Stale_Policy := or_empty (px_DNSStalePolicy p) StaleTransient;
     ResolverTimeout := seconds (positiveOr (px_DNSResolverTimeout p) defaultDNSResolverTimeout) |}.
Definition newDNSCacheForConfig {E} (c : Config.Config) (generation : Z) : option (dnsCache E) :=
  newDNSCacheWithPolicy (config_dns_policy c) generation
    (str_join "," (orDefault (px_Resolver (c_Proxy c)))) (tunnelNamesByMark c).

(** [egressName] of the adapter and of the router: the same lookup. *)
Definition egressName (names : gmap Z string) (mark : Z) : string :=
  if (mark =? 0)%Z then DirectEgress
  else match names !! mark with
       | Some name => if is_empty name then "mark-" +:+ itoa mark else name
       | None => "mark-" +:+ itoa mark
       end.
Definition query {E} (c : dnsCache E) (mark : Z) (host : string) : Query :=
  {| DnsCache.Host := host; q_Family := FamilyAny; Egress := egressName (d_egressNames c) mark;
     q_Resolver := resolverID c; Generation := d_generation c |}.
Definition with_cache {E} (d : dnsCache E) (c : Cache E) : dnsCache E :=
  {| cache := c; d_generation := d_generation d; resolverID := resolverID d; d_egressNames := d_egressNames d |}.
Definition invalidate `{UnicodeTables} {E} (c : dnsCache E) (mark : Z) (host : string) : dnsCache E :=
  with_cache c (Invalidate (cache c) (query c mark host)).

(** ** health.go *)
Definition monitor_group (c : Config.Config) (g : Config.Group) : Monitor.Group :=
  {| Monitor.g_Name := Config.g_Name g;
     Monitor.Members := (λ m, {| Monitor.Tunnel := m; Monitor.Mark := wrap32 (markFor c m) |}) <$> g_Members g;
     Monitor.HealthyAfter := seconds (g_HealthyAfter g) |}.
Definition monitor_config (c : Config.Config) : Monitor.Config :=
  let h := c_HealthProbe c in
  {| Monitor.Interval := seconds (c_HealthInterval c);
     Monitor.Groups := monitor_group c <$> c_Groups c;
     Monitor.Probe_ := if hp_Enabled h
                       then Some {| Probe.MaxAge := seconds (hp_MaxAge h); Probe.FailAfter := hp_FailAfter h;
                                    Probe.RecoverAfter := hp_RecoverAfter h |}
                       else None |}.
(** [client] is whether [wgctrl.New] succeeded; [Ok None] is no monitor at all. *)
Definition NewHealthMonitor (client : bool) (c : Config.Config) : result (option Monitor.new_error) (option Monitor.Monitor) :=
  match c_Groups c with
  | [] => Ok None
  | _ => if client then
           match Monitor.New false (monitor_config c) with
           | Ok m => Ok (Some m)
           | Err e => Err (Some e)
           end
         else Err None
  end.

(** ** A loaded configuration starts *)
Lemma name_char_plain : ∀ c, name_char c = true →
  negb (bool_decide (c ∈ [" "; "009"; "013"; "010"; "034"; "'"]%char)) = true.
Proof. all_bytes. Qed.
Lemma interface_valid name : interfaceNameRE name = true → validInterface name = true.
Proof.
  intros Hn. pose proof (interfaceNameRE_nonempty name Hn) as Hne. unfold validInterface, str_existsb.
  rewrite bool_decide_eq_false_2 by done. cbn [orb]. apply andb_true_iff in Hn as [_ Hn].
  by rewrite (str_forallb_impl _ _ _ name_char_plain Hn).
Qed.

Lemma seconds_id v : (0 ≤ v ≤ maxDurationSeconds)%Z → seconds v = (v * second)%Z.
Proof.
  intros Hv. unfold seconds. apply to_int64_id.
  assert (maxDurationSeconds * second ≤ int64_max)%Z by (by vm_compute).
  unfold second, int64_max in *. nia.
Qed.

Lemma positiveOr_id v d : (0 < v)%Z → positiveOr v d = v.
Proof. intros. unfold positiveOr. by rewrite (proj2 (Z.leb_gt _ _)). Qed.
Lemma or_zero_id v d : v ≠ 0%Z → or_zero v d = v.
Proof. intros. unfold or_zero. by rewrite (proj2 (Z.eqb_neq _ _)). Qed.

Lemma validate_overlaps_ok before rest :
  validate_overlaps before rest = Ok tt →
  (∀ x y, x ∈ rest → y ∈ before → x.1 ≠ y.1 → Overlaps x.2 y.2 = false) ∧
  (∀ x y, x ∈ rest → y ∈ rest → x.1 ≠ y.1 → Overlaps x.2 y.2 = false ∨ Overlaps y.2 x.2 = false).
Proof.
  revert before. induction rest as [|r rest IH]; intros before; cbn [validate_overlaps].
  { split; intros ? ? ?%elem_of_nil; done. }
  destruct (list_find _ before) as [[]|] eqn:Hf; [done|]. intros Hr.
  apply list_find_None in Hf. rewrite Forall_forall in Hf. destruct (IH _ Hr) as [IH1 IH2].
  assert (∀ y, y ∈ before → r.1 ≠ y.1 → Overlaps r.2 y.2 = false) as Hb.
  { intros y Hy Hne. apply not_true_is_false. intros Ho. by apply (Hf y Hy). }
  assert (∀ x, x ∈ rest → x.1 ≠ r.1 → Overlaps x.2 r.2 = false) as Hx.
  { intros x Hx Hne. apply IH1; [done| |done]. apply elem_of_app. right. by left. }
  split.
  - intros x y [->|Hin]%elem_of_cons Hy Hne; [by apply Hb|]. apply IH1; [done| |done].
    apply elem_of_app. by left.
  - intros x y [->|Hin]%elem_of_cons [->|Hin']%elem_of_cons Hne; [done| | |by apply IH2].
    + right. by apply Hx.
    + left. by apply Hx.
Qed.

Section starts.
Context `{UnicodeTables} (toASCII : string → option string) (ParseKey : string → bool).
Context (c : Config.Config) (seen : nat * tunnels_seen) (groups : nat * gset string).
Context (Hval : validated toASCII ParseKey c seen groups (px_Rules (c_Proxy c))).
Context (Hinv : tunnels_inv (c_Tunnels c) seen) (Hnorm : normalize c = c).

Lemma egress_guard_starts : is_ok (compileEgressGuardRuleset c) = true.
Proof.
  unfold compileEgressGuardRuleset. pose proof (CompileEgressGuard_spec (mark_guards c)) as Hs.
  destruct (CompileEgressGuard _); [done|]. exfalso. apply Hs. destruct Hinv as [_ Hnd _ _ Hal _ Hok].
  pose proof (v_allocations _ _ _ _ _ _ Hval) as Ha. rewrite Hal in Ha.
  apply ValidateAllocations_iff in Ha as [Ha _]. split.
  - apply Forall_fmap. rewrite Forall_fmap in Ha. rewrite Forall_forall in Ha, Hok. apply Forall_forall.
    intros t Ht. destruct (Ha t Ht) as (_&?&?&?&_). destruct (Hok t Ht) as [[Hn _] _ _ _ _].
    split_and!; [by apply interface_valid|done..].
  - unfold mark_guards. rewrite <-list_fmap_compose. exact Hnd.
Qed.

Lemma ipv4_cidr_prefix s : ipv4_cidr s ≠ None ↔ ipv4_prefix s.
Proof.
  unfold ipv4_cidr, ipv4_prefix. destruct (ParsePrefix s) as [p|].
  2:{ split; [by intros []|]. by intros (?&?&_). }
  destruct (Is4 (p_ip p)) eqn:H4.
  - split; [|done]. intros _. by exists p.
  - split; [by intros []|]. intros (?&[= <-]&?). congruence.
Qed.

Lemma owned_route t s a :
  t ∈ c_Tunnels c → s ∈ routes t → covers s a → ipv4_prefix s →
  ∃ v b, (t_Name t, prefix4 v b) ∈ gatewayRoutes seen.2 ∧ Contains (prefix4 v b) a = true ∧
    (0 ≤ v < 2 ^ 32)%Z ∧ (0 ≤ b ≤ 32)%Z.
Proof.
  intros Ht Hs (p&Hp&Hc) (p'&Hp'&H4). assert (p' = p) as -> by congruence.
  destruct (ParsePrefix_Is4 s p Hp H4) as (v&b&->&Hv&Hb).
  pose proof (mask_value_bounds 32 b v Hb ltac:(lia)).
  exists (mask_value 32 b v), b. rewrite Contains_mask4 by done. split_and!; [|done|lia..].
  rewrite (inv_routes _ _ Hinv). apply list_elem_of_bind. exists t. split; [|done].
  apply list_elem_of_fmap. exists (prefix4 v b). rewrite Masked4 by lia. split; [done|].
  apply list_elem_of_omap. exists s. split; [done|]. unfold ipv4_cidr. rewrite Hp. cbn. done.
Qed.

Lemma gateway_starts : is_ok (compileGatewayRuleset c) = true.
Proof.
  unfold compileGatewayRuleset. pose proof (Compile_spec (gateway_policy c)) as Hs.
  destruct (Compile _); [done|]. exfalso. apply (proj1 Hs). clear Hs. unfold gateway_policy.
  destruct (gw_Enabled (c_Gateway c)) eqn:Hg.
  2:{ split; [done|]. split_and!; [done|by apply NoDup_nil|]. by intros ? ? ? ?%elem_of_nil. }
  pose proof (inv_ok _ _ Hinv) as Hok. rewrite Forall_forall in Hok.
  assert (∀ t, t ∈ List.filter (λ t, negb (length (routes t) =? 0)) (c_Tunnels c) → t ∈ c_Tunnels c) as Hsub.
  { intros t. rewrite !list_elem_of_In. by intros [? _]%filter_In. }
  assert (∀ t, t ∈ c_Tunnels c → Forall ipv4_prefix (routes t)) as Hr.
  { intros t Ht. eapply Forall_impl; [exact (ok_routes _ (Hok t Ht))|]. intros s. apply ipv4_cidr_prefix. }
  destruct (validate_overlaps_ok _ _ (v_overlaps _ _ _ _ _ _ Hval Hg)) as [_ Hov].
  split; cbn [ClientCIDRs Firewall.Tunnels].
  - pose proof (v_gateway _ _ _ _ _ _ Hval) as Hc. apply checks_cons in Hc as [Hc _].
    apply Forall_forall. intros s Hs. apply ipv4_cidr_prefix. intros He.
    assert (existsb (λ c, bool_decide (ipv4_cidr c = None)) (gw_ClientCIDRs (c_Gateway c)) = true); [|congruence].
    apply existsb_exists. exists s. rewrite <-list_elem_of_In. split; [done|]. by apply bool_decide_eq_true.
  - split_and!.
    + apply Forall_fmap, Forall_forall. intros t Ht%Hsub. cbn. split; [|by apply Hr].
      apply interface_valid. by destruct (Hok t Ht) as [[? _] _ _ _ _].
    + rewrite <-list_fmap_compose. pose proof (inv_nodup _ _ Hinv) as Hnd.
      eapply sublist_NoDup; [exact Hnd|]. apply fmap_sublist. clear.
      induction (c_Tunnels c) as [|t l IH]; cbn; [constructor|]. destruct (negb _); by constructor.
    + intros ? ? a (t1&->&H1%Hsub)%list_elem_of_fmap (t2&->&H2%Hsub)%list_elem_of_fmap. cbn.
      intros Hne (s1&Hs1&Hc1) (s2&Hs2&Hc2). pose proof (Hr t1 H1) as Hr1. pose proof (Hr t2 H2) as Hr2.
      rewrite Forall_forall in Hr1, Hr2.
      destruct (owned_route t1 s1 a H1 Hs1 Hc1 (Hr1 s1 Hs1)) as (v&b&Ho1&Ha1&?&?).
      destruct (owned_route t2 s2 a H2 Hs2 Hc2 (Hr2 s2 Hs2)) as (w&d&Ho2&Ha2&?&?).
      destruct (Hov _ _ Ho1 Ho2 Hne) as [Hf|Hf]; cbn in Hf; apply not_true_iff_false in Hf; apply Hf.
      * rewrite Overlaps4 by done. eauto.
      * rewrite Overlaps4 by done. eauto.
Qed.

Lemma limits_ok :
  let p := c_Proxy c in
  (1 ≤ px_DNSMinPositiveTTL p ≤ maxDurationSeconds ∧
   px_DNSMinPositiveTTL p ≤ px_DNSMaxPositiveTTL p ≤ maxDurationSeconds ∧
   1 ≤ px_DNSNegativeTTL p ≤ maxDurationSeconds ∧ 1 ≤ px_DNSTransientFailureTTL p ≤ maxDurationSeconds ∧
   0 ≤ px_DNSStaleWindow p ≤ maxDurationSeconds ∧ 1 ≤ px_DNSResolverTimeout p ≤ maxDurationSeconds ∧
   1 ≤ px_DNSPositiveCapacity p ∧ 1 ≤ px_DNSNegativeCapacity p ∧ 1 ≤ px_DNSMaxPending p)%Z ∧
  px_DNSStalePolicy p ∈ ["transient"; "never"].
Proof.
  intros p. pose proof (v_limits _ _ _ _ _ _ Hval) as Hc. fold p in Hc.
  do 5 apply checks_cons in Hc as [_ Hc].
  apply checks_cons in Hc as [Hmin Hc]. apply checks_cons in Hc as [Hmax Hc]. apply checks_cons in Hc as [_ Hc].
  apply checks_cons in Hc as [Hneg Hc]. apply checks_cons in Hc as [Htr Hc]. apply checks_cons in Hc as [Hst Hc].
  apply checks_cons in Hc as [Hrt Hc]. apply checks_cons in Hc as [Hpc Hc]. apply checks_cons in Hc as [Hnc Hc].
  apply checks_cons in Hc as [Hmp Hc]. apply checks_cons in Hc as [Hpol _].
  assert (∀ v, negb (validSeconds v) || (v =? 0)%Z = false → (1 ≤ v ≤ maxDurationSeconds)%Z) as Hpos.
  { intros v [Hv%negb_false_iff%validSeconds_bound Hz%Z.eqb_neq]%orb_false_iff. lia. }
  apply Hpos in Hmin, Hneg, Htr, Hrt. apply orb_false_iff in Hmax as [Hmax%negb_false_iff%validSeconds_bound Hle%Z.ltb_ge].
  apply negb_false_iff, validSeconds_bound in Hst. unfold outside in Hpc, Hnc, Hmp.
  apply orb_false_iff in Hpc as [Hpc%Z.ltb_ge _], Hnc as [Hnc%Z.ltb_ge _], Hmp as [Hmp%Z.ltb_ge _].
  apply negb_false_iff, bool_decide_eq_true in Hpol. split; [lia|done].
Qed.

Lemma dns_starts E generation : ∃ d : dnsCache E, newDNSCacheForConfig c generation = Some d.
Proof.
  destruct limits_ok as [Hl Hpol]. unfold newDNSCacheForConfig, newDNSCacheWithPolicy.
  set (p := config_dns_policy c).
  assert (Validate p = Ok tt) as Hv.
  { apply Validate_ok. unfold p, config_dns_policy. cbn [PositiveCapacity NegativeCapacity MaxPending
      MinPositiveTTL MaxPositiveTTL NegativeTTL TransientFailureTTL StaleWindow Stale_Policy ResolverTimeout].
    assert (0 ≤ or_zero (px_DNSStaleWindow (c_Proxy c)) defaultDNSStaleWindow ≤ maxDurationSeconds)%Z.
    { unfold or_zero. destruct (_ =? _)%Z; [by vm_compute|lia]. }
    rewrite !positiveOr_id by lia. rewrite !seconds_id by lia. unfold second. split; [lia|].
    unfold or_empty. rewrite bool_decide_eq_false_2.
    - rewrite !elem_of_cons, elem_of_nil in Hpol. destruct Hpol as [->|[->|[]]]; [by right|by left].
    - intros He. rewrite He in Hpol. rewrite !elem_of_cons, elem_of_nil in Hpol. by destruct Hpol as [|[|[]]]. }
  assert ((MaxPositiveTTL p <? MinPositiveTTL p)%Z = false) as ->.
  { apply Validate_ok in Hv as [Hv _]. apply Z.ltb_ge. lia. }
  unfold NewCache. rewrite Hv. eauto.
Qed.

Lemma new_groups_ok m gs :
  Forall (λ g, Monitor.Members g ≠ [] ∧ Monitor.g_Name g ≠ "" ∧ (0 < Monitor.HealthyAfter g)%Z) gs →
  ∃ m', foldM Monitor.new_group m gs = Ok m'.
Proof.
  intros Hg. revert m. induction Hg as [|g gs (Hm&Hn&Hh) Hgs IH]; intros m; cbn [foldM]; [by eexists|].
  unfold Monitor.new_group at 1. destruct (Monitor.Members g); [done|].
  rewrite bool_decide_eq_false_2 by done. rewrite (proj2 (Z.leb_gt _ _)) by done. cbn [orb]. apply IH.
Qed.

Lemma monitor_starts : is_ok (NewHealthMonitor true c) = true.
Proof.
  unfold NewHealthMonitor. destruct (c_Groups c) as [|g0 gs0]; [done|]. clear g0 gs0.
  destruct (v_seconds _ _ _ _ _ _ Hval) as [_ Hi%validSeconds_bound].
  assert (c_HealthInterval c ≠ 0%Z) as Hi0.
  { rewrite <-Hnorm. cbn. unfold or_zero. by destruct (Z.eqb_spec (c_HealthInterval c) 0). }
  assert (0 < seconds (c_HealthInterval c))%Z as Hint by (rewrite seconds_id by lia; unfold second; lia).
  assert (∀ m, ∃ m', foldM Monitor.new_group m (monitor_group c <$> c_Groups c) = Ok m') as Hnew.
  { intros m. apply new_groups_ok. apply Forall_fmap, Forall_forall. intros g Hg.
    destruct (validate_groups_inv _ _ _ (v_groups _ _ _ _ _ _ Hval)) as [_ Hgo].
    rewrite Forall_forall in Hgo. destruct (Hgo g Hg) as (?&Hm&Hh&_). cbn. split_and!; [|done|].
    - by destruct (g_Members g).
    - assert (g_HealthyAfter g ≠ 0%Z).
      { rewrite <-Hnorm in Hg. cbn in Hg. apply list_elem_of_fmap in Hg as (g'&->&_). cbn. unfold or_zero.
        by destruct (Z.eqb_spec (g_HealthyAfter g') 0). }
      rewrite seconds_id by lia. unfold second. lia. }
  unfold Monitor.New, monitor_config. cbn [Monitor.Interval Monitor.Groups Monitor.Probe_].
  rewrite (proj2 (Z.leb_gt _ _)) by done.
  destruct (hp_Enabled (c_HealthProbe c)) eqn:Hen.
  - pose proof (v_probe _ _ _ _ _ _ Hval) as Hp. unfold validate_probe in Hp. rewrite Hen in Hp. cbn [negb] in Hp.
    do 3 apply checks_cons in Hp as [_ Hp]. apply checks_cons in Hp as [Hin Hp]. apply checks_cons in Hp as [Hto Hp].
    do 2 apply checks_cons in Hp as [_ Hp]. apply checks_cons in Hp as [Hfa Hp]. apply checks_cons in Hp as [Hra Hp].
    apply checks_cons in Hp as [Hma _]. unfold outside in Hfa, Hra.
    apply orb_false_iff in Hin as [Hin%Z.ltb_ge Hin2%negb_false_iff%validSeconds_bound],
      Hto as [Hto%Z.ltb_ge Hto2%Z.leb_gt], Hfa as [Hfa%Z.ltb_ge _], Hra as [Hra%Z.ltb_ge _],
      Hma as [Hma%negb_false_iff%validSeconds_bound Hma2%Z.ltb_ge].
    assert (maxDurationSeconds < 2 ^ 34)%Z by (by vm_compute).
    rewrite to_int64_id in Hma2 by lia.
    assert (Probe.validate {| Probe.MaxAge := seconds (hp_MaxAge (c_HealthProbe c));
      Probe.FailAfter := hp_FailAfter (c_HealthProbe c);
      Probe.RecoverAfter := hp_RecoverAfter (c_HealthProbe c) |} = true) as ->.
    { unfold Probe.validate. cbn. rewrite seconds_id by lia. unfold second. lia. }
    destruct (Hnew (Monitor.empty_monitor (seconds (c_HealthInterval c)) (Some (Probe.newProbeTracker
      {| Probe.MaxAge := seconds (hp_MaxAge (c_HealthProbe c)); Probe.FailAfter := hp_FailAfter (c_HealthProbe c);
         Probe.RecoverAfter := hp_RecoverAfter (c_HealthProbe c) |})))) as [m' ->]. done.
  - destruct (Hnew (Monitor.empty_monitor (seconds (c_HealthInterval c)) None)) as [m' ->]. done.
Qed.
End starts.

(** C34: a configuration that loads starts: the fail-closed egress guard and the
    gateway policy compile, the DNS cache is built without the panic its
    constructor has for a bad policy, and the health monitor is accepted. *)
Theorem config_starts `{UnicodeTables} toASCII ParseKey decode raw c :
  parseConfig toASCII ParseKey decode raw = Ok c →
  is_ok (compileEgressGuardRuleset c) = true ∧ is_ok (compileGatewayRuleset c) = true ∧
  (∀ E generation, ∃ d : dnsCache E, newDNSCacheForConfig c generation = Some d) ∧
  is_ok (NewHealthMonitor true c) = true.
Proof.
  intros Hp. destruct (parseConfig_validated toASCII ParseKey decode raw c Hp) as (Hn&seen&groups&Hval&Hinv).
  split_and!.
  - by eapply egress_guard_starts.
  - by eapply gateway_starts.
  - intros. by eapply dns_starts.
  - by eapply monitor_starts.
Qed.

Lemma config_starts_witness :
  is_ok (compileEgressGuardRuleset (demo_loaded "wg0")) = true ∧
  is_ok (compileGatewayRuleset (demo_loaded "wg0")) = true.
Proof.
  destruct (config_starts (H := demo_tables) Some (λ _, true) _ "" (demo_loaded "wg0") demo_parses) as (H1&H2&_).
  split; [exact H1|exact H2].
Defined.
