(* ===== verification/Context.v ===== *)
(** * Contexts with deadlines

    Package [context] as the dial path and the tunnel resolver use it: an error
    once the context is done, an optional deadline, and [WithTimeout].  The clock
    and the timers belong to the world [W], which the rest of the program and the
    network change. *)
From S2P Require Import Prelude.

Section context.
Context {W E : Type}.

(** [now] is the wall clock, [fired w d] whether the timer of the deadline [d]
    has fired in [w], and [exceeded] is [context.DeadlineExceeded]. *)
Record Clock := { now : W → Z; fired : W → Z → bool; exceeded : E }.

Record Ctx := { Ctx_Err : W → option E; Deadline : option Z }.

(** [context.WithTimeout]: a parent that ends earlier keeps its deadline, and a
    deadline that has passed already gives a context that is done. *)
Definition WithTimeout (k : Clock) (parent : Ctx) (w : W) (d : Z) : Ctx :=
  let dl := (now k w + d)%Z in
  let inherit := match Deadline parent with Some p => (p <? dl)%Z | None => false end in
  if inherit then parent
  else {| Deadline := Some dl;
          Ctx_Err := λ w', match Ctx_Err parent w' with
                           | Some e => Some e
                           | None => if (dl <=? now k w)%Z || fired k w' dl then Some (exceeded k) else None
                           end |}.

(** Every context derived from [parent] ends no later than [parent] does. *)
Definition within (parent c : Ctx) : Prop :=
  (∀ p, Deadline parent = Some p → ∃ d, Deadline c = Some d ∧ (d ≤ p)%Z) ∧
  (∀ w e, Ctx_Err parent w = Some e → Ctx_Err c w = Some e).

#[export] Instance within_preorder : PreOrder within.
Proof.
  split.
  - intros c. split; [|done]. intros p ->. by exists p.
  - intros a b c [Hd1 He1] [Hd2 He2]. split; [|by auto].
    intros p (q&Hq&Hle)%Hd1. apply Hd2 in Hq as (r&Hr&Hle'). exists r. split; [done|lia].
Qed.

Lemma WithTimeout_within k parent w d : within parent (WithTimeout k parent w d).
Proof.
  unfold WithTimeout. destruct (Deadline parent) as [p|] eqn:Hp.
  - destruct (Z.ltb_spec p (now k w + d)); [done|]. split.
    + intros p' Hp'. simplify_eq. eexists. split; [done|]. simpl. lia.
    + intros w' e He. simpl. by rewrite He.
  - split; [by rewrite Hp|]. intros w' e He. simpl. by rewrite He.
Qed.

(** A context made with [WithTimeout] has a deadline, no later than the timeout. *)
Lemma WithTimeout_deadline k parent w d :
  ∃ dl, Deadline (WithTimeout k parent w d) = Some dl ∧ (dl ≤ now k w + d)%Z.
Proof.
  unfold WithTimeout. destruct (Deadline parent) as [p|] eqn:Hp; [|by eexists].
  destruct (Z.ltb_spec p (now k w + d)); [|by eexists]. exists p. split; [done|lia].
Qed.
End context.
Arguments Clock : clear implicits.
Arguments Ctx : clear implicits.
