(* ===== verification/TunnelDns.v ===== *)
(** * tunneldns.go: resolving a host through one tunnel

    [tunnelResolver] asks each configured server over UDP and, when UDP times out
    or answers only denied addresses, over TCP.  The exchange with a server is
    Go's resolver on the wire and is the parameter [lookup] of the lookup. *)
From S2P Require Import Prelude Netip ProxyDial Context.

(** What [errors.As] and [errors.Is] find in an error of a lookup. *)
Class LookupError (E : Type) := {
  dns_timeout : E → bool; dns_not_found : E → bool; is_deadline_exceeded : E → bool }.

Definition isDNSTimeout `{LookupError E} (err : option E) : bool :=
  match err with Some e => dns_timeout e || is_deadline_exceeded e | None => false end.
Definition isDNSNotFound `{LookupError E} (e : E) : bool := dns_not_found e.

(** A [net.Resolver] of the tunnel: its [Dial] connects to [nr_server] with the
    mark, over the network the resolver asks for or over [nr_network]. *)
Record netResolver := {
  nr_network : option string; nr_server : string; nr_mark : Z; nr_timeout : Z }.

(** [slice] is [BudgetSlice] in every resolver the program makes. *)
Record tunnelResolver := {
  udp : list netResolver; tcp : list netResolver; timeout : Z; allowed : option (Addr → bool) }.

Definition newTunnelResolver (servers : list string) (mark timeout : Z)
    (allowed : option (Addr → bool)) : tunnelResolver :=
  {| udp := (λ s, {| nr_network := None; nr_server := s; nr_mark := mark; nr_timeout := timeout |}) <$> servers;
     tcp := (λ s, {| nr_network := Some "tcp"; nr_server := s; nr_mark := mark; nr_timeout := timeout |}) <$> servers;
     timeout := timeout; allowed := allowed |}.

(** A nil slice of addresses is [None]. *)
Definition acceptable (r : tunnelResolver) (addrs : option (list Addr)) : bool :=
  match allowed r with None => true | Some f => existsb f (default [] addrs) end.

Section lookup.
Context {W E : Type} `{LookupError E} (k : Clock W E).
Context (lookup : W → Ctx W E → netResolver → string → string → option (list Addr) * option E * W).
Context (r : tunnelResolver).

Definition sliceOf (ctx : Ctx W E) (w : W) (attemptsLeft : nat) : Ctx W E :=
  match Deadline ctx with
  | None => ctx
  | Some d => WithTimeout k ctx w (BudgetSlice (time_sub d (now k w)) (Z.of_nat attemptsLeft))
  end.

Definition lookupServer (ctx : Ctx W E) (server : netResolver * netResolver) (network host : string)
    (w : W) : option (list Addr) * option E * W :=
  let '(addrs, err, w) := lookup w (sliceOf ctx w 2) server.1 network host in
  let retry := isDNSTimeout err || (bool_decide (err = None) && negb (acceptable r addrs)) in
  if negb retry || bool_decide (is_Some (Ctx_Err ctx w)) then (addrs, err, w)
  else
    let '(tcpAddrs, tcpErr, w) := lookup w ctx server.2 network host in
    if bool_decide (is_Some tcpErr) && bool_decide (err = None) then (addrs, None, w)
    else (tcpAddrs, tcpErr, w).

(** After the loop: the denied answer, else the errors joined. *)
Definition finish (errs : list E) (poisoned : option (list Addr)) (w : W) :
    option (list Addr) * list E * W :=
  match poisoned with Some _ => (poisoned, [], w) | None => (None, errs, w) end.

(** The loop over the servers left.  The error is the list that is joined; the
    empty list is nil. *)
Fixpoint lookup_loop (ctx : Ctx W E) (network host : string) (servers : list (netResolver * netResolver))
    (errs : list E) (poisoned : option (list Addr)) (w : W) : option (list Addr) * list E * W :=
  match servers with
  | [] => finish errs poisoned w
  | s :: rest =>
      match Ctx_Err ctx w with
      | Some e => finish (errs ++ [e]) poisoned w
      | None =>
          let '(addrs, err, w) := lookupServer (sliceOf ctx w (length servers)) s network host w in
          match err with
          | None => if acceptable r addrs then (addrs, [], w)
                    else lookup_loop ctx network host rest errs addrs w
          | Some e => if isDNSNotFound e then (None, [e], w)
                      else lookup_loop ctx network host rest (errs ++ [e]) poisoned w
          end
      end
  end.

Definition LookupNetIP (ctx : Ctx W E) (network host : string) (w : W) :
    option (list Addr) * list E * W :=
  let network := if bool_decide (network = "ip") then "ip4" else network in
  lookup_loop (WithTimeout k ctx w (timeout r)) network host (zip (udp r) (tcp r)) [] None w.

(** [l] is asked in order, the first with [left] servers left, and no server
    ends the lookup: each fails, which adds its error, or answers only denied
    addresses, which replaces the denied answer. *)
Inductive skipped (ctx : Ctx W E) (network host : string) :
  nat → list (netResolver * netResolver) → list E → option (list Addr) → option (list Addr) → W → W → Prop :=
| skipped_nil left p w : skipped ctx network host left [] [] p p w w
| skipped_denied left s l es addrs p p' w w1 w2 :
    Ctx_Err ctx w = None →
    lookupServer (sliceOf ctx w left) s network host w = (addrs, None, w1) → acceptable r addrs = false →
    skipped ctx network host (pred left) l es addrs p' w1 w2 →
    skipped ctx network host left (s :: l) es p p' w w2
| skipped_failed left s l e es addrs p p' w w1 w2 :
    Ctx_Err ctx w = None →
    lookupServer (sliceOf ctx w left) s network host w = (addrs, Some e, w1) → isDNSNotFound e = false →
    skipped ctx network host (pred left) l es p p' w1 w2 →
    skipped ctx network host left (s :: l) (e :: es) p p' w w2.

(** How a lookup ends after the servers before [post]. *)
Inductive ends (ctx : Ctx W E) (network host : string) (post : list (netResolver * netResolver))
    (es : list E) (p : option (list Addr)) (w : W) : option (list Addr) * list E * W → Prop :=
| ends_answer s rest addrs w' :
    post = s :: rest → Ctx_Err ctx w = None →
    lookupServer (sliceOf ctx w (length post)) s network host w = (addrs, None, w') →
    acceptable r addrs = true → ends ctx network host post es p w (addrs, [], w')
| ends_not_found s rest addrs e w' :
    post = s :: rest → Ctx_Err ctx w = None →
    lookupServer (sliceOf ctx w (length post)) s network host w = (addrs, Some e, w') →
    isDNSNotFound e = true → ends ctx network host post es p w (None, [e], w')
| ends_timeout e : post ≠ [] → Ctx_Err ctx w = Some e → ends ctx network host post es p w (finish (es ++ [e]) p w)
| ends_exhausted : post = [] → ends ctx network host post es p w (finish es p w).

Lemma lookup_servers_spec ctx network host l errs p w :
  ∃ pre post es p' w1, l = pre ++ post ∧ skipped ctx network host (length l) pre es p p' w w1 ∧
    ends ctx network host post (errs ++ es) p' w1 (lookup_loop ctx network host l errs p w).
Proof.
  revert errs p w. induction l as [|s l IH]; intros errs p w; cbn [lookup_loop].
  { exists [], [], [], p, w. rewrite (app_nil_r errs). split_and!; [done|apply skipped_nil|by apply ends_exhausted]. }
  destruct (Ctx_Err ctx w) as [e|] eqn:Hc.
  { exists [], (s :: l), [], p, w. rewrite (app_nil_r errs). split_and!; [done|apply skipped_nil|by apply ends_timeout]. }
  destruct (lookupServer _ _ _ _ _) as [[addrs err] w1] eqn:Hl.
  assert (∀ r, ends ctx network host (s :: l) (errs ++ []) p w r →
    ∃ pre post es p' w2, s :: l = pre ++ post ∧ skipped ctx network host (length (s :: l)) pre es p p' w w2 ∧
      ends ctx network host post (errs ++ es) p' w2 r) as Hend.
  { intros x Hx. exists [], (s :: l), [], p, w. split_and!; [done|apply skipped_nil|done]. }
  destruct err as [e|].
  - destruct (isDNSNotFound e) eqn:Hn; [by eapply Hend, ends_not_found|].
    destruct (IH (errs ++ [e]) p w1) as (pre&post&es&p'&w2&->&Hs&He).
    exists (s :: pre), post, (e :: es), p', w2. rewrite <-app_assoc in He.
    split_and!; [done|by eapply skipped_failed|done].
  - destruct (acceptable r addrs) eqn:Ha; [by eapply Hend, ends_answer|].
    destruct (IH errs addrs w1) as (pre&post&es&p'&w2&->&Hs&He).
    exists (s :: pre), post, es, p', w2. split_and!; [done|by eapply skipped_denied|done].
Qed.

(** A denied answer is the result for a server only when TCP did no better. *)
Lemma lookupServer_denied ctx s network host w addrs w' :
  lookupServer ctx s network host w = (addrs, None, w') → acceptable r addrs = false →
  ∃ udpAddrs udpErr w1, lookup w (sliceOf ctx w 2) s.1 network host = (udpAddrs, udpErr, w1) ∧
    (is_Some (Ctx_Err ctx w1) ∧ w' = w1 ∨
     ∃ tcpAddrs tcpErr, lookup w1 ctx s.2 network host = (tcpAddrs, tcpErr, w') ∧
       (tcpErr = None → acceptable r tcpAddrs = false)).
Proof.
  unfold lookupServer. intros Hl Ha.
  destruct (lookup w _ _ _ _) as [[udpAddrs udpErr] w1]. exists udpAddrs, udpErr, w1. split; [done|].
  destruct (negb _ || _) eqn:Hr.
  - simplify_eq. apply orb_true_iff in Hr as [Hr|Hr].
    + rewrite Ha in Hr. by destruct (isDNSTimeout None).
    + apply bool_decide_eq_true in Hr. by left.
  - right. destruct (lookup w1 ctx _ _ _) as [[tcpAddrs tcpErr] w2]. exists tcpAddrs, tcpErr.
    destruct tcpErr as [e|]; simpl in Hl; [|by simplify_eq].
    destruct udpErr as [e'|]; simpl in Hl; simplify_eq. done.
Qed.
End lookup.

(** A lookup through a tunnel asks the servers in order, each with its share
    of the time left, and stops at the first one whose answer the destination
    policy accepts or that says the name does not exist.  Only when no server
    does is a denied answer handed on, the last one, and only when no server
    answered at all are the errors returned.  The whole lookup runs within the
    caller's context and the resolver's timeout, and a server's answer counts as
    denied only when its TCP side failed or was denied as well. *)
Theorem LookupNetIP_spec {W E} `{LookupError E} (k : Clock W E) lookup r ctx network host w :
  let c := WithTimeout k ctx w (timeout r) in
  let n := if bool_decide (network = "ip") then "ip4" else network in
  within ctx c ∧ (∃ dl, Deadline c = Some dl ∧ (dl ≤ now k w + timeout r)%Z) ∧
  (∃ pre post es p w1, zip (udp r) (tcp r) = pre ++ post ∧
     skipped k lookup r c n host (length (zip (udp r) (tcp r))) pre es None p w w1 ∧
     ends k lookup r c n host post es p w1 (LookupNetIP k lookup r ctx network host w)) ∧
  ∀ ctx s w addrs w', lookupServer k lookup r ctx s n host w = (addrs, None, w') → acceptable r addrs = false →
    ∃ udpAddrs udpErr w1, lookup w (sliceOf k ctx w 2) s.1 n host = (udpAddrs, udpErr, w1) ∧
      (is_Some (Ctx_Err ctx w1) ∧ w' = w1 ∨
       ∃ tcpAddrs tcpErr, lookup w1 ctx s.2 n host = (tcpAddrs, tcpErr, w') ∧
         (tcpErr = None → acceptable r tcpAddrs = false)).
Proof.
  intros c n. split; [apply WithTimeout_within|]. split; [apply WithTimeout_deadline|]. split.
  - destruct (lookup_servers_spec k lookup r c n host (zip (udp r) (tcp r)) [] None w) as (pre&post&es&p&w1&?&?&?).
    by exists pre, post, es, p, w1.
  - intros. by eapply lookupServer_denied.
Qed.
