(* ===== verification/Router.v ===== *)
(** * sni.go: the router and the dial path

    [router] is built from a configuration for one generation.  [route] finds the
    egress of a host, [pipe] dials it: [dialEgresses] tries the egress marks in
    order, [dialBackend] the addresses of one egress.  The sockets the daemon
    opens are recorded in [dialed]; the network, the clock and the DNS answers
    are the environment. *)
From S2P Require Import Prelude Netip Routing Health ProxyDial DnsCache ProxyPolicy Config Startup Context TunnelDns.

(** ** Egress references *)

(** The pointers into the monitor are the index of the group they point into. *)
Record markRef := { static : Z; dyn : option nat; order : option nat }.

Definition load (hm : option Monitor.Monitor) (p : option nat) : option Monitor.groupState :=
  match hm, p with Some m, Some i => Monitor.groups m !! i | _, _ => None end.

Definition mark (hm : option Monitor.Monitor) (r : markRef) : Z :=
  match load hm (dyn r) with Some g => Monitor.active g | None => static r end.

Definition marks (hm : option Monitor.Monitor) (r : markRef) : list Z :=
  match load hm (order r) with
  | Some g => match Monitor.order g with [] => [mark hm r] | o => o end
  | None => [mark hm r]
  end.

Definition markRefFor (c : Config.Config) (hm : option Monitor.Monitor) (via : string) : markRef :=
  match hm with
  | Some m => match Monitor.byName m !! via with
              | Some i => {| static := 0; dyn := Some i; order := Some i |}
              | None => {| static := markFor c via; dyn := None; order := None |}
              end
  | None => {| static := markFor c via; dyn := None; order := None |}
  end.

Definition egressFamilyAllowed (addr : Addr) (mark : Z) : bool := (mark =? 0)%Z || Is4 (Unmap addr).
Definition egressFamilyCandidates (addrs : list Addr) (mark : Z) : list Addr :=
  if (mark =? 0)%Z then addrs else List.filter (λ a, egressFamilyAllowed a mark) addrs.

Definition durationSeconds (value fallback : Z) : Z :=
  seconds (if (value <=? 0)%Z then fallback else value).

(** ** The router of one generation *)

(** [NetResolver] over the system resolver or over a tunnel's. *)
Inductive egressResolver :=
| SystemResolver (localTTL : Z)
| TunnelResolver (r : tunnelResolver) (localTTL : Z).

Record router := {
  def : markRef; dialTimeout : Z; handshakeTimeout : Z; idleTimeout : Z; shutdownGrace : Z;
  maxConnections : Z; maxConnectionsPerSource : Z; maxClientHelloBytes : Z; maxHTTPHeaderBytes : Z;
  sourceACL : list Prefix; destination : destinationPolicy;
  suffixes : option (SuffixMatcher markRef);
  resolvers : gmap Z egressResolver; egressNames : gmap Z string; connectAttemptCap : Z }.

(** The parts of a router that its connections share and change. *)
Record shared (E : Type) := { selector : RotatingSelector; dns : dnsCache E }.
Arguments selector {E} s.
Arguments dns {E} s.

Definition tunnel_resolver (c : Config.Config) (mark : Z) : egressResolver :=
  TunnelResolver
    (newTunnelResolver (resolversFor c mark) mark
       (durationSeconds (px_DNSResolverTimeout (c_Proxy c)) defaultDNSResolverTimeout)
       (Some (answerAllowed (newDestinationPolicy c) mark)))
    (durationSeconds (px_DNSCacheTTL (c_Proxy c)) defaultDNSMaxPositiveTTL).
Definition newResolvers (c : Config.Config) : gmap Z egressResolver :=
  foldl (λ (m : gmap Z egressResolver) t, <[t_Fwmark t := tunnel_resolver c (t_Fwmark t)]> m)
    {[ 0%Z := SystemResolver (durationSeconds (px_DNSCacheTTL (c_Proxy c)) defaultDNSMaxPositiveTTL) ]}
    (c_Tunnels c).

Definition router_strategy (c : Config.Config) : string :=
  let s := px_AddressFamilyStrategy (c_Proxy c) in if Valid s then s else Interleave.
Definition router_attempts (c : Config.Config) : Z :=
  let n := px_ConnectAttemptCap (c_Proxy c) in if (n <=? 0)%Z then defaultConnectAttemptCap else n.

(** [None]: the constructor of the DNS cache panics. *)
Definition newRouterGeneration {E} (c : Config.Config) (hm : option Monitor.Monitor) (generation : Z) :
    option (router * shared E) :=
  match newDNSCacheForConfig c generation with
  | None => None
  | Some cache =>
      let p := c_Proxy c in
      Some ({| def := markRefFor c hm (px_Default p);
               dialTimeout := seconds (px_DialTimeout p); handshakeTimeout := seconds (px_HandshakeTimeout p);
               idleTimeout := seconds (px_IdleTimeout p); shutdownGrace := seconds (px_ShutdownGrace p);
               maxConnections := px_MaxConnections p; maxConnectionsPerSource := px_MaxConnectionsPerSource p;
               maxClientHelloBytes := px_MaxClientHelloBytes p; maxHTTPHeaderBytes := px_MaxHTTPHeaderBytes p;
               sourceACL := compileSourceACL c; destination := newDestinationPolicy c;
               suffixes := add_rules ((λ r, (markRefFor c hm (r_Via r), r_Suffixes r)) <$> px_Rules p);
               resolvers := newResolvers c; egressNames := tunnelNamesByMark c;
               connectAttemptCap := router_attempts c |},
            {| selector := {| Strategy := router_strategy c; MaxAttempts := router_attempts c; cursor := 0 |};
               dns := cache |})
  end.

Definition route `{UnicodeTables} (toASCII : string → option string) (rt : router) (host : string) : markRef :=
  let host := match canonicalHost toASCII host false with Ok (normalized, _) => normalized | Err _ => host end in
  match Lookup (suffixes rt) host with Some ref => ref | None => def rt end.
Definition route_mark `{UnicodeTables} (toASCII : string → option string) (rt : router)
    (hm : option Monitor.Monitor) (host : string) : Z := mark hm (route toASCII rt host).

(** ** The dial path *)
Inductive backend_error (E : Type) :=
| DestinationDenied
| DeniedAnswer
| NoIPv4Candidate
| NoResolver (mark : Z)
| ResolveError (e : cache_error E)
| DnsRCode (rcode : Z) (host : string)
| DialError (e : dial_error E)
| CtxError (e : E).
Arguments DestinationDenied {E}.
Arguments DeniedAnswer {E}.
Arguments NoIPv4Candidate {E}.
Arguments NoResolver {E} mark.
Arguments ResolveError {E} e.
Arguments DnsRCode {E} rcode host.
Arguments DialError {E} e.
Arguments CtxError {E} e.

(** [errors.Is(err, errDestinationDenied)]; [errDeniedAnswer] wraps it. *)
Definition is_denied {E} (e : backend_error E) : bool :=
  match e with DestinationDenied | DeniedAnswer => true | _ => false end.

(** What [dialEgresses] returns: the errors joined, each with its egress; the
    error of an ended context has none. *)
Inductive egress_error (E : Type) :=
| NoEgress
| EgressErrors (errs : list (option string * backend_error E)).
Arguments NoEgress {E}.
Arguments EgressErrors {E} errs.
Definition any_denied {E} (e : egress_error E) : bool :=
  match e with NoEgress => false | EgressErrors errs => existsb (λ x, is_denied x.2) errs end.

(** A socket the daemon opens: the mark it is stamped with and where it goes. *)
Record dial_event := { ev_mark : Z; ev_network : string; ev_address : string }.

Section dial_path.
Context {W Conn E : Type} `{UnicodeTables}.

Record egress_state := { sh : shared E; world : W; dialed : list dial_event }.

(** [resolve] is [rt.dns.resolve]: the answer of the cache, which other
    connections and resolver goroutines change while the call waits.
    [dial_marked] is [dialMarkedContext]. *)
Record egress_env := {
  clock : Clock W E;
  resolve : shared E → W → Ctx W E → Z → string → egressResolver →
            Result * option (cache_error E) * shared E * W;
  dial_marked : shared E → W → Ctx W E → string → string → Z → Z → result E Conn * shared E * W }.

Context (env : egress_env) (rt : router) (self : gset Addr).

Definition with_shared (s : egress_state) (x : shared E) : egress_state :=
  {| sh := x; world := world s; dialed := dialed s |}.

(** [rt.selector.Select] with the destination policy as the filter. *)
Definition select_allowed (s : egress_state) (addrs : list Addr) (mark : Z) : list Addr * egress_state :=
  let '(out, sel) := Select (selector (sh s)) addrs
                       (Some (λ a, addressAllowed (destination rt) a mark self)) in
  (out, with_shared s {| selector := sel; dns := dns (sh s) |}).

Definition invalidate_host (s : egress_state) (mark : Z) (host : string) : egress_state :=
  with_shared s {| selector := selector (sh s); dns := invalidate (dns (sh s)) mark host |}.

Definition backendCandidates (ctx : Ctx W E) (host : string) (isIP : bool) (mark : Z) (s : egress_state) :
    result (backend_error E) (list Addr) * egress_state :=
  if isIP then
    match ParseAddr host with
    | None => (Err DestinationDenied, s)
    | Some addr =>
        if negb (egressFamilyAllowed addr mark) then (Err NoIPv4Candidate, s)
        else match select_allowed s [addr] mark with
             | ([], s) => (Err DestinationDenied, s)
             | (selected, s) => (Ok selected, s)
             end
    end
  else
    match resolvers rt !! mark with
    | None => (Err (NoResolver mark), s)
    | Some resolver =>
        let '(res, err, x, w) := resolve env (sh s) (world s) ctx mark host resolver in
        let s := {| sh := x; world := w; dialed := dialed s |} in
        match err with
        | Some e => (Err (ResolveError e), s)
        | None =>
            if negb (rcode res =? RCodeSuccess)%Z then (Err (DnsRCode (rcode res) host), s)
            else match egressFamilyCandidates (Addrs res) mark with
                 | [] => (Err NoIPv4Candidate, s)
                 | family =>
                     match select_allowed s family mark with
                     | ([], s) => (Err DeniedAnswer, invalidate_host s mark host)
                     | (allowed, s) => (Ok allowed, s)
                     end
                 end
        end
    end.

(** The dial function given to [DialCandidates], under the context of the attempt. *)
Definition dial_attempt (ctx : Ctx W E) (mark : Z) (s : egress_state) (timeout : option Z) (address : string) :
    result E Conn * egress_state :=
  let c := match timeout with Some d => WithTimeout (clock env) ctx (world s) d | None => ctx end in
  let '(r, x, w) := dial_marked env (sh s) (world s) c "tcp" address mark (dialTimeout rt) in
  (r, {| sh := x; world := w;
         dialed := dialed s ++ [{| ev_mark := mark; ev_network := "tcp"; ev_address := address |}] |}).
Definition candidate_env (ctx : Ctx W E) (mark : Z) : dial_env egress_state Conn E :=
  {| ctx_err := λ s, Ctx_Err ctx (world s); deadline := Deadline ctx;
     ProxyDial.now := λ s, now (clock env) (world s); dial := dial_attempt ctx mark |}.

Definition dialBackend (ctx : Ctx W E) (host : string) (isIP : bool) (port : string) (mark : Z)
    (m : ConnectMetrics) (s : egress_state) : result (backend_error E) Conn * ConnectMetrics * egress_state :=
  match backendCandidates ctx host isIP mark s with
  | (Err e, s) => (Err e, m, s)
  | (Ok candidates, s) =>
      let '(r, _, m', s) := DialCandidates (Some (candidate_env ctx mark)) candidates port
                              (connectAttemptCap rt) (egressName (egressNames rt) mark) (Some m) s in
      let m := default m m' in
      match r with
      | Ok conn => (Ok conn, m, s)
      | Err e => (Err (DialError e), m, if isIP then s else invalidate_host s mark host)
      end
  end.

(** The context of one egress: its slice of what is left of the budget. *)
Definition egress_ctx (ctx : Ctx W E) (w : W) (left : nat) : Ctx W E :=
  match Deadline ctx with
  | Some d => WithTimeout (clock env) ctx w (BudgetSlice (time_sub d (now (clock env) w)) (Z.of_nat left))
  | None => ctx
  end.

Definition egress_result (denied failed : list (option string * backend_error E)) : egress_error E :=
  match failed, denied with
  | _ :: _, _ => EgressErrors failed
  | [], _ :: _ => EgressErrors denied
  | [], [] => NoEgress
  end.

Fixpoint egress_loop (ctx : Ctx W E) (host : string) (isIP : bool) (port : string) (marks : list Z)
    (denied failed : list (option string * backend_error E)) (m : ConnectMetrics) (s : egress_state) :
    result (egress_error E) Conn * ConnectMetrics * egress_state :=
  match marks with
  | [] => (Err (egress_result denied failed), m, s)
  | mark :: rest =>
      match Ctx_Err ctx (world s) with
      | Some e => (Err (egress_result denied (failed ++ [(None, CtxError e)])), m, s)
      | None =>
          match dialBackend (egress_ctx ctx (world s) (length marks)) host isIP port mark m s with
          | (Ok conn, m, s) => (Ok conn, m, s)
          | (Err e, m, s) =>
              let tagged := (Some (egressName (egressNames rt) mark), e) in
              if is_denied e then egress_loop ctx host isIP port rest (denied ++ [tagged]) failed m s
              else egress_loop ctx host isIP port rest denied (failed ++ [tagged]) m s
          end
      end
  end.
Definition dialEgresses (ctx : Ctx W E) (host : string) (isIP : bool) (port : string) (marks : list Z)
    (m : ConnectMetrics) (s : egress_state) : result (egress_error E) Conn * ConnectMetrics * egress_state :=
  egress_loop ctx host isIP port marks [] [] m s.

(** [pipe] up to the session; [current] is the router loaded now, [hm] the
    monitor as it is now. *)
Inductive pipe_outcome :=
| PipeDenied
| PipeDialError
| PipeCanceled
| PipeConnected (conn : Conn).
End dial_path.
Arguments egress_env : clear implicits.
Arguments egress_state : clear implicits.
Arguments pipe_outcome : clear implicits.

Definition pipe {W Conn E} `{UnicodeTables} (toASCII : string → option string) (env : egress_env W Conn E)
    (captured : router) (current : option router) (hm : option Monitor.Monitor) (self : option (gset Addr))
    (ctx : Ctx W E) (host : string) (isIP : bool) (port : string) (m : ConnectMetrics) (s : egress_state W E) :
    pipe_outcome Conn * ConnectMetrics * egress_state W E :=
  let rt := default captured current in
  let ms := marks hm (route toASCII rt host) in
  let self := default ∅ self in
  if negb (requestedHostAllowed (destination rt) host isIP (default 0%Z (head ms)) self) then (PipeDenied, m, s)
  else
    let dialCtx := WithTimeout (clock env) ctx (world s) (dialTimeout rt) in
    match dialEgresses env rt self dialCtx host isIP port ms m s with
    | (Ok backend, m, s) => (PipeConnected backend, m, s)
    | (Err e, m, s) =>
        (match Ctx_Err ctx (world s) with
         | Some _ => PipeCanceled
         | None => if any_denied e then PipeDenied else PipeDialError
         end, m, s)
    end.

(** ** What is dialled *)
Definition tcp_event (mark : Z) (port : string) (a : Addr) : dial_event :=
  {| ev_mark := mark; ev_network := "tcp"; ev_address := candidate_address port a |}.

(** An address the policy allows for the mark, and IPv4 when the mark is a tunnel's. *)
Definition permitted (rt : router) (self : gset Addr) (mark : Z) (a : Addr) : Prop :=
  addressAllowed (destination rt) a mark self = true ∧ (mark ≠ 0%Z → Is4 a = true).

Section dialled.
Context {W Conn E : Type} `{UnicodeTables} (env : egress_env W Conn E) (rt : router) (self : gset Addr).
Implicit Types (s : egress_state W E) (ctx : Ctx W E) (mk : Z).

Lemma select_allowed_spec s addrs mk out s' :
  select_allowed rt self s addrs mk = (out, s') →
  dialed s' = dialed s ∧
  ∀ a, a ∈ out → addressAllowed (destination rt) a mk self = true ∧ ∃ x, x ∈ addrs ∧ Unmap x = a.
Proof.
  unfold select_allowed. intros Hs.
  pose proof (Select_in (selector (sh s)) addrs (Some (λ a, addressAllowed (destination rt) a mk self))) as Hin.
  destruct (Select _ _ _) as [l sel]. simplify_eq/=. split; [done|].
  intros a Ha. destruct (Hin a Ha) as [(x&Hx&_&_&<-) Hal]. eauto.
Qed.

Lemma family_filter addrs mk x :
  x ∈ egressFamilyCandidates addrs mk → mk ≠ 0%Z → Is4 (Unmap x) = true.
Proof.
  unfold egressFamilyCandidates. intros Hx Hm. rewrite (proj2 (Z.eqb_neq _ _)) in Hx by done.
  apply list_elem_of_In, filter_In in Hx as [_ Hx]. unfold egressFamilyAllowed in Hx.
  by rewrite (proj2 (Z.eqb_neq _ _)) in Hx.
Qed.

Lemma backendCandidates_spec ctx host isIP mk s :
  let '(r, s') := backendCandidates env rt self ctx host isIP mk s in
  dialed s' = dialed s ∧ match r with Ok l => l ≠ [] ∧ Forall (permitted rt self mk) l | Err _ => True end.
Proof.
  unfold backendCandidates. destruct isIP.
  - destruct (ParseAddr host) as [addr|]; [|done].
    destruct (egressFamilyAllowed addr mk) eqn:Hf; cbn [negb]; [|done].
    destruct (select_allowed _ _ _ _ _) as [out s'] eqn:Hs. apply select_allowed_spec in Hs as [Hd Hin].
    destruct out as [|a out]; [done|]. split_and!; [done..|]. apply Forall_forall. intros b Hb.
    destruct (Hin b Hb) as (Hal&x&->%list_elem_of_singleton&<-). split; [done|]. intros Hm.
    unfold egressFamilyAllowed in Hf. by rewrite (proj2 (Z.eqb_neq _ _)) in Hf.
  - destruct (resolvers rt !! mk) as [resolver|]; [|done].
    destruct (resolve _ _ _ _ _ _ _) as [[[res err] x] w]. destruct err as [e|]; [done|].
    destruct (negb _); [done|]. destruct (egressFamilyCandidates (Addrs res) mk) as [|y fam] eqn:Hfam; [done|].
    rewrite <-Hfam. destruct (select_allowed _ _ _ _ _) as [out s'] eqn:Hs.
    apply select_allowed_spec in Hs as [Hd Hin]. destruct out as [|a out]; [done|].
    split_and!; [done..|]. apply Forall_forall. intros b Hb.
    destruct (Hin b Hb) as (Hal&z&Hz&<-). split; [done|]. by apply (family_filter _ _ _ Hz).
Qed.

Lemma dial_loop_dialed ctx mk port egress l i n errs m s :
  let '(r, _, _, s') := dial_loop (candidate_env env rt ctx mk) port egress l i n errs m s in
  ∃ pre, pre `prefix_of` l ∧ dialed s' = dialed s ++ (tcp_event mk port <$> pre) ∧ (is_ok r = true → pre ≠ []).
Proof.
  revert i n errs m s. induction l as [|a l IH]; intros i n errs m s; cbn [dial_loop].
  { destruct errs; exists []; rewrite app_nil_r; (split_and!; [apply prefix_nil|done|done]). }
  destruct (ctx_err _ _); [exists []; rewrite app_nil_r; (split_and!; [apply prefix_nil|done|done])|].
  set (t := attempt_timeout _ _ _). cbn [dial candidate_env]. unfold dial_attempt.
  destruct (dial_marked _ _ _ _ _ _ _ _) as [[r x] w]. destruct r as [conn|e].
  - exists [a]. split_and!; [apply prefix_cons, prefix_nil|done|done].
  - set (s1 := Build_egress_state _ _ _). specialize (IH (S i) (S n) (errs ++ [(Some (candidate_address port a), e)])
      ((λ m, record m false egress) <$> m) s1).
    destruct (dial_loop _ _ _ _ _ _ _ _ _) as [[[r n'] m'] s']. destruct IH as (pre&Hp&->&Hok).
    exists (a :: pre). split_and!; [by apply prefix_cons| |done]. by rewrite fmap_cons, cons_middle, app_assoc.
Qed.

(** The events of one egress: permitted addresses, all with its mark, at most
    [connectAttemptCap] of them. *)
Definition egress_events (port : string) (mk : Z) (evs : list dial_event) : Prop :=
  ∃ l, evs = tcp_event mk port <$> l ∧ Forall (permitted rt self mk) l ∧
    length l ≤ Z.to_nat (connectAttemptCap rt).

Lemma dialBackend_dialed ctx host isIP port mk m s :
  let '(r, _, s') := dialBackend env rt self ctx host isIP port mk m s in
  ∃ evs, dialed s' = dialed s ++ evs ∧ egress_events port mk evs ∧ (is_ok r = true → evs ≠ []).
Proof.
  unfold dialBackend. pose proof (backendCandidates_spec ctx host isIP mk s) as Hb.
  destruct (backendCandidates _ _ _ _ _ _ _ _) as [[l|e] s1]; destruct Hb as [<- Hl].
  2:{ exists []. rewrite app_nil_r. split_and!; [done|by exists []; split_and!; [|constructor|simpl; lia]|done]. }
  unfold DialCandidates. destruct (_ <=? 0)%Z.
  { exists []. rewrite app_nil_r. split_and!; [by destruct isIP| |done].
    exists []. split_and!; [done|constructor|simpl; lia]. }
  pose proof (dial_loop_dialed ctx mk port (egressName (egressNames rt) mk)
    (take (Z.to_nat (connectAttemptCap rt)) l) 0 0 [] (Some m) s1) as Hd.
  destruct (dial_loop _ _ _ _ _ _ _ _ _) as [[[r n] m'] s']. destruct Hd as (pre&Hp&Hd&Hok).
  assert (egress_events port mk (tcp_event mk port <$> pre)) as Hev.
  { exists pre. split_and!; [done| |].
    - apply Forall_forall. intros a Ha. destruct Hl as [_ Hl]. rewrite Forall_forall in Hl. apply Hl.
      eapply elem_of_sublist; [|apply sublist_take]. eapply elem_of_prefix; done.
    - apply prefix_length in Hp. rewrite length_take in Hp. lia. }
  destruct r as [conn|e]; exists (tcp_event mk port <$> pre).
  - split_and!; [done..|]. intros _. destruct pre; [by destruct Hok|done].
  - split_and!; [by destruct isIP|done|done].
Qed.

(** The egresses [l] are tried in order, the first with [left] of them left, and
    each fails with its error. *)
Inductive tried ctx (host : string) (isIP : bool) (port : string) :
  nat → list Z → list (option string * backend_error E) → ConnectMetrics → egress_state W E →
  ConnectMetrics → egress_state W E → Prop :=
| tried_nil left m s : tried ctx host isIP port left [] [] m s m s
| tried_cons left mk l e es m s m1 s1 m2 s2 :
    Ctx_Err ctx (world s) = None →
    dialBackend env rt self (egress_ctx env ctx (world s) left) host isIP port mk m s = (Err e, m1, s1) →
    tried ctx host isIP port (pred left) l es m1 s1 m2 s2 →
    tried ctx host isIP port left (mk :: l) ((Some (egressName (egressNames rt) mk), e) :: es) m s m2 s2.

Definition denied_errs (es : list (option string * backend_error E)) := List.filter (λ x, is_denied x.2) es.
Definition failed_errs (es : list (option string * backend_error E)) := List.filter (λ x, negb (is_denied x.2)) es.

(** The error that ends the loop early. *)
Definition ctx_tail ctx (post : list Z) s : list (option string * backend_error E) :=
  match post, Ctx_Err ctx (world s) with _ :: _, Some x => [(None, CtxError x)] | _, _ => [] end.

(** What the loop over [ms] has done when it returns [r] in [m'] and [s']. *)
Definition egress_post ctx host isIP port ms denied failed m s
    (r : result (egress_error E) Conn) (m' : ConnectMetrics) s' : Prop :=
  match r with
  | Ok conn => ∃ pre mk post es m1 s1, ms = pre ++ mk :: post ∧
      tried ctx host isIP port (length ms) pre es m s m1 s1 ∧ Ctx_Err ctx (world s1) = None ∧
      dialBackend env rt self (egress_ctx env ctx (world s1) (length (mk :: post))) host isIP port mk m1 s1
        = (Ok conn, m', s')
  | Err e => ∃ pre post es, ms = pre ++ post ∧ tried ctx host isIP port (length ms) pre es m s m' s' ∧
      (post ≠ [] → is_Some (Ctx_Err ctx (world s'))) ∧
      e = egress_result (denied ++ denied_errs es) (failed ++ failed_errs es ++ ctx_tail ctx post s')
  end.

Lemma egress_post_cons ctx host isIP port mk ms denied failed d f e m s m1 s1 r m' s' :
  let x := (Some (egressName (egressNames rt) mk), e) in
  Ctx_Err ctx (world s) = None →
  dialBackend env rt self (egress_ctx env ctx (world s) (S (length ms))) host isIP port mk m s = (Err e, m1, s1) →
  d = denied ++ denied_errs [x] → f = failed ++ failed_errs [x] →
  egress_post ctx host isIP port ms d f m1 s1 r m' s' →
  egress_post ctx host isIP port (mk :: ms) denied failed m s r m' s'.
Proof.
  intros x Hc Hd -> ->. destruct r as [conn|e'].
  - intros (pre&mk0&post&es&m2&s2&->&Ht&?&?). exists (mk :: pre), mk0, post, (x :: es), m2, s2.
    split_and!; [done|by econstructor|done|done].
  - intros (pre&post&es&->&Ht&?&->). exists (mk :: pre), post, (x :: es).
    split_and!; [done|by econstructor|done|]. unfold denied_errs, failed_errs, x. cbn [List.filter snd].
    destruct (is_denied e); cbn [negb]; by rewrite <-?app_assoc, ?app_nil_r.
Qed.

Lemma egress_loop_spec ctx host isIP port ms denied failed m s :
  let '(r, m', s') := egress_loop env rt self ctx host isIP port ms denied failed m s in
  egress_post ctx host isIP port ms denied failed m s r m' s'.
Proof.
  revert denied failed m s. induction ms as [|mk ms IH]; intros denied failed m s; cbn [egress_loop].
  { exists [], [], []. split_and!; [done|constructor|done|]. by rewrite !app_nil_r. }
  destruct (Ctx_Err ctx (world s)) as [x|] eqn:Hc.
  { exists [], (mk :: ms), []. split_and!; [done|constructor|by rewrite Hc|].
    unfold ctx_tail. rewrite Hc. by rewrite app_nil_r. }
  destruct (dialBackend _ _ _ _ _ _ _ _ _ _) as [[[conn|e] m1] s1] eqn:Hd.
  { exists [], mk, ms, [], m, s. split_and!; [done|constructor|done|done]. }
  set (x := (Some _, e)). destruct (is_denied e) eqn:He.
  - specialize (IH (denied ++ [x]) failed m1 s1).
    destruct (egress_loop _ _ _ _ _ _ _ _ _ _ _ _) as [[r m'] s'].
    eapply egress_post_cons; [exact Hc|exact Hd| | |exact IH]; unfold denied_errs, failed_errs; cbn [List.filter snd];
      rewrite He; [done|by rewrite app_nil_r].
  - specialize (IH denied (failed ++ [x]) m1 s1).
    destruct (egress_loop _ _ _ _ _ _ _ _ _ _ _ _) as [[r m'] s'].
    eapply egress_post_cons; [exact Hc|exact Hd| | |exact IH]; unfold denied_errs, failed_errs; cbn [List.filter snd];
      rewrite He; [by rewrite app_nil_r|done].
Qed.

Lemma tried_dialed ctx host isIP port left l es m s m' s' :
  tried ctx host isIP port left l es m s m' s' →
  ∃ evss, dialed s' = dialed s ++ concat evss ∧ Forall2 (egress_events port) l evss.
Proof.
  induction 1 as [|left mk l e es m s m1 s1 m2 s2 Hc Hd _ (evss&IH&Hev)].
  - exists []. by rewrite app_nil_r.
  - pose proof (dialBackend_dialed (egress_ctx env ctx (world s) left) host isIP port mk m s) as Hb.
    rewrite Hd in Hb. destruct Hb as (evs&Hs&He&_). exists (evs :: evss).
    split; [|by constructor]. by rewrite IH, Hs, <-app_assoc.
Qed.

Lemma egress_post_dialed ctx host isIP port ms denied failed m s r m' s' :
  egress_post ctx host isIP port ms denied failed m s r m' s' →
  ∃ pre evss, pre `prefix_of` ms ∧ dialed s' = dialed s ++ concat evss ∧
    Forall2 (egress_events port) pre evss ∧ (is_ok r = true → concat evss ≠ []).
Proof.
  destruct r as [conn|e].
  - intros (pre&mk&post&es&m1&s1&->&Ht&_&Hd). apply tried_dialed in Ht as (evss&Hs1&Hev).
    pose proof (dialBackend_dialed (egress_ctx env ctx (world s1) (length (mk :: post))) host isIP port mk m1 s1) as Hb.
    rewrite Hd in Hb. destruct Hb as (evs&Hs'&He&Hne).
    exists (pre ++ [mk]), (evss ++ [evs]). split_and!.
    + exists post. by rewrite <-app_assoc.
    + by rewrite Hs', Hs1, concat_app, <-app_assoc; simpl; rewrite app_nil_r.
    + apply Forall2_app; [done|by repeat constructor].
    + intros _. rewrite concat_app. simpl. rewrite app_nil_r. intros [_ ?]%app_eq_nil. by apply Hne.
  - intros (pre&post&es&->&Ht&_). apply tried_dialed in Ht as (evss&Hs1&Hev).
    exists pre, evss. split_and!; [by exists post|done|done|done].
Qed.

Lemma failed_errs_nil es : failed_errs es = [] ↔ Forall (λ x, is_denied x.2 = true) es.
Proof.
  unfold failed_errs. induction es as [|x es IH]; simpl; [by split|].
  rewrite Forall_cons, <-IH. destruct (is_denied x.2); simpl; naive_solver.
Qed.
Lemma denied_errs_nil es : Forall (λ x, is_denied x.2 = true) es → denied_errs es = es.
Proof.
  unfold denied_errs. induction 1 as [|x es Hx _ IH]; simpl; [done|]. by rewrite Hx, IH.
Qed.
Lemma failed_errs_denied es : existsb (λ x, is_denied x.2) (failed_errs es) = false.
Proof.
  unfold failed_errs. induction es as [|x es IH]; simpl; [done|].
  destruct (is_denied x.2) eqn:Hx; simpl; [done|]. by rewrite Hx, IH.
Qed.

Lemma egress_result_denied ctx es post s :
  (post ≠ [] → is_Some (Ctx_Err ctx (world s))) →
  let e := egress_result (denied_errs es) (failed_errs es ++ ctx_tail ctx post s) in
  (any_denied e = true ↔ es ≠ [] ∧ post = [] ∧ Forall (λ x, is_denied x.2 = true) es) ∧
  (e = NoEgress ↔ es = [] ∧ post = []).
Proof.
  intros Hp e. destruct (decide (post = [])) as [->|Hne].
  - unfold e, ctx_tail. rewrite app_nil_r. destruct (failed_errs es) as [|x l] eqn:Hf.
    + apply failed_errs_nil in Hf as Hall. rewrite denied_errs_nil by done.
      destruct es as [|x es]; simpl; [naive_solver|]. inversion_clear Hall as [|?? Hx Hes]. rewrite Hx.
      split; [|naive_solver]. split; [intros _|done]. split_and!; [done..|by constructor].
    + pose proof (failed_errs_denied es) as Hd. rewrite Hf in Hd.
      assert (¬ Forall (λ x, is_denied x.2 = true) es) by (rewrite <-failed_errs_nil; by rewrite Hf).
      assert (es ≠ []) by (by intros ->). unfold any_denied, egress_result. rewrite Hd. naive_solver.
  - destruct (Hp Hne) as [x Hx]. unfold e, ctx_tail. rewrite Hx. destruct post as [|p post]; [done|].
    pose proof (failed_errs_denied es) as Hd.
    destruct (failed_errs es) as [|y l]; simpl in *; [by repeat split; naive_solver|].
    rewrite existsb_app, orb_assoc, Hd. simpl. naive_solver.
Qed.
End dialled.

(** C13: where the proxy connects.  For a request for [host], the sockets opened
    follow the failover order of the route of [host] in the router that is
    current now: each egress opens at most [connectAttemptCap] of them, all
    stamped with its mark, all to addresses the destination policy allows for
    that mark, and only to IPv4 addresses when the mark is a tunnel's.  No other
    socket is opened, whatever the resolvers answer. *)
Theorem pipe_permitted {W Conn E} `{UnicodeTables} toASCII (env : egress_env W Conn E)
    captured current hm self ctx host isIP port m s :
  let rt := default captured current in
  let '(o, _, s') := pipe toASCII env captured current hm self ctx host isIP port m s in
  ∃ pre evss, pre `prefix_of` marks hm (route toASCII rt host) ∧ dialed s' = dialed s ++ concat evss ∧
    Forall2 (egress_events rt (default ∅ self) port) pre evss ∧
    (∀ conn, o = PipeConnected conn → concat evss ≠ []).
Proof.
  intros rt. unfold pipe. fold rt. destruct (negb _).
  { exists [], []. rewrite app_nil_r. split_and!; [apply prefix_nil|done|constructor|done]. }
  set (ms := marks _ _). set (c := WithTimeout _ _ _ _). unfold dialEgresses.
  pose proof (egress_loop_spec env rt (default ∅ self) c host isIP port ms [] [] m s) as Hl.
  destruct (egress_loop _ _ _ _ _ _ _ _ _ _ _ _) as [[r m'] s'].
  apply egress_post_dialed in Hl as (pre&evss&?&?&?&Hok).
  destruct r as [conn|e]; exists pre, evss; (split_and!; [done..|]); [by auto|].
  destruct (Ctx_Err ctx (world s')); [done|]. by destruct (any_denied e).
Qed.

(** Failover between egresses.  The marks are dialled in order, each under
    its slice of the budget that is left, until one connects.  A failure is a
    denial exactly when there was an egress and every one of them denied the
    destination; one real dial failure, or the end of the context, makes it a
    dial error that lists the failures alone. *)
Theorem dialEgresses_outcome {W Conn E} `{UnicodeTables} (env : egress_env W Conn E) rt self
    ctx host isIP port ms m s :
  let '(r, m', s') := dialEgresses env rt self ctx host isIP port ms m s in
  egress_post env rt self ctx host isIP port ms [] [] m s r m' s' ∧
  match r with
  | Ok _ => True
  | Err e => ∃ pre post es, ms = pre ++ post ∧
      tried env rt self ctx host isIP port (length ms) pre es m s m' s' ∧
      (any_denied e = true ↔ ms ≠ [] ∧ post = [] ∧ Forall (λ x, is_denied x.2 = true) es) ∧
      (e = NoEgress ↔ ms = [])
  end.
Proof.
  unfold dialEgresses. pose proof (egress_loop_spec env rt self ctx host isIP port ms [] [] m s) as Hl.
  destruct (egress_loop _ _ _ _ _ _ _ _ _ _ _ _) as [[r m'] s']. split; [done|].
  destruct r as [conn|e]; [done|]. destruct Hl as (pre&post&es&Hms&Ht&Hpost&->).
  exists pre, post, es. assert (length es = length pre) as Hlen by (clear -Ht; induction Ht; simpl; lia).
  destruct (egress_result_denied ctx es post s' Hpost) as [Hd Hn]. rewrite !app_nil_l, Hd, Hn.
  assert (∀ P, es ≠ [] ∧ post = [] ∧ P ↔ ms ≠ [] ∧ post = [] ∧ P) as Hes.
  { intros P. subst ms. destruct es, pre; simplify_eq/=; [|naive_solver]. naive_solver. }
  split_and!; [done..|apply Hes|]. subst ms. destruct es, pre; simplify_eq/=; naive_solver.
Qed.

(** ** The egress of a host under a loaded configuration *)

(** The egress that the configuration names for a host. *)
Definition config_via `{UnicodeTables} (toASCII : string → option string) (c : Config.Config) (host : string) : string :=
  let host := match canonicalHost toASCII host false with Ok (normalized, _) => normalized | Err _ => host end in
  default (px_Default (c_Proxy c))
    (Lookup (add_rules ((λ r, (r_Via r, r_Suffixes r)) <$> px_Rules (c_Proxy c))) host).

(** That egress said without the matcher: the suffixes of the rules in the order of the
    configuration, each with the rule's egress; the longest one that is the canonical
    host or follows one of its dots decides, of equal ones the first, and without any the
    default does. *)
Definition names_egress `{UnicodeTables} (toASCII : string → option string) (c : Config.Config) (host via : string) : Prop :=
  let host := match canonicalHost toASCII host false with Ok (normalized, _) => normalized | Err _ => host end in
  let rules := r ← px_Rules (c_Proxy c); (λ suf, (suf, r_Via r)) <$> r_Suffixes r in
  (∃ i suf, rules !! i = Some (suf, via) ∧ label_suffix suf host ∧ suf ≠ "" ∧
     ∀ j suf' via', rules !! j = Some (suf', via') → label_suffix suf' host → suf' ≠ "" →
       String.length suf' < String.length suf ∨ suf' = suf ∧ i ≤ j) ∨
  via = px_Default (c_Proxy c) ∧ ∀ j suf via', rules !! j = Some (suf, via') → label_suffix suf host → suf = "".
Lemma config_via_names `{UnicodeTables} toASCII c host : names_egress toASCII c host (config_via toASCII c host).
Proof.
  unfold names_egress, config_via. set (h := match canonicalHost _ _ _ with Ok _ => _ | Err _ => _ end). cbv zeta.
  set (rules := (λ r, (r_Via r, r_Suffixes r)) <$> px_Rules (c_Proxy c)).
  assert ((r ← px_Rules (c_Proxy c); (λ suf, (suf, r_Via r)) <$> r_Suffixes r) = flat_rules rules) as ->.
  { unfold flat_rules, rules. induction (px_Rules (c_Proxy c)) as [|r l IH]; [done|]. cbn. by rewrite IH. }
  destruct (Lookup (add_rules rules) h) as [v|] eqn:E; [left; by apply add_rules_Lookup|right]. split; [done|].
  intros j suf via' Hj Hs. destruct (decide (suf = "")) as [|Hne]; [done|exfalso].
  destruct (add_rules_values rules) as (sm&Ha&Hk). rewrite Ha in E.
  pose proof (Lookup_most_specific sm h) as Hl. rewrite E in Hl. specialize (Hl suf Hs Hne). rewrite Hk in Hl.
  apply list_elem_of_lookup_2 in Hj. clear -Hl Hj. induction (flat_rules rules) as [|[s w] l IH]; [by apply elem_of_nil in Hj|].
  cbn in Hl. case_decide; [done|]. apply elem_of_cons in Hj as [[= <- _]|?]; auto.
Qed.

(** The resolver of an egress: the system's for the direct route, and for a tunnel one
    that asks the tunnel's servers, or the proxy's where the tunnel has none, over
    sockets with the tunnel's mark. *)
Definition own_resolver (c : Config.Config) (mk : Z) (r : egressResolver) : Prop :=
  match r with
  | SystemResolver _ => mk = 0%Z
  | TunnelResolver tr _ => mk ≠ 0%Z ∧ ∃ t, t ∈ c_Tunnels c ∧ t_Fwmark t = mk ∧
      let servers := if bool_decide (t_Resolver t = []) then orDefault (px_Resolver (c_Proxy c)) else t_Resolver t in
      nr_server <$> udp tr = servers ∧ nr_server <$> tcp tr = servers ∧ Forall (λ nr, nr_mark nr = mk) (udp tr ++ tcp tr)
  end.
Lemma resolversFor_own c t : NoDup (t_Fwmark <$> c_Tunnels c) → t ∈ c_Tunnels c →
  resolversFor c (t_Fwmark t) = if bool_decide (t_Resolver t = []) then orDefault (px_Resolver (c_Proxy c)) else t_Resolver t.
Proof.
  intros Hnd Ht. unfold resolversFor. destruct (list_find _ _) as [[i t']|] eqn:Hf.
  - apply list_find_Some in Hf as (Hi&[Hm Hr]&_). assert (t' = t) as ->.
    { apply list_elem_of_lookup in Ht as [j Hj]. assert (i = j) as ->; [|congruence].
      eapply (NoDup_lookup (t_Fwmark <$> c_Tunnels c)); [done|by rewrite list_lookup_fmap, Hi|by rewrite list_lookup_fmap, Hj; cbn; rewrite Hm]. }
    by rewrite bool_decide_false.
  - rewrite list_find_None, Forall_forall in Hf. destruct (decide (t_Resolver t = [])) as [He|Hne]; [by rewrite bool_decide_true|].
    destruct (Hf t Ht). done.
Qed.
Lemma newResolvers_own c mk : NoDup (t_Fwmark <$> c_Tunnels c) → 0%Z ∉ t_Fwmark <$> c_Tunnels c →
  mk = 0%Z ∨ mk ∈ t_Fwmark <$> c_Tunnels c → ∃ r, newResolvers c !! mk = Some r ∧ own_resolver c mk r.
Proof.
  intros Hnd H0 Hmk. unfold newResolvers.
  assert (∀ ts m, foldl (λ (m : gmap Z egressResolver) t, <[t_Fwmark t := tunnel_resolver c (t_Fwmark t)]> m) m ts !! mk =
    if decide (mk ∈ t_Fwmark <$> ts) then Some (tunnel_resolver c mk) else m !! mk) as Hfold.
  { induction ts as [|t ts IH]; intros m; cbn [foldl]; [by rewrite decide_False by apply not_elem_of_nil|]. rewrite IH, fmap_cons.
    destruct (decide (mk ∈ t_Fwmark <$> ts)) as [Hin|Hin]; [rewrite decide_True by (by right); done|].
    destruct (decide (t_Fwmark t = mk)) as [<-|Hne]; [rewrite lookup_insert_eq, decide_True by left; done|].
    rewrite lookup_insert_ne, decide_False by (done || (intros [?|?]%elem_of_cons; congruence)). done. }
  rewrite Hfold. destruct (decide (mk ∈ t_Fwmark <$> c_Tunnels c)) as [Hin|Hin].
  - eexists. split; [done|]. split; [by intros ->|]. pose proof Hin as (t&->&Ht)%list_elem_of_fmap. exists t. split; [done|]. split; [done|].
    cbv zeta. rewrite <-(resolversFor_own c t Hnd Ht). cbn [newTunnelResolver udp tcp]. rewrite <-!list_fmap_compose.
    split_and!; [by induction (resolversFor c _) as [|x l IH]; cbn; [|f_equal]..|]. by rewrite Forall_app, !Forall_fmap, !Forall_forall.
  - destruct Hmk as [->|?]; [|done]. eexists. rewrite lookup_singleton_eq. by split.
Qed.
Lemma loaded_marks `{UnicodeTables} toASCII ParseKey decode raw c : parseConfig toASCII ParseKey decode raw = Ok c →
  NoDup (t_Fwmark <$> c_Tunnels c) ∧ 0%Z ∉ t_Fwmark <$> c_Tunnels c.
Proof.
  intros (_&seen&groups&_&Hinv)%parseConfig_validated. split; [apply (inv_marks_nodup _ _ Hinv)|].
  intros (t&Hm&Ht)%list_elem_of_fmap. pose proof (inv_ok _ _ Hinv) as Hok. rewrite Forall_forall in Hok.
  pose proof (ok_fwmark _ (Hok t Ht)). lia.
Qed.

(** A mark of the egress [via]: no mark for the direct route, else the mark of the
    tunnel of that name or of a member of the group of that name. *)
Definition egress_of (c : Config.Config) (via : string) (mk : Z) : Prop :=
  if bool_decide (via ∈ ["direct"; ""]) then mk = 0%Z
  else mk ≠ 0%Z ∧ ∃ t, t ∈ c_Tunnels c ∧ t_Fwmark t = mk ∧
    (t_Name t = via ∨ ∃ g, g ∈ c_Groups c ∧ Config.g_Name g = via ∧ t_Name t ∈ g_Members g).

(** The monitor the router was built with has since polled and heard of probes. *)
Definition monitor_runs (Cl : Type) `{Monitor.DeviceClient Cl} (hm hm' : option Monitor.Monitor) : Prop :=
  match hm, hm' with
  | None, None => True
  | Some m, Some m' => ∃ cl cl' : Cl, rtc Health.monitor_step (m, cl) (m', cl')
  | _, _ => False
  end.

Lemma route_via `{UnicodeTables} toASCII {E} c hm generation rt (x : shared E) host :
  newRouterGeneration c hm generation = Some (rt, x) →
  route toASCII rt host = markRefFor c hm (config_via toASCII c host) ∧ resolvers rt = newResolvers c.
Proof.
  unfold newRouterGeneration. destruct (newDNSCacheForConfig _ _) as [d|]; [|done]. intros [= <- <-].
  split; [|done]. unfold route, config_via. cbn [suffixes def].
  set (h := match canonicalHost _ _ _ with Ok _ => _ | Err _ => _ end).
  pose proof (Lookup_map (markRefFor c hm) ((λ r, (r_Via r, r_Suffixes r)) <$> px_Rules (c_Proxy c)) h) as Hm.
  rewrite <-list_fmap_compose in Hm. cbn in Hm. unfold compose in Hm. cbn in Hm. rewrite Hm. clear Hm.
  by destruct (Lookup _ h).
Qed.

Lemma NewHealthMonitor_cases c hm :
  NewHealthMonitor true c = Ok hm →
  c_Groups c = [] ∧ hm = None ∨ ∃ m, Monitor.New false (monitor_config c) = Ok m ∧ hm = Some m.
Proof.
  unfold NewHealthMonitor. destruct (c_Groups c); [intros [= <-]; by left|].
  destruct (Monitor.New false (monitor_config c)) as [m|]; [|done]. intros [= <-]. right. by exists m.
Qed.

Section loaded.
Context `{UnicodeTables} (toASCII : string → option string) (ParseKey : string → bool).
Context (c : Config.Config) (seen : nat * tunnels_seen) (groups : nat * gset string).
Hypothesis Hval : validated toASCII ParseKey c seen groups (px_Rules (c_Proxy c)).
Hypothesis Hinv : tunnels_inv (c_Tunnels c) seen.
Hypothesis Htunnel : "direct" ∉ t_Name <$> c_Tunnels c.
Hypothesis Hgroup : "direct" ∉ Config.g_Name <$> c_Groups c.

Lemma tunnel_mark n : n ∈ t_Name <$> c_Tunnels c →
  n ≠ "" ∧ ∃ t, t ∈ c_Tunnels c ∧ t_Name t = n ∧ markFor c n = t_Fwmark t ∧ (1 ≤ t_Fwmark t ≤ u32_max)%Z.
Proof.
  intros Hn. pose proof Hn as (t&->&Ht)%list_elem_of_fmap.
  pose proof (inv_ok _ _ Hinv) as Hok. rewrite Forall_forall in Hok. destruct (Hok t Ht) as [[Hname _] _ Hm _ _].
  apply interfaceNameRE_nonempty in Hname. split; [done|]. exists t. split_and!; [done..| |lia|lia].
  apply markFor_tunnel; [apply (inv_nodup _ _ Hinv)|done|done|]. by intros Heq; rewrite Heq in Hn.
Qed.

Lemma config_via_valid host :
  let via := config_via toASCII c host in
  via ∈ ["direct"; ""] ∨ via ∈ t_Name <$> c_Tunnels c ∨ via ∈ Config.g_Name <$> c_Groups c.
Proof.
  intros via. assert (valid_via (seenName seen.2) groups.2 via = true) as Hv.
  { unfold via, config_via. destruct (Lookup _ _) as [v|] eqn:Hl; [|apply (v_default _ _ _ _ _ _ Hval)].
    apply Lookup_in in Hl. rewrite <-list_fmap_compose in Hl. apply list_elem_of_fmap in Hl as (r&->&Hr).
    destruct (validate_rules_spec _ _ _ _ _ (v_rules _ _ _ _ _ _ Hval)) as [Hrs _].
    rewrite Forall_forall in Hrs. by apply Hrs. }
  destruct (validate_groups_inv _ _ _ (v_groups _ _ _ _ _ _ Hval)) as [Hgn _].
  unfold valid_via, is_empty in Hv. rewrite !orb_true_iff, !bool_decide_eq_true, (inv_names _ _ Hinv), Hgn in Hv.
  rewrite !elem_of_cons, elem_of_nil. tauto.
Qed.

(** A mark that a member of a group publishes. *)
Lemma member_mark g x :
  g ∈ c_Groups c → x ∈ Monitor.memberMarks (Monitor.Members (monitor_group c g)) →
  egress_of c (Config.g_Name g) x ∧ x ∈ t_Fwmark <$> c_Tunnels c.
Proof.
  intros Hg Hx. unfold Monitor.memberMarks in Hx. cbn in Hx. rewrite <-list_fmap_compose in Hx.
  apply list_elem_of_fmap in Hx as (n&->&Hn). cbn.
  destruct (validate_groups_inv _ _ _ (v_groups _ _ _ _ _ _ Hval)) as [_ Hgo].
  rewrite Forall_forall in Hgo. destruct (Hgo g Hg) as (Hname&_&_&Hms&_). rewrite Forall_forall in Hms.
  destruct (tunnel_mark n) as (_&t&Ht&<-&->&Hm); [by apply (inv_names _ _ Hinv), Hms|].
  rewrite wrap32_id by (unfold is_u32; unfold u32_max in Hm; lia). split; [|by apply list_elem_of_fmap_2].
  unfold egress_of. rewrite bool_decide_eq_false_2.
  - split; [lia|]. exists t. split_and!; [done..|]. right. by exists g.
  - rewrite !elem_of_cons, elem_of_nil. intros [Hd|[Hd|[]]]; [|done].
    apply Hgroup. rewrite <-Hd. by apply list_elem_of_fmap_2.
Qed.

Lemma markRefFor_marks `{Monitor.DeviceClient Cl} hm hm' via :
  NewHealthMonitor true c = Ok hm → monitor_runs Cl hm hm' →
  via ∈ ["direct"; ""] ∨ via ∈ t_Name <$> c_Tunnels c ∨ via ∈ Config.g_Name <$> c_Groups c →
  let ms := marks hm' (markRefFor c hm via) in
  ms ≠ [] ∧ ∀ x, x ∈ ms → egress_of c via x ∧ (x = 0%Z ∨ x ∈ t_Fwmark <$> c_Tunnels c).
Proof.
  intros Hnew Hruns Hvia ms.
  assert (via ∉ Config.g_Name <$> c_Groups c →
    [markFor c via] ≠ [] ∧ ∀ x, x ∈ [markFor c via] →
      egress_of c via x ∧ (x = 0%Z ∨ x ∈ t_Fwmark <$> c_Tunnels c)) as Hstatic.
  { intros Hng. split; [done|]. intros x ->%list_elem_of_singleton. destruct Hvia as [Hd|[Ht|?]]; [|..|done].
    - assert (markFor c via = 0%Z) as ->.
      { rewrite !elem_of_cons, elem_of_nil in Hd. by destruct Hd as [->|[->|[]]]. }
      unfold egress_of. rewrite bool_decide_eq_true_2 by done. auto.
    - destruct (tunnel_mark via Ht) as (Hne&t&Hin&Hn&->&Hm). split; [|right; by apply list_elem_of_fmap_2].
      unfold egress_of. rewrite bool_decide_eq_false_2.
      + split; [lia|]. exists t. split_and!; [done..|by left].
      + rewrite !elem_of_cons, elem_of_nil. intros [->|[->|[]]]; done. }
  apply NewHealthMonitor_cases in Hnew as [[Hgs ->]|(m&Hm&->)].
  { destruct hm'; [done|]. apply Hstatic. rewrite Hgs. by intros ?%elem_of_nil. }
  destruct hm' as [m'|]; [|done]. destruct Hruns as (cl&cl'&Hr).
  destruct (monitor_reachable _ _ _ _ _ Hm Hr) as ([Hok _]&[Hn1 _]&Hgr&Hby). cbn [fst] in *.
  destruct (New_names _ _ _ Hm) as [[_ Hn2] Hgr0]. unfold ms, markRefFor.
  destruct (Monitor.byName m !! via) as [i|] eqn:Hi.
  - rewrite <-Hby in Hi. destruct (Hn1 _ _ Hi) as (g&Hg&<-). unfold marks. cbn [order load]. rewrite Hg.
    rewrite Forall_forall in Hok. destruct (Hok g) as (_&_&(ch&rest&Hord&_)&Hin); [by eapply list_elem_of_lookup_2|].
    assert (Monitor.group g ∈ monitor_group c <$> c_Groups c) as (g'&Heq&Hg')%list_elem_of_fmap.
    { change (monitor_group c <$> c_Groups c) with (Monitor.Groups (monitor_config c)). rewrite <-Hgr.
      apply list_elem_of_fmap_2. by eapply list_elem_of_lookup_2. }
    rewrite Hord. split; [done|]. rewrite <-Hord. intros x Hx. apply Hin in Hx. rewrite Heq in *.
    destruct (member_mark g' x Hg' Hx). auto.
  - apply Hstatic. intros (g&->&Hg)%list_elem_of_fmap.
    assert (monitor_group c g ∈ Monitor.group <$> Monitor.groups m) as (gs&Heq&Hin)%list_elem_of_fmap.
    { rewrite Hgr0. by apply list_elem_of_fmap_2. }
    destruct (Hn2 gs Hin) as [j Hj]. rewrite <-Heq in Hj. cbn in Hj. by rewrite Hi in Hj.
Qed.
End loaded.

(** C11: the egress of a host.  Under a loaded configuration in which no tunnel and no
    group is called [direct], however the health monitor has moved since, a host leaves
    through the egress that the longest suffix of the rules names for it, the first of
    equal ones, or else the default: unmarked for [direct], and otherwise only with the
    nonzero marks of the tunnel of that name or of the members of the group of that
    name.  There is always a mark to try, and the resolver of every mark tried is the
    system's for no mark and otherwise one that asks that tunnel's own servers over
    sockets with that mark. *)
Theorem route_egress `{UnicodeTables} `{Monitor.DeviceClient Cl} toASCII ParseKey decode raw c hm hm'
    {E} generation rt (x : shared E) host :
  parseConfig toASCII ParseKey decode raw = Ok c →
  ("direct" ∉ t_Name <$> c_Tunnels c) → ("direct" ∉ Config.g_Name <$> c_Groups c) →
  NewHealthMonitor true c = Ok hm → monitor_runs Cl hm hm' →
  newRouterGeneration c hm generation = Some (rt, x) →
  let ms := marks hm' (route toASCII rt host) in
  ms ≠ [] ∧ ∃ via, names_egress toASCII c host via ∧
    ∀ mk, mk ∈ ms → egress_of c via mk ∧ ∃ r, resolvers rt !! mk = Some r ∧ own_resolver c mk r.
Proof.
  intros Hp Ht Hg Hnew Hruns Hrt. destruct (parseConfig_validated toASCII ParseKey decode raw c Hp) as (_&seen&groups&Hval&Hinv).
  destruct (route_via toASCII c hm generation rt x host Hrt) as [-> ->].
  destruct (markRefFor_marks toASCII ParseKey c seen groups Hval Hinv Ht Hg hm hm' (config_via toASCII c host) Hnew Hruns)
    as [Hne Hms]; [by eapply config_via_valid|]. destruct (loaded_marks toASCII ParseKey decode raw c Hp) as [Hnd Hzero].
  split; [done|]. exists (config_via toASCII c host). split; [apply config_via_names|].
  intros mk Hmk. destruct (Hms mk Hmk) as [He Hin]. split; [done|]. by apply newResolvers_own.
Qed.

#[local] Existing Instance demo_tables.
#[local] Instance idle_client : Monitor.DeviceClient unit := {| Monitor.Device := λ cl _, (Some [], cl) |}.

(** The marks tried for a host by the monitor and the router of a configuration,
    before the first poll. *)
Definition demo_marks (c : Config.Config) (host : string) : option (list Z) :=
  match NewHealthMonitor true c with
  | Ok hm => match newRouterGeneration (E := unit) c hm 1 with
             | Some (rt, _) => Some (marks hm (route Some rt host))
             | None => None
             end
  | Err _ => None
  end.

Lemma demo_marks_eu : demo_marks (demo_loaded "wg0") "www.example.com" = Some [100%Z; 101%Z].
Proof. vm_compute. reflexivity. Qed.

Lemma demo_no_direct :
  ("direct" ∉ t_Name <$> c_Tunnels (demo_loaded "wg0")) ∧ ("direct" ∉ Config.g_Name <$> c_Groups (demo_loaded "wg0")).
Proof.
  split; vm_compute; [intros [[=]|[[=]|[]%elem_of_nil]%elem_of_cons]%elem_of_cons|].
  by intros [[=]|[]%elem_of_nil]%elem_of_cons.
Qed.

Lemma route_egress_witness :
  ∃ hm rt (x : shared unit), NewHealthMonitor true (demo_loaded "wg0") = Ok hm ∧
    newRouterGeneration (demo_loaded "wg0") hm 1 = Some (rt, x) ∧
    ∃ r, resolvers rt !! 101%Z = Some r ∧ own_resolver (demo_loaded "wg0") 101 r.
Proof.
  pose proof demo_marks_eu as Hm. unfold demo_marks in Hm.
  destruct (NewHealthMonitor true (demo_loaded "wg0")) as [hm|] eqn:Hnew; [|discriminate].
  destruct (newRouterGeneration (demo_loaded "wg0") hm 1) as [[rt x]|] eqn:Hrt; [|discriminate].
  exists hm, rt, x. split; [reflexivity|]. split; [exact Hrt|]. injection Hm as Hm.
  destruct (route_egress (Cl := unit) Some (λ _, true) _ "" (demo_loaded "wg0") hm hm 1 rt x "www.example.com"
    demo_parses (proj1 demo_no_direct) (proj2 demo_no_direct) Hnew) as (_&via&_&Hms); [|exact Hrt|].
  - destruct hm; [exists (), (); constructor|exact I].
  - apply Hms. rewrite Hm. right. left.
Defined.

(** Without that condition it fails: a loaded configuration in which a group has
    a tunnel called [direct] as its member sends the group's hosts out unmarked. *)
Example direct_member_unmarked :
  config_via Some (demo_loaded "direct") "www.example.com" = "eu" ∧
  demo_marks (demo_loaded "direct") "www.example.com" = Some [0%Z; 101%Z].
Proof. vm_compute. done. Qed.
