(* ===== verification/Fetch.v ===== *)
(** * routesrc.go, dial_linux.go: how a source or a probe endpoint is reached

    [httpClient] builds a client whose connections leave directly or through one
    tunnel.  The exchange of DNS messages, the sockets and the HTTP and TLS layers
    above the connection are not part of the sources: the first two are parameters. *)
From S2P Require Import Prelude Netip ProxyDial DnsCache ProxyPolicy Config Startup Context TunnelDns Router.

Definition fetchTimeout : Z := 30 * second.

(** The client: what [DialContext] captures.  The selector's cursor is in the state. *)
Record http_client := {
  hc_via : string; hc_mark : Z; hc_resolverTimeout : Z; hc_attemptCap : Z; hc_strategy : string;
  hc_destination : destinationPolicy; hc_resolver : tunnelResolver; hc_keepAlives : bool; hc_timeout : Z }.
Definition httpClient (base : Config) (via : string) : http_client :=
  let mark := markFor base via in
  let resolverTimeout := durationSeconds (px_DNSResolverTimeout (c_Proxy base)) defaultDNSResolverTimeout in
  let destination := newDestinationPolicy base in
  {| hc_via := via; hc_mark := mark; hc_resolverTimeout := resolverTimeout;
     hc_attemptCap := positiveOr (px_ConnectAttemptCap (c_Proxy base)) defaultConnectAttemptCap;
     hc_strategy := let s := px_AddressFamilyStrategy (c_Proxy base) in if Valid s then s else Interleave;
     hc_destination := destination;
     hc_resolver := newTunnelResolver (resolversFor base mark) mark resolverTimeout (Some (answerAllowed destination mark));
     hc_keepAlives := true; hc_timeout := fetchTimeout |}.
Definition probeHTTPClient (base : Config) (via : string) : http_client :=
  let c := httpClient base via in
  {| hc_via := hc_via c; hc_mark := hc_mark c; hc_resolverTimeout := hc_resolverTimeout c; hc_attemptCap := hc_attemptCap c;
     hc_strategy := hc_strategy c; hc_destination := hc_destination c; hc_resolver := hc_resolver c; hc_keepAlives := false;
     hc_timeout := hc_timeout c |}.
Definition new_selector (c : http_client) : RotatingSelector :=
  {| Strategy := hc_strategy c; MaxAttempts := hc_attemptCap c; cursor := 0 |}.

Inductive fetch_error (E : Type) :=
| FetchDial (e : E)
| BadAddress
| FetchNoIPv4
| FetchDenied
| FetchLookup (errs : list E)
| FetchCandidates (e : dial_error E).
Arguments FetchDial {E} e.
Arguments BadAddress {E}.
Arguments FetchNoIPv4 {E}.
Arguments FetchDenied {E}.
Arguments FetchLookup {E} errs.
Arguments FetchCandidates {E} e.

Section fetch.
Context {W Conn E : Type} `{UnicodeTables} `{LookupError E}.

(** [fe_dial] is [net.Dialer]: the mark its [Control] sets on the socket, if any, the
    timeout, the network and the address. *)
Record fetch_env := {
  fe_clock : Clock W E;
  fe_lookup : W → Ctx W E → netResolver → string → string → option (list Addr) * option E * W;
  fe_dial : W → Ctx W E → option Z → Z → string → string → result E Conn * W }.
Record fetch_state := { fs_selector : RotatingSelector; fs_world : W; fs_dialed : list dial_event }.
Context (env : fetch_env) (c : http_client).

(** A connection is attempted; an unmarked one is recorded with the mark 0. *)
Definition open (ctx : Ctx W E) (mark timeout : Z) (network address : string) (s : fetch_state) : result E Conn * fetch_state :=
  let '(r, w) := fe_dial env (fs_world s) ctx (if (mark =? 0)%Z then None else Some mark) timeout network address in
  (r, {| fs_selector := fs_selector s; fs_world := w;
         fs_dialed := fs_dialed s ++ [{| ev_mark := mark; ev_network := network; ev_address := address |}] |}).
Definition dialMarkedContext (ctx : Ctx W E) (network address : string) (mark timeout : Z) (s : fetch_state) : result E Conn * fetch_state :=
  open ctx mark timeout network address s.

(** The function given to [DialCandidates], under the context of the attempt. *)
Definition fetch_attempt (ctx : Ctx W E) (s : fetch_state) (timeout : option Z) (address : string) : result E Conn * fetch_state :=
  let ctx := match timeout with Some d => WithTimeout (fe_clock env) ctx (fs_world s) d | None => ctx end in
  dialMarkedContext ctx "tcp" address (hc_mark c) fetchTimeout s.
Definition fetch_candidates (ctx : Ctx W E) : dial_env fetch_state Conn E :=
  {| ctx_err := λ s, Ctx_Err ctx (fs_world s); deadline := Deadline ctx;
     ProxyDial.now := λ s, now (fe_clock env) (fs_world s); dial := fetch_attempt ctx |}.

(** A host name: resolved through the tunnel, the allowed addresses dialled in order. *)
Definition dial_host (ctx : Ctx W E) (host port : string) (s : fetch_state) : result (fetch_error E) Conn * fetch_state :=
  let resolveCtx := WithTimeout (fe_clock env) ctx (fs_world s) (hc_resolverTimeout c) in
  let '(addrs, errs, w) := LookupNetIP (fe_clock env) (fe_lookup env) (hc_resolver c) resolveCtx "ip4" host (fs_world s) in
  let s := {| fs_selector := fs_selector s; fs_world := w; fs_dialed := fs_dialed s |} in
  match errs with
  | _ :: _ => (Err (FetchLookup errs), s)
  | [] =>
      let '(candidates, sel) := Select (fs_selector s) (default [] addrs)
                                  (Some (λ a, addressAllowed (hc_destination c) a (hc_mark c) ∅)) in
      let s := {| fs_selector := sel; fs_world := fs_world s; fs_dialed := fs_dialed s |} in
      match candidates with
      | [] => (Err FetchDenied, s)
      | _ => let '(r, _, _, s) := DialCandidates (Some (fetch_candidates ctx)) candidates port (hc_attemptCap c) (hc_via c) None s in
             (match r with Ok conn => Ok conn | Err e => Err (FetchCandidates e) end, s)
      end
  end.
Definition of_dial (r : result E Conn) : result (fetch_error E) Conn := match r with Ok conn => Ok conn | Err e => Err (FetchDial e) end.
Definition DialContext (ctx : Ctx W E) (network addr : string) (s : fetch_state) : result (fetch_error E) Conn * fetch_state :=
  if (hc_mark c =? 0)%Z then let '(r, s) := open ctx 0 fetchTimeout network addr s in (of_dial r, s)
  else match SplitHostPort addr with
       | None => (Err BadAddress, s)
       | Some (host, port) =>
           match ParseAddr host with
           | Some parsed =>
               if negb (egressFamilyAllowed parsed (hc_mark c)) then (Err FetchNoIPv4, s)
               else if negb (addressAllowed (hc_destination c) parsed (hc_mark c) ∅) then (Err FetchDenied, s)
               else let '(r, s) := dialMarkedContext ctx network addr (hc_mark c) fetchTimeout s in (of_dial r, s)
           | None => dial_host ctx host port s
           end
       end.
End fetch.
Arguments fetch_env : clear implicits.
Arguments fetch_state : clear implicits.

(** ** Where a client connects *)
Lemma Unmap_idem a : Unmap (Unmap a) = Unmap a.
Proof. destruct a as [| |v z]; [done..|]. unfold Unmap at 2 3. destruct (Is4In6 (Addr6 v z)) eqn:E; [done|]. unfold Unmap. by rewrite E. Qed.
Section answers.
Context {W E : Type} `{LookupError E} (k : Clock W E).
Context (lookup : W → Ctx W E → netResolver → string → string → option (list Addr) * option E * W) (r : tunnelResolver).
Context (P : Addr → Prop).
Context (HP : ∀ w ctx nr host addrs err w', nr ∈ udp r ++ tcp r → lookup w ctx nr "ip4" host = (Some addrs, err, w') → Forall P addrs).

Lemma lookupServer_answer ctx s host w addrs err w' : s.1 ∈ udp r → s.2 ∈ tcp r →
  lookupServer k lookup r ctx s "ip4" host w = (addrs, err, w') → Forall P (default [] addrs).
Proof using HP.
  intros Hu Ht. unfold lookupServer. destruct (lookup w _ s.1 _ _) as [[a1 e1] w1] eqn:E1.
  assert (Forall P (default [] a1)) as H1.
  { destruct a1 as [a1|]; [|constructor]. eapply HP; [|exact E1]. apply elem_of_app. by left. }
  destruct (_ || _); [by intros [= <- <- <-]|]. destruct (lookup w1 _ s.2 _ _) as [[a2 e2] w2] eqn:E2.
  destruct (_ && _); intros [= <- <- <-]; [done|]. destruct a2 as [a2|]; [|constructor].
  eapply HP; [|exact E2]. apply elem_of_app. by right.
Qed.
Lemma lookup_loop_answer ctx host servers errs poisoned w : (∀ s, s ∈ servers → s.1 ∈ udp r ∧ s.2 ∈ tcp r) →
  Forall P (default [] poisoned) → Forall P (default [] (lookup_loop k lookup r ctx "ip4" host servers errs poisoned w).1.1).
Proof using HP.
  revert errs poisoned w. induction servers as [|s servers IH]; intros errs poisoned w Hs Hp; cbn [lookup_loop].
  { unfold finish. by destruct poisoned. }
  destruct (Ctx_Err ctx w); [unfold finish; by destruct poisoned|].
  destruct (lookupServer _ _ _ _ _ _ _ _) as [[addrs err] w1] eqn:E1.
  apply lookupServer_answer in E1; [|apply Hs; by left..].
  assert (∀ s, s ∈ servers → s.1 ∈ udp r ∧ s.2 ∈ tcp r) as Hs' by (intros x Hx; apply Hs; by right).
  destruct err as [e|].
  - destruct (isDNSNotFound e); [constructor|]. by apply IH.
  - destruct (acceptable r addrs); [done|]. by apply IH.
Qed.
Lemma LookupNetIP_answer ctx host w : Forall P (default [] (LookupNetIP k lookup r ctx "ip4" host w).1.1).
Proof using HP.
  unfold LookupNetIP. rewrite bool_decide_eq_false_2 by done. apply lookup_loop_answer; [|constructor].
  intros [a b] Hs. split; [by eapply elem_of_zip_l|by eapply elem_of_zip_r].
Qed.
End answers.

(** A relation between worlds that every exchange with a server of the resolver keeps is
    kept by the lookup: it makes no other. *)
Section exchanges.
Context {W E : Type} `{LookupError E} (k : Clock W E).
Context (lookup : W → Ctx W E → netResolver → string → string → option (list Addr) * option E * W) (r : tunnelResolver).
Context (R : W → W → Prop) {HR : PreOrder R} (host : string).
Context (Hkept : ∀ w ctx nr, nr ∈ udp r ++ tcp r → R w (lookup w ctx nr "ip4" host).2).

Lemma lookupServer_kept ctx s w : s.1 ∈ udp r → s.2 ∈ tcp r → R w (lookupServer k lookup r ctx s "ip4" host w).2.
Proof using HR Hkept.
  intros Hu Ht. unfold lookupServer. pose proof (Hkept w (sliceOf k ctx w 2) s.1 ltac:(apply elem_of_app; by left)) as H1.
  destruct (lookup w _ s.1 _ _) as [[a1 e1] w1]. destruct (_ || _); [done|].
  pose proof (Hkept w1 ctx s.2 ltac:(apply elem_of_app; by right)) as H2. destruct (lookup w1 _ s.2 _ _) as [[a2 e2] w2].
  destruct (_ && _); by etrans.
Qed.
Lemma lookup_loop_kept ctx servers errs poisoned w : (∀ s, s ∈ servers → s.1 ∈ udp r ∧ s.2 ∈ tcp r) →
  R w (lookup_loop k lookup r ctx "ip4" host servers errs poisoned w).2.
Proof using HR Hkept.
  assert (∀ errs poisoned w, R w (finish (E:=E) errs poisoned w).2) as Hfin by (intros errs0 [] w0; reflexivity).
  revert errs poisoned w. induction servers as [|s servers IH]; intros errs poisoned w Hs; cbn [lookup_loop]; [apply Hfin|].
  destruct (Ctx_Err ctx w); [apply Hfin|].
  pose proof (lookupServer_kept (sliceOf k ctx w (length (s :: servers))) s w ltac:(apply Hs; by left) ltac:(apply Hs; by left)) as H1.
  destruct (lookupServer _ _ _ _ _ _ _ _) as [[addrs err] w1].
  assert (∀ s, s ∈ servers → s.1 ∈ udp r ∧ s.2 ∈ tcp r) as Hs' by (intros x Hx; apply Hs; by right).
  destruct err as [e|]; [destruct (isDNSNotFound e); [done|]|destruct (acceptable r addrs); [done|]]; (etrans; [exact H1|by apply IH]).
Qed.
Lemma LookupNetIP_kept ctx w : R w (LookupNetIP k lookup r ctx "ip4" host w).2.
Proof using HR Hkept.
  unfold LookupNetIP. rewrite bool_decide_eq_false_2 by done. apply lookup_loop_kept.
  intros [a b] Hs. split; [by eapply elem_of_zip_l|by eapply elem_of_zip_r].
Qed.
End exchanges.

Section dialled.
Context {W Conn E : Type} `{UnicodeTables} `{LookupError E} (env : fetch_env W Conn E) (c : http_client).
(** [LookupNetIP] on the network ip4 answers with IPv4 addresses. *)
Context (Hip4 : ∀ w ctx nr host addrs err w', fe_lookup env w ctx nr "ip4" host = (Some addrs, err, w') →
  Forall (λ a, Is4 (Unmap a) = true) addrs).
Implicit Types (s : fetch_state W) (ctx : Ctx W E).

(** An address the policy allows for the client's mark, and an IPv4 one. *)
Definition fetchable (a : Addr) : Prop := addressAllowed (hc_destination c) a (hc_mark c) ∅ = true ∧ Is4 (Unmap a) = true.
(** A socket for [addr]: marked, to an address the host of [addr] is or resolves to. *)
Definition fetch_event (addr : string) (ev : dial_event) : Prop :=
  ev_mark ev = hc_mark c ∧
  ∃ host port a, SplitHostPort addr = Some (host, port) ∧ fetchable a ∧
    match ParseAddr host with
    | Some b => a = b ∧ ev_address ev = addr
    | None => ev_network ev = "tcp" ∧ ev_address ev = candidate_address port a
    end.

Context (R : W → W → Prop) {HR : PreOrder R}.
Lemma fetch_loop_dialed ctx port egress l i n errs m s :
  (∀ w ctx timeout a, a ∈ l → R w (fe_dial env w ctx (if (hc_mark c =? 0)%Z then None else Some (hc_mark c)) timeout "tcp" (candidate_address port a)).2) →
  let '(r, _, _, s') := dial_loop (fetch_candidates env c ctx) port egress l i n errs m s in
  R (fs_world s) (fs_world s') ∧
  ∃ pre, pre `prefix_of` l ∧ fs_dialed s' = fs_dialed s ++ (tcp_event (hc_mark c) port <$> pre) ∧ (is_ok r = true → pre ≠ []).
Proof using HR.
  revert i n errs m s. induction l as [|a l IH]; intros i n errs m s Hk; cbn [dial_loop].
  { destruct errs; (split; [reflexivity|]); exists []; rewrite app_nil_r; (split_and!; [apply prefix_nil|done|done]). }
  destruct (ctx_err _ _); [split; [reflexivity|]; exists []; rewrite app_nil_r; (split_and!; [apply prefix_nil|done|done])|].
  set (t := attempt_timeout _ _ _). cbn [dial fetch_candidates]. unfold fetch_attempt, dialMarkedContext, open.
  pose proof (λ w ctx timeout, Hk w ctx timeout a ltac:(by left)) as Ha.
  match goal with |- context [fe_dial env ?w ?ctx ?m ?t ?n ?a] => specialize (Ha w ctx t); destruct (fe_dial env w ctx m t n a) as [r w1] end.
  cbn [snd] in Ha. destruct r as [conn|e].
  - split; [done|]. exists [a]. split_and!; [apply prefix_cons, prefix_nil|done|done].
  - set (s1 := Build_fetch_state _ _ _). specialize (IH (S i) (S n) (errs ++ [(Some (candidate_address port a), e)])
      ((λ m, record m false egress) <$> m) s1 ltac:(intros; apply Hk; by right)).
    destruct (dial_loop _ _ _ _ _ _ _ _ _) as [[[r n'] m'] s']. destruct IH as (Hr&pre&Hp&->&Hok). split; [by etrans|].
    exists (a :: pre). split_and!; [by apply prefix_cons| |done]. by rewrite fmap_cons, cons_middle, app_assoc.
Qed.
Lemma dial_host_dialed ctx host port s : (0 < hc_attemptCap c)%Z →
  (∀ w ctx nr, nr ∈ udp (hc_resolver c) ++ tcp (hc_resolver c) → R w (fe_lookup env w ctx nr "ip4" host).2) →
  (∀ w ctx timeout a, fetchable a →
     R w (fe_dial env w ctx (if (hc_mark c =? 0)%Z then None else Some (hc_mark c)) timeout "tcp" (candidate_address port a)).2) →
  let '(r, s') := dial_host env c ctx host port s in
  R (fs_world s) (fs_world s') ∧
  ∃ l, fs_dialed s' = fs_dialed s ++ (tcp_event (hc_mark c) port <$> l) ∧ Forall fetchable l ∧
    (length l ≤ Z.to_nat (hc_attemptCap c)) ∧ (is_ok r = true → l ≠ []).
Proof using Hip4 HR.
  intros Hcap Hlook Hdial. unfold dial_host.
  pose proof (LookupNetIP_kept (fe_clock env) (fe_lookup env) (hc_resolver c) R host Hlook
    (WithTimeout (fe_clock env) ctx (fs_world s) (hc_resolverTimeout c)) (fs_world s)) as Hw.
  pose proof (LookupNetIP_answer (fe_clock env) (fe_lookup env) (hc_resolver c) (λ a, Is4 (Unmap a) = true) ltac:(intros; by eapply Hip4)
    (WithTimeout (fe_clock env) ctx (fs_world s) (hc_resolverTimeout c)) host (fs_world s)) as Hans.
  destruct (LookupNetIP _ _ _ _ _ _ _) as [[addrs errs] w]. cbn [fst snd] in Hans, Hw.
  assert (R (fs_world s) w ∧ ∃ l : list Addr, fs_dialed s = fs_dialed s ++ (tcp_event (hc_mark c) port <$> l) ∧ Forall fetchable l ∧
    (length l ≤ Z.to_nat (hc_attemptCap c)) ∧ (false = true → l ≠ [])) as Hnone.
  { split; [done|]. exists []. rewrite app_nil_r. split_and!; [done|constructor|simpl; lia|done]. }
  destruct errs; [|done].
  pose proof (Select_in (fs_selector s) (default [] addrs) (Some (λ a, addressAllowed (hc_destination c) a (hc_mark c) ∅))) as Hin.
  cbn [fs_selector]. destruct (Select _ _ _) as [l sel]. cbn [fst] in Hin. destruct l as [|a0 l0] eqn:El; [done|]. rewrite <-El in *.
  assert (Forall fetchable l) as Hl.
  { apply Forall_forall. intros a Ha. destruct (Hin a Ha) as [(x&Hx&_&_&<-) Hal]. split; [done|].
    rewrite Forall_forall in Hans. rewrite Unmap_idem. by apply Hans. }
  unfold DialCandidates. rewrite (proj2 (Z.leb_gt _ _) Hcap). set (s1 := Build_fetch_state _ _ _).
  pose proof (fetch_loop_dialed ctx port (hc_via c) (take (Z.to_nat (hc_attemptCap c)) l) 0 0 [] None s1) as Hd.
  rewrite Forall_forall in Hl.
  destruct (dial_loop _ _ _ _ _ _ _ _ _) as [[[r n] m'] s'].
  destruct Hd as (Hr&pre&Hp&Hd&Hok); [intros w0 ctx0 t0 a Ha; apply Hdial, Hl; eapply elem_of_sublist; [done|apply sublist_take]|].
  split; [by etrans|]. exists pre. split_and!; [done| | |].
  - apply Forall_forall. intros a Ha. apply Hl. eapply elem_of_sublist; [|apply sublist_take].
    eapply elem_of_prefix; done.
  - apply prefix_length in Hp. rewrite length_take in Hp. lia.
  - by destruct r.
Qed.
End dialled.

(** What a client of the tunnel [via] may do to the world when it is asked for [addr]: look
    its host name up, over IPv4 and with a resolver that has the tunnel's mark and one of
    its servers, and open a marked socket that [fetch_event] describes.  [R] is kept by
    each of these. *)
Record tunnel_only {W Conn E} `{UnicodeTables} `{LookupError E} (env : fetch_env W Conn E) (base : Config) (via addr : string)
    (R : W → W → Prop) : Prop := {
  only_lookups w ctx nr host port : SplitHostPort addr = Some (host, port) → ParseAddr host = None →
    nr_mark nr = markFor base via → nr_server nr ∈ resolversFor base (markFor base via) → R w (fe_lookup env w ctx nr "ip4" host).2;
  only_dials w ctx timeout ev : fetch_event (httpClient base via) addr ev →
    R w (fe_dial env w ctx (Some (markFor base via)) timeout (ev_network ev) (ev_address ev)).2 }.

(** C12: however a route source or a probe endpoint that goes through a tunnel is named,
    the client touches the network in two ways only: it asks the tunnel's own resolvers,
    over sockets with the tunnel's mark, for the IPv4 addresses of the host it was given,
    and it opens connections that carry the mark and go to an IPv4 address that the
    destination policy allows for it: the one given, or one of at most the attempt cap
    that the lookup answered.  Whatever these exchanges and connections preserve of the
    world is preserved, so there are no others.  No connection is made without an
    attempt. *)
Theorem fetch_permitted {W Conn E} `{UnicodeTables} `{LookupError E} (env : fetch_env W Conn E) base via ctx network addr s R `{!PreOrder R} :
  (∀ w ctx nr host addrs err w', fe_lookup env w ctx nr "ip4" host = (Some addrs, err, w') → Forall (λ a, Is4 (Unmap a) = true) addrs) →
  markFor base via ≠ 0%Z → tunnel_only env base via addr R →
  let c := httpClient base via in
  let '(r, s') := DialContext env c ctx network addr s in
  R (fs_world s) (fs_world s') ∧
  ∃ evs, fs_dialed s' = fs_dialed s ++ evs ∧ Forall (fetch_event c addr) evs ∧ length evs ≤ Z.to_nat (hc_attemptCap c) ∧
    (is_ok r = true → evs ≠ []).
Proof.
  intros Hip4 Hm [Hlook Hdial] c.
  assert (0 < hc_attemptCap c)%Z as Hcap.
  { unfold c, httpClient, positiveOr. cbn [hc_attemptCap]. destruct (Z.leb_spec (px_ConnectAttemptCap (c_Proxy base)) 0); [by vm_compute|lia]. }
  assert (hc_mark c = markFor base via) as Hmark by done. unfold DialContext. rewrite (proj2 (Z.eqb_neq _ _)) by (by rewrite Hmark).
  assert (∀ s : fetch_state W, R (fs_world s) (fs_world s) ∧ ∃ evs, fs_dialed s = fs_dialed s ++ evs ∧ Forall (fetch_event c addr) evs ∧
    length evs ≤ Z.to_nat (hc_attemptCap c) ∧ (false = true → evs ≠ [])) as Hnone.
  { intros s0. split; [done|]. exists []. rewrite app_nil_r. split_and!; [done|constructor|simpl; lia|done]. }
  destruct (SplitHostPort addr) as [[host port]|] eqn:Hs; [|apply Hnone]. destruct (ParseAddr host) as [a|] eqn:Hp.
  - destruct (egressFamilyAllowed a (hc_mark c)) eqn:Hf; [|apply Hnone]. destruct (addressAllowed _ _ _ _) eqn:Ha; [|apply Hnone].
    cbn [negb]. unfold dialMarkedContext, open. rewrite (proj2 (Z.eqb_neq _ _)) by (by rewrite Hmark).
    set (ev := {| ev_mark := hc_mark c; ev_network := network; ev_address := addr |}).
    assert (fetch_event c addr ev) as Hev.
    { split; [done|]. exists host, port, a. rewrite Hp. split_and!; [done| |done..]. split; [done|].
      unfold egressFamilyAllowed in Hf. by rewrite (proj2 (Z.eqb_neq _ _)) in Hf. }
    pose proof (Hdial (fs_world s) ctx fetchTimeout ev Hev) as HR.
    change (fe_dial env (fs_world s) ctx (Some (hc_mark c)) fetchTimeout network addr)
      with (fe_dial env (fs_world s) ctx (Some (markFor base via)) fetchTimeout (ev_network ev) (ev_address ev)).
    destruct (fe_dial _ _ _ _ _ _ _) as [r w]. split; [done|]. exists [ev]. split; [done|].
    split_and!; [by apply Forall_singleton|cbn [length]; lia|done].
  - assert (∀ a, fetchable c a → fetch_event c addr (tcp_event (hc_mark c) port a)) as Hev.
    { intros a Ha. split; [done|]. exists host, port, a. by rewrite Hp. }
    pose proof (dial_host_dialed env c Hip4 R ctx host port s Hcap) as Hd. destruct (dial_host _ _ _ _ _ _) as [r s'].
    destruct Hd as (HR&l&Hd&Hl&Hlen&Hok).
    { intros w ctx0 nr Hnr. cbn [c httpClient hc_resolver newTunnelResolver udp tcp] in Hnr.
      apply elem_of_app in Hnr as [(srv&->&Hsrv)%list_elem_of_fmap|(srv&->&Hsrv)%list_elem_of_fmap]; by eapply Hlook. }
    { intros w ctx0 t a Ha. rewrite (proj2 (Z.eqb_neq _ _)) by (by rewrite Hmark). exact (Hdial w ctx0 t _ (Hev a Ha)). }
    split; [done|]. exists (tcp_event (hc_mark c) port <$> l). split_and!; [done| |by rewrite length_fmap|].
    + apply Forall_fmap. eapply Forall_impl; [exact Hl|]. intros a Ha. by apply Hev.
    + intros Hr. by destruct l; [destruct (Hok Hr)|].
Qed.

(** ** The example *)
Module FetchDemo.
#[local] Instance fetch_unicode : UnicodeTables := {| unicode_to_lower := λ s, s |}.
#[local] Instance no_dns_errors : LookupError unit := {| dns_timeout := λ _, false; dns_not_found := λ _, false; is_deadline_exceeded := λ _, false |}.
(** The world is the log of what was done.  Every name has a private and two public
    addresses; the first connection fails. *)
Inductive net_call := Asked (mark : Z) (server network host : string) | Opened (mark : option Z) (address : string).
Definition opened_before (w : list net_call) : bool := existsb (λ x, match x with Opened _ _ => true | _ => false end) w.
Definition demo_net : fetch_env (list net_call) string unit :=
  {| fe_clock := {| now := λ _, 0%Z; fired := λ _ _, false; exceeded := () |};
     fe_lookup := λ w _ nr network host, (if bool_decide (network = "ip4") then Some [Addr4 167772161; Addr4 134744072; Addr4 134743044] else None, None,
                                          w ++ [Asked (nr_mark nr) (nr_server nr) network host]);
     fe_dial := λ w _ mark _ _ address, (if opened_before w then Ok address else Err (), w ++ [Opened mark address]) |}.
Definition demo_client : http_client := httpClient (demo_loaded "wg0") "wg0".
Definition background : Ctx (list net_call) unit := {| Ctx_Err := λ _, None; Deadline := None |}.
Definition demo_fetch (addr : string) : result (fetch_error unit) string * fetch_state (list net_call) :=
  DialContext demo_net demo_client background "tcp" addr {| fs_selector := new_selector demo_client; fs_world := []; fs_dialed := [] |}.
Lemma demo_answers w ctx nr host addrs err w' :
  fe_lookup demo_net w ctx nr "ip4" host = (Some addrs, err, w') → Forall (λ a, Is4 (Unmap a) = true) addrs.
Proof. intros [= <- _ _]. by repeat constructor. Qed.
(** Only the tunnel's servers are asked, for this host and with the mark, and every
    connection has the mark. *)
Definition call_ok (x : net_call) : Prop :=
  match x with
  | Asked mark server network host =>
      mark = 100%Z ∧ server ∈ resolversFor (demo_loaded "wg0") 100 ∧ network = "ip4" ∧ host = "lists.example"
  | Opened mark address => mark = Some 100%Z ∧ ∃ ev, fetch_event demo_client "lists.example:443" ev ∧ address = ev_address ev
  end.
Definition logs (w w' : list net_call) : Prop := ∃ l, w' = w ++ l ∧ Forall call_ok l.
#[local] Instance logs_preorder : PreOrder logs.
Proof.
  split; [intros w; exists []; by rewrite app_nil_r|]. intros w1 w2 w3 (l&->&Hl) (l'&->&Hl'). exists (l ++ l').
  rewrite app_assoc. split; [done|by apply Forall_app].
Qed.
Lemma demo_mark : markFor (demo_loaded "wg0") "wg0" = 100%Z.
Proof. vm_compute. reflexivity. Qed.
Lemma demo_split : SplitHostPort "lists.example:443" = Some ("lists.example", "443").
Proof. vm_compute. reflexivity. Qed.
Lemma demo_only : tunnel_only demo_net (demo_loaded "wg0") "wg0" "lists.example:443" logs.
Proof.
  split.
  - intros w ctx nr host port Hhost _ Hm Hs. rewrite demo_split in Hhost. injection Hhost as <- _. rewrite demo_mark in Hm, Hs.
    eexists. split; [reflexivity|]. apply Forall_singleton. split_and!; [exact Hm|exact Hs|reflexivity..].
  - intros w ctx timeout ev Hev. rewrite demo_mark. eexists. split; [reflexivity|]. apply Forall_singleton.
    split; [reflexivity|]. exists ev. split; [exact Hev|reflexivity].
Qed.
Definition demo_run : result (fetch_error unit) string * fetch_state (list net_call) := demo_fetch "lists.example:443".
Lemma fetch_permitted_witness :
  Forall call_ok (fs_world demo_run.2) ∧ length (fs_world demo_run.2) = 3 ∧ Forall (fetch_event demo_client "lists.example:443") (fs_dialed demo_run.2).
Proof.
  pose proof (fetch_permitted demo_net (demo_loaded "wg0") "wg0" background "tcp" "lists.example:443"
    {| fs_selector := new_selector demo_client; fs_world := []; fs_dialed := [] |} logs demo_answers ltac:(vm_compute; discriminate) demo_only) as Hd.
  cbv zeta in Hd. fold demo_client in Hd. fold (demo_fetch "lists.example:443") in Hd. fold demo_run in Hd.
  assert (length (fs_world demo_run.2) = 3) as Hlen by (vm_compute; reflexivity). revert Hd Hlen. generalize demo_run as run.
  intros [r s'] ((l&Hw&Hl)&evs&Hd&Hev&_) Hlen. cbn [snd fs_world fs_dialed] in *. rewrite Hw, Hd. split; [exact Hl|]. rewrite <-Hw. split; [exact Hlen|exact Hev].
Defined.
(** The private address is skipped; an IPv6 literal is refused. *)
Example demo_dialed : (ev_address <$> fs_dialed (demo_fetch "lists.example:443").2) = ["8.8.8.8:443"; "8.8.4.4:443"] ∧
  (demo_fetch "[2001:db8::1]:443").1 = Err FetchNoIPv4 ∧ (demo_fetch "10.0.0.1:443").1 = Err FetchDenied.
Proof. vm_compute. auto. Qed.
End FetchDemo.
