(* ===== verification/Server.v ===== *)
(** * sni.go: the proxy server

    Admission control, the accept loop with its session goroutines, the request
    handlers, the byte accounting of a session, and shutdown.  Goroutines
    interleave at their critical sections. *)
From S2P Require Import Prelude Netip Health ProxyDial DnsCache ProxyPolicy Config Startup Context Router.

(** ** Labels *)
Inductive proxyProtocol := protocolTLS | protocolHTTP.
Inductive listenerClass := classLocal | classNetwork.
Inductive rejectionReason :=
| reasonNone | reasonSourceDenied | reasonParseError | reasonDestinationDenied | reasonOverload | reasonDialError.
Record rejectionKey := { Protocol : proxyProtocol; Reason : rejectionReason; ListenerClass : listenerClass }.

#[export] Instance proxyProtocol_eq_dec : EqDecision proxyProtocol.
Proof. solve_decision. Defined.
#[export] Instance listenerClass_eq_dec : EqDecision listenerClass.
Proof. solve_decision. Defined.
#[export] Instance rejectionReason_eq_dec : EqDecision rejectionReason.
Proof. solve_decision. Defined.
#[export] Instance rejectionKey_eq_dec : EqDecision rejectionKey.
Proof. solve_decision. Defined.

Definition protocol_string (p : proxyProtocol) : string :=
  match p with protocolTLS => "tls" | protocolHTTP => "http" end.
Definition class_string (c : listenerClass) : string :=
  match c with classLocal => "loopback" | classNetwork => "non_loopback" end.
Definition reason_string (r : rejectionReason) : string :=
  match r with
  | reasonNone => "" | reasonSourceDenied => "source_denied" | reasonParseError => "parse_error"
  | reasonDestinationDenied => "destination_denied" | reasonOverload => "overload" | reasonDialError => "dial_error"
  end.
Definition with_reason (k : rejectionKey) (r : rejectionReason) : rejectionKey :=
  {| Protocol := Protocol k; Reason := r; ListenerClass := ListenerClass k |}.

(** [addr] is the IP of a TCP listener, [None] for another kind of address. *)
Definition listenerAddrClass (addr : option (list Z)) : listenerClass :=
  match addr with
  | Some ip => match AddrFromSlice ip with
               | Some a => if IsLoopback (Unmap a) then classLocal else classNetwork
               | None => classNetwork
               end
  | None => classNetwork
  end.

(** ** Admission control *)
Module Admission.
Record admissionControl := { active : Z; perSource : gmap Addr Z }.
Definition zero : admissionControl := {| active := 0; perSource := ∅ |}.

(** [a.perSource[source]]: a missing key reads as 0. *)
Definition count (a : admissionControl) (source : Addr) : Z := default 0%Z (perSource a !! source).

Definition acquire (a : admissionControl) (source : Addr) (maximum perSourceMaximum : Z) :
    option admissionControl :=
  if (maximum <=? 0)%Z || (maximum <=? active a)%Z then None
  else if (0 <? perSourceMaximum)%Z && (perSourceMaximum <=? count a source)%Z then None
  else Some {| active := (active a + 1)%Z; perSource := <[source := (count a source + 1)%Z]> (perSource a) |}.

(** The body of the function that [acquire] returns. *)
Definition release (a : admissionControl) (source : Addr) : admissionControl :=
  let n := (count a source - 1)%Z in
  {| active := (active a - 1)%Z;
     perSource := if (n =? 0)%Z then delete source (perSource a) else <[source := n]> (perSource a) |}.

(** That function: [sync.Once] runs the body on the first call only. *)
Definition release_once (ran : bool) (a : admissionControl) (source : Addr) : bool * admissionControl :=
  if ran then (true, a) else (true, release a source).
Definition activeCount (a : admissionControl) : Z := active a.

(** The state is the multiset of the sources that hold a slot. *)
Definition sources_count (l : list Addr) (source : Addr) : Z := Z.of_nat (length (filter (λ x, x = source) l)).
Definition holds (a : admissionControl) (l : list Addr) : Prop :=
  active a = Z.of_nat (length l) ∧
  ∀ source, perSource a !! source =
    let n := sources_count l source in if (n =? 0)%Z then None else Some n.

#[global] Instance sources_count_perm : Proper ((≡ₚ) ==> (=) ==> (=)) sources_count.
Proof. intros l l' Hl x _ <-. unfold sources_count. by rewrite Hl. Qed.
#[global] Instance holds_perm a : Proper ((≡ₚ) ==> iff) (holds a).
Proof.
  intros l l' Hl. unfold holds. rewrite (Permutation_length Hl).
  assert (∀ source, sources_count l source = sources_count l' source) as Hc by (intros; by rewrite Hl).
  split; intros [-> H]; (split; [done|]); intros source; rewrite H; cbv zeta; by rewrite Hc.
Qed.

Lemma holds_count a l source : holds a l → count a source = sources_count l source.
Proof.
  intros [_ H]. unfold count. rewrite H. cbn. destruct (Z.eqb_spec (sources_count l source) 0) as [->|]; done.
Qed.
Lemma sources_count_cons l x y :
  sources_count (x :: l) y = ((if decide (x = y) then 1 else 0) + sources_count l y)%Z.
Proof.
  unfold sources_count. rewrite filter_cons. destruct (decide (x = y)); cbn [length]; lia.
Qed.

Lemma acquire_spec a l source maximum perSourceMaximum :
  holds a l →
  match acquire a source maximum perSourceMaximum with
  | Some a' => holds a' (source :: l) ∧ (Z.of_nat (length l) < maximum)%Z ∧
      ((0 < perSourceMaximum)%Z → (sources_count l source < perSourceMaximum)%Z)
  | None => (maximum ≤ Z.of_nat (length l))%Z ∨
      (0 < perSourceMaximum)%Z ∧ (perSourceMaximum ≤ sources_count l source)%Z
  end.
Proof.
  intros Hh. pose proof Hh as [Ha Hp]. unfold acquire. rewrite (holds_count _ _ _ Hh), Ha.
  destruct (Z.leb_spec maximum 0); cbn [orb]; [left; lia|].
  destruct (Z.leb_spec maximum (Z.of_nat (length l))); [by left|].
  destruct (Z.ltb_spec 0 perSourceMaximum), (Z.leb_spec perSourceMaximum (sources_count l source)); cbn [andb];
    [by right|..].
  all: split; [|split; [lia|lia]]; split; cbn [Admission.active perSource length]; [lia|].
  all: intros y; cbn; rewrite sources_count_cons; destruct (decide (source = y)) as [->|Hne];
    [rewrite lookup_insert_eq; unfold sources_count in *; destruct (Z.eqb_spec (1 + Z.of_nat (length (filter (λ x, x = y) l))) 0); [lia|f_equal; lia]
    |rewrite lookup_insert_ne by done; apply Hp].
Qed.

Lemma release_spec a l source : holds a (source :: l) → holds (release a source) l.
Proof.
  intros Hh. pose proof Hh as [Ha Hp]. unfold release. rewrite (holds_count _ _ _ Hh).
  rewrite sources_count_cons, decide_True by done.
  replace (1 + sources_count l source - 1)%Z with (sources_count l source) by lia.
  split; cbn [active perSource]; [rewrite Ha; cbn [length]; lia|].
  intros y. specialize (Hp y). rewrite sources_count_cons in Hp. cbn in *.
  destruct (decide (source = y)) as [->|Hne].
  - destruct (sources_count l y =? 0)%Z eqn:Hz; [by rewrite lookup_delete_eq|by rewrite lookup_insert_eq].
  - rewrite Z.add_0_l in Hp. destruct (sources_count l source =? 0)%Z.
    + by rewrite lookup_delete_ne.
    + by rewrite lookup_insert_ne.
Qed.
End Admission.

(** ** Sessions *)
Module Session.
(** Connections are numbered; [cancel] is left out: it only ends the context. *)
Record ownedSession := { client : option nat; backend : option nat; closed : bool }.

(** The critical section of [setBackend]: the new session and the connection it
    closes on the spot. *)
Definition setBackend (s : ownedSession) (conn : nat) : ownedSession * list nat :=
  if closed s then (s, [conn])
  else ({| client := client s; backend := Some conn; closed := closed s |}, []).

(** The critical section of [close], and what it closes after it. *)
Definition close (s : ownedSession) : ownedSession * list nat :=
  if closed s then (s, [])
  else ({| client := client s; backend := backend s; closed := true |},
        option_list (client s) ++ option_list (backend s)).

(** A session, the connections some goroutine is about to close, those that are
    closed, and those the session was given. *)
Record state := { sess : ownedSession; pending : list nat; shut : gset nat; given : gset nat }.
Definition init (conn : nat) : state :=
  {| sess := {| client := Some conn; backend := None; closed := false |}; pending := []; shut := ∅; given := {[ conn ]} |}.

(** The handler hands over at most one backend; [close] may be called by the
    handler's end and by a forced shutdown, any number of times. *)
Inductive step : state → state → Prop :=
| step_backend st conn :
    backend (sess st) = None → given st ⊆ list_to_set (option_list (client (sess st))) →
    step st {| sess := (setBackend (sess st) conn).1; pending := pending st ++ (setBackend (sess st) conn).2;
               shut := shut st; given := {[ conn ]} ∪ given st |}
| step_close st :
    step st {| sess := (close (sess st)).1; pending := pending st ++ (close (sess st)).2;
               shut := shut st; given := given st |}
| step_shut st pre conn post :
    pending st = pre ++ conn :: post →
    step st {| sess := sess st; pending := pre ++ post; shut := {[ conn ]} ∪ shut st; given := given st |}.

Definition ok (st : state) : Prop :=
  ∀ c, c ∈ given st →
    (client (sess st) = Some c ∨ backend (sess st) = Some c ∨ c ∈ pending st ∨ c ∈ shut st) ∧
    (closed (sess st) = true → c ∈ pending st ∨ c ∈ shut st).

Lemma elem_of_option_list {A} (o : option A) x : x ∈ option_list o ↔ o = Some x.
Proof. destruct o; cbn; [rewrite list_elem_of_singleton; naive_solver|by rewrite elem_of_nil]. Qed.

Lemma session_step_ok st st' : ok st → step st st' → ok st'.
Proof.
  intros Hok. inversion 1 as [st0 conn Hb Hg|st0|st0 pre conn post Hp]; subst; intros c; cbn [sess pending shut given].
  - rewrite elem_of_union, elem_of_singleton. unfold setBackend.
    destruct (closed (sess st)) eqn:Hc; cbn [fst snd client backend closed];
      rewrite ?elem_of_app, ?list_elem_of_singleton, ?elem_of_nil; (intros [->|Hin]; [|apply Hok in Hin as [H1 H2]; rewrite ?Hc, ?Hb in *]); naive_solver.
  - unfold close. destruct (closed (sess st)) eqn:Hc; cbn [fst snd client backend closed];
      rewrite ?app_nil_r, ?elem_of_app, ?elem_of_option_list; intros [H1 H2]%Hok; tauto.
  - rewrite elem_of_union, elem_of_singleton, elem_of_app. intros [H1 H2]%Hok.
    rewrite Hp, elem_of_app, elem_of_cons in H1, H2. tauto.
Qed.

Lemma session_reachable conn st : rtc step (init conn) st → ok st.
Proof.
  revert st. apply (rtc_ind_r ok (init conn)).
  - intros c. cbn. rewrite elem_of_singleton. intros ->. by split; [left|].
  - intros y z _ Hs Hy. by eapply session_step_ok.
Qed.
End Session.

(** ** The server *)
#[export] Instance rejectionKey_countable : Countable rejectionKey.
Proof.
  refine (inj_countable'
    (λ k, (match Protocol k with protocolTLS => true | protocolHTTP => false end,
           match Reason k with reasonNone => 0 | reasonSourceDenied => 1 | reasonParseError => 2
                             | reasonDestinationDenied => 3 | reasonOverload => 4 | reasonDialError => 5 end,
           match ListenerClass k with classLocal => true | classNetwork => false end))
    (λ '(p, r, c), {| Protocol := if p : bool then protocolTLS else protocolHTTP;
           Reason := match r with 0 => reasonNone | 1 => reasonSourceDenied | 2 => reasonParseError
                               | 3 => reasonDestinationDenied | 4 => reasonOverload | _ => reasonDialError end;
           ListenerClass := if c : bool then classLocal else classNetwork |}) _).
  by intros [[] [] []].
Defined.

(** Where a connection is between [Accept] and the end of [runAccepted]: screened
    with the router loaded at accept, admitted, registered and handled, closed,
    released. *)
Inductive phase :=
| Loaded (rt : router) (remote : option (list Z))
| Holding (source : Addr)
| Running (source : Addr)
| Closing (source : Addr)
| Released.
Record thread := { th_labels : rejectionKey; th_phase : phase }.

Record server := {
  srv_rt : router; srv_generation : Z; srv_accepted : Z; srv_stopping : bool;
  srv_admission : Admission.admissionControl; srv_sessions : gset nat;
  srv_rejections : gmap rejectionKey Z; srv_threads : gmap nat thread }.

(** runtime/generation.go: [NewGenerations] starts at 1, [Advance] adds 1. *)
Definition NewGenerations : Z := 1.
Definition Advance (g : Z) : Z := wrap64 (g + 1).

Definition NewServer (rt : router) : server :=
  {| srv_rt := rt; srv_generation := NewGenerations; srv_accepted := 0; srv_stopping := false;
     srv_admission := Admission.zero; srv_sessions := ∅; srv_rejections := ∅; srv_threads := ∅ |}.

(** Go's [m[k]++] on a [uint64] counter. *)
Definition incr {K} `{Countable K} (m : gmap K Z) (k : K) : gmap K Z :=
  <[k := wrap64 (default 0%Z (m !! k) + 1)]> m.

Definition with_threads (s : server) (adm : Admission.admissionControl) (sessions : gset nat)
    (th : gmap nat thread) : server :=
  {| srv_rt := srv_rt s; srv_generation := srv_generation s; srv_accepted := srv_accepted s;
     srv_stopping := srv_stopping s; srv_admission := adm; srv_sessions := sessions;
     srv_rejections := srv_rejections s; srv_threads := th |}.
Definition reject (s : server) (key : rejectionKey) : server :=
  {| srv_rt := srv_rt s; srv_generation := srv_generation s; srv_accepted := srv_accepted s;
     srv_stopping := srv_stopping s; srv_admission := srv_admission s; srv_sessions := srv_sessions s;
     srv_rejections := incr (srv_rejections s) key; srv_threads := srv_threads s |}.
Definition set_phase (s : server) (id : nat) (t : thread) (p : phase) : gmap nat thread :=
  <[id := {| th_labels := th_labels t; th_phase := p |}]> (srv_threads s).

(** *** acceptLoop and runAccepted *)

(** [Accept] returned a connection: while stopping it is closed at once. *)
Definition accept_conn (s : server) (id : nat) (labels : rejectionKey) (remote : option (list Z)) : server :=
  if srv_stopping s then s
  else with_threads s (srv_admission s) (srv_sessions s)
         (<[id := {| th_labels := labels; th_phase := Loaded (srv_rt s) remote |}]> (srv_threads s)).

(** The source ACL and admission control. *)
Definition screen (s : server) (id : nat) (t : thread) (rt : router) (remote : option (list Z)) : server :=
  let drop := with_threads s (srv_admission s) (srv_sessions s) (delete id (srv_threads s)) in
  let '(source, allowed) := sourceAllowed remote (sourceACL rt) in
  if negb allowed then reject drop (with_reason (th_labels t) reasonSourceDenied)
  else match Admission.acquire (srv_admission s) source (maxConnections rt) (maxConnectionsPerSource rt) with
       | None => reject drop (with_reason (th_labels t) reasonOverload)
       | Some adm => with_threads s adm (srv_sessions s) (set_phase s id t (Holding source))
       end.

Definition register (s : server) (id : nat) (t : thread) (source : Addr) : server :=
  let s := {| srv_rt := srv_rt s; srv_generation := srv_generation s;
              srv_accepted := wrap64 (srv_accepted s + 1); srv_stopping := srv_stopping s;
              srv_admission := srv_admission s; srv_sessions := srv_sessions s;
              srv_rejections := srv_rejections s; srv_threads := srv_threads s |} in
  with_threads s (srv_admission s) ({[ id ]} ∪ srv_sessions s) (set_phase s id t (Running source)).

(** The deferred calls of [runAccepted], one critical section each. *)
Definition close_session (s : server) (id : nat) (t : thread) (source : Addr) : server :=
  with_threads s (srv_admission s) (srv_sessions s) (set_phase s id t (Closing source)).
Definition release_slot (s : server) (id : nat) (t : thread) (source : Addr) : server :=
  with_threads s (Admission.release_once false (srv_admission s) source).2 (srv_sessions s) (set_phase s id t Released).
Definition end_session (s : server) (id : nat) : server :=
  with_threads s (srv_admission s) (srv_sessions s ∖ {[ id ]}) (delete id (srv_threads s)).

(** [Reload] stores the router of the next generation; [Stop] starts with the flag. *)
Definition Reload (s : server) (rt : router) : server :=
  {| srv_rt := rt; srv_generation := Advance (srv_generation s); srv_accepted := srv_accepted s;
     srv_stopping := srv_stopping s; srv_admission := srv_admission s; srv_sessions := srv_sessions s;
     srv_rejections := srv_rejections s; srv_threads := srv_threads s |}.
Definition Stop_begin (s : server) : bool * server :=
  if srv_stopping s then (false, s)
  else (true, {| srv_rt := srv_rt s; srv_generation := srv_generation s; srv_accepted := srv_accepted s;
                 srv_stopping := true; srv_admission := srv_admission s; srv_sessions := srv_sessions s;
                 srv_rejections := srv_rejections s; srv_threads := srv_threads s |}).

(** One critical section of some goroutine; [R] are the routers that are installed. *)
Inductive server_step (R : router → Prop) (s : server) : server → Prop :=
| step_accept id labels remote : srv_threads s !! id = None → server_step R s (accept_conn s id labels remote)
| step_screen id t rt remote : srv_threads s !! id = Some t → th_phase t = Loaded rt remote →
    server_step R s (screen s id t rt remote)
| step_register id t source : srv_threads s !! id = Some t → th_phase t = Holding source →
    server_step R s (register s id t source)
| step_reject id t source r : srv_threads s !! id = Some t → th_phase t = Running source →
    server_step R s (reject s (with_reason (th_labels t) r))
| step_close id t source : srv_threads s !! id = Some t → th_phase t = Running source →
    server_step R s (close_session s id t source)
| step_release id t source : srv_threads s !! id = Some t → th_phase t = Closing source →
    server_step R s (release_slot s id t source)
| step_end id t : srv_threads s !! id = Some t → th_phase t = Released → server_step R s (end_session s id)
| step_reload rt : R rt → server_step R s (Reload s rt)
| step_stop : server_step R s (Stop_begin s).2.

(** *** The slots in use *)
Definition token (t : thread) : option Addr :=
  match th_phase t with Holding a | Running a | Closing a => Some a | _ => None end.
Definition registered (t : thread) : bool :=
  match th_phase t with Running _ | Closing _ | Released => true | _ => false end.
Definition holders (th : gmap nat thread) : list Addr := omap (λ p, token p.2) (map_to_list th).

Lemma holders_insert th id t :
  th !! id = None → holders (<[id := t]> th) ≡ₚ option_list (token t) ++ holders th.
Proof.
  intros Hn. unfold holders. rewrite map_to_list_insert by done. cbn. by destruct (token t).
Qed.
Lemma holders_delete th id t :
  th !! id = Some t → holders th ≡ₚ option_list (token t) ++ holders (delete id th).
Proof.
  intros Hs. rewrite <-(insert_delete_id th id t Hs) at 1. apply holders_insert. by rewrite lookup_delete_eq.
Qed.
Lemma holders_update th id t t' :
  th !! id = Some t →
  ∃ l, holders th ≡ₚ option_list (token t) ++ l ∧ holders (<[id := t']> th) ≡ₚ option_list (token t') ++ l.
Proof.
  intros Hs. exists (holders (delete id th)). split; [by apply holders_delete|].
  rewrite <-insert_delete_eq. apply holders_insert. by rewrite lookup_delete_eq.
Qed.

(** The invariant: admission counts exactly the slots in use, and the session
    table holds exactly the registered sessions. *)
Definition server_ok (s : server) : Prop :=
  Admission.holds (srv_admission s) (holders (srv_threads s)) ∧
  ∀ id, id ∈ srv_sessions s ↔ ∃ t, srv_threads s !! id = Some t ∧ registered t = true.

(** A change of one thread keeps the sessions of the others. *)
Lemma sessions_update (sessions : gset nat) (th : gmap nat thread) id t t' :
  (∀ i, i ∈ sessions ↔ ∃ t, th !! i = Some t ∧ registered t = true) →
  th !! id = Some t → registered t' = registered t →
  ∀ i, i ∈ sessions ↔ ∃ t, <[id := t']> th !! i = Some t ∧ registered t = true.
Proof.
  intros Hs Hid Hr i. rewrite Hs. destruct (decide (id = i)) as [<-|Hne].
  - rewrite lookup_insert_eq, Hid. naive_solver.
  - by rewrite lookup_insert_ne.
Qed.

(** *** The invariant is kept *)
Section invariant.
Context (R : router → Prop) (M : Z).
Hypothesis HM : (0 ≤ M)%Z.
Hypothesis Hmax : ∀ rt, R rt → (maxConnections rt ≤ M)%Z.

(** [per] is a bound on the slots of one source that every router keeps to. *)
Definition per_source_limit (per : Z) : Prop := ∀ rt, R rt → (0 < maxConnectionsPerSource rt ≤ per)%Z.

Record server_inv (s : server) : Prop := {
  si_ok : server_ok s;
  si_rt : R (srv_rt s);
  si_loaded : ∀ id t rt remote, srv_threads s !! id = Some t → th_phase t = Loaded rt remote → R rt;
  si_max : (Z.of_nat (length (holders (srv_threads s))) ≤ M)%Z;
  si_per : ∀ per a, per_source_limit per → (0 ≤ per)%Z → (Admission.sources_count (holders (srv_threads s)) a ≤ per)%Z }.

(** Replacing a thread by one with the same slot and the same registration. *)
Lemma update_inv s id t p :
  server_inv s → srv_threads s !! id = Some t →
  let t' := {| th_labels := th_labels t; th_phase := p |} in
  token t' = token t → registered t' = registered t → (∀ rt remote, p ≠ Loaded rt remote) →
  server_inv (with_threads s (srv_admission s) (srv_sessions s) (set_phase s id t p)).
Proof.
  intros [[Hh Hs] Hrt Hl Hm Hp] Hid t' Htok Hreg Hne. unfold set_phase. fold t'.
  destruct (holders_update (srv_threads s) id t t' Hid) as (l&H1&H2). rewrite Htok, <-H1 in H2.
  split; cbn [srv_admission srv_threads srv_sessions srv_rt with_threads].
  - split; cbn [srv_admission srv_threads srv_sessions with_threads]; [by rewrite H2|by eapply sessions_update].
  - done.
  - intros i t0 rt remote. destruct (decide (id = i)) as [<-|Hi]; [rewrite lookup_insert_eq|by rewrite lookup_insert_ne; eauto].
    intros [= <-] He. by destruct (Hne rt remote).
  - by rewrite (Permutation_length H2).
  - intros per a Ha Hpos. rewrite H2. by apply Hp.
Qed.

(** Dropping a thread that holds no slot and is not registered. *)
Lemma drop_inv s id t sessions :
  server_inv s → srv_threads s !! id = Some t → token t = None → sessions = srv_sessions s ∖ {[ id ]} →
  server_inv (with_threads s (srv_admission s) sessions (delete id (srv_threads s))).
Proof.
  intros [[Hh Hs] Hrt Hl Hm Hp] Hid Htok ->.
  pose proof (holders_delete _ _ _ Hid) as H1. rewrite Htok in H1. cbn in H1.
  split; cbn [srv_admission srv_threads srv_sessions srv_rt with_threads].
  - split; cbn [srv_admission srv_threads srv_sessions with_threads]; [by rewrite <-H1|].
    intros i. rewrite elem_of_difference, elem_of_singleton, Hs.
    destruct (decide (id = i)) as [<-|Hi]; [rewrite lookup_delete_eq; naive_solver|].
    rewrite lookup_delete_ne by done. naive_solver.
  - done.
  - intros i t0 rt remote. destruct (decide (id = i)) as [<-|Hi];
      [by rewrite lookup_delete_eq|by rewrite lookup_delete_ne; eauto].
  - by rewrite <-(Permutation_length H1).
  - intros per a Ha Hpos. rewrite <-H1. by apply Hp.
Qed.

Lemma reject_inv s k : server_inv s → server_inv (reject s k).
Proof. intros [[Hh Hs] Hrt Hl Hm Hp]. by split. Qed.

Lemma admit_inv s id t rt remote source adm :
  server_inv s → srv_threads s !! id = Some t → th_phase t = Loaded rt remote →
  Admission.acquire (srv_admission s) source (maxConnections rt) (maxConnectionsPerSource rt) = Some adm →
  server_inv (with_threads s adm (srv_sessions s) (set_phase s id t (Holding source))).
Proof.
  intros [[Hh Hs] Hrt Hl Hm Hp] Hid Hph Hacq.
  pose proof (Admission.acquire_spec _ _ source (maxConnections rt) (maxConnectionsPerSource rt) Hh) as Ha.
  rewrite Hacq in Ha. destruct Ha as (Hadm&Hlt&Hper). assert (R rt) as HR by eauto.
  unfold set_phase. set (t' := Build_thread _ _).
  destruct (holders_update (srv_threads s) id t t' Hid) as (l&H1&H2).
  assert (token t = None) as Htok by (unfold token; by rewrite Hph). rewrite Htok in H1. cbn in H1. rewrite <-H1 in H2.
  change (holders (<[id := t']> (srv_threads s)) ≡ₚ source :: holders (srv_threads s)) in H2.
  split; cbn [srv_admission srv_threads srv_sessions srv_rt with_threads].
  - split; cbn [srv_admission srv_threads srv_sessions with_threads]; [by rewrite H2|].
    eapply sessions_update; [done..|]. unfold registered. by rewrite Hph.
  - done.
  - intros i t0 rt0 remote0. destruct (decide (id = i)) as [<-|Hi];
      [rewrite lookup_insert_eq; by intros [= <-]|by rewrite lookup_insert_ne; eauto].
  - rewrite (Permutation_length H2). cbn [length]. specialize (Hmax rt HR). lia.
  - intros per a Hlim Hpos. rewrite H2, Admission.sources_count_cons. specialize (Hp per a Hlim Hpos).
    destruct (decide (source = a)) as [<-|]; [|lia]. destruct (Hlim rt HR). specialize (Hper ltac:(lia)). lia.
Qed.

Lemma accept_inv s id labels remote :
  server_inv s → srv_threads s !! id = None → server_inv (accept_conn s id labels remote).
Proof.
  intros Hinv Hid. unfold accept_conn. destruct (srv_stopping s); [done|].
  destruct Hinv as [[Hh Hs] Hrt Hl Hm Hp]. set (t' := Build_thread _ _).
  pose proof (holders_insert _ id t' Hid) as H2. change (option_list (token t') ++ ?l) with l in H2.
  split; cbn [srv_admission srv_threads srv_sessions srv_rt with_threads].
  - split; cbn [srv_admission srv_threads srv_sessions with_threads]; [by rewrite H2|].
    intros i. rewrite Hs. destruct (decide (id = i)) as [<-|Hi]; [|by rewrite lookup_insert_ne].
    rewrite lookup_insert_eq, Hid. naive_solver.
  - done.
  - intros i t0 rt0 remote0. destruct (decide (id = i)) as [<-|Hi]; [|by rewrite lookup_insert_ne; eauto].
    rewrite lookup_insert_eq. by intros [= <-] [= <- _].
  - by rewrite (Permutation_length H2).
  - intros per a Ha Hpos. rewrite H2. by apply Hp.
Qed.

Lemma release_inv s id t source :
  server_inv s → srv_threads s !! id = Some t → th_phase t = Closing source →
  server_inv (release_slot s id t source).
Proof.
  intros [[Hh Hs] Hrt Hl Hm Hp] Hid Hph. unfold release_slot, set_phase. set (t' := Build_thread _ _).
  destruct (holders_update (srv_threads s) id t t' Hid) as (l&H1&H2).
  assert (token t = Some source) as Htok by (unfold token; by rewrite Hph). rewrite Htok in H1.
  change (holders (srv_threads s) ≡ₚ source :: l) in H1. change (holders (<[id := t']> (srv_threads s)) ≡ₚ l) in H2.
  split; cbn [srv_admission srv_threads srv_sessions srv_rt with_threads Admission.release_once snd].
  - split; cbn [srv_admission srv_threads srv_sessions with_threads].
    + rewrite H2. apply Admission.release_spec. by rewrite <-H1.
    + eapply sessions_update; [done..|]. unfold registered. by rewrite Hph.
  - done.
  - intros i t0 rt0 remote0. destruct (decide (id = i)) as [<-|Hi];
      [rewrite lookup_insert_eq; by intros [= <-]|by rewrite lookup_insert_ne; eauto].
  - rewrite (Permutation_length H2). rewrite (Permutation_length H1) in Hm. cbn [length] in Hm. lia.
  - intros per a Ha Hpos. rewrite H2. specialize (Hp per a Ha Hpos).
    rewrite H1, Admission.sources_count_cons in Hp. destruct (decide (source = a)); lia.
Qed.

Lemma register_inv s id t source :
  server_inv s → srv_threads s !! id = Some t → th_phase t = Holding source →
  server_inv (register s id t source).
Proof.
  intros Hinv Hid Hph. destruct Hinv as [[Hh Hs] Hrt Hl Hm Hp].
  set (t' := {| th_labels := th_labels t; th_phase := Running source |}).
  destruct (holders_update (srv_threads s) id t t' Hid) as (l&H1&H2).
  assert (token t' = token t) as Htok by (unfold token; by rewrite Hph). rewrite Htok, <-H1 in H2.
  split; unfold register, set_phase; cbn [srv_admission srv_threads srv_sessions srv_rt with_threads]; fold t'.
  - split; cbn [srv_admission srv_threads srv_sessions with_threads]; [by rewrite H2|].
    intros i. rewrite elem_of_union, elem_of_singleton, Hs. destruct (decide (id = i)) as [<-|Hi].
    + rewrite lookup_insert_eq. split; [eauto|by left].
    + rewrite lookup_insert_ne by done. naive_solver.
  - done.
  - intros i t0 rt0 remote0. destruct (decide (id = i)) as [<-|Hi];
      [rewrite lookup_insert_eq; by intros [= <-]|by rewrite lookup_insert_ne; eauto].
  - by rewrite (Permutation_length H2).
  - intros per a Ha Hpos. rewrite H2. by apply Hp.
Qed.

Lemma screen_inv s id t rt remote :
  server_inv s → srv_threads s !! id = Some t → th_phase t = Loaded rt remote →
  server_inv (screen s id t rt remote).
Proof.
  intros Hinv Hid Hph. unfold screen. destruct (sourceAllowed remote (sourceACL rt)) as [source allowed].
  assert (server_inv (with_threads s (srv_admission s) (srv_sessions s) (delete id (srv_threads s)))) as Hdrop.
  { eapply drop_inv; [done..|unfold token; by rewrite Hph|]. destruct Hinv as [[_ Hs] _ _ _ _].
    apply set_eq. intros i. rewrite elem_of_difference, elem_of_singleton, Hs. split; [|tauto].
    intros (t0&Ht0&Hr). split; [eauto|]. intros ->. rewrite Hid in Ht0. injection Ht0 as <-.
    unfold registered in Hr. by rewrite Hph in Hr. }
  destruct allowed; cbn [negb]; [|by apply reject_inv].
  destruct (Admission.acquire _ _ _ _) as [adm|] eqn:Hacq; [by eapply admit_inv|by apply reject_inv].
Qed.

Lemma server_step_inv s s' : server_inv s → server_step R s s' → server_inv s'.
Proof.
  intros Hinv. destruct 1 as [id labels remote Hid|id t rt remote Hid Hph|id t source Hid Hph|id t source r Hid Hph
    |id t source Hid Hph|id t source Hid Hph|id t Hid Hph|rt HR|].
  - by apply accept_inv.
  - by apply screen_inv.
  - by apply register_inv.
  - by apply reject_inv.
  - eapply update_inv; [done..| | |done]; unfold token, registered; by rewrite Hph.
  - by apply release_inv.
  - eapply drop_inv; [done..|unfold token; by rewrite Hph|done].
  - destruct Hinv as [[Hh Hs] Hrt Hl Hm Hp]. by split.
  - unfold Stop_begin. destruct (srv_stopping s); [done|]. destruct Hinv as [[Hh Hs] Hrt Hl Hm Hp]. by split.
Qed.

Lemma server_reachable rt s : R rt → rtc (server_step R) (NewServer rt) s → server_inv s.
Proof.
  intros HR. revert s. apply (rtc_ind_r server_inv (NewServer rt)).
  - split; [split|done|..]; cbn [NewServer srv_threads srv_sessions srv_admission].
    + split; [done|]. by intros a.
    + intros i. rewrite elem_of_empty. setoid_rewrite lookup_empty. naive_solver.
    + intros i t rt0 remote. by rewrite lookup_empty.
    + done.
    + by intros per a _ Hpos.
  - intros y z _ Hs Hy. by eapply server_step_inv.
Qed.
End invariant.

(** Without threads nothing is counted and nothing registered. *)
Lemma server_empty s : server_ok s → srv_threads s = ∅ → srv_admission s = Admission.zero ∧ srv_sessions s = ∅.
Proof.
  intros [[Ha Hps] Hs] He. rewrite He in Ha, Hps, Hs. split.
  - destruct (srv_admission s) as [act ps]. cbn in *. unfold Admission.zero. f_equal; [done|].
    apply map_eq. intros a. by rewrite Hps.
  - apply set_eq. intros i. rewrite Hs, elem_of_empty. setoid_rewrite lookup_empty. naive_solver.
Qed.

(** C36: admission.  In every interleaving of the accept loops, the session
    goroutines, reloads and shutdown, the counters of admission control are
    exact: [active] is the number of connections that hold a slot, and every
    source is counted with the slots it holds, without leftover entries.  Slots
    never exceed the limits of the routers installed, the session table holds
    exactly the registered sessions, and once every goroutine has ended nothing
    is left in either. *)
Theorem admission_exact R M rt s :
  (0 ≤ M)%Z → (∀ rt, R rt → (maxConnections rt ≤ M)%Z) → R rt →
  rtc (server_step R) (NewServer rt) s →
  server_ok s ∧ (Admission.activeCount (srv_admission s) ≤ M)%Z ∧
  (∀ per a, per_source_limit R per → (0 ≤ per)%Z → (Admission.count (srv_admission s) a ≤ per)%Z) ∧
  (srv_threads s = ∅ → srv_admission s = Admission.zero ∧ srv_sessions s = ∅).
Proof.
  intros HM Hmax HR Hr. destruct (server_reachable R M HM Hmax rt s HR Hr) as [[Hh Hs] _ _ Hm Hp].
  split; [done|]. split; [unfold Admission.activeCount; by rewrite (proj1 Hh)|]. split.
  - intros per a Hlim Hpos. rewrite (Admission.holds_count _ _ _ Hh). by apply Hp.
  - by apply server_empty.
Qed.

Definition demo_rt : router :=
  {| def := {| static := 0; dyn := None; order := None |}; dialTimeout := second; handshakeTimeout := second;
     idleTimeout := 0; shutdownGrace := second; maxConnections := 2; maxConnectionsPerSource := 1;
     maxClientHelloBytes := 65536; maxHTTPHeaderBytes := 65536; sourceACL := [must_prefix "127.0.0.0/8"];
     destination := {| allowByMark := ∅ |}; suffixes := None; resolvers := ∅; egressNames := ∅; connectAttemptCap := 4 |}.
Definition demo_labels : rejectionKey :=
  {| Protocol := protocolTLS; Reason := reasonNone; ListenerClass := classLocal |}.
Definition demo_thread (p : phase) : thread := {| th_labels := demo_labels; th_phase := p |}.

(** Two connections of one source: the second is over the limit. *)
Definition demo_server : server :=
  let lo := Some [127; 0; 0; 1]%Z in
  let s := accept_conn (NewServer demo_rt) 0 demo_labels lo in
  let s := accept_conn s 1 demo_labels lo in
  let s := screen s 0 (demo_thread (Loaded demo_rt lo)) demo_rt lo in
  screen s 1 (demo_thread (Loaded demo_rt lo)) demo_rt lo.

Lemma admission_exact_witness :
  (Admission.activeCount (srv_admission demo_server) ≤ 2)%Z ∧
  Admission.count (srv_admission demo_server) (Addr4 (127 * 2 ^ 24 + 1)) = 1%Z ∧
  srv_rejections demo_server !! with_reason demo_labels reasonOverload = Some 1%Z.
Proof.
  destruct (admission_exact (λ rt, rt = demo_rt) 2 demo_rt demo_server) as (_&Ha&_&_).
  - lia.
  - intros rt ->. vm_compute. discriminate.
  - reflexivity.
  - eapply rtc_l; [apply (step_accept _ _ 0 demo_labels (Some [127; 0; 0; 1]%Z)); reflexivity|].
    eapply rtc_l; [apply (step_accept _ _ 1 demo_labels (Some [127; 0; 0; 1]%Z)); reflexivity|].
    eapply rtc_l; [eapply (step_screen _ _ 0); reflexivity|].
    eapply rtc_l; [eapply (step_screen _ _ 1); reflexivity|]. apply rtc_refl.
  - split; [exact Ha|]. vm_compute. split; reflexivity.
Defined.

(** No connection outlives its session.  However the calls of [close] by the
    session's own goroutine and by a forced shutdown interleave with the handler
    handing over its backend, once [close] has run and the goroutines have closed
    what they took out of the session, the client and the backend are closed. *)
Theorem session_no_leak conn st :
  rtc Session.step (Session.init conn) st → Session.closed (Session.sess st) = true → Session.pending st = [] →
  Session.given st ⊆ Session.shut st.
Proof.
  intros Hr Hc Hp c Hg. destruct (Session.session_reachable _ _ Hr c Hg) as [_ H].
  destruct (H Hc) as [Hin|?]; [|done]. rewrite Hp in Hin. by apply elem_of_nil in Hin.
Qed.

(** The forced close comes first and the backend arrives late. *)
Lemma session_no_leak_witness :
  ∃ st, rtc Session.step (Session.init 1) st ∧ {[ 1; 2 ]} ⊆ Session.shut st.
Proof.
  set (s1 := {| Session.sess := {| Session.client := Some 1; Session.backend := None; Session.closed := true |};
    Session.pending := [1]; Session.shut := ∅; Session.given := {[ 1 ]} |}).
  set (s2 := {| Session.sess := Session.sess s1; Session.pending := [1; 2]; Session.shut := ∅;
    Session.given := {[ 2 ]} ∪ {[ 1 ]} |}).
  set (s3 := {| Session.sess := Session.sess s1; Session.pending := [2]; Session.shut := {[ 1 ]} ∪ ∅;
    Session.given := {[ 2 ]} ∪ {[ 1 ]} |}).
  set (s4 := {| Session.sess := Session.sess s1; Session.pending := []; Session.shut := {[ 2 ]} ∪ ({[ 1 ]} ∪ ∅);
    Session.given := {[ 2 ]} ∪ {[ 1 ]} |}).
  assert (rtc Session.step (Session.init 1) s4) as Hr.
  { eapply rtc_l; [apply (Session.step_close (Session.init 1))|]. fold s1.
    eapply rtc_l; [apply (Session.step_backend s1 2); [reflexivity|intros x Hx; exact Hx]|].
    eapply (rtc_l _ _ s3); [apply (Session.step_shut s2 [] 1 [2]); reflexivity|].
    eapply (rtc_l _ _ s4); [apply (Session.step_shut s3 [] 2 []); reflexivity|]. apply rtc_refl. }
  exists s4. split; [exact Hr|]. intros x Hx. apply (session_no_leak 1 s4 Hr eq_refl eq_refl).
  apply elem_of_union in Hx as [Hx|Hx]; apply elem_of_union; [right|left]; exact Hx.
Defined.

(** ** Requests *)
Section requests.
Context {W Conn E : Type} `{UnicodeTables} (toASCII : string → option string) (env : egress_env W Conn E).

(** How a handler ends: silently on a cancelled context, with a rejection, or
    with a backend to relay to. *)
Inductive handled := Dropped | Rejected (r : rejectionReason) | Relay (backend : Conn).

Definition pipe_handled (o : pipe_outcome Conn) : handled :=
  match o with
  | PipeDenied => Rejected reasonDestinationDenied
  | PipeDialError => Rejected reasonDialError
  | PipeCanceled => Dropped
  | PipeConnected conn => Relay conn
  end.

Context (captured : router) (current : option router) (hm : option Monitor.Monitor) (self : option (gset Addr)).

(** [peeked] is the server name of the ClientHello, which [crypto/tls] parses, or
    [None] on an error; [ctx_done] is [ctx.Err() != nil] at that point. *)
Definition handleTLS (peeked : option string) (ctx_done : bool) (ctx : Ctx W E) (m : ConnectMetrics)
    (s : egress_state W E) : handled * ConnectMetrics * egress_state W E :=
  let parse_error := if ctx_done then Dropped else Rejected reasonParseError in
  match peeked with
  | None => (parse_error, m, s)
  | Some serverName =>
      if is_empty serverName then (parse_error, m, s)
      else match canonicalHost toASCII serverName false with
           | Err _ => (Rejected reasonParseError, m, s)
           | Ok (host, isIP) =>
               let '(o, m, s) := pipe toASCII env captured current hm self ctx host isIP "443" m s in
               (pipe_handled o, m, s)
           end
  end.

(** [peekHTTPHostLimit]: [request] is what [http.ReadRequest] made of the bytes,
    its [Host], and [read] the bytes the limited reader handed out. *)
Inductive peek_error := ReadRequestFailed | HeaderTooLong | NoHost.
Definition peekHTTPHostLimit (request : option string) (read : string) (limit : Z) :
    result peek_error (string * string) :=
  match request with
  | None => Err ReadRequestFailed
  | Some host => if (limit <? Z.of_nat (String.length read))%Z then Err HeaderTooLong
                 else if is_empty host then Err NoHost
                 else Ok (host, read)
  end.

Definition handleHTTP (request : option string) (read : string) (ctx_done : bool) (ctx : Ctx W E)
    (m : ConnectMetrics) (s : egress_state W E) : handled * ConnectMetrics * egress_state W E :=
  match peekHTTPHostLimit request read (maxHTTPHeaderBytes captured) with
  | Err _ => (if ctx_done then Dropped else Rejected reasonParseError, m, s)
  | Ok (rawHost, _) =>
      match canonicalHost toASCII rawHost true with
      | Err _ => (Rejected reasonParseError, m, s)
      | Ok (host, isIP) =>
          let '(o, m, s) := pipe toASCII env captured current hm self ctx host isIP "80" m s in
          (pipe_handled o, m, s)
      end
  end.
End requests.

(** [RefreshNetworkAddresses]: [ifaces] are the strings of the interface addresses,
    [listeners] the IPs of the bound listeners. *)
Definition refresh_listener (values : gset Addr) (ip : option (list Z)) : gset Addr :=
  match ip ≫= AddrFromSlice with
  | Some a => if IsUnspecified a then values else {[ Unmap a ]} ∪ values
  | None => values
  end.
Definition RefreshNetworkAddresses (ifaces : list string) (listeners : list (option (list Z))) : gset Addr :=
  let values := foldl (λ values s, match ParsePrefix s with
                                   | Some p => {[ Unmap (p_ip p) ]} ∪ values
                                   | None => values
                                   end) ∅ ifaces in
  foldl refresh_listener values listeners.

(** ** The bytes of a session *)
Record directionResult (E : Type) := { clientToBackend : bool; bytes : Z; d_err : option E }.
Arguments clientToBackend {E} d.
Arguments bytes {E} d.
Arguments d_err {E} d.
Record connectionSessionResult := { ClientBytes : Z; BackendBytes : Z; Duration : Z; Outcome : string }.

(** [canceled] is [errors.Is(err, context.Canceled)]. *)
Definition sessionOutcome {E} (canceled : E → bool) (ctx_done : bool) (e : E) : string :=
  if ctx_done || canceled e then "canceled" else "error".

(** [writeAll] to a writer with the contract of [io.Writer]; the fuel is the
    length of the data, because every further round has written something. *)
Inductive write_error (E : Type) := WriteError (e : E) | ErrShortWrite.
Arguments WriteError {E} e.
Arguments ErrShortWrite {E}.
Fixpoint write_loop {W E} (fuel : nat) (write : W → string → nat * option E * W) (w : W) (data : string)
    (total : nat) : nat * option (write_error E) * W :=
  match fuel, data with
  | O, _ | _, EmptyString => (total, None, w)
  | S fuel, _ =>
      let '(n, err, w) := write w data in
      match err with
      | Some e => (total + n, Some (WriteError e), w)
      | None => if n =? 0 then (total + n, Some ErrShortWrite, w)
                else write_loop fuel write w (str_drop n data) (total + n)
      end
  end.
Definition writeAll {W E} (write : W → string → nat * option E * W) (w : W) (data : string) :
    nat * option (write_error E) * W :=
  write_loop (String.length data) write w data 0.

(** One direction's count, in the order the goroutines report. *)
Definition add_direction {E} (canceled : E → bool) (ctx_done : bool) (r : connectionSessionResult)
    (d : directionResult E) : connectionSessionResult :=
  {| ClientBytes := if clientToBackend d then wrap64 (ClientBytes r + wrap64 (bytes d)) else ClientBytes r;
     BackendBytes := if clientToBackend d then BackendBytes r else wrap64 (BackendBytes r + wrap64 (bytes d));
     Duration := Duration r;
     Outcome := match d_err d with Some e => sessionOutcome canceled ctx_done e | None => Outcome r end |}.

(** [prefix_written] is what [writeAll] returned for the peeked bytes, [first] and
    [second] the directions in the order they finish, [ctx_done] the context after. *)
Definition runConnectionSession {E} (canceled : E → bool) (prefix_written : nat * option E) (ctx_done : bool)
    (first second : directionResult E) (started ended : Z) : connectionSessionResult :=
  let r := {| ClientBytes := wrap64 (Z.of_nat prefix_written.1); BackendBytes := 0; Duration := 0; Outcome := "completed" |} in
  let r := match prefix_written.2 with
           | Some e => {| ClientBytes := ClientBytes r; BackendBytes := 0; Duration := 0;
                          Outcome := sessionOutcome canceled ctx_done e |}
           | None => foldl (add_direction canceled ctx_done) r [first; second]
           end in
  {| ClientBytes := ClientBytes r; BackendBytes := BackendBytes r; Duration := time_sub ended started; Outcome := Outcome r |}.

(** [recordSession]. *)
Record sessionAggregate := { Sessions : Z; agg_ClientBytes : Z; agg_BackendBytes : Z; TotalDuration : Z }.
Definition recordSession (m : gmap string sessionAggregate) (r : connectionSessionResult) : gmap string sessionAggregate :=
  let a := default {| Sessions := 0; agg_ClientBytes := 0; agg_BackendBytes := 0; TotalDuration := 0 |} (m !! Outcome r) in
  <[Outcome r := {| Sessions := wrap64 (Sessions a + 1);
                    agg_ClientBytes := wrap64 (agg_ClientBytes a + ClientBytes r);
                    agg_BackendBytes := wrap64 (agg_BackendBytes a + BackendBytes r);
                    TotalDuration := to_int64 (TotalDuration a + Duration r) |}]> m.

Lemma str_take_add n k s : str_take (n + k) s = str_take n s +:+ str_take k (str_drop n s).
Proof. revert s. induction n as [|n IH]; intros [|c s]; cbn; [done..| |by rewrite IH]. by destruct k. Qed.

Section write.
Context {W E : Type} (write : W → string → nat * option E * W) (sent : W → string).
(** The contract of [io.Writer]: at most the data, and what is counted is sent. *)
Hypothesis Hwrite : ∀ w d n e w', write w d = (n, e, w') →
  n ≤ String.length d ∧ sent w' = sent w +:+ str_take n d.

Lemma write_loop_spec fuel w data total :
  String.length data ≤ fuel →
  let '(n, e, w') := write_loop fuel write w data total in
  ∃ k, n = total + k ∧ k ≤ String.length data ∧ sent w' = sent w +:+ str_take k data ∧
    (e = None → k = String.length data).
Proof.
  revert w data total. induction fuel as [|fuel IH]; intros w data total Hf; cbn [write_loop].
  { exists 0. destruct data; [|cbn in Hf; lia]. rewrite str_app_nil_r. split_and!; [lia|done..]. }
  destruct data as [|c data]; [exists 0; rewrite str_app_nil_r; split_and!; [lia|done..]|].
  destruct (write w (String c data)) as [[n e] w1] eqn:Hw. destruct (Hwrite _ _ _ _ _ Hw) as [Hn Hs].
  destruct e as [e|]; [by exists n|]. destruct (Nat.eqb_spec n 0) as [->|Hn0]; [by exists 0|].
  specialize (IH w1 (str_drop n (String c data)) (total + n)).
  destruct (write_loop _ _ _ _ _) as [[n' e'] w']. rewrite length_str_drop in IH.
  destruct IH as (k&->&Hk&Hs'&He); [lia|]. exists (n + k). split_and!; [lia|lia| |].
  - rewrite Hs', Hs, <-str_app_assoc. f_equal. by rewrite str_take_add.
  - intros He'. specialize (He He'). lia.
Qed.

Lemma write_loop_fuel fuel w data total :
  String.length data ≤ fuel →
  write_loop fuel write w data total = write_loop (String.length data) write w data total.
Proof.
  remember (String.length data) as len eqn:Hlen. revert fuel w data total Hlen.
  induction len as [len IH] using lt_wf_ind. intros [|fuel] w data total -> Hf.
  { by destruct data; [|cbn in Hf; lia]. }
  destruct data as [|c data]; [done|]. cbn [write_loop String.length].
  destruct (write w (String c data)) as [[n e] w1]. destruct e; [done|].
  destruct (Nat.eqb_spec n 0); [done|]. pose proof (length_str_drop n (String c data)) as Hd. cbn in Hf, Hd.
  rewrite (IH (String.length (str_drop n (String c data))) ltac:(cbn; lia) fuel) by (cbn; lia).
  symmetry. apply (IH (String.length (str_drop n (String c data)))); cbn; lia.
Qed.
End write.

(** [writeAll] always returns.  Against any writer that keeps the contract of
    [io.Writer] the loop ends, with more fuel than the length of the data making no
    difference, the count it returns is what was sent, a prefix of the data, and
    without an error that is all of it. *)
Theorem writeAll_total {W E} (write : W → string → nat * option E * W) (sent : W → string) w data :
  (∀ w d n e w', write w d = (n, e, w') → n ≤ String.length d ∧ sent w' = sent w +:+ str_take n d) →
  (∀ fuel, String.length data ≤ fuel → write_loop fuel write w data 0 = writeAll write w data) ∧
  let '(n, e, w') := writeAll write w data in
  n ≤ String.length data ∧ sent w' = sent w +:+ str_take n data ∧ (e = None → n = String.length data).
Proof.
  intros Hw. split; [intros fuel Hf; by apply write_loop_fuel|]. unfold writeAll.
  pose proof (write_loop_spec write sent Hw (String.length data) w data 0 (le_n _)) as H.
  destruct (write_loop _ _ _ _ _) as [[n e] w']. by destruct H as (k&->&H).
Qed.

(** A writer that takes two bytes at a time. *)
Lemma writeAll_total_witness :
  let write (w : string) (d : string) := (2 `min` String.length d, @None unit, w +:+ str_take (2 `min` String.length d) d) in
  ∃ w', writeAll write "" "hello" = (5, None, w') ∧ w' = "hello".
Proof.
  intros write. destruct (writeAll_total write (λ w, w) "" "hello") as [_ H].
  - intros w d n e w' Heq. pose proof (f_equal (λ x, x.1.1) Heq) as Hn. pose proof (f_equal (λ x, x.2) Heq) as Hw.
    cbn [fst snd write] in Hn, Hw. subst n w'. split; [apply Nat.le_min_r|reflexivity].
  - destruct (writeAll write "" "hello") as [[n e] w'] eqn:Hr. vm_compute in Hr. injection Hr as <- <- <-.
    exists "hello". split; [reflexivity|]. destruct H as (_&H&_). exact H.
Defined.

(** The daemon's own addresses, as they were last read, are never dialled. *)
Lemma refresh_ifaces ifaces (values : gset Addr) x :
  x ∈ foldl (λ values s, match ParsePrefix s with
                         | Some p => {[ Unmap (p_ip p) ]} ∪ values
                         | None => values
                         end) values ifaces ↔
  x ∈ values ∨ ∃ s p, s ∈ ifaces ∧ ParsePrefix s = Some p ∧ x = Unmap (p_ip p).
Proof.
  revert values. induction ifaces as [|s l IH]; intros values; cbn [foldl].
  - setoid_rewrite elem_of_nil. naive_solver.
  - rewrite IH. setoid_rewrite elem_of_cons. destruct (ParsePrefix s) as [p|] eqn:Hp.
    + rewrite elem_of_union, elem_of_singleton. naive_solver.
    + naive_solver.
Qed.
Lemma refresh_listeners listeners (values : gset Addr) x :
  x ∈ foldl refresh_listener values listeners ↔
  x ∈ values ∨ ∃ ip a, Some ip ∈ listeners ∧ AddrFromSlice ip = Some a ∧ IsUnspecified a = false ∧ x = Unmap a.
Proof.
  revert values. induction listeners as [|o l IH]; intros values; cbn [foldl].
  { split; [by left|]. intros [?|(ip&a&?%elem_of_nil&_)]; done. }
  rewrite IH. unfold refresh_listener. split.
  - destruct (o ≫= AddrFromSlice) as [a|] eqn:Ho; [destruct (IsUnspecified a) eqn:Hu|].
    2:{ rewrite elem_of_union, elem_of_singleton. destruct o as [ip|]; [|done].
        intros [[->|?]|(ip'&a'&?&?)]; [right; exists ip, a|by left|right; exists ip', a'];
        rewrite elem_of_cons; split_and!; naive_solver. }
    all: intros [?|(ip&a'&?&?)]; [by left|right; exists ip, a']; rewrite elem_of_cons; split_and!; naive_solver.
  - intros [Hx|(ip&a&[<-|Hin]%elem_of_cons&Ha&Hu&->)].
    + left. destruct (o ≫= AddrFromSlice) as [a|]; [|done]. destruct (IsUnspecified a); set_solver.
    + left. cbn [mbind option_bind]. rewrite Ha, Hu. set_solver.
    + right. by exists ip, a.
Qed.

(** The proxy is not a way back into itself.  Whatever the policy allows, no
    address of an interface and no address a listener is bound to, as
    [RefreshNetworkAddresses] last read them, is permitted as a destination, in
    either of its IPv4 forms. *)
Theorem self_not_permitted rt ifaces listeners mk a :
  permitted rt (RefreshNetworkAddresses ifaces listeners) mk a →
  (∀ s p, s ∈ ifaces → ParsePrefix s = Some p → Unmap a ≠ Unmap (p_ip p)) ∧
  (∀ ip b, Some ip ∈ listeners → AddrFromSlice ip = Some b → Unmap a ≠ Unmap b).
Proof.
  intros [Ha _]. unfold addressAllowed in Ha.
  destruct (negb (IsValid a) || _); [done|]. destruct (IsUnspecified (Unmap a)) eqn:Hu; [done|].
  destruct (IsMulticast (Unmap a)); [done|]. cbn [orb] in Ha. case_bool_decide as Hs; [done|].
  unfold RefreshNetworkAddresses in Hs. rewrite refresh_listeners, refresh_ifaces in Hs. split.
  - intros s p Hin Hp He. apply Hs. left. right. by exists s, p.
  - intros ip b Hin Hb He. destruct (IsUnspecified b) eqn:Hub; [|apply Hs; right; by exists ip, b].
    rewrite He in Hu. unfold IsUnspecified in Hub. apply orb_true_iff in Hub as [Hub|Hub];
      apply bool_decide_eq_true in Hub; by rewrite Hub in Hu.
Qed.

Lemma self_not_permitted_witness :
  permitted demo_rt (RefreshNetworkAddresses ["192.0.2.7/24"] []) 0 (Addr4 (8 * 2 ^ 24 + 8)) ∧
  Unmap (Addr4 (8 * 2 ^ 24 + 8)) ≠ Unmap (Addr4 (192 * 2 ^ 24 + 2 * 2 ^ 8 + 7)).
Proof.
  assert (permitted demo_rt (RefreshNetworkAddresses ["192.0.2.7/24"] []) 0 (Addr4 (8 * 2 ^ 24 + 8))) as H.
  { split; [vm_compute; reflexivity|]. intros Hn. exfalso. apply Hn. reflexivity. }
  split; [exact H|]. destruct (self_not_permitted _ _ _ _ _ H) as [Hi _].
  apply (Hi "192.0.2.7/24" {| p_ip := Addr4 (192 * 2 ^ 24 + 2 * 2 ^ 8 + 7); p_bits := 24 |}); [left|vm_compute; reflexivity].
Defined.
