(* ===== verification/Relay.v ===== *)
(** * sni.go: the bytes of a session

    What [peekClientHelloLimit] and [peekHTTPHostLimit] take from the client, through
    [io.LimitReader] and [io.TeeReader], whatever the parser behind them asks for; then
    [runConnectionSession] with its two copying goroutines, the watcher of the context
    and the network as a step relation. *)
From S2P Require Import Prelude Netip ProxyDial Config Server.

(** ** Peeking *)

(** A parser as the reads it makes: [crypto/tls] up to [GetConfigForClient], or
    [bufio.Reader] under [http.ReadRequest]. *)
Inductive read_error (E : Type) := EOF | ReadError (e : E).
Arguments EOF {E}.
Arguments ReadError {E} e.
Inductive parser (E A : Type) :=
| Parsed (a : A)
| Wants (n : nat) (next : string → option (read_error E) → parser E A).
Arguments Parsed {E A} a.
Arguments Wants {E A} n next.

Section peek.
Context {W E : Type} (read : W → nat → string * option (read_error E) * W).

(** A reader and its state. *)
Definition reader (S : Type) : Type := S → nat → string * option (read_error E) * S.
Fixpoint parse {S A} (rd : reader S) (p : parser E A) (s : S) : A * S :=
  match p with
  | Parsed a => (a, s)
  | Wants n next => let '(chunk, err, s) := rd s n in parse rd (next chunk err) s
  end.
(** [io.LimitedReader]: the state is what is left and the reader below. *)
Definition LimitReader {S} (rd : reader S) : reader (Z * S) := λ '(quota, s) n,
  if (quota <=? 0)%Z then ("", Some EOF, (quota, s))
  else let '(chunk, err, s) := rd s (if (quota <? Z.of_nat n)%Z then Z.to_nat quota else n) in
       (chunk, err, (quota - Z.of_nat (String.length chunk), s)%Z).
(** [io.TeeReader] into a [bytes.Buffer]. *)
Definition TeeReader {S} (rd : reader S) : reader (string * S) := λ '(buffer, s) n,
  let '(chunk, err, s) := rd s n in (chunk, err, (buffer +:+ chunk, s)).

(** [readClientHelloLimit]: [None] when the handshake ended before a ClientHello. *)
Definition readClientHelloLimit {S} (rd : reader S) (tls : parser E (option string)) (limit : Z) (s : S) : option string * S :=
  let '(hello, (_, s)) := parse (LimitReader rd) tls (limit + 1, s)%Z in (hello, s).
(** The server name and the bytes taken, and what is left of the connection. *)
Definition peekClientHelloLimit (tls : parser E (option string)) (limit : Z) (w : W) : option (string * string) * W :=
  let '(hello, (buffer, (_, w))) := readClientHelloLimit (TeeReader (LimitReader read)) tls limit ("", (limit + 1, w))%Z in
  (match hello with
   | None => None
   | Some name => if (limit <? Z.of_nat (String.length buffer))%Z then None else Some (name, buffer)
   end, w).
Definition peekHTTP (request : parser E (option string)) (limit : Z) (w : W) : result peek_error (string * string) * W :=
  let '(host, (buffer, (_, w))) := parse (TeeReader (LimitReader read)) request ("", (limit + 1, w))%Z in
  (peekHTTPHostLimit host buffer limit, w).

(** *** What was read is what was taken *)
Context (taken : W → string).
(** The contract of [io.Reader]: at most what was asked for, from the stream. *)
Definition reads_stream : Prop :=
  ∀ w n chunk err w', read w n = (chunk, err, w') → String.length chunk ≤ n ∧ taken w' = taken w +:+ chunk.
(** Below the tee: the buffer holds what was taken since [start], within the limit. *)
Definition teed (start : string) (limit : Z) (s : string * (Z * W)) : Prop :=
  taken s.2.2 = start +:+ s.1 ∧ (0 ≤ s.2.1)%Z ∧ (Z.of_nat (String.length s.1) + s.2.1 = limit + 1)%Z.
Lemma parse_keeps {S A} (rd : reader S) (P : S → Prop) (p : parser E A) s :
  (∀ s n, P s → P (rd s n).2) → P s → P (parse rd p s).2.
Proof.
  intros Hk. revert s. induction p as [a|n next IH]; intros s Hs; [done|]. cbn [parse].
  specialize (Hk s n Hs). destruct (rd s n) as [[chunk err] s']. by apply IH.
Qed.
Lemma tee_keeps start limit s n : reads_stream → teed start limit s → teed start limit (TeeReader (LimitReader read) s n).2.
Proof.
  intros Hr. destruct s as [buffer [quota w]]. unfold teed. cbn [fst snd]. intros (Ht&H0&Hl).
  unfold TeeReader, LimitReader. destruct (Z.leb_spec quota 0); cbn [fst snd]; [by rewrite str_app_nil_r|].
  destruct (read w _) as [[chunk err] w'] eqn:Ew. apply Hr in Ew as [Hc Hw]. cbn [fst snd].
  rewrite Hw, Ht, str_app_assoc, str_length_app. split; [done|].
  destruct (Z.ltb_spec quota (Z.of_nat n)); lia.
Qed.
Lemma limit_keeps {S} (rd : reader S) (P : S → Prop) s n : (∀ s n, P s → P (rd s n).2) → P s.2 → P (LimitReader rd s n).2.2.
Proof.
  intros Hk. destruct s as [quota s]. unfold LimitReader. intros Hs. destruct (quota <=? 0)%Z; [done|]. cbn [snd] in Hs.
  specialize (Hk s (if (quota <? Z.of_nat n)%Z then Z.to_nat quota else n) Hs). by destruct (rd s _) as [[??]?].
Qed.

Lemma peek_teed {A} (p : parser E A) limit w : reads_stream → (0 ≤ limit)%Z →
  teed (taken w) limit (parse (TeeReader (LimitReader read)) p ("", (limit + 1, w))%Z).2.
Proof.
  intros Hr Hl. apply parse_keeps; [intros s n; by apply tee_keeps|]. split; [by rewrite str_app_nil_r|]. cbn [fst snd String.length]. lia.
Qed.
Lemma hello_teed (tls : parser E (option string)) limit w : reads_stream → (0 ≤ limit)%Z →
  teed (taken w) limit (readClientHelloLimit (TeeReader (LimitReader read)) tls limit ("", (limit + 1, w))%Z).2.
Proof.
  intros Hr Hl. unfold readClientHelloLimit.
  pose proof (parse_keeps (LimitReader (TeeReader (LimitReader read))) (λ s, teed (taken w) limit s.2) tls (limit + 1, ("", (limit + 1, w)))%Z) as Hp.
  destruct (parse _ _ _) as [hello [k s]]. apply Hp; [intros s0 n; apply limit_keeps; intros s1 n1; by apply tee_keeps|].
  split; [by rewrite str_app_nil_r|]. cbn [fst snd String.length]. lia.
Qed.
End peek.

(** C16: whatever the TLS or the HTTP parser asks for, peeking takes from the client at
    most one byte more than the limit; a peek that succeeds returns exactly the bytes
    it took, at most the limit of them, so that a relay that starts with them as prefix
    loses and repeats nothing. *)
Theorem peek_exact {W E} (read : W → nat → string * option (read_error E) * W) taken tls request limit w :
  reads_stream read taken → (0 ≤ limit)%Z →
  (let '(res, w') := peekClientHelloLimit read tls limit w in
   ∃ buffer, taken w' = taken w +:+ buffer ∧ (Z.of_nat (String.length buffer) ≤ limit + 1)%Z ∧
     ∀ name prefix, res = Some (name, prefix) → prefix = buffer ∧ (Z.of_nat (String.length prefix) ≤ limit)%Z) ∧
  (let '(res, w') := peekHTTP read request limit w in
   ∃ buffer, taken w' = taken w +:+ buffer ∧ (Z.of_nat (String.length buffer) ≤ limit + 1)%Z ∧
     ∀ host prefix, res = Ok (host, prefix) → prefix = buffer ∧ (Z.of_nat (String.length prefix) ≤ limit)%Z ∧ host ≠ "").
Proof.
  intros Hr Hl. split.
  - unfold peekClientHelloLimit. pose proof (hello_teed read taken tls limit w Hr Hl) as Ht.
    destruct (readClientHelloLimit _ _ _ _) as [hello [buffer [quota w']]]. destruct Ht as (Ht&H0&Hq). cbn [fst snd] in *.
    exists buffer. split; [done|]. split; [lia|]. intros name prefix. destruct hello; [|done]. destruct (Z.ltb_spec limit (Z.of_nat (String.length buffer))); [done|].
    intros [= <- <-]. auto.
  - unfold peekHTTP. pose proof (peek_teed read taken request limit w Hr Hl) as Ht.
    destruct (parse _ _ _) as [host [buffer [quota w']]]. destruct Ht as (Ht&H0&Hq). cbn [fst snd] in *.
    exists buffer. split; [done|]. split; [lia|]. intros name prefix. unfold peekHTTPHostLimit. destruct host as [host|]; [|done].
    destruct (Z.ltb_spec limit (Z.of_nat (String.length buffer))); [done|]. unfold is_empty. case_bool_decide; [done|]. intros [= <- <-]. auto.
Qed.
(** A stream held in a string, read in full chunks. *)
Definition stream_read (w : string * string) (n : nat) : string * option (read_error unit) * (string * string) :=
  let chunk := str_take n w.2 in (chunk, if is_empty chunk then Some EOF else None, (w.1 +:+ chunk, str_drop n w.2)).
Lemma stream_reads : reads_stream stream_read fst.
Proof.
  intros [t rest] n chunk err w'. unfold stream_read. intros [= <- _ <-]. split; [|done]. cbn [snd]. clear t. revert rest.
  induction n as [|n IH]; intros [|c rest]; cbn; [lia..|]. specialize (IH rest). lia.
Qed.
(** A parser of one line of up to eight bytes, for the example. *)
Definition demo_parser : parser unit (option string) := Wants 5 (λ a _, Wants 3 (λ b _, Parsed (Some (a +:+ b)))).
Lemma peek_exact_witness : ∃ prefix, (peekClientHelloLimit stream_read demo_parser 16 ("", "exampleX more")).1 = Some ("exampleX", prefix) ∧
  prefix = "exampleX" ∧ (Z.of_nat (String.length prefix) ≤ 16)%Z.
Proof.
  exists "exampleX". split; [vm_compute; reflexivity|].
  destruct (peek_exact stream_read fst demo_parser demo_parser 16 ("", "exampleX more") stream_reads ltac:(lia)) as [Hp _].
  revert Hp. vm_compute (peekClientHelloLimit stream_read demo_parser 16 ("", "exampleX more")). intros (b&_&_&Hb).
  split; [reflexivity|]. exact (proj2 (Hb "exampleX" "exampleX" eq_refl)).
Defined.

(** ** The session *)

(** A connection as the proxy sees it: what it has read, what has arrived and is unread,
    whether the peer has ended its stream, what was written, whether the writing half or
    the whole is closed, and the deadlines. *)
Record conn := {
  taken : string; rx : string; ended : bool; tx : string; fin : bool; shut : bool; rdl : option Z; wdl : option Z }.
Definition with_read (c : conn) (chunk rest : string) : conn :=
  {| taken := taken c +:+ chunk; rx := rest; ended := ended c; tx := tx c; fin := fin c; shut := shut c; rdl := rdl c; wdl := wdl c |}.
Definition with_written (c : conn) (data : string) : conn :=
  {| taken := taken c; rx := rx c; ended := ended c; tx := tx c +:+ data; fin := fin c; shut := shut c; rdl := rdl c; wdl := wdl c |}.
Definition Close (c : conn) : conn :=
  {| taken := taken c; rx := rx c; ended := ended c; tx := tx c; fin := fin c; shut := true; rdl := rdl c; wdl := wdl c |}.
Definition closeWrite (c : conn) : conn :=
  {| taken := taken c; rx := rx c; ended := ended c; tx := tx c; fin := true; shut := shut c; rdl := rdl c; wdl := wdl c |}.
Definition arrived (c : conn) (data : string) (last : bool) : conn :=
  {| taken := taken c; rx := rx c +:+ data; ended := last; tx := tx c; fin := fin c; shut := shut c; rdl := rdl c; wdl := wdl c |}.
Definition with_rdl (c : conn) (t : option Z) : conn :=
  {| taken := taken c; rx := rx c; ended := ended c; tx := tx c; fin := fin c; shut := shut c; rdl := t; wdl := wdl c |}.
Definition with_wdl (c : conn) (t : option Z) : conn :=
  {| taken := taken c; rx := rx c; ended := ended c; tx := tx c; fin := fin c; shut := shut c; rdl := rdl c; wdl := t |}.

Section relay.
Context {E : Type} (canceled : E → bool) (idle started : Z).

(** What a [Read] and a [Write] of a connection may return: a closed one or one past its
    deadline moves nothing and fails; [EOF] is the end of the stream; a short write has
    an error. *)
Definition expired (t : option Z) (now : Z) : bool := match t with Some t => (t <? now)%Z | None => false end.
Definition can_read (c : conn) (now : Z) (chunk rest : string) (err : option (read_error E)) : Prop :=
  rx c = chunk +:+ rest ∧
  match err with Some (ReadError _) => True | Some EOF => ended c = true ∧ rest = "" | None => True end ∧
  (shut c || expired (rdl c) now = true → chunk = "" ∧ ∃ e, err = Some (ReadError e)).
Definition can_write (c : conn) (now : Z) (data : string) (n : nat) (err : option E) : Prop :=
  n ≤ String.length data ∧ (err = None → n = String.length data) ∧
  (shut c || fin c || expired (wdl c) now = true → n = 0 ∧ err ≠ None).

(** One [io.Copy]: before a read, in it, in the write of what it returned, returned,
    sent to the channel. *)
Inductive copier :=
| Looping (count : Z)
| Reading (count : Z)
| Writing (chunk : string) (er : option (read_error E)) (count : Z)
| Copied (err : option (write_error E)) (count : Z)
| Sent (err : option (write_error E)) (count : Z).
Inductive main_phase :=
| Begin
| WritingPrefix (data : string) (total : nat)
| AwaitFirst (total : nat)
| AwaitSecond (total : nat) (first : directionResult (write_error E))
| Returned (r : connectionSessionResult).
Record relay := {
  client : conn; backend : conn; c2b : copier; b2c : copier; results : list (directionResult (write_error E));
  main : main_phase; ctx_done : bool; now : Z }.

Definition src (r : relay) (d : bool) : conn := if d then client r else backend r.
Definition dst (r : relay) (d : bool) : conn := if d then backend r else client r.
Definition copy (r : relay) (d : bool) : copier := if d then c2b r else b2c r.
Definition with_conns (r : relay) (d : bool) (s t : conn) : relay :=
  {| client := if d then s else t; backend := if d then t else s; c2b := c2b r; b2c := b2c r; results := results r;
     main := main r; ctx_done := ctx_done r; now := now r |}.
Definition with_copy (r : relay) (d : bool) (k : copier) : relay :=
  {| client := client r; backend := backend r; c2b := if d then k else c2b r; b2c := if d then b2c r else k; results := results r;
     main := main r; ctx_done := ctx_done r; now := now r |}.
Definition with_main (r : relay) (m : main_phase) : relay :=
  {| client := client r; backend := backend r; c2b := c2b r; b2c := b2c r; results := results r;
     main := m; ctx_done := ctx_done r; now := now r |}.
Definition with_results (r : relay) (l : list (directionResult (write_error E))) : relay :=
  {| client := client r; backend := backend r; c2b := c2b r; b2c := b2c r; results := l;
     main := main r; ctx_done := ctx_done r; now := now r |}.
Definition closeBoth (r : relay) : relay := with_conns r true (Close (client r)) (Close (backend r)).
Definition deadline (r : relay) (t : option Z) : option Z := if (0 <? idle)%Z then Some (now r + idle)%Z else t.

(** The loop of [io.Copy]: [idleReader.Read] and [idleWriter.Write] set their deadline
    first. *)
Definition begin_read (r : relay) (d : bool) (count : Z) : relay :=
  with_copy (with_conns r d (with_rdl (src r d) (deadline r (rdl (src r d)))) (dst r d)) d (Reading count).
Definition after_error (er : option (read_error E)) (count : Z) : copier :=
  match er with None => Looping count | Some EOF => Copied None count | Some (ReadError e) => Copied (Some (WriteError e)) count end.
Definition end_read (r : relay) (d : bool) (count : Z) (chunk rest : string) (er : option (read_error E)) : relay :=
  let s := with_read (src r d) chunk rest in
  if is_empty chunk then with_copy (with_conns r d s (dst r d)) d (after_error er count)
  else with_copy (with_conns r d s (with_wdl (dst r d) (deadline r (wdl (dst r d))))) d (Writing chunk er count).
Definition end_write (r : relay) (d : bool) (chunk : string) (er : option (read_error E)) (count : Z) (n : nat) (ew : option E) : relay :=
  let count := to_int64 (count + Z.of_nat n) in
  with_copy (with_conns r d (src r d) (with_written (dst r d) (str_take n chunk))) d
    match ew with
    | Some e => Copied (Some (WriteError e)) count
    | None => if n =? String.length chunk then after_error er count else Copied (Some ErrShortWrite) count
    end.
(** The end of [copyOne]. *)
Definition send (r : relay) (d : bool) (err : option (write_error E)) (count : Z) : relay :=
  let t := match err with None => closeWrite (dst r d) | Some _ => dst r d end in
  with_results (with_copy (with_conns r d (src r d) t) d (Sent err count))
    (results r ++ [{| clientToBackend := d; bytes := count; d_err := err |}]).

(** The prefix: [writeAll] call by call, then the goroutines start. *)
Definition spawn (r : relay) (total : nat) : relay :=
  with_main (with_copy (with_copy r true (Looping 0)) false (Looping 0)) (AwaitFirst total).
Definition begin (r : relay) (prefix : string) : relay :=
  if is_empty prefix then spawn r 0
  else with_main (with_conns r true (client r) (with_wdl (backend r) (deadline r (wdl (backend r))))) (WritingPrefix prefix 0).
Definition write_canceled (e : write_error E) : bool := match e with WriteError e => canceled e | ErrShortWrite => false end.
Definition no_direction : directionResult (write_error E) := {| clientToBackend := true; bytes := 0; d_err := None |}.
(** The deferred calls run with the return. *)
Definition return_with (r : relay) (prefix_written : nat * option (write_error E)) (first second : directionResult (write_error E)) : relay :=
  with_main (closeBoth r) (Returned (runConnectionSession write_canceled prefix_written (ctx_done r) first second started (now r))).
Definition write_prefix (r : relay) (data : string) (total n : nat) (err : option E) : relay :=
  let r := with_conns r true (client r) (with_written (backend r) (str_take n data)) in
  match err with
  | Some e => return_with r (total + n, Some (WriteError e)) no_direction no_direction
  | None => if n =? 0 then return_with r (total + n, Some ErrShortWrite) no_direction no_direction
            else if is_empty (str_drop n data) then spawn r (total + n)
            else with_main r (WritingPrefix (str_drop n data) (total + n))
  end.
Definition receive_first (r : relay) (total : nat) (first : directionResult (write_error E)) (l : list (directionResult (write_error E))) : relay :=
  let r := with_results (with_main r (AwaitSecond total first)) l in
  match d_err first with Some _ => closeBoth r | None => r end.

(** The copying goroutines exist. *)
Definition running (m : main_phase) : bool := match m with AwaitFirst _ | AwaitSecond _ _ => true | _ => false end.
(** The session's own steps. *)
Inductive own_step (prefix : string) (r : relay) : relay → Prop :=
| own_begin : main r = Begin → own_step prefix r (begin r prefix)
| own_prefix data total n err : main r = WritingPrefix data total → can_write (backend r) (now r) data n err →
    own_step prefix r (write_prefix r data total n err)
| own_read d count : copy r d = Looping count → running (main r) = true → own_step prefix r (begin_read r d count)
| own_got d count chunk rest er : copy r d = Reading count → running (main r) = true → can_read (src r d) (now r) chunk rest er →
    own_step prefix r (end_read r d count chunk rest er)
| own_wrote d chunk er count n ew : copy r d = Writing chunk er count → running (main r) = true → can_write (dst r d) (now r) chunk n ew →
    own_step prefix r (end_write r d chunk er count n ew)
| own_send d err count : copy r d = Copied err count → running (main r) = true → own_step prefix r (send r d err count)
| own_first total first l : main r = AwaitFirst total → results r = first :: l → own_step prefix r (receive_first r total first l)
| own_second total first second l : main r = AwaitSecond total first → results r = second :: l →
    own_step prefix r (return_with (with_results r l) (total, None) first second).
(** What others do: the peers send and end their streams, time passes, the context is
    cancelled and the watcher sees it, [Stop] closes the session's connections. *)
Definition with_time (r : relay) (done : bool) (t : Z) : relay :=
  {| client := client r; backend := backend r; c2b := c2b r; b2c := b2c r; results := results r;
     main := main r; ctx_done := done; now := t |}.
Inductive net_step (r : relay) : relay → Prop :=
| net_arrive d data last : ended (src r d) = false → net_step r (with_conns r d (arrived (src r d) data last) (dst r d))
| net_tick t : (now r ≤ t)%Z → net_step r (with_time r (ctx_done r) t)
| net_cancel : net_step r (with_time r true (now r))
| net_watch : ctx_done r = true → net_step r (closeBoth r)
| net_force : net_step r (closeBoth r).
Definition relay_step (prefix : string) (r r' : relay) : Prop := own_step prefix r r' ∨ net_step r r'.
(** The client has been peeked at, the backend just dialed. *)
Definition fresh (c : conn) : Prop := tx c = "" ∧ fin c = false.
Definition begins (prefix : string) (r : relay) : Prop :=
  main r = Begin ∧ results r = [] ∧ taken (client r) = prefix ∧ taken (backend r) = "" ∧ fresh (client r) ∧ fresh (backend r).

(** *** The invariant *)
Definition str_prefix (a b : string) : Prop := ∃ c, b = a +:+ c.
(** One direction: what was written is what was read, but for the chunk in hand. *)
Definition at_end (c : conn) (er : option (read_error E)) : Prop := er = Some EOF → ended c = true ∧ rx c = "".
Definition settled (s t : conn) (err : option (write_error E)) : Prop :=
  str_prefix (tx t) (taken s) ∧ (err = None → tx t = taken s ∧ ended s = true ∧ rx s = "").
Definition flows (s t : conn) (k : copier) : Prop :=
  match k with
  | Looping _ | Reading _ => tx t = taken s
  | Writing chunk er _ => tx t +:+ chunk = taken s ∧ at_end s er
  | Copied err _ => settled s t err
  | Sent err _ => settled s t err ∧ (err = None → fin t = true)
  end.
Definition copied (k : copier) : Z :=
  match k with Looping n | Reading n | Writing _ _ n | Copied _ n | Sent _ n => n end.
(** The count of a direction, modulo its width. *)
Definition counted (base : nat) (t : conn) (k : copier) : Prop :=
  wrap64 (Z.of_nat base + copied k) = wrap64 (Z.of_nat (String.length (tx t))).
Definition sent (d : bool) (k : copier) : list (directionResult (write_error E)) :=
  match k with Sent err n => [{| clientToBackend := d; bytes := n; d_err := err |}] | _ => [] end.
Definition base (total : nat) (d : bool) : nat := if d then total else 0.
Definition both (r : relay) (total : nat) (first : list (directionResult (write_error E))) : Prop :=
  (∀ d, flows (src r d) (dst r d) (copy r d) ∧ counted (base total d) (dst r d) (copy r d)) ∧
  first ++ results r ≡ₚ sent true (c2b r) ++ sent false (b2c r).
(** All of a stream went through. *)
Definition delivered (s t : conn) : Prop := tx t = taken s ∧ ended s = true ∧ rx s = "" ∧ fin t = true.
Definition final (r : relay) (res : connectionSessionResult) : Prop :=
  (∀ d, str_prefix (tx (dst r d)) (taken (src r d))) ∧ shut (client r) = true ∧ shut (backend r) = true ∧
  ClientBytes res = wrap64 (Z.of_nat (String.length (tx (backend r)))) ∧
  BackendBytes res = wrap64 (Z.of_nat (String.length (tx (client r)))) ∧
  Outcome res ∈ ["completed"; "canceled"; "error"] ∧
  (Outcome res = "completed" → ∀ d, delivered (src r d) (dst r d)).
Definition relay_ok (prefix : string) (r : relay) : Prop :=
  match main r with
  | Begin => begins prefix r
  | WritingPrefix data total =>
      results r = [] ∧ taken (client r) = tx (backend r) +:+ data ∧ data ≠ "" ∧ total = String.length (tx (backend r)) ∧
      taken (backend r) = "" ∧ fresh (client r) ∧ fin (backend r) = false
  | AwaitFirst total => both r total []
  | AwaitSecond total first => both r total [first]
  | Returned res => final r res
  end.

(** A direction depends on the reading side of one connection and the writing side of
    the other. *)
Definition same_in (a b : conn) : Prop := taken a = taken b ∧ rx a = rx b ∧ ended a = ended b.
Definition same_out (a b : conn) : Prop := tx a = tx b ∧ fin a = fin b.
Lemma flows_same s t s' t' k : same_in s' s → same_out t' t → flows s t k → flows s' t' k.
Proof. intros (E1&E2&E3) (E4&E5). destruct k; unfold flows, settled, at_end; rewrite ?E1, ?E2, ?E3, ?E4, ?E5; auto. Qed.
Lemma counted_same n t t' k : same_out t' t → counted n t k → counted n t' k.
Proof. intros [E1 _]. unfold counted. by rewrite E1. Qed.
Lemma both_same r r' total first : (∀ d, same_in (src r' d) (src r d)) → (∀ d, same_out (dst r' d) (dst r d)) →
  c2b r' = c2b r → b2c r' = b2c r → results r' = results r → both r total first → both r' total first.
Proof.
  intros Hs Ht E1 E2 E3 [Hf Hp]. split; [|by rewrite E1, E2, E3]. intros d. destruct (Hf d) as [Hd Hc].
  assert (copy r' d = copy r d) as -> by (destruct d; done). split; [eapply flows_same|eapply counted_same]; eauto.
Qed.
(** A step of one goroutine that does not send. *)
Lemma advance r d s t k total first : both r total first → same_in t (dst r d) → same_out s (src r d) →
  flows s t k → counted (base total d) t k → sent d k = [] → sent d (copy r d) = [] →
  both (with_copy (with_conns r d s t) d k) total first.
Proof.
  intros [Hf Hp] Ht Hs Hk Hc E1 E2. split.
  - intros d'. destruct (decide (d' = d)) as [->|Hd]; [by destruct d|].
    destruct (Hf d') as [Hd' Hc']. destruct d, d'; try done; cbn in *; (split; [eapply flows_same|eapply counted_same]; eauto).
  - destruct d; cbn in *; rewrite E1, ?Hp, ?E2; done.
Qed.
Lemma both_at r d total first : both r total first → flows (src r d) (dst r d) (copy r d) ∧ counted (base total d) (dst r d) (copy r d).
Proof. intros [Hf _]. apply Hf. Qed.

Lemma begin_read_ok r d count total first : copy r d = Looping count → both r total first → both (begin_read r d count) total first.
Proof. intros Hc Hb. destruct (both_at r d total first Hb) as [Hf Hn]. rewrite Hc in *. apply advance; try done. by rewrite Hc. Qed.
Lemma after_error_ok s t er count : tx t = taken s → at_end s er → flows s t (after_error er count).
Proof.
  intros Ht Ha. destruct er as [[|e]|]; cbn; [| |done].
  - split; [exists ""; by rewrite str_app_nil_r|]. intros _. split; [done|by apply Ha].
  - split; [exists ""; by rewrite str_app_nil_r|done].
Qed.
Lemma copied_after er count : copied (after_error er count) = count.
Proof. by destruct er as [[|e]|]. Qed.
Lemma sent_after d er count : sent d (after_error er count) = [].
Proof. by destruct er as [[|e]|]. Qed.
Lemma end_read_ok r d count chunk rest er total first : copy r d = Reading count → can_read (src r d) (now r) chunk rest er →
  both r total first → both (end_read r d count chunk rest er) total first.
Proof.
  intros Hc (Hr&He&_) Hb. destruct (both_at r d total first Hb) as [Hf Hn]. rewrite Hc in *.
  assert (at_end (with_read (src r d) chunk rest) er) as Ha by (intros ->; cbn; by destruct He).
  unfold end_read, is_empty. case_bool_decide as Hk.
  - subst chunk. apply advance; try done.
    + apply after_error_ok; [|done]. cbn. rewrite Hf. by rewrite str_app_nil_r.
    + unfold counted. rewrite copied_after. apply Hn.
    + apply sent_after.
    + by rewrite Hc.
  - apply advance; try done; [|by rewrite Hc]. cbn in *. split; [by rewrite Hf|done].
Qed.
Lemma str_take_all n s : n = String.length s → str_take n s = s.
Proof. intros ->. rewrite <-(str_app_nil_r s) at 2. by apply str_take_app. Qed.
Lemma end_write_ok r d chunk er count n ew total first : copy r d = Writing chunk er count → can_write (dst r d) (now r) chunk n ew →
  both r total first → both (end_write r d chunk er count n ew) total first.
Proof.
  intros Hc (Hn&He&_) Hb. destruct (both_at r d total first Hb) as [Hf Hk]. rewrite Hc in *. destruct Hf as [Hf Ha].
  apply advance; try done; [| | |by rewrite Hc].
  - assert (settled (src r d) (with_written (dst r d) (str_take n chunk)) (Some ErrShortWrite)) as Hs.
    { split; [|done]. exists (str_drop n chunk). cbn. by rewrite <-str_app_assoc, str_take_drop. }
    destruct ew as [e|]; [by destruct Hs|]. destruct (Nat.eqb_spec n (String.length chunk)) as [->|]; [|done].
    apply after_error_ok; [|done]. cbn. by rewrite str_take_all.
  - assert (counted (base total d) (with_written (dst r d) (str_take n chunk)) (Looping (to_int64 (count + Z.of_nat n)))) as Hw.
    { unfold counted in *. cbn in *. rewrite str_length_app, str_length_take by done.
      rewrite Nat2Z.inj_add, <-(wrap64_add_l (Z.of_nat (String.length (tx (dst r d))))), <-Hk, wrap64_add_l, <-wrap64_add_r, wrap64_to_int64, wrap64_add_r. f_equal. lia. }
    unfold counted in *. destruct ew; [done|]. destruct (_ =? _); [by rewrite copied_after|done].
  - destruct ew; [done|]. destruct (_ =? _); [apply sent_after|done].
Qed.
Lemma send_ok r d err count total first : copy r d = Copied err count → both r total first → both (send r d err count) total first.
Proof.
  intros Hc [Hf Hp]. unfold send. set (t := match err with None => _ | Some _ => _ end).
  assert (same_in t (dst r d) ∧ tx t = tx (dst r d) ∧ (err = None → fin t = true)) as (Hi&Ht&He) by (unfold t; by destruct err).
  split.
  - intros d'. pose proof (Hf d') as [Hd' Hn']. destruct (decide (d' = d)) as [->|Hd].
    + rewrite Hc in *. assert (counted (base total d) t (Sent err count)) as Hn'' by (unfold counted; by rewrite Ht).
      assert (flows (src r d) t (Sent err count)) as Hf'' by (split; [unfold settled; by rewrite Ht|done]). by destruct d.
    + destruct d, d'; try done; cbn in *; (split; [eapply flows_same|eapply counted_same]; eauto; done).
  - destruct d; cbn in *; rewrite app_assoc, Hp, Hc; cbn [sent app]; [by rewrite Permutation_app_comm|by rewrite app_nil_r].
Qed.
Lemma receive_first_ok r total first l : main r = AwaitFirst total → results r = first :: l → both r total [] →
  main (receive_first r total first l) = AwaitSecond total first ∧ both (receive_first r total first l) total [first].
Proof.
  intros _ Hl [Hf Hp]. rewrite Hl in Hp. unfold receive_first.
  assert (both (with_results (with_main r (AwaitSecond total first)) l) total [first]) as Hb.
  { split; [|exact Hp]. intros d. specialize (Hf d). by destruct d. }
  destruct (d_err first); [|done]. split; [done|]. eapply both_same; [..|exact Hb]; try done; by intros [].
Qed.
Lemma spawn_ok r total : tx (backend r) = taken (client r) → tx (client r) = taken (backend r) → taken (backend r) = "" →
  total = String.length (tx (backend r)) → results r = [] → both (spawn r total) total [].
Proof.
  intros H1 H2 H3 -> Hl. split; [|cbn; by rewrite Hl]. intros []; cbn; unfold counted; cbn.
  - by rewrite Z.add_0_r.
  - by rewrite H2, H3.
Qed.
(** The result of two directions, in either order. *)
Definition dir_result (d : bool) (n : Z) (err : option (write_error E)) : directionResult (write_error E) :=
  {| clientToBackend := d; bytes := n; d_err := err |}.
Lemma outcome_cases done_ e : sessionOutcome write_canceled done_ e = "canceled" ∨ sessionOutcome write_canceled done_ e = "error".
Proof. unfold sessionOutcome. case_match; auto. Qed.
Lemma session_result total done_ a b e1 e2 first second t : [first; second] ≡ₚ [dir_result true a e1; dir_result false b e2] →
  let res := runConnectionSession write_canceled (total, None) done_ first second started t in
  ClientBytes res = wrap64 (Z.of_nat total + a) ∧ BackendBytes res = wrap64 b ∧ Outcome res ∈ ["completed"; "canceled"; "error"] ∧
  (Outcome res = "completed" → e1 = None ∧ e2 = None).
Proof.
  intros Hp. assert (first = dir_result true a e1 ∧ second = dir_result false b e2 ∨ first = dir_result false b e2 ∧ second = dir_result true a e1) as Hc.
  { symmetry in Hp. apply Permutation_length_2_inv in Hp as [[= <- <-]|[= <- <-]]; auto. }
  assert (∀ e, sessionOutcome write_canceled done_ e ∈ ["completed"; "canceled"; "error"] ∧ sessionOutcome write_canceled done_ e ≠ "completed") as Ho.
  { intros e. destruct (outcome_cases done_ e) as [-> | ->]; (split; [|done]); apply (bool_decide_unpack _); by vm_compute. }
  assert ("completed" ∈ ["completed"; "canceled"; "error"]) as Hd by (by left).
  destruct Hc as [[-> ->]|[-> ->]]; cbn -[wrap64 sessionOutcome]; rewrite ?wrap64_add_l, ?wrap64_add_r, ?wrap64_idemp, ?Z.add_0_l;
    (split_and!; [done..| |]); destruct e1 as [e|], e2 as [e'|]; try done; try apply Ho; intros Hc; exfalso; by eapply Ho.
Qed.
Lemma prefix_result done_ total e t : let res := runConnectionSession write_canceled (total, Some e) done_ no_direction no_direction started t in
  ClientBytes res = wrap64 (Z.of_nat total) ∧ BackendBytes res = 0%Z ∧ Outcome res ∈ ["canceled"; "error"].
Proof. cbn -[sessionOutcome]. split_and!; [done..|]. destruct (outcome_cases done_ e) as [-> | ->]; apply (bool_decide_unpack _); by vm_compute. Qed.
Lemma sent_perm first second l (k k' : copier) : [first] ++ second :: l ≡ₚ sent true k ++ sent false k' →
  ∃ a b e1 e2, k = Sent e1 a ∧ k' = Sent e2 b ∧ [first; second] ≡ₚ [dir_result true a e1; dir_result false b e2].
Proof.
  intros Hp. pose proof (Permutation_length Hp) as Hl. destruct k as [| | | |e1 a], k' as [| | | |e2 b]; cbn in Hl; try lia.
  exists a, b, e1, e2. split_and!; [done..|]. destruct l; [done|cbn in Hl; lia].
Qed.
Lemma return_ok r total first second l : results r = second :: l → both r total [first] →
  final (return_with (with_results r l) (total, None) first second)
    (runConnectionSession write_canceled (total, None) (ctx_done r) first second started (now r)).
Proof.
  intros Hl [Hf Hp]. rewrite Hl in Hp. destruct (sent_perm _ _ _ _ _ Hp) as (a&b&e1&e2&E1&E2&Hp').
  destruct (session_result total (ctx_done r) a b e1 e2 first second (now r) Hp') as (Hc&Hb&Ho&Hn).
  pose proof (Hf true) as [Ft Ct]. pose proof (Hf false) as [Fs Cs]. cbn in Ft, Ct, Fs, Cs. rewrite E1 in *. rewrite E2 in *.
  destruct Ft as [[Ft1 Ft2] Ft3], Fs as [[Fs1 Fs2] Fs3]. unfold counted in Ct, Cs. cbn in Ct, Cs. split_and!; try done.
  - by intros [].
  - rewrite Hc. exact Ct.
  - rewrite Hb. rewrite <-(Z.add_0_l b). exact Cs.
  - intros [-> ->]%Hn. destruct (Ft2 eq_refl) as (?&?&?), (Fs2 eq_refl) as (?&?&?). intros []; cbn; unfold delivered; cbn; auto.
Qed.
Lemma prefix_final r total e : str_prefix (tx (backend r)) (taken (client r)) → tx (client r) = "" → total = String.length (tx (backend r)) →
  final (return_with r (total, Some e) no_direction no_direction)
    (runConnectionSession write_canceled (total, Some e) (ctx_done r) no_direction no_direction started (now r)).
Proof.
  intros Hp Ht ->. destruct (prefix_result (ctx_done r) (String.length (tx (backend r))) e (now r)) as (Hc&Hb&Ho).
  assert (Outcome (runConnectionSession write_canceled (String.length (tx (backend r)), Some e) (ctx_done r) no_direction no_direction started (now r)) ∈
    ["completed"; "canceled"; "error"] ∧ Outcome (runConnectionSession write_canceled (String.length (tx (backend r)), Some e) (ctx_done r) no_direction no_direction started (now r)) ≠ "completed") as [Ho1 Ho2].
  { repeat (apply elem_of_cons in Ho as [-> |Ho]; [split; [apply (bool_decide_unpack _); by vm_compute|done]|]). by apply elem_of_nil in Ho. }
  split_and!; try done.
  - intros []; cbn; [done|]. exists (taken (backend r)). by rewrite Ht.
  - rewrite Hb. cbn. by rewrite Ht.
Qed.

(** What the network does keeps the invariant: an arrival because nothing follows the
    end of a stream, the rest because it touches neither data nor goroutines. *)
Record quiet (r r' : relay) : Prop := {
  quiet_in d : taken (src r' d) = taken (src r d) ∧ (ended (src r d) = true → same_in (src r' d) (src r d));
  quiet_out d : same_out (dst r' d) (dst r d);
  quiet_shut d : shut (src r d) = true → shut (src r' d) = true;
  quiet_copy : c2b r' = c2b r ∧ b2c r' = b2c r ∧ results r' = results r ∧ main r' = main r }.
Lemma net_quiet r r' : net_step r r' → quiet r r'.
Proof.
  destruct 1 as [d data final_ Hd|t Ht| | |]; split; try (by intros []); try done.
  - intros d'. destruct (decide (d' = d)) as [->|]; [|by destruct d, d']. assert (src (with_conns r d (arrived (src r d) data final_) (dst r d)) d =
      arrived (src r d) data final_) as -> by (by destruct d). split; [done|]. by rewrite Hd.
  - intros d'. by destruct d, d'.
  - intros d'. by destruct d, d'.
Qed.
Lemma flows_quiet s t s' t' k : taken s' = taken s → (ended s = true → same_in s' s) → same_out t' t → flows s t k → flows s' t' k.
Proof.
  intros Hs He (Ht&Hf). assert (∀ err, settled s t err → settled s' t' err) as Hset.
  { intros err [Hp Hn]. split; [by rewrite Ht, Hs|]. intros ->. destruct (Hn eq_refl) as (?&Hend&?). destruct (He Hend) as (_&Hr&Hen). by rewrite Ht, Hs, Hr, Hen. }
  destruct k; unfold flows; rewrite ?Ht, ?Hs, ?Hf; try done; [|apply Hset|intros [H1 H2]; auto].
  intros [Hc Ha]. split; [done|]. intros Her. destruct (Ha Her) as [Hend ?]. destruct (He Hend) as (_&Hr&Hen). by rewrite Hr, Hen.
Qed.
Lemma both_quiet r r' total first : quiet r r' → both r total first → both r' total first.
Proof.
  intros [Hi Ho _ (E1&E2&E3&_)] [Hf Hp]. split; [|by rewrite E1, E2, E3]. intros d. destruct (Hf d) as [Hd Hc].
  assert (copy r' d = copy r d) as -> by (destruct d; done). destruct (Hi d) as [Ht He]. split; [by eapply flows_quiet|by eapply counted_same].
Qed.
Lemma relay_ok_quiet prefix r r' : quiet r r' → relay_ok prefix r → relay_ok prefix r'.
Proof.
  intros Hq. pose proof Hq as [Hi Ho Hsh (_&_&E3&Em)]. unfold relay_ok. rewrite Em.
  destruct (Hi true) as [Ht _], (Hi false) as [Hb _], (Ho true) as [Ot1 Ot2], (Ho false) as [Of1 Of2]. cbn in Ht, Hb, Ot1, Ot2, Of1, Of2.
  destruct (main r) as [|data total|total|total first|res] eqn:Hm.
  - unfold begins, fresh. by rewrite Em, E3, Ht, Hb, Ot1, Ot2, Of1, Of2, Hm.
  - unfold fresh. by rewrite E3, Ht, Hb, Ot1, Ot2, Of1, Of2.
  - by apply both_quiet.
  - by apply both_quiet.
  - intros (Hp&S1&S2&Hc&Hbb&Hout&Hd). split_and!; try done.
    + intros d. destruct (Hi d) as [-> _], (Ho d) as [-> _]. apply Hp.
    + by apply (Hsh true).
    + by apply (Hsh false).
    + by rewrite Ot1.
    + by rewrite Of1.
    + intros Hres d. destruct (Hd Hres d) as (D1&D2&D3&D4). destruct (Hi d) as [Hta He], (Ho d) as [Htx Hfi]. destruct (He D2) as (_&Hr&Hen).
      unfold delivered. by rewrite Htx, Hfi, Hta, Hr, Hen.
Qed.

Lemma begin_ok prefix r : begins prefix r → relay_ok prefix (begin r prefix).
Proof.
  intros (Hm&Hl&Ht&Hb&[Hc1 Hc2]&[Hb1 Hb2]). unfold begin, is_empty. case_bool_decide as Hp.
  - unfold relay_ok. cbn [main spawn with_main]. apply spawn_ok; try done; [by rewrite Hb1, Ht|by rewrite Hc1, Hb|by rewrite Hb1].
  - unfold relay_ok. cbn. rewrite Hb1, Ht. by split_and!.
Qed.
Lemma write_prefix_ok prefix r data total n err : main r = WritingPrefix data total → can_write (backend r) (now r) data n err →
  relay_ok prefix r → relay_ok prefix (write_prefix r data total n err).
Proof.
  intros Hm (Hn&He&_). unfold relay_ok. rewrite Hm. intros (Hl&Ht&Hd&Htot&Hb&[Hc1 Hc2]&Hfin).
  set (r1 := with_conns r true (client r) (with_written (backend r) (str_take n data))).
  assert (taken (client r1) = tx (backend r1) +:+ str_drop n data) as Hr1 by (cbn; by rewrite <-str_app_assoc, str_take_drop).
  assert (total + n = String.length (tx (backend r1))) as Htot1 by (cbn; rewrite str_length_app, str_length_take by done; lia).
  assert (str_prefix (tx (backend r1)) (taken (client r1))) as Hpre by (eexists; exact Hr1).
  unfold write_prefix. fold r1. destruct err as [e|]; [by apply (prefix_final r1)|].
  assert (n = String.length data) as -> by auto. destruct (Nat.eqb_spec (String.length data) 0); [by apply (prefix_final r1)|].
  assert (str_drop (String.length data) data = "") as Hdr by (rewrite <-(str_app_nil_r data) at 2; by apply str_drop_app).
  unfold is_empty. rewrite bool_decide_eq_true_2 by done. cbn [main spawn with_main]. rewrite Hdr, str_app_nil_r in Hr1.
  apply spawn_ok; try done. cbn. by rewrite Hc1, Hb.
Qed.
Lemma own_ok prefix r r' : own_step prefix r r' → relay_ok prefix r → relay_ok prefix r'.
Proof.
  destruct 1 as [Hm|data total n err Hm Hw|d count Hc Hr|d count chunk rest er Hc Hr Hg|d chunk er count n ew Hc Hr Hw|d err count Hc Hr|total first l Hm Hl|total first second l Hm Hl].
  - unfold relay_ok at 1. rewrite Hm. apply begin_ok.
  - by apply write_prefix_ok.
  - unfold relay_ok. replace (main (begin_read r d count)) with (main r) by done. destruct (main r); try done; by apply begin_read_ok.
  - unfold relay_ok. replace (main (end_read r d count chunk rest er)) with (main r) by (unfold end_read; by case_match).
    destruct (main r); try done; by apply end_read_ok.
  - unfold relay_ok. replace (main (end_write r d chunk er count n ew)) with (main r) by done. destruct (main r); try done; by apply end_write_ok.
  - unfold relay_ok. replace (main (send r d err count)) with (main r) by done. destruct (main r); try done; by apply send_ok.
  - unfold relay_ok at 1. rewrite Hm. intros Hb. destruct (receive_first_ok r total first l Hm Hl Hb) as [Em Hb']. unfold relay_ok. by rewrite Em.
  - unfold relay_ok at 1. rewrite Hm. intros Hb. exact (return_ok r total first second l Hl Hb).
Qed.
Lemma relay_reachable prefix r r' : begins prefix r → rtc (relay_step prefix) r r' → relay_ok prefix r'.
Proof.
  intros Hb Hr. assert (relay_ok prefix r) as Hok by (unfold relay_ok; by rewrite (proj1 Hb)). clear Hb.
  induction Hr as [|r r1 r2 [Hs|Hs] _ IH]; [done| |]; apply IH; [by eapply own_ok|by eapply relay_ok_quiet, Hok; apply net_quiet].
Qed.

(** *** The end of a session whose connections are closed *)
Definition both_shut (r : relay) : Prop := shut (client r) = true ∧ shut (backend r) = true.
Definition copier_left (k : copier) : nat :=
  match k with Looping _ => 3 | Reading _ | Writing _ _ _ => 2 | Copied _ _ => 1 | Sent _ _ => 0 end.
Definition steps_left (r : relay) : nat :=
  match main r with
  | Begin => 9
  | WritingPrefix _ _ => 1
  | AwaitFirst _ => 2 + copier_left (c2b r) + copier_left (b2c r)
  | AwaitSecond _ _ => 1 + copier_left (c2b r) + copier_left (b2c r)
  | Returned _ => 0
  end.
Lemma both_shut_at r d : both_shut r → shut (src r d) = true ∧ shut (dst r d) = true.
Proof. intros []. by destruct d. Qed.
Lemma copier_step r r' d : main r' = main r → running (main r) = true → copy r' (negb d) = copy r (negb d) →
  copier_left (copy r' d) < copier_left (copy r d) → steps_left r' < steps_left r.
Proof. intros Em Hr Hn Hl. unfold steps_left. rewrite Em. destruct (main r); try done; destruct d; cbn in *; rewrite Hn; lia. Qed.
Lemma own_shut prefix r r' : own_step prefix r r' → both_shut r → both_shut r' ∧ steps_left r' < steps_left r.
Proof.
  intros Hs Hb. pose proof (λ d, both_shut_at r d Hb) as Hd.
  destruct Hs as [Hm|data total n err Hm Hw|d count Hc Hr|d count chunk rest er Hc Hr Hg|d chunk er count n ew Hc Hr Hw|d err count Hc Hr|total first l Hm Hl|total first second l Hm Hl].
  - destruct Hb. unfold begin. case_match; split; try done; unfold steps_left; rewrite Hm; cbn; lia.
  - destruct Hw as (_&_&Hw). destruct (Hd true) as [_ Hsh]. cbn in Hsh. rewrite Hsh in Hw. destruct (Hw eq_refl) as [-> Hne]. destruct err; [|done].
    split; [done|]. unfold steps_left. rewrite Hm. cbn. lia.
  - split; [destruct Hb; by destruct d|]. apply (copier_step _ _ d); try done; [by destruct d|]. rewrite Hc. destruct d; cbn; lia.
  - destruct Hg as (_&_&Hg). destruct (Hd d) as [Hsh _]. rewrite Hsh in Hg. destruct (Hg eq_refl) as (->&e&->).
    unfold end_read, is_empty. rewrite bool_decide_eq_true_2 by done. split; [destruct Hb; by destruct d|]. apply (copier_step _ _ d); try done; [by destruct d|]. rewrite Hc. destruct d; cbn; lia.
  - destruct Hw as (_&_&Hw). destruct (Hd d) as [_ Hsh]. rewrite Hsh in Hw. destruct (Hw eq_refl) as [-> Hne]. destruct ew; [|done].
    split; [destruct Hb; by destruct d|]. apply (copier_step _ _ d); try done; [by destruct d|]. rewrite Hc. destruct d; cbn; lia.
  - split; [destruct Hb; by destruct d, err|]. apply (copier_step _ _ d); try done; [by destruct d|]. rewrite Hc. destruct d; cbn; lia.
  - split; [destruct Hb; unfold receive_first; by case_match|]. unfold steps_left, receive_first. rewrite Hm. destruct (d_err first); cbn; lia.
  - split; [done|]. unfold steps_left. rewrite Hm. cbn. lia.
Qed.
(** Closed connections answer every call with an error, so no goroutine waits. *)
Lemma own_moves prefix r (closed : E) : relay_ok prefix r → both_shut r → (∃ res, main r = Returned res) ∨ ∃ r', own_step prefix r r'.
Proof.
  intros Hok Hb. pose proof (λ d, both_shut_at r d Hb) as Hd.
  assert (running (main r) = true → ∀ d, (∃ r', own_step prefix r r') ∨ ∃ err n, copy r d = Sent err n) as Hcopy.
  { intros Hr d. destruct (Hd d) as [Hsrc Hdst]. destruct (copy r d) as [n|n|chunk er n|err n|err n] eqn:Hc; [left..|eauto].
    - eexists. by apply (own_read _ _ d n).
    - eexists. apply (own_got _ _ d n "" (rx (src r d)) (Some (ReadError closed))); try done. split; [done|]. split; [done|]. eauto.
    - eexists. apply (own_wrote _ _ d chunk er n 0 (Some closed)); try done. split; [lia|]. done.
    - eexists. by apply (own_send _ _ d err n). }
  unfold relay_ok in Hok. destruct (main r) as [|data total|total|total first|res] eqn:Hm; [right..|eauto].
  - eexists. by apply own_begin.
  - destruct (Hd true) as [_ Hsh]. eexists. apply (own_prefix _ _ data total 0 (Some closed)); [done|]. split; [lia|]. done.
  - destruct (Hcopy eq_refl true) as [|(e1&n1&E1)]; [done|]. cbn in E1. destruct Hok as [_ Hp]. rewrite E1 in Hp.
    destruct (results r) as [|x l] eqn:El; [by apply Permutation_nil_cons in Hp|]. eexists. by apply own_first.
  - destruct (Hcopy eq_refl true) as [|(e1&n1&E1)]; [done|]. destruct (Hcopy eq_refl false) as [|(e2&n2&E2)]; [done|]. cbn in E1, E2.
    destruct Hok as [_ Hp]. rewrite E1, E2 in Hp. destruct (results r) as [|x l] eqn:El; [by apply Permutation_length in Hp|].
    eexists. by eapply own_second.
Qed.
End relay.

(** C14: what the client sent first and was peeked at, and everything after it, reaches
    the backend unchanged and in order, and so does the other direction: in every
    interleaving of the two copies, the network, deadlines and cancellation, what was
    written is a prefix of what was read.  A session that returns has closed both
    connections, counts the bytes it wrote modulo 2^64, and one that ends as completed
    has read both streams to their end, delivered all of them and half-closed both. *)
Theorem relay_sound {E} (canceled : E → bool) idle started prefix r0 r : begins prefix r0 → rtc (relay_step canceled idle started prefix) r0 r →
  (∀ d, str_prefix (tx (dst r d)) (taken (src r d))) ∧ (∀ res, main r = Returned res → final r res).
Proof.
  intros Hb Hr. pose proof (relay_reachable canceled idle started prefix r0 r Hb Hr) as Hok. unfold relay_ok in Hok.
  assert (∀ a, str_prefix "" a) as Hnil by (intros a; by exists a). assert (∀ a, str_prefix a a) as Hrefl by (intros a; exists ""; by rewrite str_app_nil_r).
  assert (∀ total first, both r total first → ∀ d, str_prefix (tx (dst r d)) (taken (src r d))) as Hboth.
  { intros total first [Hf _] d. destruct (Hf d) as [Hd _]. destruct (copy r d); cbn in Hd; [rewrite Hd; apply Hrefl..| | |]; [|apply Hd|apply (proj1 Hd)].
    destruct Hd as [<- _]. by eexists. }
  destruct (main r) as [|data total|total|total first|res] eqn:Hm; (split; [|intros res' [=]]).
  - destruct Hok as (_&_&_&_&[H1 _]&[H2 _]). intros []; cbn; rewrite ?H1, ?H2; apply Hnil.
  - destruct Hok as (_&H1&_&_&_&[H2 _]&_). intros []; cbn; [rewrite H1; by eexists|rewrite H2; apply Hnil].
  - by eapply Hboth.
  - by eapply Hboth.
  - apply Hok.
  - by subst.
Qed.

(** C15: once both connections of a session are closed, by the watcher of a cancelled
    context or by a forced shutdown, the session ends by itself: every run of its own
    steps takes at most nine, and only a session that has returned has none left. *)
Theorem relay_drains {E} (canceled : E → bool) (closed : E) idle started prefix r0 r n r' : begins prefix r0 →
  rtc (relay_step canceled idle started prefix) r0 r → both_shut r → nsteps (own_step canceled idle started prefix) n r r' →
  n ≤ 9 ∧ ((∀ r'', ¬ own_step canceled idle started prefix r' r'') → ∃ res, main r' = Returned res ∧ final r' res).
Proof.
  intros Hb Hr Hs Hn. pose proof (relay_reachable canceled idle started prefix r0 r Hb Hr) as Hok.
  assert (n + steps_left r' ≤ steps_left r ∧ both_shut r' ∧ relay_ok prefix r') as (Hle&Hs'&Hok').
  { clear Hb Hr. induction Hn as [r|n r r1 r2 Hstep _ IH]; [done|]. destruct (own_shut _ _ _ _ _ _ Hstep Hs) as [Hs1 Hlt].
    destruct (IH Hs1) as (?&?&?); [by eapply own_ok|]. split_and!; [lia|done..]. }
  split.
  - assert (steps_left r ≤ 9); [|lia]. unfold steps_left. destruct (main r); try lia; destruct (c2b r), (b2c r); cbn; lia.
  - intros Hstuck. destruct (own_moves canceled idle started prefix r' closed Hok' Hs') as [(res&Hm)|(r''&Hr'')]; [|by apply Hstuck in Hr''].
    exists res. split; [done|]. unfold relay_ok in Hok'. by rewrite Hm in Hok'.
Qed.

Module RelayDemo.
Definition demo_conn (got waiting : string) : conn :=
  {| taken := got; rx := waiting; ended := true; tx := ""; fin := false; shut := false; rdl := None; wdl := None |}.
(** A client that sent a request and ended, a backend that answers and ends. *)
Definition demo_relay : relay (E := unit) :=
  {| client := demo_conn "GET" ""; backend := demo_conn "" "ok"; c2b := Looping 0; b2c := Looping 0; results := []; main := Begin;
     ctx_done := false; now := 0 |}.
Lemma demo_begins : begins "GET" demo_relay.
Proof. repeat split. Qed.
Abbreviation demo_step := (relay_step (λ _ : unit, false) 60 0 "GET").
#[local] Tactic Notation "own" open_constr(H) := eapply rtc_l; [left; eapply H; try reflexivity; repeat split; by intros|].
Lemma demo_run : ∃ r res, rtc demo_step demo_relay r ∧ main r = Returned res ∧ Outcome res = "completed" ∧ taken (client r) = "GET".
Proof.
  do 2 eexists. split.
  { own own_begin. own (own_prefix _ _ _ _ _ _ _ 3 None).
    own (own_read _ _ _ _ _ true).
    own (own_got _ _ _ _ _ true _ "" "" (Some EOF)).
    own (own_send _ _ _ _ _ true).
    own (own_read _ _ _ _ _ false).
    own (own_got _ _ _ _ _ false _ "ok" "" (Some EOF)).
    own (own_wrote _ _ _ _ _ false _ _ _ 2 None).
    own (own_send _ _ _ _ _ false).
    own own_first.
    own own_second. apply rtc_refl. }
  vm_compute. repeat split.
Qed.
Lemma relay_sound_witness : ∃ r res, rtc demo_step demo_relay r ∧ main r = Returned res ∧ tx (backend r) = "GET" ∧ tx (client r) = taken (backend r) ∧
  shut (client r) = true.
Proof.
  destruct demo_run as (r&res&Hr&Hm&Ho&Hc). exists r, res.
  destruct (relay_sound (λ _ : unit, false) 60 0 "GET" demo_relay r demo_begins Hr) as [_ Hf].
  destruct (Hf res Hm) as (_&Hs&_&_&_&_&Hd). split; [exact Hr|]. split; [exact Hm|]. pose proof (Hd Ho true) as (Ht&_). pose proof (Hd Ho false) as (Hb&_).
  split; [|split; [exact Hb|exact Hs]]. cbn in Ht. rewrite Ht. exact Hc.
Defined.
(** The context is cancelled before the prefix is written and the watcher closes both. *)
Definition demo_closed : relay (E := unit) := closeBoth (with_time (begin 60 demo_relay "GET") true 0).
Lemma relay_drains_witness : ∃ r res, nsteps (own_step (λ _ : unit, false) 60 0 "GET") 1 demo_closed r ∧ main r = Returned res ∧ final r res.
Proof.
  assert (rtc demo_step demo_relay demo_closed) as Hr.
  { own own_begin. eapply rtc_l; [right; apply net_cancel|]. eapply rtc_l; [right; apply net_watch; reflexivity|]. apply rtc_refl. }
  set (r' := write_prefix (λ _ : unit, false) 0 demo_closed "GET" 0 0 (Some tt)).
  assert (nsteps (own_step (λ _ : unit, false) 60 0 "GET") 1 demo_closed r') as Hn.
  { apply nsteps_once, own_prefix; [reflexivity|]. repeat split; try done. cbn. lia. }
  destruct (relay_drains (λ _ : unit, false) tt 60 0 "GET" demo_relay demo_closed 1 r' demo_begins Hr (conj eq_refl eq_refl) Hn) as [_ Hd].
  destruct Hd as (res&Hm&Hf); [intros r'' Hs; inversion Hs; subst; try discriminate|]. exists r', res. split; [exact Hn|]. split; [exact Hm|exact Hf].
Defined.
End RelayDemo.
