(* ===== verification/Shutdown.v ===== *)
(** * sni.go: listeners, accept loops and [Stop]

    The life of the server around the sessions of [Server]: [Start] with its listeners,
    each accept loop with its back-off, and [Stop], which closes admission, waits for the
    loops, waits for the sessions until the grace period ends, force-closes the rest and
    waits for them.  Every step acts on the server by a step of [Server.server_step]. *)
From S2P Require Import Prelude Netip ProxyDial ProxyPolicy Config Router Server.

(** ** Start *)

(** An accept loop: in [Accept] with its delay, with a connection it has accepted,
    waiting before the next [Accept], returned. *)
Inductive loop := Accepting (delay : Z) | Handling (id : nat) | BackingOff (delay : Z) | LoopEnded.
Record listener := { ls_protocol : proxyProtocol; ls_ip : option (list Z); ls_closed : bool; ls_loop : loop }.
Definition loop_labels (l : listener) : rejectionKey :=
  {| Protocol := ls_protocol l; Reason := reasonNone; ListenerClass := listenerAddrClass (ls_ip l) |}.
Definition with_loop (l : listener) (k : loop) : listener :=
  {| ls_protocol := ls_protocol l; ls_ip := ls_ip l; ls_closed := ls_closed l; ls_loop := k |}.
Definition close_listener (l : listener) : listener :=
  {| ls_protocol := ls_protocol l; ls_ip := ls_ip l; ls_closed := true; ls_loop := ls_loop l |}.
Definition closeListeners (ls : list listener) : list listener := close_listener <$> ls.

Section start.
Context {E : Type} (listen : string → result E (option (list Z))) (ifaces : list string).
Definition serve (addr : string) (protocol : proxyProtocol) (ls : list listener) : option E * list listener :=
  match listen addr with
  | Err e => (Some e, ls)
  | Ok ip => (None, ls ++ [{| ls_protocol := protocol; ls_ip := ip; ls_closed := false; ls_loop := Accepting 0 |}])
  end.
Definition serve_configured (addr : string) (protocol : proxyProtocol) (ls : list listener) : option E * list listener :=
  if is_empty addr then (None, ls)
  else let '(err, ls) := serve addr protocol ls in (err, match err with Some _ => closeListeners ls | None => ls end).
(** [Start]: the addresses of the host once everything listens. *)
Definition Start (c : Config) : result E (gset Addr) * list listener :=
  match serve_configured (px_HTTPSListen (c_Proxy c)) protocolTLS [] with
  | (Some e, ls) => (Err e, ls)
  | (None, ls) =>
      match serve_configured (px_HTTPListen (c_Proxy c)) protocolHTTP ls with
      | (Some e, ls) => (Err e, ls)
      | (None, ls) => (Ok (RefreshNetworkAddresses ifaces (ls_ip <$> ls)), ls)
      end
  end.
Definition expectedListeners (c : Config) : nat :=
  (if is_empty (px_HTTPSListen (c_Proxy c)) then 0 else 1) + (if is_empty (px_HTTPListen (c_Proxy c)) then 0 else 1).
Definition ListenersReady (c : Config) (stopping : bool) (ls : list listener) : bool := negb stopping && (length ls =? expectedListeners c).
(** A start either leaves every configured listener open, and the server ready, or it
    fails with nothing left open. *)
Lemma Start_all_or_nothing c : let '(r, ls) := Start c in
  match r with
  | Ok _ => Forall (λ l, ls_closed l = false ∧ ls_loop l = Accepting 0) ls ∧ ListenersReady c false ls = true
  | Err _ => Forall (λ l, ls_closed l = true) ls
  end.
Proof.
  unfold Start, ListenersReady, expectedListeners, serve_configured, serve.
  destruct (is_empty (px_HTTPSListen (c_Proxy c))), (is_empty (px_HTTPListen (c_Proxy c))); repeat case_match; simplify_eq;
    try (by constructor); cbn; repeat constructor.
Qed.
End start.

(** ** The accept loops and [Stop] *)

(** Where [Stop] is: not called, closing the listeners, waiting for the loops, waiting
    for the sessions or the timer, closing what was left at the timer, returned. *)
Inductive stop_phase :=
| NotStopped
| Closing_ (todo : list nat)
| AwaitDrain
| Forcing (remaining : list nat) (todo : list nat)
| Stopped (n : nat).
(** [p_cancelled] is the root context, the parent of every session's, [p_forced] holds the
    sessions whose [close] was called by [Stop]: their connections are closed and their
    own contexts cancelled. *)
Record proxy := {
  p_srv : server; p_listeners : list listener; p_stop : stop_phase; p_cancelled : bool; p_forced : gset nat }.
Definition with_srv (p : proxy) (s : server) : proxy :=
  {| p_srv := s; p_listeners := p_listeners p; p_stop := p_stop p; p_cancelled := p_cancelled p; p_forced := p_forced p |}.
Definition with_accept (p : proxy) (s : server) (i : nat) (l : listener) (k : loop) : proxy :=
  {| p_srv := s; p_listeners := <[i := with_loop l k]> (p_listeners p); p_stop := p_stop p; p_cancelled := p_cancelled p; p_forced := p_forced p |}.
Definition with_stop (p : proxy) (k : stop_phase) : proxy :=
  {| p_srv := p_srv p; p_listeners := p_listeners p; p_stop := k; p_cancelled := p_cancelled p; p_forced := p_forced p |}.

Definition millisecond : Z := 1000000.
(** The delay after an error of [Accept]. *)
Definition backoff (delay : Z) : Z :=
  let delay := if (delay =? 0)%Z then (5 * millisecond)%Z else (delay * 2)%Z in
  if (second <? delay)%Z then second else delay.
(** [Accept] returned a connection, or an error; [closed] is [errors.Is(err, net.ErrClosed)]. *)
Definition accepted (p : proxy) (i : nat) (l : listener) (id : nat) (remote : option (list Z)) : proxy :=
  with_accept p (accept_conn (p_srv p) id (loop_labels l) remote) i l (if srv_stopping (p_srv p) then LoopEnded else Handling id).
Definition accept_failed (p : proxy) (i : nat) (l : listener) (delay : Z) (closed : bool) : proxy :=
  with_accept p (p_srv p) i l (if closed || srv_stopping (p_srv p) then LoopEnded else BackingOff (backoff delay)).
(** The rest of a round: a connection that is not admitted ends it. *)
Definition screened (p : proxy) (i : nat) (l : listener) (id : nat) (t : thread) (rt : router) (remote : option (list Z)) : proxy :=
  let s := screen (p_srv p) id t rt remote in
  with_accept p s i l (match srv_threads s !! id with Some _ => Handling id | None => Accepting 0 end).
Definition spawned (p : proxy) (i : nat) (l : listener) (id : nat) (t : thread) (source : Addr) : proxy :=
  with_accept p (register (p_srv p) id t source) i l (Accepting 0).

(** [Stop], one action of its goroutine at a time. *)
Definition Stop_call (p : proxy) : option nat * proxy :=
  match Stop_begin (p_srv p) with
  | (false, _) => (Some 0, p)
  | (true, s) => (None, with_stop (with_srv p s) (Closing_ (seq 0 (length (p_listeners p)))))
  end.
Definition stop_close (p : proxy) (i : nat) (todo : list nat) : proxy :=
  {| p_srv := p_srv p; p_listeners := alter close_listener i (p_listeners p); p_stop := Closing_ todo; p_cancelled := p_cancelled p; p_forced := p_forced p |}.
Definition root_cancel (p : proxy) (k : stop_phase) : proxy :=
  {| p_srv := p_srv p; p_listeners := p_listeners p; p_stop := k; p_cancelled := true; p_forced := p_forced p |}.
Definition stop_expired (p : proxy) : proxy :=
  let remaining := elements (srv_sessions (p_srv p)) in root_cancel p (Forcing remaining remaining).
Definition stop_force (p : proxy) (remaining : list nat) (id : nat) (todo : list nat) : proxy :=
  {| p_srv := p_srv p; p_listeners := p_listeners p; p_stop := Forcing remaining todo; p_cancelled := p_cancelled p; p_forced := {[ id ]} ∪ p_forced p |}.
(** [acceptWG] and [sessionWG] at zero. *)
Definition loops_ended (p : proxy) : Prop := ∀ i l, p_listeners p !! i = Some l → ls_loop l = LoopEnded.
Definition drained (s : server) : Prop := ∀ id t, srv_threads s !! id = Some t → registered t = false.

Section steps.
Context (R : router → Prop).
(** What the goroutines of accepted sessions and a reload do to the server. *)
Inductive session_step (s : server) : server → Prop :=
| sess_reject id t source r : srv_threads s !! id = Some t → th_phase t = Running source → session_step s (reject s (with_reason (th_labels t) r))
| sess_close id t source : srv_threads s !! id = Some t → th_phase t = Running source → session_step s (close_session s id t source)
| sess_release id t source : srv_threads s !! id = Some t → th_phase t = Closing source → session_step s (release_slot s id t source)
| sess_end id t : srv_threads s !! id = Some t → th_phase t = Released → session_step s (end_session s id)
| sess_reload rt : R rt → session_step s (Reload s rt).
Inductive loop_step (p : proxy) : proxy → Prop :=
| loop_accept i l delay id remote : p_listeners p !! i = Some l → ls_loop l = Accepting delay → srv_threads (p_srv p) !! id = None →
    loop_step p (accepted p i l id remote)
| loop_fail i l delay closed : p_listeners p !! i = Some l → ls_loop l = Accepting delay → (closed = true → ls_closed l = true) →
    loop_step p (accept_failed p i l delay closed)
| loop_screen i l id t rt remote : p_listeners p !! i = Some l → ls_loop l = Handling id → srv_threads (p_srv p) !! id = Some t →
    th_phase t = Loaded rt remote → loop_step p (screened p i l id t rt remote)
| loop_register i l id t source : p_listeners p !! i = Some l → ls_loop l = Handling id → srv_threads (p_srv p) !! id = Some t →
    th_phase t = Holding source → loop_step p (spawned p i l id t source)
| loop_timer i l delay : p_listeners p !! i = Some l → ls_loop l = BackingOff delay → loop_step p (with_accept p (p_srv p) i l (Accepting delay))
| loop_canceled i l delay : p_listeners p !! i = Some l → ls_loop l = BackingOff delay → p_cancelled p = true →
    loop_step p (with_accept p (p_srv p) i l LoopEnded).
Inductive stop_step (p : proxy) : proxy → Prop :=
| stop_begins : stop_step p (Stop_call p).2
| stop_closes i todo : p_stop p = Closing_ (i :: todo) → stop_step p (stop_close p i todo)
| stop_loops : p_stop p = Closing_ [] → loops_ended p → stop_step p (with_stop p AwaitDrain)
| stop_drained : p_stop p = AwaitDrain → drained (p_srv p) → stop_step p (root_cancel p (Stopped 0))
| stop_expires : p_stop p = AwaitDrain → stop_step p (stop_expired p)
| stop_forces remaining id todo : p_stop p = Forcing remaining (id :: todo) → stop_step p (stop_force p remaining id todo)
| stop_ends remaining : p_stop p = Forcing remaining [] → drained (p_srv p) → stop_step p (with_stop p (Stopped (length remaining))).
Inductive proxy_step (p : proxy) : proxy → Prop :=
| proxy_session s : session_step (p_srv p) s → proxy_step p (with_srv p s)
| proxy_loop p' : loop_step p p' → proxy_step p p'
| proxy_stop p' : stop_step p p' → proxy_step p p'.
End steps.
Definition started (rt : router) (ls : list listener) : proxy :=
  {| p_srv := NewServer rt; p_listeners := ls; p_stop := NotStopped; p_cancelled := false; p_forced := ∅ |}.

(** ** The invariant *)

(** Connections that an accept loop has in hand are exactly the threads that are not yet
    registered, each with one loop. *)
Definition waits (s : server) (id : nat) : Prop := ∃ t, srv_threads s !! id = Some t ∧ registered t = false.
Definition handled (ls : list listener) (i id : nat) : Prop := ∃ l, ls !! i = Some l ∧ ls_loop l = Handling id.
Record owned (s : server) (ls : list listener) : Prop := {
  ow_waits id : waits s id ↔ ∃ i, handled ls i id;
  ow_one i j id : handled ls i id → handled ls j id → i = j }.
Definition delay_ok (k : loop) : Prop :=
  match k with Accepting d => d = 0 ∨ 5 * millisecond ≤ d ≤ second | BackingOff d => 5 * millisecond ≤ d ≤ second | _ => True end%Z.
Definition stop_ok (p : proxy) : Prop :=
  srv_stopping (p_srv p) = match p_stop p with NotStopped => false | _ => true end ∧
  match p_stop p with
  | NotStopped => p_forced p = ∅
  | Closing_ todo => p_forced p = ∅ ∧ ∀ i l, p_listeners p !! i = Some l → ls_closed l = true ∨ i ∈ todo
  | AwaitDrain => p_forced p = ∅ ∧ loops_ended p
  | Forcing remaining todo =>
      loops_ended p ∧ p_cancelled p = true ∧ NoDup remaining ∧ srv_sessions (p_srv p) ⊆ list_to_set remaining ∧
      ∃ done_, remaining = done_ ++ todo ∧ p_forced p = list_to_set done_
  | Stopped n => loops_ended p ∧ p_cancelled p = true ∧ drained (p_srv p) ∧ n = size (p_forced p)
  end.

Lemma handled_update ls i l k j id : ls !! i = Some l → handled (<[i := with_loop l k]> ls) j id ↔ (if decide (i = j) then k = Handling id else handled ls j id).
Proof.
  intros Hi. unfold handled. destruct (decide (i = j)) as [<-|Hj].
  - rewrite list_lookup_insert_eq by (by eapply lookup_lt_Some). naive_solver.
  - by rewrite list_lookup_insert_ne.
Qed.
(** One loop moves: it drops what it had in hand unless it keeps it, and may take a
    connection nobody has. *)
Lemma owned_update s s' ls i l k : ls !! i = Some l →
  (∀ id, waits s' id ↔ k = Handling id ∨ (waits s id ∧ ls_loop l ≠ Handling id)) →
  (∀ id, k = Handling id → ls_loop l = Handling id ∨ ¬ waits s id) →
  owned s ls → owned s' (<[i := with_loop l k]> ls).
Proof.
  intros Hi Hw Hk [Ho H1]. assert (∀ id, ls_loop l = Handling id ↔ handled ls i id) as Hl by (unfold handled; naive_solver). split.
  - intros id. rewrite Hw, Ho. setoid_rewrite handled_update; [|done]. rewrite Hl. split.
    + intros [Hid|[[j Hj] Hn]]; [exists i; by rewrite decide_True|]. exists j. rewrite decide_False; [done|]. by intros <-.
    + intros [j Hj]. destruct (decide (i = j)) as [<-|Hij]; [by left|]. right. split; [by exists j|]. intros Hid. by destruct Hij; eapply H1.
  - intros j j' id. rewrite !handled_update by done. destruct (decide (i = j)) as [<-|Hj], (decide (i = j')) as [<-|Hj']; [done| | |apply H1].
    + intros Hid Hh. destruct (Hk id Hid) as [Hid'|Hn]; [apply Hl in Hid'; by eapply H1|]. destruct Hn. apply Ho. by exists j'.
    + intros Hh Hid. destruct (Hk id Hid) as [Hid'|Hn]; [apply Hl in Hid'; symmetry; by eapply H1|]. destruct Hn. apply Ho. by exists j.
Qed.
Lemma owned_same s s' ls : (∀ id, waits s' id ↔ waits s id) → owned s ls → owned s' ls.
Proof. intros Hw [Ho H1]. split; [|done]. intros id. by rewrite Hw. Qed.

(** The threads after a change of one. *)
Lemma waits_insert s s' id t : srv_threads s' = <[id := t]> (srv_threads s) →
  ∀ x, waits s' x ↔ (x = id ∧ registered t = false) ∨ (x ≠ id ∧ waits s x).
Proof.
  intros Hs x. unfold waits. rewrite Hs. destruct (decide (x = id)) as [->|Hx].
  - rewrite lookup_insert_eq. naive_solver.
  - rewrite lookup_insert_ne by done. naive_solver.
Qed.
Lemma waits_delete s s' id : srv_threads s' = delete id (srv_threads s) → ∀ x, waits s' x ↔ x ≠ id ∧ waits s x.
Proof.
  intros Hs x. unfold waits. rewrite Hs. destruct (decide (x = id)) as [->|Hx].
  - rewrite lookup_delete_eq. naive_solver.
  - rewrite lookup_delete_ne by done. naive_solver.
Qed.
Lemma waits_here s id t : srv_threads s !! id = Some t → waits s id ↔ registered t = false.
Proof. intros Hid. unfold waits. rewrite Hid. naive_solver. Qed.
Lemma screen_threads s id t rt remote : srv_stopping (screen s id t rt remote) = srv_stopping s ∧ srv_sessions (screen s id t rt remote) = srv_sessions s ∧
  (srv_threads (screen s id t rt remote) = delete id (srv_threads s) ∨
   ∃ source, srv_threads (screen s id t rt remote) = <[id := {| th_labels := th_labels t; th_phase := Holding source |}]> (srv_threads s)).
Proof.
  unfold screen. destruct (sourceAllowed remote (sourceACL rt)) as [source []]; cbn [negb]; [|by split_and!; [..|left]].
  destruct (Admission.acquire _ _ _ _); [|by split_and!; [..|left]]. split_and!; [done..|]. right. by exists source.
Qed.

Section shutdown.
Context (R : router → Prop).

(** Sessions leave the connections in the hands of the loops alone, and none begins. *)
Record only_sessions (s s' : server) : Prop := {
  os_stopping : srv_stopping s' = srv_stopping s;
  os_waits id : waits s' id ↔ waits s id;
  os_sessions : srv_sessions s' ⊆ srv_sessions s;
  os_drained : drained s → drained s' }.
Lemma only_sessions_update s s' id t t' : srv_threads s !! id = Some t → registered t = true → registered t' = true →
  srv_threads s' = <[id := t']> (srv_threads s) → srv_stopping s' = srv_stopping s → srv_sessions s' = srv_sessions s → only_sessions s s'.
Proof.
  intros Hid Hr Hr' Hs Hst Hse. split; [done| |by rewrite Hse|].
  - intros x. rewrite (waits_insert s s' id t' Hs). destruct (decide (x = id)) as [->|]; [|naive_solver].
    rewrite (waits_here s id t Hid), Hr, Hr'. naive_solver.
  - intros Hd. by rewrite (Hd id t Hid) in Hr.
Qed.
Lemma session_step_only s s' : session_step R s s' → only_sessions s s'.
Proof.
  assert (∀ t p, th_phase t = p → registered t = registered {| th_labels := th_labels t; th_phase := p |}) as Hreg by (by intros [? ?] ? <-).
  destruct 1 as [id t source r Hid Hp|id t source Hid Hp|id t source Hid Hp|id t Hid Hp|rt HR].
  - by split.
  - apply (only_sessions_update s _ id t {| th_labels := th_labels t; th_phase := Closing source |} Hid); [by rewrite (Hreg _ _ Hp)|done..].
  - apply (only_sessions_update s _ id t {| th_labels := th_labels t; th_phase := Released |} Hid); [by rewrite (Hreg _ _ Hp)|done..].
  - assert (registered t = true) as Hr by (by rewrite (Hreg _ _ Hp)). split; [done| |cbn; set_solver|].
    + intros x. rewrite (waits_delete s (end_session s id) id eq_refl). destruct (decide (x = id)) as [->|]; [|naive_solver].
      rewrite (waits_here s id t Hid), Hr. naive_solver.
    + intros Hd. by rewrite (Hd id t Hid) in Hr.
  - by split.
Qed.
Lemma session_step_server s s' : session_step R s s' → server_step R s s'.
Proof. destruct 1; by econstructor. Qed.

(** A loop's step changes that loop, and the server by a step of the server. *)
Record loop_moves (p p' : proxy) : Prop := {
  lm_server : rtc (server_step R) (p_srv p) (p_srv p');
  lm_owned : owned (p_srv p) (p_listeners p) → owned (p_srv p') (p_listeners p');
  lm_stop : p_stop p' = p_stop p ∧ p_cancelled p' = p_cancelled p ∧ p_forced p' = p_forced p ∧ srv_stopping (p_srv p') = srv_stopping (p_srv p);
  lm_listeners : ∃ i l k, p_listeners p !! i = Some l ∧ ls_loop l ≠ LoopEnded ∧ p_listeners p' = <[i := with_loop l k]> (p_listeners p) ∧
    (delay_ok (ls_loop l) → delay_ok k) }.
Lemma backoff_ok d : delay_ok (Accepting d) → delay_ok (BackingOff (backoff d)).
Proof. unfold delay_ok, backoff, millisecond, second. intros Hd. destruct (Z.eqb_spec d 0); case_match; lia. Qed.
Lemma loop_step_moves p p' : loop_step p p' → loop_moves p p'.
Proof.
  destruct 1 as [i l delay id remote Hi Hl Hid|i l delay closed Hi Hl Hc|i l id t rt remote Hi Hl Hid Hp|i l id t source Hi Hl Hid Hp
    |i l delay Hi Hl|i l delay Hi Hl Hc].
  - assert (¬ waits (p_srv p) id) as Hnw by (unfold waits; rewrite Hid; naive_solver). split.
    + by apply rtc_once, step_accept.
    + cbn -[accept_conn]. unfold accept_conn. destruct (srv_stopping (p_srv p)) eqn:Hst; apply owned_update; try done.
      * intros x. rewrite Hl. naive_solver.
      * intros x. etransitivity; [by apply waits_insert|]. cbn [registered th_phase]. rewrite Hl. split; [|naive_solver].
        intros [[-> _]|[? ?]]; [by left|naive_solver].
      * intros x [= <-]. by right.
    + cbn -[accept_conn]. unfold accept_conn. by case_match.
    + exists i, l, (if srv_stopping (p_srv p) then LoopEnded else Handling id). split_and!; [done|by rewrite Hl|done|]. intros _. case_match; (by left) || done.
  - split; [apply rtc_refl| |done|].
    + apply owned_update; [done| |]; intros x; case_match; rewrite ?Hl; naive_solver.
    + eexists i, l, _. split_and!; [done|by rewrite Hl|done|]. rewrite Hl. intros Hd. case_match; [done|by apply backoff_ok].
  - destruct (screen_threads (p_srv p) id t rt remote) as (Hst&_&Hth). assert (registered t = false) as Hr by (unfold registered; by rewrite Hp).
    assert (waits (p_srv p) id) as Hw by (by apply (waits_here _ _ _ Hid)). split.
    + by eapply rtc_once, step_screen.
    + cbn -[screen]. destruct Hth as [Hth|[source Hth]]; rewrite Hth; [rewrite lookup_delete_eq|rewrite lookup_insert_eq]; apply owned_update; try done.
      * intros x. rewrite (waits_delete _ _ _ Hth), Hl. naive_solver.
      * intros x. rewrite (waits_insert _ _ _ _ Hth), Hl. cbn [registered th_phase]. naive_solver.
      * intros x [= <-]. by left.
    + done.
    + eexists i, l, _. split_and!; [done|by rewrite Hl|done|]. intros _. case_match; (by left) || done.
  - assert (registered t = false) as Hr by (unfold registered; by rewrite Hp). split.
    + by eapply rtc_once, step_register.
    + cbn -[register]. apply owned_update; [done| |done]. intros x. etransitivity; [by apply waits_insert|]. rewrite Hl. cbn [registered th_phase]. naive_solver.
    + done.
    + eexists i, l, _. split_and!; [done|by rewrite Hl|done|]. intros _. by left.
  - split; [apply rtc_refl| |done|]; [apply owned_update; [done| |]; intros x; rewrite ?Hl; naive_solver|].
    eexists i, l, _. split_and!; [done|by rewrite Hl|done|]. rewrite Hl. cbn. auto.
  - split; [apply rtc_refl| |done|]; [apply owned_update; [done| |]; intros x; rewrite ?Hl; naive_solver|].
    eexists i, l, _. split_and!; [done|by rewrite Hl|done|]. done.
Qed.

Record proxy_inv (rt : router) (p : proxy) : Prop := {
  pv_server : rtc (server_step R) (NewServer rt) (p_srv p);
  pv_owned : owned (p_srv p) (p_listeners p);
  pv_delay i l : p_listeners p !! i = Some l → delay_ok (ls_loop l);
  pv_stop : stop_ok p }.
Lemma loop_step_stop p p' : loop_moves p p' → stop_ok p → stop_ok p'.
Proof.
  intros [_ _ (E1&E2&E3&E4) (i&l&k&Hi&Hl&Hls&_)] [Hst Hp]. unfold stop_ok. rewrite E1, E2, E3, E4.
  assert (loops_ended p → False) as Hrun by (intros H; by apply Hl, (H i l)).
  split; [done|]. destruct (p_stop p) as [|todo| |remaining todo|n]; [done| |by destruct Hp as [_ ?%Hrun]|by destruct Hp as [?%Hrun _]|by destruct Hp as [?%Hrun _]].
  destruct Hp as [Hf Hc]. split; [done|]. intros j l' Hj. rewrite Hls in Hj. destruct (decide (i = j)) as [<-|Hij].
  - rewrite list_lookup_insert_eq in Hj by (by eapply lookup_lt_Some). injection Hj as <-. exact (Hc i l Hi).
  - rewrite list_lookup_insert_ne in Hj by done. by apply Hc.
Qed.
Lemma session_step_stop p s : only_sessions (p_srv p) s → stop_ok p → stop_ok (with_srv p s).
Proof.
  intros [E Hw Hs Hd] [Hst Hp]. split; [cbn; by rewrite E|]. cbn. destruct (p_stop p) as [|todo| |remaining todo|n]; try done.
  - destruct Hp as (?&?&?&Hse&?). split_and!; try done. by etransitivity.
  - destruct Hp as (?&?&?&?). split_and!; auto.
Qed.
(** Closing a listener leaves its loop. *)
Lemma closed_lookup (ls : list listener) (i j : nat) l : alter close_listener i ls !! j = Some l → ∃ l0, ls !! j = Some l0 ∧ ls_loop l = ls_loop l0 ∧ (ls_closed l0 = true ∨ i = j → ls_closed l = true).
Proof.
  destruct (decide (i = j)) as [<-|Hij].
  - rewrite list_lookup_alter_eq. intros (l0&Hl0&->)%fmap_Some. eauto.
  - rewrite list_lookup_alter_ne by done. intros Hl. exists l. split_and!; [done..|]. by intros [?| ?].
Qed.
Lemma closed_handled ls i j id : handled (alter close_listener i ls) j id ↔ handled ls j id.
Proof.
  split; [intros (l&(l0&?&E&_)%closed_lookup&Hl); exists l0; by rewrite <-E|]. intros (l&Hl&Hid). destruct (decide (i = j)) as [<-|Hij].
  - exists (close_listener l). by rewrite list_lookup_alter_eq, Hl.
  - exists l. by rewrite list_lookup_alter_ne.
Qed.
Lemma stop_step_inv rt p p' : stop_step p p' → proxy_inv rt p → proxy_inv rt p'.
Proof.
  intros Hs Hinv. pose proof Hinv as [Hr Ho Hd [Hst Hp]].
  destruct Hs as [|i todo E|E Hl|E Hdr|E|remaining id todo E|remaining E Hdr]; [unfold Stop_call, Stop_begin|rewrite E in Hp, Hst..].
  - destruct (srv_stopping (p_srv p)) eqn:Hstop; [exact Hinv|]. split; try done.
    + eapply rtc_r; [done|]. pose proof (step_stop R (p_srv p)) as Hstep. unfold Stop_begin in Hstep. by rewrite Hstop in Hstep.
    + by apply (owned_same (p_srv p)).
    + split; [done|]. cbn. destruct (p_stop p); [|done..].
      split; [done|]. intros i l Hi%lookup_lt_Some. right. apply elem_of_seq. lia.
  - destruct Hp as [Hf Hc]. split; try done.
    + destruct Ho as [Ho H1]. split; [intros x; rewrite Ho|intros j j' x]; cbn; setoid_rewrite closed_handled; [done|apply H1].
    + intros j l (l0&Hj&->&_)%closed_lookup. by eapply Hd.
    + split; [done|]. cbn. split; [done|]. intros j l (l0&Hj&_&Hcl)%closed_lookup.
      destruct (Hc j l0 Hj) as [?|[->|?]%elem_of_cons]; [left; auto..|by right].
  - destruct Hp as [Hf Hc]. by split.
  - destruct Hp as [Hf Hl]. split; try done. split; [done|]. cbn. rewrite Hf, size_empty. done.
  - destruct Hp as [Hf Hl]. split; try done. split; [done|]. cbn. split_and!; try done; [apply NoDup_elements|set_solver|by exists []].
  - destruct Hp as (Hl&Hc&Hn&Hse&done_&Hrem&Hf). split; try done. split; [done|]. cbn. split_and!; try done.
    exists (done_ ++ [id]). rewrite <-app_assoc. split; [done|]. rewrite list_to_set_app_L, Hf. cbn. set_solver.
  - destruct Hp as (Hl&Hc&Hn&Hse&done_&Hrem&Hf). split; try done. split; [done|]. cbn. split_and!; try done.
    rewrite app_nil_r in Hrem. subst done_. by rewrite Hf, size_list_to_set.
Qed.
Lemma proxy_step_inv rt p p' : proxy_step R p p' → proxy_inv rt p → proxy_inv rt p'.
Proof.
  destruct 1 as [s Hs|p' Hl|p' Hs]; [|intros [Hr Ho Hd Hst]|by apply stop_step_inv].
  - intros [Hr Ho Hd Hst]. pose proof (session_step_only _ _ Hs) as Hos. split; try done.
    + eapply rtc_r; [done|by apply session_step_server].
    + eapply owned_same; [|done]. apply Hos.
    + by apply session_step_stop.
  - pose proof (loop_step_moves _ _ Hl) as Hm. split.
    + etransitivity; [done|]. apply Hm.
    + by apply Hm.
    + destruct Hm as [_ _ _ (i&l&k&Hi&_&Hls&Hk)]. intros j l' Hj. rewrite Hls in Hj. destruct (decide (i = j)) as [<-|Hij].
      * rewrite list_lookup_insert_eq in Hj by (by eapply lookup_lt_Some). injection Hj as <-. by apply Hk, (Hd i).
      * rewrite list_lookup_insert_ne in Hj by done. by apply (Hd j).
    + by eapply loop_step_stop.
Qed.
Definition fresh_listener (l : listener) : Prop := ls_closed l = false ∧ ls_loop l = Accepting 0.
Lemma proxy_reachable rt ls p : Forall fresh_listener ls → rtc (proxy_step R) (started rt ls) p → proxy_inv rt p.
Proof.
  intros Hls. revert p. apply (rtc_ind_r (proxy_inv rt) (started rt ls)); [|intros y z _ Hs Hy; by eapply proxy_step_inv].
  rewrite Forall_lookup in Hls. assert (∀ i id, ¬ handled ls i id) as Hno by (intros i id (l&[_ E]%Hls&El); congruence).
  split; [apply rtc_refl|split| |].
  - intros id. split; [intros (t&Ht&_); cbn in Ht; by rewrite lookup_empty in Ht|by intros (i&?%Hno)].
  - by intros i j id ?%Hno.
  - intros i l [_ ->]%Hls. by left.
  - by split.
Qed.
(** With the loops ended and the sessions drained no connection is left. *)
Lemma nothing_left rt p : proxy_inv rt p → loops_ended p → drained (p_srv p) → srv_threads (p_srv p) = ∅.
Proof.
  intros [_ [Ho _] _ _] Hl Hd. apply map_empty. intros id. destruct (srv_threads (p_srv p) !! id) as [t|] eqn:Ht; [|done]. exfalso.
  assert (waits (p_srv p) id) as (i&l&Hi&Hh)%Ho by (exists t; split; [done|by eapply Hd]). by rewrite (Hl i l Hi) in Hh.
Qed.
End shutdown.

(** C17: shutdown.  In every interleaving of the accept loops, the sessions, reloads and
    [Stop]: when [Stop] has returned, every accept loop has ended, the root context is
    cancelled, no connection, session or admission slot is left, and the number it
    returned is the number of sessions it force-closed; from the end of the grace period
    on, only sessions that were open then can be open, all of which it closes; a second
    call returns 0 at once; and the back-off of an accept loop is between five
    milliseconds and a second. *)
Theorem stop_complete R M rt ls p : (0 ≤ M)%Z → (∀ rt, R rt → (maxConnections rt ≤ M)%Z) → R rt → Forall fresh_listener ls →
  rtc (proxy_step R) (started rt ls) p →
  (∀ n, p_stop p = Stopped n → srv_threads (p_srv p) = ∅ ∧ srv_sessions (p_srv p) = ∅ ∧ srv_admission (p_srv p) = Admission.zero ∧
     loops_ended p ∧ p_cancelled p = true ∧ n = size (p_forced p)) ∧
  (∀ remaining todo, p_stop p = Forcing remaining todo → srv_sessions (p_srv p) ⊆ p_forced p ∪ list_to_set todo) ∧
  (p_stop p ≠ NotStopped → Stop_call p = (Some 0, p)) ∧
  (∀ i l d, p_listeners p !! i = Some l → ls_loop l = BackingOff d → (5 * millisecond ≤ d ≤ second)%Z).
Proof.
  intros HM Hmax HR Hls Hr. pose proof (proxy_reachable R rt ls p Hls Hr) as Hp. pose proof Hp as [Hs _ Hd [Hst Hstop]].
  split_and!.
  - intros n E. rewrite E in Hstop. destruct Hstop as (Hl&Hc&Hdr&Hn). pose proof (nothing_left R rt p Hp Hl Hdr) as Hth.
    destruct (server_empty (p_srv p)) as [Ha Hse]; [|done|by split_and!]. by destruct (server_reachable R M HM Hmax rt _ HR Hs).
  - intros remaining todo E. rewrite E in Hstop. destruct Hstop as (_&_&_&Hse&done_&->&->). by rewrite <-list_to_set_app_L.
  - intros E. replace (match p_stop p with NotStopped => false | _ => true end) with true in Hst by (by destruct (p_stop p)). unfold Stop_call, Stop_begin. by rewrite Hst.
  - intros i l d Hi El. specialize (Hd i l Hi). by rewrite El in Hd.
Qed.

(** ** Stop returns *)

(** The steps that lead to the end: a session closes, releases its slot and leaves, an
    accept loop or [Stop] takes its next step. *)
Inductive advance (p : proxy) : proxy → Prop :=
| adv_close id t source : srv_threads (p_srv p) !! id = Some t → th_phase t = Running source → advance p (with_srv p (close_session (p_srv p) id t source))
| adv_release id t source : srv_threads (p_srv p) !! id = Some t → th_phase t = Closing source → advance p (with_srv p (release_slot (p_srv p) id t source))
| adv_end id t : srv_threads (p_srv p) !! id = Some t → th_phase t = Released → advance p (with_srv p (end_session (p_srv p) id))
| adv_loop p' : loop_step p p' → advance p p'
| adv_stop p' : stop_step p p' → p' ≠ p → advance p p'.
Lemma advance_step R p p' : advance p p' → proxy_step R p p'.
Proof.
  destruct 1; [apply proxy_session; by eapply sess_close|apply proxy_session; by eapply sess_release|apply proxy_session; by eapply sess_end
    |by apply proxy_loop|by apply proxy_stop].
Qed.

Lemma stopping_kept p p' : advance p p' → srv_stopping (p_srv p) = true → srv_stopping (p_srv p') = true.
Proof.
  destruct 1 as [id t source Hid Hp|id t source Hid Hp|id t Hid Hp|p' Hl|p' Hs Hne]; try done.
  - destruct (loop_step_moves (λ _, True) _ _ Hl) as [_ _ (_&_&_&->) _]. done.
  - destruct Hs; try done. unfold Stop_call, Stop_begin. by destruct (srv_stopping (p_srv p)) eqn:E.
Qed.
Lemma list_cons_neq {A} (x : A) l : l ≠ x :: l.
Proof. intros E. apply (f_equal length) in E. cbn in E. lia. Qed.

Definition thread_left (t : thread) : nat :=
  match th_phase t with Loaded _ _ => 5 | Holding _ => 4 | Running _ => 3 | Closing _ => 2 | Released => 1 end.
Definition threads_left (th : gmap nat thread) : nat := map_fold (λ _ t n, thread_left t + n) 0 th.
Definition loop_left (l : listener) : nat := match ls_loop l with LoopEnded => 0 | Accepting _ => 1 | BackingOff _ | Handling _ => 2 end.
Definition loops_left (ls : list listener) : nat := sum_list_with loop_left ls.
#[local] Arguments loops_left : simpl never.
#[local] Arguments threads_left : simpl never.
Definition stop_left (p : proxy) : nat :=
  threads_left (srv_threads (p_srv p)) + loops_left (p_listeners p) +
  match p_stop p with
  | NotStopped => 0
  | Closing_ todo => 4 + length todo + size (srv_threads (p_srv p))
  | AwaitDrain => 3 + size (srv_threads (p_srv p))
  | Forcing _ todo => 1 + length todo
  | Stopped _ => 0
  end.
Lemma threads_left_delete th id t : th !! id = Some t → threads_left th = thread_left t + threads_left (delete id th).
Proof. intros Hid. unfold threads_left. rewrite (map_fold_delete_L _ _ id t th); [done|intros; lia|done]. Qed.
Lemma threads_left_insert th id t t' : th !! id = Some t → threads_left (<[id := t']> th) + thread_left t = threads_left th + thread_left t'.
Proof.
  intros Hid. rewrite (threads_left_delete th id t Hid), (threads_left_delete (<[id := t']> th) id t') by apply lookup_insert_eq.
  rewrite delete_insert_eq. lia.
Qed.
Lemma loops_left_insert ls i l k : ls !! i = Some l → loops_left (<[i := with_loop l k]> ls) + loop_left l = loops_left ls + loop_left (with_loop l k).
Proof.
  unfold loops_left. revert i. induction ls as [|x ls IH]; intros [|i] Hi; [done..|injection Hi as ->; cbn; lia|].
  specialize (IH i Hi). change (<[S i := with_loop l k]> (x :: ls)) with (x :: <[i := with_loop l k]> ls). cbn [sum_list_with]. lia.
Qed.
Lemma loops_left_closed ls i : loops_left (alter close_listener i ls) = loops_left ls.
Proof. unfold loops_left. revert i. induction ls as [|x ls IH]; intros [|i]; [done..|].
  change (alter close_listener (S i) (x :: ls)) with (x :: alter close_listener i ls). cbn [sum_list_with]. by rewrite IH. Qed.
Lemma size_delete_some (th : gmap nat thread) id t : th !! id = Some t → size th = S (size (delete id th)).
Proof. intros Hid. rewrite <-(insert_delete_id th id t Hid) at 1. apply map_size_insert_None, lookup_delete_eq. Qed.

(** One thread or one loop with less to do. *)
Lemma stop_left_less p p' : p_stop p' = p_stop p → size (srv_threads (p_srv p')) ≤ size (srv_threads (p_srv p)) →
  threads_left (srv_threads (p_srv p')) + loops_left (p_listeners p') < threads_left (srv_threads (p_srv p)) + loops_left (p_listeners p) →
  stop_left p' < stop_left p.
Proof. intros E Hs Hl. unfold stop_left. rewrite E. destruct (p_stop p); lia. Qed.
Lemma session_less p s id t t' : srv_threads (p_srv p) !! id = Some t → srv_threads s = <[id := t']> (srv_threads (p_srv p)) → thread_left t' < thread_left t →
  stop_left (with_srv p s) < stop_left p.
Proof.
  intros Hid Hs Hl. apply stop_left_less; [done| |]; cbn; rewrite Hs; [rewrite map_size_insert_Some by eauto; done|].
  pose proof (threads_left_insert _ _ _ t' Hid). lia.
Qed.
Lemma loop_less_at p s i l k : p_listeners p !! i = Some l → size (srv_threads s) ≤ size (srv_threads (p_srv p)) →
  threads_left (srv_threads s) + loop_left (with_loop l k) < threads_left (srv_threads (p_srv p)) + loop_left l →
  stop_left (with_accept p s i l k) < stop_left p.
Proof. intros Hi Hs Hl. apply stop_left_less; [done..|]. cbn [p_srv p_listeners with_accept]. pose proof (loops_left_insert _ _ _ k Hi). lia. Qed.
Lemma loop_less p p' : srv_stopping (p_srv p) = true → loop_step p p' → stop_left p' < stop_left p.
Proof.
  intros Hst.
  destruct 1 as [i l delay id remote Hi Hl Hid|i l delay closed Hi Hl Hc|i l id t rt remote Hi Hl Hid Hp|i l id t source Hi Hl Hid Hp
    |i l delay Hi Hl|i l delay Hi Hl Hc]; assert (loop_left l = match ls_loop l with LoopEnded => 0 | Accepting _ => 1 | _ => 2 end) as Hw by done;
    rewrite Hl in Hw; apply loop_less_at; try done; rewrite ?Hw.
  - unfold accept_conn. by rewrite Hst.
  - unfold accept_conn. rewrite Hst. cbn. lia.
  - rewrite Hst, orb_true_r. cbn. lia.
  - destruct (screen_threads (p_srv p) id t rt remote) as (_&_&[->|[source ->]]); [rewrite (size_delete_some _ _ _ Hid); lia|].
    by rewrite map_size_insert_Some by eauto.
  - destruct (screen_threads (p_srv p) id t rt remote) as (_&_&[Hth|[source Hth]]); rewrite !Hth.
    + rewrite lookup_delete_eq, (threads_left_delete _ _ _ Hid). unfold thread_left. rewrite Hp. cbn. lia.
    + rewrite lookup_insert_eq. pose proof (threads_left_insert _ _ _ {| th_labels := th_labels t; th_phase := Holding source |} Hid) as Hx.
      unfold thread_left in Hx. rewrite Hp in Hx. cbn in Hx |- *. lia.
  - cbn. unfold set_phase. cbn. by rewrite map_size_insert_Some by eauto.
  - pose proof (threads_left_insert _ _ _ {| th_labels := th_labels t; th_phase := Running source |} Hid) as Hx.
    unfold thread_left in Hx. rewrite Hp in Hx. cbn in Hx |- *. unfold set_phase. cbn. lia.
  - cbn. lia.
  - cbn. lia.
Qed.
Lemma stop_less R rt p p' : proxy_inv R rt p → srv_stopping (p_srv p) = true → server_ok (p_srv p) → stop_step p p' → p' ≠ p → stop_left p' < stop_left p.
Proof.
  intros Hinv Hst Hok. destruct 1 as [|i todo E|E Hl|E Hdr|E|remaining id todo E|remaining E Hdr]; intros Hne.
  - unfold Stop_call, Stop_begin in Hne. by rewrite Hst in Hne.
  - unfold stop_left. cbn. rewrite E, loops_left_closed. cbn. lia.
  - unfold stop_left. cbn. rewrite E. cbn. lia.
  - unfold stop_left. cbn. rewrite E. cbn. lia.
  - unfold stop_left. cbn. rewrite E. assert (length (elements (srv_sessions (p_srv p))) ≤ size (srv_threads (p_srv p))); [|lia].
    rewrite <-size_dom. change (length (elements ?x)) with (size x). apply subseteq_size. intros id (t&Ht&_)%(proj2 Hok). by apply elem_of_dom_2 in Ht.
  - unfold stop_left. cbn. rewrite E. cbn. lia.
  - unfold stop_left. cbn. rewrite E. cbn. lia.
Qed.
Lemma advance_less R rt p p' : proxy_inv R rt p → srv_stopping (p_srv p) = true → server_ok (p_srv p) → advance p p' → stop_left p' < stop_left p.
Proof.
  intros Hinv Hst Hok. destruct 1 as [id t source Hid Hp|id t source Hid Hp|id t Hid Hp|p' Hl|p' Hs Hne].
  - eapply session_less; [done..|]. unfold thread_left. rewrite Hp. cbn. lia.
  - eapply session_less; [done..|]. unfold thread_left. rewrite Hp. cbn. lia.
  - apply stop_left_less; [done| |]; cbn.
    + rewrite (size_delete_some _ _ _ Hid). lia.
    + rewrite (threads_left_delete _ _ _ Hid). unfold thread_left at 1. rewrite Hp. lia.
  - by apply loop_less.
  - by eapply stop_less.
Qed.
(** The steps that do not depend on a client, on a backend or on luck.  [Accept] is sure to
    return only on a listener that was closed, and a handler only when [Stop] closed its
    session and cancelled the root context; the timers of a back-off and of the grace
    period fire, and what is then left to do is the program's own. *)
Inductive obliged (p : proxy) : proxy → Prop :=
| ob_closed i l delay : p_listeners p !! i = Some l → ls_loop l = Accepting delay → ls_closed l = true → obliged p (accept_failed p i l delay true)
| ob_screen i l id t rt remote : p_listeners p !! i = Some l → ls_loop l = Handling id → srv_threads (p_srv p) !! id = Some t →
    th_phase t = Loaded rt remote → obliged p (screened p i l id t rt remote)
| ob_register i l id t source : p_listeners p !! i = Some l → ls_loop l = Handling id → srv_threads (p_srv p) !! id = Some t →
    th_phase t = Holding source → obliged p (spawned p i l id t source)
| ob_timer i l delay : p_listeners p !! i = Some l → ls_loop l = BackingOff delay → obliged p (with_accept p (p_srv p) i l (Accepting delay))
| ob_forced id t source : srv_threads (p_srv p) !! id = Some t → th_phase t = Running source → p_cancelled p = true → id ∈ p_forced p →
    obliged p (with_srv p (close_session (p_srv p) id t source))
| ob_release id t source : srv_threads (p_srv p) !! id = Some t → th_phase t = Closing source → obliged p (with_srv p (release_slot (p_srv p) id t source))
| ob_end id t : srv_threads (p_srv p) !! id = Some t → th_phase t = Released → obliged p (with_srv p (end_session (p_srv p) id))
| ob_stop p' : stop_step p p' → p' ≠ p → obliged p p'.
Lemma obliged_advance p p' : obliged p p' → advance p p'.
Proof.
  destruct 1; [apply adv_loop, loop_fail; by auto|by eapply adv_loop, loop_screen|by eapply adv_loop, loop_register|by eapply adv_loop, loop_timer
    |by eapply adv_close|by eapply adv_release|by eapply adv_end|by apply adv_stop].
Qed.
(** While [Stop] has not returned somebody is obliged to move. *)
Lemma loop_obliged R rt p i l : proxy_inv R rt p → p_listeners p !! i = Some l → ls_closed l = true → ls_loop l ≠ LoopEnded → ∃ p', obliged p p'.
Proof.
  intros [_ [Ho _] _ _] Hi Hcl Hl. destruct (ls_loop l) as [d|id|d|] eqn:E; [| | |done].
  - eexists. by eapply ob_closed.
  - destruct (proj2 (Ho id)) as (t&Ht&Hr); [by exists i, l|]. destruct (th_phase t) as [rt0 remote|source|source|source|] eqn:Hp;
      try (unfold registered in Hr; by rewrite Hp in Hr); eexists; [by eapply ob_screen|by eapply ob_register].
  - eexists. by eapply ob_timer.
Qed.
Lemma session_obliged p id t : srv_threads (p_srv p) !! id = Some t → registered t = true → p_cancelled p = true → id ∈ p_forced p → ∃ p', obliged p p'.
Proof.
  intros Hid Hr Hc Hf. unfold registered in Hr. destruct (th_phase t) eqn:Hp; try done; eexists; [by eapply ob_forced|by eapply ob_release|by eapply ob_end].
Qed.
Lemma stop_moves p p' : stop_step p p' → p_stop p' ≠ p_stop p → ∃ p'', obliged p p''.
Proof. intros Hs Hne. exists p'. apply ob_stop; [done|]. by intros ->. Qed.
Lemma stop_obliged R rt p : proxy_inv R rt p → srv_stopping (p_srv p) = true → server_ok (p_srv p) → (∃ n, p_stop p = Stopped n) ∨ ∃ p', obliged p p'.
Proof.
  intros Hinv Hst Hok. pose proof Hinv as [_ _ _ [Hst' Hstop]].
  destruct (p_stop p) as [|[|i todo]| |remaining [|id todo]|n] eqn:E; [congruence|right..|eauto].
  - destruct (decide (Forall (λ l, loop_left l = 0) (p_listeners p))) as [Hl|Hn].
    + rewrite Forall_lookup in Hl. apply (stop_moves p (with_stop p AwaitDrain)); [|by rewrite E]. apply stop_loops; [done|].
      intros i l Hi. specialize (Hl i l Hi). unfold loop_left in Hl. by destruct (ls_loop l).
    + apply not_Forall_Exists, Exists_exists in Hn as (l&(i&Hi)%list_elem_of_lookup&Hl); [|intros ?; apply _].
      destruct Hstop as [_ Hcl]. destruct (Hcl i l Hi) as [Hc|?%elem_of_nil]; [|done].
      eapply loop_obliged; [done..|]. intros El. destruct Hl. cbn. unfold loop_left. by rewrite El.
  - eapply stop_moves; [by apply (stop_closes p i todo)|]. rewrite E. cbn. intros [= Heq]. by apply (list_cons_neq i todo).
  - eapply stop_moves; [by apply stop_expires|]. by rewrite E.
  - destruct (decide (map_Forall (λ _ t, registered t = false) (srv_threads (p_srv p)))) as [Hd|Hd].
    + eapply stop_moves; [by apply stop_ends|]. by rewrite E.
    + apply map_not_Forall in Hd as (id&t&Hid&Hr); [|intros; apply _]. apply not_false_iff_true in Hr.
      destruct Hstop as (_&Hc&_&Hse&done_&Hrem&Hf). rewrite app_nil_r in Hrem. subst done_.
      eapply session_obliged; [done..|]. rewrite Hf. apply Hse, (proj2 Hok). by exists t.
  - eapply stop_moves; [by apply (stop_forces p remaining id todo)|]. rewrite E. cbn. intros [= Heq]. by apply (list_cons_neq id todo).
Qed.

(** C18: once [Stop] has been called, it returns: whatever the accept loops, the sessions
    that end and [Stop] itself do next, in any order, they take at most [stop_left]
    steps, and as long as [Stop] has not returned one of them is obliged to take another
    one.  An open listener obliges no accept loop to return and an open session no handler
    to end: the obligations come from the listeners [Stop] closed, from the sessions it
    closed after the grace period and from its own steps. *)
Theorem stop_returns R M rt ls p n p' : (0 ≤ M)%Z → (∀ rt, R rt → (maxConnections rt ≤ M)%Z) → R rt → Forall fresh_listener ls →
  rtc (proxy_step R) (started rt ls) p → p_stop p ≠ NotStopped → nsteps advance n p p' →
  n ≤ stop_left p ∧ ((∃ k, p_stop p' = Stopped k) ∨ ∃ p'', obliged p' p'' ∧ advance p' p'').
Proof.
  intros HM Hmax HR Hls Hr Hne Hn. pose proof (proxy_reachable R rt ls p Hls Hr) as Hinv.
  assert (srv_stopping (p_srv p) = true) as Hst by (destruct Hinv as [_ _ _ [-> _]]; by destruct (p_stop p)). clear Hr Hne.
  assert (∀ p, proxy_inv R rt p → server_ok (p_srv p)) as Hsrv by (intros q [Hq _ _ _]; by destruct (server_reachable R M HM Hmax rt _ HR Hq)).
  assert (n + stop_left p' ≤ stop_left p ∧ proxy_inv R rt p' ∧ srv_stopping (p_srv p') = true) as (Hle&Hinv'&Hst').
  { induction Hn as [p|n p p1 p2 Hstep _ IH]; [done|]. pose proof (advance_step R _ _ Hstep) as Hs. pose proof (proxy_step_inv R rt _ _ Hs Hinv) as Hinv1.
    pose proof (advance_less R rt _ _ Hinv Hst (Hsrv p Hinv) Hstep) as Hlt. destruct IH as (?&?&?); [done|by eapply stopping_kept|]. split_and!; [lia|done..]. }
  split; [lia|]. destruct (stop_obliged R rt p' Hinv' Hst' (Hsrv p' Hinv')) as [?|(p''&Ho)]; [by left|right].
  exists p''. split; [done|by apply obliged_advance].
Qed.

Module ShutdownDemo.
Definition lo : option (list Z) := Some [127; 0; 0; 1]%Z.
Definition source : Addr := Addr4 (127 * 2 ^ 24 + 1).
Definition demo_listener : listener := {| ls_protocol := protocolTLS; ls_ip := lo; ls_closed := false; ls_loop := Accepting 0 |}.
Definition busy : listener := with_loop demo_listener (Handling 0).
(** One connection is accepted and handled. *)
Definition demo_0 : proxy := started demo_rt [demo_listener].
Definition demo_1 : proxy := accepted demo_0 0 demo_listener 0 lo.
Definition demo_2 : proxy := screened demo_1 0 busy 0 (demo_thread (Loaded demo_rt lo)) demo_rt lo.
Definition demo_3 : proxy := spawned demo_2 0 busy 0 (demo_thread (Holding source)) source.
(** [Stop] is called, the listener is closed, the loop ends, the grace period ends before
    the session does, which is closed. *)
Definition demo_4 : proxy := (Stop_call demo_3).2.
Definition demo_5 : proxy := stop_close demo_4 0 [].
Definition demo_6 : proxy := accept_failed demo_5 0 (close_listener demo_listener) 0 true.
Definition demo_7 : proxy := with_stop demo_6 AwaitDrain.
Definition demo_8 : proxy := stop_expired demo_7.
Definition demo_9 : proxy := stop_force demo_8 [0] 0 [].
(** The session ends and [Stop] returns. *)
Definition demo_10 : proxy := with_srv demo_9 (close_session (p_srv demo_9) 0 (demo_thread (Running source)) source).
Definition demo_11 : proxy := with_srv demo_10 (release_slot (p_srv demo_10) 0 (demo_thread (Closing source)) source).
Definition demo_12 : proxy := with_srv demo_11 (end_session (p_srv demo_11) 0).
Definition demo_13 : proxy := with_stop demo_12 (Stopped (length [0])).
Definition only_demo (rt : router) : Prop := rt = demo_rt.
Abbreviation demo_step := (proxy_step only_demo).
Lemma demo_called : rtc demo_step demo_0 demo_4.
Proof.
  assert (demo_step demo_0 demo_1) by (apply proxy_loop, (loop_accept demo_0 0 demo_listener 0 0 lo); vm_compute; reflexivity).
  assert (demo_step demo_1 demo_2) by (apply proxy_loop, (loop_screen demo_1 0 busy 0 (demo_thread (Loaded demo_rt lo))); vm_compute; reflexivity).
  assert (demo_step demo_2 demo_3) by (apply proxy_loop, (loop_register demo_2 0 busy 0 (demo_thread (Holding source))); vm_compute; reflexivity).
  assert (demo_step demo_3 demo_4) by (apply proxy_stop, stop_begins).
  do 4 (eapply rtc_l; [eassumption|]). apply rtc_refl.
Qed.
Lemma demo_12_empty : srv_threads (p_srv demo_12) = ∅.
Proof. vm_compute. reflexivity. Qed.
Lemma demo_6_ended : loops_ended demo_6.
Proof.
  assert (p_listeners demo_6 = [with_loop (close_listener demo_listener) LoopEnded]) as E by (vm_compute; reflexivity).
  intros i l. rewrite E. destruct i as [|i]; [by intros [= <-]|done].
Qed.
Lemma demo_advances : nsteps advance 9 demo_4 demo_13.
Proof.
  assert (∀ p p' : proxy, stop_step p p' → stop_left p' ≠ stop_left p → advance p p') as Hadv by (intros p p' Hs Hne; apply adv_stop; [done|by intros ->]).
  assert (advance demo_4 demo_5) by (apply Hadv; [apply (stop_closes demo_4 0 []); vm_compute; reflexivity|vm_compute; discriminate]).
  assert (advance demo_5 demo_6) by (apply adv_loop, (loop_fail demo_5 0 (close_listener demo_listener) 0 true); vm_compute; reflexivity).
  assert (advance demo_6 demo_7) by (apply Hadv; [apply (stop_loops demo_6); [vm_compute; reflexivity|exact demo_6_ended]|vm_compute; discriminate]).
  assert (advance demo_7 demo_8) by (apply Hadv; [apply (stop_expires demo_7); vm_compute; reflexivity|vm_compute; discriminate]).
  assert (advance demo_8 demo_9) by (apply Hadv; [apply (stop_forces demo_8 [0] 0 []); vm_compute; reflexivity|vm_compute; discriminate]).
  assert (advance demo_9 demo_10) by (apply (adv_close demo_9 0); vm_compute; reflexivity).
  assert (advance demo_10 demo_11) by (apply (adv_release demo_10 0); vm_compute; reflexivity).
  assert (advance demo_11 demo_12) by (apply (adv_end demo_11 0 (demo_thread Released)); vm_compute; reflexivity).
  assert (advance demo_12 demo_13).
  { apply Hadv; [apply (stop_ends demo_12 [0]); [vm_compute; reflexivity|]|vm_compute; discriminate].
    intros id t. by rewrite demo_12_empty, lookup_empty. }
  do 9 (eapply nsteps_l; [eassumption|]). apply nsteps_O.
Qed.
Lemma demo_fresh : Forall fresh_listener [demo_listener].
Proof. repeat constructor. Qed.
Lemma demo_limit rt : only_demo rt → (maxConnections rt ≤ 2)%Z.
Proof. intros ->. by vm_compute. Qed.
Lemma demo_stopped : rtc demo_step demo_0 demo_13.
Proof.
  etransitivity; [exact demo_called|]. apply (rtc_nsteps_2 9). eapply (nsteps_congruence (λ p, p)); [intros p p'; apply advance_step|exact demo_advances].
Qed.
Lemma stop_complete_witness : p_stop demo_13 = Stopped 1 ∧ srv_sessions (p_srv demo_13) = ∅ ∧ size (p_forced demo_13) = 1.
Proof.
  destruct (stop_complete only_demo 2 demo_rt [demo_listener] demo_13 ltac:(lia) demo_limit eq_refl demo_fresh demo_stopped) as (Hs&_).
  destruct (Hs 1 eq_refl) as (_&Hse&_&_&_&Hn). split; [reflexivity|]. split; [exact Hse|symmetry; exact Hn].
Defined.
Lemma stop_returns_witness : nsteps advance 9 demo_4 demo_13 ∧ 9 ≤ stop_left demo_4.
Proof.
  split; [exact demo_advances|].
  apply (stop_returns only_demo 2 demo_rt [demo_listener] demo_4 9 demo_13 ltac:(lia) demo_limit eq_refl demo_fresh demo_called); [|exact demo_advances].
  vm_compute. discriminate.
Defined.
End ShutdownDemo.
