(* ===== verification/Netlink.v ===== *)
(** * The kernel as the daemon sees it

    The kernel objects, the calls of vishvananda/netlink, of wgctrl and of the
    system resolver that cmd/sakhtar-wg makes, as an interface over an abstract kernel state, and what
    those calls are documented to do.  Both packages and the kernel are not part
    of the sources: the definitions of wg.go are written against [Netlink], and
    its theorems assume [NetlinkLaws]. *)
From S2P Require Import Prelude Netip.

(** ** Objects *)

(** [n.IP.String()]; the string of an [IPNet]; an IPv4 address held in 16 bytes
    has its mask in the last 32 bits. *)
Definition ip_String (a : Addr) : string := addr_String (Unmap a).
Definition IPNet_String (n : IPNet) : string :=
  ip_String (n_ip n) +:+ "/" +:+
  itoa (match n_ip n, Unmap (n_ip n) with Addr6 _ _, Addr4 _ => 0 `max` (n_ones n - 96) | _, _ => n_ones n end)%Z.
Definition ip_Equal (a b : Addr) : bool := bool_decide (Unmap a = Unmap b).

(** [r_Other] and [ru_Other] stand for the attributes the daemon never sets. *)
Record Route := {
  r_V6 : bool; r_LinkIndex : Z; r_Table : Z; r_Dst : option IPNet; r_Protocol : Z; r_Src : option Addr;
  r_Other : Z }.
Record Rule := {
  ru_Priority : Z; ru_Mark : Z; ru_Mask : option Z; ru_Table : Z; ru_Protocol : Z; ru_Other : Z }.
Record Link := {
  l_Name : string; l_Index : Z; l_Type : string; l_MTU : Z; l_Alias : string; l_Up : bool }.
(** An address of a link, without a peer; [la_Net] is nil for one without a prefix. *)
Record LinkAddr := { la_Index : Z; la_V6 : bool; la_Net : option IPNet }.

(** Keys of package wgtypes are fixed-size arrays, here their bytes. *)
Record WgPeer := {
  wp_PublicKey : string; wp_Endpoint : option string; wp_Keepalive : Z; wp_AllowedIPs : list IPNet }.
Record WgDevice := { dev_PublicKey : string; dev_Peers : list WgPeer }.
(** [wgtypes.Config] as [wgConfig] fills it: one peer that replaces all others. *)
Record WgConfig := {
  wc_PrivateKey : string; wc_PublicKey : string; wc_Endpoint : string; wc_AllowedIPs : list IPNet;
  wc_Keepalive : option Z }.

#[export] Instance IPNet_eq_dec : EqDecision IPNet.
Proof. solve_decision. Defined.
#[export] Instance Route_eq_dec : EqDecision Route.
Proof. solve_decision. Defined.
#[export] Instance Rule_eq_dec : EqDecision Rule.
Proof. solve_decision. Defined.
#[export] Instance Link_eq_dec : EqDecision Link.
Proof. solve_decision. Defined.
#[export] Instance LinkAddr_eq_dec : EqDecision LinkAddr.
Proof. solve_decision. Defined.

(** ** Calls *)
Inductive errno := ENOENT | Errno (what : string).
Definition call (K A : Type) : Type := K → result errno A * K.

(** [RouteListFiltered]: IPv4 or all families, by output link and by table, where
    table 0 asks for every table, or by protocol. *)
Record RouteFilter := { f_All : bool; f_Link : option Z; f_Table : Z; f_Protocol : option Z }.
Definition filter_matches (f : RouteFilter) (r : Route) : bool :=
  (f_All f || negb (r_V6 r)) &&
  match f_Link f with Some i => (r_LinkIndex r =? i)%Z | None => true end &&
  ((f_Table f =? 0)%Z || (r_Table r =? f_Table f)%Z) &&
  match f_Protocol f with Some p => (r_Protocol r =? p)%Z | None => true end.

Class Netlink (K : Type) := {
  LinkByName : string → call K (option Link);
  LinkList : call K (list Link);
  LinkAdd : string → Z → call K unit;
  LinkDel : string → call K unit;
  LinkSetAlias : Link → string → call K unit;
  LinkSetMTU : Link → Z → call K unit;
  LinkSetUp : Link → call K unit;
  AddrList : Link → bool → call K (list LinkAddr);
  AddrAdd : Link → IPNet → call K unit;
  AddrDel : Link → IPNet → call K unit;
  RouteListFiltered : RouteFilter → call K (list Route);
  RouteAdd : Route → call K unit;
  RouteDel : Route → call K unit;
  RuleList : call K (list Rule);
  RuleAdd : Rule → call K unit;
  RuleDel : Rule → call K unit;
  Device : string → call K WgDevice;
  ConfigureDevice : string → WgConfig → call K unit;
  ReadSysctl : string → call K string;
  WriteSysctl : string → string → call K unit;
  ResolveUDPAddr : string → call K string }.

(** ** What the calls do *)

Record view := {
  v_links : list Link; v_addrs : list LinkAddr; v_routes : list Route; v_rules : list Rule }.

(** States with the same links, addresses, routes and rules. *)
Definition same (v w : view) : Prop :=
  v_links v ≡ₚ v_links w ∧ v_addrs v ≡ₚ v_addrs w ∧ v_routes v ≡ₚ v_routes w ∧ v_rules v ≡ₚ v_rules w.
#[export] Instance same_equiv : Equivalence same.
Proof.
  split.
  - by intros v.
  - intros v w (?&?&?&?). by split_and!.
  - intros u v w (?&?&?&?) (?&?&?&?). split_and!; by etrans.
Qed.

(** A call that fails changes nothing; one that succeeds does [P]. *)
Definition effect {K A} (see : K → view) (c : call K A) (P : view → A → view → Prop) : Prop :=
  ∀ k r k', c k = (r, k') → match r with Ok a => P (see k) a (see k') | Err _ => same (see k) (see k') end.

(** A call that removes an object fails with [ENOENT] only if there is none. *)
Definition missing {K A} (see : K → view) (c : call K A) (P : view → Prop) : Prop :=
  ∀ k k', c k = (Err ENOENT, k') → P (see k).

(** The kernel adds and removes routes of protocol 2 by itself, for the addresses
    of a link on that link. *)
Definition kernel_route (r : Route) : Prop := r_Protocol r = 2%Z.
Definition generated (link : Link) (r : Route) : Prop := kernel_route r ∧ r_LinkIndex r = l_Index link.

(** Routes that the link [link] takes along with its last IPv4 address: in [w] it has
    none, and they leave through it or have no output link of their own. *)
Definition stranded (link : Link) (w : view) (r : Route) : Prop :=
  r_V6 r = false ∧ (r_LinkIndex r = l_Index link ∨ r_LinkIndex r = 0%Z) ∧
  ∀ a, a ∈ v_addrs w → la_Index a = l_Index link → la_V6 a = true.

(** How the kernel reports a route or a rule that was added: a default route may
    come back without a destination, a full mask without a mask. *)
Definition route_reported (r r' : Route) : Prop :=
  r_V6 r' = r_V6 r ∧ r_Src r' = r_Src r ∧ r_LinkIndex r' = r_LinkIndex r ∧ r_Table r' = r_Table r ∧ r_Protocol r' = r_Protocol r ∧
  from_option IPNet_String "0.0.0.0/0" (r_Dst r') = from_option IPNet_String "0.0.0.0/0" (r_Dst r).
Definition rule_reported (r r' : Rule) : Prop :=
  ru_Priority r' = ru_Priority r ∧ ru_Mark r' = ru_Mark r ∧ ru_Table r' = ru_Table r ∧
  ru_Protocol r' = ru_Protocol r ∧ default u32_max (ru_Mask r') = default u32_max (ru_Mask r).
Definition net_reported (n n' : IPNet) : Prop := Unmap (n_ip n') = Unmap (n_ip n) ∧ n_ones n' = n_ones n.

Definition set_alias (l : Link) (alias : string) : Link :=
  {| l_Name := l_Name l; l_Index := l_Index l; l_Type := l_Type l; l_MTU := l_MTU l; l_Alias := alias; l_Up := l_Up l |}.
Definition set_mtu (l : Link) (mtu : Z) : Link :=
  {| l_Name := l_Name l; l_Index := l_Index l; l_Type := l_Type l; l_MTU := mtu; l_Alias := l_Alias l; l_Up := l_Up l |}.
Definition set_up (l : Link) : Link :=
  {| l_Name := l_Name l; l_Index := l_Index l; l_Type := l_Type l; l_MTU := l_MTU l; l_Alias := l_Alias l; l_Up := true |}.
(** The link of index [i] becomes [f] of itself, the other links stay. *)
Definition relinked (i : Z) (f : Link → Link) (v w : view) : Prop :=
  ∃ cur rest, l_Index cur = i ∧ v_links v ≡ₚ cur :: rest ∧ v_links w ≡ₚ f cur :: rest.

Class NetlinkLaws (K : Type) `{Netlink K} := {
  see : K → view;
  links_distinct : ∀ k, NoDup (l_Name <$> v_links (see k)) ∧ NoDup (l_Index <$> v_links (see k));
  links_numbered : ∀ k l, l ∈ v_links (see k) → l_Index l ≠ 0%Z;
  link_addr_family : ∀ k a n, a ∈ v_addrs (see k) → la_Net a = Some n → la_V6 a = negb (Is4 (Unmap (n_ip n)));
  LinkByName_law name : effect see (LinkByName name) (λ v o w, same v w ∧
    match o with Some l => l ∈ v_links v ∧ l_Name l = name | None => name ∉ l_Name <$> v_links v end);
  LinkList_law : effect see LinkList (λ v l w, same v w ∧ l ≡ₚ v_links v);
  (** a new link is down and has an index that no address and no route has *)
  LinkAdd_law name mtu : effect see (LinkAdd name mtu) (λ v _ w, ∃ link,
    l_Name link = name ∧ l_Type link = "wireguard" ∧ l_MTU link = mtu ∧ l_Alias link = "" ∧ l_Up link = false ∧
    (∀ a, a ∈ v_addrs v → la_Index a ≠ l_Index link) ∧ (∀ r, r ∈ v_routes v → r_LinkIndex r ≠ l_Index link) ∧
    v_links w ≡ₚ link :: v_links v ∧ v_addrs v ≡ₚ v_addrs w ∧ v_routes v ≡ₚ v_routes w ∧ v_rules v ≡ₚ v_rules w);
  (** deleting a link takes its addresses and routes with it, and may take routes that
      prefer one of its addresses as their source and, if it is up, routes without an
      output link of their own *)
  LinkDel_law name : effect see (LinkDel name) (λ v _ w, ∃ link lost, l_Name link = name ∧
    v_links v ≡ₚ link :: v_links w ∧ v_rules v ≡ₚ v_rules w ∧
    filter (λ a, la_Index a ≠ l_Index link) (v_addrs v) ≡ₚ v_addrs w ∧
    filter (λ r, r_LinkIndex r ≠ l_Index link) (v_routes v) ≡ₚ lost ++ v_routes w ∧
    Forall (λ r, is_Some (r_Src r) ∧ l_Index link ∈ la_Index <$> v_addrs v ∨ r_LinkIndex r = 0%Z ∧ l_Up link = true) lost);
  LinkDel_missing name : missing see (LinkDel name) (λ v, name ∉ l_Name <$> v_links v);
  LinkSetAlias_law link alias : effect see (LinkSetAlias link alias) (λ v _ w,
    relinked (l_Index link) (λ l, set_alias l alias) v w ∧
    v_addrs v ≡ₚ v_addrs w ∧ v_routes v ≡ₚ v_routes w ∧ v_rules v ≡ₚ v_rules w);
  (** an MTU, of the size that IPv4 needs, below 1280 takes the IPv6 addresses and routes of the link *)
  LinkSetMTU_law link mtu : effect see (LinkSetMTU link mtu) (λ v _ w, ∃ addrs routes,
    relinked (l_Index link) (λ l, set_mtu l mtu) v w ∧ v_rules v ≡ₚ v_rules w ∧
    v_addrs v ≡ₚ addrs ++ v_addrs w ∧ Forall (λ a, la_V6 a = true ∧ la_Index a = l_Index link) addrs ∧
    v_routes v ≡ₚ routes ++ v_routes w ∧ Forall (λ r, r_V6 r = true ∧ r_LinkIndex r = l_Index link) routes);
  LinkSetUp_law link : effect see (LinkSetUp link) (λ v _ w, ∃ gen,
    relinked (l_Index link) set_up v w ∧ v_addrs v ≡ₚ v_addrs w ∧ v_rules v ≡ₚ v_rules w ∧
    v_routes w ≡ₚ gen ++ v_routes v ∧ Forall (generated link) gen);
  AddrList_law link all : effect see (AddrList link all) (λ v l w, same v w ∧
    l ≡ₚ filter (λ a, la_Index a = l_Index link ∧ (all = true ∨ la_V6 a = false)) (v_addrs v));
  AddrAdd_law link net : effect see (AddrAdd link net) (λ v _ w, ∃ new net' gen,
    la_Index new = l_Index link ∧ la_V6 new = negb (Is4 (Unmap (n_ip net))) ∧
    la_Net new = Some net' ∧ net_reported net net' ∧
    v_addrs w ≡ₚ new :: v_addrs v ∧ v_links v ≡ₚ v_links w ∧ v_rules v ≡ₚ v_rules w ∧
    v_routes w ≡ₚ gen ++ v_routes v ∧ Forall (generated link) gen);
  (** removing an address may take other IPv4 addresses of the link (its
      secondaries), the kernel's own routes, the routes that prefer a removed address
      as their source, and, when the link has no IPv4 address left, all its IPv4
      routes; an address that takes the place of the removed one gets the kernel's
      routes, and IPv6 routes only lose the preferred source *)
  AddrDel_law link net : effect see (AddrDel link net) (λ v _ w, ∃ gone lost gen,
    v_addrs v ≡ₚ gone ++ v_addrs w ∧ Forall (λ a, la_Index a = l_Index link) gone ∧
    (∃ a net', a ∈ gone ∧ la_Net a = Some net' ∧ net_reported net net') ∧
    v_links v ≡ₚ v_links w ∧ v_rules v ≡ₚ v_rules w ∧ gen ++ v_routes v ≡ₚ lost ++ v_routes w ∧
    Forall (λ r, kernel_route r ∨ is_Some (r_Src r) ∨ stranded link w r) lost ∧
    Forall (λ r, generated link r ∨ Is4 (Unmap (n_ip net)) = false ∧ r_V6 r = true ∧ r_Src r = None) gen);
  RouteListFiltered_law f : effect see (RouteListFiltered f) (λ v l w, same v w ∧
    l ≡ₚ filter (λ r, filter_matches f r = true) (v_routes v));
  RouteAdd_law r : effect see (RouteAdd r) (λ v _ w, ∃ r', route_reported r r' ∧
    v_routes w ≡ₚ r' :: v_routes v ∧ v_links v ≡ₚ v_links w ∧ v_addrs v ≡ₚ v_addrs w ∧ v_rules v ≡ₚ v_rules w);
  RouteDel_law r : effect see (RouteDel r) (λ v _ w,
    v_routes v ≡ₚ r :: v_routes w ∧ v_links v ≡ₚ v_links w ∧ v_addrs v ≡ₚ v_addrs w ∧ v_rules v ≡ₚ v_rules w);
  RouteDel_missing r : missing see (RouteDel r) (λ v, r ∉ v_routes v);
  RuleList_law : effect see RuleList (λ v l w, same v w ∧ l ≡ₚ v_rules v);
  RuleAdd_law r : effect see (RuleAdd r) (λ v _ w, ∃ r', rule_reported r r' ∧
    v_rules w ≡ₚ r' :: v_rules v ∧ v_links v ≡ₚ v_links w ∧ v_addrs v ≡ₚ v_addrs w ∧ v_routes v ≡ₚ v_routes w);
  RuleDel_law r : effect see (RuleDel r) (λ v _ w,
    v_rules v ≡ₚ r :: v_rules w ∧ v_links v ≡ₚ v_links w ∧ v_addrs v ≡ₚ v_addrs w ∧ v_routes v ≡ₚ v_routes w);
  RuleDel_missing r : missing see (RuleDel r) (λ v, r ∉ v_rules v);
  Device_law name : effect see (Device name) (λ v _ w, same v w);
  ConfigureDevice_law name c : effect see (ConfigureDevice name c) (λ v _ w, same v w);
  ReadSysctl_law key : effect see (ReadSysctl key) (λ v _ w, same v w);
  WriteSysctl_law key value : effect see (WriteSysctl key value) (λ v _ w, same v w);
  ResolveUDPAddr_law addr : effect see (ResolveUDPAddr addr) (λ v _ w, same v w) }.
