(* ===== verification/Wg.v ===== *)
(** * wg.go, wgconfig.go: bringing tunnels up and down

    Every operation on links, addresses, routes and policy rules, over the kernel
    interface of [Netlink].  An operation runs in [M]: it may fail at any call and
    leaves the kernel where the calls before left it. *)
From S2P Require Import Prelude Netip Config KernelPlan Netlink.

(** The error of a check, the wrapped error of a call, and [errors.Join]. *)
Inductive wg_error :=
| Refused (tunnel what : string)
| CallFailed (tunnel what : string) (e : errno)
| Joined (e rest : wg_error).

(** [requiredSysctls]: the value a sysctl had when it was first required. *)
Record sysctlRecord := { sr_Required : string; sr_Previous : string }.
Definition world (K : Type) : Type := K * gmap string sysctlRecord.

Definition M (S A : Type) : Type := S → result wg_error A * S.
#[export] Instance M_ret {S} : MRet (M S) := λ A a s, (Ok a, s).
#[export] Instance M_bind {S} : MBind (M S) := λ A B f m s,
  match m s with (Ok a, s) => f a s | (Err e, s) => (Err e, s) end.

Definition refuse {S A} (tunnel what : string) : M S A := λ s, (Err (Refused tunnel what), s).
Definition of_result {S A} (r : result wg_error A) : M S A := λ s, (r, s).
Definition of_option {S A} (tunnel what : string) (o : option A) : M S A :=
  match o with Some a => mret a | None => refuse tunnel what end.
(** A call; its error is wrapped. *)
Definition lift {K A} (tunnel what : string) (c : call K A) : M (world K) A := λ s,
  match c s.1 with
  | (Ok a, k) => (Ok a, (k, s.2))
  | (Err e, k) => (Err (CallFailed tunnel what e), (k, s.2))
  end.
(** [if err := c; err != nil && !errors.Is(err, syscall.ENOENT)]. *)
Definition lift_noent {K} (tunnel what : string) (c : call K unit) : M (world K) unit := λ s,
  match c s.1 with
  | (Ok _, k) | (Err ENOENT, k) => (Ok tt, (k, s.2))
  | (Err e, k) => (Err (CallFailed tunnel what e), (k, s.2))
  end.
(** Run [m] and look at its error without returning it. *)
Definition attempt {S A} (m : M S A) : M S (result wg_error A) := λ s, let '(r, s) := m s in (Ok r, s).
(** A loop whose body may return an error. *)
Fixpoint each {S A} (f : A → M S unit) (l : list A) : M S unit :=
  match l with [] => mret () | a :: l => f a ≫= λ _, each f l end.
Definition errors_of {A} (r : result wg_error A) : list wg_error := match r with Ok _ => [] | Err e => [e] end.
(** A loop that collects the errors of its body. *)
Fixpoint collect {S A} (f : A → M S unit) (l : list A) : M S (list wg_error) :=
  match l with
  | [] => mret []
  | a :: l => r ← attempt (f a); errs ← collect f l; mret (errors_of r ++ errs)
  end.
Definition join {S} (errs : list wg_error) : M S unit := λ s,
  (match errs with [] => Ok tt | e :: errs => Err (foldl Joined e errs) end, s).

Definition mainTable : Z := 254.
Definition linkAliasPrefix : string := "sakhtar-wg:v1:".
Definition linkModeCreated : string := "created".
Definition linkModeAdopted : string := "adopted".

(** Package wgtypes: parsing a key and its public key; package sha256: the first
    eight bytes of the digest in hexadecimal; [netlink.ParseAddr], an address
    with the length of its mask. *)
Class WgKeys := {
  parse_key : string → option string; public_key : string → string; digest8 : string → string;
  netlink_ParseAddr : string → option IPNet }.
Definition zero_key : string := bytes_str (repeat 0%N 32).

Section wg.
Context {K : Type} `{Netlink K} `{WgKeys}.
Implicit Types (t : Tunnel) (link : Link).

(** ** wgconfig.go *)
Fixpoint parse_allowed (name : string) (l : list string) : result wg_error (list IPNet) :=
  match l with
  | [] => Ok []
  | cidr :: l => match ParseCIDR cidr with
                 | None => Err (Refused name "allowed_ips")
                 | Some n => match parse_allowed name l with Ok ns => Ok (n :: ns) | Err e => Err e end
                 end
  end.
Definition wgConfig t : M (world K) WgConfig :=
  priv ← of_option (t_Name t) "private_key" (parse_key (t_PrivateKey t));
  pub ← of_option (t_Name t) "peer.public_key" (parse_key (pe_PublicKey (t_Peer t)));
  endpoint ← lift (t_Name t) "peer.endpoint" (ResolveUDPAddr (pe_Endpoint (t_Peer t)));
  allowed ← of_result (parse_allowed (t_Name t) (default [] (pe_AllowedIPs (t_Peer t))));
  mret {| wc_PrivateKey := priv; wc_PublicKey := pub; wc_Endpoint := endpoint; wc_AllowedIPs := allowed;
          wc_Keepalive := if (0 <? pe_Keepalive (t_Peer t))%Z
                          then Some (to_int64 (pe_Keepalive (t_Peer t) * second)) else None |}.

(** ** Identity of links *)
Definition ownershipAlias t (mode : string) : string :=
  linkAliasPrefix +:+ mode +:+ ":" +:+
  match parse_key (t_PrivateKey t) with None => "invalid" | Some key => digest8 (public_key key) end.

(** [None] is the error of [ownedLinkMode]. *)
Definition ownedLinkMode link t : option string :=
  if bool_decide (l_Alias link = ownershipAlias t linkModeCreated) then Some linkModeCreated
  else if bool_decide (l_Alias link = ownershipAlias t linkModeAdopted) then Some linkModeAdopted
  else None.
Definition owned_mode link t : M (world K) string :=
  of_option (t_Name t) "ownership alias does not match configured key identity" (ownedLinkMode link t).

Definition lookupLink (name : string) : M (world K) (option Link) := lift name "lookup link" (LinkByName name).

Definition derefDuration (value : option Z) : Z := default 0%Z value.

Definition deviceMatchesTunnel (device : WgDevice) t : M (world K) bool :=
  compiled ← wgConfig t;
  mret (bool_decide (dev_PublicKey device = public_key (wc_PrivateKey compiled)) &&
    match dev_Peers device with
    | [current] =>
        bool_decide (wp_PublicKey current = wc_PublicKey compiled) &&
        bool_decide (wp_Keepalive current = derefDuration (wc_Keepalive compiled)) &&
        bool_decide (wp_Endpoint current = Some (wc_Endpoint compiled)) &&
        bool_decide (str_join "," (sort_strings (IPNet_String <$> wp_AllowedIPs current)) =
                     str_join "," (sort_strings (IPNet_String <$> wc_AllowedIPs compiled)))
    | _ => false
    end).

Definition verifyExistingKeyIdentity t : M (world K) unit :=
  device ← lift (t_Name t) "inspect wireguard identity" (Device (t_Name t));
  privateKey ← of_option (t_Name t) "parse private key for identity" (parse_key (t_PrivateKey t));
  if negb (bool_decide (dev_PublicKey device = zero_key)) &&
     negb (bool_decide (dev_PublicKey device = public_key privateKey))
  then refuse (t_Name t) "owned link has an unexpected WireGuard key identity" else mret ().

(** ** Addresses and routes *)
Definition addressKey (n : IPNet) : string := ip_String (n_ip n) +:+ "/" +:+ itoa (n_ones n).

Definition has_address (desired : IPNet) (a : LinkAddr) : bool :=
  match la_Net a with Some n => bool_decide (addressKey n = addressKey desired) | None => false end.
Definition containsAddress (addresses : list LinkAddr) (desired : IPNet) : bool := existsb (has_address desired) addresses.

Definition routeDestination (r : Route) : string :=
  match r_Dst r with None => "0.0.0.0/0" | Some n => IPNet_String n end.
Definition routeID (r : Route) : string :=
  "table=" +:+ itoa (r_Table r) +:+ "/link=" +:+ itoa (r_LinkIndex r) +:+ "/dst=" +:+ routeDestination r.

Definition listAllRoutesOnLink link (all : bool) : call K (list Route) :=
  RouteListFiltered {| f_All := all; f_Link := Some (l_Index link); f_Table := 0; f_Protocol := None |}.

Definition addressGeneratedRoute (r : Route) (address : option IPNet) : bool :=
  match address, r_Dst r with
  | Some a, Some dst =>
      (r_Protocol r =? 2)%Z &&
      (match r_Src r with Some src => ip_Equal src (n_ip a) | None => false end ||
       bool_decide (IPNet_String dst = IPNet_String a) || ip_Equal (n_ip dst) (n_ip a))
  | _, _ => false
  end.
Definition linkGeneratedRoute (r : Route) : bool :=
  (r_Protocol r =? 2)%Z && (r_Table r =? 255)%Z &&
  match r_Dst r with Some n => bool_decide (IPNet_String n = "ff00::/8") | None => false end.

(** ** Rules *)
Definition markRule t : Rule :=
  {| ru_Priority := t_RulePriority t; ru_Mark := wrap32 (t_Fwmark t); ru_Mask := Some (t_FwmarkMask t);
     ru_Table := t_Table t; ru_Protocol := RouteProtocol mod 256; ru_Other := 0 |}.
Definition ruleMask (mask : option Z) : Z := default FullMarkMask mask.
Definition ruleEqual (a b : Rule) : bool :=
  (ru_Priority a =? ru_Priority b)%Z && (ru_Mark a =? ru_Mark b)%Z && (ruleMask (ru_Mask a) =? ruleMask (ru_Mask b))%Z &&
  (ru_Table a =? ru_Table b)%Z && (ru_Protocol a =? ru_Protocol b)%Z.

Definition rule_step t (exact : list Rule) (rule : Rule) : M (world K) (list Rule) :=
  let desired := markRule t in
  if negb (ru_Priority rule =? ru_Priority desired)%Z then mret exact
  else if ruleEqual rule desired then mret (exact ++ [rule])
  else if negb (ru_Protocol rule =? RouteProtocol)%Z then
    refuse (t_Name t) "rule priority is occupied by an unowned/conflicting rule"
  else _ ← lift_noent (t_Name t) "replace owned rule" (RuleDel rule); mret exact.
Fixpoint rule_loop t (exact rules : list Rule) : M (world K) (list Rule) :=
  match rules with [] => mret exact | rule :: rules => exact ← rule_step t exact rule; rule_loop t exact rules end.

Definition reconcileRule t : M (world K) unit :=
  rules ← lift (t_Name t) "list policy rules" RuleList;
  exact ← rule_loop t [] rules;
  match exact with
  | _ :: duplicates =>
      each (λ r, lift_noent (t_Name t) "delete duplicate owned rule" (RuleDel r)) duplicates
  | [] => lift (t_Name t) "add policy rule" (RuleAdd (markRule t))
  end.

Definition deleteOwnedRule t : M (world K) unit :=
  rules ← lift (t_Name t) "list rules for cleanup" RuleList;
  each (λ r, if ruleEqual r (markRule t) then lift_noent (t_Name t) "delete owned rule" (RuleDel r) else mret ()) rules.

(** ** Route sets *)
Definition owned_route (r : Route) : bool := (r_Protocol r =? RouteProtocol)%Z.
Definition route_evidence : string := "route protocol 186 + owned link alias".
Definition current_object (r : Route) : Object :=
  {| o_Kind := KernelPlan.Route; o_ID := routeID r; o_Value := "protocol=" +:+ itoa (r_Protocol r);
     o_Owned := owned_route r; o_Evidence := if owned_route r then route_evidence else ""; o_AllowAdopt := false |}.
Definition desired_object (r : Route) : Object :=
  {| o_Kind := KernelPlan.Route; o_ID := routeID r; o_Value := "protocol=" +:+ itoa RouteProtocol;
     o_Owned := true; o_Evidence := route_evidence; o_AllowAdopt := false |}.
(** The zero value a lookup of a missing key gives. *)
Definition zero_Route : Route :=
  {| r_V6 := false; r_LinkIndex := 0; r_Table := 0; r_Dst := None; r_Protocol := 0; r_Src := None; r_Other := 0 |}.

Fixpoint index_routes (tunnelName : string) (relevant : Route → bool) (objects : list Object)
    (routes : gmap string Route) (existing : list Route) : result wg_error (list Object * gmap string Route) :=
  match existing with
  | [] => Ok (objects, routes)
  | route :: existing =>
      if negb (relevant route) then index_routes tunnelName relevant objects routes existing
      else match routes !! routeID route with
           | Some _ => Err (Refused tunnelName "multiple routes occupy the same id")
           | None => index_routes tunnelName relevant (objects ++ [current_object route])
                       (<[routeID route := route]> routes) existing
           end
  end.

Definition run_route_op (tunnelName : string) (current desired : gmap string Route) (phase : Action) (op : Operation) :
    M (world K) unit :=
  if negb (bool_decide (op_Action op = phase)) then mret ()
  else match op_Action op with
       | Add => lift tunnelName "add route" (RouteAdd (default zero_Route (desired !! op_ID op)))
       | Delete => lift_noent tunnelName "delete owned route" (RouteDel (default zero_Route (current !! op_ID op)))
       | Update => refuse tunnelName "unsupported route operation"
       end.

Definition route_filter link (table : Z) : RouteFilter :=
  {| f_All := false; f_Link := Some (l_Index link); f_Table := table; f_Protocol := None |}.

Definition reconcileRouteSet (tunnelName : string) link (table : Z) (desired : list Route) (relevant : Route → bool) :
    M (world K) unit :=
  existing ← lift tunnelName "list routes" (RouteListFiltered (route_filter link table));
  '(currentObjects, currentRoutes) ← of_result (index_routes tunnelName relevant [] ∅ existing);
  let desiredObjects := desired_object <$> desired in
  let desiredRoutes := foldl (λ m r, <[routeID r := r]> m) ∅ desired in
  plan ← of_result (match PlanDiff currentObjects desiredObjects with
                    | Ok plan => Ok plan | Err _ => Err (Refused tunnelName "plan routes") end);
  if HasBlockingDrift plan then refuse tunnelName "route ownership conflict"
  else each (λ phase, each (run_route_op tunnelName currentRoutes desiredRoutes phase) (Operations plan)) [Add; Delete].

(** The family of a route is that of its destination. *)
Definition owned_to link (table : Z) (dst : IPNet) : Route :=
  {| r_V6 := negb (Is4 (Unmap (n_ip dst))); r_LinkIndex := l_Index link; r_Table := table; r_Dst := Some dst; r_Protocol := RouteProtocol;
     r_Src := None; r_Other := 0 |}.

(** Any table but main, if the route is the daemon's or in the tunnel's table. *)
Definition default_relevant t (r : Route) : bool :=
  negb (r_Table r =? mainTable)%Z && ((r_Protocol r =? RouteProtocol)%Z || (r_Table r =? t_Table t)%Z).
Definition reconcileDefaultRoute link t : M (world K) unit :=
  let dst := {| n_ip := Addr4 0; n_ones := 0 |} in
  reconcileRouteSet (t_Name t) link 0 [owned_to link (t_Table t) dst] (default_relevant t).

Fixpoint desired_routes link (name : string) (cidrs : list string) : result wg_error (list Route) :=
  match cidrs with
  | [] => Ok []
  | cidr :: cidrs =>
      match ParseCIDR cidr with
      | None => Err (Refused name "route")
      | Some prefix => match desired_routes link name cidrs with
                       | Ok l => Ok (owned_to link mainTable prefix :: l) | Err e => Err e end
      end
  end.
Definition main_relevant (r : Route) : bool := (r_Table r =? mainTable)%Z.
Definition reconcileRoutes link t : M (world K) unit :=
  desired ← of_result (desired_routes link (t_Name t) (routes t));
  reconcileRouteSet (t_Name t) link mainTable desired main_relevant.

Definition reconcilePlumbing link t : M (world K) unit :=
  _ ← reconcileDefaultRoute link t; _ ← reconcileRule t; reconcileRoutes link t.

(** ** Addresses, links, sysctls *)

(** The loop of [reconcileAddress]: whether the address was found, [None] when one
    with another mask conflicts. *)
Fixpoint find_address (desired : IPNet) (found : bool) (addresses : list LinkAddr) : option bool :=
  match addresses with
  | [] => Some found
  | a :: addresses =>
      if has_address desired a then find_address desired true addresses
      else if match la_Net a with Some n => ip_Equal (n_ip n) (n_ip desired) | None => false end then None
      else find_address desired found addresses
  end.
Definition reconcileAddress link t : M (world K) unit :=
  desired ← of_option (t_Name t) "address" (netlink_ParseAddr (t_Address t));
  addresses ← lift (t_Name t) "list addresses" (AddrList link false);
  found ← of_option (t_Name t) "address conflicts with desired" (find_address desired false addresses);
  if (found : bool) then mret () else lift (t_Name t) "add address" (AddrAdd link desired).

Definition requireSysctl (key value : string) : M (world K) unit :=
  currentBytes ← lift key "read" (ReadSysctl ("/proc/sys/" +:+ key));
  let current := trim_space currentBytes in
  _ ← (λ s, (Ok tt, (s.1, match s.2 !! key with
                            | Some _ => s.2
                            | None => <[key := {| sr_Required := value; sr_Previous := current |}]> s.2 end)));
  if bool_decide (current = value) then mret () else lift key "write" (WriteSysctl ("/proc/sys/" +:+ key) value).
Definition writeSysctl (key value : string) : M (world K) unit := requireSysctl key value.

Definition verifyAdoptedLink link t : M (world K) unit :=
  if negb (l_MTU link =? t_MTU t)%Z || negb (l_Up link) then refuse (t_Name t) "adopted link MTU/up state drifted"
  else
    device ← lift (t_Name t) "inspect adopted WireGuard config" (Device (t_Name t));
    matches ← deviceMatchesTunnel device t;
    if (matches : bool) then mret () else refuse (t_Name t) "adopted WireGuard configuration drifted".

Definition rule_touches t (rule : Rule) : bool :=
  (ru_Priority rule =? t_RulePriority t)%Z || (ru_Mark rule =? wrap32 (t_Fwmark t))%Z || (ru_Table rule =? t_Table t)%Z.
Definition verifyAdoptionCandidate link t : M (world K) unit :=
  if negb (l_MTU link =? t_MTU t)%Z then refuse (t_Name t) "adoption refused: MTU"
  else if negb (l_Up link) then refuse (t_Name t) "adoption refused: existing link must already be up"
  else
    addresses ← lift (t_Name t) "inspect addresses before adoption" (AddrList link true);
    if negb (bool_decide (addresses = [])) then refuse (t_Name t) "adoption refused: existing link has addresses" else
    routes ← lift (t_Name t) "inspect routes before adoption" (listAllRoutesOnLink link true);
    if negb (forallb linkGeneratedRoute routes) then refuse (t_Name t) "adoption refused: conflicting routes" else
    rules ← lift (t_Name t) "inspect rules before adoption" RuleList;
    if existsb (rule_touches t) rules then refuse (t_Name t) "adoption refused: conflicting policy rule" else
    device ← lift (t_Name t) "inspect WireGuard config before adoption" (Device (t_Name t));
    matches ← deviceMatchesTunnel device t;
    if (matches : bool) then mret () else refuse (t_Name t) "adoption refused: WireGuard key/peer configuration differs".

(** Give up on a link just created: delete it and return both errors. *)
Definition undo_create {A} t (e : wg_error) : M (world K) A :=
  r ← attempt (lift (t_Name t) "delete link" (LinkDel (t_Name t)));
  of_result (Err (match r with Ok _ => e | Err d => Joined e d end)).

(** Look the link up again after a change to it. *)
Definition lookup_again t (what : string) : M (world K) Link :=
  o ← lookupLink (t_Name t); of_option (t_Name t) what o.

Definition create_link t : M (world K) Link :=
  _ ← lift (t_Name t) "create wireguard link" (LinkAdd (t_Name t) (t_MTU t));
  created ← attempt (lookup_again t "link disappeared after creation");
  match created with
  | Err e => undo_create t e
  | Ok created =>
      marked ← attempt (lift (t_Name t) "set ownership alias" (LinkSetAlias created (ownershipAlias t linkModeCreated)));
      match marked with
      | Err e => undo_create t e
      | Ok _ =>
          r ← attempt (lookup_again t "link disappeared after alias update");
          match r with Err e => undo_create t e | Ok marked => mret marked end
      end
  end.

Definition ensureOwnedLink t : M (world K) Link :=
  o ← lookupLink (t_Name t);
  match o with
  | None => create_link t
  | Some link =>
      if negb (bool_decide (l_Type link = "wireguard")) then refuse (t_Name t) "existing link is not wireguard"
      else match ownedLinkMode link t with
           | Some _ => _ ← verifyExistingKeyIdentity t; mret link
           | None =>
               if negb (t_AdoptExisting t) then refuse (t_Name t) "same-name link without the expected ownership marker"
               else if negb (bool_decide (l_Alias link = "")) then refuse (t_Name t) "existing link alias is foreign"
               else
                 _ ← verifyAdoptionCandidate link t;
                 _ ← lift (t_Name t) "mark adopted link" (LinkSetAlias link (ownershipAlias t linkModeAdopted));
                 lookup_again t "link disappeared after adoption"
           end
  end.

(** ** tunnelUp *)

(** [tunnelUp] once the link is there. *)
Definition configure_link t (cfg : WgConfig) link : M (world K) unit :=
  mode ← owned_mode link t;
  let adopted := bool_decide (mode = linkModeAdopted) in
  _ ← (if (adopted : bool) then verifyAdoptedLink link t else mret ());
  _ ← (if negb (l_MTU link =? t_MTU t)%Z then lift (t_Name t) "set MTU" (LinkSetMTU link (t_MTU t)) else mret ());
  _ ← reconcileAddress link t;
  _ ← (if adopted then mret () else lift (t_Name t) "configure wireguard" (ConfigureDevice (t_Name t) cfg));
  _ ← lift (t_Name t) "link up" (LinkSetUp link);
  _ ← requireSysctl "net/ipv4/conf/all/src_valid_mark" "1";
  reconcilePlumbing link t.

Definition tunnelUp t : M (world K) unit :=
  cfg ← wgConfig t; link ← ensureOwnedLink t; configure_link t cfg link.

(** ** tunnelDown *)
Definition deleteOwnedRoutes link t : M (world K) unit :=
  routes ← lift (t_Name t) "list routes for cleanup" (listAllRoutesOnLink link false);
  cleanup ← collect (λ r, if owned_route r then lift_noent (t_Name t) "delete owned route" (RouteDel r) else mret ()) routes;
  join cleanup.

Definition foreign_address (address : option IPNet) (current : LinkAddr) : bool :=
  match address with Some a => negb (has_address a current) | None => true end.

(** What follows in [tunnelDown] once the link is known to be the daemon's;
    [cleanup] are the errors so far. *)
Definition adopted_down link t (cleanup : list wg_error) (address : option IPNet)
    (addresses : result wg_error (list LinkAddr)) : M (world K) unit :=
  r ← match address, addresses with
      | Some a, Ok addresses =>
          if containsAddress addresses a
          then attempt (lift_noent (t_Name t) "delete owned address" (AddrDel link a)) else mret (Ok tt)
      | _, _ => mret (Ok tt)
      end;
  let cleanup := cleanup ++ errors_of r in
  match cleanup with
  | [] => lift (t_Name t) "clear adoption marker" (LinkSetAlias link "")
  | _ => join cleanup
  end.
Definition created_down link t (cleanup : list wg_error) (address : option IPNet)
    (addresses : result wg_error (list LinkAddr)) : M (world K) unit :=
  let cleanup := cleanup ++ match addresses with
    | Ok addresses =>
        (λ _, Refused (t_Name t) "foreign address prevents owned-link deletion") <$>
          filter (λ a, foreign_address address a = true) addresses
    | Err _ => [] end in
  remaining ← attempt (lift (t_Name t) "list routes before link delete" (listAllRoutesOnLink link true));
  let cleanup := cleanup ++ match remaining with
    | Err e => [e]
    | Ok routes => if forallb (λ r, addressGeneratedRoute r address || linkGeneratedRoute r) routes then []
                   else [Refused (t_Name t) "foreign/unattributed routes prevent owned-link deletion"] end in
  match cleanup with
  | [] => lift_noent (t_Name t) "delete owned link" (LinkDel (t_Name t))
  | _ => join cleanup
  end.

Definition owned_down link t (mode : string) (cleanup : list wg_error) : M (world K) unit :=
  r ← attempt (deleteOwnedRoutes link t);
  let address := netlink_ParseAddr (t_Address t) in
  let parseErr := match address with None => [Refused (t_Name t) "parse owned address"] | Some _ => [] end in
  addresses ← attempt (lift (t_Name t) "list addresses before delete" (AddrList link false));
  let cleanup := cleanup ++ errors_of r ++ parseErr ++ errors_of addresses in
  if bool_decide (mode = linkModeAdopted) then adopted_down link t cleanup address addresses
  else created_down link t cleanup address addresses.

Definition tunnelDown t : M (world K) unit :=
  r ← attempt (deleteOwnedRule t);
  let cleanup := errors_of r in
  o ← attempt (lookupLink (t_Name t));
  match o with
  | Err e => join (cleanup ++ [e])
  | Ok None => join cleanup
  | Ok (Some link) =>
      match ownedLinkMode link t with
      | None => join (cleanup ++ [Refused (t_Name t) "ownership alias does not match configured key identity"])
      | Some mode => owned_down link t mode cleanup
      end
  end.

(** ** Partial cleanup *)
Definition with_owned_link t (f : Link → M (world K) unit) : M (world K) unit :=
  o ← lookupLink (t_Name t);
  match o with None => mret () | Some link => _ ← owned_mode link t; f link end.

Definition deleteExactOwnedAddress t : M (world K) unit :=
  with_owned_link t (λ link,
    desired ← of_option (t_Name t) "parse address for exact cleanup" (netlink_ParseAddr (t_Address t));
    addresses ← lift (t_Name t) "list addresses for exact cleanup" (AddrList link false);
    if containsAddress addresses desired
    then lift_noent (t_Name t) "delete exact owned address" (AddrDel link desired) else mret ()).

Definition deleteOwnedDefaultRoute t : M (world K) unit :=
  with_owned_link t (λ link,
    routes ← lift (t_Name t) "list owned default route" (RouteListFiltered (route_filter link (t_Table t)));
    cleanup ← collect (λ r,
      if owned_route r && bool_decide (routeDestination r = "0.0.0.0/0")
      then lift_noent (t_Name t) "delete owned default route" (RouteDel r) else mret ()) routes;
    join cleanup).

(** ** validateKernelReservations *)
Definition reserved_rule (rule : Rule) : bool :=
  (RulePriorityMin <=? ru_Priority rule)%Z && (ru_Priority rule <=? RulePriorityMax)%Z ||
  (ru_Protocol rule =? RouteProtocol)%Z.
Definition expected_rule (desired : gmap Z Rule) (rule : Rule) : bool :=
  match desired !! ru_Priority rule with Some expected => ruleEqual rule expected | None => false end.

Definition validateKernelReservations (tunnels : list Tunnel) : M (world K) unit :=
  links ← lift "" "list links for ownership validation" LinkList;
  let ownedIndices : list Z := l_Index <$> filter (λ l, has_prefix linkAliasPrefix (l_Alias l) = true) links in
  routes ← lift "" "list reserved-protocol routes"
             (RouteListFiltered {| f_All := false; f_Link := None; f_Table := 0; f_Protocol := Some RouteProtocol |});
  if negb (forallb (λ r, bool_decide (r_LinkIndex r ∈ ownedIndices)) routes)
  then refuse "" "route protocol conflict: output link lacks ownership" else
  let desired : gmap Z Rule := foldl (λ m t, <[t_RulePriority t := markRule t]> m) ∅ tunnels in
  rules ← lift "" "list rules for ownership validation" RuleList;
  if forallb (λ rule, negb (reserved_rule rule) || expected_rule desired rule) rules then mret ()
  else refuse "" "policy-rule ownership conflict".
End wg.
