(* ===== verification/WgKernel.v ===== *)
(** * A kernel

    A small kernel that satisfies [NetlinkLaws]: its state is what can be seen of
    it.  It shows that the laws can hold together, and runs the examples. *)
From S2P Require Import Prelude Netip Config KernelPlan Netlink Wg.

(** Links have names and indices of their own, and addresses their family. *)
Definition family_ok (a : LinkAddr) : bool :=
  match la_Net a with Some n => bool_decide (la_V6 a = negb (Is4 (Unmap (n_ip n)))) | None => true end.
Definition distinct (v : view) : Prop :=
  (NoDup (l_Name <$> v_links v) ∧ NoDup (l_Index <$> v_links v)) ∧
  Forall (λ l, l_Index l ≠ 0%Z) (v_links v) ∧ Forall (λ a, family_ok a = true) (v_addrs v).
#[export] Instance distinct_dec v : Decision (distinct v).
Proof. unfold distinct. apply _. Defined.
Definition empty_view : view := {| v_links := []; v_addrs := []; v_routes := []; v_rules := [] |}.
(** A state that is not a kernel counts as the empty one. *)
Definition proper (v : view) : view := if decide (distinct v) then v else empty_view.

Fixpoint remove1 {A} `{EqDecision A} (x : A) (l : list A) : option (list A) :=
  match l with
  | [] => None
  | y :: l => if decide (x = y) then Some l else (y ::.) <$> remove1 x l
  end.

Module Toy.
Definition look {A} (f : view → A) : call view A := λ v, (Ok (f (proper v)), v).
(** A change that would break [distinct] is refused. *)
Definition change (f : view → result errno view) : call view unit := λ v,
  match f (proper v) with
  | Ok w => if decide (distinct w) then (Ok tt, w) else (Err (Errno "EEXIST"), v)
  | Err e => (Err e, v)
  end.
Definition links (f : list Link → result errno (list Link)) (v : view) : result errno view :=
  match f (v_links v) with
  | Ok l => Ok {| v_links := l; v_addrs := v_addrs v; v_routes := v_routes v; v_rules := v_rules v |}
  | Err e => Err e
  end.
Definition addrs (f : list LinkAddr → result errno (list LinkAddr)) (v : view) : result errno view :=
  match f (v_addrs v) with
  | Ok l => Ok {| v_links := v_links v; v_addrs := l; v_routes := v_routes v; v_rules := v_rules v |}
  | Err e => Err e
  end.
Definition routes (f : list Route → result errno (list Route)) (v : view) : result errno view :=
  match f (v_routes v) with
  | Ok l => Ok {| v_links := v_links v; v_addrs := v_addrs v; v_routes := l; v_rules := v_rules v |}
  | Err e => Err e
  end.
Definition rules (f : list Rule → result errno (list Rule)) (v : view) : result errno view :=
  match f (v_rules v) with
  | Ok l => Ok {| v_links := v_links v; v_addrs := v_addrs v; v_routes := v_routes v; v_rules := l |}
  | Err e => Err e
  end.
Definition remove {A} `{EqDecision A} (x : A) (l : list A) : result errno (list A) :=
  match remove1 x l with Some l => Ok l | None => Err ENOENT end.
Definition relink (i : Z) (f : Link → Link) (l : list Link) : result errno (list Link) :=
  match filter (λ x, l_Index x = i) l with
  | cur :: _ => match remove1 cur l with Some rest => Ok (f cur :: rest) | None => Err ENOENT end
  | [] => Err ENOENT
  end.
(** Every device is configured as the tunnel of the example. *)
Definition device : WgDevice :=
  {| dev_PublicKey := "key.pub";
     dev_Peers := [{| wp_PublicKey := "peer"; wp_Endpoint := Some "192.0.2.1:51820"; wp_Keepalive := 25000000000;
                      wp_AllowedIPs := [{| n_ip := Addr4 0; n_ones := 0 |}] |}] |}.
Definition max_index (v : view) : Z :=
  foldr Z.max 0%Z ((l_Index <$> v_links v) ++ (la_Index <$> v_addrs v) ++ (r_LinkIndex <$> v_routes v)).
Definition add_link (name : string) (mtu : Z) (v : view) : result errno view :=
  links (λ l, Ok ({| l_Name := name; l_Index := max_index v + 1; l_Type := "wireguard"; l_MTU := mtu; l_Alias := "";
                     l_Up := false |} :: l)) v.
Definition del_link (name : string) (v : view) : result errno view :=
  match filter (λ x, l_Name x = name) (v_links v) with
  | cur :: _ => match remove1 cur (v_links v) with
                | Some rest => Ok {| v_links := rest; v_rules := v_rules v;
                    v_addrs := filter (λ a, la_Index a ≠ l_Index cur) (v_addrs v);
                    v_routes := filter (λ r, r_LinkIndex r ≠ l_Index cur) (v_routes v) |}
                | None => Err ENOENT end
  | [] => Err ENOENT
  end.
Definition is_addr (link : Link) (net : IPNet) (a : LinkAddr) : bool :=
  (la_Index a =? l_Index link)%Z &&
  match la_Net a with
  | Some n => bool_decide (Unmap (n_ip n) = Unmap (n_ip net)) && (n_ones n =? n_ones net)%Z
  | None => false
  end.
Definition same_subnet (a b : LinkAddr) : bool :=
  (la_Index b =? la_Index a)%Z &&
  match la_Net a, la_Net b with
  | Some n, Some m =>
      (n_ones n =? n_ones m)%Z &&
      match Unmap (n_ip n), Unmap (n_ip m) with
      | Addr4 x, Addr4 y => (Z.shiftr x (32 - n_ones n) =? Z.shiftr y (32 - n_ones n))%Z
      | _, _ => false
      end
  | _, _ => false
  end.
(** The first address of a subnet is its primary one, and takes the others along. *)
Definition del_addr (link : Link) (net : IPNet) (l : list LinkAddr) : result errno (list LinkAddr) :=
  match filter (λ a, is_addr link net a = true) l with
  | a :: _ => let primary := bool_decide (last (filter (λ b, same_subnet a b = true) l) = Some a) in
              (λ l, if primary then filter (λ b, ¬ same_subnet a b = true) l else l) <$> remove a l
  | [] => Err ENOENT
  end.
(** A link that has lost its last IPv4 address has no IPv4 routes. *)
Definition flush (link : Link) (v : view) : view :=
  if existsb (λ a, (la_Index a =? l_Index link)%Z && negb (la_V6 a)) (v_addrs v) then v
  else {| v_links := v_links v; v_addrs := v_addrs v; v_rules := v_rules v;
          v_routes := filter (λ r, ¬ (r_V6 r = false ∧ r_LinkIndex r = l_Index link)) (v_routes v) |}.
End Toy.

#[export] Instance toy_netlink : Netlink view := {
  LinkByName name := Toy.look (λ v, head (filter (λ l, l_Name l = name) (v_links v)));
  LinkList := Toy.look v_links;
  LinkAdd name mtu := Toy.change (Toy.add_link name mtu);
  LinkDel name := Toy.change (Toy.del_link name);
  LinkSetAlias link alias := Toy.change (Toy.links (Toy.relink (l_Index link) (λ l, set_alias l alias)));
  LinkSetMTU link mtu := Toy.change (Toy.links (Toy.relink (l_Index link) (λ l, set_mtu l mtu)));
  LinkSetUp link := Toy.change (Toy.links (Toy.relink (l_Index link) set_up));
  AddrList link all := Toy.look (λ v, filter (λ a, la_Index a = l_Index link ∧ (all = true ∨ la_V6 a = false)) (v_addrs v));
  AddrAdd link net := Toy.change (Toy.addrs (λ l, Ok ({| la_Index := l_Index link;
    la_V6 := negb (Is4 (Unmap (n_ip net))); la_Net := Some net |} :: l)));
  AddrDel link net := Toy.change (λ v, Toy.flush link <$> Toy.addrs (Toy.del_addr link net) v);
  RouteListFiltered f := Toy.look (λ v, filter (λ r, filter_matches f r = true) (v_routes v));
  RouteAdd r := Toy.change (Toy.routes (λ l, Ok (r :: l)));
  RouteDel r := Toy.change (Toy.routes (Toy.remove r));
  RuleList := Toy.look v_rules;
  RuleAdd r := Toy.change (Toy.rules (λ l, Ok (r :: l)));
  RuleDel r := Toy.change (Toy.rules (Toy.remove r));
  Device name := Toy.look (λ _, Toy.device);
  ConfigureDevice name c := Toy.change (λ v, Ok v);
  ReadSysctl key := Toy.look (λ _, "1");
  WriteSysctl key value := Toy.change (λ v, Ok v);
  ResolveUDPAddr addr := Toy.look (λ _, addr) }.

Lemma proper_idem v : distinct v → proper v = v.
Proof. intros Hd. unfold proper. by rewrite decide_True. Qed.
Lemma proper_distinct v : distinct (proper v).
Proof. unfold proper. case_decide; [done|]. split_and!; constructor. Qed.
Lemma remove1_Some {A} `{EqDecision A} (x : A) l l' : remove1 x l = Some l' → l ≡ₚ x :: l'.
Proof.
  revert l'. induction l as [|y l IH]; intros l'; cbn; [done|]. case_decide as Hxy; [intros [= <-]; by subst|].
  destruct (remove1 x l) as [k|]; cbn; [|done]. intros [= <-]. rewrite (IH k eq_refl). apply Permutation_swap.
Qed.
Lemma remove1_None {A} `{EqDecision A} (x : A) l : remove1 x l = None → x ∉ l.
Proof.
  induction l as [|y l IH]; cbn; [by intros _ ?%elem_of_nil|]. case_decide as Hxy; [done|].
  destruct (remove1 x l); [done|]. intros _ [->|?]%elem_of_cons; [done|by apply IH].
Qed.

Lemma look_effect {A} (f : view → A) (P : view → A → view → Prop) :
  (∀ v, P v (f v) v) → effect proper (Toy.look f) P.
Proof. intros HP k r k' [= <- <-]. apply HP. Qed.
Lemma change_effect f (P : view → unit → view → Prop) :
  (∀ v w, distinct v → f v = Ok w → P v tt w) → effect proper (Toy.change f) P.
Proof.
  intros HP k r k'. unfold Toy.change. destruct (f (proper k)) as [w|e] eqn:E; [|by intros [= <- <-]].
  case_decide as Hw; intros [= <- <-]; [|done]. rewrite (proper_idem w) by done. apply HP; [apply proper_distinct|done].
Qed.
Lemma change_missing f (P : view → Prop) : (∀ v, f v = Err ENOENT → P v) → missing proper (Toy.change f) P.
Proof.
  intros HP k k'. unfold Toy.change. destruct (f (proper k)) as [w|e] eqn:E; [by case_decide|].
  intros [= -> _]. by apply HP.
Qed.
Lemma relink_spec i f l l' : Toy.relink i f l = Ok l' → ∃ cur rest, l_Index cur = i ∧ l ≡ₚ cur :: rest ∧ l' ≡ₚ f cur :: rest.
Proof.
  unfold Toy.relink. destruct (filter _ l) as [|cur tl] eqn:Hf; [done|].
  destruct (remove1 cur l) as [rest|] eqn:Hr; [|done]. intros [= <-]. exists cur, rest.
  split_and!; [|by apply remove1_Some|done].
  assert (cur ∈ filter (λ x, l_Index x = i) l) as [? _]%list_elem_of_filter; [|done]. rewrite Hf. by left.
Qed.
Lemma remove_spec {A} `{EqDecision A} (x : A) l l' : Toy.remove x l = Ok l' → l ≡ₚ x :: l'.
Proof. unfold Toy.remove. destruct (remove1 x l) eqn:E; [|done]. intros [= <-]. by apply remove1_Some. Qed.
Lemma remove_missing {A} `{EqDecision A} (x : A) l : Toy.remove x l = Err ENOENT → x ∉ l.
Proof. unfold Toy.remove. destruct (remove1 x l) eqn:E; [done|]. intros _. by apply remove1_None. Qed.
Lemma links_spec f v w : Toy.links f v = Ok w → f (v_links v) = Ok (v_links w) ∧ v_addrs v = v_addrs w ∧ v_routes v = v_routes w ∧ v_rules v = v_rules w.
Proof. unfold Toy.links. destruct (f (v_links v)); [|done]. by intros [= <-]. Qed.
Lemma addrs_spec f v w : Toy.addrs f v = Ok w → f (v_addrs v) = Ok (v_addrs w) ∧ v_links v = v_links w ∧ v_routes v = v_routes w ∧ v_rules v = v_rules w.
Proof. unfold Toy.addrs. destruct (f (v_addrs v)); [|done]. by intros [= <-]. Qed.
Lemma routes_spec f v w : Toy.routes f v = Ok w → f (v_routes v) = Ok (v_routes w) ∧ v_links v = v_links w ∧ v_addrs v = v_addrs w ∧ v_rules v = v_rules w.
Proof. unfold Toy.routes. destruct (f (v_routes v)); [|done]. by intros [= <-]. Qed.
Lemma rules_spec f v w : Toy.rules f v = Ok w → f (v_rules v) = Ok (v_rules w) ∧ v_links v = v_links w ∧ v_addrs v = v_addrs w ∧ v_routes v = v_routes w.
Proof. unfold Toy.rules. destruct (f (v_rules v)); [|done]. by intros [= <-]. Qed.

Lemma max_index_fresh v i : i ∈ (l_Index <$> v_links v) ++ (la_Index <$> v_addrs v) ++ (r_LinkIndex <$> v_routes v) →
  (i < Toy.max_index v + 1)%Z.
Proof.
  unfold Toy.max_index. generalize ((l_Index <$> v_links v) ++ (la_Index <$> v_addrs v) ++ (r_LinkIndex <$> v_routes v)) as l.
  induction l as [|j l IH]; [by intros ?%elem_of_nil|]. intros [->|Hi]%elem_of_cons; cbn; [lia|]. specialize (IH Hi). lia.
Qed.

Lemma add_link_spec name mtu v w : Toy.add_link name mtu v = Ok w → ∃ link,
  l_Name link = name ∧ l_Type link = "wireguard" ∧ l_MTU link = mtu ∧ l_Alias link = "" ∧ l_Up link = false ∧
  (∀ a, a ∈ v_addrs v → la_Index a ≠ l_Index link) ∧ (∀ r, r ∈ v_routes v → r_LinkIndex r ≠ l_Index link) ∧
  v_links w ≡ₚ link :: v_links v ∧ v_addrs v ≡ₚ v_addrs w ∧ v_routes v ≡ₚ v_routes w ∧ v_rules v ≡ₚ v_rules w.
Proof.
  unfold Toy.add_link, Toy.links. intros [= <-].
  exists {| l_Name := name; l_Index := Toy.max_index v + 1; l_Type := "wireguard"; l_MTU := mtu; l_Alias := ""; l_Up := false |}.
  split_and!; try done.
  - intros a Ha. cbn. enough (la_Index a < Toy.max_index v + 1)%Z by lia. apply max_index_fresh.
    rewrite !elem_of_app. right. left. by apply list_elem_of_fmap_2.
  - intros r Hr. cbn. enough (r_LinkIndex r < Toy.max_index v + 1)%Z by lia. apply max_index_fresh.
    rewrite !elem_of_app. right. right. by apply list_elem_of_fmap_2.
Qed.
Lemma del_link_spec name v w : Toy.del_link name v = Ok w → ∃ link lost, l_Name link = name ∧
  v_links v ≡ₚ link :: v_links w ∧ v_rules v ≡ₚ v_rules w ∧
  filter (λ a, la_Index a ≠ l_Index link) (v_addrs v) ≡ₚ v_addrs w ∧
  filter (λ r, r_LinkIndex r ≠ l_Index link) (v_routes v) ≡ₚ lost ++ v_routes w ∧
  Forall (λ r, is_Some (r_Src r) ∧ l_Index link ∈ la_Index <$> v_addrs v ∨ r_LinkIndex r = 0%Z ∧ l_Up link = true) lost.
Proof.
  unfold Toy.del_link. destruct (filter _ (v_links v)) as [|cur tl] eqn:Hf; [done|].
  destruct (remove1 cur (v_links v)) as [rest|] eqn:Hr; [|done]. intros [= <-]. exists cur, [].
  split_and!; [|by apply remove1_Some|done..].
  assert (cur ∈ filter (λ x, l_Name x = name) (v_links v)) as [? _]%list_elem_of_filter; [|done]. rewrite Hf. by left.
Qed.
Lemma del_link_missing name v : Toy.del_link name v = Err ENOENT → name ∉ l_Name <$> v_links v.
Proof.
  unfold Toy.del_link. destruct (filter _ (v_links v)) as [|cur tl] eqn:Hf.
  - intros _ (l&->&Hl)%list_elem_of_fmap. apply (elem_of_nil l). rewrite <-Hf. by apply list_elem_of_filter.
  - assert (cur ∈ filter (λ x, l_Name x = name) (v_links v)) as [_ Hin]%list_elem_of_filter by (rewrite Hf; by left).
    destruct (remove1 cur (v_links v)) eqn:Hr; [done|]. by apply remove1_None in Hr.
Qed.
Lemma del_addr_spec link net l l' : Toy.del_addr link net l = Ok l' → ∃ a net' gone,
  l ≡ₚ (a :: gone) ++ l' ∧ Forall (λ a, la_Index a = l_Index link) (a :: gone) ∧ la_Net a = Some net' ∧ net_reported net net'.
Proof.
  unfold Toy.del_addr. destruct (filter _ l) as [|a tl] eqn:Hf; [done|]. cbv zeta.
  destruct (Toy.remove a l) as [l1|] eqn:Hr; [|done]. apply remove_spec in Hr. intros [= <-].
  assert (a ∈ filter (λ a, Toy.is_addr link net a = true) l) as [Ha _]%list_elem_of_filter by (rewrite Hf; by left).
  unfold Toy.is_addr in Ha. apply andb_true_iff in Ha as [Hi%Z.eqb_eq Ha]. destruct (la_Net a) as [n|] eqn:Hn; [|done].
  apply andb_true_iff in Ha as [Hu%bool_decide_eq_true Ho%Z.eqb_eq]. case_bool_decide.
  - exists a, n, (filter (λ b, Toy.same_subnet a b = true) l1). split_and!; [|constructor; [done|]|done..].
    + rewrite Hr. cbn [app]. by rewrite filter_app_complement.
    + apply Forall_forall. intros b [Hb _]%list_elem_of_filter. unfold Toy.same_subnet in Hb.
      apply andb_true_iff in Hb as [Hb%Z.eqb_eq _]. congruence.
  - exists a, n, []. split_and!; [done|by apply Forall_singleton|done..].
Qed.
Lemma flush_spec link v : ∃ lost, v_links (Toy.flush link v) = v_links v ∧ v_addrs (Toy.flush link v) = v_addrs v ∧
  v_rules (Toy.flush link v) = v_rules v ∧ v_routes v ≡ₚ lost ++ v_routes (Toy.flush link v) ∧
  Forall (stranded link (Toy.flush link v)) lost.
Proof.
  unfold Toy.flush. destruct (existsb _ _) eqn:Ev; [by exists []|].
  exists (filter (λ r, r_V6 r = false ∧ r_LinkIndex r = l_Index link) (v_routes v)). cbn [v_links v_addrs v_routes v_rules].
  split_and!; [done..|by rewrite filter_app_complement|]. apply Forall_forall. intros r [[??] _]%list_elem_of_filter.
  split_and!; [done|by left|]. cbn [v_addrs]. intros a Ha Hi. apply not_false_is_true. intros H6.
  apply not_true_iff_false in Ev. apply Ev, existsb_exists. exists a. rewrite <-list_elem_of_In, Hi, H6, Z.eqb_refl. done.
Qed.

#[export] Instance toy_laws : NetlinkLaws view.
Proof.
  refine {| see := proper |}.
  - intros k. apply (proper_distinct k).
  - intros k. destruct (proper_distinct k) as (_&Hl&_). by rewrite Forall_forall in Hl.
  - intros k a n Ha Hn. destruct (proper_distinct k) as (_&_&Hf). rewrite Forall_forall in Hf. specialize (Hf a Ha).
    unfold family_ok in Hf. rewrite Hn in Hf. by apply bool_decide_eq_true in Hf.
  - intros name. apply look_effect. intros v. split; [done|].
    destruct (filter _ (v_links v)) as [|l tl] eqn:Hf; cbn.
    + intros (l&->&Hl)%list_elem_of_fmap. apply (elem_of_nil l). rewrite <-Hf. by apply list_elem_of_filter.
    + assert (l ∈ filter (λ l, l_Name l = name) (v_links v)) as [? ?]%list_elem_of_filter by (rewrite Hf; by left). done.
  - by apply look_effect.
  - intros name mtu. apply change_effect. intros v w _. apply add_link_spec.
  - intros name. apply change_effect. intros v w _. apply del_link_spec.
  - intros name. apply change_missing. intros v. apply del_link_missing.
  - intros link alias. apply change_effect. intros v w _ (Hl%relink_spec&->&->&->)%links_spec. done.
  - intros link mtu. apply change_effect. intros v w _ (Hl%relink_spec&->&->&->)%links_spec. exists [], [].
    by split_and!.
  - intros link. apply change_effect. intros v w _ (Hl%relink_spec&->&->&->)%links_spec. exists []. by split_and!.
  - intros link all. by apply look_effect.
  - intros link net. apply change_effect. intros v w _ (Hl&->&->&->)%addrs_spec. injection Hl as <-.
    exists {| la_Index := l_Index link; la_V6 := negb (Is4 (Unmap (n_ip net))); la_Net := Some net |}, net, []. by split_and!.
  - intros link net. apply change_effect. intros v w _. destruct (Toy.addrs _ v) as [u|] eqn:E; [|done]. intros [= <-].
    apply addrs_spec in E as ((a&net'&gone&Hl&Hi&Hn&Hnet)%del_addr_spec&->&->&->).
    destruct (flush_spec link u) as (lost&Hfl&Hfa&Hfu&Hfr&Hlost).
    exists (a :: gone), lost, []. rewrite Hfa. split_and!; [done|done| |by rewrite Hfl|by rewrite Hfu|done| |constructor].
    + exists a, net'. split; [by left|done].
    + eapply Forall_impl; [exact Hlost|]. auto.
  - intros f. by apply look_effect.
  - intros r. apply change_effect. intros v w _ (Hl&->&->&->)%routes_spec. injection Hl as <-. exists r. by split_and!.
  - intros r. apply change_effect. intros v w _ (Hl%remove_spec&->&->&->)%routes_spec. done.
  - intros r. apply change_missing. intros v. unfold Toy.routes. destruct (Toy.remove _ _) eqn:E; [done|].
    intros [= ->]. by apply remove_missing.
  - by apply look_effect.
  - intros r. apply change_effect. intros v w _ (Hl&->&->&->)%rules_spec. injection Hl as <-. exists r. by split_and!.
  - intros r. apply change_effect. intros v w _ (Hl%remove_spec&->&->&->)%rules_spec. done.
  - intros r. apply change_missing. intros v. unfold Toy.rules. destruct (Toy.remove _ _) eqn:E; [done|].
    intros [= ->]. by apply remove_missing.
  - intros name. by apply look_effect.
  - intros name c. apply change_effect. by intros v w _ [= <-].
  - intros key. by apply look_effect.
  - intros key value. apply change_effect. by intros v w _ [= <-].
  - intros addr. by apply look_effect.
Defined.

(** ** An example *)
Module Demo.
#[export] Instance keys : WgKeys := {|
  parse_key s := if bool_decide (s = "") then None else Some s; public_key s := s +:+ ".pub"; digest8 s := s;
  netlink_ParseAddr s :=
    if bool_decide (s = "10.0.0.2/24") then Some {| n_ip := Addr4 167772162; n_ones := 24 |}
    else if bool_decide (s = "10.0.0.3/24") then Some {| n_ip := Addr4 167772163; n_ones := 24 |} else None |}.
Definition tunnel : Tunnel :=
  {| t_Name := "wg0"; t_PrivateKey := "key"; t_Address := "10.0.0.2/24"; t_MTU := 1420; t_Fwmark := 51;
     t_FwmarkMask := 255; t_Table := 51; t_RulePriority := 31000; t_AdoptExisting := false;
     t_Routes := Some ["10.1.0.0/16"; "10.2.0.0/16"]; t_RouteSources := None;
     t_Peer := {| pe_PublicKey := "peer"; pe_Endpoint := "192.0.2.1:51820"; pe_AllowedIPs := Some ["0.0.0.0/0"]; pe_Keepalive := 25 |};
     t_Resolver := [] |}.
(** A foreign link, a foreign route on it and a foreign rule. *)
Definition eth0 : Link := {| l_Name := "eth0"; l_Index := 2; l_Type := "device"; l_MTU := 1500; l_Alias := ""; l_Up := true |}.
Definition start : view :=
  {| v_links := [eth0]; v_addrs := [];
     v_routes := [{| r_V6 := false; r_LinkIndex := 2; r_Table := 254; r_Dst := None; r_Protocol := 3; r_Src := None; r_Other := 0 |}];
     v_rules := [{| ru_Priority := 32766; ru_Mark := 0; ru_Mask := None; ru_Table := 254; ru_Protocol := 2; ru_Other := 0 |}] |}.
Definition up : result wg_error unit * world view := tunnelUp tunnel (start, ∅).
Definition down : result wg_error unit * world view := tunnelDown tunnel up.2.

Lemma up_Ok : up.1 = Ok tt.
Proof. vm_compute. reflexivity. Qed.
Lemma down_Ok : down.1 = Ok tt.
Proof. vm_compute. reflexivity. Qed.
End Demo.
