(* ===== verification/WgFrame.v ===== *)
(** * wg.go: what an operation leaves alone

    A preorder [R] on kernel views is kept by an operation when every run of it,
    also one that fails half way, takes a view to an [R]-later one.  The lemmas
    compose such facts along the operations of wg.go; the laws of [Netlink] give
    them for the calls. *)
From S2P Require Import Prelude Netip Config KernelPlan Netlink Wg.

(** A relation that calls without effect are in, and that composes. *)
Class Frame (R : view → view → Prop) := {
  frame_same v w : same v w → R v w;
  frame_trans u v w : R u v → R v w → R u w }.

Lemma M_bind_inv {S A B} (m : M S A) (f : A → M S B) s r s' :
  (m ≫= f) s = (r, s') →
  (∃ e, m s = (Err e, s') ∧ r = Err e) ∨ ∃ a s1, m s = (Ok a, s1) ∧ f a s1 = (r, s').
Proof. unfold mbind, M_bind. destruct (m s) as [[a|e] s1]; [eauto|intros [= <- <-]; eauto]. Qed.

Lemma lift_inv {K A} tunnel what (c : call K A) s r s' :
  lift tunnel what c s = (r, s') → s'.2 = s.2 ∧
  match r with Ok a => c s.1 = (Ok a, s'.1) | Err _ => ∃ e, c s.1 = (Err e, s'.1) end.
Proof. unfold lift. destruct (c s.1) as [[a|e] k]; intros [= <- <-]; eauto. Qed.

Lemma lift_noent_inv {K} tunnel what (c : call K unit) s r s' :
  lift_noent tunnel what c s = (r, s') → s'.2 = s.2 ∧
  match r with
  | Ok _ => c s.1 = (Ok tt, s'.1) ∨ c s.1 = (Err ENOENT, s'.1)
  | Err _ => ∃ e, c s.1 = (Err e, s'.1)
  end.
Proof. unfold lift_noent. destruct (c s.1) as [[[]|[]] k]; intros [= <- <-]; eauto. Qed.

Lemma attempt_inv {S A} (m : M S A) s r s' :
  attempt m s = (r, s') → ∃ r', r = Ok r' ∧ m s = (r', s').
Proof. unfold attempt. destruct (m s) as [r' s1]. intros [= <- <-]. eauto. Qed.

Lemma join_inv {S} errs (s : S) r s' : join errs s = (r, s') → s' = s ∧ (r = Ok tt ↔ errs = []).
Proof. unfold join. destruct errs; intros [= <- <-]; by split_and!. Qed.

Lemma of_option_inv {S A} tunnel what (o : option A) (s : S) r s' :
  of_option tunnel what o s = (r, s') → s' = s ∧ ∀ a, r = Ok a → o = Some a.
Proof. destruct o; intros [= <- <-]; (split; [done|]); [by intros ? [= ->]|done]. Qed.
Lemma collect_ok {S A} (f : A → M S unit) l s r s' : collect f l s = (r, s') → ∃ errs, r = Ok errs.
Proof.
  revert s r. induction l as [|a l IH]; intros s r; cbn [collect]; [intros [= <- <-]; eauto|].
  intros [(e&(?&?&?)%attempt_inv&_)|(r1&s1&_&E)]%M_bind_inv; [done|].
  apply M_bind_inv in E as [(e&(?&?)%IH&->)|(errs&s2&E2&E)]; [done|]. injection E as <- <-. eauto.
Qed.
Lemma collect_cons_inv {S A} (f : A → M S unit) a l s r s' : collect f (a :: l) s = (r, s') →
  ∃ r1 s1 errs, f a s = (r1, s1) ∧ collect f l s1 = (Ok errs, s') ∧ r = Ok (errors_of r1 ++ errs).
Proof.
  cbn [collect]. intros [(e&(?&?&?)%attempt_inv&_)|(r1&s1&(?&[= <-]&E1)%attempt_inv&E)]%M_bind_inv; [done|].
  apply M_bind_inv in E as [(e&(?&?)%collect_ok&->)|(errs&s2&E2&E)]; [done|]. injection E as <- <-. eauto 6.
Qed.
Lemma collect_clean {S A} (f : A → M S unit) l s s' : collect f l s = (Ok [], s') → each f l s = (Ok tt, s').
Proof.
  revert s. induction l as [|a l IH]; intros s; [by intros [= <-]|].
  intros (r1&s1&errs&E1&E&[= Herrs])%collect_cons_inv. symmetry in Herrs.
  apply app_nil in Herrs as [Hr ->]. destruct r1 as [[]|]; [|done].
  cbn [each]. unfold mbind, M_bind. rewrite E1. by apply IH.
Qed.

Section frame.
Context {K : Type} `{NetlinkLaws K} `{WgKeys}.

Definition sees (s : world K) : view := see s.1.
Definition keeps (R : view → view → Prop) {A} (m : M (world K) A) : Prop :=
  ∀ s r s', m s = (r, s') → R (sees s) (sees s').
Definition keeps_call (R : view → view → Prop) {A} (c : call K A) : Prop :=
  ∀ k r k', c k = (r, k') → R (see k) (see k').

Lemma effect_call {A} (c : call K A) P : effect see c P → ∀ k a k', c k = (Ok a, k') → P (see k) a (see k').
Proof. intros He k a k' Hc. apply (He _ _ _ Hc). Qed.

Lemma missing_call {A} (c : call K A) P : missing see c P → ∀ k k', c k = (Err ENOENT, k') → P (see k).
Proof. intros Hm k k'. apply Hm. Qed.

Section keeping.
Context (R : view → view → Prop) {HR : Frame R}.

Lemma keeps_refl v : R v v.
Proof using HR. by apply frame_same. Qed.

Lemma keeps_effect {A} (c : call K A) P :
  effect see c P → (∀ v a w, P v a w → R v w) → keeps_call R c.
Proof using HR. intros He HP k r k' Hc. specialize (He k r k' Hc). destruct r; [by eapply HP|by apply frame_same]. Qed.
Lemma keeps_quiet {A} (c : call K A) (P : view → A → view → Prop) :
  effect see c P → (∀ v a w, P v a w → same v w) → keeps_call R c.
Proof using HR. intros He HP. eapply keeps_effect; [done|]. intros v a w ?. by eapply frame_same, HP. Qed.

Lemma keeps_run {A} (m : M (world K) A) s r s' : m s = (r, s') → keeps R m → R (sees s) (sees s').
Proof using Type. intros E Hm. by eapply Hm. Qed.
Lemma keeps_ret {A} (a : A) : keeps R (mret a : M (world K) A).
Proof using HR. intros s r s' [= <- <-]. apply keeps_refl. Qed.
Lemma keeps_of_result {A} (r : result wg_error A) : keeps R (of_result r : M (world K) A).
Proof using HR. intros s r' s' [= <- <-]. apply keeps_refl. Qed.
Lemma keeps_refuse {A} tunnel what : keeps R (refuse tunnel what : M (world K) A).
Proof using HR. intros s r' s' [= <- <-]. apply keeps_refl. Qed.
Lemma keeps_of_option {A} tunnel what (o : option A) : keeps R (of_option tunnel what o : M (world K) A).
Proof using HR. destruct o; [apply keeps_ret|apply keeps_refuse]. Qed.
Lemma keeps_join errs : keeps R (join errs : M (world K) unit).
Proof using HR. intros s r s' [-> _]%join_inv. apply keeps_refl. Qed.
Lemma keeps_bind {A B} (m : M (world K) A) (f : A → M (world K) B) : keeps R m → (∀ a, keeps R (f a)) → keeps R (m ≫= f).
Proof using HR.
  intros Hm Hf s r s' [(e&E&->)|(a&s1&E&E')]%M_bind_inv; [by eapply Hm|].
  eapply frame_trans; [by eapply Hm|by eapply Hf].
Qed.
Lemma keeps_bind_option {A B} tunnel what (o : option A) (f : A → M (world K) B) :
  (∀ a, o = Some a → keeps R (f a)) → keeps R (of_option tunnel what o ≫= f).
Proof using HR.
  intros Hf s r s' [(e&E&->)|(a&s1&E&E')]%M_bind_inv; [revert E; apply keeps_of_option|].
  destruct o as [a'|]; [|done]. injection E as -> ->. by eapply Hf.
Qed.
Lemma keeps_lift {A} tunnel what (c : call K A) : keeps_call R c → keeps R (lift tunnel what c).
Proof using HR. intros Hc s r s' [_ E]%lift_inv. destruct r; [by eapply Hc|destruct E; by eapply Hc]. Qed.
Lemma keeps_lift_noent tunnel what (c : call K unit) : keeps_call R c → keeps R (lift_noent tunnel what c).
Proof using HR. intros Hc s r s' [_ E]%lift_noent_inv. destruct r; destruct E; by eapply Hc. Qed.
Lemma keeps_attempt {A} (m : M (world K) A) : keeps R m → keeps R (attempt m).
Proof using HR. intros Hm s r s' (r'&->&E)%attempt_inv. by eapply Hm. Qed.
Lemma keeps_each {A} (f : A → M (world K) unit) l : (∀ a, a ∈ l → keeps R (f a)) → keeps R (each f l).
Proof using HR.
  induction l as [|a l IH]; intros Hf; simpl; [apply keeps_ret|].
  apply keeps_bind; [apply Hf; by left|]. intros _. apply IH. intros a' ?. apply Hf. by right.
Qed.
Lemma keeps_collect {A} (f : A → M (world K) unit) l : (∀ a, a ∈ l → keeps R (f a)) → keeps R (collect f l).
Proof using HR.
  induction l as [|a l IH]; intros Hf; simpl; [apply keeps_ret|].
  apply keeps_bind; [apply keeps_attempt, Hf; by left|]. intros r.
  apply keeps_bind; [apply IH; intros a' ?; apply Hf; by right|]. intros errs. apply keeps_ret.
Qed.

(** The calls that only look. *)
Lemma keeps_LinkByName name : keeps_call R (LinkByName name).
Proof using HR. eapply keeps_quiet; [apply LinkByName_law|]. cbv beta. tauto. Qed.
Lemma keeps_LinkList : keeps_call R LinkList.
Proof using HR. eapply keeps_quiet; [apply LinkList_law|]. cbv beta. tauto. Qed.
Lemma keeps_AddrList link all : keeps_call R (AddrList link all).
Proof using HR. eapply keeps_quiet; [apply AddrList_law|]. cbv beta. tauto. Qed.
Lemma keeps_RouteListFiltered f : keeps_call R (RouteListFiltered f).
Proof using HR. eapply keeps_quiet; [apply RouteListFiltered_law|]. cbv beta. tauto. Qed.
Lemma keeps_RuleList : keeps_call R RuleList.
Proof using HR. eapply keeps_quiet; [apply RuleList_law|]. cbv beta. tauto. Qed.
Lemma keeps_Device name : keeps_call R (Device name).
Proof using HR. eapply keeps_quiet; [apply Device_law|]. cbv beta. tauto. Qed.
Lemma keeps_ConfigureDevice name c : keeps_call R (ConfigureDevice name c).
Proof using HR. eapply keeps_quiet; [apply ConfigureDevice_law|]. cbv beta. tauto. Qed.
Lemma keeps_ReadSysctl key : keeps_call R (ReadSysctl key).
Proof using HR. eapply keeps_quiet; [apply ReadSysctl_law|]. cbv beta. tauto. Qed.
Lemma keeps_WriteSysctl key value : keeps_call R (WriteSysctl key value).
Proof using HR. eapply keeps_quiet; [apply WriteSysctl_law|]. cbv beta. tauto. Qed.
Lemma keeps_ResolveUDPAddr addr : keeps_call R (ResolveUDPAddr addr).
Proof using HR. eapply keeps_quiet; [apply ResolveUDPAddr_law|]. cbv beta. tauto. Qed.
End keeping.
End frame.

Create HintDb keeps.
#[export] Hint Extern 0 (Frame _) => typeclasses eauto : keeps.
#[export] Hint Resolve keeps_ret keeps_of_result keeps_refuse keeps_of_option keeps_join keeps_lift keeps_lift_noent
  keeps_attempt keeps_LinkByName keeps_LinkList keeps_AddrList keeps_RouteListFiltered keeps_RuleList keeps_Device
  keeps_ConfigureDevice keeps_ReadSysctl keeps_WriteSysctl keeps_ResolveUDPAddr : keeps.

(** Walk down the binds and branches of an operation. *)
Ltac keep :=
  lazymatch goal with
  | |- keeps _ (_ ≫= _) => apply keeps_bind; [typeclasses eauto| |intros ?]; keep
  | |- keeps _ (let _ := _ in _) => cbv zeta; keep
  | |- keeps _ (let '(_, _) := ?x in _) => destruct x; keep
  | |- keeps _ (if ?b then _ else _) => destruct b; keep
  | |- keeps _ (match ?x with _ => _ end) => destruct x; keep
  | |- keeps _ (each _ _) => apply keeps_each; [typeclasses eauto|intros ??]; keep
  | |- keeps _ (collect _ _) => apply keeps_collect; [typeclasses eauto|intros ??]; keep
  | |- _ => eauto 6 with keeps
  end.

Section quiet.
Context {K : Type} `{NetlinkLaws K} `{WgKeys}.
Context (R : view → view → Prop) {HR : Frame R}.

Lemma keeps_wgConfig t : keeps R (wgConfig t).
Proof using HR. unfold wgConfig. keep. Qed.
Lemma keeps_lookupLink name : keeps R (lookupLink name).
Proof using HR. unfold lookupLink. keep. Qed.
Lemma keeps_owned_mode link t : keeps R (owned_mode link t).
Proof using HR. unfold owned_mode. keep. Qed.
Lemma keeps_deviceMatchesTunnel device t : keeps R (deviceMatchesTunnel device t).
Proof using HR. unfold deviceMatchesTunnel. apply keeps_bind; [done|apply keeps_wgConfig|]. intros c. keep. Qed.
Lemma keeps_lookup_again t what : keeps R (lookup_again t what).
Proof using HR. unfold lookup_again. apply keeps_bind; [done|apply keeps_lookupLink|]. intros c. keep. Qed.
End quiet.
#[export] Hint Resolve keeps_wgConfig keeps_lookupLink keeps_owned_mode keeps_deviceMatchesTunnel keeps_lookup_again : keeps.

Section quiet2.
Context {K : Type} `{NetlinkLaws K} `{WgKeys}.
Context (R : view → view → Prop) {HR : Frame R}.

Lemma keeps_verifyExistingKeyIdentity t : keeps R (verifyExistingKeyIdentity t).
Proof using HR. unfold verifyExistingKeyIdentity. keep. Qed.
Lemma keeps_verifyAdoptedLink link t : keeps R (verifyAdoptedLink link t).
Proof using HR. unfold verifyAdoptedLink. keep. Qed.
Lemma keeps_verifyAdoptionCandidate link t : keeps R (verifyAdoptionCandidate link t).
Proof using HR. unfold verifyAdoptionCandidate, listAllRoutesOnLink. keep. Qed.
Lemma keeps_requireSysctl key value : keeps R (requireSysctl key value).
Proof using HR.
  unfold requireSysctl. apply keeps_bind; [done|keep|]. intros bytes. cbv zeta.
  apply keeps_bind; [done| |intros ?; keep]. intros s r s' [= <- <-]. by apply frame_same.
Qed.
Lemma keeps_validateKernelReservations tunnels : keeps R (validateKernelReservations tunnels).
Proof using HR. unfold validateKernelReservations. keep. Qed.
End quiet2.
#[export] Hint Resolve keeps_verifyExistingKeyIdentity keeps_verifyAdoptedLink keeps_verifyAdoptionCandidate
  keeps_requireSysctl keeps_validateKernelReservations : keeps.

(** ** Agreement on a part of the objects *)
Definition every {A} (_ : A) : bool := true.
Abbreviation pick p := (filter (λ x, p x = true)).
Definition agree (pl : Link → bool) (pa : LinkAddr → bool) (pr : Route → bool) (pu : Rule → bool) (v w : view) : Prop :=
  pick pl (v_links v) ≡ₚ pick pl (v_links w) ∧ pick pa (v_addrs v) ≡ₚ pick pa (v_addrs w) ∧
  pick pr (v_routes v) ≡ₚ pick pr (v_routes w) ∧ pick pu (v_rules v) ≡ₚ pick pu (v_rules w).

#[export] Instance agree_frame pl pa pr pu : Frame (agree pl pa pr pu).
Proof.
  split.
  - intros v w (Hl&Ha&Hr&Hu). split_and!; [by rewrite Hl|by rewrite Ha|by rewrite Hr|by rewrite Hu].
  - intros u v w (?&?&?&?) (?&?&?&?). split_and!; by etrans.
Qed.

Lemma pick_every {A} (l : list A) : pick every l = l.
Proof. induction l as [|x l IH]; [done|]. rewrite filter_cons_True by done. by rewrite IH. Qed.
Lemma agree_same v w : agree every every every every v w ↔ same v w.
Proof. unfold agree. by rewrite !pick_every. Qed.
Lemma pick_weaken {A} (p q : A → bool) l l' :
  (∀ x, x ∈ l ++ l' → q x = true → p x = true) → pick p l ≡ₚ pick p l' → pick q l ≡ₚ pick q l'.
Proof.
  intros Hq Hp.
  assert (∀ l0 : list A, (∀ x, x ∈ l0 → q x = true → p x = true) → pick q l0 = pick q (pick p l0)) as Hf.
  { clear. induction l0 as [|x l0 IH]; intros Hq; [done|].
    assert (∀ x, x ∈ l0 → q x = true → p x = true) as Hq' by (intros y ?; apply Hq; by right).
    rewrite !(filter_cons _ x). destruct (decide (p x = true)) as [|Hpx]; [rewrite filter_cons; by rewrite IH|].
    rewrite decide_False by (intros ?; apply Hpx, Hq; [by left|done]). by apply IH. }
  rewrite (Hf l), (Hf l'), Hp; [done|set_solver..].
Qed.
Lemma agree_weaken pl pa pr pu ql qa qr qu v w :
  (∀ x, ql x = true → pl x = true) → (∀ x, qa x = true → pa x = true) →
  (∀ x, qr x = true → pr x = true) → (∀ x, qu x = true → pu x = true) →
  agree pl pa pr pu v w → agree ql qa qr qu v w.
Proof. intros ???? (?&?&?&?). split_and!; (eapply pick_weaken; [|done]; auto). Qed.

Lemma pick_drop {A} (p : A → bool) x l l' : p x = false → l ≡ₚ x :: l' → pick p l ≡ₚ pick p l'.
Proof. intros Hx ->. by rewrite filter_cons_False by (by rewrite Hx). Qed.
Lemma pick_drops {A} (p : A → bool) xs l l' :
  Forall (λ x, p x = false) xs → l ≡ₚ xs ++ l' → pick p l ≡ₚ pick p l'.
Proof.
  intros Hx ->. induction Hx as [|x xs Hx _ IH]; [done|]. simpl.
  by rewrite filter_cons_False by (by rewrite Hx).
Qed.

(** An operation that changes nothing at all. *)
Definition untouched {K} `{NetlinkLaws K} {A} (m : M (world K) A) : Prop := keeps same m.
#[export] Instance same_frame : Frame same.
Proof. split; [done|]. intros u v w ??. by etrans. Qed.

Section calls.
Context {K : Type} `{NetlinkLaws K}.
Context (pl : Link → bool) (pa : LinkAddr → bool) (pr : Route → bool) (pu : Rule → bool).
Abbreviation R := (agree pl pa pr pu).

Lemma keeps_RuleDel r : pu r = false → keeps_call R (RuleDel r).
Proof.
  intros Hr. eapply keeps_effect; [apply _|apply RuleDel_law|]. intros v _ w (Hu&Hl&Ha&Ho).
  split_and!; [by rewrite Hl|by rewrite Ha|by rewrite Ho|by eapply pick_drop].
Qed.
Lemma keeps_RuleAdd r : (∀ r', rule_reported r r' → pu r' = false) → keeps_call R (RuleAdd r).
Proof.
  intros Hr. eapply keeps_effect; [apply _|apply RuleAdd_law|]. intros v _ w (r'&Hr'&Hu&Hl&Ha&Ho).
  split_and!; [by rewrite Hl|by rewrite Ha|by rewrite Ho|symmetry; by eapply pick_drop; [apply Hr|]].
Qed.
Lemma keeps_RouteDel r : pr r = false → keeps_call R (RouteDel r).
Proof.
  intros Hr. eapply keeps_effect; [apply _|apply RouteDel_law|]. intros v _ w (Ho&Hl&Ha&Hu).
  split_and!; [by rewrite Hl|by rewrite Ha|by eapply pick_drop|by rewrite Hu].
Qed.
Lemma keeps_RouteAdd r : (∀ r', route_reported r r' → pr r' = false) → keeps_call R (RouteAdd r).
Proof.
  intros Hr. eapply keeps_effect; [apply _|apply RouteAdd_law|]. intros v _ w (r'&Hr'&Ho&Hl&Ha&Hu).
  split_and!; [by rewrite Hl|by rewrite Ha|symmetry; by eapply pick_drop; [apply Hr|]|by rewrite Hu].
Qed.

Lemma relinked_pick i f v w :
  (∀ l, l_Index l = i → pl l = false ∧ pl (f l) = false) → relinked i f v w → pick pl (v_links v) ≡ₚ pick pl (v_links w).
Proof.
  intros Hf (cur&rest&Hi&Hv&Hw). destruct (Hf cur Hi).
  trans (pick pl rest); [by apply (pick_drop _ cur)|symmetry; by apply (pick_drop _ (f cur))].
Qed.

Lemma keeps_LinkSetAlias link alias :
  (∀ l, l_Index l = l_Index link → pl l = false) → keeps_call R (LinkSetAlias link alias).
Proof.
  intros Hl. eapply keeps_effect; [apply _|apply LinkSetAlias_law|]. intros v _ w (Hr&Ha&Ho&Hu).
  split_and!; [|by rewrite Ha|by rewrite Ho|by rewrite Hu]. eapply relinked_pick; [|done].
  intros l Hi. split; by apply Hl.
Qed.
Lemma keeps_LinkSetMTU link mtu :
  (∀ l, l_Index l = l_Index link → pl l = false) → (∀ a, la_V6 a = true → la_Index a = l_Index link → pa a = false) →
  (∀ r, r_V6 r = true → r_LinkIndex r = l_Index link → pr r = false) → keeps_call R (LinkSetMTU link mtu).
Proof.
  intros Hl Hpa Hpr. eapply keeps_effect; [apply _|apply LinkSetMTU_law|].
  intros v _ w (addrs&routes&Hr&Hu&Ha&Hall&Ho&Hall'). split_and!.
  - eapply relinked_pick; [|done]. intros l Hi. split; by apply Hl.
  - eapply pick_drops; [|done]. eapply Forall_impl; [done|]. intros a []. by apply Hpa.
  - eapply pick_drops; [|done]. eapply Forall_impl; [done|]. intros a []. by apply Hpr.
  - by rewrite Hu.
Qed.
Lemma keeps_LinkSetUp link :
  (∀ l, l_Index l = l_Index link → pl l = false) → (∀ r, generated link r → pr r = false) →
  keeps_call R (LinkSetUp link).
Proof.
  intros Hl Hpr. eapply keeps_effect; [apply _|apply LinkSetUp_law|].
  intros v _ w (gen&Hr&Ha&Hu&Ho&Hall). split_and!; [|by rewrite Ha| |by rewrite Hu].
  - eapply relinked_pick; [|done]. intros l Hi. split; by apply Hl.
  - symmetry. eapply pick_drops; [|done]. eapply Forall_impl; [done|]. auto.
Qed.
Lemma keeps_AddrAdd link net :
  (∀ a net', la_Index a = l_Index link → la_Net a = Some net' → net_reported net net' → pa a = false) →
  (∀ r, generated link r → pr r = false) → keeps_call R (AddrAdd link net).
Proof.
  intros Hpa Hpr. eapply keeps_effect; [apply _|apply AddrAdd_law|].
  intros v _ w (new&net'&gen&Hi&_&Hn&Hnet&Ha&Hl&Hu&Ho&Hall). split_and!; [by rewrite Hl| | |by rewrite Hu].
  - symmetry. eapply pick_drop; [|done]. by eapply Hpa.
  - symmetry. eapply pick_drops; [|done]. eapply Forall_impl; [done|]. auto.
Qed.
Lemma keeps_AddrDel link net : Is4 (Unmap (n_ip net)) = true →
  (∀ a, la_Index a = l_Index link → pa a = false) →
  (∀ r, kernel_route r ∨ is_Some (r_Src r) ∨ r_V6 r = false ∧ (r_LinkIndex r = l_Index link ∨ r_LinkIndex r = 0%Z) → pr r = false) →
  keeps_call R (AddrDel link net).
Proof.
  intros H4 Hpa Hpr. eapply keeps_effect; [apply _|apply AddrDel_law|].
  intros v _ w (gone&lost&gen&Ha&Hgone&_&Hl&Hu&Ho&Hlost&Hgen). split_and!; [by rewrite Hl| | |by rewrite Hu].
  - eapply pick_drops; [|done]. eapply Forall_impl; [done|]. auto.
  - trans (pick pr (gen ++ v_routes v)); [symmetry|]; (eapply pick_drops; [|done || by rewrite Ho]); (eapply Forall_impl; [done|]);
      intros r; [|unfold stranded; naive_solver].
    intros [[??]|[??]]; [by apply Hpr; left|congruence].
Qed.
End calls.

(** ** Only IPv4 addresses are taken away *)

(** The text of an IPv6 address has a colon, that of an IPv4 one has none. *)
Lemma string6_colon v : ¬ str_free ":" (string6 v).
Proof.
  unfold string6. cbv zeta. destruct (zero_run 0 _ None) as [[i n]|].
  - rewrite !str_free_app. intros (_&Hc&_). done.
  - change (groups_of v) with (let f i := (Z.shiftr v (112 - 16 * Z.of_nat i) mod 65536)%Z in f 0 :: f 1 :: (f <$> seq 2 6)).
    cbv zeta. rewrite !fmap_cons. change (str_join ":" (?a :: ?b :: ?l)) with (a +:+ ":" +:+ str_join ":" (b :: l)).
    rewrite !str_free_app. intros (_&Hc&_). done.
Qed.
Lemma addressKey_v4 n d : addressKey n = addressKey d → Is4 (Unmap (n_ip n)) = true → Is4 (Unmap (n_ip d)) = true.
Proof.
  unfold addressKey, ip_String. intros Hk H4. destruct (Unmap (n_ip n)) as [|x|] eqn:Hn; [done| |done]. cbn [addr_String] in Hk.
  assert (∀ c, is_digit c = false → c ≠ "."%char → c ≠ "/"%char → c ≠ "-"%char → str_free c (addr_String (Unmap (n_ip d)))) as Hf.
  { intros c ????. 
    assert (str_free c (addr_String (Unmap (n_ip d)) +:+ "/" +:+ itoa (n_ones d))) as [? _]%str_free_app; [|done].
    rewrite <-Hk, !str_free_app. split_and!.
    - by apply string4_free.
    - by apply str_free_cons.
    - by apply itoa_free. }
  destruct (Unmap (n_ip d)) as [|y|y zone] eqn:Hd; [|done|]; cbn [addr_String] in Hf.
  - specialize (Hf " "%char). destruct Hf as []; done.
  - specialize (Hf ":"%char). rewrite str_free_app in Hf. destruct (Hf) as [Hf' _]; [done..|].
    destruct (Is4In6 _); [done|by apply string6_colon in Hf'].
Qed.

Section listed.
Context {K : Type} `{NetlinkLaws K} `{WgKeys}.

(** An address found in the IPv4 listing of a link is an IPv4 address. *)
Lemma listed_v4 tunnel what link s l s' d :
  lift tunnel what (AddrList link false) s = (Ok l, s') → containsAddress l d = true → Is4 (Unmap (n_ip d)) = true.
Proof.
  intros [_ E]%lift_inv. apply (effect_call _ _ (AddrList_law _ _)) in E as [_ Hl].
  unfold containsAddress. rewrite existsb_exists. intros (a&Hin%list_elem_of_In&Ha). rewrite Hl in Hin.
  apply list_elem_of_filter in Hin as [[_ [?|H6]] Hin]; [done|]. unfold has_address in Ha.
  destruct (la_Net a) as [n|] eqn:Hn; [|done]. apply bool_decide_eq_true in Ha. eapply addressKey_v4; [exact Ha|].
  rewrite (link_addr_family _ _ _ Hin Hn) in H6. by apply negb_false_iff in H6.
Qed.
Lemma keeps_listed R `{!Frame R} tunnel what link l d : (containsAddress l d = true → Is4 (Unmap (n_ip d)) = true) →
  (Is4 (Unmap (n_ip d)) = true → keeps_call R (AddrDel link d)) →
  keeps R (if containsAddress l d then lift_noent tunnel what (AddrDel link d) else mret ()).
Proof. intros H4 Hk. destruct (containsAddress l d); [|keep]. apply keeps_lift_noent; [apply _|]. by apply Hk, H4. Qed.
End listed.
