(* ===== verification/WgSpec.v ===== *)
(** * wg.go: correctness of the reconciler

    What bringing a tunnel up and down establishes and what it never touches, for
    every kernel that satisfies [NetlinkLaws] and at whatever call a run fails. *)
From S2P Require Import Prelude Netip Config KernelPlan Netlink Wg WgKernel WgFrame.

(** ** Policy rules *)
Section rules.
Context {K : Type} `{NetlinkLaws K} `{WgKeys}.
Implicit Types t : Tunnel.

(** A rule the daemon may remove for [t]: its priority and its protocol. *)
Definition own_rule t (r : Rule) : bool :=
  (ru_Priority r =? t_RulePriority t)%Z && (ru_Protocol r =? RouteProtocol)%Z.
Definition at_priority t (r : Rule) : bool := (ru_Priority r =? t_RulePriority t)%Z.
Definition rules_only t := agree every every every (λ r, negb (own_rule t r)).
#[export] Instance rules_only_frame t : Frame (rules_only t).
Proof. apply _. Qed.

(** The rule of [t] is in place: it is the only one at its priority. *)
Definition ruled t (v : view) : Prop := ∃ r, ruleEqual r (markRule t) = true ∧ pick (at_priority t) (v_rules v) ≡ₚ [r].

Lemma ruleEqual_own t r : ruleEqual r (markRule t) = true → own_rule t r = true ∧ at_priority t r = true.
Proof.
  unfold ruleEqual, own_rule, at_priority. rewrite !andb_true_iff. cbn.
  intros ((((->&_)&_)&_)&Hp). split; [split; [done|]|done]. exact Hp.
Qed.
Lemma rule_reported_equal t r : rule_reported (markRule t) r → ruleEqual r (markRule t) = true.
Proof.
  intros (Hp&Hm&Ht&Hpr&Hmask). unfold ruleEqual, ruleMask. rewrite Hp, Hm, Ht, Hpr.
  unfold FullMarkMask. rewrite Hmask. by rewrite !Z.eqb_refl.
Qed.

Lemma keeps_rule_loop t rules exact : keeps (rules_only t) (rule_loop t exact rules).
Proof.
  revert exact. induction rules as [|r rules IH]; intros exact; simpl; [keep|].
  apply keeps_bind; [apply _| |intros a; apply IH]. unfold rule_step. cbv zeta.
  destruct (negb (ru_Priority r =? _)%Z) eqn:Ep; [keep|].
  destruct (ruleEqual _ _); [keep|]. destruct (negb (ru_Protocol r =? _)%Z) eqn:Epr; [keep|].
  apply keeps_bind; [apply _| |intros ?; keep]. apply keeps_lift_noent; [apply _|]. apply keeps_RuleDel.
  apply negb_false_iff in Ep, Epr. unfold own_rule. cbn in Ep. by rewrite Ep, Epr.
Qed.

(** The loop keeps the exact rules and removes the other owned ones. *)
Lemma rule_loop_spec t kept exact rules s exact' s' :
  v_rules (sees s) ≡ₚ kept ++ exact ++ rules →
  Forall (λ r, at_priority t r = false) kept → Forall (λ r, ruleEqual r (markRule t) = true) exact →
  rule_loop t exact rules s = (Ok exact', s') →
  ∃ kept', v_rules (sees s') ≡ₚ kept' ++ exact' ∧
    Forall (λ r, at_priority t r = false) kept' ∧ Forall (λ r, ruleEqual r (markRule t) = true) exact'.
Proof.
  revert kept exact s. induction rules as [|r rules IH]; intros kept exact s Hv Hk He.
  { rewrite app_nil_r in Hv. intros [= <- <-]. eauto. }
  simpl. intros [(?&_&?)|(a&s1&E&E')]%M_bind_inv; [done|]. revert E. unfold rule_step. cbv zeta.
  destruct (negb (ru_Priority r =? _)%Z) eqn:Ep.
  { intros [= -> ->]. apply (IH (r :: kept) a s1); [|constructor; [by apply negb_true_iff|done]|done|done].
    rewrite Hv. solve_Permutation. }
  destruct (ruleEqual r _) eqn:Er.
  { intros [= <- ->]. apply (IH kept (exact ++ [r]) s1); [|done|by apply Forall_app; auto|done].
    rewrite Hv. solve_Permutation. }
  destruct (negb (ru_Protocol r =? _)%Z); [done|].
  intros [(?&_&?)|([]&s2&[_ Hd]%lift_noent_inv&E)]%M_bind_inv; [done|]. injection E as -> ->.
  apply (IH kept a s1); [|done..]. destruct Hd as [Hd|Hd].
  - apply (effect_call _ _ (RuleDel_law r)) in Hd as (Hd&_). apply (Permutation_cons_inv (a:=r)).
    rewrite <-Hd. change (see s.1) with (sees s). rewrite Hv. solve_Permutation.
  - apply (missing_call _ _ (RuleDel_missing r)) in Hd. destruct Hd. change (see s.1) with (sees s). rewrite Hv. set_solver.
Qed.

(** Deleting the listed rules that satisfy [p] leaves the others. *)
Lemma each_RuleDel_spec tunnel what (p : Rule → bool) rest l s s' :
  v_rules (sees s) ≡ₚ rest ++ l →
  each (λ r, if p r then lift_noent tunnel what (RuleDel r) else mret ()) l s = (Ok tt, s') →
  v_rules (sees s') ≡ₚ rest ++ pick (λ r, negb (p r)) l.
Proof.
  revert rest s. induction l as [|r l IH]; intros rest s Hv; simpl.
  { intros [= <-]. done. }
  intros [(?&_&?)|([]&s1&E&E')]%M_bind_inv; [done|]. destruct (p r) eqn:Ep.
  - rewrite filter_cons_False by (by rewrite Ep). apply (IH rest s1); [|done].
    apply lift_noent_inv in E as [_ [Hd|Hd]].
    + apply (effect_call _ _ (RuleDel_law r)) in Hd as (Hd&_). apply (Permutation_cons_inv (a:=r)).
      rewrite <-Hd. change (see s.1) with (sees s). rewrite Hv. solve_Permutation.
    + apply (missing_call _ _ (RuleDel_missing r)) in Hd. destruct Hd. change (see s.1) with (sees s). rewrite Hv. set_solver.
  - rewrite filter_cons_True by (by rewrite Ep). injection E as ->. rewrite cons_middle, (assoc_L (++)).
    apply (IH (rest ++ [r]) s1); [|done]. rewrite Hv. by rewrite <-(assoc_L (++)).
Qed.
Lemma keeps_each_RuleDel t tunnel what (p : Rule → bool) l :
  (∀ r, r ∈ l → p r = true → own_rule t r = true) →
  keeps (rules_only t) (each (λ r, if p r then lift_noent tunnel what (RuleDel r) else mret ()) l).
Proof.
  intros Hp. apply keeps_each; [apply _|]. intros r Hr. destruct (p r) eqn:Ep; [|keep].
  apply keeps_lift_noent; [apply _|]. apply keeps_RuleDel. by rewrite Hp.
Qed.

Lemma pick_none {A} (p : A → bool) l : Forall (λ x, p x = false) l → pick p l = [].
Proof. induction 1 as [|x l Hx _ IH]; [done|]. by rewrite filter_cons_False by (by rewrite Hx). Qed.

Lemma reconcileRule_spec t s r s' :
  reconcileRule t s = (r, s') →
  rules_only t (sees s) (sees s') ∧ (r = Ok tt → ruled t (sees s')).
Proof.
  unfold reconcileRule.
  intros [(?&E&->)|(rules&s1&E&Hl)]%M_bind_inv; [split; [|done]; revert E; apply keeps_lift; eauto with keeps|].
  apply lift_inv in E as [_ E]. apply (effect_call _ _ RuleList_law) in E as [Hs Hp].
  change (see ?s.1) with (sees s) in *. assert (v_rules (sees s1) ≡ₚ rules) as Hv by (by rewrite Hp; symmetry; apply Hs).
  cut (rules_only t (sees s1) (sees s') ∧ (r = Ok tt → ruled t (sees s'))).
  { intros [??]. split; [|done]. eapply frame_trans; [by apply frame_same|done]. }
  apply M_bind_inv in Hl as [(?&E&->)|(exact&s2&E&Hl)]; [split; [|done]; revert E; apply keeps_rule_loop|].
  assert (rules_only t (sees s1) (sees s2)) as H12 by (revert E; apply keeps_rule_loop).
  apply (rule_loop_spec t [] [] rules) in E as (kept&Hk&Hkept&Hexact); [|done|constructor..].
  destruct exact as [|x exact].
  - split; [eapply frame_trans; [done|]; revert Hl; apply keeps_lift; [apply _|]; apply keeps_RuleAdd|].
    { intros r' Hr'%rule_reported_equal. by destruct (ruleEqual_own _ _ Hr') as [-> _]. }
    intros ->. apply lift_inv in Hl as [_ Hl]. apply (effect_call _ _ (RuleAdd_law _)) in Hl as (r'&Hr'&Hu&_).
    apply rule_reported_equal in Hr'. exists r'. split; [done|]. change (see ?s.1) with (sees s) in *. rewrite Hu, Hk, app_nil_r.
    rewrite filter_cons_True by (by apply ruleEqual_own). by rewrite (pick_none _ kept).
  - apply Forall_cons in Hexact as [Hx Hexact]. split.
    + eapply frame_trans; [done|]. revert Hl. apply (keeps_each_RuleDel t _ _ every).
      intros y Hy _. rewrite Forall_forall in Hexact. by apply ruleEqual_own, Hexact.
    + intros ->. apply (each_RuleDel_spec _ _ every (kept ++ [x])) in Hl; [|rewrite Hk; by rewrite <-(assoc_L (++))].
      exists x. split; [done|]. rewrite Hl, (pick_none (λ r, negb (every r))) by (by apply Forall_forall).
      rewrite app_nil_r, filter_app, (pick_none _ kept) by done. by rewrite filter_cons_True by (by apply ruleEqual_own).
Qed.

(** When the rule is in place nothing happens. *)
Lemma rule_loop_ruled t rules exact s r s' :
  pick (at_priority t) rules = [] → rule_loop t exact rules s = (r, s') → r = Ok exact ∧ s' = s.
Proof.
  induction rules as [|x rules IH]; simpl; [by intros _ [= <- <-]|].
  rewrite filter_cons. destruct (decide (at_priority t x = true)) as [|Hx]; [done|]. intros Hp.
  unfold mbind, M_bind, rule_step. cbv zeta.
  assert ((ru_Priority x =? ru_Priority (markRule t))%Z = false) as -> by (by apply not_true_is_false). apply IH, Hp.
Qed.
Lemma rule_loop_exact t rules x s :
  pick (at_priority t) rules = [x] → ruleEqual x (markRule t) = true → rule_loop t [] rules s = (Ok [x], s).
Proof.
  intros Hp Hx. induction rules as [|y rules IH]; [done|]. simpl. revert Hp. rewrite filter_cons.
  unfold mbind, M_bind, rule_step. cbv zeta. case_decide as Hy.
  - intros [= -> Hp]. unfold at_priority in Hy. cbn [ru_Priority markRule]. rewrite Hy, Hx. simpl.
    destruct (rule_loop t [x] rules s) as [r s'] eqn:E. apply rule_loop_ruled in E as [-> ->]; done.
  - assert ((ru_Priority y =? ru_Priority (markRule t))%Z = false) as -> by (by apply not_true_is_false). apply IH.
Qed.
Lemma reconcileRule_quiet t s r s' : ruled t (sees s) → reconcileRule t s = (r, s') → same (sees s) (sees s').
Proof.
  intros (x&Hx&Hp). unfold reconcileRule.
  intros [(?&E&->)|(rules&s1&E&Hl)]%M_bind_inv; [revert E; apply keeps_lift; eauto with keeps|].
  apply lift_inv in E as [_ E]. apply (effect_call _ _ RuleList_law) in E as [Hs Hr].
  change (see ?s.1) with (sees s) in *. apply M_bind_inv in Hl.
  rewrite (rule_loop_exact t rules x) in Hl; [|apply Permutation_singleton_r; by rewrite Hr|done].
  destruct Hl as [(?&[=]&_)|(?&?&[= <- <-]&[= <- <-])]. done.
Qed.
End rules.

(** ** Route sets: the plan *)
Section route_plan.
Context (cur desired : list Route) (plan : Plan).

Definition route_key (id : string) : string := KernelPlan.Route +:+ ":" +:+ id.
Lemma route_key_inj id id' : route_key id = route_key id' → id = id'.
Proof. unfold route_key. intros Heq. by do 2 apply (inj (String.app _)) in Heq. Qed.

Definition indexes (f : Route → Object) (routes : list Route) (m : gmap string Object) : Prop :=
  (∀ k o, m !! k = Some o → ∃ r, r ∈ routes ∧ k = route_key (routeID r) ∧ o = f r) ∧
  (∀ r, r ∈ routes → m !! route_key (routeID r) = Some (f r)).

Lemma index_indexes b (f : Route → Object) routes m :
  (∀ r, key (f r) = route_key (routeID r)) → indexObjects (f <$> routes) b = Ok m → keyed m ∧ indexes f routes m.
Proof.
  intros Hf Hm. split; [by eapply indexObjects_keyed|]. split.
  - intros k o Ho. apply (indexObjects_key _ _ _ _ _ Hm) in Ho as [<- (r&->&Hr)%list_elem_of_fmap]. eauto.
  - intros r Hr. rewrite <-Hf. by apply (indexObjects_elem _ _ _ _ Hm), list_elem_of_fmap_2.
Qed.

Lemma route_plan_maps :
  PlanDiff (current_object <$> cur) (desired_object <$> desired) = Ok plan → ∃ have want, plan = plan_maps have want ∧ keyed have ∧ keyed want ∧
  indexes current_object cur have ∧ indexes desired_object desired want.
Proof.
  unfold PlanDiff.
  destruct (indexObjects _ false) as [have|] eqn:Eh; [|done].
  destruct (indexObjects _ true) as [want|] eqn:Ew; [|done]. intros [= <-]. exists have, want.
  apply index_indexes in Eh as [??]; [|done]. apply index_indexes in Ew as [??]; [|done]. done.
Qed.

Lemma route_plan_desired_NoDup :
  PlanDiff (current_object <$> cur) (desired_object <$> desired) = Ok plan → NoDup (routeID <$> desired).
Proof.
  unfold PlanDiff.
  destruct (indexObjects _ false) as [have|] eqn:Eh; [|done].
  destruct (indexObjects _ true) as [want|] eqn:Ew; [|done]. intros _.
  apply indexObjects_Ok in Ew as [[Hnd _] _]. rewrite <-list_fmap_compose in Hnd.
  apply (NoDup_fmap_1 route_key). by rewrite <-list_fmap_compose.
Qed.

Context (Hplan : PlanDiff (current_object <$> cur) (desired_object <$> desired) = Ok plan).

(** What an operation of the plan is about. *)
Definition op_about (op : Operation) : Prop :=
  match op_Action op with
  | Add => (∃ d, d ∈ desired ∧ routeID d = op_ID op) ∧ op_ID op ∉ routeID <$> cur
  | Delete => (∃ c, c ∈ cur ∧ routeID c = op_ID op ∧ owned_route c = true) ∧ op_ID op ∉ routeID <$> desired
  | Update => False
  end.

Lemma plan_key_route c d op :
  op ∈ Operations (plan_key (current_object <$> c) (desired_object <$> d)) →
  op_Kind op = KernelPlan.Route ∧
  match op_Action op with
  | Add => c = None ∧ ∃ r, d = Some r ∧ op_ID op = routeID r
  | Delete => d = None ∧ ∃ r, c = Some r ∧ op_ID op = routeID r ∧ owned_route r = true
  | Update => False
  end.
Proof.
  unfold plan_key. destruct c as [c|], d as [d|]; cbn [fmap option_fmap option_map current_object desired_object o_Owned o_AllowAdopt o_Value andb].
  - destruct (owned_route c) eqn:Ec; cbn [negb Operations Drifts plan_nil plan_op plan_drift]; [|by intros ?%elem_of_nil].
    unfold owned_route in Ec. apply Z.eqb_eq in Ec as ->. rewrite bool_decide_true by done. cbn [negb Operations Drifts plan_nil plan_op plan_drift]. by intros ?%elem_of_nil.
  - destruct (owned_route c) eqn:Ec; cbn [negb Operations Drifts plan_nil plan_op plan_drift]; [|by intros ?%elem_of_nil]. intros ->%list_elem_of_singleton. naive_solver.
  - cbn [negb Operations Drifts plan_nil plan_op plan_drift]. intros ->%list_elem_of_singleton. naive_solver.
  - cbn [negb Operations Drifts plan_nil plan_op plan_drift]. by intros ?%elem_of_nil.
Qed.

Lemma indexes_lookup f routes m k : indexes f routes m →
  ∃ o, m !! k = f <$> o ∧ ∀ r, o = Some r → r ∈ routes ∧ k = route_key (routeID r).
Proof.
  intros [Hm _]. destruct (m !! k) as [x|] eqn:E.
  - apply Hm in E as (r&?&?&->). exists (Some r). split; [done|]. by intros ? [= <-].
  - by exists None.
Qed.
Lemma indexes_None f routes m r : indexes f routes m →
  m !! route_key (routeID r) = None → routeID r ∉ routeID <$> routes.
Proof. intros [_ Hm] Hn (r'&Heq&Hr)%list_elem_of_fmap. apply Hm in Hr. by rewrite <-Heq, Hn in Hr. Qed.

Lemma route_plan_about :
  Forall op_about (Operations plan) ∧ NoDup (op_ID <$> Operations plan).
Proof using Hplan.
  destruct (route_plan_maps Hplan) as (have&want&Hmaps&Hh&Hw&Ih&Iw). rewrite Hmaps.
  assert (∀ op, op ∈ Operations (plan_maps have want) → op_Kind op = KernelPlan.Route ∧ op_about op) as Hops.
  { intros op (k&Hop)%elem_of_plan_ops.
    destruct (indexes_lookup _ _ _ k Ih) as (c&Ec&Hc), (indexes_lookup _ _ _ k Iw) as (d&Ed&Hd).
    rewrite Ec, Ed in Hop. apply plan_key_route in Hop as [Hk Ha]. split; [done|]. unfold op_about.
    destruct (op_Action op); [|done|].
    - destruct Ha as (->&r&->&Hid). destruct (Hd r eq_refl) as [Hr ->]. split; [eauto|].
      rewrite Hid. by eapply indexes_None.
    - destruct Ha as (->&r&->&Hid&Ho). destruct (Hc r eq_refl) as [Hr ->]. split; [eauto|].
      rewrite Hid. by eapply indexes_None. }
  split; [apply Forall_forall; intros op Hop; by apply Hops|].
  apply (NoDup_fmap_1 route_key). rewrite <-list_fmap_compose.
  rewrite (list_fmap_ext _ op_key); [by apply plan_maps_NoDup|].
  intros i op Hop. unfold op_key. simpl. by rewrite (proj1 (Hops op (list_elem_of_lookup_2 _ _ _ Hop))).
Qed.

Lemma route_plan_deletes c : c ∈ cur → owned_route c = true →
  routeID c ∈ routeID <$> desired ∨ ∃ op, op ∈ Operations plan ∧ op_Action op = Delete ∧ op_ID op = routeID c.
Proof using Hplan.
  intros Hc Ho. destruct (route_plan_maps Hplan) as (have&want&Hmaps&Hh&Hw&Ih&Iw). rewrite Hmaps.
  pose proof (proj2 Ih c Hc) as Ec. destruct (indexes_lookup _ _ _ (route_key (routeID c)) Iw) as (o&Ed&Hd).
  destruct o as [d|]; cbn in Ed.
  - destruct (Hd d eq_refl) as [? Hk%route_key_inj]. left. rewrite Hk. by apply list_elem_of_fmap_2.
  - right. eexists. split; [apply elem_of_plan_ops; exists (route_key (routeID c))|].
    + rewrite Ec, Ed. unfold plan_key. cbn [current_object o_Owned]. rewrite Ho. cbn [Operations plan_op]. by apply list_elem_of_singleton.
    + done.
Qed.

Context (Hdrift : HasBlockingDrift plan = false).
Lemma route_plan_adds d : d ∈ desired →
  (∃ c, c ∈ cur ∧ routeID c = routeID d ∧ owned_route c = true) ∨
  ∃ op, op ∈ Operations plan ∧ op_Action op = Add ∧ op_ID op = routeID d.
Proof using Hplan Hdrift.
  intros Hd. destruct (route_plan_maps Hplan) as (have&want&Hmaps&Hh&Hw&Ih&Iw). rewrite Hmaps.
  pose proof (proj2 Iw d Hd) as Ed. destruct (indexes_lookup _ _ _ (route_key (routeID d)) Ih) as (o&Ec&Hc).
  destruct o as [c|]; cbn in Ec.
  - destruct (Hc c eq_refl) as [? Hk%route_key_inj]. left. exists c. split_and!; [done..|].
    destruct (owned_route c) eqn:Eo; [done|]. exfalso. apply (proj2 (not_true_iff_false _) Hdrift). rewrite Hmaps.
    apply HasBlockingDrift_true. eexists. split; [apply elem_of_plan_drifts; exists (route_key (routeID d))|].
    + rewrite Ec, Ed. unfold plan_key. cbn [current_object desired_object o_Owned o_AllowAdopt negb andb]. rewrite Eo. cbn [negb Drifts plan_drift]. by apply list_elem_of_singleton.
    + done.
  - right. eexists. split; [apply elem_of_plan_ops; exists (route_key (routeID d))|].
    + rewrite Ec, Ed. cbn [plan_key Operations plan_op]. by apply list_elem_of_singleton.
    + done.
Qed.
End route_plan.

(** ** Route sets: carrying out the plan *)
Section route_set.
Context {K : Type} `{NetlinkLaws K} `{WgKeys}.
Context (name : string) (link : Link) (table : Z) (desired : list Route) (relevant : Route → bool).

(** The routes the reconciliation looks at, and those of them it owns. *)
Definition in_set (r : Route) : bool := filter_matches (route_filter link table) r && relevant r.
Definition own_in (r : Route) : bool := in_set r && owned_route r.
Definition routes_only := agree every every (λ r, negb (own_in r)) every.
#[export] Instance routes_only_frame : Frame routes_only.
Proof. apply _. Qed.

(** The owned routes are exactly the desired ones. *)
Definition routed (v : view) : Prop := routeID <$> pick own_in (v_routes v) ≡ₚ routeID <$> desired.

Context (Hdesired : ∀ d r, d ∈ desired → route_reported d r → own_in r = true).

Lemma route_reported_id d r : route_reported d r → routeID r = routeID d.
Proof. intros (_&_&Hi&Ht&_&Hd). unfold routeID, routeDestination. rewrite Hi, Ht. do 5 f_equal. by destruct (r_Dst r), (r_Dst d). Qed.

Lemma index_routes_Ok existing objs m objs' m' :
  index_routes name relevant objs m existing = Ok (objs', m') →
  objs' = objs ++ (current_object <$> pick relevant existing) ∧ NoDup (routeID <$> pick relevant existing) ∧
  (∀ r, r ∈ pick relevant existing → m !! routeID r = None ∧ m' !! routeID r = Some r) ∧
  ∀ id, is_Some (m !! id) → m' !! id = m !! id.
Proof.
  revert objs m. induction existing as [|r existing IH]; intros objs m; simpl.
  { intros [= <- <-]. rewrite app_nil_r. split_and!; [done|constructor|set_solver|done]. }
  rewrite filter_cons. destruct (relevant r) eqn:Er; simpl; [|apply IH].
  destruct (m !! routeID r) eqn:Em; [done|]. intros (->&Hnd&Hr&Hm)%IH. csimpl. split_and!.
  - by rewrite <-(assoc_L (++)).
  - constructor; [|done]. intros (r'&Heq&Hr')%list_elem_of_fmap. apply Hr in Hr' as [Hn _].
    by rewrite Heq, lookup_insert_eq in Hn.
  - intros r' [->|Hr']%elem_of_cons.
    + split; [done|]. rewrite Hm; by rewrite lookup_insert_eq.
    + apply Hr in Hr' as [Hn ->]. split; [|done]. apply lookup_insert_None in Hn. tauto.
  - intros id [x Hx]. rewrite Hm; rewrite lookup_insert_ne by (intros <-; congruence); [done|by exists x].
Qed.

Lemma desired_map_lookup d :
  NoDup (routeID <$> desired) → d ∈ desired → foldl (λ m r, <[routeID r := r]> m) (∅ : gmap string Route) desired !! routeID d = Some d.
Proof.
  clear Hdesired. generalize (∅ : gmap string Route) as m. induction desired as [|x l IH]; intros m Hnd Hd; [set_solver|].
  rewrite fmap_cons in Hnd. cbn [foldl]. apply NoDup_cons in Hnd as [Hx Hnd]. apply elem_of_cons in Hd as [->|Hd]; [|by apply IH].
  assert (∀ l (m : gmap string Route), routeID x ∉ routeID <$> l → foldl (λ m r, <[routeID r := r]> m) m l !! routeID x = m !! routeID x) as Hl.
  { clear. induction l as [|y l IH]; intros m Hx; [done|]. cbn [foldl].
    rewrite fmap_cons, not_elem_of_cons in Hx. destruct Hx. rewrite IH by done. by apply lookup_insert_ne. }
  rewrite Hl by done. by rewrite lookup_insert_eq.
Qed.

Definition owned_at (s : world K) : list Route := pick own_in (v_routes (sees s)).
Definition action_ids (a : Action) (ops : list Operation) : list string := op_ID <$> filter (λ op, op_Action op = a) ops.

Section phases.
Context (cm dm : gmap string Route) (ops : list Operation).
Context (Hadd : ∀ op, op ∈ ops → op_Action op = Add → ∃ d, d ∈ desired ∧ dm !! op_ID op = Some d ∧ routeID d = op_ID op).
Context (Hdel : ∀ op, op ∈ ops → op_Action op = Delete → ∃ c, cm !! op_ID op = Some c ∧ routeID c = op_ID op ∧ own_in c = true).

Lemma keeps_run_route_op phase op : op ∈ ops → phase = Add ∨ phase = Delete →
  keeps routes_only (run_route_op name cm dm phase op : M (world K) unit).
Proof using Hadd Hdel Hdesired.
  intros Hop Hphase. unfold run_route_op. case_bool_decide as Ha; cbn [negb]; [|keep].
  destruct (op_Action op) eqn:E; [|keep|].
  - destruct (Hadd op Hop E) as (d&Hd&->&_). apply keeps_lift; [apply _|]. apply keeps_RouteAdd.
    intros r' Hr'. by rewrite (Hdesired d).
  - destruct (Hdel op Hop E) as (c&->&_&Hc). apply keeps_lift_noent; [apply _|]. apply keeps_RouteDel.
    by apply negb_false_iff.
Qed.

Lemma add_phase l s s' : l ⊆ ops →
  each (run_route_op name cm dm Add) l s = (Ok tt, s') →
  ∃ added, v_routes (sees s') ≡ₚ added ++ v_routes (sees s) ∧
    Forall (λ r, own_in r = true) added ∧ routeID <$> added ≡ₚ action_ids Add l.
Proof using Hadd Hdel Hdesired.
  revert s. induction l as [|op l IH]; intros s Hl; cbn [each].
  { intros [= <-]. exists []. split_and!; [done|constructor|done]. }
  assert (op ∈ ops) as Hops by (apply Hl; by left). assert (l ⊆ ops) as Hl' by (intros x ?; apply Hl; by right).
  intros [(?&_&?)|([]&s1&E&E')]%M_bind_inv; [done|]. unfold action_ids. rewrite filter_cons.
  apply IH in E' as (added&Hv&Hown&Hids); [|done]. revert E. unfold run_route_op.
  case_bool_decide as Ha; cbn [negb]; [|rewrite decide_False by done; intros [= ->]; eauto].
  rewrite Ha, decide_True by done. destruct (Hadd op) as (d&Hd&->&Hid); [done|done|].
  intros [_ E]%lift_inv. apply (effect_call _ _ (RouteAdd_law _)) in E as (r&Hr&Ho&_).
  exists (r :: added). split_and!; [|constructor; [by apply (Hdesired d)|done]|].
  - rewrite Hv. change (see s1.1) with (sees s1) in Ho. rewrite Ho. solve_Permutation.
  - rewrite !fmap_cons, (route_reported_id d r Hr), Hid. by apply Permutation_skip.
Qed.

Lemma delete_phase l s s' : l ⊆ ops → NoDup (op_ID <$> l) → NoDup (routeID <$> owned_at s) →
  (∀ op c, op ∈ l → op_Action op = Delete → cm !! op_ID op = Some c → c ∈ v_routes (sees s)) →
  each (run_route_op name cm dm Delete) l s = (Ok tt, s') →
  NoDup (routeID <$> owned_at s') ∧
  ∀ x, x ∈ owned_at s' ↔ x ∈ owned_at s ∧ routeID x ∉ action_ids Delete l.
Proof using Hadd Hdel Hdesired.
  revert s. induction l as [|op l IH]; intros s Hl Hnd Hids Hin; cbn [each].
  { intros [= <-]. split; [done|]. intros x. cbn. rewrite elem_of_nil. tauto. }
  rewrite fmap_cons in Hnd. apply NoDup_cons in Hnd as [Hop Hnd].
  assert (op ∈ ops) as Hops by (apply Hl; by left). assert (l ⊆ ops) as Hl' by (intros x ?; apply Hl; by right).
  intros [(?&_&?)|([]&s1&E&E')]%M_bind_inv; [done|]. unfold action_ids. rewrite filter_cons.
  revert E. unfold run_route_op. case_bool_decide as Ha; cbn [negb].
  2:{ intros [= ->]. rewrite decide_False by done. apply IH; [done..| |done].
      intros op' c ?. apply Hin. by right. }
  rewrite decide_True, Ha by done. destruct (Hdel op) as (c&Hc&Hid&Hown); [done|done|]. rewrite Hc. cbn [default from_option].
  assert (c ∈ v_routes (sees s)) as Hcin by (by apply (Hin op); [left|..]).
  intros [_ [E|E]]%lift_noent_inv; [|by apply (missing_call _ _ (RouteDel_missing _)) in E].
  apply (effect_call _ _ (RouteDel_law _)) in E as (Ho&_). change (see ?s.1) with (sees s) in *.
  assert (owned_at s ≡ₚ c :: owned_at s1) as Hs1.
  { unfold owned_at. rewrite Ho. by rewrite filter_cons_True. }
  rewrite Hs1, fmap_cons in Hids. apply NoDup_cons in Hids as [Hcid Hids].
  apply IH in E' as [Hnd' Hx]; [|done..|].
  - split; [done|]. intros x. rewrite Hx, Hs1, fmap_cons, elem_of_cons, not_elem_of_cons, <-Hid.
    split; [|naive_solver]. intros [Hx1 Hx2]. split_and!; [by right| |done].
    intros Heq. apply Hcid. rewrite <-Heq. by apply list_elem_of_fmap_2.
  - intros op' c' Hop' Ha' Hc'. assert (c' ∈ c :: v_routes (sees s1)) as [->|?]%elem_of_cons; [|exfalso|done].
    { rewrite <-Ho. apply (Hin op'); [by right|done..]. }
    destruct (Hdel op') as (c''&Hc''&Hid'&_); [by apply Hl'|done|].
    apply Hop. rewrite <-Hid. replace c with c'' by congruence. rewrite Hid'. by apply list_elem_of_fmap_2.
Qed.
End phases.

(** Either nothing happened, or the plan of the current routes is carried out. *)
Lemma reconcileRouteSet_cases s r s' :
  reconcileRouteSet name link table desired relevant s = (r, s') →
  same (sees s) (sees s') ∧ r ≠ Ok tt ∨
  ∃ s1 cur cm plan, same (sees s) (sees s1) ∧ cur ≡ₚ pick in_set (v_routes (sees s1)) ∧ NoDup (routeID <$> cur) ∧
    (∀ c, c ∈ cur → cm !! routeID c = Some c) ∧
    PlanDiff (current_object <$> cur) (desired_object <$> desired) = Ok plan ∧ HasBlockingDrift plan = false ∧
    each (λ phase, each (run_route_op name cm (foldl (λ m r, <[routeID r := r]> m) ∅ desired) phase) (Operations plan))
      [Add; Delete] s1 = (r, s').
Proof.
  unfold reconcileRouteSet.
  intros [(?&E&->)|(existing&s1&E&Hr)]%M_bind_inv; [left; split; [revert E; apply keeps_lift; eauto with keeps|done]|].
  apply lift_inv in E as [_ E]. apply (effect_call _ _ (RouteListFiltered_law _)) in E as [Hs Hp].
  change (see ?s.1) with (sees s) in *.
  apply M_bind_inv in Hr as [(?&[= _ <-]&->)|([objs cm]&s2&[= Ei <-]&Hr)]; [by left|].
  apply index_routes_Ok in Ei as (->&Hnd&Hcm&_). rewrite app_nil_l in Hr.
  apply M_bind_inv in Hr as [(?&[= _ <-]&->)|(plan&s2&[= Ep <-]&Hr)]; [by left|].
  destruct (PlanDiff _ _) as [plan'|] eqn:Epd; [|done]. injection Ep as ->.
  destruct (HasBlockingDrift plan) eqn:Hd; [injection Hr as <- <-; by left|]. right.
  exists s1, (pick relevant existing), cm, plan. split_and!; try done; [|intros c Hc; by apply Hcm].
  assert (v_routes (sees s) ≡ₚ v_routes (sees s1)) as <- by apply Hs.
  rewrite Hp, list_filter_filter. apply Permutation_refl'. apply list_filter_iff. intros x. unfold in_set. rewrite andb_true_iff. tauto.
Qed.

Lemma pick_own_in (l : list Route) : pick own_in l = pick owned_route (pick in_set l).
Proof. rewrite list_filter_filter. apply list_filter_iff. intros x. unfold own_in. rewrite andb_true_iff. tauto. Qed.

Section carried_out.
Context (cur : list Route) (cm : gmap string Route) (plan : Plan) (s1 : world K).
Context (Hcur : cur ≡ₚ pick in_set (v_routes (sees s1))) (Hnd : NoDup (routeID <$> cur)).
Context (Hcm : ∀ c, c ∈ cur → cm !! routeID c = Some c).
Context (Hplan : PlanDiff (current_object <$> cur) (desired_object <$> desired) = Ok plan).
Context (Hdrift : HasBlockingDrift plan = false).
Abbreviation dm := (foldl (λ (m : gmap string Route) r, <[routeID r := r]> m) ∅ desired).

Lemma elem_of_owned_cur x : x ∈ owned_at s1 ↔ x ∈ cur ∧ owned_route x = true.
Proof using Hcur. unfold owned_at. rewrite pick_own_in, <-Hcur, list_elem_of_filter. tauto. Qed.

Lemma plan_add op : op ∈ Operations plan → op_Action op = Add →
  ∃ d, d ∈ desired ∧ dm !! op_ID op = Some d ∧ routeID d = op_ID op.
Proof using Hplan.
  intros Hop Ha. destruct (route_plan_about _ _ _ Hplan) as [Hab _]. rewrite Forall_forall in Hab. specialize (Hab op Hop).
  unfold op_about in Hab. rewrite Ha in Hab. destruct Hab as [(d&Hd&<-) _]. exists d. split_and!; [done| |done].
  apply desired_map_lookup; [by eapply route_plan_desired_NoDup|done].
Qed.
Lemma plan_delete_cur op : op ∈ Operations plan → op_Action op = Delete →
  ∃ c, c ∈ cur ∧ cm !! op_ID op = Some c ∧ routeID c = op_ID op ∧ owned_route c = true ∧ op_ID op ∉ routeID <$> desired.
Proof using Hplan Hcm.
  intros Hop Ha. destruct (route_plan_about _ _ _ Hplan) as [Hab _]. rewrite Forall_forall in Hab. specialize (Hab op Hop).
  unfold op_about in Hab. rewrite Ha in Hab. destruct Hab as [(c&Hc&Hid&Ho) ?]. exists c.
  split_and!; [done|by rewrite <-Hid; apply Hcm|done..].
Qed.
Lemma plan_delete op : op ∈ Operations plan → op_Action op = Delete →
  ∃ c, cm !! op_ID op = Some c ∧ routeID c = op_ID op ∧ own_in c = true.
Proof using Hplan Hcur Hcm.
  intros Hop Ha. destruct (plan_delete_cur op Hop Ha) as (c&Hc&?&?&Ho&_). exists c. split_and!; [done..|].
  rewrite Hcur in Hc. apply list_elem_of_filter in Hc as [Hc _]. unfold own_in. by rewrite Hc, Ho.
Qed.
Lemma deleted_not_desired id : id ∈ action_ids Delete (Operations plan) → id ∉ routeID <$> desired.
Proof using Hplan Hcm.
  unfold action_ids. intros (op&->&[Ha Hop]%list_elem_of_filter)%list_elem_of_fmap.
  by destruct (plan_delete_cur op Hop Ha) as (c&_&_&_&_&?).
Qed.
Lemma added_ids id : id ∈ action_ids Add (Operations plan) →
  id ∈ routeID <$> desired ∧ id ∉ routeID <$> cur.
Proof using Hplan.
  unfold action_ids. intros (op&->&[Ha Hop]%list_elem_of_filter)%list_elem_of_fmap.
  destruct (route_plan_about _ _ _ Hplan) as [Hab _]. rewrite Forall_forall in Hab. specialize (Hab op Hop).
  unfold op_about in Hab. rewrite Ha in Hab. destruct Hab as [(d&Hd&<-) ?]. split; [by apply list_elem_of_fmap_2|done].
Qed.

Lemma carried_out_routed s' :
  each (λ phase, each (run_route_op name cm dm phase) (Operations plan)) [Add; Delete] s1 = (Ok tt, s') →
  routed (sees s').
Proof using Hcur Hnd Hcm Hplan Hdrift Hdesired.
  destruct (route_plan_about _ _ _ Hplan) as [Hab Hops]. rewrite Forall_forall in Hab.
  cbn [each]. intros [(?&_&?)|([]&s2&Ea&E)]%M_bind_inv; [done|].
  apply M_bind_inv in E as [(?&_&?)|([]&s3&Ed&[= <-])]; [done|].
  destruct (add_phase cm dm (Operations plan) plan_add plan_delete (Operations plan) s1 s2) as (added&Hadd&Hown&Hids); [done..|].
  assert (owned_at s2 ≡ₚ added ++ owned_at s1) as H2.
  { unfold owned_at. rewrite Hadd, filter_app. apply Permutation_app_tail. clear -Hown.
    induction Hown as [|x l Hx _ IH]; [done|]. rewrite filter_cons_True by done. by rewrite IH. }
  assert (NoDup (routeID <$> owned_at s2)) as Hnd2.
  { rewrite H2, fmap_app. apply NoDup_app. rewrite Hids. split_and!.
    - apply (sublist_NoDup _ _ Hops). apply fmap_sublist, sublist_filter.
    - intros id Hid (c&->&[Hc _]%elem_of_owned_cur)%list_elem_of_fmap. rewrite Hids in Hid.
      apply added_ids in Hid as [_ Hid]. by apply Hid, list_elem_of_fmap_2.
    - unfold owned_at. rewrite pick_own_in, <-Hcur. apply (sublist_NoDup _ _ Hnd). apply fmap_sublist, sublist_filter. }
  destruct (delete_phase cm dm (Operations plan) plan_add plan_delete (Operations plan) s2 s3) as [Hnd3 H3]; [done..| |done|].
  { intros op c Hop Ha Hc. destruct (plan_delete_cur op Hop Ha) as (c'&Hc'&Heq&_). replace c with c' by congruence.
    rewrite Hcur in Hc'. apply list_elem_of_filter in Hc' as [_ ?]. rewrite Hadd, elem_of_app. by right. }
  apply NoDup_Permutation; [done|by eapply route_plan_desired_NoDup|]. intros id. fold (owned_at s3). split.
  - intros (x&->&[Hx Hnx]%H3)%list_elem_of_fmap. rewrite H2, elem_of_app in Hx. destruct Hx as [Hx|Hx].
    + apply added_ids. rewrite <-Hids. by apply list_elem_of_fmap_2.
    + apply elem_of_owned_cur in Hx as [Hx Ho].
      destruct (route_plan_deletes _ _ _ Hplan x Hx Ho) as [|(op&Hop&Ha&Hid)]; [done|]. destruct Hnx.
      rewrite <-Hid. apply list_elem_of_fmap_2. by apply list_elem_of_filter.
  - intros (d&->&Hd)%list_elem_of_fmap.
    assert (∃ x, x ∈ owned_at s2 ∧ routeID d = routeID x) as (x&Hx&Hid).
    { setoid_rewrite H2. destruct (route_plan_adds _ _ _ Hplan Hdrift d Hd) as [(c&Hc&Hid&Ho)|(op&Hop&Ha&Hid)].
      - exists c. split; [|done]. rewrite elem_of_app, elem_of_owned_cur. auto.
      - assert (routeID d ∈ routeID <$> added) as (x&?&?)%list_elem_of_fmap.
        { rewrite Hids, <-Hid. apply list_elem_of_fmap_2. by apply list_elem_of_filter. }
        exists x. rewrite elem_of_app. auto. }
    rewrite Hid. apply list_elem_of_fmap_2, H3. split; [done|].
    intros Hdel%deleted_not_desired. apply Hdel. rewrite <-Hid. by apply list_elem_of_fmap_2.
Qed.
End carried_out.

Lemma reconcileRouteSet_spec s r s' :
  reconcileRouteSet name link table desired relevant s = (r, s') →
  routes_only (sees s) (sees s') ∧ (r = Ok tt → routed (sees s')).
Proof using Hdesired.
  intros [[Hs Hr]|(s1&cur&cm&plan&Hs&Hcur&Hnd&Hcm&Hplan&Hdrift&E)]%reconcileRouteSet_cases.
  { split; [by apply frame_same|done]. }
  split; [|intros ->; by eapply carried_out_routed].
  eapply frame_trans; [by apply frame_same|]. revert E. apply keeps_each; [apply _|]. intros phase Hphase.
  apply keeps_each; [apply _|]. intros op Hop. apply (keeps_run_route_op _ _ (Operations plan)); [|by eapply plan_delete|done|].
  - by eapply plan_add.
  - clear -Hphase. set_solver.
Qed.

(** When the owned routes are the desired ones nothing happens. *)
Lemma reconcileRouteSet_quiet s r s' :
  routed (sees s) → reconcileRouteSet name link table desired relevant s = (r, s') → same (sees s) (sees s').
Proof using Hdesired.
  intros Hrouted [[Hs _]|(s1&cur&cm&plan&Hs&Hcur&Hnd&Hcm&Hplan&Hdrift&E)]%reconcileRouteSet_cases; [done|].
  assert (∀ x, x ∈ routeID <$> owned_at s1 ↔ x ∈ routeID <$> desired) as Hids.
  { intros x. rewrite <-Hrouted. unfold owned_at. destruct Hs as (_&_&->&_). done. }
  destruct (route_plan_about _ _ _ Hplan) as [Hab _]. rewrite Forall_forall in Hab.
  eapply frame_trans; [done|]. revert E. apply keeps_each; [apply _|]. intros phase _.
  apply keeps_each; [apply _|]. intros op Hop. exfalso. specialize (Hab op Hop). unfold op_about in Hab.
  destruct (op_Action op); [|done|].
  - destruct Hab as [(d&Hd&Hid) Hn]. apply Hn. rewrite <-Hid.
    assert (routeID d ∈ routeID <$> owned_at s1) as (c&->&Hc)%list_elem_of_fmap by (by apply Hids, list_elem_of_fmap_2).
    apply list_elem_of_fmap_2. by eapply (elem_of_owned_cur cur s1 Hcur) in Hc as [? _].
  - destruct Hab as [(c&Hc&Hid&Ho) Hn]. apply Hn, Hids. rewrite <-Hid. apply list_elem_of_fmap_2.
    by apply (elem_of_owned_cur cur s1 Hcur).
Qed.
End route_set.

(** ** The plumbing of a tunnel *)
Definition zero_net : IPNet := {| n_ip := Addr4 0; n_ones := 0 |}.
(** The IPv4 routes of the daemon on a link, in any table. *)
Definition own_on (link : Link) (r : Route) : bool :=
  negb (r_V6 r) && (r_LinkIndex r =? l_Index link)%Z && owned_route r.

(** What a validated configuration says of a tunnel: its table is not the main
    table and its routes are IPv4 prefixes. *)
Definition plumbable (t : Tunnel) : Prop :=
  t_Table t ≠ mainTable ∧ Forall (λ c, ipv4_cidr c ≠ None) (routes t).

Section plumbing.
Context {K : Type} `{NetlinkLaws K} `{WgKeys}.
Context (link : Link) (t : Tunnel).

Definition own_default : Route → bool := own_in link 0 (default_relevant t).
Definition own_main : Route → bool := own_in link mainTable main_relevant.
Definition plumbing_only : view → view → Prop :=
  agree every every (λ r, negb (own_on link r)) (λ r, negb (own_rule t r)).
#[export] Instance plumbing_only_frame : Frame plumbing_only.
Proof. apply _. Qed.

(** The rule of the tunnel is in place, its table holds the daemon's default route
    and nothing else of the daemon's, the main table its routes and nothing else. *)
Definition plumbed (v : view) : Prop :=
  ruled t v ∧ routed link 0 [owned_to link (t_Table t) zero_net] (default_relevant t) v ∧
  ∃ desired, desired_routes link (t_Name t) (routes t) = Ok desired ∧ routed link mainTable desired main_relevant v.

Lemma own_default_iff r : own_default r = own_on link r && negb (r_Table r =? mainTable)%Z.
Proof.
  unfold own_default, own_in, in_set, own_on, default_relevant, filter_matches, owned_route. cbn.
  destruct (r_V6 r), (r_LinkIndex r =? l_Index link)%Z, (r_Table r =? mainTable)%Z, (r_Protocol r =? RouteProtocol)%Z; cbn;
    rewrite ?andb_false_r; done.
Qed.
Lemma own_main_iff r : own_main r = own_on link r && (r_Table r =? mainTable)%Z.
Proof.
  unfold own_main, own_in, in_set, own_on, main_relevant, filter_matches, owned_route. cbn [route_filter f_All f_Link f_Table f_Protocol].
  destruct (r_V6 r), (r_LinkIndex r =? l_Index link)%Z, (r_Table r =? mainTable)%Z, (r_Protocol r =? RouteProtocol)%Z; done.
Qed.

Lemma reported_own_on table n r :
  Is4 (n_ip n) = true → route_reported (owned_to link table n) r → own_on link r = true ∧ r_Table r = table.
Proof.
  intros H4 (Hv&_&Hi&Ht&Hp&_). split; [|exact Ht]. unfold own_on, owned_route. rewrite Hv, Hi, Hp. cbn.
  rewrite !Z.eqb_refl. by destruct (n_ip n).
Qed.
Lemma default_desired d r : t_Table t ≠ mainTable →
  d ∈ [owned_to link (t_Table t) zero_net] → route_reported d r → own_default r = true.
Proof.
  intros Ht ->%list_elem_of_singleton [Hr Htab]%reported_own_on; [|done].
  rewrite own_default_iff, Hr, Htab. cbn [andb]. by apply negb_true_iff, Z.eqb_neq.
Qed.
Lemma desired_routes_in cidrs l d :
  desired_routes link (t_Name t) cidrs = Ok l → d ∈ l → ∃ c n, c ∈ cidrs ∧ ParseCIDR c = Some n ∧ d = owned_to link mainTable n.
Proof.
  revert l. induction cidrs as [|c cidrs IH]; intros l; cbn [desired_routes]; [by intros [= <-] ?%elem_of_nil|].
  destruct (ParseCIDR c) as [n|] eqn:En; [|done]. destruct (desired_routes _ _ cidrs) as [l'|]; [|done].
  intros [= <-] [->|Hd]%elem_of_cons; [exists c, n; split_and!; [by left|done..]|].
  destruct (IH l' eq_refl Hd) as (c'&n'&?&?). exists c', n'. split; [by right|done].
Qed.
Lemma main_desired l d r : plumbable t → desired_routes link (t_Name t) (routes t) = Ok l →
  d ∈ l → route_reported d r → own_main r = true.
Proof.
  intros [_ H4] Hl Hd. destruct (desired_routes_in _ _ _ Hl Hd) as (c&n&Hc&Hn&->).
  rewrite Forall_forall in H4. specialize (H4 c Hc). unfold ipv4_cidr in H4.
  destruct (ParsePrefix c) as [p|] eqn:Hp; [|done]. destruct (Is4 (p_ip p)) eqn:Hp4; [|done].
  intros [Hr Htab]%reported_own_on; [|by eapply ParseCIDR_Is4]. by rewrite own_main_iff, Hr, Htab.
Qed.

Lemma reconcileDefaultRoute_spec s r s' : plumbable t → reconcileDefaultRoute link t s = (r, s') →
  routes_only link 0 (default_relevant t) (sees s) (sees s') ∧
  (r = Ok tt → routed link 0 [owned_to link (t_Table t) zero_net] (default_relevant t) (sees s')).
Proof. intros [Ht _]. apply reconcileRouteSet_spec. intros d r' Hd. by eapply default_desired. Qed.

Lemma reconcileRoutes_spec s r s' : plumbable t → reconcileRoutes link t s = (r, s') →
  routes_only link mainTable main_relevant (sees s) (sees s') ∧
  (r = Ok tt → ∃ desired, desired_routes link (t_Name t) (routes t) = Ok desired ∧
     routed link mainTable desired main_relevant (sees s')).
Proof.
  intros Hok [(?&[= _ <-]&->)|(l&s1&[= Hl <-]&E)]%M_bind_inv; [split; [by apply frame_same|done]|].
  apply reconcileRouteSet_spec in E as [? Hr]; [split; [done|]; eauto|]. intros d r'. by eapply main_desired.
Qed.

Lemma rules_only_weaken v w : rules_only t v w → plumbing_only v w.
Proof. by apply agree_weaken. Qed.
Lemma default_only_weaken v w : routes_only link 0 (default_relevant t) v w → plumbing_only v w.
Proof.
  apply agree_weaken; try done. intros x. fold (own_default x). rewrite own_default_iff. by destruct (own_on link x).
Qed.
Lemma main_only_weaken v w : routes_only link mainTable main_relevant v w → plumbing_only v w.
Proof. apply agree_weaken; try done. intros x. fold (own_main x). rewrite own_main_iff. by destruct (own_on link x). Qed.

Lemma ruled_agree v w : v_rules v ≡ₚ v_rules w → ruled t v → ruled t w.
Proof. intros Hu (r&?&Hr). exists r. by rewrite <-Hu. Qed.
Lemma routed_default_agree v w :
  routes_only link mainTable main_relevant v w →
  routed link 0 [owned_to link (t_Table t) zero_net] (default_relevant t) v →
  routed link 0 [owned_to link (t_Table t) zero_net] (default_relevant t) w.
Proof.
  intros (_&_&Hr&_) Hv. unfold routed in *. rewrite <-Hv. apply fmap_Permutation. symmetry.
  apply (pick_weaken (λ r, negb (own_main r))); [|exact Hr]. intros x _ Hx. fold (own_default x) in Hx.
  rewrite own_default_iff in Hx. rewrite own_main_iff. by destruct (own_on link x), (r_Table x =? mainTable)%Z.
Qed.

Lemma reconcilePlumbing_effect s r s' : plumbable t → reconcilePlumbing link t s = (r, s') →
  plumbing_only (sees s) (sees s') ∧ (r = Ok tt → plumbed (sees s')).
Proof.
  intros Hok [(?&E&->)|([]&s1&E1&E)]%M_bind_inv.
  { apply reconcileDefaultRoute_spec in E as [? _]; [|done]. split; [by apply default_only_weaken|done]. }
  apply reconcileDefaultRoute_spec in E1 as [Hf1 Hd]; [|done].
  apply M_bind_inv in E as [(?&E&->)|([]&s2&E2&E)].
  { apply reconcileRule_spec in E as [? _]. split; [|done].
    eapply frame_trans; [by apply default_only_weaken|by apply rules_only_weaken]. }
  apply reconcileRule_spec in E2 as [Hf2 Hu]. apply reconcileRoutes_spec in E as [Hf3 Hr]; [|done]. split.
  { eapply frame_trans; [by apply default_only_weaken|].
    eapply frame_trans; [by apply rules_only_weaken|by apply main_only_weaken]. }
  intros ->. split_and!; [|eapply routed_default_agree; [done|]|by apply Hr].
  - apply (ruled_agree (sees s2)); [|by apply Hu]. destruct Hf3 as (_&_&_&Hf3). by rewrite !pick_every in Hf3.
  - unfold routed in *. rewrite <-(Hd eq_refl). destruct Hf2 as (_&_&Hf2&_). rewrite !pick_every in Hf2. by rewrite Hf2.
Qed.

Lemma reconcilePlumbing_quiet s r s' : plumbable t → plumbed (sees s) →
  reconcilePlumbing link t s = (r, s') → same (sees s) (sees s').
Proof.
  intros Hok (Hu&Hd&l&Hl&Hm).
  assert (∀ s1 s2 r, same (sees s) (sees s1) → reconcileRoutes link t s1 = (r, s2) → same (sees s1) (sees s2)) as Hmain.
  { intros s1 s2 r' Hs [(?&[= _ <-]&->)|(l'&s3&[= Hl' <-]&E)]%M_bind_inv; [done|].
    assert (l' = l) as -> by congruence. apply reconcileRouteSet_quiet in E; [done|intros d r''; by eapply main_desired|].
    unfold routed in *. destruct Hs as (_&_&Hs&_). by rewrite <-Hs. }
  intros [(?&E&->)|([]&s1&E1&E)]%M_bind_inv.
  { apply reconcileRouteSet_quiet in E; [done| |done]. intros d r'. apply default_desired, Hok. }
  apply reconcileRouteSet_quiet in E1; [|intros d r'; apply default_desired, Hok|done].
  apply M_bind_inv in E as [(?&E&->)|([]&s2&E2&E)].
  { apply reconcileRule_quiet in E; [by etrans|]. eapply ruled_agree; [|done]. apply E1. }
  apply reconcileRule_quiet in E2; [|eapply ruled_agree; [|done]; apply E1].
  etrans; [done|]. etrans; [done|]. eapply Hmain; [|done]. by etrans.
Qed.

(** C19: reconciling the plumbing of a tunnel, at whatever call it fails, changes
    nothing but policy rules at the tunnel's priority with the daemon's protocol
    and IPv4 routes on the link with the daemon's protocol.  When it succeeds, the
    tunnel's rule is the only one at its priority, the daemon's routes outside the
    main table are the default route of the tunnel's table, and those in the main
    table are the configured ones.  When that already holds it changes nothing. *)
Theorem reconcilePlumbing_converges s r s' :
  plumbable t → reconcilePlumbing link t s = (r, s') →
  plumbing_only (sees s) (sees s') ∧ (r = Ok tt → plumbed (sees s')) ∧
  (plumbed (sees s) → same (sees s) (sees s')).
Proof.
  intros Hok E. destruct (reconcilePlumbing_effect s r s' Hok E). split_and!; [done..|].
  intros Hp. by eapply reconcilePlumbing_quiet.
Qed.
End plumbing.

Lemma demo_plumbable : plumbable Demo.tunnel.
Proof. split; [done|]. repeat constructor; by vm_compute. Qed.
Definition demo_plumb : result wg_error unit * world view := reconcilePlumbing Demo.eth0 Demo.tunnel (Demo.start, ∅).
Lemma demo_plumb_run : demo_plumb = (Ok tt, demo_plumb.2).
Proof. apply injective_projections; [by vm_compute|done]. Qed.

(** The example's plumbing, set up on a link that has a foreign route. *)
Lemma reconcilePlumbing_converges_witness :
  plumbing_only Demo.eth0 Demo.tunnel (sees (Demo.start, ∅)) (sees demo_plumb.2) ∧
  plumbed Demo.eth0 Demo.tunnel (sees demo_plumb.2).
Proof.
  destruct (reconcilePlumbing_converges Demo.eth0 Demo.tunnel (Demo.start, ∅) (Ok tt) demo_plumb.2) as (Hf&Hp&_).
  - exact demo_plumbable.
  - exact demo_plumb_run.
  - split; [exact Hf|exact (Hp eq_refl)].
Defined.
