(* ===== verification/WgTunnel.v ===== *)
(** * wg.go: tunnelUp and tunnelDown

    What bringing a tunnel up or down leaves behind, and what of others it never
    touches; and a kernel in which the laws of [Netlink] hold. *)
From S2P Require Import Prelude Netip Config KernelPlan Netlink Wg WgKernel WgFrame WgSpec.

(** ** What belongs to others *)
Definition other_link (t : Tunnel) (l : Link) : bool := negb (bool_decide (l_Name l = t_Name t)).
Definition other_index (i : Z) (l : Link) : bool := negb (l_Index l =? i)%Z.
(** An IPv4 route that neither the daemon nor the kernel made. *)
Definition foreign_route (r : Route) : bool :=
  negb (r_V6 r) && negb (r_Protocol r =? 2)%Z && negb (owned_route r).
Definition kept_route (i : Z) (r : Route) : bool := negb (r_LinkIndex r =? i)%Z || foreign_route r.
Definition same_ids (v w : view) : Prop :=
  (λ l, (l_Index l, l_Name l)) <$> v_links v ≡ₚ (λ l, (l_Index l, l_Name l)) <$> v_links w.
#[export] Instance same_ids_frame : Frame same_ids.
Proof. split; [intros v w (Hl&_); unfold same_ids; by rewrite Hl|]. intros u v w ??. unfold same_ids in *. by etrans. Qed.

Lemma generated_not_kept link r : generated link r → kept_route (l_Index link) r = false.
Proof.
  unfold generated, kernel_route, kept_route, foreign_route. intros [-> ->]. rewrite Z.eqb_refl. by rewrite andb_false_r.
Qed.
Lemma relinked_ids i f v w :
  (∀ l, l_Index (f l) = l_Index l ∧ l_Name (f l) = l_Name l) → relinked i f v w → same_ids v w.
Proof.
  intros Hf (cur&rest&_&Hv&Hw). unfold same_ids. rewrite Hv, Hw. csimpl. destruct (Hf cur) as [-> ->]. done.
Qed.
Lemma links_ids v w : v_links v ≡ₚ v_links w → same_ids v w.
Proof. intros Hl. unfold same_ids. by rewrite Hl. Qed.

Section up.
Context {K : Type} `{NetlinkLaws K} `{WgKeys}.
Context (t : Tunnel).

(** An IPv4 address other than the tunnel's own. *)
Definition foreign_addr (a : LinkAddr) : bool :=
  negb (la_V6 a) &&
  negb (match netlink_ParseAddr (t_Address t) with Some d => has_address d a | None => false end).
Definition kept_addr (i : Z) (a : LinkAddr) : bool := negb (la_Index a =? i)%Z || foreign_addr a.
Definition up_frame (i : Z) : view → view → Prop :=
  agree (other_index i) (kept_addr i) (kept_route i) (λ r, negb (own_rule t r)).
#[export] Instance up_frame_frame i : Frame (up_frame i).
Proof. apply _. Qed.

Lemma other_index_self i (l : Link) : l_Index l = i → other_index i l = false.
Proof. intros <-. unfold other_index. by rewrite Z.eqb_refl. Qed.
Lemma has_address_reported net net' a : la_Net a = Some net' → net_reported net net' → has_address net a = true.
Proof.
  intros Ha [Hi Ho]. unfold has_address. rewrite Ha. apply bool_decide_true. unfold addressKey, ip_String.
  by rewrite Hi, Ho.
Qed.
Lemma plumbing_up link v w : plumbing_only link t v w → up_frame (l_Index link) v w.
Proof.
  apply agree_weaken; try done. intros r. unfold kept_route, foreign_route, own_on.
  by destruct (r_V6 r), (owned_route r), (r_LinkIndex r =? l_Index link)%Z; rewrite ?andb_false_r.
Qed.

Lemma keeps_reconcileAddress link : keeps (up_frame (l_Index link)) (reconcileAddress link t).
Proof.
  unfold reconcileAddress. apply keeps_bind_option; [apply _|]. intros d Hd. unfold up_frame.
  apply keeps_bind; [apply _|keep|]. intros addresses.
  apply keeps_bind; [apply _|keep|]. intros found. destruct found; [keep|].
  apply keeps_lift; [apply _|]. apply keeps_AddrAdd; [|apply generated_not_kept].
  intros a net' Hi Ha Hn. unfold kept_addr, foreign_addr. rewrite Hi, Z.eqb_refl.
  rewrite Hd, (has_address_reported d net' a) by done. apply andb_false_r.
Qed.

Lemma keeps_configure_link cfg link : plumbable t → keeps (up_frame (l_Index link)) (configure_link t cfg link).
Proof.
  intros Hok. unfold configure_link. apply keeps_bind; [apply _|keep|]. intros mode. cbv zeta.
  apply keeps_bind; [apply _|keep|]. intros _. apply keeps_bind; [apply _| |intros _].
  { destruct (negb _); [|keep]. apply keeps_lift; [apply _|]. apply keeps_LinkSetMTU; [apply other_index_self|..].
    - intros a Ha Hi. unfold kept_addr, foreign_addr. by rewrite Ha, Hi, Z.eqb_refl.
    - intros r Hr Hi. unfold kept_route, foreign_route. by rewrite Hr, Hi, Z.eqb_refl. }
  apply keeps_bind; [apply _|apply keeps_reconcileAddress|intros _].
  apply keeps_bind; [apply _|keep|intros _]. apply keeps_bind; [apply _| |intros _].
  { apply keeps_lift; [apply _|]. apply keeps_LinkSetUp; [apply other_index_self|apply generated_not_kept]. }
  apply keeps_bind; [apply _|keep|intros _]. intros s r s' E.
  by eapply plumbing_up, reconcilePlumbing_effect.
Qed.

Lemma keeps_ids_LinkSetMTU link mtu : keeps_call same_ids (LinkSetMTU link mtu).
Proof.
  eapply keeps_effect; [apply _|apply LinkSetMTU_law|]. intros v _ w (?&?&Hr&_). by refine (relinked_ids _ _ _ _ _ Hr).
Qed.
Lemma keeps_ids_LinkSetUp link : keeps_call same_ids (LinkSetUp link).
Proof. eapply keeps_effect; [apply _|apply LinkSetUp_law|]. intros v _ w (?&Hr&_). by refine (relinked_ids _ _ _ _ _ Hr). Qed.
Lemma keeps_ids_LinkSetAlias link alias : keeps_call same_ids (LinkSetAlias link alias).
Proof. eapply keeps_effect; [apply _|apply LinkSetAlias_law|]. intros v _ w (Hr&_). by refine (relinked_ids _ _ _ _ _ Hr). Qed.
Lemma keeps_ids_AddrAdd link net : keeps_call same_ids (AddrAdd link net).
Proof.
  eapply keeps_effect; [apply _|apply AddrAdd_law|]. intros v _ w (?&?&?&_&_&_&_&_&Hl&_). by apply links_ids.
Qed.
Lemma keeps_ids_AddrDel link net : keeps_call same_ids (AddrDel link net).
Proof. eapply keeps_effect; [apply _|apply AddrDel_law|]. intros v _ w (?&?&?&_&_&_&Hl&_). by apply links_ids. Qed.
Lemma plumbing_ids link v w : plumbing_only link t v w → same_ids v w.
Proof. intros (Hl&_). apply links_ids. by rewrite !pick_every in Hl. Qed.
Hint Resolve keeps_ids_LinkSetMTU keeps_ids_LinkSetUp keeps_ids_LinkSetAlias keeps_ids_AddrAdd keeps_ids_AddrDel : keeps.

Lemma keeps_ids_configure_link cfg link : plumbable t → keeps same_ids (configure_link t cfg link).
Proof.
  intros Hok. assert (keeps same_ids (reconcilePlumbing link t)) as Hp.
  { intros s r s' E. by eapply plumbing_ids, reconcilePlumbing_effect. }
  assert (keeps same_ids (reconcileAddress link t)) as Ha by (unfold reconcileAddress; keep).
  unfold configure_link. keep.
Qed.

(** ** Finding or making the link *)
Definition link_frame : view → view → Prop := agree (other_link t) every every every.
#[export] Instance link_frame_frame : Frame link_frame.
Proof. apply _. Qed.

(** A link of the tunnel's name is down, and nothing hangs on it. *)
Definition bare (v : view) : Prop := ∀ l, l ∈ v_links v → l_Name l = t_Name t → l_Up l = false ∧
  (∀ a, a ∈ v_addrs v → la_Index a ≠ l_Index l) ∧ (∀ r, r ∈ v_routes v → r_LinkIndex r ≠ l_Index l).

Lemma NoDup_fmap_elem {A B} (f : A → B) l x y : NoDup (f <$> l) → x ∈ l → y ∈ l → f x = f y → x = y.
Proof.
  induction l as [|z l IH]; [by intros _ ?%elem_of_nil|]. rewrite fmap_cons. intros [Hz Hnd]%NoDup_cons.
  intros [->|Hx]%elem_of_cons [->|Hy]%elem_of_cons Heq; [done|destruct Hz..|by apply IH].
  - rewrite Heq. by apply list_elem_of_fmap_2.
  - rewrite <-Heq. by apply list_elem_of_fmap_2.
Qed.
Lemma same_index k l l' : l ∈ v_links (see k) → l' ∈ v_links (see k) → l_Index l = l_Index l' → l = l'.
Proof. apply NoDup_fmap_elem, links_distinct. Qed.
Lemma same_name k l l' : l ∈ v_links (see k) → l' ∈ v_links (see k) → l_Name l = l_Name l' → l = l'.
Proof. apply NoDup_fmap_elem, links_distinct. Qed.

Lemma bare_same v w : same v w → bare v → bare w.
Proof.
  intros (Hl&Ha&Hr&_) Hv l Hlw Hn. rewrite <-Hl in Hlw. destruct (Hv l Hlw Hn) as (?&H1'&H2').
  split_and!; [done|intros a; rewrite <-Ha; apply H1'|intros r; rewrite <-Hr; apply H2'].
Qed.

(** Changing the alias of the tunnel's link. *)
Lemma alias_frame link alias k k' :
  link ∈ v_links (see k) → l_Name link = t_Name t → LinkSetAlias link alias k = (Ok tt, k') →
  link_frame (see k) (see k') ∧ (bare (see k) → bare (see k')).
Proof.
  intros Hin Hn E. apply (effect_call _ _ (LinkSetAlias_law _ _)) in E as ((cur&rest&Hi&Hv&Hw)&Ha&Hr&Hu).
  assert (cur = link) as -> by (apply (same_index k); [rewrite Hv; by left|done..]). split.
  - split_and!; [|by rewrite Ha|by rewrite Hr|by rewrite Hu]. rewrite Hv, Hw, !filter_cons_False; [done|..].
    all: unfold other_link; cbn; by rewrite bool_decide_true.
  - intros Hb l Hl Hln. rewrite Hw in Hl. assert (∃ l0, l0 ∈ v_links (see k) ∧ l_Name l0 = t_Name t ∧ l_Index l0 = l_Index l ∧ l_Up l0 = l_Up l) as (l0&Hl0&Hn0&<-&<-).
    { apply elem_of_cons in Hl as [->|Hl]; [by exists link|]. exists l. rewrite Hv. split; [by right|done]. }
    destruct (Hb l0 Hl0 Hn0) as (?&H1'&H2'). split_and!; [done|intros a; rewrite <-Ha; apply H1'|intros r; rewrite <-Hr; apply H2'].
Qed.

Lemma filter_all {A} (P : A → Prop) `{∀ x, Decision (P x)} (l : list A) : (∀ x, x ∈ l → P x) → filter P l = l.
Proof.
  induction l as [|x l IH]; intros Hp; [done|]. rewrite filter_cons_True by (apply Hp; by left).
  f_equal. apply IH. intros y ?. apply Hp. by right.
Qed.

Lemma filter_ext_in {A} (P Q : A → Prop) `{∀ x, Decision (P x), ∀ x, Decision (Q x)} (l : list A) :
  (∀ x, x ∈ l → P x ↔ Q x) → filter P l = filter Q l.
Proof.
  induction l as [|x l IH]; intros Hp; [done|]. rewrite !filter_cons, IH by (intros y ?; apply Hp; by right).
  destruct (Hp x) as [??]; [by left|]. repeat case_decide; naive_solver.
Qed.

Lemma undo_create_frame {A} e s (r : result wg_error A) s' :
  bare (sees s) → undo_create t e s = (r, s') → link_frame (sees s) (sees s') ∧ ∃ e', r = Err e'.
Proof.
  intros Hb [(?&(?&[=]&_)%attempt_inv&_)|(d&s1&(r1&[= ->]&[_ E]%lift_inv)%attempt_inv&[= <- <-])]%M_bind_inv.
  split; [|eauto]. destruct r1 as [[]|]; [|destruct E as [? E]; by apply frame_same, (LinkDel_law _ _ _ _ E)].
  apply (effect_call _ _ (LinkDel_law _)) in E as (l&lost&Hn&Hl&Hu&Ha&Hr&Hlost). change (see ?s.1) with (sees s) in *.
  destruct (Hb l) as (Hup&Hba&Hbr); [rewrite Hl; by left|done|].
  assert (lost = []) as ->.
  { destruct Hlost as [|r lost Hr0 _]; [done|exfalso].
    destruct Hr0 as [[_ (a&He&Hin)%list_elem_of_fmap]|[_ ?]]; [by eapply Hba|congruence]. }
  split_and!; rewrite ?pick_every.
  - rewrite Hl, filter_cons_False; [done|]. unfold other_link. by rewrite bool_decide_true.
  - rewrite <-Ha, filter_all; done.
  - rewrite <-Hr, filter_all; done.
  - done.
Qed.

Lemma lookupLink_Ok s o s' : lookupLink (t_Name t) s = (Ok o, s') → same (sees s) (sees s') ∧
  match o with Some l => l ∈ v_links (sees s') ∧ l_Name l = t_Name t | None => t_Name t ∉ l_Name <$> v_links (sees s) end.
Proof.
  intros [_ E]%lift_inv. apply (effect_call _ _ (LinkByName_law _)) in E as [Hs Ho]. split; [done|].
  destruct o; [|done]. destruct Hs as (Hl&_). change (see ?s.1) with (sees s) in *. by rewrite <-Hl.
Qed.
Lemma lookup_again_Ok what s l s' : lookup_again t what s = (Ok l, s') →
  same (sees s) (sees s') ∧ l ∈ v_links (sees s') ∧ l_Name l = t_Name t.
Proof.
  intros [(?&_&?)|(o&s1&[Hs Ho]%lookupLink_Ok&E)]%M_bind_inv; [done|]. destruct o; [|done]. by injection E as -> ->.
Qed.

Lemma link_add_bare mtu k k' : t_Name t ∉ l_Name <$> v_links (see k) → LinkAdd (t_Name t) mtu k = (Ok tt, k') →
  link_frame (see k) (see k') ∧ bare (see k').
Proof.
  intros Hno E. apply (effect_call _ _ (LinkAdd_law _ _)) in E as (l&Hn&_&_&_&Hup&Ha&Hr&Hl&Hav&Hrv&Hu). split.
  - split_and!; [|by rewrite Hav|by rewrite Hrv|by rewrite Hu]. rewrite Hl, filter_cons_False; [done|].
    unfold other_link. by rewrite bool_decide_true.
  - intros l' Hl' Hn'. rewrite Hl in Hl'. apply elem_of_cons in Hl' as [->|Hl'].
    + split_and!; [done|intros a; rewrite <-Hav; apply Ha|intros r; rewrite <-Hrv; apply Hr].
    + destruct Hno. rewrite <-Hn'. by apply list_elem_of_fmap_2.
Qed.

(** The outcome of finding or making the link, from a state [v]. *)
Definition linked (v : view) (r : result wg_error Link) (s' : world K) : Prop :=
  link_frame v (sees s') ∧ ∀ l, r = Ok l → l ∈ v_links (sees s') ∧ l_Name l = t_Name t.
Lemma linked_trans u v r s' : link_frame u v → linked v r s' → linked u r s'.
Proof. intros ? [??]. split; [by eapply frame_trans|done]. Qed.
Lemma undo_linked e s r s' : bare (sees s) → undo_create t e s = (r, s') → linked (sees s) r s'.
Proof. intros Hb E. apply undo_create_frame in E as [? [e' ->]]; [|done]. by split. Qed.

Lemma create_link_linked s r s' : t_Name t ∉ l_Name <$> v_links (sees s) → create_link t s = (r, s') → linked (sees s) r s'.
Proof.
  intros Hno [(?&[_ [e E]]%lift_inv&->)|([]&s1&[_ E1]%lift_inv&E)]%M_bind_inv.
  { split; [|done]. apply frame_same. by apply (LinkAdd_law _ _ _ _ _ E). }
  apply link_add_bare in E1 as [Hf Hb]; [|done]. change (see ?s.1) with (sees s) in *.
  apply (linked_trans _ _ _ _ Hf). clear Hf.
  apply M_bind_inv in E as [(?&(?&[=]&_)%attempt_inv&_)|(rc&s2&(r2&[= ->]&E2)%attempt_inv&E)].
  assert (same (sees s1) (sees s2)) as Hs by (revert E2; apply keeps_lookup_again; apply _).
  eapply linked_trans; [by apply frame_same|]. apply (bare_same _ _ Hs) in Hb. clear Hs.
  destruct r2 as [created|e]; [|by eapply undo_linked]. apply lookup_again_Ok in E2 as (_&Hin&Hn).
  apply M_bind_inv in E as [(?&(?&[=]&_)%attempt_inv&_)|(rm&s3&(r3&[= ->]&[_ E3]%lift_inv)%attempt_inv&E)].
  destruct r3 as [[]|e].
  2:{ destruct E3 as [? E3]. assert (same (sees s2) (sees s3)) as Hs by apply (LinkSetAlias_law _ _ _ _ _ E3).
      eapply linked_trans; [by apply frame_same|]. eapply undo_linked; [by apply (bare_same _ _ Hs)|done]. }
  apply alias_frame in E3 as [Hf Hb']; [|done..]. specialize (Hb' Hb). change (see ?s.1) with (sees s) in *.
  apply (linked_trans _ _ _ _ Hf). clear Hf Hb.
  apply M_bind_inv in E as [(?&(?&[=]&_)%attempt_inv&_)|(rl&s4&(r4&[= ->]&E4)%attempt_inv&E)].
  assert (same (sees s3) (sees s4)) as Hs by (revert E4; apply keeps_lookup_again; apply _).
  eapply linked_trans; [by apply frame_same|]. apply (bare_same _ _ Hs) in Hb'.
  destruct r4 as [marked|e]; [|by eapply undo_linked]. injection E as <- <-.
  apply lookup_again_Ok in E4 as (_&?&?). split; [by apply frame_same|]. by intros l [= <-].
Qed.

Lemma ensureOwnedLink_linked s r s' : ensureOwnedLink t s = (r, s') → linked (sees s) r s'.
Proof.
  intros [(?&E&->)|(o&s1&E1&E)]%M_bind_inv.
  { split; [|done]. revert E. apply keeps_lookupLink. apply _. }
  apply lookupLink_Ok in E1 as [Hs Ho]. destruct o as [link|].
  2:{ eapply linked_trans; [by apply frame_same|]. apply create_link_linked; [|done].
      destruct Hs as (Hl&_). by rewrite <-Hl. }
  eapply linked_trans; [by apply frame_same|]. destruct Ho as [Hin Hn]. destruct (negb _); [by injection E as <- <-; split; [apply frame_same|]|].
  destruct (ownedLinkMode link t).
  - apply M_bind_inv in E as [(?&E&->)|([]&s2&E2&[= <- <-])].
    + split; [|done]. revert E. apply keeps_verifyExistingKeyIdentity. apply _.
    + assert (same (sees s1) (sees s2)) as Hs' by (revert E2; apply keeps_verifyExistingKeyIdentity; apply _).
      split; [by apply frame_same|]. intros l [= <-]. destruct Hs' as (Hl&_). by rewrite <-Hl.
  - destruct (negb _); [by injection E as <- <-; split; [apply frame_same|]|].
    destruct (negb _); [by injection E as <- <-; split; [apply frame_same|]|].
    apply M_bind_inv in E as [(?&E&->)|([]&s2&E2&E)].
    { split; [|done]. revert E. apply keeps_verifyAdoptionCandidate. apply _. }
    assert (same (sees s1) (sees s2)) as Hs' by (revert E2; apply keeps_verifyAdoptionCandidate; apply _).
    eapply linked_trans; [by apply frame_same|].
    apply M_bind_inv in E as [(?&[_ [e E]]%lift_inv&->)|([]&s3&[_ E3]%lift_inv&E)].
    { split; [|done]. apply frame_same, (LinkSetAlias_law _ _ _ _ _ E). }
    apply alias_frame in E3 as [Hf _]; [|by destruct Hs' as (Hl&_); rewrite <-Hl|done].
    apply (linked_trans _ _ _ _ Hf). change (see s3.1) with (sees s3). split.
    + revert E. apply keeps_lookup_again. apply _.
    + intros l ->. by apply lookup_again_Ok in E as (_&?&?).
Qed.

(** A link of the tunnel's name that is not the daemon's and may not be adopted. *)
Lemma ensureOwnedLink_refuses s r s' l :
  l ∈ v_links (sees s) → l_Name l = t_Name t → ownedLinkMode l t = None →
  t_AdoptExisting t = false ∨ l_Alias l ≠ "" → ensureOwnedLink t s = (r, s') →
  (∃ e, r = Err e) ∧ same (sees s) (sees s').
Proof.
  intros Hin Hn Hm Had [(?&E&->)|(o&s1&E1&E)]%M_bind_inv.
  { split; [eauto|]. revert E. apply keeps_lookupLink. apply _. }
  apply lookupLink_Ok in E1 as [Hs Ho]. destruct o as [link|].
  2:{ destruct Ho. rewrite <-Hn. by apply list_elem_of_fmap_2. }
  assert (link = l) as ->. { destruct Ho, Hs as (Hl&_). rewrite <-Hl in *. apply (same_name s.1); [done..|congruence]. }
  destruct (negb _); [injection E as <- <-; eauto|]. rewrite Hm in E.
  destruct Had as [Had|Had]; [rewrite Had in E; injection E as <- <-; eauto|].
  destruct (negb _); [injection E as <- <-; eauto|].
  rewrite bool_decide_false in E by done. injection E as <- <-. eauto.
Qed.

(** ** tunnelUp *)
(** The links of other names; what is on them, and what is foreign, is spared. *)
Definition other_indices (v : view) : list Z := l_Index <$> pick (other_link t) (v_links v).
Definition spared_addr (ids : list Z) (a : LinkAddr) : bool := bool_decide (la_Index a ∈ ids) || foreign_addr a.
Definition spared_route (ids : list Z) (r : Route) : bool := bool_decide (r_LinkIndex r ∈ ids) || foreign_route r.
Definition others (ids : list Z) : view → view → Prop :=
  agree (other_link t) (spared_addr ids) (spared_route ids) (λ r, negb (own_rule t r)).
#[export] Instance others_frame ids : Frame (others ids).
Proof. apply _. Qed.

(** Only one link has the index of the tunnel's link, and it keeps its name. *)
Lemma up_frame_others link ids s s' :
  link ∈ v_links (sees s) → l_Name link = t_Name t → l_Index link ∉ ids → same_ids (sees s) (sees s') →
  up_frame (l_Index link) (sees s) (sees s') → others ids (sees s) (sees s').
Proof.
  intros Hin Hn Hni Hids (Hl&Ha&Hr&Hu). split_and!; [| | |done].
  - eapply pick_weaken; [|exact Hl]. intros x Hx. unfold other_link, other_index.
    rewrite !negb_true_iff, bool_decide_eq_false, Z.eqb_neq. intros Hne Hi. apply Hne. rewrite <-Hn.
    assert ((l_Index x, l_Name x) ∈ (λ l, (l_Index l, l_Name l)) <$> v_links (sees s)) as (l&[= Hi' Hn']&Hl')%list_elem_of_fmap.
    { apply elem_of_app in Hx as [Hx|Hx]; [|unfold same_ids in Hids; rewrite Hids]; by apply (list_elem_of_fmap_2 (λ l, (l_Index l, l_Name l))). }
    rewrite Hn'. f_equal. apply (same_index s.1); [done..|congruence].
  - eapply pick_weaken; [|exact Ha]. intros a _. unfold spared_addr, kept_addr. rewrite !orb_true_iff, negb_true_iff, Z.eqb_neq.
    intros [?%bool_decide_eq_true|?]; [left; congruence|by right].
  - eapply pick_weaken; [|exact Hr]. intros r _. unfold spared_route, kept_route. rewrite !orb_true_iff, negb_true_iff, Z.eqb_neq.
    intros [?%bool_decide_eq_true|?]; [left; congruence|by right].
Qed.

Lemma other_indices_frame v w : pick (other_link t) (v_links v) ≡ₚ pick (other_link t) (v_links w) → other_indices v ≡ₚ other_indices w.
Proof. intros Hl. unfold other_indices. by rewrite Hl. Qed.
Lemma own_index_not_other k link : link ∈ v_links (see k) → l_Name link = t_Name t → l_Index link ∉ other_indices (see k).
Proof.
  intros Hin Hn (l&Hi&[Ho Hl]%list_elem_of_filter)%list_elem_of_fmap.
  unfold other_link in Ho. rewrite negb_true_iff, bool_decide_eq_false in Ho. apply Ho. rewrite <-Hn. f_equal.
  by apply (same_index k).
Qed.

Lemma tunnelUp_others s r s' : plumbable t → tunnelUp t s = (r, s') → others (other_indices (sees s)) (sees s) (sees s').
Proof.
  intros Hok [(?&E&->)|(cfg&s1&E1&E)]%M_bind_inv; [revert E; apply keeps_wgConfig; apply _|].
  assert (same (sees s) (sees s1)) as Hs by (revert E1; apply keeps_wgConfig; apply _).
  eapply frame_trans; [by apply frame_same|].
  assert (∀ ids v w, link_frame v w → others ids v w) as Hlf by (intros ids v w; by apply agree_weaken).
  apply M_bind_inv in E as [(?&E&->)|(link&s2&E2&E)]; [by apply ensureOwnedLink_linked in E as [? _]; auto|].
  apply ensureOwnedLink_linked in E2 as [Hf Hl]. destruct (Hl link eq_refl) as [Hin Hn].
  eapply frame_trans; [by apply Hlf|]. eapply up_frame_others; [done..| |by eapply keeps_ids_configure_link|by eapply keeps_configure_link].
  rewrite (other_indices_frame _ (sees s2)); [by apply (own_index_not_other s2.1)|].
  etrans; [|apply Hf]. destruct Hs as (Hls&_). by rewrite Hls.
Qed.

Lemma tunnelUp_refuses s r s' l :
  l ∈ v_links (sees s) → l_Name l = t_Name t → ownedLinkMode l t = None →
  t_AdoptExisting t = false ∨ l_Alias l ≠ "" → tunnelUp t s = (r, s') →
  (∃ e, r = Err e) ∧ same (sees s) (sees s').
Proof.
  intros Hin Hn Hm Had [(?&E&->)|(cfg&s1&E1&E)]%M_bind_inv; [split; [eauto|]; revert E; apply keeps_wgConfig; apply _|].
  assert (same (sees s) (sees s1)) as Hs by (revert E1; apply keeps_wgConfig; apply _).
  assert (l ∈ v_links (sees s1)) as Hin1 by (by destruct Hs as (Hl&_); rewrite <-Hl).
  apply M_bind_inv in E as [(?&E&->)|(link&s2&E2&E)].
  - apply (ensureOwnedLink_refuses s1 _ s' l) in E as [_ ?]; [|done..]. split; [eauto|by etrans].
  - by apply (ensureOwnedLink_refuses s1 _ s2 l) in E2 as [[e ?] _].
Qed.

(** The link of index [i] is the tunnel's, marked as the daemon's with [alias]. *)
Definition marked (i : Z) (alias : string) (v : view) (l : Link) : Prop :=
  l ∈ v_links v ∧ l_Index l = i ∧ l_Name l = t_Name t ∧ l_Alias l = alias.
Definition addressed (i : Z) (v : view) : Prop :=
  ∃ d a, netlink_ParseAddr (t_Address t) = Some d ∧ a ∈ v_addrs v ∧ la_Index a = i ∧ has_address d a = true.

(** The tunnel is up: its link is the daemon's, up, of the configured MTU, has
    the configured address, and the plumbing is in place. *)
Definition tunnel_is_up (v : view) : Prop := ∃ link,
  link ∈ v_links v ∧ l_Name link = t_Name t ∧ is_Some (ownedLinkMode link t) ∧
  l_Up link = true ∧ l_MTU link = t_MTU t ∧ addressed (l_Index link) v ∧ plumbed link t v.

Lemma relinked_marked i alias f s s' l :
  relinked i f (sees s) (sees s') → marked i alias (sees s) l → f l ∈ v_links (sees s').
Proof.
  intros (cur&rest&Hi&Hv&Hw) (Hl&Hli&_). rewrite Hw. replace cur with l; [by left|].
  apply (same_index s.1); [done|rewrite Hv; by left|congruence].
Qed.

Lemma find_address_true d found addresses :
  find_address d found addresses = Some true → found = true ∨ ∃ a, a ∈ addresses ∧ has_address d a = true.
Proof.
  revert found. induction addresses as [|a l IH]; intros found; cbn [find_address]; [intros [= ->]; by left|].
  destruct (has_address d a) eqn:Ha; [intros _; right; exists a; split; [by left|done]|].
  destruct (match la_Net a with Some _ => _ | None => _ end); [done|].
  intros [?|(a'&?&?)]%IH; [by left|right]. exists a'. split; [by right|done].
Qed.

Lemma reconcileAddress_Ok link s s' : reconcileAddress link t s = (Ok tt, s') →
  v_links (sees s) ≡ₚ v_links (sees s') ∧ addressed (l_Index link) (sees s').
Proof.
  intros [(?&_&?)|(d&s1&E1&E)]%M_bind_inv; [done|].
  destruct (netlink_ParseAddr (t_Address t)) as [d'|] eqn:Hd; [|done]. injection E1 as -> ->.
  apply M_bind_inv in E as [(?&_&?)|(addresses&s2&[_ E2]%lift_inv&E)]; [done|].
  apply (effect_call _ _ (AddrList_law _ _)) in E2 as [Hs Hp]. change (see ?s.1) with (sees s) in *.
  apply M_bind_inv in E as [(?&_&?)|(found&s3&E3&E)]; [done|].
  destruct (find_address d false addresses) as [b|] eqn:Hf; [|done]. injection E3 as -> ->. destruct found.
  - injection E as ->. split; [apply Hs|]. apply find_address_true in Hf as [?|(a&Ha&Hh)]; [done|].
    exists d, a. rewrite Hp in Ha. apply list_elem_of_filter in Ha as [[Hi _] Ha].
    split_and!; [done| |done..]. destruct Hs as (_&Hs&_). by rewrite <-Hs.
  - apply lift_inv in E as [_ E]. apply (effect_call _ _ (AddrAdd_law _ _)) in E as (a&net&gen&Hi&_&Hn&Hnet&Ha&Hl&_).
    change (see ?s.1) with (sees s) in *. split; [etrans; [apply Hs|done]|]. exists d, a.
    split_and!; [done|rewrite Ha; by left|done|by eapply has_address_reported].
Qed.

Lemma desired_routes_index l l' name cidrs :
  l_Index l = l_Index l' → desired_routes l name cidrs = desired_routes l' name cidrs.
Proof.
  intros Hi. induction cidrs as [|c cidrs IH]; cbn [desired_routes]; [done|].
  rewrite IH. unfold owned_to. by rewrite Hi.
Qed.
Lemma plumbed_index l l' v : l_Index l = l_Index l' → plumbed l t v → plumbed l' t v.
Proof.
  intros Hi (Hu&Hd&desired&Hr&Hm). unfold plumbed. rewrite <-(desired_routes_index l l') by done.
  unfold routed, own_in, in_set, route_filter, owned_to in *. rewrite <-Hi. eauto.
Qed.

Lemma ownedLinkMode_alias l l' : l_Alias l = l_Alias l' → ownedLinkMode l t = ownedLinkMode l' t.
Proof. unfold ownedLinkMode. by intros ->. Qed.

(** The end of [configure_link], from the link brought up. *)
Lemma finish_up link l s s' : plumbable t → is_Some (ownedLinkMode link t) →
  marked (l_Index link) (l_Alias link) (sees s) l → l_MTU l = t_MTU t → addressed (l_Index link) (sees s) →
  (lift (t_Name t) "link up" (LinkSetUp link) ≫= λ _,
   requireSysctl "net/ipv4/conf/all/src_valid_mark" "1" ≫= λ _, reconcilePlumbing link t) s = (Ok tt, s') →
  tunnel_is_up (sees s').
Proof.
  intros Hok Hm Hl Hmtu (d&a&Hd&Ha&Hai&Hh) [(?&_&?)|([]&s1&[_ E1]%lift_inv&E)]%M_bind_inv; [done|].
  apply (effect_call _ _ (LinkSetUp_law _)) in E1 as (gen&Hr&Ha1&_). change (see ?s.1) with (sees s) in *.
  apply (relinked_marked _ (l_Alias link) _ s s1 l) in Hr; [|done]. destruct Hl as (_&Hi&Hn&Hal).
  apply M_bind_inv in E as [(?&_&?)|([]&s2&E2&E)]; [done|].
  assert (same (sees s1) (sees s2)) as (Hl2&Ha2&_) by (eapply keeps_run; [exact E2|keep]).
  apply reconcilePlumbing_effect in E as [(Hl3&Ha3&_) Hp]; [|done]. rewrite !pick_every in Hl3. rewrite !pick_every in Ha3.
  exists (set_up l). split_and!; [by rewrite <-Hl3, <-Hl2|done| |done..| |].
  - by rewrite (ownedLinkMode_alias _ link).
  - exists d, a. split_and!; [done|by rewrite <-Ha3, <-Ha2, <-Ha1|by rewrite Hai|done].
  - apply (plumbed_index link); [done|by apply Hp].
Qed.

Lemma configure_link_up cfg link s s' : plumbable t → link ∈ v_links (sees s) → l_Name link = t_Name t →
  configure_link t cfg link s = (Ok tt, s') → tunnel_is_up (sees s').
Proof.
  intros Hok Hin Hn [(?&_&?)|(mode&s1&E1&E)]%M_bind_inv; [done|]. revert E1. unfold owned_mode.
  destruct (ownedLinkMode link t) as [m|] eqn:Hm; [|done]. intros [= -> <-]. cbv zeta in E.
  apply M_bind_inv in E as [(?&_&?)|([]&s2&E2&E)]; [done|].
  assert (same (sees s) (sees s2)) as (Hl2&_) by (eapply keeps_run; [exact E2|keep]).
  assert (marked (l_Index link) (l_Alias link) (sees s2) link) as Hm2 by (split_and!; [by rewrite <-Hl2|done..]).
  apply M_bind_inv in E as [(?&_&?)|([]&s3&E3&E)]; [done|].
  assert (∃ l3, marked (l_Index link) (l_Alias link) (sees s3) l3 ∧ l_MTU l3 = t_MTU t) as (l3&Hl3&Hmtu).
  { destruct (Z.eqb_spec (l_MTU link) (t_MTU t)); cbn [negb] in E3; [injection E3 as <-; eauto|].
    apply lift_inv in E3 as [_ E3]. apply (effect_call _ _ (LinkSetMTU_law _ _)) in E3 as (?&?&Hr&_).
    exists (set_mtu link (t_MTU t)). split; [|done]. split_and!; [|by apply Hm2..].
    by apply (relinked_marked _ (l_Alias link) _ s2 s3 link Hr). }
  apply M_bind_inv in E as [(?&_&?)|([]&s4&[Hl4 Ha4]%reconcileAddress_Ok&E)]; [done|].
  apply M_bind_inv in E as [(?&_&?)|([]&s5&E5&E)]; [done|].
  assert (same (sees s4) (sees s5)) as (Hl5&Ha5&_) by (eapply keeps_run; [exact E5|keep]).
  destruct Hl3 as (Hin3&Hl3). apply (finish_up link l3) in E; [done..|by rewrite Hm| | |].
  - split; [by rewrite <-Hl5, <-Hl4|done].
  - done.
  - destruct Ha4 as (d&a&?&?&?). exists d, a. by rewrite <-Ha5.
Qed.

Lemma tunnelUp_is_up s s' : plumbable t → tunnelUp t s = (Ok tt, s') → tunnel_is_up (sees s').
Proof.
  intros Hok [(?&_&?)|(cfg&s1&_&E)]%M_bind_inv; [done|].
  apply M_bind_inv in E as [(?&_&?)|(link&s2&E2&E)]; [done|].
  apply ensureOwnedLink_linked in E2 as [_ Hl]. destruct (Hl link eq_refl). by eapply configure_link_up.
Qed.

(** C20: at whatever call it fails, bringing a tunnel up leaves every link of
    another name with all its addresses and routes, every other IPv4 address but
    the tunnel's own, every other IPv4 route that neither the daemon nor the kernel
    made, and every rule but its own as they were.  A link of the tunnel's name
    that is not marked as the daemon's is refused with nothing changed, unless
    adoption is configured and the link has no alias. *)
Theorem tunnelUp_safe s r s' :
  plumbable t → tunnelUp t s = (r, s') →
  others (other_indices (sees s)) (sees s) (sees s') ∧
  ∀ l, l ∈ v_links (sees s) → l_Name l = t_Name t → ownedLinkMode l t = None →
    t_AdoptExisting t = false ∨ l_Alias l ≠ "" → (∃ e, r = Err e) ∧ same (sees s) (sees s').
Proof. intros Hok E. split; [by eapply tunnelUp_others|]. intros l ????. by apply (tunnelUp_refuses s r s' l). Qed.

(** C21: when it succeeds the tunnel is up: a link of its name is marked as the
    daemon's, is up and has the configured MTU and address; its rule is the only
    one at its priority; and the daemon's routes on it are the configured ones. *)
Theorem tunnelUp_up s s' : plumbable t → tunnelUp t s = (Ok tt, s') → tunnel_is_up (sees s').
Proof. apply tunnelUp_is_up. Qed.
End up.

(** ** tunnelDown *)
Section down.
Context {K : Type} `{NetlinkLaws K} `{WgKeys}.
Context (t : Tunnel).

(** A route that the kernel did not make and that does not go when an address goes:
    it prefers no source, has an output link, and if that is the link [i] it is an
    IPv6 one. *)
Definition lasting_route (i : Z) (r : Route) : bool :=
  negb (r_Protocol r =? 2)%Z && bool_decide (r_Src r = None) && negb (r_LinkIndex r =? 0)%Z &&
  (r_V6 r || negb (r_LinkIndex r =? i)%Z).
Definition other_addr (i : Z) (a : LinkAddr) : bool := negb (la_Index a =? i)%Z.
Definition down_frame (i : Z) : view → view → Prop := agree (other_link t) (other_addr i) (lasting_route i) every.
#[export] Instance down_frame_frame i : Frame (down_frame i).
Proof. apply _. Qed.
Definition is_mark_rule (r : Rule) : bool := ruleEqual r (markRule t).
Definition rule_gone : view → view → Prop := agree every every every (λ r, negb (is_mark_rule r)).
#[export] Instance rule_gone_frame : Frame rule_gone.
Proof. apply _. Qed.

Lemma each_RouteDel_spec tunnel what (p : Route → bool) rest l s s' :
  v_routes (sees s) ≡ₚ rest ++ l →
  each (λ r, if p r then lift_noent tunnel what (RouteDel r) else mret ()) l s = (Ok tt, s') →
  v_routes (sees s') ≡ₚ rest ++ pick (λ r, negb (p r)) l.
Proof.
  revert rest s. induction l as [|r l IH]; intros rest s Hv; simpl.
  { intros [= <-]. done. }
  intros [(?&_&?)|([]&s1&E&E')]%M_bind_inv; [done|]. destruct (p r) eqn:Ep.
  - rewrite filter_cons_False by (by rewrite Ep). apply (IH rest s1); [|done].
    apply lift_noent_inv in E as [_ [Hd|Hd]].
    + apply (effect_call _ _ (RouteDel_law r)) in Hd as (Hd&_). apply (Permutation_cons_inv (a:=r)).
      rewrite <-Hd. change (see s.1) with (sees s). rewrite Hv. solve_Permutation.
    + apply (missing_call _ _ (RouteDel_missing r)) in Hd. destruct Hd. change (see s.1) with (sees s).
      rewrite Hv, elem_of_app. right. by left.
  - rewrite filter_cons_True by (by rewrite Ep). injection E as ->. rewrite cons_middle, (assoc_L (++)).
    apply (IH (rest ++ [r]) s1); [|done]. rewrite Hv. by rewrite <-(assoc_L (++)).
Qed.

Lemma deleteOwnedRule_spec s r s' : deleteOwnedRule t s = (r, s') →
  rule_gone (sees s) (sees s') ∧ (r = Ok tt → pick is_mark_rule (v_rules (sees s')) = []).
Proof.
  intros [(?&E&->)|(rules&s1&[_ E1]%lift_inv&E)]%M_bind_inv; [split; [eapply keeps_run; [exact E|keep]|done]|].
  apply (effect_call _ _ RuleList_law) in E1 as [Hs Hp]. change (see ?s.1) with (sees s) in *. split.
  - eapply frame_trans; [by apply frame_same|]. eapply keeps_run; [exact E|]. apply keeps_each; [apply _|].
    intros x _. destruct (ruleEqual x _) eqn:Ex; [|keep]. apply keeps_lift_noent; [apply _|]. apply keeps_RuleDel.
    unfold is_mark_rule. by rewrite Ex.
  - intros ->. apply (each_RuleDel_spec _ _ is_mark_rule []) in E.
    2:{ rewrite Hp. symmetry. apply Hs. }
    apply pick_none, Forall_forall. intros x Hx. rewrite E in Hx. by apply list_elem_of_filter in Hx as [?%negb_true_iff _].
Qed.

Lemma deleteOwnedRoutes_spec link s r s' : deleteOwnedRoutes link t s = (r, s') →
  agree every every (λ r, negb (own_on link r)) every (sees s) (sees s') ∧
  (r = Ok tt → pick (own_on link) (v_routes (sees s')) = []).
Proof.
  intros [(?&E&->)|(routes&s1&[_ E1]%lift_inv&E)]%M_bind_inv.
  { split; [eapply keeps_run; [exact E|unfold listAllRoutesOnLink; keep]|done]. }
  apply (effect_call _ _ (RouteListFiltered_law _)) in E1 as [Hs Hp]. change (see ?s.1) with (sees s) in *.
  assert (∀ x, filter_matches {| f_All := false; f_Link := Some (l_Index link); f_Table := 0; f_Protocol := None |} x && owned_route x = own_on link x) as Hown.
  { intros x. unfold filter_matches, own_on. cbn. by rewrite !andb_true_r. }
  assert (∀ x, x ∈ routes → owned_route x = true → own_on link x = true) as Hlisted.
  { intros x Hx Ho. rewrite Hp in Hx. apply list_elem_of_filter in Hx as [Hx _]. by rewrite <-Hown, Hx, Ho. }
  split.
  - eapply frame_trans; [by apply frame_same|]. eapply keeps_run; [exact E|].
    apply keeps_bind; [apply _| |intros ?; keep]. apply keeps_collect; [apply _|].
    intros x Hx. destruct (owned_route x) eqn:Ex; [|keep]. apply keeps_lift_noent; [apply _|]. apply keeps_RouteDel.
    by rewrite Hlisted.
  - intros ->. apply M_bind_inv in E as [(?&_&?)|(errs&s2&E2&E)]; [done|].
    apply join_inv in E as [-> Hj]. rewrite (proj1 Hj eq_refl) in E2. apply collect_clean in E2.
    set (f := {| f_All := false; f_Link := Some (l_Index link); f_Table := 0; f_Protocol := None |}) in *.
    apply (each_RouteDel_spec _ _ owned_route (filter (λ r, ¬ filter_matches f r = true) (v_routes (sees s1)))) in E2.
    2:{ rewrite Hp. destruct Hs as (_&_&Hs&_). rewrite Hs. rewrite (comm (++)). symmetry. apply filter_app_complement. }
    apply pick_none, Forall_forall. intros x Hx. rewrite E2 in Hx. rewrite <-Hown.
    apply elem_of_app in Hx as [Hx|Hx]; apply list_elem_of_filter in Hx as [Hx _].
    + apply not_true_is_false in Hx. by rewrite Hx.
    + apply negb_true_iff in Hx. rewrite Hx. apply andb_false_r.
Qed.

(** No IPv4 route of the daemon's appears, and the links stay. *)
Definition shrinks (v w : view) : Prop := v_links v ≡ₚ v_links w ∧
  ∀ r, r ∈ v_routes w → owned_route r = true → r_V6 r = false → r ∈ v_routes v.
#[export] Instance shrinks_frame : Frame shrinks.
Proof.
  split.
  - intros v w (Hl&_&Hr&_). split; [done|]. intros x Hx. by rewrite Hr.
  - intros u v w [? Huv] [? Hvw]. split; [by etrans|]. auto.
Qed.
Lemma keeps_shrinks_AddrDel link net : keeps_call shrinks (AddrDel link net).
Proof.
  eapply keeps_effect; [apply _|apply AddrDel_law|]. intros v _ w (gone&lost&gen&_&_&_&Hl&_&Hr&_&Hgen). split; [done|].
  intros x Hx Ho H4. assert (x ∈ gen ++ v_routes v) as [Hg|?]%elem_of_app; [by rewrite Hr, elem_of_app; right| |done].
  rewrite Forall_forall in Hgen. apply Hgen in Hg as [[Hk _]|(_&?&_)]; [|congruence]. unfold owned_route in Ho. by rewrite Hk in Ho.
Qed.
Lemma keeps_down_AddrDel link net : Is4 (Unmap (n_ip net)) = true → keeps_call (down_frame (l_Index link)) (AddrDel link net).
Proof.
  intros H4. apply keeps_AddrDel; [done|..].
  - intros a Ha. unfold other_addr. by rewrite Ha, Z.eqb_refl.
  - intros r. unfold lasting_route, kernel_route. intros [->|[[x ->]|[-> [->| ->]]]]; [done|..].
    + rewrite bool_decide_false by done. by rewrite andb_false_r.
    + by rewrite Z.eqb_refl, andb_false_r.
    + by rewrite andb_false_r.
Qed.
Hint Resolve keeps_shrinks_AddrDel : keeps.
Lemma link_frame_down i v w : link_frame t v w → down_frame i v w.
Proof. by apply agree_weaken. Qed.
Lemma shrinks_clean (link : Link) v w : shrinks v w → pick (own_on link) (v_routes v) = [] → pick (own_on link) (v_routes w) = [].
Proof.
  intros [_ Hr] Hv. apply pick_none, Forall_forall. intros x Hx. apply not_true_is_false. intros Ho.
  apply (elem_of_nil x). rewrite <-Hv. apply list_elem_of_filter. split; [done|]. revert Ho. unfold own_on.
  rewrite !andb_true_iff, negb_true_iff. intros [[??] ?]. auto.
Qed.

(** The link gives up its mark and has no route of the daemon's. *)
Definition released (link : Link) (v : view) : Prop :=
  (∃ l, l ∈ v_links v ∧ l_Index l = l_Index link ∧ l_Name l = t_Name t ∧ l_Alias l = "") ∧
  pick (own_on link) (v_routes v) = [].

Lemma adopted_down_spec link cleanup address addresses s r s' :
  link ∈ v_links (sees s) → l_Name link = t_Name t →
  (∀ a l, addresses = Ok l → containsAddress l a = true → Is4 (Unmap (n_ip a)) = true) →
  adopted_down link t cleanup address addresses s = (r, s') →
  down_frame (l_Index link) (sees s) (sees s') ∧ same_ids (sees s) (sees s') ∧
  (r = Ok tt → cleanup = [] ∧ (pick (own_on link) (v_routes (sees s)) = [] → released link (sees s'))).
Proof.
  intros Hin Hn H4. unfold adopted_down. intros [(?&E&->)|(r1&s1&E1&E)]%M_bind_inv.
  { destruct address, addresses as [l|]; try destruct (containsAddress l _); try done. by apply attempt_inv in E as (?&?&_). }
  assert (down_frame (l_Index link) (sees s) (sees s1)) as Hd1.
  { destruct address as [a|], addresses as [l|]; try (eapply keeps_run; [exact E1|keep]; fail).
    specialize (H4 a l eq_refl). destruct (containsAddress l a); [|eapply keeps_run; [exact E1|keep]].
    apply attempt_inv in E1 as (?&_&E1). eapply keeps_run; [exact E1|]. apply keeps_lift_noent; [apply _|]. by apply keeps_down_AddrDel, H4. }
  assert (shrinks (sees s) (sees s1)) as Hs1 by (eapply keeps_run; [exact E1|keep]).
  assert (same_ids (sees s) (sees s1)) as Hi1 by (apply links_ids, Hs1).
  cbv zeta in E. destruct (cleanup ++ errors_of r1) as [|e es] eqn:Hc.
  2:{ apply join_inv in E as [-> Hj]. split_and!; [done..|]. by intros ?%Hj. }
  apply app_nil in Hc as [-> _]. apply lift_inv in E as [_ E]. destruct r as [[]|].
  2:{ destruct E as [? E]. assert (same (sees s1) (sees s')) as Hs by apply (LinkSetAlias_law _ _ _ _ _ E).
      split_and!; [by eapply frame_trans; [|apply frame_same]|by eapply frame_trans; [|apply frame_same]|done]. }
  assert (link ∈ v_links (sees s1)) as Hin1 by (destruct Hs1 as [Hl _]; by rewrite <-Hl).
  destruct (alias_frame t link "" s1.1 s'.1 Hin1 Hn E) as [Hf _].
  apply (effect_call _ _ (LinkSetAlias_law _ _)) in E as (Hr&_&Hro&_). change (see ?s.1) with (sees s) in *. split_and!.
  - eapply frame_trans; [done|by apply link_frame_down].
  - eapply frame_trans; [done|]. by refine (relinked_ids _ _ _ _ _ Hr).
  - intros _. split; [done|]. intros Hclean. split.
    + exists (set_alias link ""). split_and!; [|done..]. by apply (relinked_marked t _ (l_Alias link) _ s1 s' link Hr).
    + apply Permutation_nil_r. rewrite <-Hro. apply Permutation_nil_r. by eapply shrinks_clean.
Qed.

Lemma generated_not_lasting i address r :
  addressGeneratedRoute r address || linkGeneratedRoute r = true → lasting_route i r = false.
Proof.
  intros Hg. assert (r_Protocol r = 2%Z) as Hp; [|unfold lasting_route; by rewrite Hp].
  revert Hg. unfold addressGeneratedRoute, linkGeneratedRoute. destruct address as [a|], (r_Dst r) as [d|].
  all: destruct (Z.eqb_spec (r_Protocol r) 2); [done|]; rewrite ?andb_false_l; done.
Qed.

(** Deleting the link when only generated routes are on it. *)
Lemma LinkDel_down link address k k' :
  link ∈ v_links (see k) → l_Name link = t_Name t →
  (∀ r, r ∈ v_routes (see k) → r_LinkIndex r = l_Index link → addressGeneratedRoute r address || linkGeneratedRoute r = true) →
  LinkDel (t_Name t) k = (Ok tt, k') → down_frame (l_Index link) (see k) (see k') ∧ t_Name t ∉ l_Name <$> v_links (see k').
Proof.
  intros Hin Hn Hgen E. apply (effect_call _ _ (LinkDel_law _)) in E as (l&lost&Hln&Hl&Hu&Ha&Hr&Hlost).
  assert (l = link) as -> by (apply (same_name k); [rewrite Hl; by left|done|congruence]). split.
  - split_and!; [..|by rewrite Hu].
    + rewrite Hl, filter_cons_False; [done|]. unfold other_link. by rewrite bool_decide_true.
    + rewrite <-Ha, list_filter_filter_l; [done|]. unfold other_addr. intros a ?%negb_true_iff%Z.eqb_neq. done.
    + trans (pick (lasting_route (l_Index link)) (filter (λ r, r_LinkIndex r ≠ l_Index link) (v_routes (see k)))).
      * rewrite list_filter_filter. apply Permutation_refl', filter_ext_in.
        intros r Hrin. split; [|tauto]. intros Hlast. split; [done|]. intros Hi.
        rewrite (generated_not_lasting _ address) in Hlast; [done|by apply Hgen].
      * eapply pick_drops; [|exact Hr]. eapply Forall_impl; [exact Hlost|]. intros r. unfold lasting_route, kernel_route.
        intros [[[x ->] _]|[-> _]]; [rewrite bool_decide_false by done|]; by rewrite ?andb_false_r.
  - destruct (links_distinct k) as [Hnd _]. rewrite Hl, fmap_cons, NoDup_cons, Hn in Hnd. apply Hnd.
Qed.

Lemma created_down_spec link cleanup address addresses s r s' :
  link ∈ v_links (sees s) → l_Name link = t_Name t → created_down link t cleanup address addresses s = (r, s') →
  down_frame (l_Index link) (sees s) (sees s') ∧
  (r = Ok tt → cleanup = [] ∧ t_Name t ∉ l_Name <$> v_links (sees s')).
Proof.
  intros Hin Hn. unfold created_down. cbv zeta.
  intros [(?&(?&[=]&_)%attempt_inv&_)|(rr&s1&(r1&[= ->]&E1)%attempt_inv&E)]%M_bind_inv.
  assert (same (sees s) (sees s1)) as Hs by (eapply keeps_run; [exact E1|unfold listAllRoutesOnLink; keep]).
  destruct ((cleanup ++ _) ++ _) as [|e es] eqn:Hc.
  2:{ apply join_inv in E as [-> Hj]. split; [by apply frame_same|]. by intros ?%Hj. }
  apply app_nil in Hc as [[-> _]%app_nil Hroutes]. destruct r1 as [routes|]; [|done].
  destruct (forallb _ routes) eqn:Hall; [|done]. apply lift_inv in E1 as [_ E1].
  apply (effect_call _ _ (RouteListFiltered_law _)) in E1 as [_ Hp]. change (see ?s.1) with (sees s) in *.
  assert (link ∈ v_links (sees s1)) as Hin1 by (destruct Hs as (Hl&_); by rewrite <-Hl).
  assert (∀ x, x ∈ v_routes (sees s1) → r_LinkIndex x = l_Index link → addressGeneratedRoute x address || linkGeneratedRoute x = true) as Hgen.
  { intros x Hx Hi. rewrite forallb_forall in Hall. apply Hall, list_elem_of_In. rewrite Hp. apply list_elem_of_filter.
    split; [unfold filter_matches; cbn; by rewrite Hi, Z.eqb_refl|]. destruct Hs as (_&_&Hr&_). by rewrite Hr. }
  apply lift_noent_inv in E as [_ E]. destruct r as [[]|].
  - destruct E as [E|E].
    + apply (LinkDel_down link address) in E as [Hf ?]; [|done..].
      split; [eapply frame_trans; [by apply frame_same|exact Hf]|done].
    + pose proof (missing_call _ _ (LinkDel_missing _) _ _ E) as Hmiss.
      destruct Hmiss. rewrite <-Hn. by apply list_elem_of_fmap_2.
  - destruct E as [? E]. split; [|done]. eapply frame_trans; [by apply frame_same|].
    apply frame_same, (LinkDel_law _ _ _ _ E).
Qed.

Lemma own_on_down link v w : agree every every (λ r, negb (own_on link r)) every v w → down_frame (l_Index link) v w.
Proof.
  apply agree_weaken; try done. intros r. unfold lasting_route, own_on.
  by destruct (r_V6 r), (r_LinkIndex r =? l_Index link)%Z; rewrite ?andb_false_r.
Qed.

Lemma owned_down_spec link mode cleanup s r s' :
  link ∈ v_links (sees s) → l_Name link = t_Name t → owned_down link t mode cleanup s = (r, s') →
  down_frame (l_Index link) (sees s) (sees s') ∧
  (mode = linkModeAdopted → same_ids (sees s) (sees s')) ∧
  (r = Ok tt → cleanup = [] ∧
     if bool_decide (mode = linkModeAdopted) then released link (sees s')
     else t_Name t ∉ l_Name <$> v_links (sees s')).
Proof.
  intros Hin Hn. unfold owned_down. cbv zeta.
  intros [(?&(?&[=]&_)%attempt_inv&_)|(rr&s1&(r1&[= ->]&E1)%attempt_inv&E)]%M_bind_inv.
  apply M_bind_inv in E as [(?&(?&[=]&_)%attempt_inv&_)|(ra&s2&(r2&[= ->]&E2)%attempt_inv&E)].
  apply deleteOwnedRoutes_spec in E1 as [Hf1 Hc1].
  assert (same (sees s1) (sees s2)) as Hs2 by (eapply keeps_run; [exact E2|keep]).
  assert (∀ a l, r2 = Ok l → containsAddress l a = true → Is4 (Unmap (n_ip a)) = true) as H4.
  { intros a l ->. by eapply listed_v4. }
  clear E2. assert (v_links (sees s) ≡ₚ v_links (sees s2)) as Hl2.
  { destruct Hf1 as (Hl&_), Hs2 as (Hl'&_). rewrite !pick_every in Hl. by rewrite Hl. }
  assert (down_frame (l_Index link) (sees s) (sees s2)) as Hd2.
  { eapply frame_trans; [by apply own_on_down|by apply frame_same]. }
  assert (link ∈ v_links (sees s2)) as Hin2 by (by rewrite <-Hl2). case_bool_decide as Hmode.
  - apply adopted_down_spec in E as (Hf&Hi&Hr); [|done..].
    split_and!; [by eapply frame_trans|intros _; eapply frame_trans; [by apply links_ids|done]|].
    intros Hok. destruct (Hr Hok) as [[-> [Hr1 _]%app_nil]%app_nil Hrel]. split; [done|]. apply Hrel.
    apply Permutation_nil_r. destruct Hs2 as (_&_&<-&_). apply Permutation_nil_r, Hc1. by destruct r1 as [[]|].
  - apply created_down_spec in E as [Hf Hr]; [|done..].
    split_and!; [by eapply frame_trans|done|]. intros Hok. destruct (Hr Hok) as [[-> _]%app_nil ?]. done.
Qed.

(** What [tunnelDown] is about in a state: the indices of links of its name. *)
Definition own_indices (v : view) : list Z := l_Index <$> filter (λ l, l_Name l = t_Name t) (v_links v).
Definition lasting_off (ids : list Z) (r : Route) : bool :=
  negb (r_Protocol r =? 2)%Z && bool_decide (r_Src r = None) && negb (r_LinkIndex r =? 0)%Z &&
  (r_V6 r || negb (bool_decide (r_LinkIndex r ∈ ids))).
Definition down_others (v w : view) : Prop :=
  agree (other_link t) (λ a, negb (bool_decide (la_Index a ∈ own_indices v))) (lasting_off (own_indices v))
    (λ r, negb (is_mark_rule r)) v w.

Lemma down_frame_others link v w :
  l_Index link ∈ own_indices v → down_frame (l_Index link) v w → down_others v w.
Proof.
  intros Hin. assert (∀ i, negb (bool_decide (i ∈ own_indices v)) = true → negb (i =? l_Index link)%Z = true) as Hne.
  { intros i. rewrite !negb_true_iff, bool_decide_eq_false. intros Hni. apply Z.eqb_neq. intros Heq. apply Hni. by rewrite Heq. }
  apply agree_weaken; try done; [intros a; apply Hne|]. intros r. unfold lasting_off, lasting_route.
  rewrite !andb_true_iff, !orb_true_iff. intros [? [?|?%Hne]]; auto.
Qed.
Lemma own_indices_perm v w : v_links v ≡ₚ v_links w → own_indices v ≡ₚ own_indices w.
Proof. intros Hl. unfold own_indices. by rewrite Hl. Qed.
Lemma down_others_trans u v w : v_links u ≡ₚ v_links v → down_others u v → down_others v w → down_others u w.
Proof.
  intros Hl (?&Ha&Hr&?) (?&Ha'&Hr'&?).
  assert (∀ i, bool_decide (i ∈ own_indices u) = bool_decide (i ∈ own_indices v)) as Hids.
  { intros i. apply bool_decide_ext. by rewrite (own_indices_perm u v). }
  split_and!; [by etrans| | |by etrans]; (etrans; [done|]).
  - eapply pick_weaken; [|exact Ha']. intros a _. by rewrite Hids.
  - eapply pick_weaken; [|exact Hr']. intros r _. unfold lasting_off. by rewrite Hids.
Qed.

(** After the rule: either no link of the daemon's is known, or it is taken down. *)
Lemma tunnelDown_cases s r s' : tunnelDown t s = (r, s') → ∃ s1 rr,
  rule_gone (sees s) (sees s1) ∧ (rr = Ok tt → pick is_mark_rule (v_rules (sees s1)) = []) ∧
  (sees s1 = sees s' ∧ (∀ l, l ∈ v_links (sees s1) → l_Name l = t_Name t → ownedLinkMode l t = None ∨ r ≠ Ok tt) ∧
     (r = Ok tt → rr = Ok tt ∧ t_Name t ∉ l_Name <$> v_links (sees s')) ∨
   ∃ link mode, link ∈ v_links (sees s1) ∧ l_Name link = t_Name t ∧ ownedLinkMode link t = Some mode ∧
     owned_down link t mode (errors_of rr) s1 = (r, s')).
Proof.
  unfold tunnelDown. cbv zeta.
  intros [(?&(?&[=]&_)%attempt_inv&_)|(rr&s1&(r1&[= ->]&E1)%attempt_inv&E)]%M_bind_inv.
  apply M_bind_inv in E as [(?&(?&[=]&_)%attempt_inv&_)|(ro&s2&(o&[= ->]&E2)%attempt_inv&E)].
  apply deleteOwnedRule_spec in E1 as [Hf Hr].
  assert (same (sees s1) (sees s2)) as Hs by (eapply keeps_run; [exact E2|keep]).
  exists s2, r1. split; [eapply frame_trans; [done|by apply frame_same]|].
  split; [intros Hr1; apply Permutation_nil_r; destruct Hs as (_&_&_&<-); by apply Permutation_nil_r, Hr|].
  destruct o as [[link|]|e].
  - apply lookupLink_Ok in E2 as [_ [Hin Hn]]. destruct (ownedLinkMode link t) as [mode|] eqn:Hm; [right; eauto 6|left].
    apply join_inv in E as [-> Hj]. split; [done|].
    assert (r ≠ Ok tt) as Hno by (rewrite Hj; by destruct r1).
    split; [|done]. by right.
  - apply lookupLink_Ok in E2 as [_ Hn]. apply join_inv in E as [-> Hj]. left.
    destruct Hs as (Hl&_). rewrite Hl in Hn. split; [done|]. split.
    + intros l Hin Hln. destruct Hn. rewrite <-Hln. by apply list_elem_of_fmap_2.
    + intros He%Hj. split; [by destruct r1 as [[]|]|done].
  - apply join_inv in E as [-> Hj]. left. split; [done|].
    assert (r ≠ Ok tt) as Hno by (rewrite Hj; by destruct r1). split; [|done]. by right.
Qed.

Lemma rule_gone_links v w : rule_gone v w → v_links v ≡ₚ v_links w.
Proof. intros (Hl&_). by rewrite !pick_every in Hl. Qed.

Lemma tunnelDown_others s r s' : tunnelDown t s = (r, s') → down_others (sees s) (sees s').
Proof.
  intros (s1&rr&Hg&_&Hc)%tunnelDown_cases.
  assert (down_others (sees s) (sees s1)) as H1' by (revert Hg; by apply agree_weaken).
  destruct Hc as [(<-&_)|(link&mode&Hin&Hn&_&E)]; [done|]. apply owned_down_spec in E as (Hf&_); [|done..].
  apply rule_gone_links in Hg. eapply down_others_trans; [done..|]. apply (down_frame_others link); [|done].
  apply list_elem_of_fmap_2. by apply list_elem_of_filter.
Qed.

(** At whatever call it fails, taking a tunnel down leaves every link of another name
    and its addresses as they were; so it does the routes on such links, and the IPv6
    routes on the tunnel's own, unless the kernel made them or they prefer a source;
    and every rule but the tunnel's own.  A link of its name that is not marked as the
    daemon's is left alone with its addresses and routes; an adopted one keeps its
    place. *)
Theorem tunnelDown_safe s r s' :
  tunnelDown t s = (r, s') →
  down_others (sees s) (sees s') ∧
  ∀ l, l ∈ v_links (sees s) → l_Name l = t_Name t →
    (ownedLinkMode l t = None → rule_gone (sees s) (sees s')) ∧
    (ownedLinkMode l t = Some linkModeAdopted → same_ids (sees s) (sees s')).
Proof.
  intros E. split; [by eapply tunnelDown_others|]. intros l Hl Hn.
  apply tunnelDown_cases in E as (s1&rr&Hg&_&Hc). pose proof (rule_gone_links _ _ Hg) as Hlinks.
  destruct Hc as [(<-&_)|(link&mode&Hin&Hln&Hm&E)]; [split; [done|intros _; by apply links_ids]|].
  rewrite Hlinks in Hl. assert (link = l) as -> by (apply (same_name s1.1); [done..|congruence]).
  split; [congruence|]. intros Ha. apply owned_down_spec in E as (_&Hids&_); [|done..].
  eapply frame_trans; [by apply links_ids|]. apply Hids. congruence.
Qed.

(** C22: when it succeeds the tunnel's rule is gone; a link the daemon created is
    gone; and an adopted one has lost its mark and every IPv4 route of the
    daemon's. *)
Theorem tunnelDown_clean s s' :
  tunnelDown t s = (Ok tt, s') →
  pick is_mark_rule (v_rules (sees s')) = [] ∧
  ∀ l, l ∈ v_links (sees s) → l_Name l = t_Name t →
    (ownedLinkMode l t = Some linkModeCreated → t_Name t ∉ l_Name <$> v_links (sees s')) ∧
    (ownedLinkMode l t = Some linkModeAdopted → released l (sees s')).
Proof.
  intros (s1&rr&Hg&Hr&Hc)%tunnelDown_cases. pose proof (rule_gone_links _ _ Hg) as Hlinks.
  destruct Hc as [(Hs&_&Hok)|(link&mode&Hin&Hln&Hm&E)].
  - destruct (Hok eq_refl) as [Hrr Hno]. rewrite <-Hs in *. split; [by apply Hr|]. intros l Hl Hn.
    destruct Hno. rewrite Hlinks in Hl. rewrite <-Hn. by apply list_elem_of_fmap_2.
  - apply owned_down_spec in E as ((_&_&_&Hu)&_&Hok); [|done..]. destruct (Hok eq_refl) as [Hrr Hdown]. split.
    + rewrite !pick_every in Hu. apply Permutation_nil_r. rewrite <-Hu. apply Permutation_nil_r, Hr. by destruct rr as [[]|].
    + intros l Hl Hn. rewrite Hlinks in Hl. assert (link = l) as -> by (apply (same_name s1.1); [done..|congruence]).
      split; intros Ha; rewrite Ha in Hm; injection Hm as <-; exact Hdown.
Qed.
End down.

(** ** Several tunnels *)
Section several.
Context {K : Type} `{NetlinkLaws K} `{WgKeys}.
Implicit Types t : Tunnel.

(** Tunnels that do not get into each other's way. *)
Definition apart t1 t2 : Prop := t_Name t1 ≠ t_Name t2 ∧ t_RulePriority t1 ≠ t_RulePriority t2.

Lemma pick_elem {A} (p : A → bool) l l' x : pick p l ≡ₚ pick p l' → p x = true → x ∈ l → x ∈ l'.
Proof.
  intros Hp Hx Hin. assert (x ∈ pick p l) as Hin' by (by apply list_elem_of_filter).
  rewrite Hp in Hin'. by apply list_elem_of_filter in Hin' as [_ ?].
Qed.

(** A tunnel stays up under everything that spares what is not [t2]'s. *)
Lemma tunnel_is_up_others t1 t2 v w :
  apart t1 t2 → others t2 (other_indices t2 v) v w → tunnel_is_up t1 v → tunnel_is_up t1 w.
Proof.
  intros [Hname Hprio] (Hl&Ha&Hr&Hu) (link&Hin&Hn&Hm&Hup&Hmtu&(d&a&Hd&Hain&Hai&Hh)&Hrule&Hdef&desired&Hdes&Hmain).
  assert (other_link t2 link = true) as Ho by (unfold other_link; rewrite Hn; by rewrite bool_decide_false).
  assert (l_Index link ∈ other_indices t2 v) as Hidx by (apply list_elem_of_fmap_2; by apply list_elem_of_filter).
  assert (∀ p : Route → bool, (∀ r, p r = true → r_LinkIndex r = l_Index link) → pick p (v_routes v) ≡ₚ pick p (v_routes w)) as Hon.
  { intros p Hp. eapply pick_weaken; [|exact Hr]. intros r _ Hpr. unfold spared_route. by rewrite (Hp r Hpr), bool_decide_true. }
  assert (∀ table relevant, pick (own_in link table relevant) (v_routes v) ≡ₚ pick (own_in link table relevant) (v_routes w)) as Hown.
  { intros table relevant. apply Hon. intros r. unfold own_in, in_set, filter_matches. cbn. rewrite !andb_true_iff, Z.eqb_eq. tauto. }
  exists link. split_and!; [by eapply pick_elem|done..| |].
  - exists d, a. split_and!; [done| |done..]. eapply pick_elem; [exact Ha| |done]. unfold spared_addr. by rewrite Hai, bool_decide_true.
  - destruct Hrule as (r&Hr'&Hone). split_and!.
    + exists r. split; [done|]. rewrite <-Hone. symmetry. eapply pick_weaken; [|exact Hu]. intros x _.
      unfold at_priority, own_rule. intros ->%Z.eqb_eq. rewrite (proj2 (Z.eqb_neq _ _)) by done. done.
    + unfold routed in *. by rewrite <-Hown.
    + exists desired. unfold routed in *. by rewrite <-Hown.
Qed.

Lemma tunnels_up_others ts t2 v w :
  Forall (λ t1, apart t1 t2) ts → others t2 (other_indices t2 v) v w →
  Forall (λ t1, tunnel_is_up t1 v) ts → Forall (λ t1, tunnel_is_up t1 w) ts.
Proof.
  intros Hap Ho. rewrite !Forall_forall. intros Hup t1 Ht1. eapply tunnel_is_up_others; [|done|by apply Hup].
  rewrite Forall_forall in Hap. by apply Hap.
Qed.

(** Bringing up one after the other brings up all. *)
Lemma NoDup_fmap_apart {A B} (f : A → B) l x l' y : NoDup (f <$> (l ++ [x]) ++ l') → y ∈ l → f y ≠ f x.
Proof.
  rewrite !fmap_app. intros (Hnd&_&_)%NoDup_app Hy. apply NoDup_app in Hnd as (_&Hnd&_).
  intros Heq. apply (Hnd (f y)); [by apply list_elem_of_fmap_2|]. rewrite Heq. by left.
Qed.
Lemma each_tunnelUp ts ups s s' :
  Forall plumbable ts → NoDup (t_Name <$> ups ++ ts) → NoDup (t_RulePriority <$> ups ++ ts) →
  Forall (λ t, tunnel_is_up t (sees s)) ups → each tunnelUp ts s = (Ok tt, s') →
  Forall (λ t, tunnel_is_up t (sees s')) (ups ++ ts).
Proof.
  revert ups s. induction ts as [|t ts IH]; intros ups s Hok Hnd Hndp Hup; cbn [each].
  { intros [= <-]. by rewrite app_nil_r. }
  intros [(?&_&?)|([]&s1&E1&E)]%M_bind_inv; [done|]. apply Forall_cons in Hok as [Ht Hok].
  rewrite cons_middle, (assoc_L (++)) in *. apply (IH (ups ++ [t]) s1); [done..| |done]. apply Forall_app. split.
  - eapply tunnels_up_others; [|by eapply tunnelUp_others|done]. apply Forall_forall. intros t1 Ht1.
    split; by eapply NoDup_fmap_apart.
  - apply Forall_singleton. by eapply tunnelUp_is_up.
Qed.
End several.

(** ** The example, up and down *)
Import (hints) Demo.
Lemma demo_up_run : tunnelUp Demo.tunnel (Demo.start, ∅) = (Ok tt, Demo.up.2).
Proof. apply injective_projections; [exact Demo.up_Ok|done]. Qed.
Lemma demo_down_run : tunnelDown Demo.tunnel Demo.up.2 = (Ok tt, Demo.down.2).
Proof. apply injective_projections; [exact Demo.down_Ok|done]. Qed.
(** The link the example made. *)
Definition demo_link : Link :=
  {| l_Name := "wg0"; l_Index := 3; l_Type := "wireguard"; l_MTU := 1420; l_Alias := "sakhtar-wg:v1:created:key.pub"; l_Up := true |}.
Lemma demo_link_up : demo_link ∈ v_links (sees Demo.up.2).
Proof. apply (bool_decide_eq_true_1 _). vm_compute. reflexivity. Qed.
(** A link of the tunnel's name that someone else made. *)
Definition foreign_wg0 : Link :=
  {| l_Name := "wg0"; l_Index := 7; l_Type := "wireguard"; l_MTU := 1420; l_Alias := ""; l_Up := true |}.
Definition taken : view := {| v_links := [foreign_wg0]; v_addrs := []; v_routes := []; v_rules := [] |}.

Lemma tunnelUp_safe_witness :
  others Demo.tunnel [2%Z] (sees (Demo.start, ∅)) (sees Demo.up.2) ∧
  ∃ e, (tunnelUp Demo.tunnel (taken, ∅)).1 = Err e.
Proof.
  split.
  - exact (proj1 (tunnelUp_safe Demo.tunnel (Demo.start, ∅) (Ok tt) Demo.up.2 demo_plumbable demo_up_run)).
  - refine (proj1 (proj2 (tunnelUp_safe Demo.tunnel (taken, ∅) _ _ demo_plumbable (surjective_pairing _)) foreign_wg0 _ _ _ _)).
    + left.
    + reflexivity.
    + reflexivity.
    + left. reflexivity.
Defined.

Lemma tunnelUp_up_witness : tunnel_is_up Demo.tunnel (sees Demo.up.2).
Proof. exact (tunnelUp_up Demo.tunnel (Demo.start, ∅) Demo.up.2 demo_plumbable demo_up_run). Defined.

Lemma tunnelDown_safe_witness : down_others Demo.tunnel (sees Demo.up.2) (sees Demo.down.2).
Proof. exact (proj1 (tunnelDown_safe Demo.tunnel Demo.up.2 (Ok tt) Demo.down.2 demo_down_run)). Defined.

Lemma tunnelDown_clean_witness :
  pick (is_mark_rule Demo.tunnel) (v_rules (sees Demo.down.2)) = [] ∧ "wg0" ∉ l_Name <$> v_links (sees Demo.down.2).
Proof.
  destruct (tunnelDown_clean Demo.tunnel Demo.up.2 Demo.down.2 demo_down_run) as [Hr Hl]. split; [exact Hr|].
  apply (Hl demo_link demo_link_up); reflexivity.
Defined.

(** Up and down again gives back what was there. *)
Example demo_roundtrip : sees Demo.down.2 = Demo.start.
Proof. vm_compute. reflexivity. Qed.
