(* ===== verification/Gateway.v ===== *)
(** * gateway.go: the owned firewall chains

    Inspecting, installing and removing the daemon's chains and the jumps to them,
    over the iptables programs.  Those and the kernel's tables are not part of the
    sources: [Iptables] is how they are run, [IptablesLaws] what they are documented
    to do. *)
From S2P Require Import Prelude Netip Firewall Config Startup Netlink Wg WgFrame.

(** ** Package strings *)

Definition quote : ascii := "034"%char.
(** [strings.Trim] of the double quotes around a string. *)
Fixpoint trim_left_quotes (s : string) : string :=
  match s with String c s' => if bool_decide (c = quote) then trim_left_quotes s' else s | EmptyString => EmptyString end.
Fixpoint trim_right_quotes (s : string) : string :=
  match s with
  | EmptyString => EmptyString
  | String c s => match trim_right_quotes s with
                  | EmptyString => if bool_decide (c = quote) then EmptyString else String c EmptyString
                  | s => String c s
                  end
  end.
Definition trim_quotes (s : string) : string := trim_right_quotes (trim_left_quotes s).

(** ** Running iptables *)

(** A program: whether it succeeded and its output. *)
Definition program (F : Type) : Type := F → (bool * string) * F.
Class Iptables (F : Type) := {
  iptables : list string → program F;
  iptables_restore : string → program F }.

Record chainInspection := { ci_Chain : Chain; ci_Exists : bool; ci_OwnedRules : nat; ci_OwnedJumps : nat }.

(** The state of the host: the kernel with the recorded sysctls, and the firewall. *)
Definition host (K F : Type) : Type := world K * F.

Section gateway.
Context {K F : Type} `{Netlink K} `{Iptables F} `{UnicodeTables}.

Definition on_kernel {A} (m : M (world K) A) : M (host K F) A := λ s,
  let '(r, w) := m s.1 in (r, (w, s.2)).
Definition run (p : program F) : M (host K F) (bool * string) := λ s,
  let '(r, f) := p s.2 in (Ok r, (s.1, f)).

Definition says_missing (output : string) : bool :=
  let message := to_lower output in
  str_contains "no chain/target/match" message || str_contains "does not exist" message.
Definition listChain (table chain : string) : M (host K F) (option string) :=
  '(ok, output) ← run (iptables ["-w"; "5"; "-t"; table; "-S"; chain]);
  if (ok : bool) then mret (Some output)
  else if says_missing output then mret None else refuse table chain.

Definition runRestore (input : string) : M (host K F) unit :=
  '(ok, _) ← run (iptables_restore input); if (ok : bool) then mret () else refuse "iptables-restore" "".
Definition runIPTables (args : list string) : M (host K F) unit :=
  '(ok, _) ← run (iptables ("-w" :: "5" :: args)); if (ok : bool) then mret () else refuse "iptables" (str_join " " args).
Definition deleteJump (chain : Chain) : M (host K F) unit :=
  runIPTables ["-t"; Table chain; "-D"; Hook chain; "-m"; "comment"; "--comment"; Comment chain; "-j"; Name chain].

(** ** Inspection *)
Fixpoint jumps_in (fs : list string) (chain : string) : bool :=
  match fs with
  | f :: ((g :: _) as rest) => bool_decide (f = "-j") && bool_decide (trim_quotes g = chain) || jumps_in rest chain
  | _ => false
  end.
Definition jumpsTo (rule chain : string) : bool := jumps_in (fields rule) chain.

(** The loop over the lines of a chain of the daemon's: how many rules it has,
    [None] if one of them is not owned. *)
Fixpoint count_owned (name : string) (n : nat) (lines : list string) : option nat :=
  match lines with
  | [] => Some n
  | line :: lines =>
      let line := trim_space line in
      if negb (has_prefix ("-A " +:+ name +:+ " ") line) then count_owned name n lines
      else if negb (RuleIsOwned line) then None else count_owned name (S n) lines
  end.
Definition has_comment (comment line : string) : bool :=
  str_contains ("--comment " +:+ comment) line ||
  str_contains ("--comment " +:+ String quote (comment +:+ String quote "")) line.
(** The loop over the lines of a hook: the jumps to the chain, [None] if one of
    them is foreign. *)
Fixpoint count_jumps (chain : Chain) (n : nat) (lines : list string) : option nat :=
  match lines with
  | [] => Some n
  | line :: lines =>
      let line := trim_space line in
      if negb (has_prefix ("-A " +:+ Hook chain +:+ " ") line) || negb (jumpsTo line (Name chain)) then count_jumps chain n lines
      else if negb (has_comment (Comment chain) line) then None else count_jumps chain (S n) lines
  end.

Definition inspect_chain (chain : Chain) : M (host K F) chainInspection :=
  chainOutput ← listChain (Table chain) (Name chain);
  ownedRules ← of_option (Table chain) "contains a rule without ownership proof"
    (match chainOutput with Some out => count_owned (Name chain) 0 (str_split "010" out) | None => Some 0 end);
  hookOutput ← listChain (Table chain) (Hook chain);
  ownedJumps ← of_option (Table chain) "has a foreign jump to reserved chain"
    (count_jumps chain 0 (str_split "010" (default "" hookOutput)));
  if bool_decide (is_Some chainOutput) && (ownedRules =? 0)%nat && (ownedJumps =? 0)%nat
  then refuse (Table chain) "already exists without ownership evidence"
  else mret {| ci_Chain := chain; ci_Exists := bool_decide (is_Some chainOutput); ci_OwnedRules := ownedRules;
               ci_OwnedJumps := ownedJumps |}.
Fixpoint inspect_chains (chains : list Chain) : M (host K F) (list chainInspection) :=
  match chains with
  | [] => mret []
  | c :: chains => i ← inspect_chain c; l ← inspect_chains chains; mret (i :: l)
  end.
Definition inspectFirewallOwnership (ruleset : Ruleset) : M (host K F) (list chainInspection) :=
  inspect_chains (Chains ruleset).

(** ** Installing and removing *)

(** [for duplicate := n; duplicate > 1; duplicate--] with its [break]. *)
Fixpoint repeat_delete (chain : Chain) (n : nat) : M (host K F) unit :=
  match n with O => mret () | S n => _ ← deleteJump chain; repeat_delete chain n end.

Definition install_jump (inspection : chainInspection) : M (host K F) unit :=
  let chain := ci_Chain inspection in
  match ci_OwnedJumps inspection with
  | O => runIPTables ["-t"; Table chain; "-I"; Hook chain; "1"; "-m"; "comment"; "--comment"; Comment chain; "-j"; Name chain]
  | S n => repeat_delete chain n
  end.
Definition installOwnedChains (ruleset : Ruleset) (inspections : list chainInspection) : M (host K F) unit :=
  _ ← runRestore (RestoreInput ruleset);
  applyErrors ← collect install_jump inspections;
  join applyErrors.

Definition removal_lines (i : chainInspection) : list string :=
  if ci_Exists i
  then ["*" +:+ Table (ci_Chain i); "-F " +:+ Name (ci_Chain i); "-X " +:+ Name (ci_Chain i); "COMMIT"] else [].
Definition script (lines : list string) : string := foldr (λ line s, line +:+ nl +:+ s) "" lines.
Definition removeOwnedChains (inspections : list chainInspection) : M (host K F) unit :=
  cleanup ← collect (λ i, repeat_delete (ci_Chain i) (ci_OwnedJumps i)) inspections;
  match cleanup with
  | [] => let transaction := script (inspections ≫= removal_lines) in
          if bool_decide (transaction = "") then mret () else runRestore transaction
  | _ => join cleanup
  end.

Definition compiled_or {A} (r : result fw_error A) : M (host K F) A :=
  match r with Ok a => mret a | Err _ => refuse "firewall" "compile" end.

Definition gatewayUp (cfg : Config) : M (host K F) unit :=
  if negb (gw_Enabled (c_Gateway cfg)) then mret ()
  else
    ruleset ← compiled_or (compileGatewayRuleset cfg);
    inspections ← inspectFirewallOwnership ruleset;
    _ ← on_kernel (writeSysctl "net/ipv4/ip_forward" "1");
    installOwnedChains ruleset inspections.
Definition gatewayDown (cfg : Config) : M (host K F) unit :=
  ruleset ← compiled_or (compileGatewayRuleset cfg);
  inspections ← inspectFirewallOwnership ruleset;
  removeOwnedChains inspections.
Definition egressGuardUp (cfg : Config) : M (host K F) unit :=
  ruleset ← compiled_or (compileEgressGuardRuleset cfg);
  inspections ← inspectFirewallOwnership ruleset;
  installOwnedChains ruleset inspections.
Definition egressGuardDown (cfg : Config) : M (host K F) unit :=
  ruleset ← compiled_or (compileEgressGuardRuleset cfg);
  inspections ← inspectFirewallOwnership ruleset;
  removeOwnedChains inspections.
End gateway.
