(* ===== verification/GatewaySpec.v ===== *)
(** * gateway.go: correctness of the owned chains

    Installing and removing the daemon's chains leaves every other rule alone, at
    whatever command a run fails; when it succeeds the chains hold the compiled
    rules and each hook one jump, or they are gone. *)
From S2P Require Import Prelude Netip Firewall Config Startup Netlink Wg WgKernel WgFrame Gateway.

(** ** What iptables does *)
Definition add_line (chain rule : string) : string := "-A " +:+ chain +:+ " " +:+ rule.
Definition jump_rule (comment name : string) : string :=
  str_join " " ["-m"; "comment"; "--comment"; comment; "-j"; name].
Definition quoted (comment : string) : string := String quote (comment +:+ String quote "").

(** The chains a script is about. *)
Fixpoint touched (table : string) (lines : list string) : list (string * string) :=
  match lines with
  | [] => []
  | String "*" t :: lines => touched t lines
  | String ":" d :: lines => (table, default "" (head (str_split " " d))) :: touched table lines
  | String "-" (String _ (String " " rest)) :: lines =>
      (table, default "" (head (str_split " " rest))) :: touched table lines
  | _ :: lines => touched table lines
  end.

Definition plain_rule (r : string) : Prop := str_free "010" r ∧ from_option printable false (str_last r) = true.
Lemma plain_rule_trim chain r : plain_rule r → trim_space (add_line chain r) = add_line chain r.
Proof.
  intros [_ Hl]. destruct (str_last r) as [d|] eqn:Hd; [|done]. apply (trim_space_printable "-" d); [done| |done..].
  assert (∀ a b, str_last b = Some d → str_last (a +:+ b) = Some d) as Happ.
  { intros a b Hb. rewrite str_last_app; [done|]. by intros ->. }
  unfold add_line. auto.
Qed.

Class IptablesLaws (F : Type) `{Iptables F} `{UnicodeTables} := {
  (** the chains of every table with their rules as [iptables -S] prints them *)
  tables_of : F → tables;
  print : string → string;
  (** a rule is one line that does not end in a blank *)
  stored_plain f key rules r : tables_of f !! key = Some rules → r ∈ rules → print r = r ∧ plain_rule r;
  (** a comment may be printed in quotes *)
  print_jump comment name :
    print (jump_rule comment name) = jump_rule comment name ∨
    print (jump_rule comment name) = jump_rule (quoted comment) name;
  list_law table chain f ok out f' : iptables ["-w"; "5"; "-t"; table; "-S"; chain] f = ((ok, out), f') →
    tables_of f' = tables_of f ∧
    (ok = true → ∃ rules first, tables_of f !! (table, chain) = Some rules ∧
       str_free "010" first ∧ has_prefix "-A " (trim_space first) = false ∧
       out = script (first :: (add_line chain <$> rules))) ∧
    (ok = false → says_missing out = true → tables_of f !! (table, chain) = None);
  insert_law table hook comment name f ok out f' :
    iptables ["-w"; "5"; "-t"; table; "-I"; hook; "1"; "-m"; "comment"; "--comment"; comment; "-j"; name] f = ((ok, out), f') →
    if ok then (∃ rules, tables_of f !! (table, hook) = Some rules ∧
      tables_of f' = <[(table, hook) := print (jump_rule comment name) :: rules]> (tables_of f))
    else tables_of f' = tables_of f;
  (** the first rule that is the same goes *)
  delete_law table hook comment name f ok out f' :
    iptables ["-w"; "5"; "-t"; table; "-D"; hook; "-m"; "comment"; "--comment"; comment; "-j"; name] f = ((ok, out), f') →
    if ok then (∃ l1 l2, (print (jump_rule comment name) ∉ l1) ∧
      tables_of f !! (table, hook) = Some (l1 ++ (print (jump_rule comment name) :: l2)) ∧
      tables_of f' = <[(table, hook) := l1 ++ l2]> (tables_of f))
    else tables_of f' = tables_of f;
  (** a table is committed at once; a script that fails may have committed some *)
  restore_law input f ok out f' : iptables_restore input f = ((ok, out), f') →
    (ok = true → ∃ ts, restore (tables_of f) input = Some ts ∧
       ∀ key, tables_of f' !! key = map print <$> ts !! key) ∧
    ∀ key, key ∉ touched "" (str_split "010" input) → tables_of f' !! key = tables_of f !! key }.

(** ** Rulesets *)
Definition chain_key (ch : Chain) : string * string := (Table ch, Name ch).
Definition hook_key (ch : Chain) : string * string := (Table ch, Hook ch).

(** Names that survive the command line, and a jump that is recognised. *)
Definition chain_ok (ch : Chain) : Prop :=
  str_free "010" (Table ch) ∧ str_free " " (Name ch) ∧ str_free "010" (Name ch) ∧ Forall (str_free "010") (Rules ch) ∧
  str_free "010" (Hook ch) ∧
  (∀ c, c = Comment ch ∨ c = quoted (Comment ch) →
     jumpsTo (add_line (Hook ch) (jump_rule c (Name ch))) (Name ch) = true).
Definition ruleset_ok (rs : Ruleset) : Prop :=
  Forall chain_ok (Chains rs) ∧ NoDup (chain_key <$> Chains rs) ∧ NoDup (hook_key <$> Chains rs) ∧
  ∀ c d, c ∈ Chains rs → d ∈ Chains rs → chain_key c ≠ hook_key d.

Section spec.
Context {K F : Type} `{NetlinkLaws K} `{IptablesLaws F}.
Context (rs : Ruleset) (Hrs : ruleset_ok rs).
Implicit Types (s : host K F).

Definition tabs s : tables := tables_of s.2.
Definition own_jump (ch : Chain) : string := print (jump_rule (Comment ch) (Name ch)).
(** The rules of a chain without the daemon's jumps. *)
Definition is_own_jump (key : string * string) (r : string) : Prop :=
  ∃ ch, ch ∈ Chains rs ∧ hook_key ch = key ∧ r = own_jump ch.
#[export] Instance is_own_jump_dec key r : Decision (is_own_jump key r).
Proof.
  refine (cast_if (decide (Exists (λ ch, hook_key ch = key ∧ r = own_jump ch) (Chains rs))));
    unfold is_own_jump; rewrite Exists_exists in *; naive_solver.
Defined.
Definition strip (key : string * string) (rules : list string) : list string := filter (λ r, ¬ is_own_jump key r) rules.

(** Nothing but the chains of the ruleset and the jumps to them has changed. *)
Definition only_owned (ts ts' : tables) : Prop :=
  ∀ key, key ∉ chain_key <$> Chains rs → strip key <$> ts !! key = strip key <$> ts' !! key.
Lemma only_owned_refl ts : only_owned ts ts.
Proof using Type. by intros key. Qed.
Lemma only_owned_trans t1 t2 t3 : only_owned t1 t2 → only_owned t2 t3 → only_owned t1 t3.
Proof using Type. intros H1' H2' key Hk. by rewrite H1', H2'. Qed.

Definition leaves {A} (m : M (host K F) A) : Prop := ∀ s r s', m s = (r, s') → only_owned (tabs s) (tabs s').
Definition looks {A} (m : M (host K F) A) : Prop := ∀ s r s', m s = (r, s') → tabs s' = tabs s.

Lemma run_inv p s r s' : run (K:=K) p s = (r, s') → ∃ ok out, r = Ok (ok, out) ∧ s'.1 = s.1 ∧ p s.2 = ((ok, out), s'.2).
Proof using Type. unfold run. destruct (p s.2) as [[ok out] f]. intros [= <- <-]. eauto. Qed.

Lemma runIPTables_inv args s r s' : runIPTables (K:=K) args s = (r, s') →
  ∃ ok out, iptables ("-w" :: "5" :: args) s.2 = ((ok, out), s'.2) ∧ (r = Ok tt ↔ ok = true).
Proof using Type.
  intros [(?&E&_)|([ok out]&s1&E&E')]%M_bind_inv; [by apply run_inv in E as (?&?&[=]&_)|].
  apply run_inv in E as (?&?&[= <- <-]&_&E). destruct ok; injection E' as <- <-; eexists _, _; split; try done.
Qed.
Lemma runRestore_inv input s r s' : runRestore (K:=K) input s = (r, s') →
  ∃ ok out, iptables_restore input s.2 = ((ok, out), s'.2) ∧ (r = Ok tt ↔ ok = true).
Proof using Type.
  intros [(?&E&_)|([ok out]&s1&E&E')]%M_bind_inv; [by apply run_inv in E as (?&?&[=]&_)|].
  apply run_inv in E as (?&?&[= <- <-]&_&E). destruct ok; injection E' as <- <-; eexists _, _; split; try done.
Qed.

Lemma listChain_spec table chain s r s' : listChain (K:=K) table chain s = (r, s') → tabs s' = tabs s ∧
  ∀ o, r = Ok o → match o with
    | Some out => ∃ rules first, tabs s !! (table, chain) = Some rules ∧
        str_free "010" first ∧ has_prefix "-A " (trim_space first) = false ∧ out = script (first :: (add_line chain <$> rules))
    | None => tabs s !! (table, chain) = None
    end.
Proof using Type.
  intros [(?&E&_)|([ok out]&s1&E&E')]%M_bind_inv; [by apply run_inv in E as (?&?&[=]&_)|].
  apply run_inv in E as (?&?&[= <- <-]&_&E). apply list_law in E as (Hs&Hok&Hmiss). destruct ok.
  - injection E' as <- <-. split; [done|]. intros o [= <-]. by apply Hok.
  - destruct (says_missing out) eqn:Hm; injection E' as <- <-; (split; [done|]); [|done]. intros o [= <-]. by apply Hmiss.
Qed.

Lemma script_split lines : Forall (str_free "010") lines → str_split "010" (script lines) = lines ++ [""].
Proof using Type. apply split_lines. Qed.

(** The jumps from a list of rules of the hook to the chain. *)
Definition jumps (ch : Chain) (rules : list string) : list string :=
  filter (λ r, jumpsTo (add_line (Hook ch) r) (Name ch) = true) rules.

Lemma has_prefix_add_line chain r : has_prefix ("-A " +:+ chain +:+ " ") (add_line chain r) = true.
Proof using Type.
  unfold add_line. rewrite !str_app_assoc. apply has_prefix_app.
Qed.
Lemma has_prefix_weaken a b x : has_prefix (a +:+ b) x = true → has_prefix a x = true.
Proof using Type.
  unfold has_prefix. revert x. induction a as [|c a IH]; intros x; [by destruct x|].
  rewrite str_app_cons. destruct x as [|y x]; [done|]. cbn. destruct (Ascii.ascii_dec c y); [apply IH|done].
Qed.
Lemma no_add_prefix chain line : has_prefix "-A " line = false → has_prefix ("-A " +:+ chain +:+ " ") line = false.
Proof using Type. intros Hp. apply not_true_is_false. intros Ht%has_prefix_weaken. congruence. Qed.

Lemma count_jumps_spec ch n m rules :
  (∀ r, r ∈ rules → trim_space (add_line (Hook ch) r) = add_line (Hook ch) r) →
  count_jumps ch n ((add_line (Hook ch) <$> rules) ++ [""]) = Some m →
  m = n + length (jumps ch rules) ∧ Forall (λ r, has_comment (Comment ch) (add_line (Hook ch) r) = true) (jumps ch rules).
Proof using Type.
  revert n. induction rules as [|r rules IH]; intros n Htrim.
  { cbn. intros [= <-]. split; [lia|constructor]. }
  rewrite fmap_cons. cbn [app count_jumps]. cbv zeta. rewrite Htrim by (by left). rewrite has_prefix_add_line. cbn [negb orb].
  unfold jumps. rewrite filter_cons. destruct (jumpsTo _ _) eqn:Hj; cbn [negb].
  - destruct (has_comment _ _) eqn:Hc; cbn [negb]; [|done]. intros [-> Hall]%IH; [|intros; apply Htrim; by right].
    rewrite decide_True by done. split; [cbn [length]; unfold jumps; lia|by constructor].
  - rewrite decide_False by done. apply IH. intros; apply Htrim; by right.
Qed.
Lemma count_owned_spec name n m rules :
  (∀ r, r ∈ rules → trim_space (add_line name r) = add_line name r) →
  count_owned name n ((add_line name <$> rules) ++ [""]) = Some m →
  m = n + length rules ∧ Forall (λ r, RuleIsOwned (add_line name r) = true) rules.
Proof using Type.
  revert n. induction rules as [|r rules IH]; intros n Htrim.
  { cbn. intros [= <-]. split; [lia|constructor]. }
  rewrite fmap_cons. cbn [app count_owned]. cbv zeta. rewrite Htrim by (by left). rewrite has_prefix_add_line. cbn [negb].
  destruct (RuleIsOwned _) eqn:Hc; cbn [negb]; [|done]. intros [-> Hall]%IH; [|intros; apply Htrim; by right].
  split; [cbn; lia|by constructor].
Qed.

(** What an inspection found. *)
Definition njumps (ch : Chain) (ts : tables) : nat := length (jumps ch (default [] (ts !! hook_key ch))).
(** A chain the daemon must not touch: a rule of it, or a jump to it, is not the
    daemon's, or nothing shows that it is. *)
Definition foreign_chain (ts : tables) (ch : Chain) : Prop :=
  (∃ rules r, ts !! chain_key ch = Some rules ∧ r ∈ rules ∧ RuleIsOwned (add_line (Name ch) r) = false) ∨
  (∃ rules r, ts !! hook_key ch = Some rules ∧ r ∈ rules ∧ jumpsTo (add_line (Hook ch) r) (Name ch) = true ∧
     has_comment (Comment ch) (add_line (Hook ch) r) = false) ∨
  (ts !! chain_key ch = Some [] ∧ njumps ch ts = 0).

Record inspected (ts : tables) (ch : Chain) (i : chainInspection) : Prop := {
  in_chain : ci_Chain i = ch;
  in_exists : ci_Exists i = bool_decide (is_Some (ts !! chain_key ch));
  in_jumps : ci_OwnedJumps i = njumps ch ts;
  in_own : ¬ foreign_chain ts ch }.

Lemma listing_lines T chain rules first s :
  tabs s !! (T, chain) = Some rules → str_free "010" chain → str_free "010" first →
  str_split "010" (script (first :: (add_line chain <$> rules))) = first :: (add_line chain <$> rules) ++ [""] ∧
  ∀ r, r ∈ rules → trim_space (add_line chain r) = add_line chain r.
Proof using Type.
  intros Ht Hc Hf. assert (∀ r, r ∈ rules → str_free "010" r ∧ trim_space (add_line chain r) = add_line chain r) as Hr.
  { intros r Hr. destruct (stored_plain _ _ _ _ Ht Hr) as [_ Hp]. split; [apply Hp|by apply plain_rule_trim]. }
  split; [|intros r ?; by apply Hr]. rewrite script_split; [done|]. constructor; [done|].
  apply Forall_forall. intros l (r&->&Hin)%list_elem_of_fmap. unfold add_line. rewrite !str_free_app.
  split_and!; [done..|by apply Hr].
Qed.

(** The rules of a listed chain. *)
Definition listed (T chain : string) (o : option string) s : Prop :=
  match o with
  | Some out => ∃ rules first, tabs s !! (T, chain) = Some rules ∧
      str_split "010" out = first :: (add_line chain <$> rules) ++ [""] ∧
      has_prefix ("-A " +:+ chain +:+ " ") (trim_space first) = false ∧
      ∀ r, r ∈ rules → trim_space (add_line chain r) = add_line chain r
  | None => tabs s !! (T, chain) = None
  end.
Lemma listChain_listed T chain s r s' : str_free "010" chain → listChain (K:=K) T chain s = (r, s') →
  tabs s' = tabs s ∧ ∀ o, r = Ok o → listed T chain o s.
Proof using Type.
  intros Hc [Hs Ho]%listChain_spec. split; [done|]. intros o ->. specialize (Ho o eq_refl). unfold listed.
  destruct o as [out|]; [|done]. destruct Ho as (rules&first&Ht&Hf&Hp&->).
  destruct (listing_lines T chain rules first s Ht Hc Hf) as [??]. exists rules, first.
  split_and!; try done. by apply no_add_prefix.
Qed.

Lemma owned_listed ch o n s : listed (Table ch) (Name ch) o s →
  match o with Some out => count_owned (Name ch) 0 (str_split "010" out) | None => Some 0 end = Some n →
  n = length (default [] (tabs s !! chain_key ch)) ∧
  Forall (λ r, RuleIsOwned (add_line (Name ch) r) = true) (default [] (tabs s !! chain_key ch)).
Proof using Type.
  unfold listed, chain_key. destruct o as [out|].
  - intros (rules&first&->&Hsp&Hp&Htrim) Hn. rewrite Hsp in Hn. cbn [count_owned] in Hn. cbv zeta in Hn. rewrite Hp in Hn.
    by apply count_owned_spec in Hn.
  - intros -> [= <-]. split; [done|constructor].
Qed.
Lemma jumps_listed ch h j s : listed (Table ch) (Hook ch) h s →
  count_jumps ch 0 (str_split "010" (default "" h)) = Some j →
  j = njumps ch (tabs s) ∧
  Forall (λ r, has_comment (Comment ch) (add_line (Hook ch) r) = true) (jumps ch (default [] (tabs s !! hook_key ch))).
Proof using Type.
  unfold listed, njumps, hook_key. destruct h as [out|]; cbn [from_option id].
  - intros (rules&first&->&Hsp&Hp&Htrim) Hj. rewrite Hsp in Hj. cbn [count_jumps] in Hj. cbv zeta in Hj. rewrite Hp in Hj.
    cbn [negb orb] in Hj. by apply count_jumps_spec in Hj.
  - intros -> [= <-]. split; [done|constructor].
Qed.

Lemma not_foreign ch s n j (found : bool) :
  n = length (default [] (tabs s !! chain_key ch)) ∧
    Forall (λ r, RuleIsOwned (add_line (Name ch) r) = true) (default [] (tabs s !! chain_key ch)) →
  j = njumps ch (tabs s) ∧
    Forall (λ r, has_comment (Comment ch) (add_line (Hook ch) r) = true) (jumps ch (default [] (tabs s !! hook_key ch))) →
  found = bool_decide (is_Some (tabs s !! chain_key ch)) →
  found && (n =? 0)%nat && (j =? 0)%nat = false → ¬ foreign_chain (tabs s) ch.
Proof using Type.
  rewrite !Forall_forall. intros [Hn Ho] [Hj Hc] Hf Hev [(l&r&Hl&Hr&Hno)|[(l&r&Hl&Hr&Hjmp&Hno)|[Hl Hz]]].
  - rewrite Hl in Ho. specialize (Ho r Hr). congruence.
  - rewrite Hl in Hc. specialize (Hc r). unfold jumps in Hc. rewrite list_elem_of_filter in Hc.
    rewrite Hc in Hno; done.
  - rewrite Hl in Hn, Hf. cbn in Hn, Hf. by rewrite Hf, Hn, Hj, Hz in Hev.
Qed.

Lemma inspect_chain_spec ch s r s' : chain_ok ch → inspect_chain (K:=K) ch s = (r, s') →
  tabs s' = tabs s ∧ ∀ i, r = Ok i → inspected (tabs s) ch i.
Proof using Type.
  intros (_&_&Hname&_&Hhook&_) E. unfold inspect_chain in E.
  apply M_bind_inv in E as [(e&E&->)|(o&s1&E1&E)].
  { apply listChain_listed in E as [? _]; done. }
  apply listChain_listed in E1 as [Hs1 Ho]; [|done]. specialize (Ho o eq_refl).
  apply M_bind_inv in E as [(e&E&->)|(n&s1'&E2&E)].
  { by apply of_option_inv in E as [-> _]. }
  apply of_option_inv in E2 as [-> Hn]. specialize (Hn n eq_refl).
  apply M_bind_inv in E as [(e&E&->)|(h&s2&E3&E)].
  { apply listChain_listed in E as [-> _]; done. }
  apply listChain_listed in E3 as [Hs2 Hh]; [|done]. specialize (Hh h eq_refl). rewrite Hs1 in Hs2.
  apply M_bind_inv in E as [(e&E&->)|(j&s2'&E4&E)].
  { by apply of_option_inv in E as [-> _]. }
  apply of_option_inv in E4 as [-> Hj]. specialize (Hj j eq_refl).
  assert (listed (Table ch) (Hook ch) h s) as Hh' by (unfold listed in *; by rewrite Hs1 in Hh).
  pose proof (owned_listed ch o n s Ho Hn) as Hown. pose proof (jumps_listed ch h j s Hh' Hj) as Hjmp.
  assert (bool_decide (is_Some o) = bool_decide (is_Some (tabs s !! chain_key ch))) as Hex.
  { apply bool_decide_ext. unfold listed in Ho. unfold chain_key.
    destruct o; [destruct Ho as (?&?&->&_)|rewrite Ho]; split; eauto; by intros [? ?]. }
  destruct (_ && _) eqn:Hev; injection E as <- <-; (split; [done|]); [done|]. intros i [= <-].
  split; cbn [ci_Chain ci_Exists ci_OwnedJumps]; [done|done|apply Hjmp|]. by eapply not_foreign.
Qed.

Lemma inspect_chains_spec chains s r s' : Forall chain_ok chains → inspect_chains (K:=K) chains s = (r, s') →
  tabs s' = tabs s ∧ ∀ l, r = Ok l → Forall2 (inspected (tabs s)) chains l.
Proof using Type.
  intros Hok. revert s r s'. induction Hok as [|ch chains Hch _ IH]; intros s r s' E; cbn [inspect_chains] in E.
  { injection E as <- <-. split; [done|]. intros l [= <-]. constructor. }
  apply M_bind_inv in E as [(e&E&->)|(i&s1&E1&E)].
  { by apply inspect_chain_spec in E as [? _]. }
  apply inspect_chain_spec in E1 as [Hs1 Hi]; [|done].
  apply M_bind_inv in E as [(e&E&->)|(l&s2&E2&E)].
  { apply IH in E as [-> _]. done. }
  apply IH in E2 as [Hs2 Hl]. injection E as <- <-. rewrite Hs2, Hs1. split; [done|]. intros l' [= <-].
  rewrite Hs1 in Hl. constructor; eauto.
Qed.

(** ** Jumps *)

(** Nothing but jumps to the chain has come or gone. *)
Definition jumped (ch : Chain) (ts ts' : tables) : Prop :=
  (∀ key, key ≠ hook_key ch → ts' !! key = ts !! key) ∧
  strip (hook_key ch) <$> ts' !! hook_key ch = strip (hook_key ch) <$> ts !! hook_key ch.
Lemma jumped_refl ch ts : jumped ch ts ts.
Proof using Type. done. Qed.
Lemma jumped_trans ch t1 t2 t3 : jumped ch t1 t2 → jumped ch t2 t3 → jumped ch t1 t3.
Proof using Type. intros [H1' H2'] [H3' H4']. split; [intros key ?; rewrite H3'; auto|congruence]. Qed.
Lemma jumped_njumps ch d ts ts' : hook_key d ≠ hook_key ch → jumped ch ts ts' → njumps d ts' = njumps d ts.
Proof using Type. intros Hne [Hk _]. unfold njumps. by rewrite Hk. Qed.

Section one.
Context (ch : Chain) (Hch : ch ∈ Chains rs).

Lemma own_jump_jumps : jumpsTo (add_line (Hook ch) (own_jump ch)) (Name ch) = true.
Proof using Hrs Hch.
  destruct Hrs as [Hall _]. rewrite Forall_forall in Hall. destruct (Hall ch Hch) as (_&_&_&_&_&Hj). unfold own_jump.
  destruct (print_jump (Comment ch) (Name ch)) as [-> | ->]; apply Hj; auto.
Qed.
Lemma strip_own l : strip (hook_key ch) (own_jump ch :: l) = strip (hook_key ch) l.
Proof using Hch. unfold strip. rewrite filter_cons_False; [done|]. intros Hn. apply Hn. by exists ch. Qed.

Lemma deleteJump_spec s r s' : deleteJump (K:=K) ch s = (r, s') →
  jumped ch (tabs s) (tabs s') ∧ (r = Ok tt → njumps ch (tabs s) = S (njumps ch (tabs s'))).
Proof using Hrs Hch.
  intros (ok&out&E&Hr)%runIPTables_inv. apply delete_law in E. unfold tabs. destruct ok.
  - destruct E as (l1&l2&_&Hl&->). split.
    + split; [intros key Hne; by rewrite lookup_insert_ne|]. unfold hook_key at 2 4. rewrite Hl, lookup_insert_eq.
      cbn. unfold strip. rewrite !filter_app. f_equal. f_equal. symmetry. apply strip_own.
    + intros _. unfold njumps, hook_key, jumps. rewrite Hl, lookup_insert_eq. cbn [from_option id]. rewrite !filter_app, !length_app.
      rewrite filter_cons_True by apply own_jump_jumps. cbn [length]. lia.
  - rewrite E. split; [apply jumped_refl|]. by intros ?%Hr.
Qed.
Lemma repeat_delete_spec n s r s' : repeat_delete (K:=K) ch n s = (r, s') →
  jumped ch (tabs s) (tabs s') ∧ (r = Ok tt → njumps ch (tabs s) = n + njumps ch (tabs s')).
Proof using Hrs Hch.
  revert s. induction n as [|n IH]; intros s E; cbn [repeat_delete] in E.
  { injection E as <- <-. split; [apply jumped_refl|done]. }
  apply M_bind_inv in E as [(e&E&->)|([]&s1&E1&E)].
  - apply deleteJump_spec in E as [? _]. done.
  - apply deleteJump_spec in E1 as [Hj1 Hn1]. apply IH in E as [Hj Hn].
    split; [by eapply jumped_trans|]. intros Hr. rewrite Hn1 by done. rewrite Hn by done. lia.
Qed.

Lemma install_jump_spec i s r s' : ci_Chain i = ch → ci_OwnedJumps i = njumps ch (tabs s) →
  install_jump (K:=K) i s = (r, s') → jumped ch (tabs s) (tabs s') ∧ (r = Ok tt → njumps ch (tabs s') = 1).
Proof using Hrs Hch.
  intros Hc Hj E. unfold install_jump in E. rewrite Hc, Hj in E. destruct (njumps ch (tabs s)) as [|n] eqn:Hn.
  - apply runIPTables_inv in E as (ok&out&E&Hr). apply insert_law in E. unfold tabs in *. destruct ok.
    + destruct E as (l&Hl&->). split.
      * split; [intros key Hne; by rewrite lookup_insert_ne|]. unfold hook_key at 2 4. rewrite Hl, lookup_insert_eq.
        cbn [fmap option_fmap option_map]. f_equal. apply strip_own.
      * intros _. unfold njumps, hook_key, jumps in Hn |- *. rewrite Hl in Hn. rewrite lookup_insert_eq.
        cbn [from_option id] in Hn |- *. rewrite filter_cons_True by apply own_jump_jumps. cbn [length]. lia.
    + rewrite E. split; [apply jumped_refl|]. by intros ?%Hr.
  - apply repeat_delete_spec in E as [? Hd]. split; [done|]. intros Hr. specialize (Hd Hr). lia.
Qed.
Lemma remove_jump_spec i s r s' : ci_Chain i = ch → ci_OwnedJumps i = njumps ch (tabs s) →
  repeat_delete (K:=K) (ci_Chain i) (ci_OwnedJumps i) s = (r, s') →
  jumped ch (tabs s) (tabs s') ∧ (r = Ok tt → njumps ch (tabs s') = 0).
Proof using Hrs Hch.
  intros -> -> [? Hd]%repeat_delete_spec. split; [done|]. intros Hr. specialize (Hd Hr). lia.
Qed.
Lemma jumped_only_owned ts ts' : jumped ch ts ts' → only_owned ts ts'.
Proof using Type.
  intros [Hk Hs] key _. destruct (decide (key = hook_key ch)) as [->|Hne]; [done|]. by rewrite Hk.
Qed.
End one.

(** A loop over the inspections, each step about the jumps of its chain. *)
Lemma jump_loop (f : chainInspection → M (host K F) unit) n :
  (∀ ch i s r s', ch ∈ Chains rs → ci_Chain i = ch → ci_OwnedJumps i = njumps ch (tabs s) → f i s = (r, s') →
     jumped ch (tabs s) (tabs s') ∧ (r = Ok tt → njumps ch (tabs s') = n)) →
  ∀ l s r s', (ci_Chain <$> l) ⊆ Chains rs → NoDup (hook_key ∘ ci_Chain <$> l) →
  Forall (λ i, ci_OwnedJumps i = njumps (ci_Chain i) (tabs s)) l → collect f l s = (r, s') →
  only_owned (tabs s) (tabs s') ∧ (∀ key, key ∉ hook_key ∘ ci_Chain <$> l → tabs s' !! key = tabs s !! key) ∧
  ∃ errs, r = Ok errs ∧ (errs = [] → Forall (λ i, njumps (ci_Chain i) (tabs s') = n) l).
Proof using Type.
  intros Hf. induction l as [|i l IH]; intros s r s' Hin Hnd Hl E.
  { injection E as <- <-. split_and!; [apply only_owned_refl|done|]. eauto. }
  apply Forall_cons in Hl as [Hj Hl]. rewrite fmap_cons in Hin. rewrite fmap_cons in Hnd.
  apply NoDup_cons in Hnd as [Hni Hnd]. assert (ci_Chain i ∈ Chains rs) as Hch by (apply Hin; by left).
  apply collect_cons_inv in E as (r1&s1&errs&E1&E&->). destruct (Hf (ci_Chain i) i s _ _ Hch eq_refl Hj E1) as [Hjmp Hone].
  destruct (IH s1 (Ok errs) s' ltac:(intros d Hd; apply Hin; by right) Hnd) as (Hon&Hkeys&errs'&[= <-]&Hn); [|exact E|].
  { rewrite Forall_forall in Hl |- *. intros d Hd. rewrite (Hl d Hd). symmetry. eapply jumped_njumps; [|done].
    intros Heq. apply Hni. cbn. rewrite <-Heq. by apply (list_elem_of_fmap_2 (hook_key ∘ ci_Chain)). }
  split_and!.
  - eapply only_owned_trans; [|done]. by eapply jumped_only_owned.
  - intros key [Hne Hk]%not_elem_of_cons. rewrite Hkeys by done. by apply Hjmp.
  - eexists; split; [done|]. intros [Hr1 ->]%app_nil. constructor; [|by apply Hn].
    unfold njumps. rewrite Hkeys by done. apply Hone. by destruct r1 as [[]|].
Qed.

(** ** Scripts *)
Definition lead (d : string) : string := default "" (head (str_split " " d)).
Lemma lead_free u : str_free " " u → lead u = u.
Proof using Type. intros. unfold lead. by rewrite str_split_free. Qed.
Lemma lead_first u v : str_free " " u → lead (u +:+ String " " v) = u.
Proof using Type. intros. unfold lead. by rewrite str_split_first. Qed.

Lemma touched_rules T name rules rest : str_free " " name →
  touched T (((λ rule, sprintf "-A %s %s" [name; rule]) <$> rules) ++ rest) =
  ((λ _, (T, name)) <$> rules) ++ touched T rest.
Proof using Type.
  intros Hn. induction rules as [|r rules IH]; [done|]. rewrite !fmap_cons. cbn [app].
  change (sprintf "-A %s %s" [name; r]) with (String "-" (String "A" (String " " (name +:+ String " " (r +:+ ""))))).
  cbn [touched]. fold (lead (name +:+ String " " (r +:+ ""))). by rewrite lead_first, IH.
Qed.
Lemma touched_chain T ch rest key : str_free " " (Name ch) → key ∈ touched T (chain_lines ch ++ rest) →
  key = chain_key ch ∨ ∃ T', key ∈ touched T' rest.
Proof using Type.
  intros Hn. unfold chain_lines. rewrite <-!app_assoc.
  change (sprintf "*%s" [Table ch]) with (String "*" (Table ch +:+ "")).
  change (sprintf ":%s - [0:0]" [Name ch]) with (String ":" (Name ch +:+ String " " "- [0:0]")).
  change (sprintf "-F %s" [Name ch]) with (String "-" (String "F" (String " " (Name ch +:+ "")))).
  rewrite !str_app_nil_r. cbn [app touched]. fold (lead (Name ch +:+ String " " "- [0:0]")) (lead (Name ch)).
  rewrite lead_first, lead_free, touched_rules by done.
  rewrite !elem_of_cons, elem_of_app, list_elem_of_fmap. intros [->|[->|[(?&->&_)|Hk]]]; [by left..|].
  right. by exists (Table ch).
Qed.
Lemma touched_removal T i rest key : str_free " " (Name (ci_Chain i)) → key ∈ touched T (removal_lines i ++ rest) →
  key = chain_key (ci_Chain i) ∨ ∃ T', key ∈ touched T' rest.
Proof using Type.
  intros Hn. unfold removal_lines. destruct (ci_Exists i); [|cbn; eauto].
  rewrite !str_app_cons, !str_app_nil_l. cbn [app touched]. fold (lead (Name (ci_Chain i))). rewrite lead_free by done.
  rewrite !elem_of_cons. intros [->|[->|Hk]]; [by left..|]. right. by exists (Table (ci_Chain i)).
Qed.
Lemma touched_bind {A} (f : A → list string) (k : A → string * string) l T key :
  (∀ a T rest, a ∈ l → key ∈ touched T (f a ++ rest) → key = k a ∨ ∃ T', key ∈ touched T' rest) →
  key ∈ touched T ((l ≫= f) ++ [""]) → key ∈ k <$> l.
Proof using Type.
  intros Hf. revert T. induction l as [|a l IH]; intros T; [by intros ?%elem_of_nil|].
  change ((a :: l) ≫= f) with (f a ++ (l ≫= f)). rewrite <-app_assoc.
  intros [->|[T' Hk]]%Hf; [by left| |by left]. right. eapply IH; [|exact Hk]. intros b T1 rest Hb.
  apply Hf. by right.
Qed.

Lemma chain_lines_free ch : chain_ok ch → Forall (str_free "010") (chain_lines ch).
Proof using Type.
  intros (Ht&_&Hn&Hr&_). unfold chain_lines. rewrite !Forall_app, Forall_fmap. split_and!; [|apply (Forall_impl _ _ _ Hr)|by repeat constructor].
  - change (sprintf "*%s" [Table ch]) with (String "*" (Table ch +:+ "")).
    change (sprintf ":%s - [0:0]" [Name ch]) with (":" +:+ (Name ch +:+ " - [0:0]")).
    change (sprintf "-F %s" [Name ch]) with ("-F " +:+ (Name ch +:+ "")). rewrite !str_app_nil_r.
    repeat constructor; rewrite ?str_free_app; by rewrite ?str_free_cons.
  - intros r Hfr. change (str_free "010" ("-A " +:+ (Name ch +:+ (" " +:+ (r +:+ ""))))). rewrite str_app_nil_r, !str_free_app. done.
Qed.
Lemma removal_lines_free i : chain_ok (ci_Chain i) → Forall (str_free "010") (removal_lines i).
Proof using Type.
  intros (Ht&_&Hn&_). unfold removal_lines. destruct (ci_Exists i); [|done].
  repeat constructor; by rewrite !str_free_app.
Qed.

Lemma restore_removal (ts : tables) i :
  restore_lines (ts, None) (removal_lines i) =
  if ci_Exists i
  then match ts !! chain_key (ci_Chain i) with Some _ => Some (delete (chain_key (ci_Chain i)) ts, None) | None => None end
  else Some (ts, None).
Proof using Type.
  unfold removal_lines. destruct (ci_Exists i); [|done]. rewrite !str_app_cons, !str_app_nil_l.
  cbn [restore_lines restore_line]. unfold chain_key. destruct (ts !! _); [|done].
  cbn [restore_line]. rewrite lookup_insert_eq. cbn. by rewrite delete_insert_eq.
Qed.
Lemma restore_removals (l : list chainInspection) (ts ts' : tables) cur : restore_lines (ts, None) (l ≫= removal_lines) = Some (ts', cur) →
  cur = None ∧ (∀ key, ts !! key = None → ts' !! key = None) ∧
  ∀ i, i ∈ l → ci_Exists i = true → ts' !! chain_key (ci_Chain i) = None.
Proof using Type.
  revert ts. induction l as [|i l IH]; intros ts.
  { intros [= <- <-]. split_and!; [done..|]. by intros ? ?%elem_of_nil. }
  change ((i :: l) ≫= removal_lines) with (removal_lines i ++ (l ≫= removal_lines)).
  rewrite restore_lines_app, restore_removal. destruct (ci_Exists i) eqn:Hi.
  - destruct (ts !! _) eqn:Hts; [|done]. intros (->&Hnone&Hl)%IH. split_and!; [done| |].
    + intros key Hk. apply Hnone. by apply lookup_delete_None; right.
    + intros j [->|Hj]%elem_of_cons Hx; [|by apply Hl]. apply Hnone, lookup_delete_eq.
  - intros (->&Hnone&Hl)%IH. split_and!; [done..|]. intros j [->|Hj]%elem_of_cons Hx; [congruence|by apply Hl].
Qed.
Lemma script_empty lines : script lines = "" → lines = [].
Proof using Type. by destruct lines as [|[|c u] lines]. Qed.

(** ** Installing *)
Definition installed (ts : tables) : Prop := ∀ ch, ch ∈ Chains rs →
  ts !! chain_key ch = Some (print <$> Rules ch) ∧ njumps ch ts = 1.
Definition removed (ts : tables) : Prop := ∀ ch, ch ∈ Chains rs → ts !! chain_key ch = None ∧ njumps ch ts = 0.

Lemma chains_ok ch : ch ∈ Chains rs → chain_ok ch.
Proof using Hrs. destruct Hrs as [Hall _]. rewrite Forall_forall in Hall. apply Hall. Qed.
Lemma hook_not_chain c d : c ∈ Chains rs → d ∈ Chains rs → chain_key c ≠ hook_key d.
Proof using Hrs. destruct Hrs as (_&_&_&Hne). apply Hne. Qed.

Lemma foldl_chains (chains : list Chain) (ts : tables) ch : NoDup (chain_key <$> chains) → ch ∈ chains →
  foldl (λ ts ch, <[(Table ch, Name ch) := Rules ch]> ts) ts chains !! chain_key ch = Some (Rules ch).
Proof using Type.
  intros Hnd Hin. apply list_elem_of_split in Hin as (l1&l2&->). rewrite foldl_app. cbn [foldl].
  rewrite fmap_app, fmap_cons in Hnd. apply NoDup_app in Hnd as (_&_&[Hni _]%NoDup_cons).
  generalize (foldl (λ (ts : tables) ch, <[(Table ch, Name ch) := Rules ch]> ts) ts l1). intros t1.
  assert (<[(Table ch, Name ch) := Rules ch]> t1 !! chain_key ch = Some (Rules ch)) as Hat by apply lookup_insert_eq.
  revert Hat. generalize (<[(Table ch, Name ch) := Rules ch]> t1). clear t1.
  induction l2 as [|d l2 IH]; intros t1 Hat; [done|]. rewrite fmap_cons in Hni. apply not_elem_of_cons in Hni as [Hne Hni].
  cbn [foldl]. apply IH; [done|]. by rewrite lookup_insert_ne.
Qed.

Lemma restore_spec s r s' : runRestore (K:=K) (RestoreInput rs) s = (r, s') →
  (∀ key, key ∉ chain_key <$> Chains rs → tabs s' !! key = tabs s !! key) ∧
  (r = Ok tt → ∀ ch, ch ∈ Chains rs → tabs s' !! chain_key ch = Some (print <$> Rules ch)).
Proof using Hrs.
  intros (ok&out&E&Hr)%runRestore_inv. apply restore_law in E as [Hok Hfail]. split.
  - intros key Hk. apply Hfail. intros Hin. apply Hk. unfold RestoreInput in Hin. rewrite split_lines in Hin.
    + eapply touched_bind; [|exact Hin]. intros ch T rest Hch. apply touched_chain. by apply chains_ok.
    + apply Forall_bind. apply Forall_forall. intros ch Hch. by apply chain_lines_free, chains_ok.
  - intros ->. destruct (Hok ltac:(tauto)) as (ts&Hts&Hf). intros ch Hch. unfold tabs. rewrite Hf.
    rewrite restore_ruleset in Hts.
    + injection Hts as <-. destruct Hrs as (_&Hnd&_). by rewrite foldl_chains.
    + apply Forall_forall. intros d Hd. destruct (chains_ok d Hd) as (?&?&?&?&_). auto.
Qed.

Lemma unowned_only ts ts' : (∀ key, key ∉ chain_key <$> Chains rs → ts' !! key = ts !! key) → only_owned ts ts'.
Proof using Type. intros Hk key Hkey. by rewrite Hk. Qed.
Lemma njumps_unowned ts ts' ch : ch ∈ Chains rs →
  (∀ key, key ∉ chain_key <$> Chains rs → ts' !! key = ts !! key) → njumps ch ts' = njumps ch ts.
Proof using Hrs.
  intros Hch Hk. unfold njumps. rewrite Hk; [done|]. intros (d&Heq&Hd)%list_elem_of_fmap.
  symmetry in Heq. by apply hook_not_chain in Heq.
Qed.

Lemma inspected_chains ts l : Forall2 (inspected ts) (Chains rs) l →
  ci_Chain <$> l = Chains rs ∧ Forall (λ i, inspected ts (ci_Chain i) i) l.
Proof using Type.
  generalize (Chains rs). induction 1 as [|ch i chains l Hi _ [IH1 IH2]]; [done|].
  pose proof (in_chain _ _ _ Hi) as Hc. rewrite fmap_cons, IH1, Hc. split; [done|]. constructor; [by rewrite Hc|done].
Qed.

Section found.
Context (s0 : host K F) (l : list chainInspection) (Hl : Forall2 (inspected (tabs s0)) (Chains rs) l).

Lemma found_hooks : hook_key ∘ ci_Chain <$> l = hook_key <$> Chains rs.
Proof using Hl. rewrite list_fmap_compose. by destruct (inspected_chains _ _ Hl) as [-> _]. Qed.
Lemma found_loop (f : chainInspection → M (host K F) unit) n s r s' :
  (∀ ch i s r s', ch ∈ Chains rs → ci_Chain i = ch → ci_OwnedJumps i = njumps ch (tabs s) → f i s = (r, s') →
     jumped ch (tabs s) (tabs s') ∧ (r = Ok tt → njumps ch (tabs s') = n)) →
  (∀ ch, ch ∈ Chains rs → njumps ch (tabs s) = njumps ch (tabs s0)) → collect f l s = (r, s') →
  only_owned (tabs s) (tabs s') ∧ (∀ ch, ch ∈ Chains rs → tabs s' !! chain_key ch = tabs s !! chain_key ch) ∧
  ∃ errs, r = Ok errs ∧ (errs = [] → ∀ ch, ch ∈ Chains rs → njumps ch (tabs s') = n).
Proof using Hl Hrs.
  intros Hf Hsame E. destruct (inspected_chains _ _ Hl) as [Hc Hi].
  destruct (jump_loop f n Hf l s r s') as (Hon&Hkeys&errs&->&Hn); [by rewrite Hc| | |done|].
  - rewrite found_hooks. by destruct Hrs as (_&_&Hnd&_).
  - rewrite Forall_forall in Hi |- *. intros i Hin. rewrite Hsame, (in_jumps _ _ _ (Hi i Hin)); [done|].
    rewrite <-Hc. by apply list_elem_of_fmap_2.
  - split_and!; [done| |].
    + intros ch Hch. apply Hkeys. rewrite found_hooks. intros (d&Heq&Hd)%list_elem_of_fmap.
      by apply hook_not_chain in Heq.
    + exists errs. split; [done|]. intros He ch Hch. specialize (Hn He). rewrite Forall_forall in Hn.
      rewrite <-Hc in Hch. apply list_elem_of_fmap in Hch as (i&->&Hin). by apply Hn.
Qed.

Lemma install_spec s r s' : tabs s = tabs s0 → installOwnedChains (K:=K) rs l s = (r, s') →
  only_owned (tabs s) (tabs s') ∧ (r = Ok tt → installed (tabs s')).
Proof using Hl Hrs.
  intros Hs E. unfold installOwnedChains in E. apply M_bind_inv in E as [(e&E&->)|([]&s1&E1&E)].
  { apply restore_spec in E as [Hk _]. split; [by apply unowned_only|done]. }
  apply restore_spec in E1 as [Hk Hchains]. specialize (Hchains eq_refl).
  apply M_bind_inv in E as [(e&[? ?]%collect_ok&_)|(errs&s2&E2&E)]; [done|]. apply join_inv in E as [-> Hr].
  edestruct (found_loop install_jump 1) with (3 := E2) as (Hon&Hch&errs'&[= <-]&Hn).
  { intros ch i s3 r3 s3' Hin. by apply install_jump_spec. }
  { intros ch Hin. rewrite <-Hs. by apply njumps_unowned. }
  split; [eapply only_owned_trans; [by apply unowned_only|done]|].
  intros He%Hr ch Hin. split; [|by apply Hn]. rewrite Hch by done. by apply Hchains.
Qed.

Lemma delete_chains_spec s r s' : (∀ ch, ch ∈ Chains rs → tabs s !! chain_key ch = tabs s0 !! chain_key ch) →
  runRestore (K:=K) (script (l ≫= removal_lines)) s = (r, s') →
  (∀ key, key ∉ chain_key <$> Chains rs → tabs s' !! key = tabs s !! key) ∧
  (r = Ok tt → ∀ ch, ch ∈ Chains rs → tabs s' !! chain_key ch = None).
Proof using Hl Hrs.
  intros Hs (ok&out&E&Hr)%runRestore_inv. destruct (inspected_chains _ _ Hl) as [Hc Hi]. rewrite Forall_forall in Hi.
  assert (∀ i, i ∈ l → ci_Chain i ∈ Chains rs) as Hin by (intros i Hx; rewrite <-Hc; by apply list_elem_of_fmap_2).
  assert (Forall (str_free "010") (l ≫= removal_lines)) as Hfree.
  { apply Forall_bind, Forall_forall. intros i Hx. by apply removal_lines_free, chains_ok, Hin. }
  apply restore_law in E as [Hok Hfail]. unfold restore in Hok. rewrite script_split in Hok, Hfail by done. split.
  - intros key Hk. apply Hfail. intros Ht. apply Hk. rewrite <-Hc, <-list_fmap_compose.
    eapply touched_bind; [|exact Ht]. intros i T rest Hx. apply touched_removal. by apply chains_ok, Hin.
  - intros ->. destruct (Hok ltac:(tauto)) as (ts&Hts&Hf). intros ch Hch. unfold tabs. rewrite Hf.
    rewrite restore_lines_app in Hts. destruct (restore_lines _ (l ≫= _)) as [[ts1 cur]|] eqn:E1; [|done].
    apply restore_removals in E1 as (->&Hnone&Hgone). injection Hts as <-.
    rewrite <-Hc in Hch. apply list_elem_of_fmap in Hch as (i&->&Hx). destruct (ci_Exists i) eqn:He.
    + by rewrite Hgone.
    + rewrite Hnone; [done|]. fold (tabs s). rewrite Hs by auto. rewrite (in_exists _ _ _ (Hi i Hx)) in He.
      apply bool_decide_eq_false in He. by apply eq_None_not_Some.
Qed.

Lemma remove_chains_spec s r s' : tabs s = tabs s0 → removeOwnedChains (K:=K) l s = (r, s') →
  only_owned (tabs s) (tabs s') ∧ (r = Ok tt → removed (tabs s')).
Proof using Hl Hrs.
  intros Hs E. unfold removeOwnedChains in E.
  apply M_bind_inv in E as [(e&[? ?]%collect_ok&_)|(errs&s1&E1&E)]; [done|].
  edestruct (found_loop (λ i, repeat_delete (ci_Chain i) (ci_OwnedJumps i)) 0) with (3 := E1)
    as (Hon&Hch&errs'&[= <-]&Hn).
  { intros ch i s3 r3 s3' Hin. by apply remove_jump_spec. }
  { by rewrite Hs. }
  destruct errs; [|apply join_inv in E as [-> Hr]; split; [done|]; by intros ?%Hr]. specialize (Hn eq_refl).
  rewrite Hs in Hch. case_bool_decide as Hempty.
  - injection E as <- <-. split; [done|]. intros _ ch Hin. split; [|by apply Hn]. rewrite Hch by done.
    apply script_empty in Hempty. destruct (inspected_chains _ _ Hl) as [Hc Hi]. rewrite Forall_forall in Hi.
    rewrite <-Hc in Hin. apply list_elem_of_fmap in Hin as (i&->&Hx). pose proof (in_exists _ _ _ (Hi i Hx)) as He.
    destruct (ci_Exists i) eqn:Hex.
    + exfalso. apply (not_elem_of_nil ("*" +:+ Table (ci_Chain i))). rewrite <-Hempty, list_elem_of_bind. exists i.
      split; [|done]. unfold removal_lines. rewrite Hex. by left.
    + symmetry in He. apply bool_decide_eq_false in He. by apply eq_None_not_Some.
  - apply delete_chains_spec in E as [Hk Hgone]; [|done].
    split; [eapply only_owned_trans; [done|by apply unowned_only]|]. intros Hr ch Hin.
    split; [by apply Hgone|]. rewrite (njumps_unowned (tabs s1)) by done. by apply Hn.
Qed.
End found.

(** No foreign chain, or nothing happens. *)
Definition foreign (ts : tables) : Prop := ∃ ch, ch ∈ Chains rs ∧ foreign_chain ts ch.

Lemma inspect_spec s r s' : inspectFirewallOwnership (K:=K) rs s = (r, s') →
  tabs s' = tabs s ∧ ∀ l, r = Ok l → Forall2 (inspected (tabs s)) (Chains rs) l ∧ ¬ foreign (tabs s).
Proof using Hrs.
  intros [Hs Hl]%inspect_chains_spec; [|by destruct Hrs]. split; [done|]. intros l ->. specialize (Hl l eq_refl).
  split; [done|]. intros (ch&Hin&Hfor). apply list_elem_of_lookup in Hin as [k Hk].
  eapply Forall2_lookup_l in Hl as (i&_&Hi); [|exact Hk]. by destruct Hi.
Qed.
End spec.

(** ** The rulesets of the daemon *)
Lemma forall_jumps (P : string → Prop) u : P u → P (quoted u) → ∀ c, c = u ∨ c = quoted u → P c.
Proof. by intros ?? c [->| ->]. Qed.
Ltac known_chain :=
  split_and!; [by vm_compute..| |by vm_compute|]; [|apply forall_jumps; vm_compute; reflexivity].

Lemma compiled_ruleset_ok p : policy_ok p → ruleset_ok (compiled p).
Proof.
  intros Hp. assert (∀ ch, ch ∈ Chains (compiled p) → Forall (str_free "010") (Rules ch)) as Hr.
  { intros ch Hch. apply Forall_forall. intros r Hr. by destruct (compiled_good p ch r Hp Hch Hr). }
  split_and!.
  - pose proof (Hr _ ltac:(by left)) as H1. pose proof (Hr _ ltac:(right; by left)) as H2.
    pose proof (Hr _ ltac:(right; right; by left)) as H3. cbn [Chains compiled].
    repeat apply Forall_cons_2; [known_chain; done..|constructor].
  - by apply (bool_decide_unpack _).
  - by apply (bool_decide_unpack _).
  - intros c d. cbn [Chains compiled]. rewrite !elem_of_cons, !elem_of_nil.
    intros [->|[->|[->|[]]]] [->|[->|[->|[]]]]; vm_compute; by intros [=].
Qed.

Lemma markSelector_free mark mask : str_free "010" (markSelector mark mask).
Proof.
  assert (∀ v, str_free "010" (hex32 v)) as Hh by (intros; by apply hex32_free). unfold markSelector.
  destruct (mask =? u32_max)%Z.
  - change (str_free "010" (hex32 mark +:+ "")). by rewrite str_app_nil_r.
  - change (str_free "010" (hex32 mark +:+ ("/" +:+ (hex32 mask +:+ "")))).
    rewrite str_app_nil_r, !str_free_app. done.
Qed.
Lemma guard_rule_free g : guard_ok g → str_free "010" (guard_rule g).
Proof.
  intros ([_ Hi]%validInterface_token&_).
  change (str_free "010" ("! -o " +:+ (g_Interface g +:+ (" -m mark --mark " +:+ (markSelector (Firewall.Mark g) (Mask g) +:+
    (" " +:+ (owner +:+ " -j REJECT --reject-with icmp-port-unreachable"))))))).
  rewrite !str_free_app. split_and!; try done. apply markSelector_free.
Qed.
Lemma guard_ruleset_ok cfg rs : compileEgressGuardRuleset cfg = Ok rs → ruleset_ok rs.
Proof.
  unfold compileEgressGuardRuleset. pose proof (CompileEgressGuard_spec (mark_guards cfg)) as Hs.
  destruct (CompileEgressGuard _) as [ch|] eqn:Hc; [|done]. intros [= <-]. destruct Hs as (Hok&_&Ht&Hh&Hn&Hr).
  assert (Comment ch = OwnerComment +:+ ":filter-output") as Hcom.
  { unfold CompileEgressGuard in Hc. destruct (mark_guards cfg); [by injection Hc as <-|].
    destruct (guard_rules _ _); [|done]. by injection Hc as <-. }
  split_and!; cbn [Chains].
  - apply Forall_singleton. unfold chain_ok. rewrite Ht, Hh, Hn, Hcom. known_chain.
    rewrite Hr. destruct (mark_guards cfg) as [|g gs]; [constructor|]. constructor; [by vm_compute|].
    rewrite Forall_fmap, (sort_by_perm g_Interface). apply (Forall_impl _ _ _ Hok). apply guard_rule_free.
  - by apply NoDup_singleton.
  - by apply NoDup_singleton.
  - intros c d ->%list_elem_of_singleton ->%list_elem_of_singleton. unfold chain_key, hook_key. rewrite Ht, Hh, Hn. done.
Qed.
Lemma gateway_ruleset_ok cfg rs : compileGatewayRuleset cfg = Ok rs → ruleset_ok rs.
Proof.
  unfold compileGatewayRuleset. intros Hc. pose proof (Compile_spec (gateway_policy cfg)) as Hs. rewrite Hc in Hs.
  destruct Hs as [Hp ->]. by apply compiled_ruleset_ok.
Qed.

(** ** The handlers *)
Section handlers.
Context {K F : Type} `{NetlinkLaws K} `{IptablesLaws F}.
Implicit Types (s : host K F).

Lemma on_kernel_tabs {A} (m : M (world K) A) s r s' : on_kernel m s = (r, s') → tabs s' = tabs s.
Proof using Type. unfold on_kernel. destruct (m s.1). by intros [= <- <-]. Qed.
Lemma compiled_or_inv {A} (x : result fw_error A) s r s' : compiled_or x s = (r, s') → s' = s ∧ ∀ a, r = Ok a → x = Ok a.
Proof using Type. destruct x; intros [= <- <-]; (split; [done|]); [by intros ? [= ->]|done]. Qed.

(** Inspecting and then changing the chains of a ruleset. *)
Definition guarded_change (rs : Ruleset) (f : list chainInspection → M (host K F) unit) : M (host K F) unit :=
  inspections ← inspectFirewallOwnership rs; f inspections.
Lemma change_spec (rs : Ruleset) (f : list chainInspection → M (host K F) unit) (Q : tables → Prop) s r s' : ruleset_ok rs →
  (∀ l s1 r s', Forall2 (inspected (tabs s)) (Chains rs) l → tabs s1 = tabs s → f l s1 = (r, s') →
     only_owned rs (tabs s1) (tabs s') ∧ (r = Ok tt → Q (tabs s'))) →
  guarded_change rs f s = (r, s') →
  only_owned rs (tabs s) (tabs s') ∧ (foreign rs (tabs s) → r ≠ Ok tt ∧ tabs s' = tabs s) ∧ (r = Ok tt → Q (tabs s')).
Proof using Type.
  intros Hrs Hf E. apply M_bind_inv in E as [(e&E&->)|(l&s1&E1&E)].
  - apply (inspect_spec rs Hrs) in E as [-> _]. split_and!; [apply only_owned_refl|done..].
  - apply (inspect_spec rs Hrs) in E1 as [Hs Hl]. destruct (Hl l eq_refl) as [Hl' Hnf].
    destruct (Hf l s1 r s' Hl' Hs E) as [Hon HQ]. rewrite Hs in Hon. split_and!; [done|by intros ?|done].
Qed.

Lemma up_spec (rs : Ruleset) s r s' : ruleset_ok rs → guarded_change rs (installOwnedChains rs) s = (r, s') →
  only_owned rs (tabs s) (tabs s') ∧ (foreign rs (tabs s) → r ≠ Ok tt ∧ tabs s' = tabs s) ∧
  (r = Ok tt → installed rs (tabs s')).
Proof using Type. intros Hrs. apply change_spec; [done|]. intros l s1 r1 s1' Hl Hs. by eapply install_spec. Qed.
Lemma sysctl_up_spec (rs : Ruleset) (m : M (world K) unit) s r s' : ruleset_ok rs →
  guarded_change rs (λ l, _ ← on_kernel m; installOwnedChains rs l) s = (r, s') →
  only_owned rs (tabs s) (tabs s') ∧ (foreign rs (tabs s) → r ≠ Ok tt ∧ tabs s' = tabs s) ∧
  (r = Ok tt → installed rs (tabs s')).
Proof using Type.
  intros Hrs. apply change_spec; [done|]. intros l s1 r1 s1' Hl Hs [(e&E&->)|(?&s2&E1&E)]%M_bind_inv.
  - apply on_kernel_tabs in E as ->. split; [apply only_owned_refl|done].
  - apply on_kernel_tabs in E1. rewrite <-E1. eapply install_spec; [done..|by rewrite E1|done].
Qed.
Lemma down_spec (rs : Ruleset) s r s' : ruleset_ok rs → guarded_change rs removeOwnedChains s = (r, s') →
  only_owned rs (tabs s) (tabs s') ∧ (foreign rs (tabs s) → r ≠ Ok tt ∧ tabs s' = tabs s) ∧
  (r = Ok tt → removed rs (tabs s')).
Proof using Type. intros Hrs. apply change_spec; [done|]. intros l s1 r1 s1' Hl Hs. by eapply remove_chains_spec. Qed.

(** The four operations on a ruleset that compiles, and whether they install it. *)
Inductive firewall_op (cfg : Config) (rs : Ruleset) : bool → M (host K F) unit → Prop :=
| op_gatewayUp : gw_Enabled (c_Gateway cfg) = true → compileGatewayRuleset cfg = Ok rs → firewall_op cfg rs true (gatewayUp cfg)
| op_gatewayDown : compileGatewayRuleset cfg = Ok rs → firewall_op cfg rs false (gatewayDown cfg)
| op_egressGuardUp : compileEgressGuardRuleset cfg = Ok rs → firewall_op cfg rs true (egressGuardUp cfg)
| op_egressGuardDown : compileEgressGuardRuleset cfg = Ok rs → firewall_op cfg rs false (egressGuardDown cfg).

Lemma firewall_op_spec cfg rs (up : bool) m s r s' : firewall_op cfg rs up m → m s = (r, s') →
  only_owned rs (tabs s) (tabs s') ∧ (foreign rs (tabs s) → r ≠ Ok tt ∧ tabs s' = tabs s) ∧
  (r = Ok tt → if up then installed rs (tabs s') else removed rs (tabs s')).
Proof using Type.
  destruct 1 as [Hen Hc|Hc|Hc|Hc].
  - unfold gatewayUp. rewrite Hen, Hc. apply sysctl_up_spec. by eapply gateway_ruleset_ok.
  - unfold gatewayDown. rewrite Hc. apply down_spec. by eapply gateway_ruleset_ok.
  - unfold egressGuardUp. rewrite Hc. apply up_spec. by eapply guard_ruleset_ok.
  - unfold egressGuardDown. rewrite Hc. apply down_spec. by eapply guard_ruleset_ok.
Qed.

(** C23: installing or removing the daemon's chains leaves every other chain of the
    firewall and every other rule of the hooks as it was and in its order, whichever
    command fails on the way.  If one of the reserved chains holds a rule that is
    not the daemon's, or is jumped to by one, or nothing shows whose it is, the
    operation reports an error and changes nothing. *)
Theorem firewall_op_safe cfg rs (up : bool) m s r s' : firewall_op cfg rs up m → m s = (r, s') →
  only_owned rs (tabs s) (tabs s') ∧ (foreign rs (tabs s) → r ≠ Ok tt ∧ tabs s' = tabs s).
Proof using Type. intros Hop E. destruct (firewall_op_spec _ _ _ _ _ _ _ Hop E) as (?&?&_). auto. Qed.

(** C24: after a successful installation each chain holds exactly the compiled rules
    and its hook has exactly one jump to it, however many there were before; after a
    successful removal the chains are gone and no jump is left. *)
Theorem firewall_op_done cfg rs (up : bool) m s s' : firewall_op cfg rs up m → m s = (Ok tt, s') →
  if up then installed rs (tabs s') else removed rs (tabs s').
Proof using Type. intros Hop E. destruct (firewall_op_spec _ _ _ _ _ _ _ Hop E) as (_&_&H'). by apply H'. Qed.
End handlers.

(** ** A firewall *)
Module Toy.
#[export] Instance plain_rule_dec r : Decision (plain_rule r).
Proof. unfold plain_rule, str_free. apply _. Defined.
Definition plain_tables (ts : tables) : Prop := map_Forall (λ _ rules, Forall plain_rule rules) ts.
#[export] Instance plain_tables_dec ts : Decision (plain_tables ts) := _.
Definition firewall : Type := { ts : tables | plain_tables ts }.
Definition failed (out : string) (f : firewall) : (bool * string) * firewall := ((false, out), f).
(** The new tables, if their rules are plain. *)
Definition commit (o : option tables) (f : firewall) : (bool * string) * firewall :=
  match o with
  | None => failed "failed" f
  | Some ts => match decide (plain_tables ts) with left H => ((true, ""), ts ↾ H) | right _ => failed "failed" f end
  end.
Fixpoint without (r : string) (rules : list string) : option (list string) :=
  match rules with
  | [] => None
  | x :: rules => if bool_decide (x = r) then Some rules else cons x <$> without r rules
  end.
Definition elsewhere (input : string) (ts : tables) : tables :=
  filter (λ kv, kv.1 ∉ touched "" (str_split "010" input)) ts.

#[export] Instance toy_iptables : Iptables firewall := {|
  iptables args f :=
    match args with
    | [_; _; _; table; "-S"; chain] =>
        match `f !! (table, chain) with
        | Some rules => ((true, script ("-N" :: (add_line chain <$> rules))), f)
        | None => failed "iptables: No chain/target/match by that name." f
        end
    | [_; _; _; table; "-I"; hook; "1"; _; _; _; comment; _; name] =>
        commit ((λ rules, <[(table, hook) := jump_rule comment name :: rules]> (`f)) <$> `f !! (table, hook)) f
    | [_; _; _; table; "-D"; hook; _; _; _; comment; _; name] =>
        commit (rules ← `f !! (table, hook); (λ l, <[(table, hook) := l]> (`f)) <$> without (jump_rule comment name) rules) f
    | _ => failed "usage" f
    end;
  iptables_restore input f :=
    commit (ts ← restore (`f) input; if decide (elsewhere input ts = elsewhere input (`f)) then Some ts else None) f |}.

Lemma commit_inv o f ok out f' : commit o f = ((ok, out), f') → if ok then o = Some (`f') else f' = f.
Proof.
  unfold commit, failed. destruct o as [ts|]; [|by intros [= <- <- <-]]. destruct (decide _); by intros [= <- <- <-].
Qed.
Lemma without_Some r rules l : without r rules = Some l → ∃ l1 l2, (r ∉ l1) ∧ rules = l1 ++ r :: l2 ∧ l = l1 ++ l2.
Proof.
  revert l. induction rules as [|x rules IH]; intros l; cbn [without]; [done|]. case_bool_decide as Hx.
  - intros [= <-]. exists [], rules. split_and!; [apply not_elem_of_nil|by rewrite Hx|done].
  - destruct (without r rules) as [l'|]; [|done]. intros [= <-]. destruct (IH l' eq_refl) as (l1&l2&Hn&->& ->).
    exists (x :: l1), l2. split_and!; [|done..]. apply not_elem_of_cons. auto.
Qed.
Lemma elsewhere_lookup input ts key : key ∉ touched "" (str_split "010" input) → elsewhere input ts !! key = ts !! key.
Proof.
  intros Hk. unfold elsewhere. destruct (ts !! key) as [l|] eqn:Hl.
  - by apply map_lookup_filter_Some.
  - by apply map_lookup_filter_None; left.
Qed.

#[local] Instance toy_unicode : UnicodeTables := {| unicode_to_lower := λ s, s |}.
#[export] Instance toy_iptables_laws : IptablesLaws firewall.
Proof.
  refine {| tables_of f := `f; print r := r |}.
  - intros f key rules r Hl Hr. split; [done|]. pose proof (proj2_sig f key rules Hl) as Hts. cbn in Hts.
    rewrite Forall_forall in Hts. by apply Hts.
  - by left.
  - intros table chain f ok out f' E. cbn in E. destruct (`f !! (table, chain)) as [rules|] eqn:Hl; injection E as <- <- <-.
    + split; [done|]. split; [|done]. intros _. exists rules, "-N". by split_and!.
    + by split_and!.
  - intros table hook comment name f ok out f' E%commit_inv. destruct ok; [|by rewrite E].
    destruct (`f !! (table, hook)) as [rules|]; [|done]. injection E as E. by exists rules.
  - intros table hook comment name f ok out f' E%commit_inv. destruct ok; [|by rewrite E].
    destruct (`f !! (table, hook)) as [rules|] eqn:Hl; [|done]. cbn [mbind option_bind] in E.
    destruct (without _ rules) as [l|] eqn:Hw; [|done]. injection E as E.
    apply without_Some in Hw as (l1&l2&Hn&->& ->). by exists l1, l2.
  - intros input f ok out f' E%commit_inv. destruct ok; [|by rewrite E].
    destruct (restore (`f) input) as [ts|]; [|done]. cbn [mbind option_bind] in E.
    destruct (decide _) as [He|]; [|done]. injection E as <-. split.
    + intros _. exists ts. split; [done|]. intros key. destruct (ts !! key); [|done]. cbn. by rewrite map_id.
    + intros key Hk. by rewrite <-(elsewhere_lookup input _ key Hk), He, elsewhere_lookup.
Defined.

(** The chains of a fresh host with a container runtime. *)
Definition fresh : firewall.
Proof.
  refine (exist _ {[ ("filter", "FORWARD") := ["-j DOCKER-USER"]; ("filter", "DOCKER-USER") := ["-j RETURN"];
                     ("filter", "OUTPUT") := []; ("nat", "POSTROUTING") := []; ("mangle", "FORWARD") := [] ]} _).
  apply (bool_decide_unpack _). vm_compute. exact I.
Defined.
Definition cfg : Config := demo_loaded "wg0".
Definition start : host view firewall := ((WgKernel.Demo.start, ∅), fresh).
Definition guard_up : result wg_error unit * host view firewall := egressGuardUp cfg start.
Definition up : result wg_error unit * host view firewall := gatewayUp cfg guard_up.2.
Definition down : result wg_error unit * host view firewall := gatewayDown cfg up.2.
Lemma up_down_Ok : guard_up.1 = Ok tt ∧ up.1 = Ok tt ∧ down.1 = Ok tt.
Proof. vm_compute. auto. Qed.
Definition rules_of (cfg : Config) : Ruleset :=
  match compileGatewayRuleset cfg with Ok rs => rs | Err _ => {| Chains := [] |} end.
Lemma compiles : compileGatewayRuleset cfg = Ok (rules_of cfg).
Proof. vm_compute. reflexivity. Qed.

(** A foreign rule in a reserved chain. *)
Definition taken : firewall.
Proof.
  refine (exist _ (<[("filter", FilterChain) := ["-j ACCEPT"]]> (`fresh)) _).
  apply (bool_decide_unpack _). vm_compute. exact I.
Defined.
Lemma taken_foreign : foreign (rules_of cfg) (`taken).
Proof.
  set (ch := default {| Table := ""; Hook := ""; Name := ""; Comment := ""; Rules := [] |} (head (Chains (rules_of cfg)))).
  exists ch. split.
  - apply list_elem_of_lookup. exists 0. rewrite <-head_lookup. vm_compute. reflexivity.
  - left. exists ["-j ACCEPT"], "-j ACCEPT".
    split; [vm_compute; reflexivity|]. split; [by left|vm_compute; reflexivity].
Qed.
Definition refused : result wg_error unit * host view firewall := gatewayUp cfg ((WgKernel.Demo.start, ∅), taken).

(** A jump that exists is left where it is, also below foreign rules. *)
Definition shadowed : firewall.
Proof.
  refine (exist _ (<[("filter", "OUTPUT") := ["-j ACCEPT"; jump_rule (OwnerComment +:+ ":filter-output") OutputChain]]> (`fresh)) _).
  apply (bool_decide_unpack _). vm_compute. exact I.
Defined.
Example jump_not_at_top :
  (egressGuardUp (K:=view) cfg ((WgKernel.Demo.start, ∅), shadowed)).1 = Ok tt ∧
  tabs (egressGuardUp (K:=view) cfg ((WgKernel.Demo.start, ∅), shadowed)).2 !! ("filter", "OUTPUT") =
  Some ["-j ACCEPT"; jump_rule (OwnerComment +:+ ":filter-output") OutputChain].
Proof. vm_compute. auto. Qed.

Lemma firewall_op_safe_witness :
  only_owned (rules_of cfg) (tabs guard_up.2) (tabs up.2) ∧ refused.1 ≠ Ok tt ∧ tabs refused.2 = `taken.
Proof.
  split.
  - apply (firewall_op_safe cfg (rules_of cfg) true (gatewayUp cfg) guard_up.2 up.1 up.2).
    + apply op_gatewayUp; [vm_compute; reflexivity|exact compiles].
    + apply surjective_pairing.
  - edestruct (firewall_op_safe cfg (rules_of cfg) true (gatewayUp cfg) ((WgKernel.Demo.start, ∅), taken) refused.1 refused.2)
      as [_ Hrefused]; [..|apply Hrefused].
    + apply op_gatewayUp; [vm_compute; reflexivity|exact compiles].
    + apply surjective_pairing.
    + exact taken_foreign.
Defined.
Lemma firewall_op_done_witness : installed (rules_of cfg) (tabs up.2) ∧ removed (rules_of cfg) (tabs down.2).
Proof.
  split.
  - apply (firewall_op_done cfg (rules_of cfg) true (gatewayUp cfg) guard_up.2 up.2).
    + apply op_gatewayUp; [vm_compute; reflexivity|exact compiles].
    + rewrite <-(proj1 (proj2 up_down_Ok)). apply surjective_pairing.
  - apply (firewall_op_done cfg (rules_of cfg) false (gatewayDown cfg) up.2 down.2).
    + apply op_gatewayDown. exact compiles.
    + rewrite <-(proj2 (proj2 up_down_Ok)). apply surjective_pairing.
Defined.
End Toy.
