(* ===== verification/Plan.v ===== *)
(** * dryrun.go, kernel_watch.go, reconcile_status.go: measuring drift

    The dry run reads the kernel and the firewall, lists the objects that are there
    and the objects the configuration asks for, and plans the difference with the
    planner of [KernelPlan].  The watchdog and the drift gauges use the same plans. *)
From S2P Require Import Prelude Netip Firewall Config Startup KernelPlan Netlink Wg WgFrame Gateway.

(** ** Rendering *)
Definition plannedRouteID (name : string) (table : Z) (destination : string) : string :=
  "table=" +:+ itoa table +:+ "/link=" +:+ name +:+ "/dst=" +:+ destination.
Definition plannedRuleValue (r : Rule) : string :=
  "mark=" +:+ hex32 (ru_Mark r) +:+ "/" +:+ hex32 (ruleMask (ru_Mask r)) +:+
  ",table=" +:+ itoa (ru_Table r) +:+ ",protocol=" +:+ itoa (ru_Protocol r).
Definition rule_id (priority : Z) : string := "priority=" +:+ itoa priority.

Definition canonicalCIDR (raw : string) : string :=
  match ParseCIDR raw with None => raw | Some prefix => IPNet_String prefix end.
Definition canonicalAddress (raw : string) : string :=
  match ParseCIDR raw, index_byte "/" raw with
  | Some prefix, Some i =>
      match ParseAddr (str_take i raw) with
      | Some ip => ip_String ip +:+ "/" +:+ itoa (n_ones prefix)
      | None => raw
      end
  | _, _ => raw
  end.

(** ** What is there and what is wanted *)
Definition ownedEvidence (owned : bool) (evidence : string) : string := if owned then evidence else "".
Definition link_evidence : string := "key-derived sakhtar-wg link alias".
Definition address_evidence : string := "exact configured address on owned link".
Definition rule_evidence : string := "reserved priority + rule protocol " +:+ itoa RouteProtocol.

Definition desiredRouteObject (name : string) (table : Z) (destination : string) : Object :=
  {| o_Kind := KernelPlan.Route; o_ID := plannedRouteID name table destination;
     o_Value := "protocol=" +:+ itoa RouteProtocol; o_Owned := true; o_Evidence := route_evidence; o_AllowAdopt := false |}.
Definition linkValue (t : Tunnel) : string := "type=wireguard,mtu=" +:+ itoa (t_MTU t) +:+ ",configuration=desired".
(** The objects of one tunnel; [adopt] is the link's [AllowAdopt]. *)
Definition desired_objects (t : Tunnel) (adopt : bool) : list Object :=
  [ {| o_Kind := KernelPlan.Link; o_ID := t_Name t; o_Value := linkValue t; o_Owned := true;
       o_Evidence := link_evidence; o_AllowAdopt := adopt |};
    {| o_Kind := Address; o_ID := t_Name t +:+ "/" +:+ canonicalAddress (t_Address t);
       o_Value := canonicalAddress (t_Address t); o_Owned := true; o_Evidence := address_evidence; o_AllowAdopt := false |};
    desiredRouteObject (t_Name t) (t_Table t) "0.0.0.0/0" ] ++
  ((λ route, desiredRouteObject (t_Name t) mainTable (canonicalCIDR route)) <$> routes t).
Definition desired_rule (t : Tunnel) : Object :=
  {| o_Kind := KernelPlan.Rule; o_ID := rule_id (t_RulePriority t); o_Value := plannedRuleValue (markRule t);
     o_Owned := true; o_Evidence := rule_evidence; o_AllowAdopt := false |}.

Record survey := { sv_current : list Object; sv_desired : list Object; sv_drift : list Drift }.
Definition no_survey : survey := {| sv_current := []; sv_desired := []; sv_drift := [] |}.
Definition survey_app (a b : survey) : survey :=
  {| sv_current := sv_current a ++ sv_current b; sv_desired := sv_desired a ++ sv_desired b;
     sv_drift := sv_drift a ++ sv_drift b |}.

(** One address or route of the link: the object, and the drift if it is not the
    daemon's on the daemon's link. *)
Definition note (linkOwned : bool) (o : Object) (reason : string) : survey :=
  {| sv_current := [o]; sv_desired := [];
     sv_drift := if linkOwned && negb (o_Owned o)
                 then [{| d_Kind := o_Kind o; d_ID := o_ID o; d_Blocking := false; d_Reason := reason |}] else [] |}.
Definition address_survey (t : Tunnel) (linkOwned : bool) (a : LinkAddr) : survey :=
  match la_Net a with
  | None => no_survey
  | Some n =>
      let owned := linkOwned && bool_decide (addressKey n = canonicalAddress (t_Address t)) in
      note linkOwned
        {| o_Kind := Address; o_ID := t_Name t +:+ "/" +:+ addressKey n; o_Value := addressKey n; o_Owned := owned;
           o_Evidence := ownedEvidence owned address_evidence; o_AllowAdopt := false |}
        "unattributed address on owned link is preserved"
  end.
Definition skipped_route (t : Tunnel) (linkOwned : bool) (desiredAddress : option IPNet) (r : Route) : bool :=
  let ownedPolicyRoute := linkOwned && owned_route r && negb (r_Table r =? mainTable)%Z in
  (negb (r_Table r =? mainTable)%Z && negb (r_Table r =? t_Table t)%Z && negb ownedPolicyRoute) ||
  addressGeneratedRoute r desiredAddress.
Definition route_object (t : Tunnel) (linkOwned : bool) (r : Route) : Object :=
  let owned := linkOwned && owned_route r in
  {| o_Kind := KernelPlan.Route; o_ID := plannedRouteID (t_Name t) (r_Table r) (routeDestination r);
     o_Value := "protocol=" +:+ itoa (r_Protocol r); o_Owned := owned;
     o_Evidence := ownedEvidence owned route_evidence; o_AllowAdopt := false |}.
Definition route_survey (t : Tunnel) (linkOwned : bool) (desiredAddress : option IPNet) (r : Route) : survey :=
  if skipped_route t linkOwned desiredAddress r then no_survey
  else note linkOwned (route_object t linkOwned r) "foreign route on owned link is preserved".
Definition rule_object (rule : Rule) : Object :=
  let owned := (ru_Protocol rule =? RouteProtocol)%Z in
  {| o_Kind := KernelPlan.Rule; o_ID := rule_id (ru_Priority rule); o_Value := plannedRuleValue rule; o_Owned := owned;
     o_Evidence := ownedEvidence owned rule_evidence; o_AllowAdopt := false |}.

Section kernel.
Context {K : Type} `{Netlink K} `{WgKeys}.
Implicit Types (t : Tunnel) (link : Link).

Definition linkOwnershipEvidence link t : string :=
  match ownedLinkMode link t with Some _ => link_evidence | None => "" end.
Definition link_owned link t : bool := bool_decide (is_Some (ownedLinkMode link t)) && bool_decide (l_Type link = "wireguard").
Definition config_matches link t : M (world K) bool :=
  if bool_decide (l_Type link = "wireguard") then
    device ← lift (t_Name t) "inspect wireguard config" (Device (t_Name t)); deviceMatchesTunnel device t
  else mret false.
Definition link_object link t (matches adopt : bool) : Object :=
  {| o_Kind := KernelPlan.Link; o_ID := t_Name t;
     o_Value := if link_owned link t && matches || adopt then linkValue t
                else "type=" +:+ l_Type link +:+ ",mtu=" +:+ itoa (l_MTU link) +:+ ",configuration=drifted";
     o_Owned := link_owned link t; o_Evidence := linkOwnershipEvidence link t; o_AllowAdopt := false |}.

(** The body of the loop for a link that exists. *)
Definition survey_link link t : M (world K) (survey * bool) :=
  matches ← config_matches link t;
  let linkOwned := link_owned link t in
  candidate ← (if negb linkOwned && t_AdoptExisting t then attempt (verifyAdoptionCandidate link t)
               else mret (Err (Refused (t_Name t) "")));
  let adopt := match candidate with Ok _ => true | Err _ => false end in
  addresses ← lift (t_Name t) "list addresses for plan" (AddrList link false);
  routes ← lift (t_Name t) "list routes for plan" (listAllRoutesOnLink link false);
  mret (foldl survey_app {| sv_current := [link_object link t matches adopt]; sv_desired := []; sv_drift := [] |}
          ((address_survey t linkOwned <$> addresses) ++
           (route_survey t linkOwned (netlink_ParseAddr (t_Address t)) <$> routes)), adopt).
Definition survey_tunnel t : M (world K) survey :=
  o ← lookupLink (t_Name t);
  '(found, adopt) ← match o with Some link => survey_link link t | None => mret (no_survey, false) end;
  mret (survey_app found {| sv_current := []; sv_desired := desired_objects t adopt; sv_drift := [] |}).
Fixpoint survey_tunnels (tunnels : list Tunnel) : M (world K) survey :=
  match tunnels with
  | [] => mret no_survey
  | t :: tunnels => a ← survey_tunnel t; b ← survey_tunnels tunnels; mret (survey_app a b)
  end.

Definition survey_rules (tunnels : list Tunnel) (rules : list Rule) : survey :=
  {| sv_current := tunnels ≫= λ t, rule_object <$> filter (λ r, ru_Priority r = t_RulePriority t) rules;
     sv_desired := desired_rule <$> tunnels; sv_drift := [] |}.
Definition stale_links (tunnels : list Tunnel) (links : list Link) : list Drift :=
  (λ l, {| d_Kind := KernelPlan.Link; d_ID := l_Name l; d_Blocking := false;
           d_Reason := "owned marker is not in desired config; cleanup requires the last owning config" |}) <$>
    filter (λ l, has_prefix linkAliasPrefix (l_Alias l) = true ∧ l_Name l ∉ t_Name <$> tunnels) links.

Definition drift_key (d : Drift) : string := d_Kind d +:+ ":" +:+ d_ID d.
(** The observed drifts whose key is not there yet. *)
Fixpoint add_drifts (drifts : list Drift) (keys : gset string) (observed : list Drift) : list Drift :=
  match observed with
  | [] => drifts
  | d :: observed =>
      if bool_decide (drift_key d ∈ keys) then add_drifts drifts keys observed
      else add_drifts (drifts ++ [d]) ({[ drift_key d ]} ∪ keys) observed
  end.
Definition drift_le (a b : Drift) : Prop :=
  if decide (d_Kind a = d_Kind b) then String.le (d_ID a) (d_ID b) else String.le (d_Kind a) (d_Kind b).
#[export] Instance drift_le_dec : RelDecision drift_le.
Proof. intros a b. unfold drift_le. destruct (decide _); apply _. Defined.

Definition buildKernelPlan (cfg : Config) : M (world K) Plan :=
  let tunnels := c_Tunnels cfg in
  found ← survey_tunnels tunnels;
  rules ← lift "" "list policy rules for plan" RuleList;
  links ← lift "" "list links for stale ownership markers" LinkList;
  let all := survey_app found (survey_rules tunnels rules) in
  plan ← of_result (match PlanDiff (sv_current all) (sv_desired all) with
                    | Ok plan => Ok plan | Err _ => Err (Refused "" "plan") end);
  mret {| Operations := Operations plan;
          Drifts := merge_sort drift_le
            (add_drifts (Drifts plan) (list_to_set (drift_key <$> Drifts plan)) (sv_drift all ++ stale_links tunnels links)) |}.
End kernel.

(** ** The firewall *)
Fixpoint remove_quotes (s : string) : string :=
  match s with
  | EmptyString => EmptyString
  | String c s => if bool_decide (c = quote) then remove_quotes s else String c (remove_quotes s)
  end.
Definition canonicalFirewallRule (rule : string) : string := str_join " " (fields (remove_quotes rule)).

(** The action is add or delete. *)
Record firewallPlanOperation := { fo_Action : string; fo_Object : string }.
Definition fo_le (a b : firewallPlanOperation) : Prop :=
  if decide (fo_Object a = fo_Object b) then String.le (fo_Action a) (fo_Action b) else String.le (fo_Object a) (fo_Object b).
#[export] Instance fo_le_dec : RelDecision fo_le.
Proof. intros a b. unfold fo_le. destruct (decide _); apply _. Defined.

Section firewall.
Context {K F : Type} `{Netlink K} `{Iptables F} `{UnicodeTables} `{WgKeys}.

Definition fo (action object : string) : firewallPlanOperation := {| fo_Action := action; fo_Object := object |}.
Definition chain_object (ch : Chain) : string := Table ch +:+ "/" +:+ Name ch.
Definition current_rules (ch : Chain) (output : string) : gset string :=
  let prefix := "-A " +:+ Name ch +:+ " " in
  list_to_set ((λ line, canonicalFirewallRule (str_drop (String.length prefix) line)) <$>
    filter (λ line, has_prefix prefix line = true) (trim_space <$> str_split "010" output)).
Definition desired_rules (ch : Chain) (wanted : bool) : gset string :=
  if wanted then list_to_set (canonicalFirewallRule <$> Rules ch) else ∅.

(** The operations of one chain; [current] are the rules it has. *)
Definition chain_operations (i : chainInspection) (wanted : bool) (current : gset string) : list firewallPlanOperation :=
  let ch := ci_Chain i in
  let desired := desired_rules ch wanted in
  let wantJump := if wanted then 1%nat else 0%nat in
  (if negb (ci_Exists i) && wanted then [fo "add" (chain_object ch)] else []) ++
  ((λ rule, fo "add" (chain_object ch +:+ "/" +:+ rule)) <$> elements (desired ∖ current)) ++
  ((λ rule, fo "delete" (chain_object ch +:+ "/" +:+ rule)) <$> elements (current ∖ desired)) ++
  replicate (wantJump - ci_OwnedJumps i) (fo "add" (Table ch +:+ "/" +:+ Hook ch +:+ "/owned-jump")) ++
  replicate (ci_OwnedJumps i - wantJump) (fo "delete" (Table ch +:+ "/" +:+ Hook ch +:+ "/owned-jump")) ++
  (if negb wanted && ci_Exists i then [fo "delete" (chain_object ch)] else []).
Definition plan_chain (wanted : bool) (i : chainInspection) : M (host K F) (list firewallPlanOperation) :=
  current ← (if ci_Exists i then
               output ← listChain (Table (ci_Chain i)) (Name (ci_Chain i));
               mret (current_rules (ci_Chain i) (default "" output))
             else mret ∅);
  mret (chain_operations i wanted current).
Fixpoint plan_chains (wanted : bool) (l : list chainInspection) : M (host K F) (list firewallPlanOperation) :=
  match l with
  | [] => mret []
  | i :: l => a ← plan_chain wanted i; b ← plan_chains wanted l; mret (a ++ b)
  end.
Definition planOwnedChains (ruleset : Ruleset) (wanted : bool) : M (host K F) (list firewallPlanOperation) :=
  inspections ← inspectFirewallOwnership ruleset; plan_chains wanted inspections.

Definition buildFirewallPlan (cfg : Config) : M (host K F) (list firewallPlanOperation) :=
  guard ← compiled_or (compileEgressGuardRuleset cfg);
  gateway ← compiled_or (compileGatewayRuleset cfg);
  operations ← planOwnedChains guard true;
  gatewayOperations ← planOwnedChains gateway (gw_Enabled (c_Gateway cfg));
  mret (merge_sort fo_le (operations ++ gatewayOperations)).

(** ** Sysctls *)
Record sysctlPlanOperation := {
  so_Key : string; so_Current : string; so_Required : string; so_RestoreOnExit : bool; so_OwnershipReason : string }.
Definition sysctl_reason : string := "global sysctl ownership is not exclusive; previous value is recorded but not restored".
Definition required_sysctls (cfg : Config) : gmap string string :=
  (if bool_decide (c_Tunnels cfg = []) then ∅ else {[ "net/ipv4/conf/all/src_valid_mark" := "1" ]}) ∪
  (if gw_Enabled (c_Gateway cfg) then {[ "net/ipv4/ip_forward" := "1" ]} else ∅).
Fixpoint read_sysctls (required : gmap string string) (keys : list string) : M (world K) (list sysctlPlanOperation) :=
  match keys with
  | [] => mret []
  | k :: keys =>
      raw ← attempt (lift k "read" (ReadSysctl ("/proc/sys/" +:+ k)));
      l ← read_sysctls required keys;
      mret ({| so_Key := k; so_Current := match raw with Ok v => trim_space v | Err _ => "unreadable" end;
               so_Required := default "" (required !! k); so_RestoreOnExit := false;
               so_OwnershipReason := sysctl_reason |} :: l)
  end.
Definition buildSysctlPlan (cfg : Config) : M (world K) (list sysctlPlanOperation) :=
  let required := required_sysctls cfg in read_sysctls required (sorted_set (dom required)).

(** [runPlan] with the loaded configuration, up to the encoding. *)
Record dryRunPlan := { dp_Kernel : Plan; dp_Firewall : list firewallPlanOperation; dp_Sysctls : list sysctlPlanOperation }.
Definition runPlan (cfg : Config) : M (host K F) dryRunPlan :=
  kernelPlan ← on_kernel (buildKernelPlan cfg);
  firewallPlan ← buildFirewallPlan cfg;
  sysctls ← on_kernel (buildSysctlPlan cfg);
  mret {| dp_Kernel := kernelPlan; dp_Firewall := firewallPlan; dp_Sysctls := sysctls |}.

(** ** reconcile_status.go *)
Definition measure (cfg : Config) : M (host K F) (Z * Z * list wg_error) :=
  k ← attempt (on_kernel (buildKernelPlan cfg));
  f ← attempt (buildFirewallPlan cfg);
  mret (match k with Ok plan => Z.of_nat (length (Operations plan) + length (Drifts plan)) | Err _ => 1 end,
        match f with Ok ops => Z.of_nat (length ops) | Err _ => 1 end,
        errors_of k ++ errors_of f)%Z.

(** ** kernel_watch.go *)
Definition action_string (a : Action) : string := match a with Add => "add" | Update => "update" | Delete => "delete" end.
Definition kernelChanges (plan : Plan) : list string :=
  (λ op, action_string (op_Action op) +:+ " " +:+ op_Kind op +:+ " " +:+ op_ID op) <$> Operations plan.
Record kernelWatch := { lastSeen : string }.
Definition observe (w : kernelWatch) (changes : list string) : bool * kernelWatch :=
  let seen := str_join "; " changes in
  if bool_decide (seen = lastSeen w) then (false, w) else (true, {| lastSeen := seen |}).

Definition pendingChanges (cfg : Config) : M (host K F) (list string * bool) :=
  plan ← on_kernel (buildKernelPlan cfg);
  firewall ← buildFirewallPlan cfg;
  mret (kernelChanges plan ++
        (if (0 <? length firewall)%nat then ["firewall " +:+ itoa (Z.of_nat (length firewall)) +:+ " changes"] else []),
        HasBlockingDrift plan).
End firewall.
