(* ===== verification/PlanSpec.v ===== *)
(** * dryrun.go, kernel_watch.go: what a plan says

    Planning reads the kernel and the firewall and changes neither.  A plan without
    operations and without blocking drift means that the owned state is what the
    configuration asks for: the watchdog does not miss a rule, a route, an address
    or a chain. *)
From S2P Require Import Prelude Netip Firewall Config Startup KernelPlan Netlink Wg WgKernel WgFrame WgSpec WgTunnel.
From S2P Require Import Gateway GatewaySpec Plan.

(** ** Strings *)
Lemma str_cut c a b a' b' : str_free c a → str_free c a' → a +:+ String c b = a' +:+ String c b' → a = a' ∧ b = b'.
Proof.
  revert a'. induction a as [|x a IH]; intros [|y a'] Ha Ha'; rewrite ?str_app_nil_l, ?str_app_cons.
  - intros [= ->]. done.
  - intros [= -> _]. by apply str_free_cons in Ha' as [? _].
  - intros [= -> _]. by apply str_free_cons in Ha as [? _].
  - intros [= -> He]. apply str_free_cons in Ha as [_ Ha]. apply str_free_cons in Ha' as [_ Ha'].
    by destruct (IH a' Ha Ha' He) as [-> ->].
Qed.
Lemma itoa_inj a b : itoa a = itoa b → a = b.
Proof. apply (inj pretty). Qed.
Lemma str_app_inv_l p a b : p +:+ a = p +:+ b → a = b.
Proof. apply (inj (String.append p)). Qed.
Lemma hex32_inj a b : is_u32 a → is_u32 b → hex32 a = hex32 b → a = b.
Proof. intros Ha%parse_hex32 Hb%parse_hex32 He. rewrite He in Ha. congruence. Qed.

Lemma plannedRouteID_inj n t d n' t' d' : str_free "/" n → str_free "/" n' →
  plannedRouteID n t d = plannedRouteID n' t' d' → n = n' ∧ t = t' ∧ d = d'.
Proof.
  intros Hn Hn' He%str_app_inv_l. apply (str_cut "/") in He as [Ht%itoa_inj He]; [|by apply itoa_free..].
  apply (str_app_inv_l "link=") in He. apply (str_cut "/") in He as [-> He]; [|done..].
  by apply (str_app_inv_l "dst=") in He as ->.
Qed.
(** A rule whose numbers have the width of their fields. *)
Definition rule_typed (r : Rule) : Prop := is_u32 (ru_Mark r) ∧ is_u32 (ruleMask (ru_Mask r)).
Lemma plannedRuleValue_inj r r' : rule_typed r → rule_typed r' → plannedRuleValue r = plannedRuleValue r' →
  ru_Mark r = ru_Mark r' ∧ ruleMask (ru_Mask r) = ruleMask (ru_Mask r') ∧ ru_Table r = ru_Table r' ∧ ru_Protocol r = ru_Protocol r'.
Proof.
  intros [Hm Hk] [Hm' Hk'] He%str_app_inv_l. apply (str_cut "/") in He as [->%hex32_inj He]; [|by try apply hex32_free..].
  apply (str_cut ",") in He as [->%hex32_inj He]; [|by try apply hex32_free..].
  apply (str_app_inv_l "table=") in He. apply (str_cut ",") in He as [->%itoa_inj He]; [|by apply itoa_free..].
  by apply (str_app_inv_l "protocol="), itoa_inj in He as ->.
Qed.

(** ** Plans without operations *)
Section clean.
Context (current desired : list Object) (plan : Plan) (Hplan : PlanDiff current desired = Ok plan).
Context (Hops : Operations plan = []) (Hblock : HasBlockingDrift plan = false).

Lemma clean_keys : ∃ have want, indexObjects current false = Ok have ∧ indexObjects desired true = Ok want ∧
  ∀ k, Operations (plan_key (have !! k) (want !! k)) = [] ∧ Forall (λ d, d_Blocking d = false) (Drifts (plan_key (have !! k) (want !! k))).
Proof using Hplan Hops Hblock.
  unfold PlanDiff in Hplan. destruct (indexObjects current false) as [have|]; [|done].
  destruct (indexObjects desired true) as [want|]; [|done]. injection Hplan as <-.
  exists have, want. split_and!; [done..|]. intros k. split.
  - destruct (Operations (plan_key _ _)) as [|op ops] eqn:E; [done|]. exfalso.
    apply (not_elem_of_nil op). rewrite <-Hops. apply elem_of_plan_ops. exists k. rewrite E. by left.
  - apply Forall_forall. intros d Hd. destruct (d_Blocking d) eqn:Hb; [|done]. exfalso.
    assert (HasBlockingDrift (plan_maps have want) = true) as Ht; [|congruence].
    apply HasBlockingDrift_true. exists d. split; [|done]. apply elem_of_plan_drifts. by exists k.
Qed.
Lemma clean_desired o : o ∈ desired → ∃ cur, cur ∈ current ∧ key cur = key o ∧ o_Owned cur = true ∧ o_Value cur = o_Value o.
Proof using Hplan Hops Hblock.
  intros Ho. destruct clean_keys as (have&want&Hh&Hw&Hk). destruct (Hk (key o)) as [H1 H2].
  rewrite (indexObjects_elem _ _ _ _ Hw Ho) in H1, H2. destruct (have !! key o) as [cur|] eqn:Hc; [|done].
  destruct (indexObjects_key _ _ _ _ _ Hh Hc) as [Hkey Hin]. cbn in H1, H2. exists cur.
  destruct (o_Owned cur); cbn in *.
  - case_bool_decide; [by split_and!|done].
  - destruct (_ && _); [done|]. apply Forall_cons in H2 as [? _]. done.
Qed.
Lemma clean_current cur : cur ∈ current → o_Owned cur = true → ∃ o, o ∈ desired ∧ key cur = key o.
Proof using Hplan Hops Hblock.
  intros Hc Ho. destruct clean_keys as (have&want&Hh&Hw&Hk). destruct (Hk (key cur)) as [H1 _].
  rewrite (indexObjects_elem _ _ _ _ Hh Hc) in H1. destruct (want !! key cur) as [o|] eqn:Hd.
  - destruct (indexObjects_key _ _ _ _ _ Hw Hd) as [Hkey Hin]. by exists o.
  - cbn in H1. by rewrite Ho in H1.
Qed.
Lemma clean_NoDup : NoDup (key <$> current).
Proof using Hplan.
  unfold PlanDiff in Hplan. destruct (indexObjects current false) eqn:E; [|done]. by apply indexObjects_Ok in E as [[? _] _].
Qed.
End clean.

Definition known_kind (k : string) : Prop := k = KernelPlan.Link ∨ k = Address ∨ k = KernelPlan.Route ∨ k = KernelPlan.Rule.
Lemma key_inj o o' : known_kind (o_Kind o) → known_kind (o_Kind o') → key o = key o' → o_Kind o = o_Kind o' ∧ o_ID o = o_ID o'.
Proof.
  intros Hk Hk'. unfold key. apply (str_cut ":"); [by destruct Hk as [->|[->|[->| ->]]]|by destruct Hk' as [->|[->|[->| ->]]]].
Qed.

(** ** What planning reads *)
Section reads.
Context {K : Type} `{NetlinkLaws K} `{WgKeys}.
Context (R : view → view → Prop) {HR : Frame R}.
Lemma keeps_survey_link link t : keeps R (survey_link link t).
Proof using HR. unfold survey_link, config_matches. keep. Qed.
Lemma keeps_survey_tunnel t : keeps R (survey_tunnel t).
Proof using HR.
  unfold survey_tunnel. apply keeps_bind; [apply _|keep|]. intros o.
  apply keeps_bind; [apply _| |intros [found adopt]; keep]. destruct o; [apply keeps_survey_link|keep].
Qed.
Lemma keeps_survey_tunnels tunnels : keeps R (survey_tunnels tunnels).
Proof using HR. induction tunnels; cbn [survey_tunnels]; [keep|]. pose proof keeps_survey_tunnel. keep; auto. Qed.
Lemma keeps_buildKernelPlan cfg : keeps R (buildKernelPlan cfg).
Proof using HR. unfold buildKernelPlan. cbv zeta. pose proof keeps_survey_tunnels. keep; auto. Qed.
Lemma keeps_read_sysctls required keys : keeps R (read_sysctls required keys).
Proof using HR. induction keys; cbn [read_sysctls]; keep. Qed.
End reads.

Section surveyed.
Context {K : Type} `{NetlinkLaws K} `{WgKeys}.
Implicit Types (t : Tunnel) (link : Link) (s : world K).

Definition addrs_on link (v : view) : list LinkAddr := filter (λ a, la_Index a = l_Index link ∧ (false = true ∨ la_V6 a = false)) (v_addrs v).
Definition routes_on link (v : view) : list Route :=
  filter (λ r, filter_matches {| f_All := false; f_Link := Some (l_Index link); f_Table := 0; f_Protocol := None |} r = true) (v_routes v).
(** The objects of a link. *)
Definition link_objects link t (matches adopt : bool) (addrs : list LinkAddr) (rs : list Route) : list Object :=
  [link_object link t matches adopt] ++ (addrs ≫= λ a, sv_current (address_survey t (link_owned link t) a)) ++
  (rs ≫= λ r, sv_current (route_survey t (link_owned link t) (netlink_ParseAddr (t_Address t)) r)).
Definition surveyed (v : view) t (sv : survey) : Prop := ∃ adopt, sv_desired sv = desired_objects t adopt ∧
  (((t_Name t ∉ l_Name <$> v_links v) ∧ sv_current sv = []) ∨
   ∃ link matches addrs rs, link ∈ v_links v ∧ l_Name link = t_Name t ∧ addrs ≡ₚ addrs_on link v ∧ rs ≡ₚ routes_on link v ∧
     sv_current sv = link_objects link t matches adopt addrs rs).

Lemma surveyed_same v w t sv : same v w → surveyed v t sv → surveyed w t sv.
Proof using Type.
  intros (Hl&Ha&Hr&_) (adopt&Hd&Hc). exists adopt. split; [done|]. destruct Hc as [[Hn Hc]|(link&m&addrs&rs&Hin&Hn&Hpa&Hpr&Hc)].
  - left. split; [|done]. by rewrite <-Hl.
  - right. exists link, m, addrs, rs. rewrite <-Hl. split_and!; [done..| | |done].
    + rewrite Hpa. unfold addrs_on. by rewrite Ha.
    + rewrite Hpr. unfold routes_on. by rewrite Hr.
Qed.

Lemma foldl_surveys a l : sv_current (foldl survey_app a l) = sv_current a ++ (l ≫= sv_current) ∧
  sv_desired (foldl survey_app a l) = sv_desired a ++ (l ≫= sv_desired).
Proof using Type.
  revert a. induction l as [|b l IH]; intros a; csimpl; [by rewrite !app_nil_r|].
  destruct (IH (survey_app a b)) as [-> ->]. cbn. by rewrite <-!app_assoc.
Qed.
Lemma bind_fmap_list {A B C} (f : A → B) (g : B → list C) l : (f <$> l) ≫= g = l ≫= λ a, g (f a).
Proof using Type. induction l; csimpl; congruence. Qed.
Lemma bind_nil_list {A B} (f : A → list B) l : (∀ a, f a = []) → l ≫= f = [].
Proof using Type. intros Hf. induction l; csimpl; [done|]. by rewrite Hf. Qed.

Lemma survey_link_spec link t s sv adopt s' : survey_link link t s = (Ok (sv, adopt), s') → ∃ matches addrs rs,
  addrs ≡ₚ addrs_on link (sees s) ∧ rs ≡ₚ routes_on link (sees s) ∧ sv_desired sv = [] ∧
  sv_current sv = link_objects link t matches adopt addrs rs.
Proof using Type.
  intros E. unfold survey_link in E.
  apply M_bind_inv in E as [(?&_&?)|(m&s1&E1&E)]; [done|].
  apply M_bind_inv in E as [(?&_&?)|(c&s2&E2&E)]; [done|].
  apply M_bind_inv in E as [(?&_&?)|(addrs&s3&E3&E)]; [done|].
  apply M_bind_inv in E as [(?&_&?)|(rs&s4&E4&E)]; [done|]. injection E as <- <- <-.
  assert (same (sees s) (sees s1)) as H1' by (eapply keeps_run; [exact E1|]; unfold config_matches; keep).
  assert (same (sees s1) (sees s2)) as H2' by (eapply keeps_run; [exact E2|]; keep).
  apply lift_inv in E3 as [_ E3]. apply (effect_call _ _ (AddrList_law _ _)) in E3 as [H3' Ha].
  apply lift_inv in E4 as [_ E4]. apply (effect_call _ _ (RouteListFiltered_law _)) in E4 as [H4' Hr].
  exists m, addrs, rs. change (see ?x.1) with (sees x) in *.
  assert (same (sees s) (sees s2)) as H12 by (by etrans). assert (same (sees s) (sees s3)) as H13 by (by etrans).
  destruct H12 as (_&H12&_). destruct H13 as (_&_&H13&_).
  split_and!.
  - rewrite Ha. unfold addrs_on. by rewrite H12.
  - rewrite Hr. unfold routes_on. by rewrite H13.
  - rewrite (proj2 (foldl_surveys _ _)). cbn [sv_desired app]. rewrite bind_app, !bind_fmap_list, !bind_nil_list; [done|..].
    + intros r. unfold route_survey. by destruct (skipped_route _ _ _ _).
    + intros a. unfold address_survey. by destruct (la_Net a).
  - rewrite (proj1 (foldl_surveys _ _)). cbn [sv_current]. rewrite bind_app, !bind_fmap_list. done.
Qed.

Lemma survey_tunnel_spec t s sv s' : survey_tunnel t s = (Ok sv, s') → surveyed (sees s) t sv.
Proof using Type.
  intros E. unfold survey_tunnel in E.
  apply M_bind_inv in E as [(?&_&?)|(o&s1&E1&E)]; [done|]. apply lookupLink_Ok in E1 as [Hs Ho].
  apply M_bind_inv in E as [(?&_&?)|([found adopt]&s2&E2&E)]; [done|]. injection E as <- <-. exists adopt.
  destruct o as [link|].
  - destruct Ho as [Hin Hn]. apply survey_link_spec in E2 as (m&addrs&rs&Ha&Hr&Hd&Hc).
    cbn [survey_app sv_desired sv_current]. rewrite Hd, Hc, app_nil_r. split; [done|]. right.
    destruct Hs as (Hl&Hsa&Hsr&_). exists link, m, addrs, rs. rewrite Hl. split_and!; [done..| | |done].
    + rewrite Ha. unfold addrs_on. by rewrite Hsa.
    + rewrite Hr. unfold routes_on. by rewrite Hsr.
  - injection E2 as <- <- <-. split; [done|]. left. split; [done|]. done.
Qed.
Lemma survey_tunnels_spec ts s sv s' : survey_tunnels ts s = (Ok sv, s') → same (sees s) (sees s') ∧
  ∃ svs, Forall2 (surveyed (sees s)) ts svs ∧ sv_current sv = svs ≫= sv_current ∧ sv_desired sv = svs ≫= sv_desired.
Proof using Type.
  intros E. split; [by eapply keeps_run; [exact E|]; apply keeps_survey_tunnels, _|].
  revert s sv E. induction ts as [|t ts IH]; intros s sv E; cbn [survey_tunnels] in E.
  { injection E as <- <-. exists []. split_and!; [constructor|done..]. }
  apply M_bind_inv in E as [(?&_&?)|(a&s1&E1&E)]; [done|].
  apply M_bind_inv in E as [(?&_&?)|(b&s2&E2&E)]; [done|]. injection E as <- <-.
  assert (same (sees s1) (sees s)) as Hs.
  { symmetry. eapply keeps_run; [exact E1|]. apply keeps_survey_tunnel, _. }
  apply survey_tunnel_spec in E1. apply IH in E2 as (svs&Hf&Hc&Hd). exists (a :: svs). csimpl. rewrite Hc, Hd.
  split_and!; [|done..]. constructor; [done|]. eapply Forall2_impl; [exact Hf|]. intros. by eapply surveyed_same.
Qed.
End surveyed.

(** ** Drift *)
Lemma add_drifts_elem drifts keys observed d : d ∈ drifts → d ∈ add_drifts drifts keys observed.
Proof.
  revert drifts keys. induction observed as [|x l IH]; intros drifts keys Hd; cbn [add_drifts]; [done|].
  case_bool_decide; apply IH; [done|]. apply elem_of_app. by left.
Qed.
Lemma NoDup_fmap_all_eq {A B} (f : A → B) x l : NoDup (f <$> l) → (∀ y, y ∈ l → f y = f x) → x ∈ l → l = [x].
Proof.
  intros Hnd Heq Hx. destruct l as [|a [|b l]]; [by apply elem_of_nil in Hx|by apply list_elem_of_singleton in Hx as ->|].
  apply NoDup_cons in Hnd as [Hn _]. exfalso. apply Hn. rewrite (Heq a), <-(Heq b) by (left || (right; left)). left.
Qed.
Lemma NoDup_fmap_via {A B C} (f : A → B) (g : A → C) l :
  (∀ x y, x ∈ l → y ∈ l → f x = f y → g x = g y) → NoDup (g <$> l) → NoDup (f <$> l).
Proof.
  induction l as [|a l IH]; intros Hfg; [constructor|]. rewrite !fmap_cons, !NoDup_cons. intros [Hn Hnd]. split.
  - intros (y&Heq&Hy)%list_elem_of_fmap. apply Hn. apply list_elem_of_fmap. exists y. split; [|done].
    apply Hfg; [by left|by right|done].
  - apply IH; [|done]. intros x y Hx Hy. apply Hfg; by right.
Qed.

(** ** Soundness for the kernel *)
Section sound.
Context {K : Type} `{NetlinkLaws K} `{WgKeys}.

(** What a loaded configuration says of its tunnels. *)
Record plannable (ts : list Tunnel) : Prop := {
  pl_names : NoDup (t_Name <$> ts);
  pl_priorities : NoDup (t_RulePriority <$> ts);
  pl_plain : Forall (λ t, str_free "/" (t_Name t)) ts;
  pl_masks : Forall (λ t, is_u32 (t_FwmarkMask t)) ts;
  pl_plumbable : Forall plumbable ts }.
Context (ts : list Tunnel) (Hts : plannable ts).

(** The objects of a tunnel are there. *)
Definition in_place (t : Tunnel) (v : view) : Prop := ∃ link,
  link ∈ v_links v ∧ l_Name link = t_Name t ∧ link_owned link t = true ∧
  (∃ a n, a ∈ v_addrs v ∧ la_Index a = l_Index link ∧ la_Net a = Some n ∧ addressKey n = canonicalAddress (t_Address t)) ∧
  plumbed link t v.

Context (k : K) (svs : list survey) (rules : list Rule) (plan : Plan).
Context (Hsv : Forall2 (surveyed (see k)) ts svs) (Hrules : rules ≡ₚ v_rules (see k)) (Htyped : Forall rule_typed rules).
Let current : list Object := (svs ≫= sv_current) ++ (ts ≫= λ t, rule_object <$> filter (λ r, ru_Priority r = t_RulePriority t) rules).
Let desired : list Object := (svs ≫= sv_desired) ++ (desired_rule <$> ts).
Context (Hplan : PlanDiff current desired = Ok plan) (Hops : Operations plan = []) (Hblock : HasBlockingDrift plan = false).

Lemma same_tunnel t t' : t ∈ ts → t' ∈ ts → t_Name t = t_Name t' → t = t'.
Proof using Hts. apply NoDup_fmap_elem, Hts. Qed.
Lemma name_plain t : t ∈ ts → str_free "/" (t_Name t).
Proof using Hts. destruct Hts as [_ _ Hp _ _]. rewrite Forall_forall in Hp. apply Hp. Qed.

(** An object of a link comes from the tunnel's link. *)
Definition from_link (t : Tunnel) (link : Link) (o : Object) : Prop := ∃ matches adopt addrs rs,
  t ∈ ts ∧ link ∈ v_links (see k) ∧ l_Name link = t_Name t ∧ addrs ≡ₚ addrs_on link (see k) ∧ rs ≡ₚ routes_on link (see k) ∧
  o ∈ link_objects link t matches adopt addrs rs ∧ link_objects link t matches adopt addrs rs `sublist_of` current.
Inductive object_of (t : Tunnel) (link : Link) (o : Object) : Prop :=
| of_link matches adopt : o = link_object link t matches adopt → object_of t link o
| of_address a n : a ∈ v_addrs (see k) → la_Index a = l_Index link → la_Net a = Some n → o_Kind o = Address →
    o_ID o = t_Name t +:+ "/" +:+ addressKey n → o_Value o = addressKey n →
    o_Owned o = link_owned link t && bool_decide (addressKey n = canonicalAddress (t_Address t)) → object_of t link o
| of_route r : r ∈ routes_on link (see k) → o = route_object t (link_owned link t) r → object_of t link o.

Lemma from_link_object t link o : from_link t link o → object_of t link o.
Proof using Type.
  intros (m&adopt&addrs&rs&_&_&_&Ha&Hr&Ho&_). unfold link_objects in Ho. rewrite !elem_of_app, !list_elem_of_bind in Ho.
  destruct Ho as [->%list_elem_of_singleton|[(a&Ho&Hin)|(r&Ho&Hin)]].
  - by eapply of_link.
  - rewrite Ha in Hin. apply list_elem_of_filter in Hin as [[Hi _] Hin]. unfold address_survey in Ho.
    destruct (la_Net a) as [n|] eqn:Hn; [|by apply elem_of_nil in Ho]. apply list_elem_of_singleton in Ho as ->.
    by eapply of_address.
  - rewrite Hr in Hin. unfold route_survey in Ho. destruct (skipped_route _ _ _ _); [by apply elem_of_nil in Ho|].
    apply list_elem_of_singleton in Ho as ->. by eapply of_route.
Qed.

Lemma bind_sublist {A B} (f : A → list B) a l : a ∈ l → f a `sublist_of` (l ≫= f).
Proof using Type.
  intros (l1&l2&->)%list_elem_of_split. rewrite bind_app. csimpl. by apply sublist_inserts_l, sublist_inserts_r.
Qed.
Lemma tunnel_surveyed t : t ∈ ts → ∃ sv, sv ∈ svs ∧ surveyed (see k) t sv.
Proof using Hsv.
  intros [i Hi]%list_elem_of_lookup. destruct (Forall2_lookup_l _ _ _ _ _ Hsv Hi) as (sv&Hs&?). exists sv.
  split; [|done]. by eapply list_elem_of_lookup_2.
Qed.
Lemma surveyed_tunnel sv : sv ∈ svs → ∃ t, t ∈ ts ∧ surveyed (see k) t sv.
Proof using Hsv.
  intros [i Hi]%list_elem_of_lookup. destruct (Forall2_lookup_r _ _ _ _ _ Hsv Hi) as (t&Hs&?). exists t.
  split; [|done]. by eapply list_elem_of_lookup_2.
Qed.
Lemma current_origin o : o ∈ current →
  (∃ t link, from_link t link o) ∨
  ∃ t r, t ∈ ts ∧ r ∈ rules ∧ ru_Priority r = t_RulePriority t ∧ o = rule_object r.
Proof using Hsv.
  unfold current. rewrite elem_of_app, !list_elem_of_bind. intros [(sv&Ho&Hin)|(t&Ho&Ht)].
  - left. destruct (surveyed_tunnel sv Hin) as (t&Ht&adopt&_&[[_ Hc]|(link&m&addrs&rs&Hl&Hn&Ha&Hr&Hc)]).
    { rewrite Hc in Ho. by apply elem_of_nil in Ho. }
    exists t, link, m, adopt, addrs, rs. rewrite Hc in Ho. split_and!; [done..|].
    rewrite <-Hc. unfold current. apply sublist_inserts_r. by apply bind_sublist.
  - right. apply list_elem_of_fmap in Ho as (r&->&[Hp Hr]%list_elem_of_filter). by exists t, r.
Qed.
Lemma desired_origin o : o ∈ desired → (∃ t adopt, t ∈ ts ∧ o ∈ desired_objects t adopt) ∨ ∃ t, t ∈ ts ∧ o = desired_rule t.
Proof using Hsv.
  unfold desired. rewrite elem_of_app, list_elem_of_bind. intros [(sv&Ho&Hin)|(t&->&Ht)%list_elem_of_fmap]; [left|by right; exists t].
  destruct (surveyed_tunnel sv Hin) as (t&Ht&adopt&Hd&_). rewrite Hd in Ho. by exists t, adopt.
Qed.
Lemma object_kind t link o : object_of t link o → known_kind (o_Kind o).
Proof using Type. unfold known_kind. intros [m a ->|a n _ _ _ -> _ _ _|r _ ->]; cbn; auto. Qed.
Lemma desired_kind t adopt o : o ∈ desired_objects t adopt → known_kind (o_Kind o).
Proof using Type.
  unfold known_kind. intros [Ho|(c&->&_)%list_elem_of_fmap]%elem_of_app; [|cbn; auto].
  repeat (apply elem_of_cons in Ho as [->|Ho]; [cbn; auto|]). by apply elem_of_nil in Ho.
Qed.
Lemma current_kind o : o ∈ current → known_kind (o_Kind o).
Proof using Hsv.
  intros [(t&link&Ho)|(t&r&_&_&_&->)]%current_origin; [by eapply object_kind, from_link_object|]. unfold known_kind. cbn. auto.
Qed.

(** What stands for a desired object. *)
Lemma found_for t adopt o : t ∈ ts → o ∈ desired_objects t adopt → (∃ sv, sv ∈ svs ∧ sv_desired sv = desired_objects t adopt) →
  ∃ t' link cur, from_link t' link cur ∧ object_of t' link cur ∧
  o_Kind cur = o_Kind o ∧ o_ID cur = o_ID o ∧ o_Owned cur = true ∧ o_Value cur = o_Value o.
Proof using Hsv Hplan Hops Hblock.
  intros Ht Ho (sv&Hs&Hd). destruct (clean_desired current desired plan Hplan Hops Hblock o) as (cur&Hc&Hk&Hown&Hv).
  { unfold desired. apply elem_of_app. left. apply list_elem_of_bind. exists sv. by rewrite Hd. }
  apply key_inj in Hk as [Hkind Hid]; [|by apply current_kind|by eapply desired_kind].
  destruct (current_origin cur Hc) as [(t'&link&Hf)|(t'&r&_&_&_&->)].
  - exists t', link, cur. split_and!; try done. by apply from_link_object.
  - exfalso. apply elem_of_app in Ho as [Ho|(c&->&_)%list_elem_of_fmap]; [|done].
    repeat (apply elem_of_cons in Ho as [->|Ho]; [done|]). by apply elem_of_nil in Ho.
Qed.

(** *** Links and addresses *)
Lemma same_link t t' link link' : t ∈ ts → t' ∈ ts → t_Name t' = t_Name t → link ∈ v_links (see k) → l_Name link = t_Name t →
  link' ∈ v_links (see k) → l_Name link' = t_Name t' → t' = t ∧ link' = link.
Proof using Hts. intros. split; [by apply same_tunnel|]. eapply same_name; [done..|congruence]. Qed.

Lemma own_link t : t ∈ ts → ∃ link cur, from_link t link cur ∧ link_owned link t = true.
Proof using Hts Hsv Hplan Hops Hblock.
  intros Ht. destruct (tunnel_surveyed t Ht) as (sv&Hs&adopt&Hd&_).
  edestruct (found_for t adopt) as (t'&link&cur&Hf&Ho&Hkind&Hid&Hown&_); [done|by left|by eauto|].
  destruct Ho as [m a ->|a n _ _ _ Hk _ _ _|r _ ->]; [|by rewrite Hk in Hkind|done].
  cbn in Hid, Hown. exists link, (link_object link t' m a).
  assert (t' = t) as -> by (destruct Hf as (?&?&?&?&Ht'&_); by apply same_tunnel). done.
Qed.

Section on_link.
Context (t : Tunnel) (link : Link) (lo : Object) (Hf : from_link t link lo) (Hown : link_owned link t = true).
Lemma on_link_facts : t ∈ ts ∧ link ∈ v_links (see k) ∧ l_Name link = t_Name t.
Proof using Hf. by destruct Hf as (?&?&?&?&?&?&?&_). Qed.

Lemma found_on adopt o : o ∈ desired_objects t adopt → (∃ sv, sv ∈ svs ∧ sv_desired sv = desired_objects t adopt) →
  (∀ t' link' cur, t' ∈ ts → object_of t' link' cur → o_Kind cur = o_Kind o → o_ID cur = o_ID o → t_Name t' = t_Name t) →
  ∃ cur, object_of t link cur ∧ o_Kind cur = o_Kind o ∧ o_ID cur = o_ID o ∧ o_Owned cur = true ∧ o_Value cur = o_Value o.
Proof using Hts Hsv Hplan Hops Hblock Hf.
  intros Ho Hs Hname. destruct on_link_facts as (Ht&Hl&Hn).
  destruct (found_for t adopt o Ht Ho Hs) as (t'&link'&cur&(?&?&?&?&Ht'&Hl'&Hn'&_)&Hof&Hk&Hid&?&?).
  destruct (same_link t t' link link') as [-> ->]; eauto 10.
Qed.

Lemma own_address : ∃ a n, a ∈ v_addrs (see k) ∧ la_Index a = l_Index link ∧ la_Net a = Some n ∧
  addressKey n = canonicalAddress (t_Address t).
Proof using Hts Hsv Hplan Hops Hblock Hf.
  destruct on_link_facts as (Ht&_). destruct (tunnel_surveyed t Ht) as (sv&Hs&adopt&Hd&_).
  edestruct (found_on adopt) as (cur&Hof&Hk&Hid&_&Hv); [right; by left|by eauto| |].
  - intros t' link' cur Ht' Hof Hk Hid. destruct Hof as [m a ->|a n _ _ _ _ Hi _ _|r _ ->]; [done| |done].
    rewrite Hi in Hid. apply (str_cut "/") in Hid as [? _]; auto using name_plain.
  - destruct Hof as [m a ->|a n Ha Hi Hn _ _ Hval _|r _ ->]; [done| |done]. exists a, n. rewrite Hval in Hv. auto.
Qed.

(** *** Routes *)
Lemma route_found adopt table dst :
  desiredRouteObject (t_Name t) table dst ∈ desired_objects t adopt → (∃ sv, sv ∈ svs ∧ sv_desired sv = desired_objects t adopt) →
  ∃ r, r ∈ routes_on link (see k) ∧ owned_route r = true ∧ r_Table r = table ∧ routeDestination r = dst.
Proof using Hts Hsv Hplan Hops Hblock Hf Hown.
  intros Hin Hs. destruct on_link_facts as (Ht&_). edestruct (found_on adopt) as (cur&Hof&Hk&Hid&Ho&_); [done..| |].
  - intros t' link' cur Ht' Hof Hk Hid. destruct Hof as [m a ->|a n _ _ _ Hk' _ _ _|r _ ->]; [done|by rewrite Hk' in Hk|].
    apply plannedRouteID_inj in Hid as [? _]; auto using name_plain.
  - destruct Hof as [m a ->|a n _ _ _ Hk' _ _ _|r Hr ->]; [done|by rewrite Hk' in Hk|]. exists r. cbn in Ho.
    apply andb_true_iff in Ho as [_ Ho]. apply plannedRouteID_inj in Hid as (_&?&?); auto using name_plain.
Qed.

Lemma owned_not_skipped r : owned_route r = true → skipped_route t true (netlink_ParseAddr (t_Address t)) r = false.
Proof using Type.
  intros Ho. unfold skipped_route. rewrite Ho. cbn [andb].
  assert (addressGeneratedRoute r (netlink_ParseAddr (t_Address t)) = false) as ->.
  { unfold addressGeneratedRoute. destruct (netlink_ParseAddr _), (r_Dst r); try done.
    unfold owned_route in Ho. apply Z.eqb_eq in Ho as ->. done. }
  by destruct (r_Table r =? mainTable)%Z, (r_Table r =? t_Table t)%Z.
Qed.
Lemma own_routes_listed : ∃ rs, rs ≡ₚ routes_on link (see k) ∧
  (route_object t true <$> filter (λ r, skipped_route t true (netlink_ParseAddr (t_Address t)) r = false) rs) `sublist_of` current.
Proof using Hf Hown.
  destruct Hf as (m&adopt&addrs&rs&_&_&_&_&Hr&_&Hsub). exists rs. split; [done|]. etrans; [|exact Hsub].
  unfold link_objects. rewrite Hown. apply sublist_inserts_l, sublist_inserts_l. clear Hr Hsub.
  induction rs as [|r rs IH]; [done|]. csimpl. unfold route_survey at 1. rewrite filter_cons.
  destruct (skipped_route t true _ r) eqn:E; [by rewrite decide_False|]. rewrite decide_True by done.
  rewrite fmap_cons. cbn [sv_current note app]. by apply sublist_skip.
Qed.
Lemma route_wanted r : r ∈ routes_on link (see k) → owned_route r = true →
  (r_Table r = t_Table t ∧ routeDestination r = "0.0.0.0/0") ∨
  (r_Table r = mainTable ∧ routeDestination r ∈ canonicalCIDR <$> routes t).
Proof using Hts Hsv Hplan Hops Hblock Hf Hown.
  intros Hr Ho. destruct on_link_facts as (Ht&_). destruct own_routes_listed as (rs&Hrs&Hsub). rewrite <-Hrs in Hr.
  assert (route_object t true r ∈ current) as Hc.
  { eapply elem_of_sublist; [|exact Hsub]. apply list_elem_of_fmap_2, list_elem_of_filter. auto using owned_not_skipped. }
  destruct (clean_current current desired plan Hplan Hops Hblock _ Hc) as (o&Hin&Hk); [cbn; by rewrite Ho|].
  destruct (desired_origin o Hin) as [(t'&adopt&Ht'&Hin')|(t'&_&->)].
  - apply key_inj in Hk as [Hkind Hid]; [|by apply current_kind|by eapply desired_kind].
    apply elem_of_app in Hin' as [Hin'|(c&->&Hc')%list_elem_of_fmap].
    + repeat (apply elem_of_cons in Hin' as [->|Hin']; [try done|]); [|by apply elem_of_nil in Hin'].
      apply plannedRouteID_inj in Hid as (Hn&?&?); [|by apply name_plain..]. left. by rewrite (same_tunnel t t').
    + apply plannedRouteID_inj in Hid as (Hn&?&?); [|by apply name_plain..]. right. split; [done|].
      rewrite (same_tunnel t t') by done. apply list_elem_of_fmap. by exists c.
  - apply key_inj in Hk as [Hkind _]; [done|by apply current_kind|]. unfold known_kind. cbn. auto.
Qed.

Lemma filter_sublist_impl {A} (P Q : A → Prop) `{∀ x, Decision (P x), ∀ x, Decision (Q x)} (l : list A) :
  (∀ x, x ∈ l → P x → Q x) → filter P l `sublist_of` filter Q l.
Proof using Type.
  induction l as [|x l IH]; intros HPQ; [done|]. rewrite !filter_cons.
  assert (filter P l `sublist_of` filter Q l) as Hl by (apply IH; intros; apply HPQ; [by right|done]).
  destruct (decide (P x)) as [HP|], (decide (Q x)) as [|HQ]; [by apply sublist_skip| |by apply sublist_cons|done].
  exfalso. apply HQ, HPQ; [by left|done].
Qed.
Lemma own_on_listed r : own_on link r = true → r ∈ v_routes (see k) → r ∈ routes_on link (see k) ∧ owned_route r = true.
Proof using Type.
  unfold own_on. rewrite !andb_true_iff. intros [[Hv Hi] Ho] Hr. split; [|done]. apply list_elem_of_filter. split; [|done].
  unfold filter_matches. cbn. by rewrite Hv, Hi.
Qed.
Lemma listed_own_on r : r ∈ routes_on link (see k) → owned_route r = true → own_on link r = true ∧ r ∈ v_routes (see k).
Proof using Type.
  intros [Hm Hr]%list_elem_of_filter Ho. split; [|done]. unfold own_on. rewrite Ho. unfold filter_matches in Hm. cbn in Hm.
  by destruct (r_V6 r), (r_LinkIndex r =? l_Index link)%Z.
Qed.
Lemma own_routes_NoDup (p : Route → bool) : (∀ r, p r = true → own_on link r = true) → NoDup (routeID <$> pick p (v_routes (see k))).
Proof using Hplan Hf Hown.
  intros Hp. destruct own_routes_listed as (rs&Hrs&Hsub).
  assert (pick p (v_routes (see k)) ≡ₚ pick p rs) as ->.
  { rewrite Hrs. apply reflexive_eq. symmetry. apply list_filter_filter_l. intros r Hr.
    apply Hp in Hr. unfold own_on in Hr. rewrite !andb_true_iff in Hr. destruct Hr as [[Hv Hi] _].
    unfold filter_matches. cbn. by rewrite Hv, Hi. }
  apply (NoDup_fmap_via _ (λ r, key (route_object t true r))).
  - intros r r' _ _ He%str_app_inv_l. apply (str_cut "/") in He as [Ht%itoa_inj He]; [|by apply itoa_free..].
    apply (str_app_inv_l "link=") in He. apply (str_cut "/") in He as [_ He]; [|by apply itoa_free..].
    apply (str_app_inv_l "dst=") in He. unfold key. cbn. by rewrite Ht, He.
  - pose proof (clean_NoDup current desired plan Hplan) as Hnd. eapply sublist_NoDup; [exact Hnd|].
    rewrite (list_fmap_compose (route_object t true) key). apply fmap_sublist. etrans; [|exact Hsub].
    apply fmap_sublist, filter_sublist_impl. intros r _ Hr%Hp. apply owned_not_skipped.
    unfold own_on in Hr. rewrite !andb_true_iff in Hr. tauto.
Qed.
Definition route_id (table : Z) (dst : string) : string := "table=" +:+ itoa table +:+ "/link=" +:+ itoa (l_Index link) +:+ "/dst=" +:+ dst.
Lemma own_routeID r : own_on link r = true → routeID r = route_id (r_Table r) (routeDestination r).
Proof using Type.
  unfold own_on. rewrite !andb_true_iff, Z.eqb_eq. intros [[_ Hi] _]. unfold routeID, route_id. by rewrite Hi.
Qed.
(** The routes of a class are there when they are wanted and the wanted ones are there. *)
Lemma routes_exact (p : Route → bool) table dsts : NoDup (route_id table <$> dsts) →
  (∀ r, p r = true → own_on link r = true ∧ r_Table r = table) →
  (∀ r, own_on link r = true → r_Table r = table → p r = true) →
  (∀ r, r ∈ v_routes (see k) → p r = true → routeDestination r ∈ dsts) →
  (∀ dst, dst ∈ dsts → ∃ r, r ∈ routes_on link (see k) ∧ owned_route r = true ∧ r_Table r = table ∧ routeDestination r = dst) →
  routeID <$> pick p (v_routes (see k)) ≡ₚ route_id table <$> dsts.
Proof using Hplan Hf Hown.
  intros Hnd Hp Hp' Hw Hfound. apply NoDup_Permutation; [apply own_routes_NoDup; intros r Hr; by apply Hp|done|].
  intros x. rewrite !list_elem_of_fmap. split.
  - intros (r&->&[Hpr Hr]%list_elem_of_filter). destruct (Hp r Hpr) as [Ho Ht]. rewrite own_routeID, Ht by done.
    eexists; split; [done|]. by apply Hw.
  - intros (dst&->&Hd). destruct (Hfound dst Hd) as (r&Hr&Ho&Ht&Hdst). destruct (listed_own_on r Hr Ho) as [Hon Hin].
    exists r. rewrite own_routeID, Ht, Hdst by done. split; [done|]. apply list_elem_of_filter. auto.
Qed.

Lemma own_plumbable : plumbable t.
Proof using Hts Hf.
  destruct on_link_facts as (Ht&_). destruct Hts as [_ _ _ _ Hp]. rewrite Forall_forall in Hp. by apply Hp.
Qed.
Lemma default_routed : routed link 0 [owned_to link (t_Table t) zero_net] (default_relevant t) (see k).
Proof using Hts Hsv Hplan Hops Hblock Hf Hown.
  destruct own_plumbable as [Hmain _]. destruct on_link_facts as (Ht&_). destruct (tunnel_surveyed t Ht) as (sv&Hs&adopt&Hd&_).
  unfold routed. change (routeID <$> [owned_to link (t_Table t) zero_net]) with (route_id (t_Table t) <$> ["0.0.0.0/0"]).
  change (own_in link 0 (default_relevant t)) with (own_default link t).
  assert (∀ r, r ∈ v_routes (see k) → own_default link t r = true → r_Table r = t_Table t ∧ routeDestination r = "0.0.0.0/0") as Hall.
  { intros r Hr. rewrite own_default_iff, andb_true_iff, negb_true_iff, Z.eqb_neq. intros [Ho Hne].
    destruct (own_on_listed r Ho Hr) as [Hl Hor]. destruct (route_wanted r Hl Hor) as [?|[? _]]; done. }
  assert (pick (own_default link t) (v_routes (see k)) =
    pick (λ r, own_default link t r && (r_Table r =? t_Table t)%Z) (v_routes (see k))) as ->.
  { apply filter_ext_in. intros r Hr. rewrite andb_true_iff, Z.eqb_eq. split; [|tauto]. intros Ho. by destruct (Hall r Hr Ho). }
  apply routes_exact.
  - apply NoDup_singleton.
  - intros r. rewrite andb_true_iff, own_default_iff, andb_true_iff, Z.eqb_eq. tauto.
  - intros r Ho Htab. rewrite own_default_iff, Ho, Htab, Z.eqb_refl. cbn. rewrite andb_true_r. by apply negb_true_iff, Z.eqb_neq.
  - intros r Hr [Ho _]%andb_true_iff. destruct (Hall r Hr Ho) as [_ ->]. by left.
  - intros dst ->%list_elem_of_singleton. eapply route_found; [|by eauto]. right. right. by left.
Qed.

Lemma desired_routes_ids cidrs : Forall (λ c, ipv4_cidr c ≠ None) cidrs →
  ∃ l, desired_routes link (t_Name t) cidrs = Ok l ∧ routeID <$> l = route_id mainTable <$> (canonicalCIDR <$> cidrs).
Proof using Type.
  induction 1 as [|c cidrs Hc _ (l&IH&Hl)]; [by exists []|]. cbn [desired_routes]. unfold ipv4_cidr in Hc.
  destruct (ParsePrefix c) as [p|] eqn:Hp; [|done]. destruct (Is4 (p_ip p)) eqn:H4; [|done].
  destruct (ParsePrefix_ParseCIDR c p Hp H4) as [n Hn]. rewrite Hn, IH. eexists. split; [done|].
  rewrite !fmap_cons, Hl. assert (canonicalCIDR c = IPNet_String n) as -> by (unfold canonicalCIDR; by rewrite Hn). done.
Qed.
Lemma main_routed : ∃ l, desired_routes link (t_Name t) (routes t) = Ok l ∧ routed link mainTable l main_relevant (see k).
Proof using Hts Hsv Hplan Hops Hblock Hf Hown.
  destruct own_plumbable as [Hmain H4]. destruct on_link_facts as (Ht&_). destruct (tunnel_surveyed t Ht) as (sv&Hs&adopt&Hd&_).
  destruct (desired_routes_ids _ H4) as (l&Hl&Hids). exists l. split; [done|]. unfold routed. rewrite Hids.
  change (own_in link mainTable main_relevant) with (own_main link). apply routes_exact.
  - assert (NoDup (key <$> desired)) as Hnd.
    { unfold PlanDiff in Hplan. destruct (indexObjects current false); [|done].
      destruct (indexObjects desired true) eqn:E; [|done]. by apply indexObjects_Ok in E as [[? _] _]. }
    apply (NoDup_fmap_via _ (λ dst, key (desiredRouteObject (t_Name t) mainTable dst))).
    + intros x y _ _ He%str_app_inv_l. apply (str_app_inv_l (itoa mainTable)), (str_app_inv_l "/link=") in He.
      apply (str_app_inv_l (itoa (l_Index link))), (str_app_inv_l "/dst=") in He. by rewrite He.
    + eapply sublist_NoDup; [exact Hnd|]. rewrite (list_fmap_compose (desiredRouteObject (t_Name t) mainTable) key).
      apply fmap_sublist. unfold desired. apply sublist_inserts_r. etrans; [|by apply (bind_sublist sv_desired), Hs].
      rewrite Hd. unfold desired_objects. apply sublist_inserts_l. by rewrite <-list_fmap_compose.
  - intros r. rewrite own_main_iff, andb_true_iff, Z.eqb_eq. done.
  - intros r Ho Htab. by rewrite own_main_iff, Ho, Htab, Z.eqb_refl.
  - intros r Hr. rewrite own_main_iff, andb_true_iff, Z.eqb_eq. intros [Ho Htab].
    destruct (own_on_listed r Ho Hr) as [Hr' Hor]. destruct (route_wanted r Hr' Hor) as [[? _]|[_ ?]]; [congruence|done].
  - intros dst (c&->&Hc)%list_elem_of_fmap. eapply route_found; [|by eauto]. unfold desired_objects.
    apply elem_of_app. right. apply list_elem_of_fmap. by exists c.
Qed.
End on_link.

(** *** Rules *)
Lemma rule_in_place t : t ∈ ts → ruled t (see k).
Proof using Hts Hsv Hrules Htyped Hplan Hops Hblock.
  intros Ht. set (at_t := filter (λ r, ru_Priority r = t_RulePriority t) rules).
  assert (∃ r, r ∈ at_t ∧ ruleEqual r (markRule t) = true) as (r&Hr&He).
  { destruct (clean_desired current desired plan Hplan Hops Hblock (desired_rule t)) as (cur&Hc&Hk&Hown&Hv).
    { unfold desired. apply elem_of_app. right. by apply list_elem_of_fmap_2. }
    apply key_inj in Hk as [Hkind Hid]; [|by apply current_kind|unfold known_kind; cbn; auto].
    destruct (current_origin cur Hc) as [(t'&link&Hf)|(t'&r&_&Hr&_&->)].
    { apply from_link_object in Hf as [m a ->|a n _ _ _ Hk _ _ _|r _ ->]; [done|by rewrite Hk in Hkind|done]. }
    apply str_app_inv_l, itoa_inj in Hid. exists r. split; [by apply list_elem_of_filter|].
    rewrite Forall_forall in Htyped. destruct Hts as [_ _ _ Hm _]. rewrite Forall_forall in Hm.
    apply plannedRuleValue_inj in Hv as (Hmark&Hmask&Htab&Hprot); [|by apply Htyped|split; [apply wrap32_u32|by apply Hm]].
    unfold ruleEqual. by rewrite Hmark, Hmask, Htab, Hprot, Hid, !Z.eqb_refl. }
  exists r. split; [done|]. assert (pick (at_priority t) (v_rules (see k)) ≡ₚ at_t) as ->.
  { rewrite <-Hrules. apply reflexive_eq. apply filter_ext_in. intros x _. unfold at_priority. by rewrite Z.eqb_eq. }
  assert (NoDup (key ∘ rule_object <$> at_t)) as Hnd.
  { eapply sublist_NoDup; [exact (clean_NoDup _ _ _ Hplan)|]. rewrite list_fmap_compose. apply fmap_sublist.
    unfold current. apply sublist_inserts_l.
    apply (bind_sublist (λ t, rule_object <$> filter (λ r, ru_Priority r = t_RulePriority t) rules) t ts Ht). }
  apply reflexive_eq, (NoDup_fmap_all_eq (key ∘ rule_object)); [done| |done].
  intros x [Hx _]%list_elem_of_filter. apply list_elem_of_filter in Hr as [Hr _]. unfold compose, key. cbn. by rewrite Hx, Hr.
Qed.

Lemma all_in_place t : t ∈ ts → in_place t (see k).
Proof using Hts Hsv Hrules Htyped Hplan Hops Hblock.
  intros Ht. destruct (own_link t Ht) as (link&cur&Hf&Hown). exists link.
  destruct (on_link_facts t link cur Hf) as (_&Hl&Hn). split_and!; try done.
  - by eapply own_address.
  - split; [by apply rule_in_place|]. split; [by eapply default_routed|by eapply main_routed].
Qed.
End sound.

Section kernel_sound.
Context {K : Type} `{NetlinkLaws K} `{WgKeys}.
Implicit Types s : world K.

Lemma buildKernelPlan_in_place cfg s plan s' : plannable (c_Tunnels cfg) → Forall rule_typed (v_rules (sees s)) →
  buildKernelPlan cfg s = (Ok plan, s') → Operations plan = [] → HasBlockingDrift plan = false →
  Forall (λ t, in_place t (sees s)) (c_Tunnels cfg).
Proof using Type.
  intros Hts Htyped E Hops Hblock. unfold buildKernelPlan in E.
  apply M_bind_inv in E as [(?&_&?)|(found&s1&E1&E)]; [done|].
  apply survey_tunnels_spec in E1 as [Hs (svs&Hsv&Hc&Hd)].
  apply M_bind_inv in E as [(?&_&?)|(rules&s2&E2&E)]; [done|].
  apply lift_inv in E2 as [_ E2]. apply (effect_call _ _ RuleList_law) in E2 as [_ Hrules].
  apply M_bind_inv in E as [(?&_&?)|(links&s3&_&E)]; [done|]. cbv zeta in E.
  apply M_bind_inv in E as [(?&_&?)|(plan0&s4&E4&E)]; [done|]. injection E as <- _. cbn [Operations] in Hops.
  cbn [survey_app sv_current sv_desired survey_rules] in E4. rewrite Hc, Hd in E4.
  destruct (PlanDiff _ _) as [plan1|] eqn:Hplan; [|done]. injection E4 as -> _.
  change (see ?x.1) with (sees x) in *. destruct Hs as (_&_&_&Hru). rewrite <-Hru in Hrules.
  apply Forall_forall. intros t Ht. eapply (all_in_place _ Hts s.1 svs rules plan0); try done.
  - by rewrite Hrules.
  - apply not_true_is_false. intros (d&Hin&Hb)%HasBlockingDrift_true.
    rewrite (proj2 (HasBlockingDrift_true _)) in Hblock; [done|].
    exists d. split; [|done]. cbn [Drifts]. rewrite merge_sort_Permutation. by apply add_drifts_elem.
Qed.
End kernel_sound.

(** ** Reading only *)
Section host.
Context {K F : Type} `{NetlinkLaws K} `{IptablesLaws F} `{WgKeys}.
Implicit Types (s : host K F).

Definition reads {A} (m : M (host K F) A) : Prop := ∀ s r s', m s = (r, s') → same (sees s.1) (sees s'.1) ∧ tabs s' = tabs s.
Lemma reads_ret {A} (a : A) : reads (mret a).
Proof using Type. by intros s r s' [= <- <-]. Qed.
Lemma reads_refuse {A} tunnel what : reads (refuse tunnel what : M (host K F) A).
Proof using Type. by intros s r s' [= <- <-]. Qed.
Lemma reads_of_option {A} tunnel what (o : option A) : reads (of_option tunnel what o : M (host K F) A).
Proof using Type. destruct o; [apply reads_ret|apply reads_refuse]. Qed.
Lemma reads_compiled_or {A} (x : result fw_error A) : reads (compiled_or x).
Proof using Type. destruct x; [apply reads_ret|apply reads_refuse]. Qed.
Lemma reads_bind {A B} (m : M (host K F) A) (f : A → M (host K F) B) : reads m → (∀ a, reads (f a)) → reads (m ≫= f).
Proof using Type.
  intros Hm Hf s r s' [(e&E&->)|(a&s1&E1&E)]%M_bind_inv; [by eapply Hm|].
  apply Hm in E1 as [H1' H2']. apply Hf in E as [H3' H4']. split; [by etrans|congruence].
Qed.
Lemma reads_attempt {A} (m : M (host K F) A) : reads m → reads (attempt m).
Proof using Type. intros Hm s r s' (r'&->&E)%attempt_inv. by eapply Hm. Qed.
Lemma reads_on_kernel {A} (m : M (world K) A) : keeps same m → reads (on_kernel m).
Proof using Type.
  intros Hm s r s' E. split; [|by eapply on_kernel_tabs]. unfold on_kernel in E. destruct (m s.1) as [r1 w] eqn:E1.
  injection E as <- <-. by eapply keeps_run.
Qed.
Lemma reads_listChain table chain : reads (listChain table chain).
Proof using Type.
  intros s r s' E. split; [|by eapply listChain_spec].
  apply M_bind_inv in E as [(e&E&->)|([ok out]&s1&E&E')]; [by apply run_inv in E as (?&?&[=]&_)|].
  apply run_inv in E as (?&?&[= <- <-]&Hs&_). destruct ok; [|destruct (says_missing out)]; injection E' as _ <-; by rewrite Hs.
Qed.
Create HintDb reads.
Hint Resolve reads_ret reads_refuse reads_of_option reads_compiled_or reads_attempt reads_on_kernel reads_listChain : reads.
Ltac read :=
  lazymatch goal with
  | |- reads (_ ≫= _) => apply reads_bind; [|intros ?]; read
  | |- reads (let '(_, _) := ?x in _) => destruct x; read
  | |- reads (if ?b then _ else _) => destruct b; read
  | |- reads (match ?x with _ => _ end) => destruct x; read
  | |- _ => eauto with reads
  end.

Lemma reads_inspect rs : reads (inspectFirewallOwnership rs).
Proof using Type.
  unfold inspectFirewallOwnership. induction (Chains rs) as [|c l IH]; cbn [inspect_chains]; [read|].
  unfold inspect_chain. read.
Qed.
Lemma reads_planOwnedChains rs wanted : reads (planOwnedChains rs wanted).
Proof using Type.
  unfold planOwnedChains. apply reads_bind; [apply reads_inspect|]. intros l.
  induction l as [|i l IH]; cbn [plan_chains]; [read|]. unfold plan_chain. read.
Qed.
Hint Resolve reads_planOwnedChains : reads.
Lemma reads_buildFirewallPlan cfg : reads (buildFirewallPlan cfg).
Proof using Type. unfold buildFirewallPlan. read. Qed.
Lemma reads_buildKernelPlan cfg : reads (on_kernel (buildKernelPlan cfg)).
Proof using Type. apply reads_on_kernel, keeps_buildKernelPlan, _. Qed.
Lemma reads_buildSysctlPlan cfg : reads (on_kernel (buildSysctlPlan cfg)).
Proof using Type. apply reads_on_kernel, keeps_read_sysctls, _. Qed.
Hint Resolve reads_buildFirewallPlan reads_buildKernelPlan reads_buildSysctlPlan : reads.
Lemma reads_runPlan cfg : reads (runPlan cfg).
Proof using Type. unfold runPlan. read. Qed.
Lemma reads_measure cfg : reads (measure cfg).
Proof using Type. unfold measure. read. Qed.
Lemma reads_pendingChanges cfg : reads (pendingChanges cfg).
Proof using Type. unfold pendingChanges. read. Qed.

(** The dry run, the drift measurement and the watchdog's inspection change
    nothing: links, addresses, routes, rules and firewall tables are afterwards what
    they were before, whether the run succeeds or fails. *)
Theorem runPlan_reads cfg s :
  let unchanged s' := same (sees s.1) (sees s'.1) ∧ tabs s' = tabs s in
  unchanged (runPlan cfg s).2 ∧ unchanged (measure cfg s).2 ∧ unchanged (pendingChanges cfg s).2.
Proof using Type.
  split_and!; [eapply reads_runPlan|eapply reads_runPlan|eapply reads_measure|eapply reads_measure|
    eapply reads_pendingChanges|eapply reads_pendingChanges]; apply surjective_pairing.
Qed.

(** ** Soundness for the firewall *)
Definition chain_in_place (wanted : bool) (ch : Chain) (ts : tables) : Prop :=
  if wanted then njumps ch ts = 1 ∧ ∃ rules, ts !! chain_key ch = Some rules ∧
    list_to_set (C := gset string) (canonicalFirewallRule <$> rules) = list_to_set (canonicalFirewallRule <$> Rules ch)
  else njumps ch ts = 0 ∧ ts !! chain_key ch = None.

Lemma listed_lines name rules : (∀ r, r ∈ rules → trim_space (add_line name r) = add_line name r) →
  filter (λ line, has_prefix ("-A " +:+ name +:+ " ") line = true) (trim_space <$> (add_line name <$> rules) ++ [""]) = add_line name <$> rules.
Proof using Type.
  induction rules as [|r rules IH]; intros Htrim; [done|]. rewrite fmap_cons. cbn [app]. rewrite fmap_cons.
  rewrite Htrim by (by left). rewrite filter_cons_True by apply has_prefix_add_line. f_equal. apply IH. intros; apply Htrim; by right.
Qed.
Lemma current_rules_listed ch out s : listed (Table ch) (Name ch) (Some out) s →
  ∃ rules, tabs s !! chain_key ch = Some rules ∧ current_rules ch out = list_to_set (canonicalFirewallRule <$> rules).
Proof using Type.
  intros (rules&first&Hl&Hsp&Hp&Htrim). exists rules. split; [done|]. unfold current_rules. rewrite Hsp, fmap_cons.
  rewrite filter_cons_False by (by rewrite Hp). rewrite listed_lines by done. rewrite <-list_fmap_compose. f_equal.
  apply list_fmap_ext. intros i r _. cbn [compose]. unfold add_line. by rewrite !str_app_assoc, str_drop_app.
Qed.

Lemma chain_operations_nil i wanted cur : chain_operations i wanted cur = [] →
  cur = desired_rules (ci_Chain i) wanted ∧ ci_Exists i = wanted ∧ ci_OwnedJumps i = if wanted then 1 else 0.
Proof using Type.
  unfold chain_operations. rewrite !app_nil. intros (Hadd&Hd&Hc&Hj1&Hj2&Hdel).
  apply fmap_nil_inv, elements_empty_inv in Hd. apply fmap_nil_inv, elements_empty_inv in Hc.
  apply (f_equal length) in Hj1, Hj2. rewrite length_replicate in Hj1, Hj2. cbn [length] in Hj1, Hj2.
  split_and!; [|by destruct wanted, (ci_Exists i)|destruct wanted; lia].
  apply set_eq. intros x. split; intros Hx; apply dec_stable; intros Hn; apply (not_elem_of_empty (C := gset string) x).
  - rewrite <-Hc. by apply elem_of_difference.
  - rewrite <-Hd. by apply elem_of_difference.
Qed.
Lemma plan_chains_spec rs wanted s0 l s s' : Forall chain_ok (Chains rs) → (∀ i, i ∈ l → ci_Chain i ∈ Chains rs ∧ inspected (tabs s0) (ci_Chain i) i) →
  tabs s = tabs s0 → plan_chains (K:=K) wanted l s = (Ok [], s') →
  Forall (λ i, chain_in_place wanted (ci_Chain i) (tabs s0)) l.
Proof using Type.
  intros Hok. revert s. induction l as [|i l IH]; intros s Hl Hs E; [constructor|]. cbn [plan_chains] in E.
  apply M_bind_inv in E as [(?&_&?)|(ops&s1&E1&E)]; [done|].
  apply M_bind_inv in E as [(?&_&?)|(rest&s2&E2&E)]; [done|]. injection E as Happ <-.
  apply app_nil in Happ as [-> ->]. destruct (Hl i ltac:(by left)) as [Hch Hin]. unfold plan_chain in E1.
  apply M_bind_inv in E1 as [(?&_&?)|(cur&s1'&Ecur&E1)]; [done|]. injection E1 as Hops <-.
  apply chain_operations_nil in Hops as (->&Hex&Hj).
  rewrite (in_jumps _ _ _ Hin) in Hj. pose proof (in_exists _ _ _ Hin) as Hex'. rewrite Hex in Hex', Ecur.
  rewrite Forall_forall in Hok. destruct (Hok _ Hch) as (_&_&Hname&_).
  destruct wanted.
  - apply M_bind_inv in Ecur as [(?&_&?)|(o&s3&E3&Ecur)]; [done|]. injection Ecur as Hcur <-.
    apply listChain_listed in E3 as [Hs3 Ho]; [|done]. specialize (Ho o eq_refl). symmetry in Hex'. apply bool_decide_eq_true in Hex'.
    destruct o as [out|]; [|unfold listed in Ho; rewrite Hs in Ho; unfold chain_key in Hex'; rewrite Ho in Hex'; by destruct Hex'].
    apply current_rules_listed in Ho as (rules&Hl'&Hset). constructor.
    + split; [done|]. exists rules. rewrite <-Hs. split; [done|]. by rewrite <-Hset.
    + eapply (IH s3); [intros; apply Hl; by right|congruence|done].
  - injection Ecur as <-. constructor.
    + split; [done|]. symmetry in Hex'. apply bool_decide_eq_false in Hex'. by apply eq_None_not_Some.
    + eapply (IH s); [intros; apply Hl; by right|done..].
Qed.

Lemma planOwnedChains_spec rs wanted s s' : ruleset_ok rs → planOwnedChains (K:=K) rs wanted s = (Ok [], s') →
  tabs s' = tabs s ∧ Forall (λ ch, chain_in_place wanted ch (tabs s)) (Chains rs).
Proof using All.
  intros Hrs E. split; [by eapply reads_planOwnedChains|]. unfold planOwnedChains in E.
  apply M_bind_inv in E as [(?&_&?)|(l&s1&E1&E)]; [done|].
  apply (inspect_spec rs Hrs) in E1 as [Hs Hl]. destruct (Hl l eq_refl) as [Hl' _].
  destruct (inspected_chains rs _ _ Hl') as [Hc Hi]. rewrite <-Hc, Forall_fmap. rewrite Forall_forall in Hi.
  eapply plan_chains_spec; [by destruct Hrs| |exact Hs|exact E]. intros i Hx. split; [|by apply Hi].
  rewrite <-Hc. by apply list_elem_of_fmap_2.
Qed.
(** The chains of a ruleset, [None] if it does not compile. *)
Definition ruleset_in_place (rs : result fw_error Ruleset) (wanted : bool) (ts : tables) : Prop :=
  match rs with Ok rs => Forall (λ ch, chain_in_place wanted ch ts) (Chains rs) | Err _ => False end.
Lemma buildFirewallPlan_in_place cfg s s' : buildFirewallPlan (K:=K) cfg s = (Ok [], s') →
  ruleset_in_place (compileEgressGuardRuleset cfg) true (tabs s) ∧
  ruleset_in_place (compileGatewayRuleset cfg) (gw_Enabled (c_Gateway cfg)) (tabs s).
Proof using All.
  intros E. unfold buildFirewallPlan in E.
  apply M_bind_inv in E as [(?&_&?)|(guard&s1&E1&E)]; [done|]. apply compiled_or_inv in E1 as [-> Hg]. rewrite (Hg guard eq_refl).
  apply M_bind_inv in E as [(?&_&?)|(gateway&s2&E2&E)]; [done|]. apply compiled_or_inv in E2 as [-> Hw]. rewrite (Hw gateway eq_refl).
  apply M_bind_inv in E as [(?&_&?)|(ops&s3&E3&E)]; [done|].
  apply M_bind_inv in E as [(?&_&?)|(ops'&s4&E4&E)]; [done|]. injection E as Happ _.
  assert (ops ++ ops' = []) as [-> ->]%app_nil.
  { apply Permutation_nil_r. by rewrite <-Happ, merge_sort_Permutation. }
  apply planOwnedChains_spec in E3 as [Hs3 H3']; [|by eapply guard_ruleset_ok, Hg].
  apply planOwnedChains_spec in E4 as [_ H4']; [|by eapply gateway_ruleset_ok, Hw]. rewrite Hs3 in H4'. done.
Qed.

Lemma pendingChanges_in_place cfg s s' : plannable (c_Tunnels cfg) → Forall rule_typed (v_rules (sees s.1)) →
  pendingChanges cfg s = (Ok ([], false), s') →
  Forall (λ t, in_place t (sees s.1)) (c_Tunnels cfg) ∧
  ruleset_in_place (compileEgressGuardRuleset cfg) true (tabs s) ∧
  ruleset_in_place (compileGatewayRuleset cfg) (gw_Enabled (c_Gateway cfg)) (tabs s).
Proof using Type.
  intros Hts Htyped E. unfold pendingChanges in E. apply M_bind_inv in E as [(?&_&?)|(plan&s1&E1&E)]; [done|].
  apply M_bind_inv in E as [(?&_&?)|(ops&s2&E2&E)]; [done|]. injection E as [Hk Hf]%app_nil Hb _.
  apply fmap_nil_inv in Hk. destruct ops as [|? ops]; [|done]. pose proof (on_kernel_tabs _ _ _ _ E1) as Ht.
  apply buildFirewallPlan_in_place in E2. rewrite Ht in E2. split; [|done]. unfold on_kernel in E1.
  destruct (buildKernelPlan cfg s.1) as [r w] eqn:Ek. injection E1 as -> _. by eapply buildKernelPlan_in_place.
Qed.

(** C25: what the watchdog vouches for.  If it finds no pending change and no blocking
    drift, then every tunnel of the configuration has its link, marked as the
    daemon's, with the configured address; exactly its rule at its priority; the
    default route in its table and its routes in the main table and no other route of
    the daemon's on its link; and the chains of the egress guard and of the gateway
    hold the compiled rules with one jump to each, or are absent if the gateway is
    disabled. *)
Theorem pendingChanges_sound cfg s s' : plannable (c_Tunnels cfg) → Forall rule_typed (v_rules (sees s.1)) →
  pendingChanges cfg s = (Ok ([], false), s') →
  Forall (λ t, in_place t (sees s.1)) (c_Tunnels cfg) ∧
  ruleset_in_place (compileEgressGuardRuleset cfg) true (tabs s) ∧
  ruleset_in_place (compileGatewayRuleset cfg) (gw_Enabled (c_Gateway cfg)) (tabs s).
Proof using Type. apply pendingChanges_in_place. Qed.
End host.

(** ** Loaded configurations *)
Lemma name_no_slash s : interfaceNameRE s = true → str_free "/" s.
Proof. unfold interfaceNameRE. intros [_ Hs]%andb_true_iff. by eapply (str_free_bytes name_char). Qed.
(** Masks are [uint32] fields. *)
Lemma loaded_plannable `{UnicodeTables} toASCII ParseKey decode raw c :
  parseConfig toASCII ParseKey decode raw = Ok c → Forall (λ t, is_u32 (t_FwmarkMask t)) (c_Tunnels c) → plannable (c_Tunnels c).
Proof.
  intros (_&seen&groups&Hval&Hinv)%parseConfig_validated Hmask. destruct Hinv as [_ Hnd _ _ Hal _ Hok].
  pose proof (v_allocations _ _ _ _ _ _ Hval) as Ha. rewrite Hal in Ha. apply ValidateAllocations_iff in Ha as [Ha Hp].
  rewrite Forall_fmap in Ha. rewrite Forall_forall in Ha, Hok. split; [done| | |done|].
  - apply (pairwise_NoDup _ al_Priority) in Hp; [|by intros a b (?&?&?)]. by rewrite <-list_fmap_compose in Hp.
  - apply Forall_forall. intros t Ht. apply name_no_slash. by destruct (Hok t Ht) as [[? _] _ _ _ _].
  - apply Forall_forall. intros t Ht. destruct (Hok t Ht) as [_ _ _ _ Hr]. split; [|done].
    destruct (Ha t Ht) as (_&_&_&_&_&Htab&_). cbn in Htab. unfold mainTable. lia.
Qed.

(** ** The example *)
Module PlanDemo.
Import (hints) WgKernel.Demo GatewaySpec.Toy.
#[local] Instance plan_unicode : UnicodeTables := {| unicode_to_lower := λ s, s |}.
Definition cfg : Config :=
  let c := demo_loaded "wg0" in
  {| c_Tunnels := [WgKernel.Demo.tunnel]; c_Groups := c_Groups c; c_Proxy := c_Proxy c; c_Gateway := c_Gateway c;
     c_RouteRefresh := c_RouteRefresh c; c_HealthInterval := c_HealthInterval c; c_PfSync := c_PfSync c;
     c_Management := c_Management c; c_HealthProbe := c_HealthProbe c |}.
Definition before : host view GatewaySpec.Toy.firewall := ((WgKernel.Demo.start, ∅), GatewaySpec.Toy.fresh).
Definition up : result wg_error unit * host view GatewaySpec.Toy.firewall :=
  (_ ← egressGuardUp cfg; _ ← on_kernel (tunnelUp WgKernel.Demo.tunnel); gatewayUp cfg) before.
Definition pending (s : host view GatewaySpec.Toy.firewall) : result wg_error (list string * bool) := (pendingChanges cfg s).1.

Lemma up_runs : up.1 = Ok tt ∧ pending up.2 = Ok ([], false).
Proof. vm_compute. auto. Qed.

(** The same host after someone else changed the MTU of the tunnel's link. *)
Definition with_links (f : Link → Link) (s : host view GatewaySpec.Toy.firewall) : host view GatewaySpec.Toy.firewall :=
  let v := s.1.1 in
  (({| v_links := f <$> v_links v; v_addrs := v_addrs v; v_routes := v_routes v; v_rules := v_rules v |}, s.1.2), s.2).
Example mtu_drift_unseen : pending (with_links (λ l, set_mtu l 9000) up.2) = Ok ([], false).
Proof. vm_compute. reflexivity. Qed.
(** The same host without its policy rules. *)
Example lost_rule_seen :
  let v := up.2.1.1 in
  pending (({| v_links := v_links v; v_addrs := v_addrs v; v_routes := v_routes v; v_rules := [] |}, ∅), up.2.2) =
  Ok (["add rule priority=31000"], false).
Proof. vm_compute. reflexivity. Qed.

Lemma cfg_plannable : plannable (c_Tunnels cfg).
Proof.
  split.
  - apply NoDup_singleton.
  - apply NoDup_singleton.
  - apply Forall_singleton. by vm_compute.
  - apply Forall_singleton. unfold is_u32. cbn. lia.
  - apply Forall_singleton. exact demo_plumbable.
Qed.
Lemma runPlan_reads_witness : tabs (runPlan cfg up.2).2 = tabs up.2.
Proof. exact (proj2 (proj1 (runPlan_reads cfg up.2))). Defined.
Definition typed_b (r : Rule) : bool :=
  (0 <=? ru_Mark r)%Z && (ru_Mark r <=? u32_max)%Z && (0 <=? ruleMask (ru_Mask r))%Z && (ruleMask (ru_Mask r) <=? u32_max)%Z.
Lemma up_typed : Forall rule_typed (v_rules (sees up.2.1)).
Proof.
  assert (forallb typed_b (v_rules (sees up.2.1)) = true) as Hb by (vm_compute; reflexivity).
  rewrite forallb_forall in Hb. apply Forall_forall. intros r Hr%list_elem_of_In%Hb. revert Hr. unfold typed_b, rule_typed, is_u32, u32_max.
  rewrite !andb_true_iff, !Z.leb_le. lia.
Qed.
Lemma pending_run : pendingChanges cfg up.2 = (Ok ([], false), (pendingChanges cfg up.2).2).
Proof.
  pose proof (proj2 up_runs) as Hp. unfold pending in Hp. destruct (pendingChanges cfg up.2) as [r s'].
  cbn [fst snd] in *. by rewrite Hp.
Qed.
Lemma pendingChanges_sound_witness : in_place WgKernel.Demo.tunnel (sees up.2.1).
Proof.
  apply (Forall_singleton (λ t, in_place t (sees up.2.1))).
  exact (proj1 (pendingChanges_sound cfg up.2 (pendingChanges cfg up.2).2 cfg_plannable up_typed pending_run)).
Defined.
End PlanDemo.
