(* ===== verification/Updater.v ===== *)
(** * routesrc.go, pfsync.go, listserver.go: fetched routes

    The updater merges the CIDRs of the route sources into the routes of the
    tunnels, keeps the last good set of a source that fails, and mirrors the result.
    Fetching, decoding JSON, the cache file and the push to pfSense are not part of
    the sources: they are arguments. *)
From S2P Require Import Prelude Netip RouteSource Config Startup Netlink.

(** ** Parsers *)
Definition maxSourceBytes : Z := Z.shiftl 8 20.
Definition too_long (b : string) : bool := (maxSourceBytes <? Z.of_nat (String.length b))%Z.

Definition normalizeIPv4CIDR (s : string) : option string :=
  let s := trim_space s in
  if bool_decide (s = "") then None
  else if negb (str_contains "/" s) then
    match ParseIP s with
    | Some ip => match To4 ip with Some v => Some (ip_String (Addr4 v) +:+ "/32") | None => None end
    | None => None
    end
  else match ParseCIDR s, index_byte "/" s with
       | Some ipnet, Some i =>
           match ParseAddr (str_take i s) with
           | Some ip => match To4 ip with Some _ => Some (IPNet_String ipnet) | None => None end
           | None => None
           end
       | _, _ => None
       end.

(** [strings.IndexAny(line, " \t,;")]. *)
Definition is_separator (c : ascii) : bool := bool_decide (c = " "%char ∨ c = "009"%char ∨ c = ","%char ∨ c = ";"%char).
Fixpoint first_field (s : string) : string :=
  match s with
  | EmptyString => EmptyString
  | String c s => if is_separator c then EmptyString else String c (first_field s)
  end.
Definition parse_line (line : string) : option string :=
  let line := trim_space line in
  if bool_decide (line = "") || has_prefix "#" line then None else normalizeIPv4CIDR (first_field line).

Inductive source_error :=
| SourceTooLong
| NothingParsed
| BadJSON
| HTTPStatus (code : Z)
| UnknownFormat (format : string)
| FetchFailed (what : string).

Definition some_cidrs (out : list string) : result source_error (list string) :=
  match out with [] => Err NothingParsed | _ => Ok out end.
Definition parseCIDRLines (b : string) : result source_error (list string) :=
  if too_long b then Err SourceTooLong else some_cidrs (omap parse_line (str_split "010" b)).
(** [unmarshal] gives the prefixes of the document. *)
Definition parseRIPEPrefixes (unmarshal : string → option (list string)) (b : string) : result source_error (list string) :=
  if too_long b then Err SourceTooLong
  else match unmarshal b with None => Err BadJSON | Some prefixes => some_cidrs (omap normalizeIPv4CIDR prefixes) end.

(** [fetchSource]; [get] is the request with the status and the body, an error if it
    fails or the body is longer than the bound. *)
Definition fetchSource (unmarshal : string → option (list string)) (get : RouteSource → result string (Z * string))
    (src : RouteSource) : result source_error (list string) :=
  match get src with
  | Err what => Err (FetchFailed what)
  | Ok (status, body) =>
      if negb (status =? 200)%Z then Err (HTTPStatus status)
      else if too_long body then Err SourceTooLong
      else if bool_decide (rs_Format src = "cidr-lines") then parseCIDRLines body
      else if bool_decide (rs_Format src = "ripe-prefixes") then parseRIPEPrefixes unmarshal body
      else Err (UnknownFormat (rs_Format src))
  end.

(** ** pfsync.go *)
#[export] Instance PfSync_eq_dec : EqDecision PfSync.
Proof. solve_decision. Defined.
Record PfSyncer := { ps_config : PfSync; ps_port : Z; ps_keep : list string; ps_last : list string }.
Definition NewPfSyncer (c : PfSync) : PfSyncer :=
  {| ps_config := c; ps_port := or_zero (pf_SSHPort c) 22; ps_keep := pf_KeepNetworks c; ps_last := [] |}.
Definition desired (p : PfSyncer) (cidrs : list string) : list string := AggregateIPv4 (ps_keep p ++ cidrs).
Inductive push_outcome := Rejected | Skipped | Failed | Pushed.
(** [push] sends the list and gives the remote's answer; the list sent, if any, is
    part of the result. *)
Definition Reconcile (push : string → result string string) (p : PfSyncer) (cidrs : list string) :
    push_outcome * option string * PfSyncer :=
  let nets := desired p cidrs in
  if (length nets <? 5)%nat then (Rejected, None, p)
  else if bool_decide (ps_last p = nets) then (Skipped, None, p)
  else
    let csv := str_join "," nets in
    match push csv with
    | Err _ => (Failed, Some csv, p)
    | Ok out => if has_prefix "ERR" out then (Rejected, Some csv, p)
                else (Pushed, Some csv, {| ps_config := ps_config p; ps_port := ps_port p; ps_keep := ps_keep p; ps_last := nets |})
    end.

(** ** The updater *)
Record RouteUpdater := {
  u_base : Config; u_fetched : gmap string (list string); u_refresh : Z; u_trigger : bool;
  u_pf : option PfSyncer; u_pfFrom : string }.

Definition hasRouteSources (c : Config) : bool := existsb (λ t, negb (length (route_sources t) =? 0)) (c_Tunnels c).
Definition needsRouteUpdater (c : Config) : bool := hasRouteSources c || pf_Enabled (c_PfSync c).
Definition sortDedup (l : list string) : list string := MergeDedup [l].
Definition equalStrings (a b : list string) : bool := bool_decide (a = b).

(** [loadCache]; [cache] is the decoded file, [None] if it cannot be used. *)
Definition load_cache (cache : option (gmap string (list string))) : gmap string (list string) :=
  match cache with None => ∅ | Some m => sortDedup <$> m end.
Definition NewRouteUpdater (base : Config) (cache : option (gmap string (list string))) : RouteUpdater :=
  let enabled := pf_Enabled (c_PfSync base) in
  {| u_base := base; u_fetched := load_cache cache; u_refresh := seconds (c_RouteRefresh base); u_trigger := false;
     u_pf := if enabled then Some (NewPfSyncer (c_PfSync base)) else None;
     u_pfFrom := if enabled then pf_FromTunnel (c_PfSync base) else "" |}.

(** The loop of [mergeBaseLocked] with its set of seen routes. *)
Fixpoint add_new (merged : list string) (set : gset string) (l : list string) : list string * gset string :=
  match l with
  | [] => (merged, set)
  | c :: l => if bool_decide (c ∈ set) then add_new merged set l else add_new (merged ++ [c]) ({[ c ]} ∪ set) l
  end.
Definition merged_routes (fetched : gmap string (list string)) (t : Tunnel) : list string :=
  let '(merged, set) := add_new [] ∅ (omap normalizeIPv4CIDR (routes t)) in
  let '(merged, _) := add_new merged set (route_sources t ≫= λ s, default [] (fetched !! rs_Name s)) in
  sort_strings merged.
Definition with_routes (t : Tunnel) (l : list string) : Tunnel :=
  {| t_Name := t_Name t; t_PrivateKey := t_PrivateKey t; t_Address := t_Address t; t_MTU := t_MTU t;
     t_Fwmark := t_Fwmark t; t_FwmarkMask := t_FwmarkMask t; t_Table := t_Table t; t_RulePriority := t_RulePriority t;
     t_AdoptExisting := t_AdoptExisting t; t_Routes := match l with [] => None | _ => Some l end;
     t_RouteSources := t_RouteSources t; t_Peer := t_Peer t; t_Resolver := t_Resolver t |}.
Definition with_tunnels (c : Config) (ts : list Tunnel) : Config :=
  {| c_Tunnels := ts; c_Groups := c_Groups c; c_Proxy := c_Proxy c; c_Gateway := c_Gateway c;
     c_RouteRefresh := c_RouteRefresh c; c_HealthInterval := c_HealthInterval c; c_PfSync := c_PfSync c;
     c_Management := c_Management c; c_HealthProbe := c_HealthProbe c |}.
Definition merge_base (fetched : gmap string (list string)) (base : Config) : Config :=
  with_tunnels base ((λ t, with_routes t (merged_routes fetched t)) <$> c_Tunnels base).
Definition MergeBase (u : RouteUpdater) (base : Config) : Config := merge_base (u_fetched u) base.
Definition Merge (u : RouteUpdater) : Config := MergeBase u (u_base u).
Definition currentRoutes (u : option RouteUpdater) (queued : Config) : Config :=
  match u with None => queued | Some u => Merge u end.

Definition with_fetched (u : RouteUpdater) (fetched : gmap string (list string)) : RouteUpdater :=
  {| u_base := u_base u; u_fetched := fetched; u_refresh := u_refresh u; u_trigger := u_trigger u;
     u_pf := u_pf u; u_pfFrom := u_pfFrom u |}.

(** [SetBase]; a nil and an empty list of networks are the same here; the send on the trigger channel of capacity one never blocks. *)
Definition SetBase (u : RouteUpdater) (base : Config) : RouteUpdater :=
  let pfChanged := negb (bool_decide (c_PfSync (u_base u) = c_PfSync base)) in
  let enabled := pf_Enabled (c_PfSync base) in
  {| u_base := base; u_fetched := u_fetched u; u_refresh := seconds (c_RouteRefresh base); u_trigger := true;
     u_pf := if enabled then match u_pf u with
                             | Some pf => if pfChanged then Some (NewPfSyncer (c_PfSync base)) else Some pf
                             | None => Some (NewPfSyncer (c_PfSync base)) end
             else None;
     u_pfFrom := if enabled then pf_FromTunnel (c_PfSync base) else "" |}.
Definition refreshInterval (u : RouteUpdater) : Z :=
  if (u_refresh u <=? 0)%Z then (6 * 3600 * second)%Z else u_refresh u.

(** ** A cycle *)
Section cycle.
Context (fetch : RouteSource → result source_error (list string)).

(** One source: what is kept for it, and whether that changed. *)
Definition fetch_one (fetched : gmap string (list string)) (s : RouteSource) : gmap string (list string) * bool :=
  match fetch s with
  | Err _ => (fetched, false)
  | Ok cidrs =>
      let cidrs := sortDedup cidrs in
      if equalStrings (default [] (fetched !! rs_Name s)) cidrs then (fetched, false)
      else (<[rs_Name s := cidrs]> fetched, true)
  end.
(** The loop over the sources with its set of seen names. *)
Fixpoint fetch_all (seen : gset string) (fetched : gmap string (list string)) (changed : bool) (l : list RouteSource) :
    gmap string (list string) * bool :=
  match l with
  | [] => (fetched, changed)
  | s :: l =>
      if bool_decide (rs_Name s ∈ seen) then fetch_all seen fetched changed l
      else let '(fetched, c) := fetch_one fetched s in
           fetch_all ({[ rs_Name s ]} ∪ seen) fetched (changed || c) l
  end.
Definition sources_of (base : Config) : list RouteSource := c_Tunnels base ≫= route_sources.

(** The fetching part of [cycle] against the base it read, the flag for
    [saveCache], and the configuration it queues. *)
Definition cycle (u : RouteUpdater) : RouteUpdater * bool * Config :=
  let '(fetched, changed) := fetch_all ∅ (u_fetched u) false (sources_of (u_base u)) in
  let u := with_fetched u fetched in (u, changed, Merge u).

(** The routes [mirrorToPfSense] pushes. *)
Definition mirrored (u : RouteUpdater) : option (list string) :=
  match u_pf u with
  | None => None
  | Some _ => routes <$> head (filter (λ t, t_Name t = u_pfFrom u) (c_Tunnels (Merge u)))
  end.
Definition mirrorToPfSense (push : string → result string string) (u : RouteUpdater) :
    option (push_outcome * option string) * RouteUpdater :=
  match u_pf u, mirrored u with
  | Some pf, Some l =>
      let '(outcome, sent, pf) := Reconcile push pf l in
      (Some (outcome, sent), {| u_base := u_base u; u_fetched := u_fetched u; u_refresh := u_refresh u; u_trigger := u_trigger u;
                                u_pf := Some pf; u_pfFrom := u_pfFrom u |})
  | _, _ => (None, u)
  end.
End cycle.

(** ** reconcile_status.go, listserver.go *)
Definition without_pfsync (c : Config) : Config :=
  let p := c_PfSync c in
  {| c_Tunnels := c_Tunnels c; c_Groups := c_Groups c; c_Proxy := c_Proxy c; c_Gateway := c_Gateway c;
     c_RouteRefresh := c_RouteRefresh c; c_HealthInterval := c_HealthInterval c;
     c_PfSync := {| pf_Enabled := false; pf_SSHHost := pf_SSHHost p; pf_SSHPort := pf_SSHPort p; pf_SSHUser := pf_SSHUser p;
                    pf_SSHKey := pf_SSHKey p; pf_KnownHosts := pf_KnownHosts p; pf_FromTunnel := pf_FromTunnel p;
                    pf_KeepNetworks := pf_KeepNetworks p |};
     c_Management := c_Management c; c_HealthProbe := c_HealthProbe c |}.
Definition effectiveConfig (cfg : Config) (cache : option (gmap string (list string))) : Config :=
  Merge (NewRouteUpdater (without_pfsync cfg) cache).
Definition list_body (cfg : Config) : string :=
  foldr (λ c s, c +:+ nl +:+ s) "" (c_Tunnels cfg ≫= routes).
