(* ===== verification/Status.v ===== *)
(** * reconcile_status.go: recorded and live drift

    The status file is its decoded content, [None] if it is missing or cannot be read;
    whether writing it succeeds is an argument, and so is the text of an error. *)
From S2P Require Import Prelude Netip Health Firewall Config Startup KernelPlan Netlink Wg Gateway Plan Updater.

Record recordedSysctl := { rc_Required : string; rc_Previous : string; rc_RestoreOnExit : bool }.
Record reconcileStatus := {
  ks_LastApplyTime : Z; ks_LastApplySuccess : bool; ks_LastApplyError : string; ks_KernelDrift : Z; ks_FirewallDrift : Z;
  ks_Sysctls : gmap string recordedSysctl }.
(** The clock and whether every file operation of a recording succeeds. *)
Record status_io := { io_now : Z; io_written : bool }.

(** The texts of the errors. *)
Class ErrorText := {
  error_text : list wg_error → string; monitor_error_text : option Health.Monitor.new_error → string;
  source_error_text : source_error → string }.

Section status.
Context {K F : Type} `{Netlink K} `{Iptables F} `{UnicodeTables} `{WgKeys} `{ErrorText}.

(** The values this process required replace those of the previous file. *)
Definition recorded_sysctls (required : gmap string sysctlRecord) (previous : option reconcileStatus) : gmap string recordedSysctl :=
  ((λ r, {| rc_Required := sr_Required r; rc_Previous := sr_Previous r; rc_RestoreOnExit := false |}) <$> required) ∪
  match previous with Some p => ks_Sysctls p | None => ∅ end.
Definition recordReconcileStatus (io : status_io) (kernelDrift firewallDrift : Z) (applyErr : list wg_error)
    (required : gmap string sysctlRecord) (file : option reconcileStatus) : option reconcileStatus :=
  if io_written io then
    Some {| ks_LastApplyTime := io_now io; ks_LastApplySuccess := bool_decide (applyErr = []);
            ks_LastApplyError := match applyErr with [] => "" | _ => error_text applyErr end;
            ks_KernelDrift := kernelDrift; ks_FirewallDrift := firewallDrift; ks_Sysctls := recorded_sysctls required file |}
  else file.
(** Recording with the sysctls of this process. *)
Definition record (io : status_io) (kernelDrift firewallDrift : Z) (applyErr : list wg_error) (file : option reconcileStatus) :
    M (host K F) (option reconcileStatus) :=
  λ s, (Ok (recordReconcileStatus io kernelDrift firewallDrift applyErr s.1.2 file), s).
Definition measureAndRecordDrift (io : status_io) (cfg : Config) (applyErr : list wg_error) (file : option reconcileStatus) :
    M (host K F) (option reconcileStatus) :=
  m ← measure cfg;
  let '(kernelDrift, firewallDrift, errs) := m in record io kernelDrift firewallDrift (applyErr ++ errs) file.

Definition liveDrift (cfg : Config) (cache : option (gmap string (list string))) : M (host K F) (Z * Z) :=
  let cfg := effectiveConfig cfg cache in
  plan ← on_kernel (buildKernelPlan cfg);
  firewallPlan ← buildFirewallPlan cfg;
  mret (Z.of_nat (length (Operations plan) + length (Drifts plan)), Z.of_nat (length firewallPlan)).
(** What [printRecordedReconcileStatus] says of the live state. *)
Inductive live_verdict := Unmeasured | LiveInSync | LiveDrifted (kernel firewall : Z).
Definition live_status (cfg : Config) (cache : option (gmap string (list string))) : M (host K F) live_verdict :=
  r ← attempt (liveDrift cfg cache);
  mret (match r with
        | Err _ => Unmeasured
        | Ok (kernel, firewall) => if (kernel =? 0)%Z && (firewall =? 0)%Z then LiveInSync else LiveDrifted kernel firewall
        end).
End status.
