(* ===== verification/StatusSpec.v ===== *)
(** * reconcile_status.go: what a recorded or a live status vouches for

    Recording changes nothing on the host; a status without an error and without
    drift means that everything the planner knows of is in place. *)
From S2P Require Import Prelude Netip Firewall Config Startup KernelPlan Netlink Wg WgKernel WgFrame WgSpec WgTunnel.
From S2P Require Import Gateway GatewaySpec Plan PlanSpec Updater Status.

Section host.
Context {K F : Type} `{NetlinkLaws K} `{IptablesLaws F} `{WgKeys}.
Implicit Types s : host K F.

(** Everything the planner knows of is in place. *)
Definition in_order (cfg : Config) s : Prop :=
  Forall (λ t, in_place t (sees s.1)) (c_Tunnels cfg) ∧
  ruleset_in_place (compileEgressGuardRuleset cfg) true (tabs s) ∧
  ruleset_in_place (compileGatewayRuleset cfg) (gw_Enabled (c_Gateway cfg)) (tabs s).
Lemma in_place_same t v w : same v w → in_place t v → in_place t w.
Proof.
  intros Hs (link&Hin&Hn&Ho&(a&n&Ha&Hr)&Hp). destruct (Hs) as (Hl&Had&Hro&Hu). exists link.
  split_and!; [by rewrite <-Hl|done..|exists a, n; by rewrite <-Had|].
  destruct Hp as ((r&Hr'&Hone)&Hdef&desired&Hdes&Hmain). split_and!; unfold WgSpec.routed in *.
  - exists r. split; [done|]. by rewrite <-Hu.
  - by rewrite <-Hro.
  - exists desired. split; [done|]. by rewrite <-Hro.
Qed.
Lemma in_order_same cfg s s' : same (sees s.1) (sees s'.1) → tabs s' = tabs s → in_order cfg s → in_order cfg s'.
Proof using All.
  intros Hs Ht (Hin&Hg). unfold in_order. rewrite Ht. split; [|done]. eapply Forall_impl; [exact Hin|]. intros t. by apply in_place_same.
Qed.
Lemma pendingChanges_order cfg s s' : plannable (c_Tunnels cfg) → Forall rule_typed (v_rules (sees s'.1)) →
  pendingChanges cfg s = (Ok ([], false), s') → in_order cfg s'.
Proof using All.
  intros Hpl Ht E. destruct (reads_pendingChanges cfg s _ s' E) as [Hs Htab].
  destruct (pendingChanges_in_place cfg s s' Hpl) as (Hin&Hg&Hgw); [|done|].
  { destruct Hs as (_&_&_&Hu). by rewrite Hu. }
  by apply (in_order_same cfg s s').
Qed.

(** ** Measuring *)
(** Both plans are empty. *)
Definition clean_plans (cfg : Config) s s' : Prop :=
  ∃ plan s1, on_kernel (buildKernelPlan cfg) s = (Ok plan, s1) ∧ buildFirewallPlan cfg s1 = (Ok [], s') ∧
             Operations plan = [] ∧ Drifts plan = [].
Lemma clean_pending cfg s s' : clean_plans cfg s s' → pendingChanges cfg s = (Ok ([], false), s').
Proof using Type.
  intros (plan&s1&E1&E2&Ho&Hd). unfold pendingChanges, mbind, M_bind. rewrite E1. cbv beta iota. rewrite E2.
  unfold kernelChanges, HasBlockingDrift. by rewrite Ho, Hd.
Qed.
Lemma measure_inv cfg s r s' : measure cfg s = (r, s') →
  ∃ k f errs, r = Ok (k, f, errs) ∧ (0 ≤ k ∧ 0 ≤ f)%Z ∧ (k = 0%Z → f = 0%Z → errs = [] → clean_plans cfg s s').
Proof using Type.
  unfold measure. intros [(?&(?&?&_)%attempt_inv&_)|(k&s1&(?&[= <-]&E1)%attempt_inv&E)]%M_bind_inv; [done|].
  apply M_bind_inv in E as [(?&(?&?&_)%attempt_inv&_)|(f&s2&(?&[= <-]&E2)%attempt_inv&[= <- <-])]; [done|].
  eexists _, _, _. split; [done|]. split; [destruct k, f; lia|]. intros Hk Hf He.
  destruct k as [plan|]; [|done]. destruct f as [ops|]; [|done]. exists plan, s1. split; [done|].
  destruct ops; [|done]. destruct (Operations plan); [|done]. by destruct (Drifts plan).
Qed.

Context `{ErrorText}.
Lemma reads_measureAndRecordDrift io cfg errs file : reads (measureAndRecordDrift io cfg errs file).
Proof using Type.
  apply reads_bind; [apply reads_measure|]. intros [[k f] es] s r s' [= <- <-]. done.
Qed.

(** What a written status says of the host it was measured on. *)
Definition vouches (cfg : Config) (errs : list wg_error) s (st : reconcileStatus) : Prop :=
  ks_LastApplySuccess st = true → ks_KernelDrift st = 0%Z → ks_FirewallDrift st = 0%Z → errs = [] ∧ in_order cfg s.
Lemma measureAndRecordDrift_vouches io cfg errs file s r s' : plannable (c_Tunnels cfg) → Forall rule_typed (v_rules (sees s'.1)) →
  measureAndRecordDrift io cfg errs file s = (r, s') →
  ∃ file', r = Ok file' ∧ if io_written io then ∃ st, file' = Some st ∧ vouches cfg errs s' st else file' = file.
Proof using All.
  intros Hpl Ht. unfold measureAndRecordDrift. intros [(e&E&_)|([[k f] es]&s1&E&E')]%M_bind_inv.
  { apply measure_inv in E as (?&?&?&?&_). done. }
  apply measure_inv in E as (?&?&?&[= <- <- <-]&_&Hclean). injection E' as <- <-. eexists. split; [done|].
  unfold recordReconcileStatus. destruct (io_written io); [|done]. eexists. split; [done|].
  intros Hok Hk Hf. cbn in *. apply bool_decide_eq_true in Hok as [-> ->]%app_nil. split; [done|].
  eapply pendingChanges_order; [done..|]. apply clean_pending; auto.
Qed.
Lemma measureAndRecordDrift_total io cfg errs file s r s' : measureAndRecordDrift io cfg errs file s = (r, s') → ∃ file', r = Ok file'.
Proof using Type.
  intros [(?&(?&?&?&?&_)%measure_inv&_)|([[k f] es]&?&_&[= <- _])]%M_bind_inv; [done|eauto].
Qed.
Lemma measureAndRecordDrift_error io cfg errs file s file' s' : errs ≠ [] → io_written io = true →
  measureAndRecordDrift io cfg errs file s = (Ok file', s') → ∃ st, file' = Some st ∧ ks_LastApplySuccess st = false.
Proof using Type.
  intros He Hio [(?&_&?)|([[k f] es]&?&_&E)]%M_bind_inv; [done|]. unfold record, recordReconcileStatus in E. rewrite Hio in E.
  injection E as <- _. eexists. split; [done|]. cbn. apply bool_decide_eq_false. by intros [? _]%app_nil.
Qed.
(** The sysctls this process required are recorded with the value they had before;
    what an earlier process recorded is kept for the others. *)
Lemma recorded_sysctls_lookup required file key : recorded_sysctls required file !! key =
  match required !! key with
  | Some r => Some {| rc_Required := sr_Required r; rc_Previous := sr_Previous r; rc_RestoreOnExit := false |}
  | None => file ≫= λ st, ks_Sysctls st !! key
  end.
Proof using Type.
  unfold recorded_sysctls. destruct (required !! key) as [r|] eqn:Hr.
  - apply lookup_union_Some_l. by rewrite lookup_fmap, Hr.
  - rewrite lookup_union_r by (by rewrite lookup_fmap, Hr). destruct file; [done|apply lookup_empty].
Qed.
Lemma live_clean cfg cache s s' : live_status cfg cache s = (Ok LiveInSync, s') → clean_plans (effectiveConfig cfg cache) s s'.
Proof using Type.
  unfold live_status. intros [(?&?&[=])|(r&s1&(?&[= <-]&E)%attempt_inv&E')]%M_bind_inv.
  destruct r as [[k f]|]; [|by injection E']. destruct ((k =? 0)%Z && (f =? 0)%Z) eqn:Hz; [|by injection E'].
  injection E' as <-. apply M_bind_inv in E as [(?&_&?)|(plan&s2&E1&E)]; [done|].
  apply M_bind_inv in E as [(?&_&?)|(ops&s3&E2&[= <- <- <-])]; [done|].
  rewrite andb_true_iff, !Z.eqb_eq in Hz. destruct Hz as [Hk Hf]. exists plan, s2. split; [done|].
  destruct ops; [|done]. destruct (Operations plan); [|done]. by destruct (Drifts plan).
Qed.

(** Measuring and recording changes nothing on the host and always ends; a status
    that was written without an error and with both gauges at zero was recorded after
    an apply without errors, and every tunnel, chain and jump the planner knows of is
    in place.  It keeps the sysctls an earlier process recorded.  The live verdict
    "in sync" means the same for the configuration with the cached routes. *)
Theorem recorded_sound io cfg errs file s r s' : plannable (c_Tunnels cfg) → Forall rule_typed (v_rules (sees s'.1)) →
  measureAndRecordDrift io cfg errs file s = (r, s') →
  same (sees s.1) (sees s'.1) ∧ tabs s' = tabs s ∧
  (∃ file', r = Ok file' ∧
     if io_written io then
       ∃ st, file' = Some st ∧ vouches cfg errs s' st ∧
         ∀ key x, ks_Sysctls st !! key = Some x → (s'.1.2 !! key = None → (file ≫= λ old, ks_Sysctls old !! key) = Some x)
     else file' = file) ∧
  ∀ base cache s0, cfg = effectiveConfig base cache → live_status base cache s0 = (Ok LiveInSync, s') → in_order cfg s'.
Proof using All.
  intros Hpl Ht E. pose proof (reads_measureAndRecordDrift _ _ _ _ _ _ _ E) as [Hs Htab]. split; [done|]. split; [done|]. split.
  - destruct (measureAndRecordDrift_vouches _ _ _ _ _ _ _ Hpl Ht E) as (file'&->&Hw). exists file'. split; [done|].
    destruct (io_written io) eqn:Hio; [|done]. destruct Hw as (st&->&Hv). exists st. split; [done|]. split; [done|].
    apply M_bind_inv in E as [(?&_&?)|([[k f] es]&s1&_&E)]; [done|]. unfold record, recordReconcileStatus in E. rewrite Hio in E.
    injection E as <- <-. cbn. intros key x. rewrite recorded_sysctls_lookup. intros Hx Hn. by rewrite Hn in Hx.
  - intros base cache s0 -> Hl%live_clean%clean_pending. by eapply pendingChanges_order.
Qed.
End host.

(** ** The example *)
Module StatusDemo.
Import (hints) WgKernel.Demo GatewaySpec.Toy.
#[local] Instance status_unicode : UnicodeTables := {| unicode_to_lower := λ s, s |}.
#[export] Instance demo_texts : ErrorText :=
  {| error_text := λ _, "error"; monitor_error_text := λ _, "monitor error"; source_error_text := λ _, "source error" |}.
Import PlanDemo.
Definition written : status_io := {| io_now := 7; io_written := true |}.
Definition recorded : result wg_error (option reconcileStatus) * host view GatewaySpec.Toy.firewall :=
  measureAndRecordDrift written cfg [] None up.2.
Definition gauges (r : result wg_error (option reconcileStatus)) : option (bool * Z * Z) :=
  match r with Ok (Some st) => Some (ks_LastApplySuccess st, ks_KernelDrift st, ks_FirewallDrift st) | _ => None end.
Lemma recorded_clean : gauges recorded.1 = Some (true, 0%Z, 0%Z).
Proof. vm_compute. reflexivity. Qed.
Lemma recorded_typed : Forall rule_typed (v_rules (sees recorded.2.1)).
Proof.
  destruct (reads_measureAndRecordDrift written cfg [] None up.2 recorded.1 recorded.2 (surjective_pairing _)) as [(_&_&_&Hu) _].
  rewrite <-Hu. exact up_typed.
Qed.
Lemma recorded_sound_witness : in_order cfg recorded.2.
Proof.
  destruct (recorded_sound written cfg [] None up.2 recorded.1 recorded.2 cfg_plannable recorded_typed (surjective_pairing _))
    as (_&_&(file&Hf&st&->&Hv&_)&_).
  pose proof recorded_clean as Hc. rewrite Hf in Hc. injection Hc as Ha Hb Hd. exact (proj2 (Hv Ha Hb Hd)).
Defined.
End StatusDemo.
