(* ===== verification/Process.v ===== *)
(** * main.go, version.go, status.go, routesrc.go: the process and its files

    The lock on the pid file and the reload command, with every instance as a step
    relation over the inodes behind the path; the cache of fetched routes with every
    point at which saving it can stop; what the status and version commands print. *)
From S2P Require Import Prelude Netip RouteSource Config Updater Status.

(** ** Decimal numbers *)
Lemma digits_acc_pretty x s : digits_acc 0 (pretty_N_go x s) = digits_acc (Z.of_N x) s.
Proof.
  revert s. induction (N.lt_wf_0 x) as [x _ IH]; intros s. assert (x = 0 ∨ 0 < x)%N as [->|Hx] by lia; [by rewrite pretty_N_go_0|].
  rewrite pretty_N_go_step by done. rewrite IH by (by apply N.div_lt). cbn [digits_acc].
  assert (∀ d, (d < 10)%N → is_digit (pretty_N_char d) = true ∧ digit_of (pretty_N_char d) = Z.of_N d) as Hd.
  { intros d Hd. assert (d = 0 ∨ d = 1 ∨ d = 2 ∨ d = 3 ∨ d = 4 ∨ d = 5 ∨ d = 6 ∨ d = 7 ∨ d = 8 ∨ d = 9)%N as Hc by lia.
    by repeat destruct Hc as [->|Hc]; [..|subst d]. }
  destruct (Hd (x mod 10)%N) as [-> ->]; [by apply N.mod_lt|]. f_equal.
  rewrite N2Z.inj_div, N2Z.inj_mod. pose proof (Z.div_mod (Z.of_N x) 10). lia.
Qed.
Lemma itoa_pos p : itoa (Zpos p) = pretty_N_go (N.pos p) "".
Proof. reflexivity. Qed.
Lemma pretty_go_head x s : (0 < x)%N ∨ (∃ c t, s = String c t ∧ is_digit c = true) → ∃ c t, pretty_N_go x s = String c t ∧ is_digit c = true.
Proof.
  revert s. induction (N.lt_wf_0 x) as [x _ IH]; intros s Hs. assert (x = 0 ∨ 0 < x)%N as [->|Hx] by lia.
  - rewrite pretty_N_go_0. destruct Hs as [?|?]; [lia|done].
  - rewrite pretty_N_go_step by done. apply IH; [by apply N.div_lt|]. right. do 2 eexists. split; [done|]. unfold pretty_N_char. by repeat case_match.
Qed.
Lemma Atoi_itoa p : (Zpos p < 2 ^ 63)%Z → Atoi (itoa (Zpos p)) = Some (Zpos p).
Proof.
  intros Hp. rewrite itoa_pos. destruct (pretty_go_head (N.pos p) "") as (c&t&E&Hc); [by left|].
  assert (digits_value (pretty_N_go (N.pos p) "") = Some (Zpos p)) as Hv.
  { unfold digits_value. rewrite E, <-E, digits_acc_pretty. done. }
  assert (fits_int64 (Zpos p) = true) as Hf by (unfold fits_int64; rewrite andb_true_iff; lia).
  unfold Atoi. rewrite E in *. destruct (decide (c = "-"%char)) as [->|Hm]; [done|]. destruct (decide (c = "+"%char)) as [->|Hq]; [done|].
  rewrite Hv. destruct c as [[] [] [] [] [] [] [] []]; try done; by rewrite Hf.
Qed.

(** ** The pid file *)

(** [bytesTrim]: the white space at the end goes. *)
Definition trailing (c : ascii) : bool := bool_decide (c ∈ ["010"; " "; "009"]%char).
Fixpoint bytesTrim (s : string) : string :=
  match s with
  | EmptyString => EmptyString
  | String c s => match bytesTrim s with EmptyString => if trailing c then EmptyString else String c EmptyString | t => String c t end
  end.
(** [WriteAt] at offset 0 over what is there. *)
Definition write_at (text old : string) : string := text +:+ str_drop (String.length text) old.

(** An instance: it has opened the pid file, it holds the lock on the inode before and
    after the truncation, it runs, with whether its pid was written in full, it has
    closed the file and is about to remove the path, it is gone. *)
Inductive instance :=
| Opened (ino : nat)
| Locked (ino : nat)
| Truncated (ino : nat) (ok : bool)
| Running (ino : nat) (ok : bool)
| Closed
| Gone.
Record system := {
  sy_path : option nat; sy_next : nat; sy_lock : gmap nat positive; sy_content : gmap nat string; sy_procs : gmap positive instance; sy_removed : bool }.
Definition booted : system := {| sy_path := None; sy_next := 0; sy_lock := ∅; sy_content := ∅; sy_procs := ∅; sy_removed := false |}.
Definition with_proc (s : system) (pid : positive) (i : instance) : system :=
  {| sy_path := sy_path s; sy_next := sy_next s; sy_lock := sy_lock s; sy_content := sy_content s; sy_procs := <[pid := i]> (sy_procs s); sy_removed := sy_removed s |}.
Definition with_content (s : system) (ino : nat) (f : string → string) : system :=
  {| sy_path := sy_path s; sy_next := sy_next s; sy_lock := sy_lock s; sy_content := <[ino := f (default "" (sy_content s !! ino))]> (sy_content s);
     sy_procs := sy_procs s; sy_removed := sy_removed s |}.
Definition with_lock (s : system) (l : gmap nat positive) : system :=
  {| sy_path := sy_path s; sy_next := sy_next s; sy_lock := l; sy_content := sy_content s; sy_procs := sy_procs s; sy_removed := sy_removed s |}.

(** [acquireSingleton]: open or create, [flock], truncate, write. *)
Definition open_pid (s : system) (pid : positive) : system :=
  match sy_path s with
  | Some ino => with_proc s pid (Opened ino)
  | None => with_proc {| sy_path := Some (sy_next s); sy_next := S (sy_next s); sy_lock := sy_lock s; sy_content := <[sy_next s := ""]> (sy_content s);
                         sy_procs := sy_procs s; sy_removed := sy_removed s |} pid (Opened (sy_next s))
  end.
Definition flock (s : system) (pid : positive) (ino : nat) : system :=
  match sy_lock s !! ino with
  | Some _ => with_proc s pid Gone
  | None => with_proc (with_lock s (<[ino := pid]> (sy_lock s))) pid (Locked ino)
  end.
Definition truncate (s : system) (pid : positive) (ino : nat) (ok : bool) : system :=
  with_proc (if ok then with_content s ino (λ _, "") else s) pid (Truncated ino ok).
Definition write_pid (s : system) (pid : positive) (ino : nat) (truncated ok : bool) : system :=
  with_proc (if ok then with_content s ino (write_at (itoa (Zpos pid))) else s) pid (Running ino (truncated && ok)).
(** The deferred calls of [runUp], and an exit without them, by [log.Fatal] or a signal. *)
Definition held (i : instance) : option nat :=
  match i with Locked ino | Truncated ino _ | Running ino _ => Some ino | _ => None end.
Definition unlock (s : system) (i : instance) : gmap nat positive := match held i with Some ino => delete ino (sy_lock s) | None => sy_lock s end.
Definition close_lock (s : system) (pid : positive) (ino : nat) : system := with_proc (with_lock s (delete ino (sy_lock s))) pid Closed.
Definition remove_pid (s : system) (pid : positive) : system :=
  with_proc {| sy_path := None; sy_next := sy_next s; sy_lock := sy_lock s; sy_content := sy_content s; sy_procs := sy_procs s; sy_removed := true |} pid Gone.
Definition die (s : system) (pid : positive) (i : instance) : system := with_proc (with_lock s (unlock s i)) pid Gone.
Inductive system_step (s : system) : system → Prop :=
| sys_open pid : sy_procs s !! pid = None → system_step s (open_pid s pid)
| sys_flock pid ino : sy_procs s !! pid = Some (Opened ino) → system_step s (flock s pid ino)
| sys_truncate pid ino ok : sy_procs s !! pid = Some (Locked ino) → system_step s (truncate s pid ino ok)
| sys_write pid ino t ok : sy_procs s !! pid = Some (Truncated ino t) → system_step s (write_pid s pid ino t ok)
| sys_close pid ino ok : sy_procs s !! pid = Some (Running ino ok) → system_step s (close_lock s pid ino)
| sys_remove pid : sy_procs s !! pid = Some Closed → system_step s (remove_pid s pid)
| sys_die pid i : sy_procs s !! pid = Some i → system_step s (die s pid i).

(** [runReload] up to the signal. *)
Definition runReload (s : system) : result string Z :=
  match sy_path s with
  | None => Err "no running instance"
  | Some ino => match Atoi (bytesTrim (default "" (sy_content s !! ino))) with Some pid => Ok pid | None => Err "bad pid file" end
  end.

(** *** The invariant *)
Definition uses (i : instance) : option nat := match i with Opened ino => Some ino | _ => held i end.
Definition proc (s : system) (pid : positive) : instance := default Gone (sy_procs s !! pid).
Record system_ok (s : system) : Prop := {
  so_held pid ino : held (proc s pid) = Some ino ↔ sy_lock s !! ino = Some pid;
  so_path pid ino : sy_removed s = false → uses (proc s pid) = Some ino → sy_path s = Some ino;
  so_fresh pid ino : uses (proc s pid) = Some ino ∨ sy_path s = Some ino → ino < sy_next s;
  so_empty pid ino : proc s pid = Truncated ino true → sy_content s !! ino = Some "";
  so_pid pid ino : proc s pid = Running ino true → sy_content s !! ino = Some (itoa (Zpos pid)) }.
Lemma proc_with s pid i q : proc (with_proc s pid i) q = if decide (pid = q) then i else proc s q.
Proof. unfold proc. cbn. destruct (decide (pid = q)) as [<-|]; [by rewrite lookup_insert_eq|by rewrite lookup_insert_ne]. Qed.
Lemma proc_some s pid i : sy_procs s !! pid = Some i → proc s pid = i.
Proof. unfold proc. by intros ->. Qed.
Lemma held_uses i ino : held i = Some ino → uses i = Some ino.
Proof. by destruct i. Qed.
Lemma held_one s p q ino : system_ok s → held (proc s p) = Some ino → held (proc s q) = Some ino → p = q.
Proof. intros Hs Hp%(so_held s Hs) Hq%(so_held s Hs). congruence. Qed.
(** One instance moves; the others keep their claims on their inodes. *)
Lemma move_ok s pid i path next lock content removed :
  system_ok s → (sy_removed s = true → removed = true) → sy_next s ≤ next →
  (∀ q ino, held (if decide (pid = q) then i else proc s q) = Some ino ↔ lock !! ino = Some q) →
  (removed = false → (∀ q ino, q ≠ pid → uses (proc s q) = Some ino → path = Some ino) ∧ ∀ ino, uses i = Some ino → path = Some ino) →
  (∀ ino, uses i = Some ino ∨ path = Some ino → ino < next) →
  (∀ q ino, q ≠ pid → held (proc s q) = Some ino → content !! ino = sy_content s !! ino) →
  (∀ ino, i = Truncated ino true → content !! ino = Some "") → (∀ ino, i = Running ino true → content !! ino = Some (itoa (Zpos pid))) →
  system_ok (with_proc {| sy_path := path; sy_next := next; sy_lock := lock; sy_content := content; sy_procs := sy_procs s; sy_removed := removed |} pid i).
Proof.
  intros Hs Hr Hn Hheld Hpath Hfresh Hcontent Htr Hrun.
  assert (∀ q, proc (with_proc {| sy_path := path; sy_next := next; sy_lock := lock; sy_content := content; sy_procs := sy_procs s; sy_removed := removed |} pid i) q =
    if decide (pid = q) then i else proc s q) as Hp by (intros q; by rewrite proc_with).
  split; intros q ino; rewrite ?Hp; cbn [with_proc sy_lock sy_path sy_next sy_content sy_removed].
  - apply Hheld.
  - intros [Ho Hi]%Hpath. destruct (decide (pid = q)); eauto.
  - intros [Hu|Hu]; [|by auto]. destruct (decide (pid = q)); [auto|]. eapply Nat.lt_le_trans; [apply (so_fresh s Hs q); by left|done].
  - destruct (decide (pid = q)); [auto|]. intros E. rewrite (Hcontent q) by (by rewrite ?E). by apply (so_empty s Hs q).
  - destruct (decide (pid = q)) as [<-|]; [auto|]. intros E. rewrite (Hcontent q) by (by rewrite ?E). by apply (so_pid s Hs q).
Qed.
(** A change of phase that neither takes nor gives up a lock. *)
Lemma phase_ok s pid i content : system_ok s → held i = held (proc s pid) → (∀ ino, uses i = Some ino → uses (proc s pid) = Some ino) →
  (∀ q ino, q ≠ pid → held (proc s q) = Some ino → content !! ino = sy_content s !! ino) →
  (∀ ino, i = Truncated ino true → content !! ino = Some "") → (∀ ino, i = Running ino true → content !! ino = Some (itoa (Zpos pid))) →
  system_ok (with_proc {| sy_path := sy_path s; sy_next := sy_next s; sy_lock := sy_lock s; sy_content := content; sy_procs := sy_procs s; sy_removed := sy_removed s |} pid i).
Proof.
  intros Hs Hh Hu Hc Ht Hr. apply move_ok; try done.
  - intros q ino. destruct (decide (pid = q)) as [<-|]; [rewrite Hh|]; apply (so_held s Hs).
  - intros Hrem. split; [intros q ino _; by apply (so_path s Hs q)|]. intros ino Hi%Hu. by apply (so_path s Hs pid).
  - intros ino [Hi%Hu|Hi]; apply (so_fresh s Hs pid); auto.
Qed.
(** The file of a lock's holder is written by nobody else. *)
Lemma content_others s pid ino (text : string) : system_ok s → held (proc s pid) = Some ino →
  ∀ q ino', q ≠ pid → held (proc s q) = Some ino' → <[ino := text]> (sy_content s) !! ino' = sy_content s !! ino'.
Proof. intros Hs Hp q ino' Hq Hh. apply lookup_insert_ne. intros <-. destruct Hq. by eapply held_one. Qed.
Lemma release_ok s pid i new : system_ok s → sy_procs s !! pid = Some i → uses new = None →
  system_ok (with_proc (with_lock s (unlock s i)) pid new).
Proof.
  intros Hs Hi%proc_some Hn. assert (held new = None) as Hh by (by destruct new). apply (move_ok s pid new); try done.
  - intros q ino. unfold unlock. rewrite <-Hi. destruct (held (proc s pid)) as [ino0|] eqn:E.
    + destruct (decide (ino0 = ino)) as [->|Hne].
      * rewrite lookup_delete_eq. destruct (decide (pid = q)) as [<-|Hq]; [by rewrite Hh|]. split; [|done]. intros Hq'. destruct Hq. by eapply held_one.
      * rewrite lookup_delete_ne by done. destruct (decide (pid = q)) as [<-|]; [|apply (so_held s Hs)]. rewrite Hh, <-(so_held s Hs), E. split; congruence.
    + destruct (decide (pid = q)) as [<-|]; [|apply (so_held s Hs)]. by rewrite Hh, <-(so_held s Hs), E.
  - intros Hrem. split; [intros q ino _; by apply (so_path s Hs q)|]. by rewrite Hn.
  - intros ino [Hu|Hp]; [by rewrite Hn in Hu|]. apply (so_fresh s Hs pid). by right.
  - intros ino ->. done.
  - intros ino ->. done.
Qed.
Lemma system_step_ok s s' : system_step s s' → system_ok s → system_ok s'.
Proof.
  intros Hstep Hs. destruct Hstep as [pid Hp|pid ino Hp|pid ino ok Hp|pid ino t ok Hp|pid ino ok Hp|pid Hp|pid i Hp].
  - assert (proc s pid = Gone) as Hg by (unfold proc; by rewrite Hp). unfold open_pid. destruct (sy_path s) as [ino|] eqn:Epath.
    + apply (move_ok s pid (Opened ino)); try done.
      * intros q ino'. destruct (decide (pid = q)) as [<-|]; [rewrite <-(so_held s Hs), Hg; done|apply (so_held s Hs)].
      * intros Hrem. split; [intros q ino' _; by apply (so_path s Hs q)|]. by intros ino' [= <-].
      * intros ino' Hi. apply (so_fresh s Hs pid). right. by destruct Hi as [[= <-]|?].
    + apply (move_ok s pid (Opened (sy_next s))); try done; [lia| | | |].
      * intros q ino'. destruct (decide (pid = q)) as [<-|]; [rewrite <-(so_held s Hs), Hg; done|apply (so_held s Hs)].
      * intros Hrem. split; [intros q ino' _ Hu; by rewrite (so_path s Hs q ino' Hrem Hu) in Epath|]. by intros ino' [= <-].
      * intros ino' [[= <-]|[= <-]]; lia.
      * intros q ino' _ Hh%held_uses. apply lookup_insert_ne. intros <-. assert (sy_next s < sy_next s); [|lia]. apply (so_fresh s Hs q). by left.
  - apply proc_some in Hp. unfold flock. destruct (sy_lock s !! ino) as [owner|] eqn:El.
    + by apply (phase_ok s pid Gone); rewrite ?Hp.
    + apply (move_ok s pid (Locked ino)); try done.
      * intros q ino'. destruct (decide (ino = ino')) as [<-|Hne].
        -- rewrite lookup_insert_eq. destruct (decide (pid = q)) as [<-|Hq]; [done|]. rewrite (so_held s Hs), El. split; congruence.
        -- rewrite lookup_insert_ne by done. destruct (decide (pid = q)) as [<-|]; [|apply (so_held s Hs)]. rewrite <-(so_held s Hs), Hp. cbn. split; congruence.
      * intros Hrem. split; [intros q ino' _; by apply (so_path s Hs q)|]. intros ino' [= <-]. apply (so_path s Hs pid); [done|by rewrite Hp].
      * intros ino' [[= <-]|Hx]; apply (so_fresh s Hs pid); [left; by rewrite Hp|by right].
  - apply proc_some in Hp. assert (held (proc s pid) = Some ino) as Hh by (by rewrite Hp). unfold truncate. destruct ok.
    + apply (phase_ok s pid (Truncated ino true)); rewrite ?Hp; try done; [by apply content_others|]. intros ino' [= <-]. apply lookup_insert_eq.
    + by apply (phase_ok s pid (Truncated ino false)); rewrite ?Hp.
  - apply proc_some in Hp. assert (held (proc s pid) = Some ino) as Hh by (by rewrite Hp). unfold write_pid. destruct ok.
    + apply (phase_ok s pid (Running ino (t && true))); rewrite ?Hp; try done; [by apply content_others|]. intros ino' [= <- Ht]. rewrite andb_true_r in Ht. subst t.
      rewrite lookup_insert_eq, (so_empty s Hs pid ino Hp). cbn. unfold write_at. f_equal. by destruct (String.length _); rewrite str_app_nil_r.
    + rewrite andb_false_r. by apply (phase_ok s pid (Running ino false)); rewrite ?Hp.
  - by apply (release_ok s pid (Running ino ok) Closed).
  - apply proc_some in Hp. apply (move_ok s pid Gone); try done.
    + intros q ino. destruct (decide (pid = q)) as [<-|]; [rewrite <-(so_held s Hs), Hp; done|apply (so_held s Hs)].
    + by intros ino [?|?].
  - by apply release_ok.
Qed.
Lemma booted_ok : system_ok booted.
Proof.
  assert (∀ q, proc booted q = Gone) as Hp by done. split; intros q ino; rewrite ?Hp; cbn; rewrite ?lookup_empty; naive_solver.
Qed.
Lemma system_reachable s : rtc system_step booted s → system_ok s.
Proof. revert s. apply (rtc_ind_r system_ok booted); [apply booted_ok|]. intros y z _ Hs Hy. by eapply system_step_ok. Qed.
Lemma trailing_digit c : is_digit c = true → trailing c = false.
Proof. intros Hc. apply bool_decide_eq_false_2. intros Hin. rewrite !elem_of_cons, elem_of_nil in Hin. by destruct Hin as [->|[->|[->|[]]]]. Qed.
Lemma bytesTrim_digits s : str_forallb is_digit s = true → bytesTrim s = s.
Proof.
  induction s as [|c s IH]; [done|]. cbn [str_forallb bytesTrim]. intros [Hc Hs]%andb_true_iff. rewrite IH by done. destruct s; [|done]. by rewrite trailing_digit.
Qed.
Lemma itoa_digits p : str_forallb is_digit (itoa (Zpos p)) = true.
Proof.
  rewrite itoa_pos. assert (∀ x s, str_forallb is_digit s = true → str_forallb is_digit (pretty_N_go x s) = true) as H; [|by apply H].
  intros x. induction (N.lt_wf_0 x) as [x _ IH]; intros s Hs. assert (x = 0 ∨ 0 < x)%N as [->|Hx] by lia; [by rewrite pretty_N_go_0|].
  rewrite pretty_N_go_step by done. apply IH; [by apply N.div_lt|]. cbn [str_forallb]. rewrite Hs, andb_true_r. unfold pretty_N_char. by repeat case_match.
Qed.

Definition runs_on (s : system) (pid : positive) (ino : nat) : Prop := ∃ ok, sy_procs s !! pid = Some (Running ino ok).
(** C27: one instance.  In every interleaving of instances that start, fail, run, die or
    exit, no two instances run on the same inode of the pid file, and as long as no
    instance has exited through its deferred calls, which remove the path, at most one
    runs at all.  A running instance whose pid was written and whose file is still at
    the path is the one that [reload] signals. *)
Theorem singleton s : rtc system_step booted s →
  (∀ p q i, runs_on s p i → runs_on s q i → p = q) ∧
  (sy_removed s = false → ∀ p q i j, runs_on s p i → runs_on s q j → p = q) ∧
  (∀ p i, sy_procs s !! p = Some (Running i true) → sy_path s = Some i → (Zpos p < 2 ^ 63)%Z → runReload s = Ok (Zpos p)).
Proof.
  intros Hs%system_reachable. assert (∀ p i, runs_on s p i → held (proc s p) = Some i) as Hh by (intros p i [ok Hp%proc_some]; by rewrite Hp).
  split_and!.
  - intros p q i Hp%Hh Hq%Hh. by eapply held_one.
  - intros Hrem p q i j Hp%Hh Hq%Hh. assert (sy_path s = Some i) as Hi by (by eapply (so_path s Hs p), held_uses).
    assert (sy_path s = Some j) as Hj by (by eapply (so_path s Hs q), held_uses). assert (i = j) as <- by congruence. by eapply held_one.
  - intros p i Hp Hi Hlt. unfold runReload. rewrite Hi, (so_pid s Hs p i (proc_some _ _ _ Hp)).
    change (default "" (Some ?x)) with x. rewrite bytesTrim_digits by apply itoa_digits. by rewrite Atoi_itoa.
Qed.
Definition demo_system : system := write_pid (truncate (flock (open_pid booted 77) 77 0) 77 0 true) 77 0 true true.
Lemma singleton_witness : runReload demo_system = Ok 77%Z.
Proof.
  destruct (singleton demo_system) as (_&_&Hr).
  - eapply rtc_l; [apply (sys_open booted 77); vm_compute; reflexivity|].
    eapply rtc_l; [apply (sys_flock (open_pid booted 77) 77 0); vm_compute; reflexivity|].
    eapply rtc_l; [apply (sys_truncate (flock (open_pid booted 77) 77 0) 77 0 true); vm_compute; reflexivity|].
    eapply rtc_l; [apply (sys_write (truncate (flock (open_pid booted 77) 77 0) 77 0 true) 77 0 true true); vm_compute; reflexivity|]. apply rtc_refl.
  - apply (Hr 77%positive 0); vm_compute; reflexivity.
Defined.
(** The deferred calls close the file before they remove the path: an instance that takes
    the lock in between runs on an inode without a name, and a third one starts beside it. *)
Lemma two_instances : ∃ s, rtc system_step booted s ∧ runs_on s 2 0 ∧ runs_on s 3 1.
Proof.
  eexists. split.
  { eapply rtc_l; [apply (sys_open _ 1); reflexivity|]. eapply rtc_l; [apply (sys_flock _ 1 0); reflexivity|].
    eapply rtc_l; [apply (sys_truncate _ 1 0 true); reflexivity|]. eapply rtc_l; [apply (sys_write _ 1 0 true true); reflexivity|].
    eapply rtc_l; [apply (sys_open _ 2); reflexivity|]. eapply rtc_l; [apply (sys_close _ 1 0 true); reflexivity|].
    eapply rtc_l; [apply (sys_flock _ 2 0); reflexivity|]. eapply rtc_l; [apply (sys_remove _ 1); reflexivity|].
    eapply rtc_l; [apply (sys_truncate _ 2 0 true); reflexivity|]. eapply rtc_l; [apply (sys_write _ 2 0 true true); reflexivity|].
    eapply rtc_l; [apply (sys_open _ 3); reflexivity|]. eapply rtc_l; [apply (sys_flock _ 3 1); reflexivity|].
    eapply rtc_l; [apply (sys_truncate _ 3 1 true); reflexivity|]. eapply rtc_l; [apply (sys_write _ 3 1 true true); reflexivity|]. apply rtc_refl. }
  split; exists true; vm_compute; reflexivity.
Qed.

(** ** The cache of fetched routes *)

(** The file and its temporary: absent, incomplete, or a whole table.  No strict prefix
    of an encoded object decodes, so an incomplete file is one that [loadCache] ignores. *)
Abbreviation table := (gmap string (list string)).
Record cache_fs := { cf_dir : bool; cf_tmp : option (option table); cf_file : option (option table) }.
Definition cached (f : cache_fs) : option table := match cf_file f with Some t => t | None => None end.
(** Whether each call of [saveCache] succeeds; [WriteFile] opens and then writes. *)
Record save_io := { sv_mkdir : bool; sv_chmod : bool; sv_open : bool; sv_write : bool; sv_rename : bool }.
(** The states [saveCache] goes through, in order; a crash leaves one of them. *)
Definition save_states (io : save_io) (f : cache_fs) (snapshot : table) : list cache_fs :=
  if negb (sv_mkdir io) then [f]
  else
    let made := {| cf_dir := true; cf_tmp := cf_tmp f; cf_file := cf_file f |} in
    if negb (sv_chmod io) || negb (sv_open io) then [f; made]
    else
      let opened := {| cf_dir := true; cf_tmp := Some None; cf_file := cf_file f |} in
      if negb (sv_write io) then [f; made; opened]
      else
        let written := {| cf_dir := true; cf_tmp := Some (Some snapshot); cf_file := cf_file f |} in
        if negb (sv_rename io) then [f; made; opened; written]
        else [f; made; opened; written; {| cf_dir := true; cf_tmp := None; cf_file := Some (Some snapshot) |}].
Definition saveCache (io : save_io) (f : cache_fs) (u : RouteUpdater) : cache_fs := List.last (save_states io f (u_fetched u)) f.
(** The updater over its life: from a cache, through cycles and reloads. *)
Inductive updater_run : RouteUpdater → Prop :=
| run_new base cache : updater_run (NewRouteUpdater base cache)
| run_cycle fetch u : updater_run u → updater_run (cycle fetch u).1.1
| run_base base u : updater_run u → updater_run (SetBase u base).

Lemma sortDedup_idemp l : sortDedup (sortDedup l) = sortDedup l.
Proof.
  assert (∀ gs x, x ∈ MergeDedup [gs] ↔ x ∈ gs) as Hin.
  { intros gs x. unfold MergeDedup. rewrite elem_of_sorted_set, elem_of_foldl_groups. set_solver. }
  unfold sortDedup, MergeDedup at 1. symmetry. unfold MergeDedup at 1. apply (f_equal sorted_set), set_eq. intros x.
  by rewrite <-!elem_of_sorted_set, !(Hin _ x : x ∈ sorted_set _ ↔ _), Hin.
Qed.
Definition normal_table (m : table) : Prop := map_Forall (λ _ l, sortDedup l = l) m.
Lemma load_cache_normal c : normal_table (load_cache c).
Proof. destruct c as [m|]; [|apply map_Forall_empty]. intros k l. cbn. rewrite lookup_fmap, fmap_Some. intros (l'&_&->). apply sortDedup_idemp. Qed.
Lemma load_normal m : normal_table m → load_cache (Some m) = m.
Proof.
  intros Hm. apply map_eq. intros k. cbn. rewrite lookup_fmap. destruct (m !! k) as [l|] eqn:E; [|done]. cbn. f_equal. by apply (Hm k).
Qed.
Lemma fetch_all_normal fetch seen m changed l : normal_table m → normal_table (fetch_all fetch seen m changed l).1.
Proof.
  revert seen m changed. induction l as [|s l IH]; intros seen m changed Hm; [done|]. cbn [fetch_all]. case_bool_decide; [by apply IH|].
  destruct (fetch_one fetch m s) as [m' c] eqn:E. apply IH. unfold fetch_one in E. destruct (fetch s) as [cidrs|]; [|by injection E as <- _].
  destruct (equalStrings _ _); injection E as <- _; [done|]. apply map_Forall_insert_2; [apply sortDedup_idemp|done].
Qed.
Lemma updater_run_normal u : updater_run u → normal_table (u_fetched u).
Proof.
  induction 1 as [base cache|fetch u _ IH|base u _ IH]; [apply load_cache_normal| |done].
  unfold cycle. pose proof (fetch_all_normal fetch ∅ (u_fetched u) false (sources_of (u_base u)) IH) as Hn.
  by destruct (fetch_all _ _ _ _ _) as [m c].
Qed.
(** C28: a saved table is what the next start loads.  Wherever saving the cache of an
    updater fails or the process dies in it, an updater started afterwards has the
    table it would have had before, or exactly the saved one, never a part of it; when
    every call succeeds it has the saved one. *)
Theorem cache_roundtrip u io f base : updater_run u →
  Forall (λ f', u_fetched (NewRouteUpdater base (cached f')) = load_cache (cached f) ∨ u_fetched (NewRouteUpdater base (cached f')) = u_fetched u)
    (save_states io f (u_fetched u)) ∧
  (io = {| sv_mkdir := true; sv_chmod := true; sv_open := true; sv_write := true; sv_rename := true |} →
   u_fetched (NewRouteUpdater base (cached (saveCache io f u))) = u_fetched u).
Proof.
  intros Hu%updater_run_normal%load_normal. split.
  - unfold save_states. repeat case_match; repeat (apply Forall_cons; split; [(by left) || (right; exact Hu)|]); by apply Forall_nil.
  - intros ->. exact Hu.
Qed.
Lemma cache_roundtrip_witness : ∃ u, u_fetched u = {["a" := ["10.0.0.0/8"]]} ∧ ∀ io base,
  io = {| sv_mkdir := true; sv_chmod := true; sv_open := true; sv_write := true; sv_rename := true |} →
  u_fetched (NewRouteUpdater base (cached (saveCache io {| cf_dir := false; cf_tmp := None; cf_file := None |} u))) = {["a" := ["10.0.0.0/8"]]}.
Proof.
  assert (u_fetched (NewRouteUpdater (demo_config "wg0") (Some {["a" := ["10.0.0.0/8"]]})) = {["a" := ["10.0.0.0/8"]]}) as E by (vm_compute; reflexivity).
  exists (NewRouteUpdater (demo_config "wg0") (Some {["a" := ["10.0.0.0/8"]]})). split; [exact E|]. intros io base Hio. rewrite <-E at 2.
  apply (cache_roundtrip _ io {| cf_dir := false; cf_tmp := None; cf_file := None |} base); [apply run_new|exact Hio].
Defined.

(** ** What the commands print *)

(** [fmt]'s %.1f of a nonnegative quotient: to the nearest tenth, ties to even. *)
Definition round_half_even (a b : Z) : Z :=
  let q := (a / b)%Z in
  match Z.compare (2 * (a mod b)) b with Lt => q | Gt => (q + 1)%Z | Eq => if Z.even q then q else (q + 1)%Z end.
(** [float64(n)]: 53 significant bits. *)
Definition float64_of (n : Z) : Z :=
  let k := (Z.log2 n - 52)%Z in if (k <=? 0)%Z then n else (round_half_even n (2 ^ k) * 2 ^ k)%Z.
(** The loop of [humanBytes]; the fuel covers the powers of 1024 below 2^63. *)
Fixpoint scale (fuel : nat) (x div : Z) (exp : nat) : Z * nat :=
  match fuel with
  | O => (div, exp)
  | S fuel => if (1024 <=? x)%Z then scale fuel (x / 1024) (div * 1024) (S exp) else (div, exp)
  end.
(** [None] is an index out of range. *)
Definition humanBytes (n : Z) : option string :=
  if (n <? 1024)%Z then Some (itoa n +:+ "B")
  else
    let '(div, exp) := scale 7 (n / 1024) 1024 0 in
    let tenths := round_half_even (10 * float64_of n) div in
    (λ unit, itoa (tenths / 10) +:+ "." +:+ itoa (tenths mod 10) +:+ String unit "iB") <$> String.get exp "KMGTPE".
Lemma scale_spec fuel x div exp : (0 ≤ x < 1024 ^ (Z.of_nat fuel + 1))%Z →
  ∃ k, k ≤ fuel ∧ scale fuel x div exp = ((div * 1024 ^ Z.of_nat k)%Z, exp + k) ∧ (x < 1024 ^ (Z.of_nat k + 1))%Z ∧ (k = 0 ∨ (1024 ^ Z.of_nat k ≤ x)%Z).
Proof.
  revert x div exp. induction fuel as [|fuel IH]; intros x div exp Hx.
  - exists 0. cbn [scale Z.of_nat Z.add] in *. rewrite Z.mul_1_r, Nat.add_0_r. split_and!; [lia|done|lia|by left].
  - cbn [scale]. destruct (Z.leb_spec 1024 x) as [Hle|Hlt].
    + destruct (IH (x / 1024) (div * 1024) (S exp))%Z as (k&Hk&E&Hlt&Hge).
      { split; [by apply Z.div_pos; lia|]. apply Z.div_lt_upper_bound; [lia|]. rewrite <-Z.pow_succ_r by lia. replace (Z.succ _) with (Z.of_nat (S fuel) + 1)%Z by lia. lia. }
      exists (S k). replace (Z.of_nat (S k)) with (Z.succ (Z.of_nat k)) by lia. rewrite Z.pow_succ_r by lia. split; [lia|]. split.
      * rewrite E. f_equal; [ring|lia].
      * split; [|right].
        -- rewrite Z.add_succ_l, Z.pow_succ_r by lia. pose proof (Z.mul_succ_div_gt x 1024). lia.
        -- pose proof (Z.mul_div_le x 1024). destruct Hge as [->|Hge]; [cbn; lia|lia].
    + exists 0. cbn [Z.of_nat Z.add]. rewrite Z.mul_1_r, Nat.add_0_r. split_and!; [lia|done|lia|by left].
Qed.
(** For every [int64] the unit exists, so the index never fails, and it is the largest
    power of 1024 that is at most the number. *)
Theorem humanBytes_unit n : (- 2 ^ 63 ≤ n < 2 ^ 63)%Z → is_Some (humanBytes n) ∧
  ((1024 ≤ n)%Z → ∃ k, k ≤ 5 ∧ scale 7 (n / 1024) 1024 0 = ((1024 ^ (Z.of_nat k + 1))%Z, k) ∧ (1024 ^ (Z.of_nat k + 1) ≤ n < 1024 ^ (Z.of_nat k + 2))%Z).
Proof.
  intros Hn. assert ((1024 ≤ n)%Z → ∃ k, k ≤ 5 ∧ scale 7 (n / 1024) 1024 0 = ((1024 ^ (Z.of_nat k + 1))%Z, k) ∧ (1024 ^ (Z.of_nat k + 1) ≤ n < 1024 ^ (Z.of_nat k + 2))%Z) as Hs.
  { intros Hge. destruct (scale_spec 7 (n / 1024) 1024 0) as (k&_&E&Hlt&Hk); [split; [by apply Z.div_pos; lia|apply Z.div_lt_upper_bound; lia]|].
    assert (1024 ^ (Z.of_nat k + 1) ≤ n)%Z as Hlow.
    { rewrite Z.add_1_r, Z.pow_succ_r by lia. pose proof (Z.mul_div_le n 1024). destruct Hk as [->|Hk]; [cbn; lia|lia]. }
    exists k. rewrite E. split_and!; [|rewrite Z.add_1_r, Z.pow_succ_r by lia; done|done|].
    - destruct (decide (k ≤ 5)); [done|]. assert (1024 ^ 7 ≤ 1024 ^ (Z.of_nat k + 1))%Z by (apply Z.pow_le_mono_r; lia). lia.
    - replace (Z.of_nat k + 2)%Z with (Z.succ (Z.of_nat k + 1)) by lia. rewrite Z.pow_succ_r by lia. pose proof (Z.mul_succ_div_gt n 1024). lia. }
  split; [|done]. unfold humanBytes. destruct (Z.ltb_spec n 1024); [done|]. destruct (Hs ltac:(lia)) as (k&Hk&->&_).
  apply fmap_is_Some. by do 6 (destruct k as [|k]; [done|]); lia.
Qed.

Example humanBytes_examples : humanBytes 1023 = Some "1023B" ∧ humanBytes 1536 = Some "1.5KiB" ∧ humanBytes (2 ^ 63 - 1) = Some "8.0EiB".
Proof. vm_compute. auto. Qed.

(** [Duration.Round] to a second, and [String] of the result; beyond the range the
    largest duration, whose text is a constant. *)
Definition round_second (d : Z) : Z :=
  let r := Z.rem d second in
  if (d <? 0)%Z then (if (- r * 2 <? second)%Z then d - r else d - second - r)%Z
  else (if (r * 2 <? second)%Z then d - r else d + second - r)%Z.
Definition whole_seconds (d : Z) : string :=
  let n := (Z.abs d / second)%Z in
  let sign := if (d <? 0)%Z then "-" else "" in
  let h := (n / 3600)%Z in let m := ((n / 60) mod 60)%Z in
  sign +:+ (if (0 <? h)%Z then itoa h +:+ "h" else "") +:+ (if (0 <? n / 60)%Z then itoa m +:+ "m" else "") +:+ itoa (n mod 60) +:+ "s".
Definition age_string (d : Z) : string :=
  let r := round_second d in
  if (2 ^ 63 <=? r)%Z then "2562047h47m16.854775807s" else if (r <? - 2 ^ 63)%Z then "-2562047h47m16.854775808s" else whole_seconds r.
(** [printStatus]: a peer with its endpoint as printed; [None] is a handshake that never
    happened. *)
Record peer_status := { pe_endpoint : string; pe_handshake : option Z; pe_received : Z; pe_sent : Z }.
Fixpoint spaces (n : nat) : string := match n with O => EmptyString | S n => String " " (spaces n) end.
Definition pad8 (s : string) : string := s +:+ spaces (8 - String.length s).
Definition tunnel_status (now : Z) (t : Tunnel) (device : result string (string * list peer_status)) : option (list string) :=
  match device with
  | Err e => Some [pad8 (t_Name t) +:+ "  down (" +:+ e +:+ ")"]
  | Ok (name, peers) =>
      let first := pad8 name +:+ "  fwmark=" +:+ itoa (t_Fwmark t) +:+ " table=" +:+ itoa (t_Table t) in
      match peers with
      | [] => Some [first; spaces 12 +:+ "no peer configured"]
      | p :: _ =>
          let hs := match pe_handshake p with None => "never" | Some at_ => age_string (time_sub now at_) +:+ " ago" end in
          received ← humanBytes (pe_received p); sent ← humanBytes (pe_sent p);
          Some [first; spaces 12 +:+ "endpoint=" +:+ pe_endpoint p +:+ " handshake=" +:+ hs +:+ " rx=" +:+ received +:+ " tx=" +:+ sent]
      end
  end.
Definition printStatus (now : Z) (cfg : Config) (device : string → result string (string * list peer_status)) : option (list string) :=
  @concat string <$> mapM (λ t, tunnel_status now t (device (t_Name t))) (c_Tunnels cfg).

(** [printRecordedReconcileStatus]: [stamp] is the formatted time, [live] what
    [liveDrift] measured.  A file that does not exist prints nothing. *)
Definition live_line (live : result string (Z * Z)) : string :=
  match live with
  | Err e => spaces 11 +:+ "live       UNMEASURED (" +:+ e +:+ ")"
  | Ok (kernel, firewall) =>
      spaces 11 +:+ "live       kernel_drift=" +:+ itoa kernel +:+ " firewall_drift=" +:+ itoa firewall +:+ "  " +:+
      (if (kernel =? 0)%Z && (firewall =? 0)%Z then "in sync" else "DRIFTED — run `systemctl reload sakhtar-wg` to reconcile")
  end.
Definition sysctl_line (key : string) (v : recordedSysctl) : string :=
  spaces 12 +:+ "sysctl=" +:+ key +:+ " required=" +:+ rc_Required v +:+ " previous=" +:+ rc_Previous v +:+ " restore_on_exit=" +:+
  (if rc_RestoreOnExit v then "true" else "false").
Definition sysctl_lines (m : gmap string recordedSysctl) : list string :=
  (λ key, sysctl_line key (default {| rc_Required := ""; rc_Previous := ""; rc_RestoreOnExit := false |} (m !! key))) <$> sorted_set (dom m).
Definition printRecordedReconcileStatus (stamp : Z → string) (file : option (result string reconcileStatus)) (live : result string (Z * Z)) : list string :=
  match file with
  | None => []
  | Some (Err e) => ["reconcile  unavailable (" +:+ e +:+ ")"]
  | Some (Ok st) =>
      let outcome := if ks_LastApplySuccess st then "ok" else "failed: " +:+ ks_LastApplyError st in
      ["reconcile  last_apply=" +:+ stamp (ks_LastApplyTime st) +:+ " result=" +:+ outcome +:+ " kernel_drift=" +:+ itoa (ks_KernelDrift st) +:+
         " firewall_drift=" +:+ itoa (ks_FirewallDrift st);
       live_line live] ++
      sysctl_lines (ks_Sysctls st)
  end.
(** The status command fails on no counters the kernel can report: its only partial
    call is [humanBytes]. *)
Theorem printStatus_total now cfg device :
  (∀ t name peers, t ∈ c_Tunnels cfg → device (t_Name t) = Ok (name, peers) → Forall (λ p, (0 ≤ pe_received p < 2 ^ 63 ∧ 0 ≤ pe_sent p < 2 ^ 63)%Z) peers) →
  is_Some (printStatus now cfg device).
Proof.
  intros Hc. apply fmap_is_Some, mapM_is_Some_2, Forall_forall. intros t Ht. specialize (Hc t).
  change (is_Some (tunnel_status now t (device (t_Name t)))). unfold tunnel_status. destruct (device (t_Name t)) as [[name peers]|]; [|by eexists]. specialize (Hc name peers Ht eq_refl).
  destruct peers as [|p peers]; [by eexists|]. apply Forall_cons_1 in Hc as [[Hr Hs] _].
  destruct (humanBytes_unit (pe_received p)) as [[r ->] _]; [lia|]. destruct (humanBytes_unit (pe_sent p)) as [[x ->] _]; [lia|]. by eexists.
Qed.

(** ** version.go *)
Record versionMetadata := {
  vm_Version : string; vm_Commit : string; vm_BuildDate : string; vm_Toolchain : string; vm_GOOS : string; vm_GOARCH : string; vm_Modified : bool }.
(** The injected values, what the runtime reports, and the settings of the build. *)
Definition add_setting (m : versionMetadata) (kv : string * string) : versionMetadata :=
  {| vm_Version := vm_Version m;
     vm_Commit := if bool_decide (kv.1 = "vcs.revision") && bool_decide (vm_Commit m = "unknown") then kv.2 else vm_Commit m;
     vm_BuildDate := vm_BuildDate m; vm_Toolchain := vm_Toolchain m; vm_GOOS := vm_GOOS m; vm_GOARCH := vm_GOARCH m;
     vm_Modified := if bool_decide (kv.1 = "vcs.modified") then bool_decide (kv.2 = "true") else vm_Modified m |}.
Definition currentVersionMetadata (version commit buildDate toolchain runtime goos goarch : string) (settings : list (string * string)) : versionMetadata :=
  foldl add_setting
    {| vm_Version := version; vm_Commit := commit; vm_BuildDate := buildDate; vm_Toolchain := if bool_decide (toolchain = "unknown") then runtime else toolchain;
       vm_GOOS := goos; vm_GOARCH := goarch; vm_Modified := false |} settings.
Definition version_line (m : versionMetadata) : string :=
  "sakhtar-wg " +:+ vm_Version m +:+ " commit=" +:+ vm_Commit m +:+ " built=" +:+ vm_BuildDate m +:+ " toolchain=" +:+ vm_Toolchain m +:+ " " +:+
  vm_GOOS m +:+ "/" +:+ vm_GOARCH m.
(** An injected commit is the one that is reported. *)
Lemma injected_commit version commit buildDate toolchain runtime goos goarch settings : commit ≠ "unknown" →
  vm_Commit (currentVersionMetadata version commit buildDate toolchain runtime goos goarch settings) = commit.
Proof.
  intros Hc. unfold currentVersionMetadata. set (m := {| vm_Version := _ |}). assert (vm_Commit m = commit) as Hm by done. clearbody m. revert m Hm.
  induction settings as [|kv l IH]; intros m Hm; [done|]. cbn [foldl]. apply IH. cbn. rewrite Hm, (bool_decide_eq_false_2 _ Hc). by rewrite andb_false_r.
Qed.

(** ** main.go: the commands *)
Inductive command := CmdUp | CmdDown | CmdStatus | CmdPlan | CmdReload | CmdVersion | CmdUsage.
Definition command_of (args : list string) : command :=
  match args with
  | _ :: cmd :: _ =>
      if bool_decide (cmd = "up") then CmdUp else if bool_decide (cmd = "down") then CmdDown else if bool_decide (cmd = "status") then CmdStatus
      else if bool_decide (cmd = "plan") then CmdPlan else if bool_decide (cmd = "reload") then CmdReload
      else if bool_decide (cmd ∈ ["version"; "-v"; "--version"]) then CmdVersion else CmdUsage
  | _ => CmdUsage
  end.
(** [mustRoot] guards the commands that change the host: [None] is the refusal. *)
Definition mustRoot (euid : Z) (c : command) : option command := match c with CmdUp | CmdDown => if (euid =? 0)%Z then Some c else None | _ => Some c end.

(** ** pfsync.go: the command of a push *)
Definition pfSyncPushTimeout : Z := 60 * second.
Definition push_args (p : PfSyncer) : list string :=
  ["-i"; pf_SSHKey (ps_config p); "-p"; itoa (ps_port p); "-o"; "BatchMode=yes"; "-o"; "StrictHostKeyChecking=yes"; "-o"; "ConnectTimeout=10";
   "-o"; "ServerAliveInterval=5"; "-o"; "ServerAliveCountMax=2"] ++
  (if bool_decide (pf_KnownHosts (ps_config p) = "") then [] else ["-o"; "UserKnownHostsFile=" +:+ pf_KnownHosts (ps_config p)]) ++
  [pf_SSHUser (ps_config p) +:+ "@" +:+ pf_SSHHost (ps_config p); "update"].
