(* ===== verification/Manage.v ===== *)
(** * The management endpoint

    internal/observability/server.go and observability_linux.go: the server's
    configuration, its handlers, and what feeds the registry.  The listener, the HTTP
    machinery, JSON and the profiler are not part of the sources. *)
From S2P Require Import Prelude Netip Redact Registry Health ProxyDial DnsCache Config Startup Router Server.
From S2P Require Import Netlink Wg Gateway Plan Updater Status.

(** ** server.go *)
Record ManagementConfig := {
  mc_Listen : string; mc_ReadHeaderTimeout : Z; mc_WriteTimeout : Z; mc_IdleTimeout : Z; mc_ShutdownTimeout : Z;
  mc_MaxHeaderBytes : Z; mc_Pprof : bool }.
Definition managementIsLocal (address : string) : bool :=
  if has_prefix "unix:" address then negb (bool_decide (trim_prefix "unix:" address = ""))
  else match SplitHostPort address with
       | None => false
       | Some (host, _) => match ParseIP host with Some ip => IsLoopback ip | None => false end
       end.
Definition NewManagementServer (c : ManagementConfig) : result string ManagementConfig :=
  let c := {| mc_Listen := if bool_decide (mc_Listen c = "") then "127.0.0.1:9090" else mc_Listen c;
              mc_ReadHeaderTimeout := positiveOr (mc_ReadHeaderTimeout c) (5 * second);
              mc_WriteTimeout := positiveOr (mc_WriteTimeout c) (10 * second);
              mc_IdleTimeout := positiveOr (mc_IdleTimeout c) (30 * second);
              mc_ShutdownTimeout := positiveOr (mc_ShutdownTimeout c) (5 * second);
              mc_MaxHeaderBytes := positiveOr (mc_MaxHeaderBytes c) (Z.shiftl 16 10); mc_Pprof := mc_Pprof c |} in
  if mc_Pprof c && negb (managementIsLocal (mc_Listen c)) then Err "management: pprof requires a loopback or Unix-socket listener"
  else Ok c.

(** The runtime's profiling rates. *)
Record profiling := { block_rate : Z; mutex_fraction : Z }.
Record running := { ru_config : ManagementConfig; ru_previous : Z; ru_stopped : bool }.
Definition management_paths (pprof : bool) : list string :=
  ["/livez"; "/readyz"; "/metrics"; "/status"] ++
  (if pprof then ["/debug/pprof/"; "/debug/pprof/cmdline"; "/debug/pprof/profile"; "/debug/pprof/symbol"; "/debug/pprof/trace"] else []).
(** [Start] over [os.Lstat] and [net.Listen]: the paths that are served. *)
Definition Start (exists_at : string → bool) (listen : string → string → option string) (c : ManagementConfig) (p : profiling) :
    result string (running * list string) * profiling :=
  let path := trim_prefix "unix:" (mc_Listen c) in
  let unix := negb (bool_decide (path = mc_Listen c)) in
  if unix && exists_at path then (Err ("management: Unix socket path already exists: " +:+ path), p)
  else match (if unix then listen "unix" path else listen "tcp" (mc_Listen c)) with
       | Some err => (Err err, p)
       | None =>
           let '(previous, p) := if mc_Pprof c then (mutex_fraction p, {| block_rate := 1; mutex_fraction := 5 |}) else (0%Z, p) in
           (Ok ({| ru_config := c; ru_previous := previous; ru_stopped := false |}, management_paths (mc_Pprof c)), p)
       end.
(** [Shutdown]; [errs] are those of closing the HTTP server and of its serving loop. *)
Definition Shutdown (m : running) (errs : list string) (p : profiling) : list string * running * profiling :=
  if ru_stopped m then ([], m, p)
  else (errs, {| ru_config := ru_config m; ru_previous := ru_previous m; ru_stopped := true |},
        if mc_Pprof (ru_config m) then {| block_rate := 0; mutex_fraction := ru_previous m |} else p).

Section manage.
Context `{Float64}.
Inductive body := Empty | Message (text : string) | Readiness (ready : bool) (reasons : list string) | Samples (l : list sample) | Report (s : Status).
Record response := { re_code : Z; re_allow : string; re_type : string; re_body : body }.
Definition requireGET (method : string) : bool := bool_decide (method = "GET") || bool_decide (method = "HEAD").
Definition not_allowed : response :=
  {| re_code := 405; re_allow := "GET, HEAD"; re_type := "text/plain; charset=utf-8"; re_body := Message "method not allowed" |}.
(** A handler may collect before it reads the registry. *)
Definition handler : Type := string → Registry → response * Registry.
Definition handleLive : handler := λ method r,
  if negb (requireGET method) then (not_allowed, r)
  else ({| re_code := 200; re_allow := ""; re_type := "application/json"; re_body := Message "live" |}, r).
Definition handleReady (collect : Registry → Registry) : handler := λ method r,
  if negb (requireGET method) then (not_allowed, r)
  else let r := collect r in
       let '(ready, reasons) := Registry.Ready r in
       ({| re_code := if ready then 200 else 503; re_allow := ""; re_type := "application/json"; re_body := Readiness ready reasons |}, r).
Definition handleMetrics (collect : Registry → Registry) (p : process) (now : Z) : handler := λ method r,
  if negb (requireGET method) then (not_allowed, r)
  else let r := collect r in
       ({| re_code := 200; re_allow := ""; re_type := "text/plain; version=0.0.4; charset=utf-8"; re_body := Samples (WritePrometheus r p now) |}, r).
Definition handleStatus (collect : Registry → Registry) : handler := λ method r,
  if negb (requireGET method) then (not_allowed, r)
  else let r := collect r in
       ({| re_code := 200; re_allow := ""; re_type := "application/json"; re_body := Report (status r) |}, r).

(** ** What is collected: [Server.Observe] *)
(** The counters of the proxy server. *)
Record server_counters := {
  sc_active : Z; sc_accepted : Z; sc_rejections : gmap rejectionKey Z; sc_aggregates : gmap string sessionAggregate;
  sc_connects : gmap string Z; sc_dns : option MetricsSnapshot }.
Definition rejection_label (k : rejectionKey) : string :=
  protocol_string (Protocol k) +:+ "|" +:+ reason_string (Server.Reason k) +:+ "|" +:+ class_string (ListenerClass k).
Definition observed_outcome (outcome : string) : string :=
  if bool_decide (outcome = "completed") || bool_decide (outcome = "canceled") || bool_decide (outcome = "error") then outcome else "other".
Definition sum_aggregates (f : sessionAggregate → Z) (m : gmap string sessionAggregate) : gmap string Z :=
  foldl (λ out kv, bump out (observed_outcome kv.1) (f kv.2)) ∅ (map_to_list m).
Definition observed_proxy (c : server_counters) : ProxySnapshot :=
  {| px_Active := sc_active c; px_Accepted := sc_accepted c;
     px_Rejected := list_to_map ((λ kv, (rejection_label kv.1, kv.2)) <$> map_to_list (sc_rejections c));
     px_Completed := sum_aggregates Sessions (sc_aggregates c);
     px_DurationSeconds :=
       foldl (λ out kv, <[observed_outcome kv.1 := f_add (default f_zero (out !! observed_outcome kv.1)) (f_seconds (TotalDuration kv.2))]> out)
         ∅ (sorted_entries (sc_aggregates c));
     px_ClientBytes := sum_aggregates agg_ClientBytes (sc_aggregates c);
     px_BackendBytes := sum_aggregates agg_BackendBytes (sc_aggregates c);
     px_ConnectAttempts := sc_connects c |}.
Definition observed_dns (m : MetricsSnapshot) : DNSSnapshot :=
  {| dn_EntriesPositive := EntriesPositive m; dn_EntriesNegative := EntriesNegative m;
     dn_EvictionsPositive := EvictionsPositive m; dn_EvictionsNegative := EvictionsNegative m; dn_Pending := Pending m;
     dn_RejectedPending := RejectedPending m; dn_Requests := Requests m;
     dn_Resolutions := (λ v, {| dr_Count := DnsCache.count v; dr_DurationSeconds := f_seconds (to_int64 (nanos v)) |}) <$> Resolutions m |}.
Definition Observe (c : server_counters) (r : Registry) : Registry :=
  let r := SetProxy r (observed_proxy c) in
  match sc_dns c with Some m => SetDNS r (observed_dns m) | None => r end.

(** ** observability_linux.go *)
Definition boolOutcome (ok : bool) : string := if ok then "ok" else "failure".
Definition managementConfig (m : Management) : ManagementConfig :=
  {| mc_Listen := mg_Listen m; mc_ReadHeaderTimeout := seconds (mg_ReadHeaderTimeout m); mc_WriteTimeout := seconds (mg_WriteTimeout m);
     mc_IdleTimeout := seconds (mg_IdleTimeout m); mc_ShutdownTimeout := seconds (mg_ShutdownTimeout m);
     mc_MaxHeaderBytes := mg_MaxHeaderBytes m; mc_Pprof := mg_Pprof m |}.

(** What [collectOperationalState] sees of the server. *)
Record server_view := { sv_counters : server_counters; sv_generation : Z; sv_listenersReady : bool }.
Definition SetOk (r : Registry) (now : Z) (name : string) (ok : bool) (err : option string) : Registry :=
  SetComponent r now name true ok (boolOutcome ok) err.
Definition collectOperationalState (now : Z) (v : server_view) (file : result string reconcileStatus) (r : Registry) : Registry :=
  let r := SetActiveGeneration (Observe (sv_counters v) r) (sv_generation v) in
  let r := SetOk r now "listeners" (sv_listenersReady v) None in
  let r := SetOk r now "proxy" (sv_listenersReady v) None in
  let r := SetComponent r now "dns" false true "ok" None in
  match file with
  | Err e => SetComponent (SetComponent r now "kernel" true false "failure" (Some e)) now "firewall" true false "failure" (Some e)
  | Ok st =>
      let r := SetDrift r (ks_KernelDrift st) (ks_FirewallDrift st) in
      let applyErr := if ks_LastApplySuccess st then None else Some (ks_LastApplyError st) in
      let r := SetOk r now "kernel" (ks_LastApplySuccess st && (ks_KernelDrift st =? 0)%Z) applyErr in
      SetOk r now "firewall" (ks_LastApplySuccess st && (ks_FirewallDrift st =? 0)%Z) applyErr
  end.
(** [err] is the text of the error. *)
Definition recordReload (now : Z) (duration : Z) (err : option string) (r : Registry) : Registry :=
  let outcome := match err with None => "success" | Some _ => "failure" end in
  SetComponent (RecordReload r outcome duration) now "config" true true outcome err.

Definition signal_string (s : Monitor.SessionSignal) : string :=
  match s with Monitor.SessionRecent => "recent" | Monitor.SessionIdleUnknown => "idle_unknown" | Monitor.SessionFailed => "failed" end.
Definition state_string (s : Monitor.GroupHealth) : string := match s with Monitor.Ready => "ready" | Monitor.Degraded => "degraded" end.
Definition group_reason_string (x : Monitor.Reason) : string :=
  match x with
  | Monitor.ReasonRecentHandshake => "recent_handshake"
  | Monitor.ReasonRecentHandshakeProbePassing => "recent_handshake_probe_passing"
  | Monitor.ReasonProbeFailingFailOpen => "probe_failing_fail_open_recent_handshake"
  | Monitor.ReasonNoRecentHandshakeFailOpen => "no_recent_handshake_fail_open_primary"
  end.
Definition wg_snapshot (t : Monitor.TunnelSnapshot) : WGSnapshot :=
  {| wg_Tunnel := Monitor.ts_Tunnel t; wg_Signal := signal_string (Monitor.Signal t); wg_HandshakeAge := f_seconds (Monitor.HandshakeAge t);
     wg_ReceiveBytes := Monitor.ReceiveBytes t; wg_TransmitBytes := Monitor.TransmitBytes t |}.
Definition group_snapshot (g : Monitor.GroupSnapshot) : Registry.GroupSnapshot :=
  {| gr_Name := Monitor.gs_Name g; gr_State := state_string (Monitor.State g); gr_Reason := group_reason_string (Monitor.gs_Reason g); gr_ActiveMark := wrap32 (Monitor.ActiveMark g) |}.
Definition healthObserver (activeProbe : bool) (now : Z) (s : Monitor.Snapshot) (r : Registry) : Registry :=
  let failed := existsb (λ t, match Monitor.Signal t with Monitor.SessionFailed => true | _ => false end) (Monitor.Tunnels s) in
  let r := SetGroups (SetWG r (wg_snapshot <$> Monitor.Tunnels s)) (group_snapshot <$> Monitor.gs_Groups s) in
  if activeProbe then r else SetComponent r now "health" false (negb failed) (if failed then "degraded" else "ok") None.

(** The targets of [startActiveProbe] and what it does with a result: the component is
    ready while the last probe of some target succeeded. *)
Definition probe_targets (c : Config) : list string :=
  if negb (hp_Enabled (c_HealthProbe c)) then []
  else if bool_decide (hp_Via (c_HealthProbe c) = "") then t_Name <$> c_Tunnels c else [hp_Via (c_HealthProbe c)].
Record probe_result := { po_At : Z; po_Success : bool; po_Duration : Z; po_Err : option string }.
Definition observe_probe (now : Z) (target : string) (x : probe_result) (lastByTunnel : gmap string bool) (r : Registry) :
    gmap string bool * Registry :=
  let lastByTunnel := <[target := po_Success x]> lastByTunnel in
  let any := existsb id (map_to_list lastByTunnel).*2 in
  let r := SetProbe r {| pr_Tunnel := target; pr_ObservedAt := Some (po_At x); pr_Success := po_Success x;
                         pr_DurationSecond := f_seconds (po_Duration x); pr_LastError := default "" (po_Err x) |} in
  (lastByTunnel, SetComponent r now "health" false any (boolOutcome any) (po_Err x)).
(** The verdict on a probe's HTTP response. *)
Definition probe_status_ok (code : Z) : bool := negb ((code <? 200)%Z || (400 <=? code)%Z).
End manage.
