(* ===== verification/Daemon.v ===== *)
(** * main.go: start-up, reload, route refresh, repair and shutdown

    The operations that compose the kernel, the firewall, the server, the recorded
    status and the registry, and the main loop over them with the goroutines that
    report to it.  Logging is left out; the health monitor's polling is [Health]. *)
From S2P Require Import Prelude Netip Redact Registry Health DnsCache Config Startup Router Server KernelPlan Firewall.
From S2P Require Import Netlink Wg WgFrame Gateway Plan Updater Status Manage.

#[export] Instance Management_eq_dec : EqDecision Management.
Proof. solve_decision. Defined.

Section daemon.
Context {K F : Type} `{Netlink K} `{Iptables F} `{UnicodeTables} `{WgKeys}.

(** ** teardown and start-up *)
Definition teardown (cfg : Config) : M (host K F) unit :=
  gateway ← attempt (gatewayDown cfg);
  tunnels ← collect (λ t, on_kernel (tunnelDown t)) (c_Tunnels cfg);
  guard ← attempt (egressGuardDown cfg);
  join (errors_of gateway ++ tunnels ++ errors_of guard).

(** A step of the start-up whose failure tears everything down. *)
Definition or_teardown (cfg : Config) (m : M (host K F) unit) : M (host K F) unit :=
  r ← attempt m;
  match r with
  | Ok _ => mret ()
  | Err e => cleanup ← attempt (teardown cfg); join (e :: errors_of cleanup)
  end.
Definition preflight (r : result fw_error Ruleset) : M (host K F) unit := _ ← compiled_or r; mret ().
(** The part of [runUp] that changes the kernel and the firewall: what is checked
    before anything is changed, and what brings the tunnels up. *)
Definition preflights (cfg : Config) : M (host K F) unit :=
  _ ← on_kernel (validateKernelReservations (c_Tunnels cfg));
  if gw_Enabled (c_Gateway cfg) then preflight (compileGatewayRuleset cfg) else mret ().
Definition bring_up (cfg : Config) : M (host K F) unit :=
  _ ← or_teardown cfg (egressGuardUp cfg);
  _ ← each (λ t, or_teardown cfg (on_kernel (tunnelUp t))) (c_Tunnels cfg);
  or_teardown cfg (gatewayUp cfg).
Definition start_up (cfg : Config) : M (host K F) unit := _ ← preflights cfg; bring_up cfg.

(** ** Reload *)
Definition reloadRequiresRestart (old next : Config) : option string :=
  let list_of c := if gw_Enabled (c_Gateway c) then gw_ListListen (c_Gateway c) else "" in
  if negb (bool_decide (c_Management old = c_Management next)) then Some "management listener settings changed; restart required"
  else if negb (bool_decide (px_HTTPSListen (c_Proxy old) = px_HTTPSListen (c_Proxy next))) ||
          negb (bool_decide (px_HTTPListen (c_Proxy old) = px_HTTPListen (c_Proxy next)))
  then Some "proxy listener addresses changed; restart required"
  else if negb (bool_decide (list_of old = list_of next)) then Some "gateway list listener changed; restart required"
  else None.

Definition when (b : bool) (m : M (host K F) unit) : M (host K F) unit := if b then m else mret ().
Definition rule_changed (prev t : Tunnel) : bool :=
  negb (t_RulePriority prev =? t_RulePriority t)%Z || negb (t_Fwmark prev =? t_Fwmark t)%Z ||
  negb (t_FwmarkMask prev =? t_FwmarkMask t)%Z || negb (t_Table prev =? t_Table t)%Z.
Definition address_changed (prev t : Tunnel) : bool := negb (bool_decide (t_Address prev = t_Address t)).
Definition table_changed (prev t : Tunnel) : bool := negb (t_Table prev =? t_Table t)%Z.

(** A missing link is brought back up, otherwise only the plumbing is touched. *)
Definition repair_tunnel (t : Tunnel) : M (world K) unit :=
  link ← lookupLink (t_Name t);
  match link with None => tunnelUp t | Some link => reconcilePlumbing link t end.
Definition retire (prev t : Tunnel) : M (host K F) unit :=
  _ ← when (address_changed prev t) (on_kernel (deleteExactOwnedAddress prev));
  _ ← when (table_changed prev t) (on_kernel (deleteOwnedDefaultRoute prev));
  when (rule_changed prev t) (on_kernel (deleteOwnedRule prev)).
(** The body of the loop over the tunnels of the candidate. *)
Definition apply_tunnel (old : Config) (t : Tunnel) : M (host K F) unit :=
  match tunnels_by_name old !! t_Name t with
  | Some prev => if sameTunnelSpec prev t then on_kernel (repair_tunnel t)
                 else _ ← on_kernel (tunnelUp t); retire prev t
  | None => on_kernel (tunnelUp t)
  end.
Definition apply_gateway (old next : Config) : M (host K F) unit :=
  if gw_Enabled (c_Gateway old) && negb (gw_Enabled (c_Gateway next)) then gatewayDown old else gatewayUp next.
(** What [applyReload] does before it commits. *)
Definition apply_config (old next : Config) : M (host K F) unit :=
  _ ← each (apply_tunnel old) (c_Tunnels next);
  _ ← egressGuardUp next;
  apply_gateway old next.

(** Errors of the steps whose condition holds. *)
Definition step_errors (b : bool) (m : M (host K F) unit) : M (host K F) (list wg_error) :=
  if b then r ← attempt m; mret (errors_of r) else mret [].
Definition rollback_tunnel (old : Config) (t : Tunnel) : M (host K F) (list wg_error) :=
  match tunnels_by_name old !! t_Name t with
  | None => step_errors true (on_kernel (tunnelDown t))
  | Some previous =>
      let same_key := bool_decide (t_PrivateKey previous = t_PrivateKey t) in
      a ← step_errors (same_key && address_changed previous t) (on_kernel (deleteExactOwnedAddress t));
      b ← step_errors (same_key && rule_changed previous t) (on_kernel (deleteOwnedRule t));
      c ← step_errors (same_key && table_changed previous t) (on_kernel (deleteOwnedDefaultRoute t));
      mret (a ++ b ++ c)
  end.
Fixpoint gather {A} (f : A → M (host K F) (list wg_error)) (l : list A) : M (host K F) (list wg_error) :=
  match l with [] => mret [] | a :: l => e ← f a; es ← gather f l; mret (e ++ es) end.
Definition rollbackKernelApply (old attempted : Config) (applyErr : wg_error) : M (host K F) unit :=
  a ← gather (rollback_tunnel old) (c_Tunnels attempted);
  b ← collect (λ t, on_kernel (tunnelUp t)) (c_Tunnels old);
  c ← step_errors true (if gw_Enabled (c_Gateway old) then gatewayUp old else gatewayDown attempted);
  d ← step_errors true (egressGuardUp old);
  join (applyErr :: a ++ b ++ c ++ d).

Definition removed_tunnels (old next : Config) : list Tunnel :=
  filter (λ t, t_Name t ∉ t_Name <$> c_Tunnels next) (c_Tunnels old).
(** [applyReload]: [Ok] is the commit, with which the server gets the router of the
    candidate before the removed tunnels go down. *)
Definition applyReload (old next : Config) : M (host K F) unit :=
  _ ← on_kernel (validateKernelReservations (c_Tunnels old));
  _ ← (if gw_Enabled (c_Gateway next) then preflight (compileGatewayRuleset next) else mret ());
  _ ← preflight (compileEgressGuardRuleset next);
  r ← attempt (apply_config old next);
  match r with
  | Err e => rollbackKernelApply old next e
  | Ok _ => _ ← collect (λ t, on_kernel (tunnelDown t)) (removed_tunnels old next); mret ()
  end.

(** ** Route refresh and repair *)
Context `{ErrorText}.
(** The services of [runUp] after the kernel: [failed] is the error of the first one,
    of the health monitor, the proxy, the list server and the management server, that
    does not start. *)
Definition runUp (io : status_io) (cfg : Config) (failed : option wg_error) (file : option reconcileStatus) :
    M (host K F) (result wg_error unit * option reconcileStatus) :=
  checked ← attempt (preflights cfg);
  match checked with
  | Err e => mret (Err e, file)
  | Ok _ =>
      r ← attempt (bring_up cfg);
      file ← measureAndRecordDrift io cfg (errors_of r) file;
      match r, failed with
      | Err e, _ => mret (Err e, file)
      | Ok _, Some e => _ ← attempt (teardown cfg); mret (Err e, file)
      | Ok _, None => mret (Ok tt, file)
      end
  end.
Definition runDown (io : status_io) (cfg : Config) (file : option reconcileStatus) : M (host K F) (option reconcileStatus) :=
  r ← attempt (teardown cfg);
  match r with Err e => record io 1 1 [e] file | Ok _ => record io 0 0 [] file end.

Definition refresh_tunnel (t : Tunnel) : M (world K) unit :=
  link ← lookupLink (t_Name t);
  match link with
  | None => refuse (t_Name t) "link not found"
  | Some link => _ ← owned_mode link t; reconcilePlumbing link t
  end.
(** [applyRoutes] records how many tunnels and how many of the two firewall steps failed. *)
Definition applyRoutes (io : status_io) (cfg : Config) (file : option reconcileStatus) : M (host K F) (option reconcileStatus) :=
  pre ← step_errors (gw_Enabled (c_Gateway cfg)) (preflight (compileGatewayRuleset cfg));
  match pre with
  | [] =>
      a ← collect (λ t, on_kernel (refresh_tunnel t)) (c_Tunnels cfg);
      b ← step_errors true (egressGuardUp cfg);
      c ← step_errors true (gatewayUp cfg);
      record io (Z.of_nat (length a)) (Z.of_nat (length (b ++ c))) (a ++ b ++ c) file
  | _ => record io 0 1 pre file
  end.

Definition reapplyOwnedState (cfg : Config) : M (host K F) unit :=
  a ← step_errors true (egressGuardUp cfg);
  b ← collect (λ t, on_kernel (repair_tunnel t)) (c_Tunnels cfg);
  c ← step_errors true (gatewayUp cfg);
  join (a ++ b ++ c).

Inductive repair_outcome := MeasureFailed | InSync | RepairRefused | Repaired | RepairFailed.
Definition drift_recorded (file : option reconcileStatus) : bool :=
  match file with Some st => negb (ks_KernelDrift st =? 0)%Z || negb (ks_FirewallDrift st =? 0)%Z | None => false end.
(** [repair]; the outcome is what it logs and counts, the file what it leaves recorded. *)
Definition repair (io : status_io) (cfg : Config) (w : kernelWatch) (file : option reconcileStatus) :
    M (host K F) (repair_outcome * kernelWatch * option reconcileStatus) :=
  pending ← attempt (pendingChanges cfg);
  match pending with
  | Err e => mret (MeasureFailed, (observe w ["measure: " +:+ error_text [e]]).2, file)
  | Ok ([], _) =>
      file ← (if drift_recorded file then measureAndRecordDrift io cfg [] file else mret file);
      mret (InSync, (observe w []).2, file)
  | Ok (changes, true) =>
      file ← measureAndRecordDrift io cfg [Refused "" "blocking kernel drift; repair refused"] file;
      mret (RepairRefused, (observe w changes).2, file)
  | Ok (_, false) =>
      repairErr ← attempt (reapplyOwnedState cfg);
      remaining ← attempt (pendingChanges cfg);
      file ← measureAndRecordDrift io cfg (errors_of repairErr) file;
      match repairErr, remaining with
      | Ok _, Ok ([], _) => mret (Repaired, (observe w []).2, file)
      | _, Ok (remaining, _) => mret (RepairFailed, (observe w remaining).2, file)
      | _, Err _ => mret (RepairFailed, (observe w []).2, file)
      end
  end.

(** ** The main loop *)
Context `{Float64} `{Monitor.DeviceClient Cl}.

(** Where the updater's goroutine is: between two cycles, fetching the sources of the
    base it started with, sending a merged configuration, after which a cycle mirrors
    to pfSense and the first send does not, or about to mirror. *)
Inductive updater_phase :=
| Idle
| Fetching (seen : gset string) (remaining : list RouteSource)
| Sending (merged : Config) (mirrors : bool)
| Mirroring.
(** The daemon once it serves; [d_queue] is the channel of capacity one between the
    updater and the main loop, [d_probes] the last results of the running probers. *)
Record daemon := {
  d_host : host K F; d_cfg : Config; d_srv : server; d_hm : option Monitor.Monitor;
  d_updater : option RouteUpdater; d_phase : updater_phase; d_queue : option Config;
  d_list : option string; d_watch : kernelWatch; d_running : bool;
  d_file : option reconcileStatus; d_registry : Registry; d_probes : gmap string bool }.

(** What a step takes from outside: the writing of the status file, the clock, the time
    since the step began, the counters of the server that the model of the server does
    not carry, and the text of the error of a status file that cannot be read. *)
Record env := {
  en_io : status_io; en_now : Z; en_elapsed : Z; en_aggregates : gmap string sessionAggregate; en_connects : gmap string Z;
  en_dns : option MetricsSnapshot; en_unreadable : string }.

(** What the main loop's [select] receives: the ticker, the queue, SIGHUP with what
    [LoadConfig] gives, SIGINT or SIGTERM; the steps of the updater: a cycle starts,
    the next source is fetched, all are and the result is merged, the channel has room,
    the result is mirrored; a poll of the health monitor; the result of a probe, or of
    one of a prober that a reload has replaced; a request to the management server. *)
Inductive event :=
| KernelTick
| Dequeue
| Hangup (loaded : result string Config) (wgctrl : bool) (cache : option (gmap string (list string)))
| Terminate
| StartCycle
| FetchNext (fetched : result source_error (list string))
| MergeFetched
| Enqueue
| Mirror (push : string → result string string)
| Polled (client : Cl)
| Probed (target : string) (x : probe_result)
| StaleProbed (lastByTunnel : gmap string bool) (target : string) (x : probe_result)
| Requested.

Definition with_host (d : daemon) (h : host K F) (file : option reconcileStatus) : daemon :=
  {| d_host := h; d_cfg := d_cfg d; d_srv := d_srv d; d_hm := d_hm d; d_updater := d_updater d; d_phase := d_phase d;
     d_queue := d_queue d; d_list := d_list d; d_watch := d_watch d; d_running := d_running d; d_file := file;
     d_registry := d_registry d; d_probes := d_probes d |}.
Definition with_watch (d : daemon) (w : kernelWatch) : daemon :=
  {| d_host := d_host d; d_cfg := d_cfg d; d_srv := d_srv d; d_hm := d_hm d; d_updater := d_updater d; d_phase := d_phase d;
     d_queue := d_queue d; d_list := d_list d; d_watch := w; d_running := d_running d; d_file := d_file d;
     d_registry := d_registry d; d_probes := d_probes d |}.
Definition with_updater (d : daemon) (u : option RouteUpdater) (phase : updater_phase) (queue : option Config) : daemon :=
  {| d_host := d_host d; d_cfg := d_cfg d; d_srv := d_srv d; d_hm := d_hm d; d_updater := u; d_phase := phase;
     d_queue := queue; d_list := d_list d; d_watch := d_watch d; d_running := d_running d; d_file := d_file d;
     d_registry := d_registry d; d_probes := d_probes d |}.
Definition with_registry (d : daemon) (r : Registry) : daemon :=
  {| d_host := d_host d; d_cfg := d_cfg d; d_srv := d_srv d; d_hm := d_hm d; d_updater := d_updater d; d_phase := d_phase d;
     d_queue := d_queue d; d_list := d_list d; d_watch := d_watch d; d_running := d_running d; d_file := d_file d;
     d_registry := r; d_probes := d_probes d |}.
Definition with_health (d : daemon) (hm : option Monitor.Monitor) (r : Registry) (probes : gmap string bool) : daemon :=
  {| d_host := d_host d; d_cfg := d_cfg d; d_srv := d_srv d; d_hm := hm; d_updater := d_updater d; d_phase := d_phase d;
     d_queue := d_queue d; d_list := d_list d; d_watch := d_watch d; d_running := d_running d; d_file := d_file d;
     d_registry := r; d_probes := probes |}.

(** *** The updater's goroutine *)
Definition start_cycle (d : daemon) : daemon :=
  match d_updater d, d_phase d with
  | Some u, Idle => with_updater d (Some u) (Fetching ∅ (sources_of (u_base u))) (d_queue d)
  | _, _ => d
  end.
(** What is reported of a source. *)
Definition source_snapshot (now : Z) (name : string) (have : list string) (fetched : result source_error (list string)) :
    RouteSourceSnapshot :=
  match fetched with
  | Err e => {| so_Name := name; so_LastSuccess := None; so_LastOutcome := "failure"; so_PrefixCount := Z.of_nat (length have);
                so_LastError := source_error_text e |}
  | Ok cidrs => {| so_Name := name; so_LastSuccess := Some now; so_LastOutcome := "success";
                   so_PrefixCount := Z.of_nat (length (sortDedup cidrs)); so_LastError := "" |}
  end.
Definition fetch_next (e : env) (d : daemon) (fetched : result source_error (list string)) : daemon :=
  match d_updater d, d_phase d with
  | Some u, Fetching seen (s :: remaining) =>
      if bool_decide (rs_Name s ∈ seen) then with_updater d (Some u) (Fetching seen remaining) (d_queue d)
      else let d := with_registry d (SetRouteSource (d_registry d) (en_now e)
                      (source_snapshot (en_now e) (rs_Name s) (default [] (u_fetched u !! rs_Name s)) fetched)) in
           with_updater d (Some (with_fetched u (fetch_one (λ _, fetched) (u_fetched u) s).1))
             (Fetching ({[ rs_Name s ]} ∪ seen) remaining) (d_queue d)
  | _, _ => d
  end.
Definition merge_fetched (d : daemon) : daemon :=
  match d_updater d, d_phase d with
  | Some u, Fetching _ [] => with_updater d (Some u) (Sending (Merge u) true) (d_queue d)
  | _, _ => d
  end.
Definition enqueue (d : daemon) : daemon :=
  match d_phase d, d_queue d with
  | Sending merged mirrors, None => with_updater d (d_updater d) (if mirrors then Mirroring else Idle) (Some merged)
  | _, _ => d
  end.
(** What [Reconcile] reports of a push. *)
Definition outcome_string (o : push_outcome) : string :=
  match o with Rejected => "rejected" | Skipped => "skipped" | Failed => "failure" | Pushed => "success" end.
Definition pfsync_error (push : string → result string string) (nets : nat) (o : push_outcome) (sent : option string) : option string :=
  match o, sent with
  | Rejected, None => Some ("minimum network guard rejected " +:+ itoa (Z.of_nat nets) +:+ " entries")
  | Rejected, Some csv => match push csv with Ok out => Some ("remote rejected update: " +:+ out) | Err _ => None end
  | Failed, Some csv => match push csv with Err e => Some e | Ok _ => None end
  | _, _ => None
  end.
Definition mirror (e : env) (d : daemon) (push : string → result string string) : daemon :=
  match d_updater d, d_phase d with
  | Some u, Mirroring =>
      let d := match u_pf u, mirrored u, (mirrorToPfSense push u).1 with
               | Some pf, Some l, Some (o, sent) =>
                   with_registry d (RecordPfSync (d_registry d) (en_now e) (outcome_string o)
                                      (pfsync_error push (length (desired pf l)) o sent))
               | _, _, _ => d
               end in
      with_updater d (Some (mirrorToPfSense push u).2) Idle (d_queue d)
  | _, _ => d
  end.

(** *** The health monitor and the probers *)
Definition polled (e : env) (d : daemon) (client : Cl) : daemon :=
  match d_hm d with
  | None => d
  | Some m =>
      let m := (Monitor.Poll m client (en_now e)).1 in
      with_health d (Some m)
        (healthObserver (hp_Enabled (c_HealthProbe (d_cfg d))) (en_now e) (Monitor.Snapshot_ (Some m)) (d_registry d)) (d_probes d)
  end.
Definition probed_result (e : env) (d : daemon) (target : string) (x : probe_result) : daemon :=
  if bool_decide (target ∈ probe_targets (d_cfg d)) then
    let '(probes, r) := observe_probe (en_now e) target x (d_probes d) (d_registry d) in
    with_health d (Monitor.ObserveProbe (d_hm d) target (po_Success x) (po_At x)) r probes
  else d.
(** A replaced prober still reports to the registry, with the results it knows. *)
Definition stale_result (e : env) (d : daemon) (lastByTunnel : gmap string bool) (target : string) (x : probe_result) : daemon :=
  with_registry d (observe_probe (en_now e) target x lastByTunnel (d_registry d)).2.

(** *** The management server's requests *)
(** What there is to collect of the server.  [ListenersReady] also compares the number
    of listeners with the expected one; both are set by [Start] and stay. *)
Definition view_of (e : env) (s : server) : server_view :=
  {| sv_counters := {| sc_active := Admission.activeCount (srv_admission s); sc_accepted := srv_accepted s;
                       sc_rejections := srv_rejections s; sc_aggregates := en_aggregates e; sc_connects := en_connects e; sc_dns := en_dns e |};
     sv_generation := srv_generation s; sv_listenersReady := negb (srv_stopping s) |}.
Definition readReconcileStatus (e : env) (file : option reconcileStatus) : result string reconcileStatus :=
  match file with Some st => Ok st | None => Err (en_unreadable e) end.
Definition collect_state (e : env) (d : daemon) (r : Registry) : Registry :=
  collectOperationalState (en_now e) (view_of e (d_srv d)) (readReconcileStatus e (d_file d)) r.
(** The answer to [GET /readyz]. *)
Definition readyz (e : env) (d : daemon) : response := (handleReady (collect_state e d) "GET" (d_registry d)).1.

(** *** The main goroutine *)
Definition count_repair (o : repair_outcome) (r : Registry) : Registry :=
  match o with Repaired => RecordKernelRepair r "success" | RepairFailed => RecordKernelRepair r "failure" | _ => r end.
Definition tick (e : env) (d : daemon) : daemon :=
  match repair (en_io e) (d_cfg d) (d_watch d) (d_file d) (d_host d) with
  | (Ok (o, w, file), h) => with_registry (with_host (with_watch d w) h file) (count_repair o (d_registry d))
  | (Err _, h) => with_host d h (d_file d)
  end.
(** The file after a recording, which itself never fails. *)
Definition file_after (r : result wg_error (option reconcileStatus)) (file : option reconcileStatus) : option reconcileStatus :=
  match r with Ok file => file | Err _ => file end.
Definition refresh (e : env) (d : daemon) : daemon :=
  match d_queue d with
  | None => d
  | Some queued =>
      let merged := currentRoutes (d_updater d) queued in
      let '(r, h) := applyRoutes (en_io e) merged (d_file d) (d_host d) in
      {| d_host := h; d_cfg := merged; d_srv := d_srv d; d_hm := d_hm d;
         d_updater := d_updater d; d_phase := d_phase d; d_queue := None; d_list := (λ _, list_body merged) <$> d_list d;
         d_watch := d_watch d; d_running := d_running d; d_file := file_after r (d_file d); d_registry := d_registry d;
         d_probes := d_probes d |}
  end.

(** The updater after a reload; a new one first sends what it has cached. *)
Definition next_updater (d : daemon) (newCfg : Config) (cache : option (gmap string (list string))) :
    option RouteUpdater * updater_phase :=
  match d_updater d with
  | Some u => (Some (SetBase u newCfg), d_phase d)
  | None => if needsRouteUpdater newCfg then let u := NewRouteUpdater newCfg cache in (Some u, Sending (Merge u) false)
            else (None, Idle)
  end.
(** A reload that is refused or fails is recorded and keeps everything but the host. *)
Definition reject_reload (e : env) (d : daemon) (why : string) : daemon :=
  with_registry d (recordReload (en_now e) (en_elapsed e) (Some why) (d_registry d)).
(** What follows a successful [applyReload]. *)
Definition commit_reload (e : env) (d : daemon) (newCfg next : Config) (h : host K F) (candidate : option Monitor.Monitor)
    (rt : router) (cache : option (gmap string (list string))) : daemon :=
  let '(updater, phase) := next_updater d newCfg cache in
  let '(r, h) := measureAndRecordDrift (en_io e) next [] (d_file d) h in
  let d' := {| d_host := h; d_cfg := next; d_srv := Reload (d_srv d) rt;
     d_hm := Monitor.InheritProbes candidate (d_hm d) (unchangedTunnels (d_cfg d) next);
     d_updater := updater; d_phase := phase; d_queue := d_queue d;
     d_list := (λ _, list_body next) <$> d_list d; d_watch := d_watch d; d_running := d_running d;
     d_file := file_after r (d_file d); d_registry := d_registry d; d_probes := ∅ |} in
  with_registry d' (recordReload (en_now e) (en_elapsed e) None (collect_state e d' (d_registry d'))).
(** [None]: the daemon panics while it builds the router. *)
Definition hangup (e : env) (d : daemon) (loaded : result string Config) (wgctrl : bool) (cache : option (gmap string (list string))) :
    option daemon :=
  match loaded with
  | Err why => Some (reject_reload e d why)
  | Ok newCfg =>
      match reloadRequiresRestart (d_cfg d) newCfg with
      | Some why => Some (reject_reload e d why)
      | None =>
          let next := match d_updater d with Some u => MergeBase u newCfg | None => newCfg end in
          match NewHealthMonitor wgctrl next with
          | Err why => Some (reject_reload e d (monitor_error_text why))
          | Ok candidate =>
              match applyReload (d_cfg d) next (d_host d) with
              | (Err err, h) =>
                  let '(r, h) := measureAndRecordDrift (en_io e) (d_cfg d) [err] (d_file d) h in
                  Some (reject_reload e (with_host d h (file_after r (d_file d))) (error_text [err]))
              | (Ok _, h) =>
                  match newRouterGeneration (E := unit) next candidate (Advance (srv_generation (d_srv d))) with
                  | None => None
                  | Some (rt, _) => Some (commit_reload e d newCfg next h candidate rt cache)
                  end
              end
          end
      end
  end.
Definition shutdown (d : daemon) : daemon :=
  {| d_host := (teardown (d_cfg d) (d_host d)).2; d_cfg := d_cfg d; d_srv := (Stop_begin (d_srv d)).2; d_hm := d_hm d;
     d_updater := d_updater d; d_phase := d_phase d; d_queue := d_queue d; d_list := None; d_watch := d_watch d;
     d_running := false; d_file := d_file d; d_registry := d_registry d; d_probes := d_probes d |}.

(** [None] is a panic. *)
Definition handle (e : env) (d : daemon) (ev : event) : option daemon :=
  match ev with
  | KernelTick => Some (tick e d)
  | Dequeue => Some (refresh e d)
  | Hangup loaded wgctrl cache => hangup e d loaded wgctrl cache
  | Terminate => Some (shutdown d)
  | StartCycle => Some (start_cycle d)
  | FetchNext fetched => Some (fetch_next e d fetched)
  | MergeFetched => Some (merge_fetched d)
  | Enqueue => Some (enqueue d)
  | Mirror push => Some (mirror e d push)
  | Polled client => Some (polled e d client)
  | Probed target x => Some (probed_result e d target x)
  | StaleProbed lastByTunnel target x => Some (stale_result e d lastByTunnel target x)
  | Requested => Some (with_registry d (collect_state e d (d_registry d)))
  end.

(** The daemon when [runUp] enters its loop. *)
Definition list_served (cfg : Config) : bool := gw_Enabled (c_Gateway cfg) && negb (bool_decide (gw_ListListen (c_Gateway cfg) = "")).
Definition boot_registry (e : env) (cfg : Config) (srv : server) (file : option reconcileStatus) : Registry :=
  let r := SetComponent (NewRegistry (en_now e)) (en_now e) "config" true true "ok" None in
  let r := SetActiveGeneration r (srv_generation srv) in
  let r := collectOperationalState (en_now e) (view_of e srv) (readReconcileStatus e file) r in
  let r := if list_served cfg then SetComponent r (en_now e) "list_server" true true "ok" None else r in
  if mg_Disabled (c_Management cfg) then r else SetComponent r (en_now e) "management" true true "ok" None.
Definition boot (e : env) (cfg : Config) (cache : option (gmap string (list string))) (h : host K F) (file : option reconcileStatus)
    (hm : option Monitor.Monitor) (rt : router) : daemon :=
  let u := NewRouteUpdater cfg cache in
  {| d_host := h; d_cfg := cfg; d_srv := NewServer rt; d_hm := hm;
     d_updater := if needsRouteUpdater cfg then Some u else None;
     d_phase := if needsRouteUpdater cfg then Sending (Merge u) false else Idle; d_queue := None;
     d_list := if list_served cfg then Some (list_body cfg) else None;
     d_watch := {| lastSeen := "" |}; d_running := true; d_file := file;
     d_registry := boot_registry e cfg (NewServer rt) file; d_probes := ∅ |}.

(** The states of the loop; [loaded] are the configurations [LoadConfig] gives.  In
    between others may do what they want to the host and to the status file. *)
Inductive runs (loaded : Config → Prop) : daemon → Prop :=
| runs_boot e cfg cache hm rt x h h' file file' : loaded cfg → runUp (en_io e) cfg None file h = (Ok (Ok tt, file'), h') →
    NewHealthMonitor true cfg = Ok hm →
    newRouterGeneration (E := unit) cfg hm NewGenerations = Some (rt, x) → runs loaded (boot e cfg cache h' file' hm rt)
| runs_step e d ev d' : runs loaded d → d_running d = true →
    (∀ c wgctrl cache, ev = Hangup (Ok c) wgctrl cache → loaded c) → handle e d ev = Some d' → runs loaded d'
| runs_others d h file : runs loaded d → runs loaded (with_host d h file).
End daemon.
