(* ===== verification/DaemonFrame.v ===== *)
(** * main.go: what the daemon never touches

    Every operation of the daemon, also one that fails half way, leaves the links of
    others with their addresses and routes, the rules of others and the rest of the
    firewall alone. *)
From S2P Require Import Prelude Netip Firewall Config Startup KernelPlan Netlink Wg WgFrame WgSpec WgTunnel.
From S2P Require Import Gateway GatewaySpec Plan PlanSpec Updater Status StatusSpec Daemon.

(** ** Operations that stay in a preorder *)
Section stays.
Context {S : Type} (R : S → S → Prop) {HR : PreOrder R}.

Definition stays {A} (m : M S A) : Prop := ∀ s r s', m s = (r, s') → R s s'.

Lemma stays_ret {A} (a : A) : stays (mret a).
Proof using HR. by intros s r s' [= <- <-]. Qed.
Lemma stays_refuse {A} tunnel what : stays (refuse tunnel what : M S A).
Proof using HR. by intros s r s' [= <- <-]. Qed.
Lemma stays_join errs : stays (join errs).
Proof using HR. by intros s r s' [-> _]%join_inv. Qed.
Lemma stays_bind {A B} (m : M S A) (f : A → M S B) : stays m → (∀ a, stays (f a)) → stays (m ≫= f).
Proof using HR.
  intros Hm Hf s r s' [(e&E&->)|(a&s1&E&E')]%M_bind_inv; [by eapply Hm|]. etrans; [by eapply Hm|by eapply Hf].
Qed.
Lemma stays_attempt {A} (m : M S A) : stays m → stays (attempt m).
Proof using HR. intros Hm s r s' (r'&->&E)%attempt_inv. by eapply Hm. Qed.
Lemma stays_each {A} (f : A → M S unit) l : (∀ a, a ∈ l → stays (f a)) → stays (each f l).
Proof using HR.
  induction l as [|a l IH]; intros Hf; cbn [each]; [apply stays_ret|].
  apply stays_bind; [apply Hf; by left|]. intros _. apply IH. intros a' ?. apply Hf. by right.
Qed.
Lemma stays_collect {A} (f : A → M S unit) l : (∀ a, a ∈ l → stays (f a)) → stays (collect f l).
Proof using HR.
  induction l as [|a l IH]; intros Hf; cbn [collect]; [apply stays_ret|].
  apply stays_bind; [apply stays_attempt, Hf; by left|]. intros r.
  apply stays_bind; [apply IH; intros a' ?; apply Hf; by right|]. intros errs. apply stays_ret.
Qed.
End stays.

Create HintDb stays.
#[export] Hint Resolve stays_ret stays_refuse stays_join : stays.
#[export] Hint Extern 0 (PreOrder _) => typeclasses eauto : stays.
(** Walk down the binds and branches of an operation. *)
Ltac stay :=
  lazymatch goal with
  | |- stays _ (_ ≫= _) => apply stays_bind; [typeclasses eauto| |intros ?]; stay
  | |- stays _ (attempt _) => apply stays_attempt; [typeclasses eauto|]; stay
  | |- stays _ (each _ _) => apply stays_each; [typeclasses eauto|intros ??]; stay
  | |- stays _ (collect _ _) => apply stays_collect; [typeclasses eauto|intros ??]; stay
  | |- stays _ (let _ := _ in _) => cbv zeta; stay
  | |- stays _ (if ?b then _ else _) => destruct b; stay
  | |- stays _ (match ?x with _ => _ end) => destruct x; stay
  | |- _ => eauto with stays
  end.

(** ** The kernel objects of others *)
Section foreign.
Context (ts : list Tunnel).

Definition foreign_link (l : Link) : bool := negb (bool_decide (l_Name l ∈ t_Name <$> ts)).
Definition foreign_indices (v : view) : list Z := l_Index <$> pick foreign_link (v_links v).
(** A route on a link of others that is not the kernel's and prefers no source
    address, which could be one that goes. *)
Definition bystander_route (ids : list Z) (r : Route) : bool :=
  negb (r_Protocol r =? 2)%Z && bool_decide (r_Src r = None) && bool_decide (r_LinkIndex r ∈ ids).
Definition foreign_rule (r : Rule) : bool := negb (existsb (λ t, own_rule t r) ts).
(** Links that are no tunnel's are as they were, with their addresses; so are these
    routes, and the rules that are no tunnel's. *)
Definition foreign_kept (v w : view) : Prop :=
  agree foreign_link (λ a, bool_decide (la_Index a ∈ foreign_indices v)) (bystander_route (foreign_indices v)) foreign_rule v w.

Lemma foreign_indices_perm v w : pick foreign_link (v_links v) ≡ₚ pick foreign_link (v_links w) → foreign_indices v ≡ₚ foreign_indices w.
Proof. intros Hl. unfold foreign_indices. by rewrite Hl. Qed.
#[export] Instance foreign_kept_frame : Frame foreign_kept.
Proof.
  split; [intros v w ?; unfold foreign_kept; by apply frame_same|]. intros u v w (Hl&Ha&Hr&Hu) (Hl'&Ha'&Hr'&Hu').
  assert (∀ i, bool_decide (i ∈ foreign_indices u) = bool_decide (i ∈ foreign_indices v)) as Hids.
  { intros i. apply bool_decide_ext. by rewrite (foreign_indices_perm u v). }
  split_and!; [by etrans| | |by etrans]; (etrans; [done|]).
  - eapply pick_weaken; [|exact Ha']. intros a _. by rewrite Hids.
  - eapply pick_weaken; [|exact Hr']. intros r _. unfold bystander_route. by rewrite Hids.
Qed.

Lemma foreign_other t l : t ∈ ts → foreign_link l = true → other_link t l = true.
Proof.
  intros Ht. unfold foreign_link, other_link. rewrite !negb_true_iff, !bool_decide_eq_false.
  intros Hn Heq. apply Hn. rewrite Heq. by apply list_elem_of_fmap_2.
Qed.
Lemma foreign_not_own t r : t ∈ ts → foreign_rule r = true → own_rule t r = false.
Proof.
  intros Ht. unfold foreign_rule. rewrite negb_true_iff, <-not_true_iff_false, existsb_exists.
  intros Hn. apply not_true_is_false. intros Ho. apply Hn. exists t. by rewrite <-list_elem_of_In.
Qed.
Lemma foreign_index_other t v i : t ∈ ts → i ∈ foreign_indices v → i ∈ other_indices t v.
Proof.
  intros Ht (l&->&[Hf Hl]%list_elem_of_filter)%list_elem_of_fmap. apply list_elem_of_fmap_2, list_elem_of_filter.
  split; [by apply foreign_other|done].
Qed.
End foreign.

(** ** The operations of wg.go *)
Section kernel.
Context {K : Type} `{NetlinkLaws K} `{WgKeys}.
Context (ts : list Tunnel).
Implicit Types s : world K.

Lemma own_index_not_foreign t s link : t ∈ ts → link ∈ v_links (sees s) → l_Name link = t_Name t →
  l_Index link ∉ foreign_indices ts (sees s).
Proof using Type. intros Ht Hin Hn Hf. eapply own_index_not_other; [exact Hin|done|]. by eapply foreign_index_other. Qed.
Lemma foreign_nonzero s i : i ∈ foreign_indices ts (sees s) → i ≠ 0%Z.
Proof using Type. intros (l&->&[_ Hl]%list_elem_of_filter)%list_elem_of_fmap. by eapply links_numbered. Qed.
Lemma mark_rule_own t r : is_mark_rule t r = true → own_rule t r = true.
Proof using Type.
  unfold is_mark_rule, ruleEqual, own_rule. cbn. rewrite !andb_true_iff, !Z.eqb_eq. intros ((((?&_)&_)&_)&Hp). split; [done|].
  by rewrite Hp.
Qed.

Lemma tunnelUp_foreign t s r s' : t ∈ ts → plumbable t → tunnelUp t s = (r, s') → foreign_kept ts (sees s) (sees s').
Proof using Type.
  intros Ht Hp E%tunnelUp_others; [|done]. revert E. apply agree_weaken.
  - intros l. by apply foreign_other.
  - intros a ?%bool_decide_eq_true. unfold spared_addr. rewrite bool_decide_true; [done|]. by eapply foreign_index_other.
  - intros x. unfold bystander_route, spared_route. rewrite !andb_true_iff, orb_true_iff.
    intros [_ ?%bool_decide_eq_true]. left. apply bool_decide_eq_true. by eapply foreign_index_other.
  - intros x Hx. by rewrite (foreign_not_own ts).
Qed.

Lemma tunnelDown_foreign t s r s' : t ∈ ts → tunnelDown t s = (r, s') → foreign_kept ts (sees s) (sees s').
Proof using Type.
  intros Ht E%tunnelDown_others. revert E.
  assert (∀ i, i ∈ foreign_indices ts (sees s) → i ∉ own_indices t (sees s)) as Hids.
  { intros i Hi (l&->&[Hn Hl]%list_elem_of_filter)%list_elem_of_fmap. by eapply own_index_not_foreign. }
  apply agree_weaken.
  - intros l. by apply foreign_other.
  - intros a Ha%bool_decide_eq_true. rewrite bool_decide_false; [done|]. by apply Hids.
  - intros x. unfold bystander_route, lasting_off. rewrite !andb_true_iff, orb_true_iff.
    intros [[? ?] Hi%bool_decide_eq_true]. split_and!; [done..|by apply negb_true_iff, Z.eqb_neq, (foreign_nonzero s)|right].
    rewrite bool_decide_false; [done|]. by apply Hids.
  - intros x Hx. apply negb_true_iff, not_true_is_false. intros Hm%mark_rule_own. by rewrite (foreign_not_own ts t) in Hm.
Qed.

Lemma own_on_foreign t link s r : t ∈ ts → link ∈ v_links (sees s) → l_Name link = t_Name t →
  bystander_route (foreign_indices ts (sees s)) r = true → own_on link r = false.
Proof using Type.
  intros Ht Hin Hn Hr. apply not_true_is_false. unfold own_on. rewrite !andb_true_iff, Z.eqb_eq. intros [[Hv Hi] Ho]. revert Hr.
  unfold bystander_route. rewrite Hi, (bool_decide_false (_ ∈ _)); [by rewrite !andb_false_r|].
  by eapply own_index_not_foreign.
Qed.
Lemma reconcilePlumbing_foreign t link s r s' : t ∈ ts → plumbable t → link ∈ v_links (sees s) → l_Name link = t_Name t →
  reconcilePlumbing link t s = (r, s') → foreign_kept ts (sees s) (sees s').
Proof using Type.
  intros Ht Hp Hin Hn [E _]%reconcilePlumbing_effect; [|done]. revert E. apply agree_weaken; [done..| |].
  - intros x Hx. apply negb_true_iff. by eapply own_on_foreign.
  - intros x Hx. by rewrite (foreign_not_own ts).
Qed.
Lemma repair_tunnel_foreign t s r s' : t ∈ ts → plumbable t → repair_tunnel t s = (r, s') → foreign_kept ts (sees s) (sees s').
Proof using Type.
  intros Ht Hp [(e&E&->)|(o&s1&E1&E)]%M_bind_inv; [eapply keeps_run; [exact E|keep]|].
  apply lookupLink_Ok in E1 as [Hs Ho]. eapply frame_trans; [by apply frame_same|]. destruct o as [link|].
  - destruct Ho. by eapply reconcilePlumbing_foreign.
  - by eapply tunnelUp_foreign.
Qed.
Lemma refresh_tunnel_foreign t s r s' : t ∈ ts → plumbable t → refresh_tunnel t s = (r, s') → foreign_kept ts (sees s) (sees s').
Proof using Type.
  intros Ht Hp [(e&E&->)|(o&s1&E1&E)]%M_bind_inv; [eapply keeps_run; [exact E|keep]|].
  apply lookupLink_Ok in E1 as [Hs Ho]. eapply frame_trans; [by apply frame_same|].
  destruct o as [link|]; [|injection E as <- <-; by apply frame_same]. destruct Ho as [Hin Hn].
  apply M_bind_inv in E as [(e&[-> _]%of_option_inv&->)|(mode&s2&[-> _]%of_option_inv&E)]; [by apply frame_same|].
  by eapply reconcilePlumbing_foreign.
Qed.

Lemma deleteOwnedRule_foreign t s r s' : t ∈ ts → deleteOwnedRule t s = (r, s') → foreign_kept ts (sees s) (sees s').
Proof using Type.
  intros Ht [E _]%deleteOwnedRule_spec. revert E. apply agree_weaken; [done..|]. intros x Hx.
  apply negb_true_iff, not_true_is_false. intros Hm%mark_rule_own. by rewrite (foreign_not_own ts t) in Hm.
Qed.
(** What is done to the tunnel's link once it is known to be the daemon's. *)
Lemma with_owned_link_inv t f s r s' : with_owned_link t f s = (r, s') →
  same (sees s) (sees s') ∨ ∃ link s1, same (sees s) (sees s1) ∧ link ∈ v_links (sees s1) ∧ l_Name link = t_Name t ∧
    is_Some (ownedLinkMode link t) ∧ f link s1 = (r, s').
Proof using Type.
  intros [(e&E&->)|(o&s1&E1&E)]%M_bind_inv; [left; eapply keeps_run; [exact E|keep]|].
  apply lookupLink_Ok in E1 as [Hs Ho]. destruct o as [link|]; [|injection E as <- <-; by left].
  apply M_bind_inv in E as [(e&[-> _]%of_option_inv&->)|(mode&s2&[-> Hm]%of_option_inv&E)]; [by left|].
  right. exists link, s1. destruct Ho. split_and!; [done..|by exists mode; apply Hm|done].
Qed.
(** The address that [deleteExactOwnedAddress] takes off the link is an IPv4 one. *)
Lemma delete_listed_address t link R `{!Frame R} s r s' : (∀ d, Is4 (Unmap (n_ip d)) = true → keeps_call R (AddrDel link d)) →
  (desired ← of_option (t_Name t) "parse address for exact cleanup" (netlink_ParseAddr (t_Address t));
   addresses ← lift (t_Name t) "list addresses for exact cleanup" (AddrList link false);
   if containsAddress addresses desired
   then lift_noent (t_Name t) "delete exact owned address" (AddrDel link desired) else mret ()) s = (r, s') →
  R (sees s) (sees s').
Proof using Type.
  intros Hk [(e&[-> _]%of_option_inv&->)|(d&s1&[-> _]%of_option_inv&E)]%M_bind_inv; [by apply frame_same|].
  apply M_bind_inv in E as [(e&E&->)|(l&s2&E1&E)]; [eapply keeps_run; [exact E|keep]|].
  eapply frame_trans; [eapply keeps_run; [exact E1|keep]|]. eapply keeps_run; [exact E|].
  apply keeps_listed; [done|by eapply listed_v4|apply Hk].
Qed.
Lemma deleteExactOwnedAddress_foreign t s r s' : t ∈ ts → deleteExactOwnedAddress t s = (r, s') → foreign_kept ts (sees s) (sees s').
Proof using Type.
  intros Ht [?|(link&s1&Hs&Hin&Hn&_&E)]%with_owned_link_inv; [by apply frame_same|].
  eapply frame_trans; [by apply frame_same|]. unfold foreign_kept.
  apply (delete_listed_address t link _ s1 r s'); [|exact E]. intros d H4. apply keeps_AddrDel; [done|..].
  - intros addr Ha. apply bool_decide_false. rewrite Ha. by eapply own_index_not_foreign.
  - intros x Hx. apply not_true_is_false. unfold bystander_route. rewrite !andb_true_iff, negb_true_iff, Z.eqb_neq, !bool_decide_eq_true.
    intros [[Hk Hs0] Hi]. destruct Hx as [?|[[y ?]|[_ [Hx|Hx]]]]; [done|congruence|..]; rewrite Hx in Hi.
    + by eapply own_index_not_foreign.
    + by apply foreign_nonzero in Hi.
Qed.
Lemma deleteOwnedDefaultRoute_foreign t s r s' : t ∈ ts → deleteOwnedDefaultRoute t s = (r, s') → foreign_kept ts (sees s) (sees s').
Proof using Type.
  intros Ht [?|(link&s1&Hs&Hin&Hn&_&E)]%with_owned_link_inv; [by apply frame_same|].
  eapply frame_trans; [by apply frame_same|].
  apply M_bind_inv in E as [(e&E&->)|(routes&s2&[_ E1]%lift_inv&E)]; [eapply keeps_run; [exact E|keep]|].
  apply (effect_call _ _ (RouteListFiltered_law _)) in E1 as [Hs' Hp]. change (see ?s.1) with (sees s) in *.
  assert (link ∈ v_links (sees s2)) as Hin2 by (destruct Hs' as (Hl&_); by rewrite <-Hl).
  eapply frame_trans; [by apply frame_same|]. unfold foreign_kept. eapply keeps_run; [exact E|].
  apply keeps_bind; [apply _| |intros ?; keep]. apply keeps_collect; [apply _|]. intros x Hx.
  destruct (owned_route x && _) eqn:Ex; [|keep]. apply keeps_lift_noent; [apply _|]. apply keeps_RouteDel.
  apply andb_true_iff in Ex as [Ho _]. apply not_true_is_false. intros Hb.
  apply (own_on_foreign t link s2) in Hb; [|done..]. revert Hb. rewrite Hp in Hx. apply list_elem_of_filter in Hx as [Hx _]. revert Hx.
  unfold filter_matches, own_on. cbn. rewrite !andb_true_iff, Ho. intros [[[-> ->] ?] ?]. done.
Qed.
End kernel.

(** ** The chains of others *)
Definition place (table hook name comment : string) : Chain :=
  {| Table := table; Hook := hook; Name := name; Comment := OwnerComment +:+ comment; Rules := [] |}.
(** The chains reserved for the daemon, whatever they hold. *)
Definition reserved : Ruleset := {| Chains := [
  place "filter" "OUTPUT" OutputChain ":filter-output"; place "filter" "FORWARD" FilterChain ":filter-forward";
  place "nat" "POSTROUTING" NATChain ":nat-postrouting"; place "mangle" "FORWARD" MangleChain ":mangle-forward"] |}.

Definition placed (rs rs' : Ruleset) : Prop := ∀ c, c ∈ Chains rs → ∃ d, d ∈ Chains rs' ∧
  Table c = Table d ∧ Hook c = Hook d ∧ Name c = Name d ∧ Comment c = Comment d.
Section places.
Context {F : Type} `{IptablesLaws F}.
Lemma only_owned_weaken rs rs' ts ts' : placed rs rs' → only_owned rs ts ts' → only_owned rs' ts ts'.
Proof.
  intros Hp Ho key Hk.
  assert (key ∉ chain_key <$> Chains rs) as Hk'.
  { intros (c&->&Hc)%list_elem_of_fmap. destruct (Hp c Hc) as (d&Hd&Ht&_&Hn&_). apply Hk.
    unfold chain_key. rewrite Ht, Hn. by apply (list_elem_of_fmap_2 chain_key). }
  assert (∀ l, strip rs' key l = strip rs' key (strip rs key l)) as Hs.
  { intros l. unfold strip. symmetry. apply list_filter_filter_l. intros r Hr (c&Hc&Hh&->). apply Hr.
    destruct (Hp c Hc) as (d&Hd&Ht&Hh'&Hn&Hcom). exists d. split; [done|].
    unfold hook_key, own_jump in *. by rewrite <-Ht, <-Hh', <-Hn, <-Hcom. }
  specialize (Ho key Hk'). destruct (ts !! key) as [l|], (ts' !! key) as [l'|]; try done.
  cbn in *. injection Ho as Ho. rewrite Hs, Ho. by rewrite <-Hs.
Qed.
End places.
Lemma guard_placed `{UnicodeTables} cfg rs : compileEgressGuardRuleset cfg = Ok rs → placed rs reserved.
Proof.
  unfold compileEgressGuardRuleset. destruct (CompileEgressGuard _) as [ch|] eqn:Hc; [|done]. intros [= <-] c ->%list_elem_of_singleton.
  exists (place "filter" "OUTPUT" OutputChain ":filter-output"). split; [by left|].
  unfold CompileEgressGuard in Hc. destruct (mark_guards cfg); [by injection Hc as <-|].
  destruct (guard_rules _ _); [|done]. by injection Hc as <-.
Qed.
Lemma gateway_placed `{UnicodeTables} cfg rs : compileGatewayRuleset cfg = Ok rs → placed rs reserved.
Proof.
  unfold compileGatewayRuleset. intros Hc. pose proof (Compile_spec (gateway_policy cfg)) as Hs. rewrite Hc in Hs.
  destruct Hs as [_ ->]. intros c. cbn [Chains compiled]. rewrite !elem_of_cons, elem_of_nil.
  intros [->|[->|[->|[]]]]; [exists (place "filter" "FORWARD" FilterChain ":filter-forward")|
    exists (place "nat" "POSTROUTING" NATChain ":nat-postrouting")|exists (place "mangle" "FORWARD" MangleChain ":mangle-forward")];
    (split; [|by split_and!]); repeat (by left) || right; by left.
Qed.

(** ** The operations of the daemon *)
Section host.
Context {K F : Type} `{NetlinkLaws K} `{IptablesLaws F} `{WgKeys}.
Implicit Types (s : host K F).

Lemma on_kernel_inv {A} (m : M (world K) A) s r s' : on_kernel m s = (r, s') → m s.1 = (r, s'.1) ∧ s'.2 = s.2.
Proof using Type. unfold on_kernel. destruct (m s.1). by intros [= <- <-]. Qed.
Definition kernel_still s s' : Prop := same (sees s.1) (sees s'.1).
#[export] Instance kernel_still_preorder : PreOrder kernel_still.
Proof. split; [by intros s|]. intros s1 s2 s3. unfold kernel_still. by etrans. Qed.

Lemma run_still p : stays kernel_still (run p).
Proof using All. intros s r s' (?&?&_&Hs&_)%run_inv. unfold kernel_still. by rewrite Hs. Qed.
Lemma reads_still {A} (m : M (host K F) A) : reads m → stays kernel_still m.
Proof using All. intros Hm s r s' [? _]%Hm. done. Qed.
Lemma runIPTables_still args : stays kernel_still (runIPTables args).
Proof using All. apply stays_bind; [apply _|apply run_still|]. intros [ok out]. stay. Qed.
Lemma runRestore_still input : stays kernel_still (runRestore input).
Proof using All. apply stays_bind; [apply _|apply run_still|]. intros [ok out]. stay. Qed.
Lemma repeat_delete_still chain n : stays kernel_still (repeat_delete chain n).
Proof using All.
  induction n as [|n IH]; cbn [repeat_delete]; [apply stays_ret, _|]. apply stays_bind; [apply _|apply runIPTables_still|done].
Qed.
Lemma installOwnedChains_still rs l : stays kernel_still (installOwnedChains rs l).
Proof using All.
  apply stays_bind; [apply _|apply runRestore_still|]. intros _. apply stays_bind; [apply _| |intros ?; apply stays_join, _].
  apply stays_collect; [apply _|]. intros i _. unfold install_jump. destruct (ci_OwnedJumps i); [apply runIPTables_still|apply repeat_delete_still].
Qed.
Lemma removeOwnedChains_still l : stays kernel_still (removeOwnedChains l).
Proof using All.
  apply stays_bind; [apply _|apply stays_collect; [apply _|intros i _; apply repeat_delete_still]|]. intros [|e es]; [|apply stays_join, _].
  cbv zeta. case_bool_decide; [apply stays_ret, _|apply runRestore_still].
Qed.
Lemma guarded_still (x : result fw_error Ruleset) (f : Ruleset → list chainInspection → M (host K F) unit) :
  (∀ rs l, stays kernel_still (f rs l)) →
  stays kernel_still (rs ← compiled_or x; l ← inspectFirewallOwnership rs; f rs l).
Proof using All.
  intros Hf. apply stays_bind; [apply _|apply reads_still, reads_compiled_or|]. intros rs.
  apply stays_bind; [apply _|apply reads_still, reads_inspect|]. intros l. apply Hf.
Qed.
Lemma gatewayUp_still cfg : stays kernel_still (gatewayUp cfg).
Proof using All.
  unfold gatewayUp. destruct (negb _); [apply stays_ret, _|]. apply (guarded_still _ (λ rs l, _ ← on_kernel _; installOwnedChains rs l)).
  intros rs l. apply stays_bind; [apply _| |intros _; apply installOwnedChains_still].
  apply reads_still, reads_on_kernel, keeps_requireSysctl, _.
Qed.
Lemma gatewayDown_still cfg : stays kernel_still (gatewayDown cfg).
Proof using All. apply (guarded_still _ (λ _, removeOwnedChains)). intros _. apply removeOwnedChains_still. Qed.
Lemma egressGuardUp_still cfg : stays kernel_still (egressGuardUp cfg).
Proof using All. apply (guarded_still _ installOwnedChains), installOwnedChains_still. Qed.
Lemma egressGuardDown_still cfg : stays kernel_still (egressGuardDown cfg).
Proof using All. apply (guarded_still _ (λ _, removeOwnedChains)). intros _. apply removeOwnedChains_still. Qed.

(** What is not the daemon's is left alone, in the kernel and in the firewall. *)
Definition spared (ts : list Tunnel) s s' : Prop :=
  foreign_kept ts (sees s.1) (sees s'.1) ∧ only_owned reserved (tabs s) (tabs s').
#[export] Instance spared_preorder ts : PreOrder (spared ts).
Proof.
  split.
  - intros s. split; [by apply frame_same|apply only_owned_refl].
  - intros s1 s2 s3 [??] [??]. split; [by eapply frame_trans|by eapply only_owned_trans].
Qed.

Section spared.
Context (ts : list Tunnel).

Lemma spared_on_kernel {A} (m : M (world K) A) :
  (∀ w r w', m w = (r, w') → foreign_kept ts (sees w) (sees w')) → stays (spared ts) (on_kernel m).
Proof using All.
  intros Hm s r s' [E Hs]%on_kernel_inv. split; [by eapply Hm|]. unfold tabs. rewrite Hs. apply only_owned_refl.
Qed.
Lemma reads_spared {A} (m : M (host K F) A) : reads m → stays (spared ts) m.
Proof using All. intros Hm s r s' [? Ht]%Hm. split; [by apply frame_same|]. rewrite Ht. apply only_owned_refl. Qed.
Lemma spared_firewall (m : M (host K F) unit) : stays kernel_still m →
  (∀ s r s', m s = (r, s') → only_owned reserved (tabs s) (tabs s')) → stays (spared ts) m.
Proof using All. intros Hk Ho s r s' E. split; [by eapply frame_same, Hk|by eapply Ho]. Qed.
Lemma firewall_op_reserved cfg (up : bool) (m : M (host K F) unit) (x : result fw_error Ruleset) :
  (∀ rs, x = Ok rs → firewall_op cfg rs up m ∧ placed rs reserved) → (∀ e, x = Err e → reads m) →
  ∀ s r s', m s = (r, s') → only_owned reserved (tabs s) (tabs s').
Proof using All.
  intros Hop Herr s r s' E. destruct x as [rs|e].
  - destruct (Hop rs eq_refl) as [Hfw Hpl]. destruct (firewall_op_spec _ _ _ _ _ _ _ Hfw E) as (Ho&_).
    by eapply only_owned_weaken.
  - apply (Herr e eq_refl) in E as [_ ->]. apply only_owned_refl.
Qed.

Lemma gatewayUp_spared cfg : stays (spared ts) (gatewayUp cfg).
Proof using All.
  apply spared_firewall; [apply gatewayUp_still|]. destruct (gw_Enabled (c_Gateway cfg)) eqn:Hen.
  - apply (firewall_op_reserved cfg true _ (compileGatewayRuleset cfg)).
    + intros rs Hc. split; [by constructor|by eapply gateway_placed].
    + intros e Hc. unfold gatewayUp. rewrite Hen, Hc. apply reads_refuse.
  - unfold gatewayUp. rewrite Hen. intros s r s' [= <- <-]. apply only_owned_refl.
Qed.
Lemma gatewayDown_spared cfg : stays (spared ts) (gatewayDown cfg).
Proof using All.
  apply spared_firewall; [apply gatewayDown_still|]. apply (firewall_op_reserved cfg false _ (compileGatewayRuleset cfg)).
  - intros rs Hc. split; [by constructor|by eapply gateway_placed].
  - intros e Hc. unfold gatewayDown. rewrite Hc. apply reads_refuse.
Qed.
Lemma egressGuardUp_spared cfg : stays (spared ts) (egressGuardUp cfg).
Proof using All.
  apply spared_firewall; [apply egressGuardUp_still|]. apply (firewall_op_reserved cfg true _ (compileEgressGuardRuleset cfg)).
  - intros rs Hc. split; [by constructor|by eapply guard_placed].
  - intros e Hc. unfold egressGuardUp. rewrite Hc. apply reads_refuse.
Qed.
Lemma egressGuardDown_spared cfg : stays (spared ts) (egressGuardDown cfg).
Proof using All.
  apply spared_firewall; [apply egressGuardDown_still|]. apply (firewall_op_reserved cfg false _ (compileEgressGuardRuleset cfg)).
  - intros rs Hc. split; [by constructor|by eapply guard_placed].
  - intros e Hc. unfold egressGuardDown. rewrite Hc. apply reads_refuse.
Qed.
Lemma preflight_spared x : stays (spared ts) (preflight x).
Proof using All. unfold preflight. apply reads_spared, reads_bind; [apply reads_compiled_or|intros _; apply reads_ret]. Qed.
Lemma reservations_spared l : stays (spared ts) (on_kernel (validateKernelReservations l)).
Proof using All. apply reads_spared, reads_on_kernel, keeps_validateKernelReservations, _. Qed.
Lemma pendingChanges_spared cfg : stays (spared ts) (pendingChanges cfg).
Proof using All. apply reads_spared, reads_pendingChanges. Qed.

Lemma tunnelDown_spared t : t ∈ ts → stays (spared ts) (on_kernel (tunnelDown t)).
Proof using All. intros Ht. apply spared_on_kernel. intros w r w'. by apply tunnelDown_foreign. Qed.
Lemma deleteOwnedRule_spared t : t ∈ ts → stays (spared ts) (on_kernel (deleteOwnedRule t)).
Proof using All. intros Ht. apply spared_on_kernel. intros w r w'. by apply deleteOwnedRule_foreign. Qed.
Lemma deleteExactOwnedAddress_spared t : t ∈ ts → stays (spared ts) (on_kernel (deleteExactOwnedAddress t)).
Proof using All. intros Ht. apply spared_on_kernel. intros w r w'. by apply deleteExactOwnedAddress_foreign. Qed.
Lemma deleteOwnedDefaultRoute_spared t : t ∈ ts → stays (spared ts) (on_kernel (deleteOwnedDefaultRoute t)).
Proof using All. intros Ht. apply spared_on_kernel. intros w r w'. by apply deleteOwnedDefaultRoute_foreign. Qed.

Context (Hts : Forall plumbable ts).
Lemma plumbable_in t : t ∈ ts → plumbable t.
Proof using All. rewrite Forall_forall in Hts. apply Hts. Qed.
Lemma tunnelUp_spared t : t ∈ ts → stays (spared ts) (on_kernel (tunnelUp t)).
Proof using All. intros Ht. apply spared_on_kernel. intros w r w'. apply tunnelUp_foreign; [done|by apply plumbable_in]. Qed.
Lemma repair_tunnel_spared t : t ∈ ts → stays (spared ts) (on_kernel (repair_tunnel t)).
Proof using All. intros Ht. apply spared_on_kernel. intros w r w'. apply repair_tunnel_foreign; [done|by apply plumbable_in]. Qed.
Lemma refresh_tunnel_spared t : t ∈ ts → stays (spared ts) (on_kernel (refresh_tunnel t)).
Proof using All. intros Ht. apply spared_on_kernel. intros w r w'. apply refresh_tunnel_foreign; [done|by apply plumbable_in]. Qed.

Hint Resolve gatewayUp_spared gatewayDown_spared egressGuardUp_spared egressGuardDown_spared preflight_spared
  reservations_spared pendingChanges_spared tunnelDown_spared deleteOwnedRule_spared deleteExactOwnedAddress_spared
  deleteOwnedDefaultRoute_spared tunnelUp_spared repair_tunnel_spared refresh_tunnel_spared : stays.

Lemma teardown_spared cfg : c_Tunnels cfg ⊆ ts → stays (spared ts) (teardown cfg).
Proof using All. intros Hsub. unfold teardown. stay. Qed.
Lemma or_teardown_spared cfg m : c_Tunnels cfg ⊆ ts → stays (spared ts) m → stays (spared ts) (or_teardown cfg m).
Proof using All. intros Hsub Hm. unfold or_teardown. pose proof (teardown_spared cfg Hsub). stay. Qed.
Lemma preflights_spared cfg : stays (spared ts) (preflights cfg).
Proof using All. unfold preflights. stay. Qed.
Lemma bring_up_spared cfg : c_Tunnels cfg ⊆ ts → stays (spared ts) (bring_up cfg).
Proof using All. intros Hsub. unfold bring_up. stay; apply or_teardown_spared; eauto with stays. Qed.

Lemma step_errors_spared b m : stays (spared ts) m → stays (spared ts) (step_errors b m).
Proof using All. intros Hm. unfold step_errors. stay. Qed.
Hint Resolve step_errors_spared : stays.
Lemma tunnels_by_name_elem cfg name t : tunnels_by_name cfg !! name = Some t → t ∈ c_Tunnels cfg ∧ t_Name t = name.
Proof using Type. by intros [?|?]%foldl_insert_lookup. Qed.

Lemma rollback_tunnel_spared old t : c_Tunnels old ⊆ ts → t ∈ ts → stays (spared ts) (rollback_tunnel old t).
Proof using All. intros Hold Ht. unfold rollback_tunnel. stay. Qed.
Lemma gather_spared {A} (f : A → M (host K F) (list wg_error)) l :
  (∀ a, a ∈ l → stays (spared ts) (f a)) → stays (spared ts) (gather f l).
Proof using All.
  induction l as [|a l IH]; intros Hf; cbn [gather]; [stay|].
  apply stays_bind; [apply _|apply Hf; by left|]. intros e. apply stays_bind; [apply _| |intros; stay].
  apply IH. intros x ?. apply Hf. by right.
Qed.
Lemma rollbackKernelApply_spared old next e : c_Tunnels old ⊆ ts → c_Tunnels next ⊆ ts →
  stays (spared ts) (rollbackKernelApply old next e).
Proof using All.
  intros Hold Hnext. unfold rollbackKernelApply. stay; try (apply step_errors_spared; stay).
  apply gather_spared. intros t Ht. apply rollback_tunnel_spared; auto.
Qed.
Lemma apply_tunnel_spared old t : c_Tunnels old ⊆ ts → t ∈ ts → stays (spared ts) (apply_tunnel old t).
Proof using All.
  intros Hold Ht. unfold apply_tunnel, retire, when. destruct (tunnels_by_name old !! _) as [prev|] eqn:Hprev; [|stay].
  apply tunnels_by_name_elem in Hprev as [Hprev%Hold _]. stay.
Qed.
Lemma applyReload_spared old next : c_Tunnels old ⊆ ts → c_Tunnels next ⊆ ts → stays (spared ts) (applyReload old next).
Proof using All.
  intros Hold Hnext. unfold applyReload, apply_config, apply_gateway. stay.
  - apply apply_tunnel_spared; auto.
  - apply tunnelDown_spared, Hold. unfold removed_tunnels in *. by eapply list_elem_of_filter.
  - by apply rollbackKernelApply_spared.
Qed.
Context `{ErrorText}.
Lemma record_spared io k f errs file : stays (spared ts) (record io k f errs file).
Proof using All. intros s r s' [= <- <-]. reflexivity. Qed.
Lemma measureAndRecordDrift_spared io cfg errs file : stays (spared ts) (measureAndRecordDrift io cfg errs file).
Proof using All. apply reads_spared, reads_measureAndRecordDrift. Qed.
Hint Resolve record_spared measureAndRecordDrift_spared preflights_spared bring_up_spared teardown_spared : stays.
Lemma runUp_spared io cfg failed file : c_Tunnels cfg ⊆ ts → stays (spared ts) (runUp io cfg failed file).
Proof using All. intros Hsub. unfold runUp. stay. Qed.
Lemma runDown_spared io cfg file : c_Tunnels cfg ⊆ ts → stays (spared ts) (runDown io cfg file).
Proof using All. intros Hsub. unfold runDown. stay. Qed.
Lemma applyRoutes_spared io cfg file : c_Tunnels cfg ⊆ ts → stays (spared ts) (applyRoutes io cfg file).
Proof using All. intros Hsub. unfold applyRoutes. stay. Qed.
Lemma reapplyOwnedState_spared cfg : c_Tunnels cfg ⊆ ts → stays (spared ts) (reapplyOwnedState cfg).
Proof using All. intros Hsub. unfold reapplyOwnedState. stay. Qed.
Lemma repair_spared io cfg w file : c_Tunnels cfg ⊆ ts → stays (spared ts) (repair io cfg w file).
Proof using All. intros Hsub. unfold repair. pose proof (reapplyOwnedState_spared cfg Hsub). stay. destruct a; stay. Qed.
End spared.

Context `{ErrorText}.
(** What the program does to the host, with the configurations it does it for: the
    start with its clean-up, a reload with its roll-back, the refresh of the routes,
    the watchdog's repair, the shutdown and the command that takes everything down. *)
Inductive host_op : list Config → (host K F → host K F) → Prop :=
| op_runUp io cfg failed file : host_op [cfg] (λ s, (runUp io cfg failed file s).2)
| op_applyReload old next : host_op [old; next] (λ s, (applyReload old next s).2)
| op_applyRoutes io cfg file : host_op [cfg] (λ s, (applyRoutes io cfg file s).2)
| op_repair io cfg w file : host_op [cfg] (λ s, (repair io cfg w file s).2)
| op_teardown cfg : host_op [cfg] (λ s, (teardown cfg s).2)
| op_runDown io cfg file : host_op [cfg] (λ s, (runDown io cfg file s).2).

(** C3: whatever the daemon does to the host, and whichever call fails on the way,
    the links that have no tunnel's name stay as they were with their addresses; the
    routes on them stay unless the kernel made them or they prefer a source address;
    so do the rules that are no tunnel's, and every chain and rule of the firewall
    outside the reserved chains and the jumps to them.  Of the addresses and routes of
    others on a tunnel's own link it says nothing: taking the tunnel's address off an
    adopted link may take them along. *)
Theorem host_op_spares cfgs f s : host_op cfgs f → Forall plumbable (cfgs ≫= c_Tunnels) → spared (cfgs ≫= c_Tunnels) s (f s).
Proof using All.
  assert (∀ cfg cfgs, cfg ∈ cfgs → c_Tunnels cfg ⊆ cfgs ≫= c_Tunnels) as Hsub.
  { intros cfg l Hin t Ht. apply list_elem_of_bind. eauto. }
  assert (∀ ts {A} (m : M (host K F) A), stays (spared ts) m → spared ts s (m s).2) as Hrun.
  { intros ts A m Hm. destruct (m s) as [r s'] eqn:E. by eapply Hm. }
  intros Hop Hts. destruct Hop; apply Hrun.
  - apply runUp_spared, Hsub; [done|by left].
  - apply applyReload_spared; [done|apply Hsub; by left|apply Hsub; right; by left].
  - apply applyRoutes_spared, Hsub; [done|by left].
  - apply repair_spared, Hsub; [done|by left].
  - apply teardown_spared, Hsub; [done|by left].
  - apply runDown_spared, Hsub; [done|by left].
Qed.
End host.
