(* ===== verification/DaemonUp.v ===== *)
(** * main.go: what start-up and reload achieve

    When the start or a reload succeeds, the tunnels of the configuration carry
    traffic the way it says, and the firewall has its chains; a roll-back without a
    complaint restores the tunnels of the old one. *)
From S2P Require Import Prelude Netip Firewall Config Startup KernelPlan Netlink Wg WgKernel WgFrame WgSpec WgTunnel.
From S2P Require Import Gateway GatewaySpec Plan PlanSpec Updater Status StatusSpec Daemon DaemonFrame.

(** ** Routes of the daemon have no preferred source *)
Definition nosrc (v : view) : Prop := ∀ r, r ∈ v_routes v → owned_route r = true → r_Src r = None.
Definition nosrc_kept (v w : view) : Prop := nosrc v → nosrc w.
#[export] Instance nosrc_kept_frame : Frame nosrc_kept.
Proof.
  split; [|by intros u v w H1 H2 ?; apply H2, H1]. intros v w (_&_&Hr&_) Hv r Hin. apply Hv. by rewrite Hr.
Qed.
(** No rule appears. *)
Definition rules_shrink (v w : view) : Prop := v_rules w ⊆ v_rules v.
#[export] Instance rules_shrink_frame : Frame rules_shrink.
Proof.
  split; [|intros u v w H1 H2 r Hr; by apply H1, H2]. intros v w (_&_&_&Hu) r Hin. by rewrite Hu.
Qed.

Section calls.
Context {K : Type} `{NetlinkLaws K} `{WgKeys}.

Lemma nosrc_call {A} (c : call K A) P : effect see c P →
  (∀ v a w, P v a w → ∀ r, r ∈ v_routes w → r ∈ v_routes v ∨ kernel_route r ∨ r_Src r = None) → keeps_call nosrc_kept c.
Proof.
  intros He HP. eapply keeps_effect; [apply _|done|]. intros v a w Hvw Hv r [Hr|[Hk|?]]%(HP _ _ _ Hvw); [by apply Hv| |done].
  unfold owned_route. by rewrite Hk.
Qed.
Lemma nosrc_LinkAdd name mtu : keeps_call nosrc_kept (LinkAdd name mtu).
Proof. eapply nosrc_call; [apply LinkAdd_law|]. intros v _ w (l&_&_&_&_&_&_&_&_&_&Hr&_) r. rewrite Hr. by left. Qed.
Lemma nosrc_LinkDel name : keeps_call nosrc_kept (LinkDel name).
Proof.
  eapply nosrc_call; [apply LinkDel_law|]. intros v _ w (l&lost&_&_&_&_&Hr&_) r Hin. left.
  assert (r ∈ lost ++ v_routes w) as Hin' by (rewrite elem_of_app; by right). rewrite <-Hr in Hin'. by apply list_elem_of_filter in Hin' as [_ ?].
Qed.
Lemma nosrc_LinkSetAlias link alias : keeps_call nosrc_kept (LinkSetAlias link alias).
Proof. eapply nosrc_call; [apply LinkSetAlias_law|]. intros v _ w (_&_&Hr&_) r. rewrite Hr. by left. Qed.
Lemma nosrc_LinkSetMTU link mtu : keeps_call nosrc_kept (LinkSetMTU link mtu).
Proof.
  eapply nosrc_call; [apply LinkSetMTU_law|]. intros v _ w (addrs&routes&_&_&_&_&Hr&_) r Hin. left. rewrite Hr, elem_of_app. by right.
Qed.
Lemma nosrc_LinkSetUp link : keeps_call nosrc_kept (LinkSetUp link).
Proof.
  eapply nosrc_call; [apply LinkSetUp_law|]. intros v _ w (gen&_&_&_&Hr&Hg) r. rewrite Hr, elem_of_app, Forall_forall in *.
  intros [[? _]%Hg|?]; auto.
Qed.
Lemma nosrc_AddrAdd link net : keeps_call nosrc_kept (AddrAdd link net).
Proof.
  eapply nosrc_call; [apply AddrAdd_law|]. intros v _ w (new&net'&gen&_&_&_&_&_&_&_&Hr&Hg) r. rewrite Hr, elem_of_app, Forall_forall in *.
  intros [[? _]%Hg|?]; auto.
Qed.
Lemma nosrc_AddrDel link net : keeps_call nosrc_kept (AddrDel link net).
Proof.
  eapply nosrc_call; [apply AddrDel_law|]. intros v _ w (gone&lost&gen&_&_&_&_&_&Hr&_&Hgen) r Hin.
  assert (r ∈ gen ++ v_routes v) as [Hg|?]%elem_of_app; [by rewrite Hr, elem_of_app; right| |by left].
  rewrite Forall_forall in Hgen. apply Hgen in Hg as [[? _]|(_&_&?)]; auto.
Qed.
Lemma nosrc_RouteDel r : keeps_call nosrc_kept (RouteDel r).
Proof. eapply nosrc_call; [apply RouteDel_law|]. intros v _ w (Hr&_) x Hin. left. rewrite Hr. by right. Qed.
Lemma nosrc_RuleAdd r : keeps_call nosrc_kept (RuleAdd r).
Proof. eapply nosrc_call; [apply RuleAdd_law|]. intros v _ w (r'&_&_&_&_&Hr) x. rewrite Hr. by left. Qed.
Lemma nosrc_RuleDel r : keeps_call nosrc_kept (RuleDel r).
Proof. eapply nosrc_call; [apply RuleDel_law|]. intros v _ w (_&_&_&Hr) x. rewrite Hr. by left. Qed.
Lemma nosrc_RouteAdd r : r_Src r = None → keeps_call nosrc_kept (RouteAdd r).
Proof.
  intros Hs. eapply keeps_effect; [apply _|apply RouteAdd_law|]. intros v _ w (r'&(_&Hs'&_)&Hr&_) Hv x. rewrite Hr.
  intros [->|?]%elem_of_cons; [congruence|by apply Hv].
Qed.

Lemma shrink_LinkDel name : keeps_call rules_shrink (LinkDel name).
Proof. eapply keeps_effect; [apply _|apply LinkDel_law|]. intros v _ w (l&lost&_&_&Hu&_) r. by rewrite Hu. Qed.
Lemma shrink_LinkSetAlias link alias : keeps_call rules_shrink (LinkSetAlias link alias).
Proof. eapply keeps_effect; [apply _|apply LinkSetAlias_law|]. intros v _ w (_&_&_&Hu) r. by rewrite Hu. Qed.
Lemma shrink_AddrDel link net : keeps_call rules_shrink (AddrDel link net).
Proof. eapply keeps_effect; [apply _|apply AddrDel_law|]. intros v _ w (g&l&n&_&_&_&_&Hu&_) r. by rewrite Hu. Qed.
Lemma shrink_RouteDel x : keeps_call rules_shrink (RouteDel x).
Proof. eapply keeps_effect; [apply _|apply RouteDel_law|]. intros v _ w (_&_&_&Hu) r. by rewrite Hu. Qed.
Lemma shrink_RuleDel x : keeps_call rules_shrink (RuleDel x).
Proof. eapply keeps_effect; [apply _|apply RuleDel_law|]. intros v _ w (Hu&_) r Hin. rewrite Hu. by right. Qed.
Hint Resolve nosrc_LinkAdd nosrc_LinkDel nosrc_LinkSetAlias nosrc_LinkSetMTU nosrc_LinkSetUp nosrc_AddrAdd nosrc_AddrDel
  nosrc_RouteDel nosrc_RuleAdd nosrc_RuleDel shrink_LinkDel shrink_LinkSetAlias shrink_AddrDel shrink_RouteDel shrink_RuleDel : keeps.

(** ** The operations *)
Lemma nosrc_reconcileRule t : keeps nosrc_kept (reconcileRule t).
Proof.
  unfold reconcileRule. apply keeps_bind; [apply _|keep|]. intros rules. apply keeps_bind; [apply _| |intros exact; keep].
  generalize ([] : list Rule). induction rules as [|x rules IH]; intros exact; cbn [rule_loop]; [keep|].
  apply keeps_bind; [apply _|unfold rule_step; keep|done].
Qed.
Lemma nosrc_reconcileRouteSet name link table desired relevant : (∀ d, d ∈ desired → r_Src d = None) →
  keeps nosrc_kept (reconcileRouteSet name link table desired relevant).
Proof.
  intros Hd. unfold reconcileRouteSet. keep. unfold run_route_op. keep. apply keeps_lift; [apply _|]. apply nosrc_RouteAdd.
  destruct (foldl _ _ _ !! _) as [d|] eqn:E; [|done]. by apply foldl_insert_lookup in E as [?|[?%Hd _]].
Qed.
Lemma nosrc_reconcilePlumbing link t : keeps nosrc_kept (reconcilePlumbing link t).
Proof.
  unfold reconcilePlumbing, reconcileDefaultRoute, reconcileRoutes.
  apply keeps_bind; [apply _|apply nosrc_reconcileRouteSet; by intros d ->%list_elem_of_singleton|]. intros _.
  apply keeps_bind; [apply _|apply nosrc_reconcileRule|]. intros _.
  intros s r s' [(e&[= _ ->]&->)|(desired&s1&[= Hd <-]&E)]%M_bind_inv; [apply keeps_refl, _|].
  eapply keeps_run; [exact E|]. apply nosrc_reconcileRouteSet. intros d Hin.
  by destruct (desired_routes_in _ _ _ _ _ Hd Hin) as (c&n&_&_&->).
Qed.
Hint Resolve nosrc_reconcilePlumbing : keeps.
Lemma nosrc_tunnelUp t : keeps nosrc_kept (tunnelUp t).
Proof. unfold tunnelUp, ensureOwnedLink, create_link, undo_create, configure_link, reconcileAddress. keep. Qed.
Lemma nosrc_repair_tunnel t : keeps nosrc_kept (repair_tunnel t).
Proof. pose proof (nosrc_tunnelUp t). unfold repair_tunnel. keep. Qed.
Lemma nosrc_deleteOwnedRule t : keeps nosrc_kept (deleteOwnedRule t).
Proof. unfold deleteOwnedRule. keep. Qed.
Lemma nosrc_deleteExactOwnedAddress t : keeps nosrc_kept (deleteExactOwnedAddress t).
Proof. unfold deleteExactOwnedAddress, with_owned_link. keep. Qed.
Lemma nosrc_deleteOwnedDefaultRoute t : keeps nosrc_kept (deleteOwnedDefaultRoute t).
Proof. unfold deleteOwnedDefaultRoute, with_owned_link. keep. Qed.
Lemma nosrc_tunnelDown t : keeps nosrc_kept (tunnelDown t).
Proof.
  unfold tunnelDown, deleteOwnedRule, owned_down, deleteOwnedRoutes, adopted_down, created_down, listAllRoutesOnLink. keep.
  all: apply keeps_attempt; [apply _|]; keep.
Qed.
Lemma shrink_deleteOwnedRule t : keeps rules_shrink (deleteOwnedRule t).
Proof. unfold deleteOwnedRule. keep. Qed.
Lemma shrink_tunnelDown t : keeps rules_shrink (tunnelDown t).
Proof.
  unfold tunnelDown, deleteOwnedRule, owned_down, deleteOwnedRoutes, adopted_down, created_down, listAllRoutesOnLink. keep.
  all: apply keeps_attempt; [apply _|]; keep.
Qed.
End calls.

(** ** A tunnel in service *)
Section serves.
Context {K : Type} `{NetlinkLaws K} `{WgKeys}.
Implicit Types (s : world K) (t prev : Tunnel).

(** The link of index [i] has an IPv4 address. *)
Definition has_v4 (i : Z) (v : view) : Prop := Exists (λ a, la_Index a = i ∧ la_V6 a = false) (v_addrs v).
(** The link of the tunnel is the daemon's, up and of its MTU, and the tunnel's rule is
    in place; with [addr] it also has the tunnel's address and its routes, and without
    it has the routes as long as it has any IPv4 address. *)
Definition serves (addr : bool) t (v : view) : Prop := ∃ link,
  link ∈ v_links v ∧ l_Name link = t_Name t ∧ is_Some (ownedLinkMode link t) ∧
  l_Up link = true ∧ l_MTU link = t_MTU t ∧ ruled t v ∧ (addr = true → addressed t (l_Index link) v) ∧
  (addr = true ∨ has_v4 (l_Index link) v → plumbed link t v).
Lemma serves_up t v : serves true t v ↔ tunnel_is_up t v.
Proof.
  unfold serves, tunnel_is_up. split.
  - intros (link&?&?&?&?&?&_&?&?). exists link. auto 10.
  - intros (link&?&?&?&?&?&?&Hp). exists link. split_and!; [done..|apply Hp|done|done].
Qed.
Lemma serves_weaken b t v : serves true t v → serves b t v.
Proof. intros (link&?&?&?&?&?&?&?&?). exists link. split_and!; auto. Qed.

Lemma own_in_own_on link table relevant r : own_in link table relevant r = true → own_on link r = true.
Proof.
  unfold own_in, in_set, own_on, filter_matches. cbn. rewrite !andb_true_iff. naive_solver.
Qed.
Lemma routed_kept link table desired relevant v w : pick (own_on link) (v_routes v) ≡ₚ pick (own_on link) (v_routes w) →
  routed link table desired relevant v → routed link table desired relevant w.
Proof.
  intros Hr. unfold routed. intros <-. apply fmap_Permutation. symmetry. eapply pick_weaken; [|exact Hr].
  intros x _. apply own_in_own_on.
Qed.
Lemma serves_kept b t v w :
  (∀ l, l ∈ v_links v → l_Name l = t_Name t → l ∈ v_links w ∧
     (b = true → ∀ a, a ∈ v_addrs v → la_Index a = l_Index l → a ∈ v_addrs w) ∧
     (∀ a, a ∈ v_addrs w → la_Index a = l_Index l → a ∈ v_addrs v) ∧
     (b = true ∨ has_v4 (l_Index l) w → pick (own_on l) (v_routes v) ≡ₚ pick (own_on l) (v_routes w))) →
  (ruled t v → ruled t w) → serves b t v → serves b t w.
Proof.
  intros Hl Hrule (link&Hin&Hn&Hm&Hup&Hmtu&Hru&Ha&Hp). destruct (Hl link Hin Hn) as (Hin'&Ha'&Hback&Hr).
  exists link. split_and!; [done..|by apply Hrule| |].
  - intros ->. destruct (Ha eq_refl) as (d&a&Hd&Hain&Hai&Hh). exists d, a. split_and!; [done|by apply Ha'|done..].
  - intros Hb. specialize (Hr Hb). destruct Hp as (_&Hdef&desired&Hdes&Hmain).
    { destruct Hb as [->|(a&?&?&?)%Exists_exists]; [by left|right]. apply Exists_exists. exists a. auto. }
    split_and!; [by apply Hrule|by eapply routed_kept|]. exists desired. split; [done|]. by eapply routed_kept.
Qed.
Lemma ruled_kept t (p : Rule → bool) v w : pick p (v_rules v) ≡ₚ pick p (v_rules w) →
  (∀ x, at_priority t x = true → p x = true) → ruled t v → ruled t w.
Proof.
  intros Hp Hpx (r&Hr&Hone). exists r. split; [done|]. rewrite <-Hone. symmetry. eapply pick_weaken; [|exact Hp]. intros x _. apply Hpx.
Qed.
Lemma serves_same b t v w : same v w → serves b t v → serves b t w.
Proof.
  intros (Hl&Ha&Hr&Hu). apply serves_kept.
  - intros l Hin _. split_and!; [by rewrite <-Hl|intros _ a; by rewrite Ha|intros a; by rewrite Ha|by rewrite Hr].
  - apply (ruled_kept _ every); [by rewrite Hu|done].
Qed.
Lemma ruleEqual_trans (a b c : Rule) : ruleEqual a b = true → ruleEqual a c = true → ruleEqual b c = true.
Proof. unfold ruleEqual. rewrite !andb_true_iff, !Z.eqb_eq. intuition congruence. Qed.
Lemma ruled_gone t prev v w :
  pick (λ r, negb (is_mark_rule prev r)) (v_rules v) ≡ₚ pick (λ r, negb (is_mark_rule prev r)) (v_rules w) → rules_shrink v w →
  ruleEqual (markRule t) (markRule prev) = false → ruled t v → ruled t w.
Proof.
  intros Hu Hsub Hne (r&Hr&Hone). exists r. split; [done|]. rewrite <-Hone. symmetry.
  eapply pick_weaken; [|exact Hu]. intros x Hx Hprio. apply negb_true_iff, not_true_is_false. intros Hm.
  assert (x ∈ v_rules v) as Hin by (apply elem_of_app in Hx as [?|?]; [done|by apply Hsub]).
  assert (x ∈ pick (at_priority t) (v_rules v)) as Hx' by (by apply list_elem_of_filter).
  rewrite Hone, list_elem_of_singleton in Hx'. subst x.
  rewrite (ruleEqual_trans r _ _ Hr Hm) in Hne. done.
Qed.

(** *** Under what is done to others *)
Lemma serves_others b t t2 v w : apart t t2 → others t2 (other_indices t2 v) v w → serves b t v → serves b t w.
Proof.
  intros [Hname Hprio] (Hl&Ha&Hr&Hu). apply serves_kept.
  - intros l Hin Hn. assert (other_link t2 l = true) as Ho by (unfold other_link; rewrite Hn; by rewrite bool_decide_false).
    assert (l_Index l ∈ other_indices t2 v) as Hidx by (apply list_elem_of_fmap_2; by apply list_elem_of_filter).
    split_and!; [by eapply pick_elem| | |].
    + intros _ a Hain Hai. eapply pick_elem; [exact Ha| |done]. unfold spared_addr. by rewrite Hai, bool_decide_true.
    + intros a Hain Hai. eapply pick_elem; [symmetry; exact Ha| |done]. unfold spared_addr. by rewrite Hai, bool_decide_true.
    + intros _. eapply pick_weaken; [|exact Hr]. intros x _. unfold own_on, spared_route. rewrite !andb_true_iff, Z.eqb_eq.
      intros [[_ ->] _]. by rewrite bool_decide_true.
  - apply (ruled_kept _ _ _ _ Hu). intros x. unfold at_priority, own_rule. intros ->%Z.eqb_eq.
    by rewrite (proj2 (Z.eqb_neq _ _)).
Qed.
Lemma serves_tunnelUp b t t2 s r s' : apart t t2 → plumbable t2 → tunnelUp t2 s = (r, s') →
  serves b t (sees s) → serves b t (sees s').
Proof. intros Hap Hp E%tunnelUp_others; [|done]. by eapply serves_others. Qed.

(** The routes on a link are not those on a link of another name. *)
Lemma own_on_apart s l l2 : l ∈ v_links (sees s) → l2 ∈ v_links (sees s) → l_Name l ≠ l_Name l2 → l_Index l ≠ l_Index l2.
Proof. intros Hin Hin2 Hne Hi. apply Hne. f_equal. by apply (same_index s.1). Qed.
Lemma serves_plumbing b t t2 link2 s r s' : apart t t2 → plumbable t2 → link2 ∈ v_links (sees s) → l_Name link2 = t_Name t2 →
  reconcilePlumbing link2 t2 s = (r, s') → serves b t (sees s) → serves b t (sees s').
Proof.
  intros [Hname Hprio] Hp Hin2 Hn2 [(Hl&Ha&Hr&Hu) _]%reconcilePlumbing_effect; [|done]. rewrite !pick_every in Hl. rewrite !pick_every in Ha.
  apply serves_kept.
  - intros l Hin Hn. split_and!; [by rewrite <-Hl|intros _ a; by rewrite Ha|intros a; by rewrite Ha|intros _].
    eapply pick_weaken; [|exact Hr]. intros x _. unfold own_on. rewrite !andb_true_iff, Z.eqb_eq. intros [[_ Hi] _].
    rewrite (proj2 (Z.eqb_neq _ _)); [by rewrite andb_false_r|]. rewrite Hi. by apply (own_on_apart s); [..|congruence].
  - apply (ruled_kept _ _ _ _ Hu). intros x. unfold at_priority, own_rule. intros ->%Z.eqb_eq.
    by rewrite (proj2 (Z.eqb_neq _ _)).
Qed.
Lemma serves_deleteRule b t prev s r s' : ruleEqual (markRule t) (markRule prev) = false →
  deleteOwnedRule prev s = (r, s') → serves b t (sees s) → serves b t (sees s').
Proof.
  intros Hne E. pose proof (shrink_deleteOwnedRule prev s r s' E) as Hsub. apply deleteOwnedRule_spec in E as [Hg _].
  destruct Hg as (Hl&Ha&Hr&Hu). apply serves_kept; [|by apply (ruled_gone t prev)].
  rewrite !pick_every in Hl. rewrite !pick_every in Ha. rewrite !pick_every in Hr.
  intros l Hin _. split_and!; [by rewrite <-Hl|intros _ a; by rewrite Ha|intros a; by rewrite Ha|by rewrite Hr].
Qed.
Lemma nosrc_lasting v r : nosrc v → r ∈ v_routes v → owned_route r = true →
  negb (r_Protocol r =? 2)%Z && bool_decide (r_Src r = None) = true.
Proof.
  intros Hv Hin Ho. rewrite (Hv r Hin Ho), bool_decide_true by done. unfold owned_route in Ho. apply Z.eqb_eq in Ho. by rewrite Ho.
Qed.
Lemma serves_down b t t2 s r s' : t_Name t ≠ t_Name t2 → ruleEqual (markRule t) (markRule t2) = false → nosrc (sees s) →
  tunnelDown t2 s = (r, s') → serves b t (sees s) → serves b t (sees s').
Proof.
  intros Hname Hne Hsrc E. pose proof (shrink_tunnelDown t2 s r s' E) as Hsub.
  pose proof (nosrc_tunnelDown t2 s r s' E Hsrc) as Hsrc'. apply tunnelDown_others in E as (Hl&Ha&Hr&Hu).
  apply serves_kept.
  - intros l Hin Hn. assert (other_link t2 l = true) as Ho by (unfold other_link; rewrite Hn; by rewrite bool_decide_false).
    assert (l_Index l ∉ own_indices t2 (sees s)) as Hidx.
    { intros (l2&Hi&[Hn2 Hin2]%list_elem_of_filter)%list_elem_of_fmap. by apply (own_on_apart s l l2); [..|congruence|]. }
    split_and!; [by eapply pick_elem| | |].
    + intros _ a Hain Hai. eapply pick_elem; [exact Ha| |done]. cbv beta. by rewrite Hai, bool_decide_false.
    + intros a Hain Hai. eapply pick_elem; [symmetry; exact Ha| |done]. cbv beta. by rewrite Hai, bool_decide_false.
    + intros _. eapply pick_weaken; [|exact Hr]. intros x Hx. unfold own_on, lasting_off. rewrite andb_true_iff, andb_true_iff, Z.eqb_eq.
      intros [[_ Hi] Hox]. rewrite Hi, (bool_decide_false (_ ∈ _)), orb_true_r, andb_true_r by done.
      rewrite (proj2 (Z.eqb_neq (l_Index l) 0) (links_numbered _ _ Hin)), andb_true_r.
      apply elem_of_app in Hx as [Hx|Hx]; [by apply (nosrc_lasting (sees s))|by apply (nosrc_lasting (sees s'))].
  - by apply (ruled_gone t t2).
Qed.
(** What becomes of the link [link] and its routes when one of its addresses goes. *)
Definition undirected (r : Route) : bool := negb (r_Protocol r =? 2)%Z && bool_decide (r_Src r = None).
Definition spared_while_v4 (link : Link) (v w : view) : Prop := v_addrs w ⊆ v_addrs v ∧
  (has_v4 (l_Index link) w → pick undirected (v_routes v) ≡ₚ pick undirected (v_routes w)).
#[export] Instance spared_while_v4_frame link : Frame (spared_while_v4 link).
Proof.
  split.
  - intros v w (_&Ha&Hr&_). split; [intros a; by rewrite Ha|]. intros _. by rewrite Hr.
  - intros u v w [Ha Hr] [Ha' Hr']. split; [by etrans|]. intros Hw. etrans; [|by apply Hr']. apply Hr.
    apply Exists_exists in Hw as (a&?&?). apply Exists_exists. eauto.
Qed.
Lemma undirected_not r : kernel_route r ∨ is_Some (r_Src r) → undirected r = false.
Proof. unfold undirected, kernel_route. intros [->|[x ->]]; [done|]. rewrite bool_decide_false by done. apply andb_false_r. Qed.
Lemma keeps_while_v4 link net : Is4 (Unmap (n_ip net)) = true → keeps_call (spared_while_v4 link) (AddrDel link net).
Proof.
  intros H4. eapply keeps_effect; [apply _|apply AddrDel_law|]. intros v _ w (gone&lost&gen&Ha&_&_&_&_&Ho&Hlost&Hgen). split.
  { intros a Hin. rewrite Ha, elem_of_app. by right. }
  intros (a&Hin&Hi&Hv)%Exists_exists. trans (pick undirected (gen ++ v_routes v)); [symmetry|].
  - eapply pick_drops; [|done]. eapply Forall_impl; [exact Hgen|]. intros r [[? _]|[? _]]; [apply undirected_not; by left|congruence].
  - eapply pick_drops; [|exact Ho]. eapply Forall_impl; [exact Hlost|]. intros r [?|[?|(_&_&Hno)]]; [apply undirected_not; auto..|].
    by rewrite (Hno a Hin Hi) in Hv.
Qed.
Lemma keeps_elsewhere link net : Is4 (Unmap (n_ip net)) = true → keeps_call
  (agree every (other_addr (l_Index link)) (λ r, undirected r && negb (r_LinkIndex r =? 0)%Z && other_addr (l_Index link)
     {| la_Index := r_LinkIndex r; la_V6 := false; la_Net := None |}) every) (AddrDel link net).
Proof.
  intros H4. apply keeps_AddrDel; [done|..].
  - intros x Hx. unfold other_addr. by rewrite Hx, Z.eqb_refl.
  - unfold other_addr. cbn. intros x [Hx|[Hx|[_ [->| ->]]]]; [rewrite undirected_not by auto; done..| |].
    + by rewrite Z.eqb_refl, andb_false_r.
    + by rewrite Z.eqb_refl, andb_false_r.
Qed.
Lemma serves_deleteAddress b t prev s r s' : (b = true → t_Name t ≠ t_Name prev) → nosrc (sees s) →
  deleteExactOwnedAddress prev s = (r, s') → serves b t (sees s) → serves b t (sees s').
Proof.
  intros Hb Hsrc E. pose proof (nosrc_deleteExactOwnedAddress prev s r s' E Hsrc) as Hsrc'.
  apply with_owned_link_inv in E as [Hs|(link&s1&Hs&Hin&Hn&_&E)]; [by apply serves_same|].
  intros Hv%(serves_same _ _ _ _ Hs). revert Hv.
  pose proof (delete_listed_address prev link _ s1 r s' (keeps_while_v4 link) E) as [Hback Hr4].
  pose proof (delete_listed_address prev link _ s1 r s' (keeps_elsewhere link) E) as (Hl&Ha&Hr&Hu).
  rewrite !pick_every in Hl. rewrite !pick_every in Hu. assert (nosrc (sees s1)) as Hsrc1 by (by apply (frame_same (R:=nosrc_kept) _ _ Hs)).
  assert (∀ x, x ∈ v_routes (sees s1) ++ v_routes (sees s') → owned_route x = true → undirected x = true) as Hlast.
  { intros x [Hx|Hx]%elem_of_app; [by apply (nosrc_lasting (sees s1))|by apply (nosrc_lasting (sees s'))]. }
  apply serves_kept; [|apply (ruled_kept _ every); [by rewrite Hu|done]]. intros l Hlin Hln.
  split_and!; [by rewrite <-Hl| |intros a Hx _; by apply Hback|].
  - intros Hne%Hb x Hx Hxi. eapply pick_elem; [exact Ha| |done]. unfold other_addr. rewrite Hxi. apply negb_true_iff, Z.eqb_neq.
    by apply (own_on_apart s1); [..|congruence].
  - intros Hor. destruct (decide (l_Name l = l_Name link)) as [He|Hne].
    + assert (l = link) as -> by (by apply (same_name s1.1)). destruct Hor as [?%Hb|Hv4]; [congruence|].
      eapply pick_weaken; [|by apply Hr4]. intros x Hx. unfold own_on. rewrite andb_true_iff. intros [_ ?]. by apply Hlast.
    + eapply pick_weaken; [|exact Hr]. intros x Hx. unfold own_on, other_addr. rewrite !andb_true_iff, Z.eqb_eq. intros [[_ Hi] Ho].
      cbn. rewrite Hi, (Hlast x Hx Ho), (proj2 (Z.eqb_neq _ 0) (links_numbered _ _ Hlin)). split_and!; [done..|].
      apply negb_true_iff, Z.eqb_neq. by apply (own_on_apart s1).
Qed.

(** A default route of the daemon's on the link of a plumbed tunnel is in its table. *)
Lemma plumbed_default_table t v link x : plumbed link t v → x ∈ v_routes v → own_on link x = true →
  r_Table x ≠ mainTable → r_Table x = t_Table t.
Proof.
  intros (_&Hdef&_) Hx Ho Htab. unfold routed in Hdef.
  assert (routeID x ∈ routeID <$> pick (own_in link 0 (default_relevant t)) (v_routes v)) as Hid.
  { apply list_elem_of_fmap_2, list_elem_of_filter. split; [|done]. revert Ho.
    unfold own_on, own_in, in_set, filter_matches, default_relevant, owned_route. cbn.
    rewrite (proj2 (Z.eqb_neq _ _) Htab). by destruct (r_V6 x), (r_LinkIndex x =? l_Index link)%Z, (r_Protocol x =? RouteProtocol)%Z. }
  rewrite Hdef in Hid. apply list_elem_of_singleton in Hid. unfold routeID in Hid. apply str_app_inv_l in Hid.
  apply (str_cut "/") in Hid as [Ht%itoa_inj _]; [exact Ht|by apply itoa_free..].
Qed.
(** The deletions of [deleteOwnedDefaultRoute] once the link is known. *)
Lemma deleteOwnedDefaultRoute_inv prev s r s' : t_Table prev ≠ 0%Z → deleteOwnedDefaultRoute prev s = (r, s') →
  same (sees s) (sees s') ∨ ∃ link routes s1 errs, same (sees s) (sees s1) ∧ link ∈ v_links (sees s1) ∧ l_Name link = t_Name prev ∧
    (∀ x, x ∈ routes → owned_route x = true → x ∈ v_routes (sees s1) ∧ own_on link x = true ∧ r_Table x = t_Table prev) ∧
    collect (λ x, if owned_route x && bool_decide (routeDestination x = "0.0.0.0/0")
                  then lift_noent (t_Name prev) "delete owned default route" (RouteDel x) else mret ()) routes s1 = (Ok errs, s').
Proof.
  intros Hz [Hs|(link&s0&Hs&Hin&Hn&_&E)]%with_owned_link_inv; [by left|].
  apply M_bind_inv in E as [(e&E&->)|(routes&s1&[_ E1]%lift_inv&E)].
  { left. etrans; [done|]. eapply keeps_run; [exact E|keep]. }
  apply (effect_call _ _ (RouteListFiltered_law _)) in E1 as [Hs' Hp]. change (see ?s.1) with (sees s) in *.
  apply M_bind_inv in E as [(e&[? ?]%collect_ok&_)|(errs&s2&E2&[-> _]%join_inv)]; [done|].
  right. exists link, routes, s1, errs. destruct (Hs') as (Hl&_&Hr&_).
  split_and!; [by etrans|by rewrite <-Hl|done| |done]. intros x Hx Ho. rewrite Hp in Hx.
  apply list_elem_of_filter in Hx as [Hx Hx']. split; [by rewrite <-Hr|]. revert Hx.
  unfold filter_matches, own_on. cbn. rewrite Ho, (proj2 (Z.eqb_neq _ _) Hz), andb_true_r. cbn.
  rewrite andb_true_iff, Z.eqb_eq, andb_true_r. done.
Qed.
Lemma serves_deleteDefault b t prev s r s' : t_Name t ≠ t_Name prev ∨ t_Table t ≠ t_Table prev →
  t_Table prev ≠ 0%Z → t_Table prev ≠ mainTable →
  deleteOwnedDefaultRoute prev s = (r, s') → serves b t (sees s) → serves b t (sees s').
Proof.
  intros Hor Hz Hmain [Hs|(link&routes&s1&errs&Hs&Hin&Hn&Hroutes&E)]%deleteOwnedDefaultRoute_inv Hv; [by eapply serves_same| |done].
  apply (serves_same _ _ _ _ Hs) in Hv.
  assert (agree every every (λ x, negb (own_on link x)) every (sees s1) (sees s')) as (Hl&Ha&Hr&Hu).
  { eapply keeps_run; [exact E|]. apply keeps_collect; [apply _|]. intros x Hx.
    destruct (owned_route x) eqn:Ho; cbn [andb]; [|keep]. case_bool_decide; [|keep]. apply keeps_lift_noent; [apply _|].
    apply keeps_RouteDel. by destruct (Hroutes x Hx Ho) as (_&->&_). }
  rewrite !pick_every in Hl. rewrite !pick_every in Ha. rewrite !pick_every in Hu. pose proof Hv as (l0&Hl0&Hln0&_&_&_&_&_&Hp).
  revert Hv. apply serves_kept; [|apply (ruled_kept _ every); [by rewrite Hu|done]]. intros l Hlin Hln.
  split_and!; [by rewrite <-Hl|intros _ x; by rewrite Ha|intros x; by rewrite Ha|intros Hv4].
  destruct (decide (t_Name t = t_Name prev)) as [Heq|Hne].
  - assert (l0 = l) as -> by (apply (same_name s1.1); [done..|congruence]).
    assert (l = link) as -> by (apply (same_name s1.1); [done..|congruence]).
    assert (plumbed link t (sees s1)) as Hpl by (apply Hp; destruct Hv4 as [?|Hv4]; [by left|right; unfold has_v4; by rewrite Ha]).
    assert (same (sees s1) (sees s')) as (_&_&Hsame&_); [|by rewrite Hsame]. eapply keeps_run; [exact E|].
    apply keeps_collect; [apply _|]. intros x Hx.
    destruct (owned_route x) eqn:Ho; cbn [andb]; [exfalso|keep]. destruct (Hroutes x Hx Ho) as (Hxin&Hon&Htab).
    destruct Hor as [?|Hne]; [done|]. apply Hne. rewrite <-Htab. symmetry. by apply (plumbed_default_table t (sees s1) link); [..|congruence].
  - eapply pick_weaken; [|exact Hr]. intros x _. unfold own_on. rewrite !andb_true_iff, Z.eqb_eq. intros [[_ Hi] _].
    rewrite (proj2 (Z.eqb_neq (r_LinkIndex x) _)); [by rewrite andb_false_r|]. rewrite Hi.
    by apply (own_on_apart s1); [..|congruence].
Qed.
End serves.

(** ** Tunnels of a loaded configuration *)
Record settled (ts : list Tunnel) : Prop := {
  st_names : NoDup (t_Name <$> ts);
  st_priorities : NoDup (t_RulePriority <$> ts);
  st_tunnels : Forall (λ t, plumbable t ∧ t_Table t ≠ 0%Z ∧ is_u32 (t_Fwmark t)) ts }.

Lemma loaded_settled `{UnicodeTables} toASCII ParseKey decode raw c :
  parseConfig toASCII ParseKey decode raw = Ok c → settled (c_Tunnels c).
Proof.
  intros (_&seen&groups&Hval&Hinv)%parseConfig_validated. destruct Hinv as [_ Hnd _ _ Hal _ Hok].
  pose proof (v_allocations _ _ _ _ _ _ Hval) as Ha. rewrite Hal in Ha. apply ValidateAllocations_iff in Ha as [Ha Hp].
  rewrite Forall_fmap in Ha. rewrite Forall_forall in Ha, Hok. split; [done| |].
  - apply (pairwise_NoDup _ al_Priority) in Hp; [|by intros a b (?&?&?)]. by rewrite <-list_fmap_compose in Hp.
  - apply Forall_forall. intros t Ht. destruct (Hok t Ht) as [_ _ Hm Htab Hr].
    destruct (Ha t Ht) as (_&_&_&_&_&Htab'&_). cbn in Htab'. unfold plumbable, is_u32, mainTable, u32_max in *. split_and!; [lia|done|lia..].
Qed.
Lemma settled_in ts t : settled ts → t ∈ ts → plumbable t ∧ t_Table t ≠ 0%Z ∧ t_Table t ≠ mainTable ∧ is_u32 (t_Fwmark t).
Proof. intros [_ _ Hall]. rewrite Forall_forall in Hall. intros Hp%Hall. destruct Hp as ([??]&?&?). done. Qed.
(** A rule whose fields changed is another rule. *)
Lemma rule_changed_neq prev t : is_u32 (t_Fwmark prev) → is_u32 (t_Fwmark t) → rule_changed prev t = true →
  ruleEqual (markRule t) (markRule prev) = false.
Proof.
  intros Hp Ht Hc. apply not_true_is_false. unfold ruleEqual. cbn. rewrite !wrap32_id by done.
  rewrite !andb_true_iff, !Z.eqb_eq. intros ((((E1&E2)&E3)&E4)&_). revert Hc. unfold rule_changed.
  by rewrite E1, E2, E3, E4, !Z.eqb_refl.
Qed.
(** The tunnel got another address. *)
Definition readdressed (old : Config) (t : Tunnel) : bool :=
  match tunnels_by_name old !! t_Name t with Some prev => address_changed prev t | None => false end.
(** No tunnel takes over the rule of another one. *)
Definition no_takeover (old next : Config) : Prop := ∀ t p, t ∈ c_Tunnels next → p ∈ c_Tunnels old →
  t_Name t ≠ t_Name p → ruleEqual (markRule t) (markRule p) = false.

(** ** Reload *)
Section reload.
Context {K F : Type} `{NetlinkLaws K} `{IptablesLaws F} `{WgKeys}.
Context (old next : Config).
Context (Hold : settled (c_Tunnels old)) (Hnext : settled (c_Tunnels next)) (Hfree : no_takeover old next).
Implicit Types (s : host K F) (t : Tunnel).

(** What is known of a tunnel of the candidate: [b] that it has been applied. *)
Definition applied (b : bool) t (v : view) : Prop :=
  if b then serves (negb (readdressed old t)) t v
  else ∀ prev, tunnels_by_name old !! t_Name t = Some prev → sameTunnelSpec prev t = true → serves true t v.

(** A predicate on states that an operation keeps. *)
Definition invar (P : host K F → Prop) s s' : Prop := P s → P s'.
#[export] Instance invar_preorder P : PreOrder (invar P).
Proof. split; [by intros s ?|]. intros s1 s2 s3 H12 H23 ?. by apply H23, H12. Qed.
(** Another tunnel is in service, and the daemon's routes have no preferred source. *)
Definition going (b : bool) t s : Prop := serves b t (sees s.1) ∧ nosrc (sees s.1).

Lemma going_kernel b t (m : M (world K) unit) : keeps nosrc_kept m →
  (∀ w r w', nosrc (sees w) → m w = (r, w') → serves b t (sees w) → serves b t (sees w')) → stays (invar (going b t)) (on_kernel m).
Proof using Type.
  intros Hk Hm s r s' [E _]%on_kernel_inv [Hv Hs]. split; [exact (Hm _ _ _ Hs E Hv)|exact (Hk _ _ _ E Hs)].
Qed.
Lemma going_still b t (m : M (host K F) unit) : stays kernel_still m → stays (invar (going b t)) m.
Proof using Type.
  intros Hm s r s' E [Hv Hs]. apply Hm in E as Hsame. split; [by eapply serves_same|]. by apply (frame_same (R:=nosrc_kept) _ _ Hsame).
Qed.
Lemma going_tunnelUp b t t2 : apart t t2 → plumbable t2 → stays (invar (going b t)) (on_kernel (tunnelUp t2)).
Proof using Type. intros Hap Hp. apply going_kernel; [apply nosrc_tunnelUp|]. intros w r w' _. by apply serves_tunnelUp. Qed.
Lemma going_repair b t t2 : apart t t2 → plumbable t2 → stays (invar (going b t)) (on_kernel (repair_tunnel t2)).
Proof using Type.
  intros Hap Hp. apply going_kernel; [apply nosrc_repair_tunnel|].
  intros w r w' _ [(e&E&->)|(o&w1&E1&E)]%M_bind_inv; [apply serves_same; eapply keeps_run; [exact E|keep]|].
  apply lookupLink_Ok in E1 as [Hs Ho]. intros Hv%(serves_same _ _ _ _ Hs). destruct o as [link|].
  - destruct Ho. by eapply serves_plumbing.
  - by eapply serves_tunnelUp.
Qed.

(** Retiring what [prev] had does not hurt [t], be it its successor or another tunnel. *)
Lemma going_retire b t prev t' : t ∈ c_Tunnels next → t' ∈ c_Tunnels next → prev ∈ c_Tunnels old → t_Name t' = t_Name prev →
  (b = true → address_changed prev t' = true → t_Name t ≠ t_Name prev) → stays (invar (going b t)) (retire prev t').
Proof using Hold Hnext Hfree.
  intros Ht Ht' Hprev Hn Hb. destruct (settled_in _ _ Hold Hprev) as (_&Hz&Hmain&Hm). destruct (settled_in _ _ Hnext Ht) as (_&_&_&Hm').
  assert (t_Name t = t_Name prev → t = t') as Heq.
  { intros He. apply (NoDup_fmap_elem t_Name (c_Tunnels next)); [apply Hnext|done..|congruence]. }
  unfold retire. apply stays_bind; [apply _| |intros _; apply stays_bind; [apply _| |intros _]].
  - destruct (address_changed prev t') eqn:Hc; [|apply stays_ret, _]. apply going_kernel; [apply nosrc_deleteExactOwnedAddress|].
    intros w r w' Hw E. eapply serves_deleteAddress; [|done..]. intros Hbt. by apply Hb.
  - destruct (table_changed prev t') eqn:Hc; [|apply stays_ret, _]. apply going_kernel; [apply nosrc_deleteOwnedDefaultRoute|].
    intros w r w' _ E. eapply serves_deleteDefault; [|done..]. destruct (decide (t_Name t = t_Name prev)) as [->%Heq|]; [right|by left].
    unfold table_changed in Hc. apply negb_true_iff, Z.eqb_neq in Hc. congruence.
  - destruct (rule_changed prev t') eqn:Hc; [|apply stays_ret, _]. apply going_kernel; [apply nosrc_deleteOwnedRule|].
    intros w r w' _ E. eapply serves_deleteRule; [|done]. destruct (decide (t_Name t = t_Name prev)) as [He|]; [|by apply Hfree].
    rewrite (Heq He) in *. by apply rule_changed_neq.
Qed.
Lemma next_apart t t2 : t ∈ c_Tunnels next → t2 ∈ c_Tunnels next → t_Name t ≠ t_Name t2 → apart t t2.
Proof using Hnext.
  intros Ht Ht2 Hne. split; [done|]. intros Hp. apply Hne. f_equal.
  apply (NoDup_fmap_elem t_RulePriority (c_Tunnels next)); [apply Hnext|done..].
Qed.
Lemma going_apply b t t2 : t ∈ c_Tunnels next → t2 ∈ c_Tunnels next → t_Name t ≠ t_Name t2 →
  stays (invar (going b t)) (apply_tunnel old t2).
Proof using Hold Hnext Hfree.
  intros Ht Ht2 Hne. destruct (settled_in _ _ Hnext Ht2) as (Hp&_). pose proof (next_apart t t2 Ht Ht2 Hne) as Hap. unfold apply_tunnel.
  destruct (tunnels_by_name old !! t_Name t2) as [prev|] eqn:Hprev; [|by apply going_tunnelUp].
  apply tunnels_by_name_elem in Hprev as [Hprev Hn]. destruct (sameTunnelSpec prev t2); [by apply going_repair|].
  apply stays_bind; [apply _|by apply going_tunnelUp|]. intros _. apply going_retire; try done. intros _ _. by rewrite Hn.
Qed.

(** An unchanged tunnel that is up is reconciled, any other one is brought up. *)
Lemma repair_serves t w w' : plumbable t → serves true t (sees w) → repair_tunnel t w = (Ok tt, w') → serves true t (sees w').
Proof using Type.
  intros Hp Hv [(e&_&?)|(o&w1&E1&E)]%M_bind_inv; [done|]. apply lookupLink_Ok in E1 as [Hs Ho].
  apply (serves_same _ _ _ _ Hs) in Hv. destruct o as [link|]; [|by apply serves_up; eapply tunnelUp_is_up].
  destruct Hv as (l&Hl&Hln&Hm&Hup&Hmtu&_&Ha&_), Ho as [Hin Hn].
  assert (l = link) as -> by (apply (same_name w1.1); [done..|congruence]).
  apply reconcilePlumbing_effect in E as [(Hl'&Ha'&_) Hpl]; [|done]. rewrite !pick_every in Hl'. rewrite !pick_every in Ha'.
  specialize (Hpl eq_refl). exists link. split_and!; [by rewrite <-Hl'|done..|apply Hpl| |done].
  intros _. destruct (Ha eq_refl) as (d&a&?&?&?). exists d, a. by rewrite <-Ha'.
Qed.
Lemma apply_serves t s s' : t ∈ c_Tunnels next → nosrc (sees s.1) → applied false t (sees s.1) →
  apply_tunnel old t s = (Ok tt, s') → going (negb (readdressed old t)) t s'.
Proof using Hold Hnext Hfree.
  intros Ht Hsrc Hb. destruct (settled_in _ _ Hnext Ht) as (Hp&_). unfold apply_tunnel, readdressed, applied in *.
  assert (∀ b s s', nosrc (sees s.1) → on_kernel (tunnelUp t) s = (Ok tt, s') → going b t s') as Hup.
  { intros b s0 s1 Hs [E _]%on_kernel_inv. split; [|by eapply nosrc_tunnelUp].
    apply serves_weaken, serves_up. by eapply tunnelUp_is_up. }
  destruct (tunnels_by_name old !! t_Name t) as [prev|] eqn:Hprev; [|by apply Hup].
  apply tunnels_by_name_elem in Hprev as [Hprev Hn]. specialize (Hb prev eq_refl). destruct (sameTunnelSpec prev t).
  - intros [E _]%on_kernel_inv. split; [|by eapply nosrc_repair_tunnel]. apply serves_weaken. by eapply repair_serves; [|apply Hb|].
  - intros [(e&_&?)|([]&s1&E1&E)]%M_bind_inv; [done|]. eapply (going_retire _ t prev t); [done..|symmetry; done| |exact E|by eapply Hup].
    intros Hc Hc'. by rewrite Hc' in Hc.
Qed.

Lemma applied_kept t s s' (m : M (host K F) unit) r : stays (invar (going true t)) m → m s = (r, s') → nosrc (sees s.1) → (applied false t (sees s.1)) →
  applied false t (sees s'.1).
Proof using Type. intros Hm E Hs Ha prev Hprev Hsame. by apply (Hm s r s' E); split; [eapply Ha|]. Qed.
Lemma apply_loop dn todo s s' : c_Tunnels next = dn ++ todo → nosrc (sees s.1) →
  Forall (λ t, going (negb (readdressed old t)) t s) dn → Forall (λ t, applied false t (sees s.1)) todo →
  each (apply_tunnel old) todo s = (Ok tt, s') → nosrc (sees s'.1) ∧ Forall (λ t, going (negb (readdressed old t)) t s') (c_Tunnels next).
Proof using Hold Hnext Hfree.
  revert dn s. induction todo as [|t todo IH]; intros dn s Hall Hsrc Hdn Htodo; cbn [each].
  { intros [= <-]. by rewrite Hall, app_nil_r. }
  intros [(e&_&?)|([]&s1&E1&E)]%M_bind_inv; [done|]. apply Forall_cons in Htodo as [Ht Htodo].
  assert (t ∈ c_Tunnels next) as Hin by (rewrite Hall, elem_of_app; right; by left).
  assert (∀ x, x ∈ dn ∨ x ∈ todo → x ∈ c_Tunnels next ∧ t_Name x ≠ t_Name t) as Hother.
  { pose proof (st_names _ Hnext) as Hnd. rewrite Hall, fmap_app, fmap_cons in Hnd. apply NoDup_app in Hnd as (_&Hd&[Ht' _]%NoDup_cons).
    intros x [Hx|Hx]; (split; [rewrite Hall, elem_of_app, elem_of_cons; tauto|]); intros He.
    - apply (Hd (t_Name x)); [by apply list_elem_of_fmap_2|]. rewrite He. by left.
    - apply Ht'. rewrite <-He. by apply list_elem_of_fmap_2. }
  pose proof (apply_serves t s s1 Hin Hsrc Ht E1) as Hg. destruct (Hg) as [_ Hsrc1].
  apply (IH (dn ++ [t]) s1); [by rewrite <-(assoc_L (++))|done| | |done].
  - apply Forall_app. split; [|by apply Forall_singleton]. rewrite Forall_forall in Hdn |- *. intros x Hx.
    destruct (Hother x) as [??]; [by left|]. by apply (going_apply (negb (readdressed old x)) x t) in E1; [apply E1, Hdn|..].
  - rewrite Forall_forall in Htodo |- *. intros x Hx. destruct (Hother x) as [??]; [by right|].
    eapply applied_kept; [by apply (going_apply true x t)|done..|by apply Htodo].
Qed.
End reload.

(** ** The two rulesets of the firewall *)
Section rulesets.
Context {F : Type} `{IptablesLaws F}.

Lemma only_owned_lookup rs ts ts' key : key ∉ chain_key <$> Chains rs → key ∉ hook_key <$> Chains rs →
  only_owned rs ts ts' → ts' !! key = ts !! key.
Proof.
  intros Hc Hh Ho. specialize (Ho key Hc).
  assert (∀ l, strip rs key l = l) as Hid.
  { intros l. unfold strip. induction l as [|x l IH]; [done|]. rewrite filter_cons_True, IH; [done|].
    intros (c&Hin&Hk&_). apply Hh. rewrite <-Hk. by apply list_elem_of_fmap_2. }
  destruct (ts !! key), (ts' !! key); try done. cbn in Ho. rewrite !Hid in Ho. by symmetry.
Qed.
Definition elsewhere (rs rs' : Ruleset) : Prop := ∀ c, c ∈ Chains rs' → ∀ key, key = chain_key c ∨ key = hook_key c →
  (key ∉ chain_key <$> Chains rs) ∧ (key ∉ hook_key <$> Chains rs).
Lemma njumps_lookup (ch : Chain) (ts ts' : tables) : ts' !! hook_key ch = ts !! hook_key ch → njumps ch ts' = njumps ch ts.
Proof. intros Hk. unfold njumps. by rewrite Hk. Qed.
Lemma removed_elsewhere rs rs' ts ts' : elsewhere rs rs' → only_owned rs ts ts' → removed rs' ts → removed rs' ts'.
Proof.
  intros He Ho Hi ch Hch. destruct (Hi ch Hch) as [Hr Hj]. destruct (He ch Hch (chain_key ch)) as [??]; [by left|].
  destruct (He ch Hch (hook_key ch)) as [??]; [by right|].
  rewrite (only_owned_lookup rs ts ts' (chain_key ch)) by done. split; [done|]. rewrite <-Hj. apply njumps_lookup.
  by apply (only_owned_lookup rs).
Qed.
Lemma installed_elsewhere rs rs' ts ts' : elsewhere rs rs' → only_owned rs ts ts' → installed rs' ts → installed rs' ts'.
Proof.
  intros He Ho Hi ch Hch. destruct (Hi ch Hch) as [Hr Hj]. destruct (He ch Hch (chain_key ch)) as [??]; [by left|].
  destruct (He ch Hch (hook_key ch)) as [??]; [by right|].
  rewrite (only_owned_lookup rs ts ts' (chain_key ch)) by done. split; [done|]. rewrite <-Hj. apply njumps_lookup.
  by apply (only_owned_lookup rs).
Qed.
End rulesets.

Lemma guard_keys `{UnicodeTables} cfg rs c : compileEgressGuardRuleset cfg = Ok rs → c ∈ Chains rs →
  chain_key c = ("filter", OutputChain) ∧ hook_key c = ("filter", "OUTPUT").
Proof.
  unfold compileEgressGuardRuleset. destruct (CompileEgressGuard _) as [ch|] eqn:Hc; [|done]. intros [= <-] ->%list_elem_of_singleton.
  unfold CompileEgressGuard in Hc. destruct (mark_guards cfg); [by injection Hc as <-|].
  destruct (guard_rules _ _); [|done]. by injection Hc as <-.
Qed.
Lemma gateway_keys `{UnicodeTables} cfg rs : compileGatewayRuleset cfg = Ok rs →
  chain_key <$> Chains rs = [("filter", FilterChain); ("nat", NATChain); ("mangle", MangleChain)] ∧
  hook_key <$> Chains rs = [("filter", "FORWARD"); ("nat", "POSTROUTING"); ("mangle", "FORWARD")].
Proof.
  unfold compileGatewayRuleset. intros Hc. pose proof (Compile_spec (gateway_policy cfg)) as Hs. rewrite Hc in Hs.
  by destruct Hs as [_ ->].
Qed.
Lemma guard_elsewhere `{UnicodeTables} cfg cfg' rs rs' : compileGatewayRuleset cfg = Ok rs → compileEgressGuardRuleset cfg' = Ok rs' →
  elsewhere rs rs'.
Proof.
  intros [Hck Hhk]%gateway_keys Hg c Hc key Hk. rewrite Hck, Hhk. destruct (guard_keys _ _ _ Hg Hc) as [Ec Eh]. rewrite Ec, Eh in Hk.
  destruct Hk as [->| ->]; split; by apply (bool_decide_unpack _).
Qed.

Lemma gateway_elsewhere `{UnicodeTables} cfg cfg' rs rs' : compileEgressGuardRuleset cfg' = Ok rs' → compileGatewayRuleset cfg = Ok rs →
  elsewhere rs' rs.
Proof.
  intros Hg [Hck Hhk]%gateway_keys c Hc key Hk.
  assert (key ∈ (chain_key <$> Chains rs) ++ (hook_key <$> Chains rs)) as Hin.
  { apply elem_of_app. destruct Hk as [->| ->]; [left|right]; by apply list_elem_of_fmap_2. }
  rewrite Hck, Hhk in Hin. split; intros (d&->&Hd)%list_elem_of_fmap; destruct (guard_keys _ _ _ Hg Hd) as [Ec Eh];
    rewrite ?Ec, ?Eh in Hin; revert Hin; by apply (bool_decide_unpack _).
Qed.

(** ** What a success means *)
Section done.
Context {K F : Type} `{NetlinkLaws K} `{IptablesLaws F} `{WgKeys}.
Implicit Types (s : host K F) (t : Tunnel).

(** The chains of the configuration are installed. *)
Definition guarded (cfg : Config) s : Prop :=
  (∀ rs, compileEgressGuardRuleset cfg = Ok rs → installed rs (tabs s)) ∧
  (∀ rs, gw_Enabled (c_Gateway cfg) = true → compileGatewayRuleset cfg = Ok rs → installed rs (tabs s)).

Lemma gatewayUp_guarded cfg s s' : (∀ rs, compileEgressGuardRuleset cfg = Ok rs → installed rs (tabs s)) →
  gatewayUp cfg s = (Ok tt, s') → guarded cfg s'.
Proof using All.
  intros Hg E. destruct (gw_Enabled (c_Gateway cfg)) eqn:Hen.
  - destruct (compileGatewayRuleset cfg) as [rs|e] eqn:Hc.
    + destruct (firewall_op_spec _ _ _ _ _ _ _ (op_gatewayUp cfg rs Hen Hc) E) as (Ho&_&Hi). split.
      * intros rs' Hrs'. eapply installed_elsewhere; [by eapply guard_elsewhere|done|by apply Hg].
      * intros rs' _ [= <-]%(eq_trans (eq_sym Hc)). by apply Hi.
    + unfold gatewayUp in E. rewrite Hen, Hc in E. done.
  - unfold gatewayUp in E. rewrite Hen in E. injection E as <-. split; [done|]. by rewrite Hen.
Qed.
Lemma egressGuardUp_done cfg s s' : egressGuardUp cfg s = (Ok tt, s') → ∀ rs, compileEgressGuardRuleset cfg = Ok rs → installed rs (tabs s').
Proof using All.
  intros E rs Hc. destruct (firewall_op_spec _ _ _ _ _ _ _ (op_egressGuardUp cfg rs Hc) E) as (_&_&Hi). by apply Hi.
Qed.
Lemma or_teardown_Ok cfg (m : M (host K F) unit) s s' : or_teardown cfg m s = (Ok tt, s') → m s = (Ok tt, s').
Proof using All.
  intros [(e&_&?)|(r&s1&(r'&[= <-]&E1)%attempt_inv&E)]%M_bind_inv; [done|]. destruct r as [[]|e]; [by injection E as <-|].
  apply M_bind_inv in E as [(?&_&?)|(c&s2&_&[_ Hj]%join_inv)]; [done|]. by destruct Hj as [Hj _]; specialize (Hj eq_refl).
Qed.
Lemma each_on_kernel {A} (f : A → M (world K) unit) (g : A → M (host K F) unit) l s s' :
  (∀ a s s', g a s = (Ok tt, s') → on_kernel (f a) s = (Ok tt, s')) → each g l s = (Ok tt, s') →
  each f l s.1 = (Ok tt, s'.1) ∧ tabs s' = tabs s.
Proof using All.
  intros Hg. revert s. induction l as [|a l IH]; intros s; cbn [each]; [by intros [= <-]|].
  intros [(e&_&?)|([]&s1&E1&E)]%M_bind_inv; [done|]. apply Hg, on_kernel_inv in E1 as [E1 Ht]. apply IH in E as [E Ht'].
  split; [unfold mbind, M_bind; by rewrite E1|]. rewrite Ht'. unfold tabs. by rewrite Ht.
Qed.

Lemma start_up_works cfg s s' : settled (c_Tunnels cfg) → start_up cfg s = (Ok tt, s') →
  Forall (λ t, tunnel_is_up t (sees s'.1)) (c_Tunnels cfg) ∧ guarded cfg s'.
Proof using All.
  intros [Hnames Hprios Hts]. unfold start_up.
  intros [(e&_&?)|([]&s2&_&E)]%M_bind_inv; [done|].
  apply M_bind_inv in E as [(e&_&?)|([]&s3&E3%or_teardown_Ok&E)]; [done|].
  apply M_bind_inv in E as [(e&_&?)|([]&s4&E4&E%or_teardown_Ok)]; [done|].
  apply (each_on_kernel tunnelUp) in E4 as [E4 Ht]; [|intros t ??; apply or_teardown_Ok].
  apply (each_tunnelUp _ []) in E4; [|by eapply Forall_impl; [exact Hts|intros t [? _]]|done..].
  pose proof (gatewayUp_still cfg s4 (Ok tt) s' E) as Hs. split.
  - eapply Forall_impl; [exact E4|]. intros t Hup. apply serves_up. apply serves_up in Hup. by eapply serves_same.
  - eapply gatewayUp_guarded; [|done]. rewrite Ht. by eapply egressGuardUp_done.
Qed.

Section runUp.
Context `{ErrorText}.
Lemma runUp_inv io cfg failed file s x s' : runUp io cfg failed file s = (x, s') →
  ∃ r file', x = Ok (r, file') ∧
    (r = Ok tt → failed = None ∧ ∃ s1, start_up cfg s = (Ok tt, s1) ∧ measureAndRecordDrift io cfg [] file s1 = (Ok file', s')).
Proof using Type.
  unfold runUp. intros [(?&(?&?&_)%attempt_inv&_)|(c&s1&(?&[= <-]&E1)%attempt_inv&E)]%M_bind_inv; [done|].
  destruct c as [[]|e]; [|injection E as <- <-; by eexists _, _].
  apply M_bind_inv in E as [(?&(?&?&_)%attempt_inv&_)|(r&s2&(?&[= <-]&E2)%attempt_inv&E)]; [done|].
  apply M_bind_inv in E as [(e&E3&->)|(file'&s3&E3&E)].
  { apply measureAndRecordDrift_total in E3 as [? ?]. done. }
  destruct r as [[]|e]; [|injection E as <- <-; by eexists _, _]. destruct failed as [e|].
  - apply M_bind_inv in E as [(?&(?&?&_)%attempt_inv&_)|(?&?&_&[= <- <-])]; [done|]. by eexists _, _.
  - injection E as <- <-. eexists _, _. split; [done|]. intros _. split; [done|]. exists s2. split; [|done].
    unfold start_up, mbind, M_bind. by rewrite E1.
Qed.

(** C7: the start always ends with its verdict and the recorded status; when it
    succeeds no service failed to start, every tunnel of the configuration is up, the
    fail-closed egress guard is installed with exactly one jump to it, and so are the
    gateway's chains if it is enabled. *)
Theorem runUp_done io cfg failed file s x s' : settled (c_Tunnels cfg) → runUp io cfg failed file s = (x, s') →
  ∃ r file', x = Ok (r, file') ∧
    (r = Ok tt → failed = None ∧ Forall (λ t, tunnel_is_up t (sees s'.1)) (c_Tunnels cfg) ∧ guarded cfg s').
Proof using All.
  intros Hset (r&file'&->&Hr)%runUp_inv. exists r, file'. split; [done|]. intros (->&s1&E1&E2)%Hr. split; [done|].
  destruct (start_up_works cfg s s1 Hset E1) as [Hup Hg]. destruct (reads_measureAndRecordDrift _ _ _ _ _ _ _ E2) as [Hs Ht]. split.
  - eapply Forall_impl; [exact Hup|]. intros t Ht'. apply serves_up. apply serves_up in Ht'. by eapply serves_same.
  - unfold guarded in *. by rewrite Ht.
Qed.
End runUp.

(** The gateway of a candidate, which may be the one that turns it off. *)
Lemma apply_gateway_done old next s s' : (∀ rs, compileEgressGuardRuleset next = Ok rs → installed rs (tabs s)) →
  apply_gateway old next s = (Ok tt, s') → guarded next s' ∧
  (gw_Enabled (c_Gateway old) = true → gw_Enabled (c_Gateway next) = false →
   ∀ rs, compileGatewayRuleset old = Ok rs → removed rs (tabs s')).
Proof using All.
  intros Hg. unfold apply_gateway. destruct (gw_Enabled (c_Gateway next)) eqn:Hen.
  { rewrite andb_false_r. intros E. split; [by eapply gatewayUp_guarded|done]. }
  rewrite andb_true_r. destruct (gw_Enabled (c_Gateway old)); [|intros E; split; [by eapply gatewayUp_guarded|done]].
  intros E. destruct (compileGatewayRuleset old) as [rs|e] eqn:Hc.
  - destruct (firewall_op_spec _ _ _ _ _ _ _ (op_gatewayDown old rs Hc) E) as (Ho&_&Hi). split; [split|].
    + intros rs' Hrs'. eapply installed_elsewhere; [by eapply guard_elsewhere|done|by apply Hg].
    + by rewrite Hen.
    + intros _ _ rs' [= <-]. by apply Hi.
  - unfold gatewayDown in E. by rewrite Hc in E.
Qed.
Lemma collect_kernel_tabs {A} (f : A → M (world K) unit) l s r s' : collect (λ a, on_kernel (f a)) l s = (r, s') → tabs s' = tabs s.
Proof using All.
  revert s r. induction l as [|a l IH]; intros s r; [by intros [= <- <-]|].
  intros (r1&s1&errs&E1%on_kernel_tabs&E%IH&_)%collect_cons_inv. congruence.
Qed.
(** Everything [applyReload] checks before it changes something leaves the host alone. *)
Lemma applyReload_inv old next s r s' : applyReload old next s = (r, s') →
  (same (sees s.1) (sees s'.1) ∧ tabs s' = tabs s ∧ ∃ e, r = Err e) ∨
  ∃ s1 r2 s2, same (sees s.1) (sees s1.1) ∧ tabs s1 = tabs s ∧ apply_config old next s1 = (r2, s2) ∧
    match r2 with
    | Err e => rollbackKernelApply old next e s2 = (r, s')
    | Ok _ => r = Ok tt ∧ ∃ errs, collect (λ t, on_kernel (tunnelDown t)) (removed_tunnels old next) s2 = (Ok errs, s')
    end.
Proof using All.
  assert (∀ {A B} (m : M (host K F) A) (f : A → M (host K F) B) s r s', reads m → (m ≫= f) s = (r, s') →
    (same (sees s.1) (sees s'.1) ∧ tabs s' = tabs s ∧ ∃ e, r = Err e) ∨
    ∃ a s1, same (sees s.1) (sees s1.1) ∧ tabs s1 = tabs s ∧ f a s1 = (r, s')) as Hstep.
  { intros A B m f s0 r0 s0' Hm [(e&[??]%Hm&->)|(a&s1&[??]%Hm&E)]%M_bind_inv; [left; eauto|right; eauto 6]. }
  assert (reads (on_kernel (F:=F) (validateKernelReservations (c_Tunnels old)))) as Hv.
  { apply reads_on_kernel, keeps_validateKernelReservations, _. }
  assert (∀ x : result fw_error Ruleset, reads (preflight (K:=K) (F:=F) x)) as Hpre.
  { intros x. apply reads_bind; [apply reads_compiled_or|intros _; apply reads_ret]. }
  unfold applyReload. intros [?|([]&s1&Hs1&Ht1&E)]%Hstep; [by left| |done].
  apply Hstep in E as [(?&?&?)|([]&s2&Hs2&Ht2&E)]; [left; split_and!; [by etrans|congruence|done]| |].
  2:{ destruct (gw_Enabled (c_Gateway next)); [apply Hpre|apply reads_ret]. }
  apply Hstep in E as [(?&?&?)|([]&s3&Hs3&Ht3&E)]; [left; split_and!; [by do 2 (etrans; [done|])|congruence|done]| |apply Hpre].
  right. apply M_bind_inv in E as [(e&(?&?&?)%attempt_inv&_)|(r2&s4&(?&[= <-]&E4)%attempt_inv&E)]; [done|].
  exists s3, r2, s4. split_and!; [by do 2 (etrans; [done|])|congruence|done|]. destruct r2 as [[]|e]; [|done].
  apply M_bind_inv in E as [(e&[??]%collect_ok&_)|(errs&s5&E5&[= <- <-])]; [done|]. eauto.
Qed.

Lemma apply_gateway_still old next : stays kernel_still (apply_gateway (K:=K) (F:=F) old next).
Proof using All. unfold apply_gateway. destruct (_ && _); [apply gatewayDown_still|apply gatewayUp_still]. Qed.
Lemma serves_spec b prev t v : sameTunnelSpec prev t = true → serves b prev v → serves b t v.
Proof using All.
  intros Hsame%bool_decide_eq_true. change (serves b (without_resolver prev) v → serves b (without_resolver t) v). by rewrite Hsame.
Qed.
Lemma going_removed old next b t : settled (c_Tunnels next) → no_takeover old next → t ∈ c_Tunnels next →
  stays (invar (K:=K) (F:=F) (going b t)) (collect (λ t, on_kernel (tunnelDown t)) (removed_tunnels old next)).
Proof using All.
  intros Hnext Hfree Ht. apply stays_collect; [apply _|]. intros t2 [Hno Hin]%list_elem_of_filter.
  assert (t_Name t ≠ t_Name t2) as Hne by (intros He; apply Hno; rewrite <-He; by apply list_elem_of_fmap_2).
  apply going_kernel; [apply nosrc_tunnelDown|]. intros w r w' Hw E. eapply serves_down; [done| |done..]. by apply Hfree.
Qed.

(** C1: a reload that commits puts every tunnel of the new configuration in service,
    given that those of the old one were up: its link is the daemon's, up and of its
    MTU, and its rule is the only one at its priority; unless the reload changed its
    address it has that address, and the daemon's routes on it are the configured
    ones; if the reload changed the address, they are as long as the link has any IPv4
    address left, without which the kernel takes the routes.  The guard and the
    gateway are installed as the new configuration says, and the gateway's chains are
    gone if it turned it off.  No tunnel may take over the rule of another, and no
    route of the daemon's may have got a preferred source. *)
Theorem applyReload_done old next s s' : settled (c_Tunnels old) → settled (c_Tunnels next) → no_takeover old next →
  nosrc (sees s.1) → Forall (λ t, tunnel_is_up t (sees s.1)) (c_Tunnels old) → applyReload old next s = (Ok tt, s') →
  Forall (λ t, serves (negb (readdressed old t)) t (sees s'.1)) (c_Tunnels next) ∧ guarded next s' ∧
  (gw_Enabled (c_Gateway old) = true → gw_Enabled (c_Gateway next) = false →
   ∀ rs, compileGatewayRuleset old = Ok rs → removed rs (tabs s')).
Proof using All.
  intros Hold Hnext Hfree Hsrc Hup [(_&_&e&?)|(s1&r2&s2&Hs1&_&E2&E)]%applyReload_inv; [done|].
  destruct r2 as [[]|e].
  2:{ unfold rollbackKernelApply in E. repeat (apply M_bind_inv in E as [(?&_&?)|(?&?&_&E)]; [done|]).
      apply join_inv in E as [_ [Hj _]]. by specialize (Hj eq_refl). }
  destruct E as (_&errs&E). unfold apply_config in E2. apply M_bind_inv in E2 as [(?&_&?)|([]&s3&E3&E2)]; [done|].
  apply M_bind_inv in E2 as [(?&_&?)|([]&s4&E4&E2)]; [done|].
  apply (apply_loop old next Hold Hnext Hfree []) in E3 as [Hsrc3 Hgo]; [|done|by apply (frame_same (R:=nosrc_kept) _ _ Hs1)|constructor|].
  2:{ apply Forall_forall. intros t _ prev [Hprev _]%tunnels_by_name_elem Hsame. rewrite Forall_forall in Hup.
      by eapply serves_spec, serves_same, serves_up, Hup. }
  pose proof E2 as Hg. apply apply_gateway_done in Hg; [|by eapply egressGuardUp_done]. unfold guarded in *.
  rewrite (collect_kernel_tabs _ _ _ _ _ E). split; [|exact Hg]. rewrite Forall_forall in Hgo |- *. intros t Ht.
  apply (going_removed old next (negb (readdressed old t)) t Hnext Hfree Ht _ _ _ E).
  apply (going_still _ _ _ (apply_gateway_still old next) _ _ _ E2), (going_still _ _ _ (egressGuardUp_still next) _ _ _ E4). by apply Hgo.
Qed.

(** *** A reload that fails *)
Lemma step_errors_inv (b : bool) (m : M (host K F) unit) s r s' : step_errors b m s = (r, s') →
  if b then ∃ r1, m s = (r1, s') ∧ r = Ok (errors_of r1) else s' = s ∧ r = Ok [].
Proof using All.
  destruct b; [|by intros [= <- <-]]. intros [(e&(?&?&?)%attempt_inv&_)|(r1&s1&(?&[= <-]&E)%attempt_inv&[= <- <-])]%M_bind_inv; [done|eauto].
Qed.
Lemma errors_of_nil (r : result wg_error unit) : errors_of r = [] → r = Ok tt.
Proof using Type. by destruct r as [[]|]. Qed.
Lemma gather_ok {A} (f : A → M (host K F) (list wg_error)) l s r s' :
  (∀ a s r s', f a s = (r, s') → ∃ errs, r = Ok errs) → gather f l s = (r, s') → ∃ errs, r = Ok errs.
Proof using Type.
  intros Hf. revert s r. induction l as [|a l IH]; intros s r; cbn [gather]; [intros [= <- <-]; eauto|].
  intros [(e&[? ?]%Hf&_)|(e&s1&_&E)]%M_bind_inv; [done|].
  apply M_bind_inv in E as [(e'&[? ?]%IH&_)|(es&s2&_&[= <- <-])]; [done|eauto].
Qed.
Lemma step_errors_ok (b : bool) (m : M (host K F) unit) s r s' : step_errors b m s = (r, s') → ∃ errs, r = Ok errs.
Proof using All. intros E%step_errors_inv. destruct b; [destruct E as (?&_&->)|destruct E as [_ ->]]; eauto. Qed.
Lemma rollback_tunnel_ok old t s r s' : rollback_tunnel (K:=K) (F:=F) old t s = (r, s') → ∃ errs, r = Ok errs.
Proof using All.
  unfold rollback_tunnel. destruct (tunnels_by_name old !! _); [|apply step_errors_ok].
  intros [(e&[? ?]%step_errors_ok&_)|(a&s1&_&E)]%M_bind_inv; [done|].
  apply M_bind_inv in E as [(e&[? ?]%step_errors_ok&_)|(b&s2&_&E)]; [done|].
  apply M_bind_inv in E as [(e&[? ?]%step_errors_ok&_)|(c&s3&_&[= <- <-])]; [done|eauto].
Qed.

(** The old configuration is back in force. *)
Definition restored (old next : Config) s : Prop :=
  Forall (λ t, tunnel_is_up t (sees s.1)) (c_Tunnels old) ∧ guarded old s ∧
  (gw_Enabled (c_Gateway old) = false → ∀ rs, compileGatewayRuleset next = Ok rs → removed rs (tabs s)).

(** The last step of the roll-back, after the gateway. *)
Lemma guard_after_gateway old next s s' :
  (∀ rs, gw_Enabled (c_Gateway old) = true → compileGatewayRuleset old = Ok rs → installed rs (tabs s)) →
  (gw_Enabled (c_Gateway old) = false → ∀ rs, compileGatewayRuleset next = Ok rs → removed rs (tabs s)) →
  egressGuardUp old s = (Ok tt, s') → guarded old s' ∧
  (gw_Enabled (c_Gateway old) = false → ∀ rs, compileGatewayRuleset next = Ok rs → removed rs (tabs s')).
Proof using All.
  intros Hi Hr E. destruct (compileEgressGuardRuleset old) as [rg|] eqn:Hg; [|unfold egressGuardUp in E; by rewrite Hg in E].
  destruct (firewall_op_spec _ _ _ _ _ _ _ (op_egressGuardUp old rg Hg) E) as (Ho&_&Hdone). split; [split|].
  - intros rs [= <-]%(eq_trans (eq_sym Hg)). by apply Hdone.
  - intros rs Hen Hc. eapply installed_elsewhere; [by eapply gateway_elsewhere|done|by apply Hi].
  - intros Hen rs Hc. eapply removed_elsewhere; [by eapply gateway_elsewhere|done|by apply Hr].
Qed.
Lemma rollback_gateway old next s s' :
  (if gw_Enabled (c_Gateway old) then gatewayUp old else gatewayDown next) s = (Ok tt, s') →
  (∀ rs, gw_Enabled (c_Gateway old) = true → compileGatewayRuleset old = Ok rs → installed rs (tabs s')) ∧
  (gw_Enabled (c_Gateway old) = false → ∀ rs, compileGatewayRuleset next = Ok rs → removed rs (tabs s')).
Proof using All.
  destruct (gw_Enabled (c_Gateway old)) eqn:Hen; intros E; (split; [|done]) || split; try done.
  - intros rs _ Hc. destruct (firewall_op_spec _ _ _ _ _ _ _ (op_gatewayUp old rs Hen Hc) E) as (_&_&Hdone). by apply Hdone.
  - intros _ rs Hc. destruct (firewall_op_spec _ _ _ _ _ _ _ (op_gatewayDown next rs Hc) E) as (_&_&Hdone). by apply Hdone.
Qed.
Lemma rollback_restores old next e s r s' : settled (c_Tunnels old) → rollbackKernelApply old next e s = (r, s') →
  ∃ complaints, r = Err (foldl Joined e complaints) ∧ (complaints = [] → restored old next s').
Proof using All.
  intros [Hnames Hprios Hts] E. unfold rollbackKernelApply in E.
  apply M_bind_inv in E as [(?&[? ?]%gather_ok&_)|(a&s1&_&E)]; [done|apply rollback_tunnel_ok|].
  apply M_bind_inv in E as [(?&[? ?]%collect_ok&_)|(b&s2&E2&E)]; [done|].
  apply M_bind_inv in E as [(?&[? ?]%step_errors_ok&_)|(c&s3&(rc&Ec&[= ->])%step_errors_inv&E)]; [done|].
  apply M_bind_inv in E as [(?&[? ?]%step_errors_ok&_)|(d&s4&(rd&Ed&[= ->])%step_errors_inv&[= <- <-])]; [done|].
  eexists. split; [done|]. intros [_ [-> [Hc%errors_of_nil Hd%errors_of_nil]%app_nil]%app_nil]%app_nil. subst rc rd.
  apply collect_clean, (each_on_kernel tunnelUp) in E2 as [E2 _]; [|done].
  apply (each_tunnelUp _ []) in E2; [|by eapply Forall_impl; [exact Hts|intros t [? _]]|done..].
  assert (same (sees s2.1) (sees s4.1)) as Hs.
  { etrans; [|by eapply egressGuardUp_still]. revert Ec. destruct (gw_Enabled _); [apply gatewayUp_still|apply gatewayDown_still]. }
  split; [|apply rollback_gateway in Ec as [??]; by eapply guard_after_gateway].
  eapply Forall_impl; [exact E2|]. intros t Hup. apply serves_up. apply serves_up in Hup. by eapply serves_same.
Qed.

(** C2: a reload that fails either changed nothing, or rolled back: its error starts
    with why the application of the candidate failed, and if the roll-back adds no complaint every tunnel of the
    old configuration is up, the old guard and gateway are installed, and if the old
    one had no gateway the candidate's chains are gone. *)
Theorem applyReload_failed old next s e s' : settled (c_Tunnels old) → applyReload old next s = (Err e, s') →
  same (sees s.1) (sees s'.1) ∧ tabs s' = tabs s ∨
  ∃ s1 s2 why complaints, same (sees s.1) (sees s1.1) ∧ tabs s1 = tabs s ∧ apply_config old next s1 = (Err why, s2) ∧
    e = foldl Joined why complaints ∧ (complaints = [] → restored old next s').
Proof using All.
  intros Hold [(?&?&_)|(s1&r2&s2&?&?&?&E)]%applyReload_inv; [by left|]. destruct r2 as [[]|why]; [by destruct E as [? _]|].
  right. destruct (rollback_restores _ _ _ _ _ _ Hold E) as (complaints&[= ->]&Hr). exists s1, s2, why, complaints. auto.
Qed.
End done.

(** ** The example: start, reload, failed reload *)
Module DaemonDemo.
Import (hints) WgKernel.Demo GatewaySpec.Toy StatusDemo.
#[local] Instance demo_unicode : UnicodeTables := {| unicode_to_lower := λ s, s |}.
Abbreviation toy_host := (host view GatewaySpec.Toy.firewall).

Definition with_tunnel (t : Tunnel) : Config := with_tunnels PlanDemo.cfg [t].
(** The tunnel of the example with its mark, table and priority moved. *)
Definition moved (address key : string) : Tunnel :=
  let t := WgKernel.Demo.tunnel in
  {| t_Name := t_Name t; t_PrivateKey := key; t_Address := address; t_MTU := t_MTU t; t_Fwmark := 52; t_FwmarkMask := 255;
     t_Table := 52; t_RulePriority := 31001; t_AdoptExisting := t_AdoptExisting t; t_Routes := t_Routes t;
     t_RouteSources := t_RouteSources t; t_Peer := t_Peer t; t_Resolver := t_Resolver t |}.
Definition cfg : Config := with_tunnel WgKernel.Demo.tunnel.
Definition next : Config := with_tunnel (moved "10.0.0.2/24" "key").
(** Another address of the same subnet; a key that the link does not have. *)
Definition renumbered : Config := with_tunnel (moved "10.0.0.3/24" "key").
Definition broken : Config := with_tunnel (moved "10.0.0.2/24" "other").

Definition started : result wg_error unit * toy_host := start_up cfg PlanDemo.before.
Definition reloaded : result wg_error unit * toy_host := applyReload cfg next started.2.
Definition refused : result wg_error unit * toy_host := applyReload cfg broken started.2.
Lemma all_run : is_ok started.1 = true ∧ is_ok reloaded.1 = true ∧ is_ok refused.1 = false.
Proof. vm_compute. auto. Qed.
Lemma started_run : start_up cfg PlanDemo.before = (Ok tt, started.2).
Proof.
  destruct all_run as (Hr&_). unfold started in *. destruct (start_up cfg PlanDemo.before) as [[[]|] s']; [|discriminate Hr]. reflexivity.
Qed.
Lemma reloaded_run : applyReload cfg next started.2 = (Ok tt, reloaded.2).
Proof.
  destruct all_run as (_&Hr&_). unfold reloaded in *. destruct (applyReload cfg next started.2) as [[[]|] s']; [|discriminate Hr]. reflexivity.
Qed.
Lemma refused_run : ∃ e, applyReload cfg broken started.2 = (Err e, refused.2).
Proof.
  destruct all_run as (_&_&Hr). unfold refused in *. destruct (applyReload cfg broken started.2) as [[[]|e] s']; [discriminate Hr|].
  exists e. reflexivity.
Qed.

Lemma demo_settled t : t_Table t = 51%Z ∨ t_Table t = 52%Z → t_Fwmark t = 51%Z ∨ t_Fwmark t = 52%Z → routes t = routes WgKernel.Demo.tunnel →
  settled (c_Tunnels (with_tunnel t)).
Proof.
  intros Ht Hm Hr. split; [apply NoDup_singleton..|]. apply Forall_singleton. unfold plumbable, is_u32, mainTable. rewrite Hr.
  split_and!; [lia|exact (proj2 demo_plumbable)|lia..].
Qed.
Lemma cfg_settled : settled (c_Tunnels cfg).
Proof. apply demo_settled; [by left..|done]. Qed.
Lemma next_settled : settled (c_Tunnels next).
Proof. apply demo_settled; [by right..|done]. Qed.
Lemma demo_no_takeover : no_takeover cfg next.
Proof. by intros t p ->%list_elem_of_singleton ->%list_elem_of_singleton. Qed.
Lemma started_nosrc : nosrc (sees started.2.1).
Proof.
  assert (forallb (λ r, bool_decide (r_Src r = None)) (v_routes (sees started.2.1)) = true) as Hb by (vm_compute; reflexivity).
  rewrite forallb_forall in Hb. intros r Hr%list_elem_of_In%Hb _. by apply bool_decide_eq_true in Hr.
Qed.

Lemma host_op_spares_witness : spared [WgKernel.Demo.tunnel; moved "10.0.0.2/24" "key"] started.2 reloaded.2.
Proof.
  apply (host_op_spares [cfg; next] _ started.2 (op_applyReload cfg next)).
  repeat apply Forall_cons_2; [apply (settled_in _ _ cfg_settled); by left|apply (settled_in _ _ next_settled); by left|constructor].
Defined.
Definition ran : result wg_error (result wg_error unit * option reconcileStatus) * toy_host :=
  runUp StatusDemo.written cfg None None PlanDemo.before.
Lemma ran_Ok : match ran.1 with Ok (r, _) => is_ok r | Err _ => false end = true.
Proof. vm_compute. reflexivity. Qed.
Lemma runUp_done_witness : tunnel_is_up WgKernel.Demo.tunnel (sees ran.2.1).
Proof.
  apply (Forall_singleton (λ t, tunnel_is_up t (sees ran.2.1))).
  destruct (runUp_done StatusDemo.written cfg None None PlanDemo.before ran.1 ran.2 cfg_settled (surjective_pairing _)) as (r&file&Hr&Hd).
  pose proof ran_Ok as Hok. rewrite Hr in Hok. destruct r as [[]|]; [|discriminate Hok]. exact (proj1 (proj2 (Hd eq_refl))).
Defined.
Lemma applyReload_done_witness : serves true (moved "10.0.0.2/24" "key") (sees reloaded.2.1).
Proof.
  assert (readdressed cfg (moved "10.0.0.2/24" "key") = false) as Hr by (vm_compute; reflexivity).
  change true with (negb false). rewrite <-Hr. apply (Forall_singleton (λ t, serves (negb (readdressed cfg t)) t (sees reloaded.2.1))).
  exact (proj1 (applyReload_done cfg next started.2 reloaded.2 cfg_settled next_settled demo_no_takeover started_nosrc
    (proj1 (start_up_works cfg PlanDemo.before started.2 cfg_settled started_run)) reloaded_run)).
Defined.
Lemma applyReload_failed_witness : ∃ e, refused.1 = Err e ∧
  (same (sees started.2.1) (sees refused.2.1) ∧ tabs refused.2 = tabs started.2 ∨
   ∃ s1 s2 why complaints, same (sees started.2.1) (sees s1.1) ∧ tabs s1 = tabs started.2 ∧
     apply_config cfg broken s1 = (Err why, s2) ∧
     e = foldl Joined why complaints ∧ (complaints = [] → restored cfg broken refused.2)).
Proof.
  destruct refused_run as [e He]. exists e. split; [unfold refused; rewrite He; reflexivity|].
  exact (applyReload_failed cfg broken started.2 e refused.2 cfg_settled He).
Defined.

(** The roll-back of the example has nothing to complain about. *)
Example refused_restored : refused.1 = Err (Refused "wg0" "same-name link without the expected ownership marker").
Proof. vm_compute. reflexivity. Qed.
(** A reload to another address of the subnet leaves the tunnel without one: the new
    address is added while the old one is there, as its secondary, and goes with it,
    and with the last address go the daemon's routes. *)
Example renumbered_loses_address :
  (applyReload cfg renumbered started.2).1 = Ok tt ∧ v_addrs (sees (applyReload cfg renumbered started.2).2.1) = [] ∧
  pick (own_on demo_link) (v_routes (sees (applyReload cfg renumbered started.2).2.1)) = [].
Proof. vm_compute. auto. Qed.
End DaemonDemo.
