(* ===== verification/DaemonLoop.v ===== *)
(** * main.go: the main loop

    Whatever the order of ticks, signals, fetched routes and what others do to the
    host, all parts of the daemon follow one configuration that was loaded, and the
    loop never panics; what a repair by the watchdog means. *)
From S2P Require Import Prelude Netip Registry Health Firewall RouteSource Config Startup Router Server KernelPlan Netlink Wg WgKernel.
From S2P Require Import WgFrame WgSpec WgTunnel Gateway GatewaySpec Plan PlanSpec Updater Status StatusSpec Manage.
From S2P Require Import Daemon DaemonFrame DaemonUp.

(** ** Routes do not matter to the router *)
Section routes.
Context (f : Tunnel → Tunnel) (Hname : ∀ t, t_Name (f t) = t_Name t) (Hmark : ∀ t, t_Fwmark (f t) = t_Fwmark t)
  (Hres : ∀ t, t_Resolver (f t) = t_Resolver t).
Context (c : Config).
Abbreviation c' := (with_tunnels c (f <$> c_Tunnels c)).

Lemma find_tunnel {B} (P : Tunnel → Prop) `{∀ t, Decision (P t)} (g : Tunnel → B) (d : B) :
  (∀ t, P (f t) ↔ P t) → (∀ t, g (f t) = g t) →
  match list_find P (f <$> c_Tunnels c) with Some (_, t) => g t | None => d end =
  match list_find P (c_Tunnels c) with Some (_, t) => g t | None => d end.
Proof using Type.
  intros HP Hg. rewrite list_find_fmap. rewrite (list_find_ext (P ∘ f) P) by (intros; apply HP).
  by destruct (list_find P (c_Tunnels c)) as [[i t]|]; cbn; rewrite ?Hg.
Qed.
Lemma foldl_tunnel {B} (g : B → Tunnel → B) b : (∀ b t, g b (f t) = g b t) → foldl g b (f <$> c_Tunnels c) = foldl g b (c_Tunnels c).
Proof using Type.
  intros Hg. generalize (c_Tunnels c). intros l. revert b. induction l as [|t l IH]; intros b; [done|]. cbn. by rewrite Hg, IH.
Qed.

Lemma markFor_routes via : markFor c' via = markFor c via.
Proof using Hname Hmark.
  unfold markFor. cbn [with_tunnels c_Tunnels]. destruct (_ || _); [done|]. apply find_tunnel; [|done]. intros t. by rewrite Hname.
Qed.
Lemma resolversFor_routes mark : resolversFor c' mark = resolversFor c mark.
Proof using Hmark Hres.
  unfold resolversFor. cbn [with_tunnels c_Tunnels c_Proxy]. apply find_tunnel; [|done]. intros t. by rewrite Hmark, Hres.
Qed.
Lemma destination_routes : newDestinationPolicy c' = newDestinationPolicy c.
Proof using Hname Hmark.
  unfold newDestinationPolicy. cbn [with_tunnels c_Tunnels c_Proxy]. f_equal. apply foldl_tunnel. intros b t. by rewrite Hname, Hmark.
Qed.
Lemma names_routes : tunnelNamesByMark c' = tunnelNamesByMark c.
Proof using Hname Hmark. apply foldl_tunnel. intros b t. by rewrite Hname, Hmark. Qed.
Lemma tunnel_resolver_routes mark : tunnel_resolver c' mark = tunnel_resolver c mark.
Proof using Hname Hmark Hres. unfold tunnel_resolver. by rewrite resolversFor_routes, destination_routes. Qed.
Lemma newResolvers_routes : newResolvers c' = newResolvers c.
Proof using Hname Hmark Hres.
  unfold newResolvers. cbn [with_tunnels c_Tunnels c_Proxy].
  rewrite (foldl_tunnel (λ (m : gmap Z egressResolver) t, <[t_Fwmark t := tunnel_resolver c' (t_Fwmark t)]> m)) by (intros; by rewrite Hmark).
  assert (∀ l b, foldl (λ (m : gmap Z egressResolver) t, <[t_Fwmark t := tunnel_resolver c' (t_Fwmark t)]> m) b l =
    foldl (λ (m : gmap Z egressResolver) t, <[t_Fwmark t := tunnel_resolver c (t_Fwmark t)]> m) b l) as Hl; [|apply Hl].
  induction l as [|t l IH]; intros b; [done|]. cbn [foldl]. by rewrite tunnel_resolver_routes, IH.
Qed.
Lemma router_routes {E} hm generation : newRouterGeneration (E := E) c' hm generation = newRouterGeneration c hm generation.
Proof using Hname Hmark Hres.
  assert (∀ via, markRefFor c' hm via = markRefFor c hm via) as Hm by (intros; unfold markRefFor; by rewrite markFor_routes).
  unfold newRouterGeneration, newDNSCacheForConfig. rewrite names_routes, destination_routes, newResolvers_routes, Hm. cbn [with_tunnels c_Proxy].
  change (config_dns_policy c') with (config_dns_policy c). destruct (newDNSCacheWithPolicy _ _ _ _) as [d|]; [|done].
  do 3 f_equal. f_equal. apply list_fmap_ext. intros i r _. by rewrite Hm.
Qed.
End routes.

(** ** One configuration *)
Create HintDb consistent.
(** The configuration with some fetched routes merged in, or as it is. *)
Definition follows (c cfg : Config) : Prop := cfg = c ∨ ∃ fetched, cfg = merge_base fetched c.
Lemma follows_router {E} c cfg hm generation : follows c cfg →
  newRouterGeneration (E := E) cfg hm generation = newRouterGeneration c hm generation.
Proof. intros [->|[fetched ->]]; [done|]. by apply router_routes. Qed.

Section loop.
Context {K F Cl : Type} `{NetlinkLaws K} `{IptablesLaws F} `{WgKeys} `{ErrorText} `{Float64} `{Monitor.DeviceClient Cl}.
Context (loaded : Config → Prop) (toASCII : string → option string) (ParseKey : string → bool).
Context (Hloaded : ∀ c, loaded c → ∃ decode raw, parseConfig toASCII ParseKey decode raw = Ok c).
Implicit Types (d : daemon (K:=K) (F:=F)) (e : env).

(** All parts of the daemon follow [c]: the configuration it works with, the base of
    the updater, the router new connections get and the published list. *)
Record consistent (c : Config) d : Prop := {
  co_cfg : follows c (d_cfg d);
  co_updater : match d_updater d with
               | Some u => u_base u = c
               | None => d_cfg d = c ∧ d_queue d = None ∧ d_phase d = Idle end;
  co_router : ∃ hm generation x, newRouterGeneration (E := unit) c hm generation = Some (srv_rt (d_srv d), x);
  co_list : ∀ body, d_list d = Some body → body = list_body (d_cfg d) }.

Lemma loaded_router c hm generation : loaded c → ∃ rt x, newRouterGeneration (E := unit) c hm generation = Some (rt, x).
Proof using Hloaded.
  intros (decode&raw&Hp)%Hloaded. destruct (parseConfig_validated toASCII ParseKey decode raw c Hp) as (_&seen&groups&Hval&_).
  edestruct dns_starts as [dc Hd]; [exact Hval|]. unfold newRouterGeneration. rewrite Hd. eauto.
Qed.
Lemma with_host_consistent c d h file : consistent c d → consistent c (with_host d h file).
Proof using Type. by intros [????]. Qed.
Lemma with_watch_consistent c d w : consistent c d → consistent c (with_watch d w).
Proof using Type. by intros [????]. Qed.
Lemma with_registry_consistent c d r : consistent c d → consistent c (with_registry d r).
Proof using Type. by intros [????]. Qed.
Lemma with_health_consistent c d hm r probes : consistent c d → consistent c (with_health d hm r probes).
Proof using Type. by intros [????]. Qed.
Lemma with_updater_consistent c d u phase queue : u_base u = c → consistent c d → consistent c (with_updater d (Some u) phase queue).
Proof using Type. by intros ? [????]. Qed.
Hint Resolve with_host_consistent with_watch_consistent with_registry_consistent with_health_consistent with_updater_consistent : consistent.

Lemma boot_consistent e cfg cache h file hm rt x : newRouterGeneration (E := unit) cfg hm NewGenerations = Some (rt, x) →
  consistent cfg (boot e cfg cache h file hm rt).
Proof using Type.
  intros Hrt. split; cbn; [by left| |by eauto|].
  - by destruct (needsRouteUpdater cfg).
  - intros body. destruct (list_served cfg); [by intros [= <-]|done].
Qed.
Lemma refresh_consistent e c d : consistent c d → consistent c (refresh e d).
Proof using Type.
  intros [Hcfg Hu Hrt Hl]. unfold refresh. destruct (d_queue d) as [queued|] eqn:Hq; [|by split; rewrite ?Hq].
  destruct (applyRoutes _ _ _ _) as [r h]. destruct (d_updater d) as [u|] eqn:Eu; [|by destruct Hu as (_&[=]&_)].
  split; cbn; rewrite ?Eu; [|done..|].
  - right. exists (u_fetched u). cbn. unfold Merge, MergeBase. by rewrite Hu.
  - intros body. destruct (d_list d); cbn; [by intros [= <-]|done].
Qed.
(** Nothing changes but the host, the status file and the registry. *)
Definition kept d d' : Prop := d' = with_registry (with_host d (d_host d') (d_file d')) (d_registry d').
Lemma kept_consistent c d d' : kept d d' → consistent c d → consistent c d'.
Proof using Type. intros ->. eauto with consistent. Qed.
Lemma reject_kept e d why : kept d (reject_reload e d why).
Proof using Type. by destruct d. Qed.

(** A reload takes over everything or nothing. *)
Lemma hangup_cases e d new wgctrl cache : (∀ c, new = Ok c → loaded c) → (∃ c, consistent c d) →
  ∃ d', hangup e d new wgctrl cache = Some d' ∧ (kept d d' ∨ ∃ newCfg, new = Ok newCfg ∧ consistent newCfg d').
Proof using Hloaded.
  intros Hc [c [Hcfg Hu Hrt Hl]]. unfold hangup. destruct new as [newCfg|why]; [|eauto using reject_kept].
  destruct (reloadRequiresRestart _ _); [eauto using reject_kept|]. cbv zeta.
  set (next := match d_updater d with Some u => _ | None => _ end).
  assert (follows newCfg next) as Hf by (unfold next; destruct (d_updater d); [right; eexists; done|by left]).
  destruct (NewHealthMonitor wgctrl next) as [candidate|]; [|eauto using reject_kept]. destruct (applyReload _ _ _) as [[[]|err] h].
  2: { destruct (measureAndRecordDrift _ _ _ _ _) as [r h']. eexists. split; [done|]. left. by destruct d. }
  rewrite (follows_router newCfg next) by done.
  destruct (loaded_router newCfg candidate (Advance (srv_generation (d_srv d)))) as (rt&x&Hnew); [by apply Hc|]. rewrite Hnew.
  eexists. split; [done|]. right. exists newCfg. split; [done|]. unfold commit_reload.
  destruct (next_updater d newCfg cache) as [u phase] eqn:En. destruct (measureAndRecordDrift _ _ _ _ _) as [r h'].
  apply with_registry_consistent. split; cbn; [done| |by eauto|].
  - unfold next_updater in En. unfold next. destruct (d_updater d) as [u0|]; [by injection En as <- <-|].
    destruct (needsRouteUpdater newCfg); injection En as <- <-; [done|]. by destruct Hu as (_&->&_).
  - intros body. destruct (d_list d); cbn; [by intros [= <-]|done].
Qed.

(** The steps of the updater. *)
Lemma updater_consistent e c d ev : consistent c d →
  match ev with StartCycle | FetchNext _ | MergeFetched | Enqueue | Mirror _ => True | _ => False end →
  ∃ d', handle e d ev = Some d' ∧ consistent c d'.
Proof using Type.
  intros Hd Hev. pose proof (co_updater _ _ Hd) as Hu. destruct ev; try done; cbn [handle]; (eexists; split; [done|]).
  - unfold start_cycle. destruct (d_updater d); [|done]. destruct (d_phase d); eauto with consistent.
  - unfold fetch_next. destruct (d_updater d); [|done]. destruct (d_phase d) as [|seen [|s l]| |]; [done..| |done|done].
    case_bool_decide; auto with consistent.
  - unfold merge_fetched. destruct (d_updater d); [|done]. destruct (d_phase d) as [|seen [|s l]| |]; auto with consistent.
  - unfold enqueue. destruct (d_phase d) as [| |m mirrors|]; [done..| |done]. destruct (d_queue d); [done|].
    destruct (d_updater d); [by apply with_updater_consistent|]. by destruct Hu as (_&_&[=]).
  - unfold mirror. destruct (d_updater d) as [u|]; [|done]. destruct (d_phase d); [done..|].
    apply with_updater_consistent.
    + unfold mirrorToPfSense. destruct (u_pf u) as [pf|], (mirrored u); try done. by destruct (Reconcile _ _ _) as [[??]?].
    + destruct (u_pf u), (mirrored u), (mirrorToPfSense push u).1 as [[o sent]|]; auto with consistent.
Qed.

(** The events of a run load their configurations. *)
Definition event_loads (ev : event (Cl:=Cl)) : Prop := ∀ c wgctrl cache, ev = Hangup (Ok c) wgctrl cache → loaded c.
Lemma handle_consistent e c d ev : loaded c → consistent c d → event_loads ev →
  ∃ d' c', handle e d ev = Some d' ∧ loaded c' ∧ consistent c' d'.
Proof using Hloaded.
  intros Hc Hd He.
  assert (match ev with StartCycle | FetchNext _ | MergeFetched | Enqueue | Mirror _ => True | _ => False end →
    ∃ d' c', handle e d ev = Some d' ∧ loaded c' ∧ consistent c' d') as Hup.
  { intros (d'&?&?)%(updater_consistent e c d ev Hd). eauto. }
  destruct ev as [| |new wgctrl cache| | | | | | |client|target x|probes target x|]; auto; clear Hup;
    cbn [handle]; try (eexists _, c; split_and!; [done..|]).
  - unfold tick. destruct (repair _ _ _ _ _) as [[[[o w] file]|] h]; auto with consistent.
  - by apply refresh_consistent.
  - destruct (hangup_cases e d new wgctrl cache) as (d'&->&[Hk|(newCfg&->&Hd')]); [intros ? ->; by eapply He|by exists c|..].
    + eexists _, c. split_and!; [done..|]. by eapply kept_consistent.
    + eexists _, newCfg. split_and!; [done|by eapply He|done].
  - destruct Hd as [Hcfg Hu Hrt Hl]. split; try done. cbn. destruct Hrt as (hm&g&x&Hrt). exists hm, g, x. rewrite Hrt.
    unfold Stop_begin. by destruct (srv_stopping _).
  - unfold polled. destruct (d_hm d); auto with consistent.
  - unfold probed_result. case_bool_decide; [|done]. destruct (observe_probe _ _ _ _ _); auto with consistent.
  - unfold stale_result. auto with consistent.
  - auto with consistent.
Qed.
Lemma runs_consistent d : runs (Cl:=Cl) loaded d → ∃ c, loaded c ∧ consistent c d.
Proof using Hloaded.
  induction 1 as [e cfg cache hm rt x h h' file file' Hc _ _ Hrt|e d ev d' _ (c&Hc&Hd) _ He Hh|d h file _ (c&Hc&Hd)].
  - exists cfg. split; [done|]. by eapply boot_consistent.
  - destruct (handle_consistent e c d ev Hc Hd He) as (d2&c'&Hh'&?&?). rewrite Hh in Hh'. injection Hh' as <-. eauto.
  - exists c. split; [done|]. by apply with_host_consistent.
Qed.

(** C4: however ticks, reloads, fetches, refreshes, polls, probes and requests
    interleave, and whatever others do to the host and to the status file, the
    configuration of the main loop, the base of the updater, the router and the
    published list all follow one configuration that was loaded: a refresh merged
    before a reload never brings the old one back.  The loop never panics.  A reload
    either takes over all of them or, when it is refused or fails, changes nothing but
    the host, the recorded status and the registry. *)
Theorem daemon_consistent d : runs (Cl:=Cl) loaded d →
  (∃ c, loaded c ∧ consistent c d) ∧ (∀ e ev, event_loads ev → is_Some (handle e d ev)) ∧
  ∀ e new wgctrl cache d', (∀ c, new = Ok c → loaded c) → handle (Cl:=Cl) e d (Hangup new wgctrl cache) = Some d' →
    kept d d' ∨ ∃ newCfg, new = Ok newCfg ∧ consistent newCfg d'.
Proof using All.
  intros Hd%runs_consistent. split; [done|]. destruct Hd as (c&Hc&Hd). split.
  - intros e ev He. destruct (handle_consistent e c d ev Hc Hd He) as (d'&_&->&_). done.
  - intros e new wgctrl cache d' Hn Hh. destruct (hangup_cases e d new wgctrl cache Hn) as (d2&Hh'&Hcase); [by exists c|].
    cbn [handle] in Hh. rewrite Hh in Hh'. by injection Hh' as <-.
Qed.
End loop.

(** ** The watchdog *)
Section repair.
Context {K F : Type} `{NetlinkLaws K} `{IptablesLaws F} `{WgKeys} `{ErrorText}.
Implicit Types s : host K F.

(** What the watchdog found at [s1], when it is at [s'] after recording. *)
Lemma found_order cfg s0 s1 s' : plannable (c_Tunnels cfg) → Forall rule_typed (v_rules (sees s'.1)) →
  pendingChanges cfg s0 = (Ok ([], false), s1) → same (sees s1.1) (sees s'.1) → tabs s' = tabs s1 → in_order cfg s'.
Proof using All.
  intros Hpl Ht E Hs Htab. apply (in_order_same cfg s1 s' Hs Htab). eapply pendingChanges_order; [done| |exact E].
  destruct Hs as (_&_&_&Hu). by rewrite Hu.
Qed.
(** What was recorded vouches for the host, if it could be written. *)
Definition records (io : status_io) (cfg : Config) (errs : list wg_error) s (file : option reconcileStatus) : Prop :=
  io_written io = true → ∃ st, file = Some st ∧ vouches cfg errs s st.
Lemma recording io cfg errs file s r s' : plannable (c_Tunnels cfg) → Forall rule_typed (v_rules (sees s'.1)) →
  measureAndRecordDrift io cfg errs file s = (r, s') →
  ∃ file', r = Ok file' ∧ same (sees s.1) (sees s'.1) ∧ tabs s' = tabs s ∧ records io cfg errs s' file'.
Proof using All.
  intros Hpl Ht E. destruct (reads_measureAndRecordDrift _ _ _ _ _ _ _ E) as [Hs Htab].
  destruct (measureAndRecordDrift_vouches _ _ _ _ _ _ _ Hpl Ht E) as (file'&->&Hw). exists file'. do 3 (split; [done|]).
  intros Hio. by rewrite Hio in Hw.
Qed.

(** [s'] is what reapplying the owned state without an error made of [s], where a
    measurement had found something to do and nothing blocking. *)
Definition reapplied (cfg : Config) s s' : Prop := ∃ changes s0,
  pendingChanges cfg s = (Ok (changes, false), s0) ∧ changes ≠ [] ∧ same (sees s.1) (sees s0.1) ∧ tabs s0 = tabs s ∧
  reapplyOwnedState cfg s0 = (Ok tt, s').
Lemma reapply_guarded cfg s s' : reapplyOwnedState cfg s = (Ok tt, s') → guarded cfg s'.
Proof using All.
  unfold reapplyOwnedState. intros [(?&[? ?]%step_errors_ok&_)|(a&s1&(ra&Ea&[= ->])%step_errors_inv&E)]%M_bind_inv; [done|].
  apply M_bind_inv in E as [(?&[? ?]%collect_ok&_)|(b&s2&Eb&E)]; [done|].
  apply M_bind_inv in E as [(?&[? ?]%step_errors_ok&_)|(c&s3&(rc&Ec&[= ->])%step_errors_inv&E)]; [done|].
  apply join_inv in E as [<- Hj]. pose proof (proj1 Hj eq_refl) as Hnil. apply app_nil in Hnil as [Ha%errors_of_nil [_ Hc%errors_of_nil]%app_nil].
  subst ra rc. eapply gatewayUp_guarded; [|exact Ec]. rewrite (collect_kernel_tabs _ _ _ _ _ Eb). by eapply egressGuardUp_done.
Qed.
Lemma repair_cases io cfg w file s r s' : plannable (c_Tunnels cfg) → Forall rule_typed (v_rules (sees s'.1)) →
  repair io cfg w file s = (r, s') →
  ∃ outcome w' file', r = Ok (outcome, w', file') ∧
  match outcome with
  | MeasureFailed => same (sees s.1) (sees s'.1) ∧ tabs s' = tabs s ∧ file' = file
  | RepairRefused => same (sees s.1) (sees s'.1) ∧ tabs s' = tabs s ∧
      (io_written io = true → ∃ st, file' = Some st ∧ ks_LastApplySuccess st = false)
  | InSync => same (sees s.1) (sees s'.1) ∧ tabs s' = tabs s ∧ (if drift_recorded file then records io cfg [] s' file' else file' = file) ∧
              ∃ s1 blocking, pendingChanges cfg s = (Ok ([], blocking), s1) ∧ (blocking = false → in_order cfg s')
  | Repaired => records io cfg [] s' file' ∧ guarded cfg s' ∧ ∃ s1 s2 blocking, reapplied cfg s s1 ∧
              pendingChanges cfg s1 = (Ok ([], blocking), s2) ∧ same (sees s1.1) (sees s'.1) ∧ tabs s' = tabs s1 ∧ (blocking = false → in_order cfg s')
  | RepairFailed => ∃ errs, records io cfg errs s' file'
  end.
Proof using All.
  intros Hpl Ht [(?&(?&?&?)%attempt_inv&_)|(p&s1&(?&[= <-]&E1)%attempt_inv&E)]%M_bind_inv; [done|].
  destruct (reads_pendingChanges cfg s _ _ E1) as [Hs Htab]. destruct p as [[[|x changes] blocking]|e].
  - apply M_bind_inv in E as [(?&E&->)|(file'&s2&E2&[= <- ->])].
    { destruct (drift_recorded file); [|done]. by apply measureAndRecordDrift_total in E as [? ?]. }
    eexists InSync, _, _. split; [done|]. destruct (drift_recorded file).
    + destruct (recording _ _ _ _ _ _ _ Hpl Ht E2) as (?&[= <-]&Hs2&Htab2&Hrec). split; [by etrans|]. split; [congruence|]. split; [done|].
      exists s1, blocking. split; [done|]. intros ->. by eapply found_order.
    + injection E2 as <- <-. do 3 (split; [done|]). exists s1, blocking. split; [done|]. intros ->. by eapply found_order.
  - destruct blocking.
    { apply M_bind_inv in E as [(?&E&->)|(file'&s2&E2&[= <- ->])]; [by apply measureAndRecordDrift_total in E as [? ?]|].
      eexists RepairRefused, _, _. split; [done|]. destruct (reads_measureAndRecordDrift _ _ _ _ _ _ _ E2) as [Hs2 Htab2].
      split; [by etrans|]. split; [congruence|]. intros Hio. eapply measureAndRecordDrift_error; [|done|exact E2]; done. }
    apply M_bind_inv in E as [(?&(?&?&?)%attempt_inv&_)|(r2&s2&(?&[= <-]&E2)%attempt_inv&E)]; [done|].
    apply M_bind_inv in E as [(?&(?&?&?)%attempt_inv&_)|(r3&s3&(?&[= <-]&E3)%attempt_inv&E)]; [done|].
    apply M_bind_inv in E as [(?&E&->)|(file'&s4&E4&E)]; [by apply measureAndRecordDrift_total in E as [? ?]|].
    assert (s4 = s') as -> by (by destruct r2, r3 as [[[]]|]; injection E).
    destruct (recording _ _ _ _ _ _ _ Hpl Ht E4) as (?&[= <-]&Hs4&Htab4&Hrec).
    destruct r2 as [[]|], r3 as [[[|y rest] blocking]|]; injection E as <-; try (eexists RepairFailed, _, _; by eauto).
    destruct (reads_pendingChanges cfg s2 _ _ E3) as [Hs3 Htab3].
    assert (same (sees s2.1) (sees s'.1) ∧ tabs s' = tabs s2) as [Hs' Htab'] by (split; [by etrans|congruence]).
    eexists Repaired, _, _. split; [done|]. split; [done|]. split; [unfold guarded; rewrite Htab'; by apply (reapply_guarded cfg s1)|].
    exists s2, s3, blocking. split_and!; [by eexists _, s1|done..|]. intros ->. by eapply found_order.
  - injection E as <- <-. by eexists MeasureFailed, _, _.
Qed.

(** C8: a tick of the watchdog that cannot measure, that finds nothing to do or that
    refuses to act over blocking drift changes nothing on the host.  One that reports a
    repair has reapplied the owned state without an error, leaves the host as that made
    it, with the chains of the firewall installed, and its second measurement found
    nothing left to do there.  One that finds nothing to do, or that reports a repair,
    leaves everything the planner knows of in place, unless the measurement met blocking
    drift, at which neither of the two looks.  A refusal is recorded as a failed apply;
    what a repair records vouches for the host it leaves.  It always ends with one of its
    outcomes. *)
Theorem repair_sound io cfg w file s r s' : plannable (c_Tunnels cfg) → Forall rule_typed (v_rules (sees s'.1)) →
  repair io cfg w file s = (r, s') →
  ∃ outcome w' file', r = Ok (outcome, w', file') ∧
  match outcome with
  | MeasureFailed => same (sees s.1) (sees s'.1) ∧ tabs s' = tabs s ∧ file' = file
  | RepairRefused => same (sees s.1) (sees s'.1) ∧ tabs s' = tabs s ∧
      (io_written io = true → ∃ st, file' = Some st ∧ ks_LastApplySuccess st = false)
  | InSync => same (sees s.1) (sees s'.1) ∧ tabs s' = tabs s ∧ (if drift_recorded file then records io cfg [] s' file' else file' = file) ∧
              ∃ s1 blocking, pendingChanges cfg s = (Ok ([], blocking), s1) ∧ (blocking = false → in_order cfg s')
  | Repaired => records io cfg [] s' file' ∧ guarded cfg s' ∧ ∃ s1 s2 blocking, reapplied cfg s s1 ∧
              pendingChanges cfg s1 = (Ok ([], blocking), s2) ∧ same (sees s1.1) (sees s'.1) ∧ tabs s' = tabs s1 ∧ (blocking = false → in_order cfg s')
  | RepairFailed => ∃ errs, records io cfg errs s' file'
  end.
Proof using All. by apply repair_cases. Qed.
End repair.

(** ** The example *)
Module LoopDemo.
Import (hints) WgKernel.Demo GatewaySpec.Toy StatusDemo.
#[local] Instance loop_unicode : UnicodeTables := {| unicode_to_lower := λ s, s |}.
#[export] Instance whole_seconds : Float64 :=
  {| float64 := Z; f_zero := 0%Z; f_add := Z.add; f_max0 := Z.max 0%Z; f_seconds := λ d, (d / second)%Z; f_string := itoa |}.
(** A client that knows no device. *)
#[export] Instance no_devices : Monitor.DeviceClient unit := {| Monitor.Device := λ c _, (None, c) |}.
Import DaemonDemo.
Definition fresh_watch : kernelWatch := {| lastSeen := "" |}.
Definition with_view (v : view) : toy_host := ((v, ∅), started.2.2).
Definition outcome_of (s : toy_host) : option repair_outcome :=
  match (repair StatusDemo.written cfg fresh_watch None s).1 with Ok (o, _, _) => Some o | Err _ => None end.
(** The started host without its rules, and without its addresses. *)
Definition lost_rules : toy_host :=
  let v := started.2.1.1 in with_view {| v_links := v_links v; v_addrs := v_addrs v; v_routes := v_routes v; v_rules := [] |}.
Definition lost_address : toy_host :=
  let v := started.2.1.1 in with_view {| v_links := v_links v; v_addrs := []; v_routes := v_routes v; v_rules := v_rules v |}.
(** A foreign rule in the place of the tunnel's. *)
Definition hijacked : toy_host :=
  let v := started.2.1.1 in
  with_view {| v_links := v_links v; v_addrs := v_addrs v; v_routes := v_routes v;
               v_rules := [{| ru_Priority := 31000; ru_Mark := 0; ru_Mask := None; ru_Table := 254; ru_Protocol := 4; ru_Other := 0 |}] |}.

Example outcomes : outcome_of started.2 = Some InSync ∧ outcome_of lost_rules = Some Repaired.
Proof. vm_compute. auto. Qed.
(** A missing address is seen at every tick and never put back. *)
Example address_not_repaired : outcome_of lost_address = Some RepairFailed ∧
  (pendingChanges cfg (repair StatusDemo.written cfg fresh_watch None lost_address).2).1 = Ok (["add address wg0/10.0.0.2/24"], false).
Proof. vm_compute. auto. Qed.
(** A foreign rule at the tunnel's priority passes for a host in sync. *)
Example hijacked_in_sync : outcome_of hijacked = Some InSync ∧ (pendingChanges cfg hijacked).1 = Ok ([], true).
Proof. vm_compute. auto. Qed.

Definition repaired : result wg_error (repair_outcome * kernelWatch * option reconcileStatus) * toy_host :=
  repair StatusDemo.written cfg fresh_watch None lost_rules.
Lemma repaired_typed : Forall rule_typed (v_rules (sees repaired.2.1)).
Proof.
  assert (forallb PlanDemo.typed_b (v_rules (sees repaired.2.1)) = true) as Hb by (vm_compute; reflexivity).
  rewrite forallb_forall in Hb. apply Forall_forall. intros r Hr%list_elem_of_In%Hb. revert Hr.
  unfold PlanDemo.typed_b, rule_typed, is_u32, u32_max. rewrite !andb_true_iff, !Z.leb_le. lia.
Qed.
Lemma repair_sound_witness : outcome_of lost_rules = Some Repaired ∧ ¬ in_order cfg lost_rules ∧ in_order cfg repaired.2.
Proof.
  split; [vm_compute; reflexivity|]. split.
  { intros (Hin&_). apply Forall_singleton in Hin as (link&_&_&_&_&(r&_&Hr)&_). apply Permutation_length in Hr. vm_compute in Hr. discriminate Hr. }
  destruct (repair_sound StatusDemo.written cfg fresh_watch None lost_rules repaired.1 repaired.2 PlanDemo.cfg_plannable repaired_typed
    (surjective_pairing _)) as (outcome&w'&file'&Hr&Ho).
  assert (outcome = Repaired) as ->.
  { assert (match repaired.1 with Ok (o, _, _) => o | Err _ => InSync end = Repaired) as Hc by (vm_compute; reflexivity). rewrite Hr in Hc. exact Hc. }
  destruct Ho as (_&_&s1&s2&blocking&(changes&s0&E0&_&_&_&E1)&E2&_&_&Hin). apply Hin.
  assert (s0 = (pendingChanges cfg lost_rules).2) as -> by (rewrite E0; reflexivity).
  assert (s1 = (reapplyOwnedState cfg (pendingChanges cfg lost_rules).2).2) as -> by (rewrite E1; reflexivity).
  assert (match (pendingChanges cfg (reapplyOwnedState cfg (pendingChanges cfg lost_rules).2).2).1 with Ok (_, b) => b | Err _ => true end = false) as Hb
    by (vm_compute; reflexivity).
  rewrite E2 in Hb. exact Hb.
Defined.

(** The daemon of the configuration of the examples. *)
#[local] Instance boot_keys : WgKeys := {|
  parse_key s := if bool_decide (s = "") then None else Some s; public_key s := s +:+ ".pub"; digest8 s := s;
  netlink_ParseAddr s := (λ p, {| n_ip := p_ip p; n_ones := p_bits p |}) <$> ParsePrefix s |}.
Definition the_demo (c : Config) : Prop := c = demo_loaded "wg0".
Definition demo_env : env :=
  {| en_io := StatusDemo.written; en_now := 7; en_elapsed := 0; en_aggregates := ∅; en_connects := ∅; en_dns := None; en_unreadable := "" |}.
Definition boot_run : result wg_error (result wg_error unit * option reconcileStatus) * toy_host :=
  runUp StatusDemo.written (demo_loaded "wg0") None None PlanDemo.before.
Lemma boot_Ok : match boot_run.1 with Ok (r, _) => is_ok r | Err _ => false end = true.
Proof. vm_compute. reflexivity. Qed.
Lemma demo_is_loaded c : the_demo c → ∃ decode raw, parseConfig Some (λ _, true) decode raw = Ok c.
Proof. intros ->. exists (λ _, Some (demo_config "wg0", AtEOF)), "". exact demo_parses. Qed.
Lemma boots : ∃ h file hm rt, runs (K:=view) (F:=GatewaySpec.Toy.firewall) (Cl:=unit) the_demo (boot demo_env (demo_loaded "wg0") None h file hm rt).
Proof.
  destruct (NewHealthMonitor true (demo_loaded "wg0")) as [hm|] eqn:Hhm; [|by vm_compute in Hhm].
  destruct (loaded_router the_demo Some (λ _, true) demo_is_loaded (demo_loaded "wg0") hm NewGenerations eq_refl) as (rt&x&Hrt).
  pose proof boot_Ok as Hok. unfold boot_run in Hok.
  destruct (runUp StatusDemo.written (demo_loaded "wg0") None None PlanDemo.before) as [[[[[]|] file']|] h'] eqn:Hs; [|discriminate Hok..].
  exists h', file', hm, rt. by eapply runs_boot.
Qed.
Lemma daemon_consistent_witness :
  ∃ d : daemon, runs (K:=view) (F:=GatewaySpec.Toy.firewall) (Cl:=unit) the_demo d ∧ is_Some (handle (Cl:=unit) demo_env d KernelTick).
Proof.
  destruct boots as (h&file&hm&rt&Hd). eexists. split; [exact Hd|].
  destruct (daemon_consistent the_demo Some (λ _, true) demo_is_loaded _ Hd) as (_&Hh&_). apply Hh. intros c wgctrl cache [=].
Defined.
End LoopDemo.
