(* ===== verification/ManageSpec.v ===== *)
(** * Readiness, and who may profile the daemon

    What GET /readyz says of a running daemon: it answers 200 exactly when the
    listeners are open and the recorded status is clean, and what a clean status that
    was just recorded means for the host.  The profiler is only served locally. *)
From S2P Require Import Prelude Netip Redact Registry Health ProxyDial DnsCache Firewall RouteSource Config Startup Router Server.
From S2P Require Import KernelPlan Netlink Wg WgKernel WgFrame WgSpec WgTunnel Gateway GatewaySpec Plan PlanSpec Updater.
From S2P Require Import Status StatusSpec Manage Daemon DaemonFrame DaemonUp DaemonLoop.

(** A literal component name is an allowed one. *)
Ltac allowed := apply (bool_decide_unpack _); vm_compute; exact I.

(** ** The components of the registry *)
Section registry.
Context `{Float64}.
Implicit Types r : Registry.

(** The components whose readiness follows the daemon's state. *)
Definition measured : list string := ["listeners"; "proxy"; "kernel"; "firewall"].
(** A required component that is not ready is a measured one. *)
Definition steady r : Prop := map_Forall (λ name c, unready (name, c) = true → name ∈ measured) (rg_components r).

Lemma SetComponent_components r now name required ready outcome err : name ∈ allowedComponents →
  ∃ c, rg_components (SetComponent r now name required ready outcome err) = <[name := c]> (rg_components r) ∧
       unready (name, c) = required && negb ready.
Proof. intros Hn. unfold SetComponent. rewrite bool_decide_eq_true_2 by done. eexists. split; [done|]. done. Qed.
Lemma SetComponent_steady r now name required ready outcome err :
  name ∈ allowedComponents → (required && negb ready = true → name ∈ measured) → steady r →
  steady (SetComponent r now name required ready outcome err).
Proof.
  intros Hn Hm Hr. destruct (SetComponent_components r now name required ready outcome err Hn) as (c&E&Hc).
  unfold steady. rewrite E. apply map_Forall_insert_2; [|done]. by rewrite Hc.
Qed.
Lemma same_components r r' : rg_components r' = rg_components r → steady r → steady r'.
Proof. unfold steady. by intros ->. Qed.

Lemma Ready_iff r : (Ready r).1 = true ↔ rg_generation r ≠ 0%Z ∧ map_Forall (λ name c, unready (name, c) = false) (rg_components r).
Proof.
  unfold Ready. cbn [fst]. rewrite bool_decide_eq_true. split.
  - intros Hl. assert (∀ l, sort_strings l = [] → l = []) as Hs.
    { intros l Hl'. apply Permutation_nil. rewrite <-Hl'. apply sort_strings_perm. }
    apply Hs, app_nil in Hl as [Hg Hf]. split; [intros Hz; by rewrite Hz in Hg|]. intros name c Hc.
    destruct (unready (name, c)) eqn:Hu; [|done]. apply fmap_nil_inv in Hf. exfalso.
    assert ((name, c) ∈ List.filter unready (map_to_list (rg_components r))) as Hin.
    { apply list_elem_of_In, filter_In. split; [by apply list_elem_of_In, elem_of_map_to_list|done]. }
    rewrite Hf in Hin. by apply not_elem_of_nil in Hin.
  - intros [Hg Hf]. rewrite (proj2 (Z.eqb_neq _ _) Hg).
    assert (List.filter unready (map_to_list (rg_components r)) = []) as ->; [|done].
    destruct (List.filter _ _) as [|[name c] l] eqn:E; [done|]. exfalso.
    assert (In (name, c) (List.filter unready (map_to_list (rg_components r)))) as [Hin Hu]%filter_In by (rewrite E; by left).
    apply list_elem_of_In, elem_of_map_to_list, Hf in Hin. congruence.
Qed.

(** ** Collecting *)
(** A status without an error and without drift. *)
Definition clean (st : reconcileStatus) : Prop :=
  ks_LastApplySuccess st = true ∧ ks_KernelDrift st = 0%Z ∧ ks_FirewallDrift st = 0%Z.
Definition file_oks (file : result string reconcileStatus) : bool * bool :=
  match file with
  | Err _ => (false, false)
  | Ok st => (ks_LastApplySuccess st && (ks_KernelDrift st =? 0)%Z, ks_LastApplySuccess st && (ks_FirewallDrift st =? 0)%Z)
  end.
Lemma file_oks_clean file : (file_oks file).1 = true ∧ (file_oks file).2 = true ↔ ∃ st, file = Ok st ∧ clean st.
Proof.
  unfold clean. destruct file as [st|]; cbn; [|by split; [intros [? _]|intros (?&?&_)]]. rewrite !andb_true_iff, !Z.eqb_eq. split.
  - intros [[??][_ ?]]. eauto.
  - by intros (?&[= <-]&?&?&?).
Qed.
(** The components after a collection. *)
Lemma Observe_kept c r : rg_components (Observe c r) = rg_components r.
Proof. unfold Observe. by destruct (sc_dns c). Qed.
Lemma SetOk_components r now name ok err : name ∈ allowedComponents →
  ∃ c, rg_components (SetOk r now name ok err) = <[name := c]> (rg_components r) ∧ unready (name, c) = negb ok.
Proof. apply SetComponent_components. Qed.
Lemma collected now v file r : ∃ a b c d e,
  rg_components (collectOperationalState now v file r) =
    <["firewall" := a]> (<["kernel" := b]> (<["dns" := c]> (<["proxy" := d]> (<["listeners" := e]> (rg_components r))))) ∧
  rg_generation (collectOperationalState now v file r) = sv_generation v ∧
  unready ("firewall", a) = negb (file_oks file).2 ∧ unready ("kernel", b) = negb (file_oks file).1 ∧ unready ("dns", c) = false ∧
  unready ("proxy", d) = negb (sv_listenersReady v) ∧ unready ("listeners", e) = negb (sv_listenersReady v).
Proof.
  unfold collectOperationalState. cbv zeta. set (r0 := SetActiveGeneration _ _).
  assert (rg_components r0 = rg_components r ∧ rg_generation r0 = sv_generation v) as [H0 Hg] by (split; [apply Observe_kept|done]).
  clearbody r0. set (r1 := SetOk r0 _ _ _ _). set (r2 := SetOk r1 _ _ _ _). set (r3 := SetComponent r2 _ _ _ _ _ _).
  destruct (SetOk_components r0 now "listeners" (sv_listenersReady v) None) as (e&E1&He); [allowed|].
  destruct (SetOk_components r1 now "proxy" (sv_listenersReady v) None) as (d&E2&Hd); [allowed|].
  destruct (SetComponent_components r2 now "dns" false true "ok" None) as (c&E3&Hc); [allowed|].
  fold r1 in E1. fold r2 in E2. fold r3 in E3.
  assert (rg_generation r3 = sv_generation v) as Hg3 by exact Hg. rewrite H0 in E1. rewrite E1 in E2. rewrite E2 in E3. clearbody r3.
  destruct file as [st|err].
  - set (err := if ks_LastApplySuccess st then None else _). set (r4 := SetDrift r3 _ _).
    set (k := ks_LastApplySuccess st && (ks_KernelDrift st =? 0)%Z). set (f := ks_LastApplySuccess st && (ks_FirewallDrift st =? 0)%Z).
    destruct (SetOk_components r4 now "kernel" k err) as (b&E4&Hb); [allowed|].
    destruct (SetOk_components (SetOk r4 now "kernel" k err) now "firewall" f err) as (a&E5&Ha); [allowed|].
    exists a, b, c, d, e. rewrite E5, E4. change (rg_components r4) with (rg_components r3). rewrite E3. by split_and!.
  - destruct (SetComponent_components r3 now "kernel" true false "failure" (Some err)) as (b&E4&Hb); [allowed|].
    destruct (SetComponent_components (SetComponent r3 now "kernel" true false "failure" (Some err)) now "firewall" true false "failure" (Some err))
      as (a&E5&Ha); [allowed|].
    exists a, b, c, d, e. rewrite E5, E4, E3. by split_and!.
Qed.
Lemma collect_steady now v file r : steady r → steady (collectOperationalState now v file r).
Proof.
  intros Hr. destruct (collected now v file r) as (a&b&c&d&e&E&_&_&_&Hc&_). unfold steady. rewrite E.
  repeat (apply map_Forall_insert_2; [intros Hu; try (by rewrite Hc in Hu); unfold measured; set_solver|]). done.
Qed.
Lemma collected_ready now v file r : steady r →
  (Ready (collectOperationalState now v file r)).1 = true ↔
  sv_generation v ≠ 0%Z ∧ sv_listenersReady v = true ∧ ∃ st, file = Ok st ∧ clean st.
Proof.
  intros Hr. destruct (collected now v file r) as (a&b&c&d&e&E&Hg&Ha&Hb&Hc&Hd&He). rewrite Ready_iff, E, Hg, <-file_oks_clean.
  split.
  - intros [? Hall]. split; [done|].
    assert (∀ name x, <["firewall":=a]> (<["kernel":=b]> (<["dns":=c]> (<["proxy":=d]> (<["listeners":=e]> (rg_components r))))) !! name = Some x →
      unready (name, x) = false) as Hall' by exact Hall.
    pose proof (Hall' "firewall" a) as H1. pose proof (Hall' "kernel" b) as H2. pose proof (Hall' "listeners" e) as H3.
    rewrite Ha in H1. rewrite Hb in H2. rewrite He in H3. rewrite !negb_false_iff in *. split_and!; [apply H3|apply H2|apply H1]; by simplify_map_eq.
  - intros (?&Hl&Hk&Hf). split; [done|]. rewrite Hl in *. rewrite Hk, Hf in *. intros name x.
    rewrite !lookup_insert_Some.
    intros [[<- <-]|[Hn1 [[<- <-]|[Hn2 [[<- <-]|[Hn3 [[<- <-]|[Hn4 [[<- <-]|[Hn5 Hx]]]]]]]]]]; [done..|].
    destruct (unready (name, x)) eqn:Hu; [|done]. apply (Hr _ _ Hx) in Hu. unfold measured in Hu. exfalso. set_solver.
Qed.
End registry.

(** ** A running daemon *)
Create HintDb steady.
Section daemon.
Context {K F Cl : Type} `{NetlinkLaws K} `{IptablesLaws F} `{WgKeys} `{ErrorText} `{Float64} `{Monitor.DeviceClient Cl}.
Implicit Types (d : daemon (K:=K) (F:=F)) (e : env) (r : Registry).

Lemma informed r now name ready outcome err : name ∈ allowedComponents → steady r → steady (SetComponent r now name false ready outcome err).
Proof using Type. intros Hn. by apply SetComponent_steady. Qed.
Lemma always_ready r now name outcome err : name ∈ allowedComponents → steady r → steady (SetComponent r now name true true outcome err).
Proof using Type. intros Hn. by apply SetComponent_steady. Qed.
Lemma recordReload_steady now elapsed err r : steady r → steady (recordReload now elapsed err r).
Proof using Type. intros Hr. unfold recordReload. apply always_ready; [allowed|]. by apply (same_components r). Qed.
Lemma SetRouteSource_steady r now s : steady r → steady (SetRouteSource r now s).
Proof using Type.
  intros Hr. unfold SetRouteSource. case_bool_decide; [done|]. destruct (kept_success r s). cbv zeta. apply informed; [allowed|].
  by apply (same_components r).
Qed.
Lemma RecordPfSync_steady r now outcome err : steady r → steady (RecordPfSync r now outcome err).
Proof using Type. intros Hr. unfold RecordPfSync. apply informed; [allowed|]. by apply (same_components r). Qed.
Lemma healthObserver_steady active now s r : steady r → steady (healthObserver active now s r).
Proof using Type.
  intros Hr. unfold healthObserver. destruct active; [by apply (same_components r)|]. apply informed; [allowed|]. by apply (same_components r).
Qed.
Lemma observe_probe_steady now target x last r : steady r → steady (observe_probe now target x last r).2.
Proof using Type. intros Hr. unfold observe_probe. cbn [snd]. apply informed; [allowed|]. by apply (same_components r). Qed.
Lemma count_repair_steady o r : steady r → steady (count_repair o r).
Proof using Type. intros Hr. by destruct o; [..|apply (same_components r)|apply (same_components r)]. Qed.
Hint Resolve recordReload_steady SetRouteSource_steady RecordPfSync_steady healthObserver_steady observe_probe_steady
  count_repair_steady collect_steady : steady.

Lemma boot_steady e cfg srv file : steady (boot_registry e cfg srv file).
Proof using Type.
  unfold boot_registry. assert (∀ r (b : bool) name, name ∈ allowedComponents → steady r →
    steady (if b then SetComponent r (en_now e) name true true "ok" None else r)) as Hif.
  { intros r [] name ??; [by apply always_ready|done]. }
  set (r := collectOperationalState _ _ _ _). assert (steady r) as Hr.
  { apply collect_steady. eapply same_components; [done|]. apply always_ready; [allowed|]. by apply map_Forall_empty. }
  apply (Hif r (list_served cfg) "list_server") in Hr; [|allowed]. destruct (mg_Disabled _); [done|]. apply always_ready; [allowed|done].
Qed.
Lemma hangup_steady e d new wgctrl cache d' : steady (d_registry d) → hangup e d new wgctrl cache = Some d' → steady (d_registry d').
Proof using Type.
  intros Hr. unfold hangup. destruct new as [newCfg|]; [|intros [= <-]; cbn; auto with steady].
  destruct (reloadRequiresRestart _ _); [intros [= <-]; cbn; auto with steady|]. cbv zeta. set (next := match d_updater d with Some u => _ | None => _ end).
  destruct (NewHealthMonitor wgctrl next) as [candidate|]; [|intros [= <-]; cbn; auto with steady].
  destruct (applyReload _ _ _) as [[[]|err] h].
  - destruct (newRouterGeneration _ _ _) as [[rt x]|]; [|done]. intros [= <-]. unfold commit_reload.
    destruct (next_updater _ _ _), (measureAndRecordDrift _ _ _ _ _). cbn [d_registry with_registry]. unfold collect_state. auto with steady.
  - destruct (measureAndRecordDrift _ _ _ _ _). intros [= <-]. cbn. auto with steady.
Qed.
Lemma handle_steady e d (ev : event (Cl:=Cl)) d' : steady (d_registry d) → handle e d ev = Some d' → steady (d_registry d').
Proof using Type.
  intros Hr. destruct ev as [| |new wgctrl cache| | |fetched| | |push|client|target x|probes target x|]; cbn [handle].
  3: by apply hangup_steady.
  all: intros [= <-].
  - unfold tick. destruct (repair _ _ _ _ _) as [[[[o w] file]|] h]; cbn; auto with steady.
  - unfold refresh. destruct (d_queue d); [|done]. by destruct (applyRoutes _ _ _ _).
  - done.
  - unfold start_cycle. by destruct (d_updater d), (d_phase d).
  - unfold fetch_next. destruct (d_updater d), (d_phase d) as [|seen [|s l]| |]; try done. case_bool_decide; cbn; auto with steady.
  - unfold merge_fetched. by destruct (d_updater d), (d_phase d) as [|seen [|s l]| |].
  - unfold enqueue. by destruct (d_phase d), (d_queue d).
  - unfold mirror. destruct (d_updater d) as [u|], (d_phase d); try done. cbn.
    destruct (u_pf u), (mirrored u), (mirrorToPfSense push u).1 as [[o sent]|]; cbn; auto with steady.
  - unfold polled. destruct (d_hm d); cbn; auto with steady.
  - unfold probed_result. case_bool_decide; [|done]. pose proof (observe_probe_steady (en_now e) target x (d_probes d) _ Hr) as Ho.
    by destruct (observe_probe _ _ _ _ _).
  - by apply observe_probe_steady.
  - cbn. unfold collect_state. auto with steady.
Qed.
Lemma runs_steady loaded d : runs (Cl:=Cl) loaded d → steady (d_registry d).
Proof using Type. induction 1; [apply boot_steady|by eapply handle_steady|done]. Qed.

(** The answer of a daemon in whose registry only measured components can be unready. *)
Lemma readyz_steady e d : steady (d_registry d) →
  re_code (readyz e d) = 200%Z ↔
  srv_generation (d_srv d) ≠ 0%Z ∧ srv_stopping (d_srv d) = false ∧ ∃ st, d_file d = Some st ∧ clean st.
Proof using Type.
  intros Hr. pose proof (collected_ready (en_now e) (view_of e (d_srv d)) (readReconcileStatus e (d_file d)) _ Hr) as Hc.
  unfold readyz, handleReady, collect_state. change (negb (requireGET "GET")) with false. cbv iota beta zeta.
  destruct (Ready _) as [ready reasons]. cbn [fst re_code] in *.
  assert ((if ready then 200 else 503)%Z = 200%Z ↔ ready = true) as -> by (by destruct ready). rewrite Hc.
  cbn [view_of sv_generation sv_listenersReady]. rewrite negb_true_iff. unfold readReconcileStatus. destruct (d_file d); naive_solver.
Qed.

(** C6: the readiness endpoint of a running daemon answers 200 exactly when the server
    has an active generation and is not stopping, and the status that was recorded last
    can be read, reports no error and no drift.  Nothing else makes it unready: not a
    rejected reload, a failing source, mirror, probe or tunnel; and no order of events
    leaves it stuck. *)
Theorem readyz_exact loaded d e : runs (Cl:=Cl) loaded d →
  re_code (readyz e d) = 200%Z ↔
  srv_generation (d_srv d) ≠ 0%Z ∧ srv_stopping (d_srv d) = false ∧ ∃ st, d_file d = Some st ∧ clean st.
Proof using Type. intros Hd%runs_steady. by apply readyz_steady. Qed.

(** What a step that writes the status file leaves: readiness then means that
    everything is in place. *)
Definition answers_for d : Prop := ∀ e, re_code (readyz e d) = 200%Z → in_order (d_cfg d) (d_host d).
Lemma records_answer io errs d : steady (d_registry d) → io_written io = true → records io (d_cfg d) errs (d_host d) (d_file d) →
  answers_for d ∧ (errs ≠ [] → ∀ e, re_code (readyz e d) ≠ 200%Z).
Proof using Type.
  intros Hr Hio (st&Hf&Hv)%(λ H, H Hio). assert (∀ e, re_code (readyz e d) = 200%Z → errs = [] ∧ in_order (d_cfg d) (d_host d)) as Hc.
  { intros e (_&_&st'&Hf'&Ha&Hb&Hc)%readyz_steady; [|done]. rewrite Hf in Hf'. injection Hf' as <-. by apply Hv. }
  split; [intros e He; by apply (Hc e)|]. intros He e Hok. by destruct (Hc e Hok).
Qed.

Lemma tick_answers e d : steady (d_registry d) → io_written (en_io e) = true →
  plannable (c_Tunnels (d_cfg d)) → Forall rule_typed (v_rules (sees (d_host (tick e d)).1)) →
  d_file (tick e d) = d_file d ∨ answers_for (tick e d).
Proof using All.
  intros Hr Hio Hpl Ht. pose proof (handle_steady e d KernelTick _ Hr eq_refl) as Hr'. revert Ht Hr'. unfold tick.
  destruct (repair _ _ _ _ _) as [x h] eqn:E. intros Ht Hr'.
  assert (Forall rule_typed (v_rules (sees h.1))) as Ht' by (by destruct x as [[[o w] file]|]). clear Ht.
  destruct (repair_cases _ _ _ _ _ _ _ Hpl Ht' E) as (o&w&file&->&Ho).
  assert (∀ errs, records (en_io e) (d_cfg d) errs h file →
    answers_for (with_registry (with_host (with_watch d w) h file) (count_repair o (d_registry d)))) as Hrec.
  { intros errs Hrec. by apply (records_answer (en_io e) errs). }
  destruct o.
  - left. by destruct Ho as (_&_&->).
  - destruct Ho as (_&_&Ho&_). destruct (drift_recorded (d_file d)); [right; eauto|left; done].
  - right. destruct Ho as (_&_&(st&->&Hst)%(λ H, H Hio)). intros e' (_&_&st'&Hf&Ha&_)%readyz_steady; [|done].
    cbn in Hf. injection Hf as <-. congruence.
  - right. destruct Ho as [? _]. eauto.
  - right. destruct Ho as [errs ?]. eauto.
Qed.
Lemma hangup_answers e d new wgctrl cache d' : steady (d_registry d) → io_written (en_io e) = true →
  hangup e d new wgctrl cache = Some d' → plannable (c_Tunnels (d_cfg d')) → Forall rule_typed (v_rules (sees (d_host d').1)) →
  (d_file d' = d_file d ∧ d_host d' = d_host d) ∨ answers_for d'.
Proof using All.
  intros Hr Hio Hh Hpl Ht. pose proof (hangup_steady _ _ _ _ _ _ Hr Hh) as Hr'. revert Hh. unfold hangup.
  destruct new as [newCfg|]; [|intros [= <-]; by left]. destruct (reloadRequiresRestart _ _); [intros [= <-]; by left|]. cbv zeta.
  set (next := match d_updater d with Some u => _ | None => _ end). destruct (NewHealthMonitor wgctrl next) as [candidate|]; [|intros [= <-]; by left].
  intros Hh. right. destruct (applyReload _ _ _) as [[[]|err] h].
  - destruct (newRouterGeneration _ _ _) as [[rt x]|]; [|done]. injection Hh as Hh. unfold commit_reload in Hh.
    destruct (next_updater _ _ _) as [u phase], (measureAndRecordDrift _ _ _ _ _) as [res h'] eqn:E.
    assert (d_cfg d' = next ∧ d_host d' = h' ∧ d_file d' = file_after res (d_file d)) as (Hc&Hd&Hf) by (by rewrite <-Hh).
    rewrite Hc in Hpl. rewrite Hd in Ht. destruct (recording _ _ _ _ _ _ _ Hpl Ht E) as (file&->&_&_&Hrec).
    apply (records_answer (en_io e) []); [done..|]. by rewrite Hc, Hd, Hf.
  - destruct (measureAndRecordDrift _ _ _ _ _) as [res h'] eqn:E. injection Hh as <-. cbn in Hpl, Ht.
    destruct (recording _ _ _ _ _ _ _ Hpl Ht E) as (file&->&_&_&Hrec). by apply (records_answer (en_io e) [err]).
Qed.

(** C5: readiness is not a guess.  When the status file can be written, a daemon that
    is ready after its start, after a tick of the watchdog or after a reload, be it
    applied, refused or rolled back, runs over a host on which every tunnel, chain and
    jump of its configuration that the planner knows of is in place, unless that step
    did not measure and left the recorded status alone. *)
Theorem readyz_vouches loaded d e ev d' : runs (Cl:=Cl) loaded d → io_written (en_io e) = true →
  plannable (c_Tunnels (d_cfg d')) → Forall rule_typed (v_rules (sees (d_host d').1)) →
  (∀ cfg cache hm rt h file file', runUp (en_io e) cfg None file h = (Ok (Ok tt, file'), d_host d') →
     d' = boot e cfg cache (d_host d') file' hm rt → answers_for d') ∧
  (handle (Cl:=Cl) e d ev = Some d' → match ev with KernelTick | Hangup _ _ _ => True | _ => False end →
     d_file d' = d_file d ∨ answers_for d').
Proof using All.
  intros Hd%runs_steady Hio Hpl Ht. split.
  - intros cfg cache hm rt h file file' Hup Hb. apply runUp_inv in Hup as (?&?&[= <- <-]&(_&s1&_&E)%(λ H, H eq_refl)).
    assert (d_cfg d' = cfg ∧ d_file d' = file') as [Hc Hf] by (by rewrite Hb). rewrite Hc in Hpl.
    destruct (recording _ _ _ _ _ _ _ Hpl Ht E) as (?&[= <-]&_&_&Hrec).
    apply (records_answer (en_io e) []); [rewrite Hb; apply boot_steady|done|by rewrite Hc, Hf].
  - intros Hh Hev. destruct ev as [| |new wgctrl cache| | | | | | | | | |]; try done; cbn [handle] in Hh.
    + injection Hh as <-. apply tick_answers; try done. revert Hpl. unfold tick. by destruct (repair _ _ _ _ _) as [[[[o w] file]|] h].
    + destruct (hangup_answers _ _ _ _ _ _ Hd Hio Hh Hpl Ht) as [[? _]|?]; auto.
Qed.
End daemon.

(** ** The profiler *)
Lemma trim_prefix_id p s : p ≠ "" → trim_prefix p s = s → has_prefix p s = false.
Proof.
  unfold trim_prefix. destruct (has_prefix p s) eqn:Hp; [|done]. intros Hne Hs. exfalso.
  apply (f_equal String.length) in Hs. rewrite length_str_drop in Hs. destruct p as [|x p]; [done|]. destruct s as [|y s]; [done|].
  cbn [String.length] in Hs. lia.
Qed.
(** Where a profile can be had from: a Unix socket or a loopback address. *)
Definition local_endpoint (network address : string) : Prop :=
  (network = "unix" ∧ address ≠ "") ∨
  (network = "tcp" ∧ ∃ host port ip, SplitHostPort address = Some (host, port) ∧ ParseIP host = Some ip ∧ IsLoopback ip = true).
(** The network and the address [Start] listens on. *)
Definition endpoint (listen : string) : string * string :=
  let path := trim_prefix "unix:" listen in if bool_decide (path = listen) then ("tcp", listen) else ("unix", path).
Lemma local_listen address : managementIsLocal address = true → local_endpoint (endpoint address).1 (endpoint address).2.
Proof.
  unfold managementIsLocal, endpoint, local_endpoint. cbv zeta.
  destruct (decide (trim_prefix "unix:" address = address)) as [Hu|Hu];
    [rewrite (bool_decide_eq_true_2 (_ = address)) by done|rewrite (bool_decide_eq_false_2 (_ = address)) by done]; cbn [fst snd].
  - assert (has_prefix "unix:" address = false) as -> by (apply trim_prefix_id; [discriminate|exact Hu]).
    destruct (SplitHostPort address) as [[host port]|] eqn:Hs; [|done].
    destruct (ParseIP host) as [ip|] eqn:Hip; [|done]. intros Hl. right. split; [done|]. by exists host, port, ip.
  - destruct (has_prefix "unix:" address) eqn:Hp; [|unfold trim_prefix in Hu; by rewrite Hp in Hu].
    rewrite negb_true_iff, bool_decide_eq_false. by left.
Qed.
(** A server that was configured and started. *)
Lemma Start_inv exists_at listen c p m paths p' : Start exists_at listen c p = (Ok (m, paths), p') →
  listen (endpoint (mc_Listen c)).1 (endpoint (mc_Listen c)).2 = None ∧ paths = management_paths (mc_Pprof c) ∧
  ru_config m = c ∧ ru_stopped m = false ∧
  if mc_Pprof c then ru_previous m = mutex_fraction p ∧ p' = {| block_rate := 1; mutex_fraction := 5 |} else p' = p.
Proof.
  unfold Start, endpoint. cbv zeta. case_bool_decide; cbn [negb andb fst snd].
  - destruct (listen _ _) eqn:Hl; [done|]. destruct (mc_Pprof c) eqn:Hpp; intros [= <- <- <-]; by rewrite ?Hpp.
  - destruct (exists_at _); [done|]. destruct (listen _ _) eqn:Hl; [done|]. destruct (mc_Pprof c) eqn:Hpp; intros [= <- <- <-]; by rewrite ?Hpp.
Qed.

(** A management server that was configured and started bounds every request; it
    serves profiles only over a Unix socket or a loopback address, and when it is shut
    down, also twice, the profiling rates of the runtime are again what they were. *)
Theorem pprof_local config c exists_at listen p m paths p' : NewManagementServer config = Ok c → Start exists_at listen c p = (Ok (m, paths), p') →
  (0 < mc_ReadHeaderTimeout c ∧ 0 < mc_WriteTimeout c ∧ 0 < mc_IdleTimeout c ∧ 0 < mc_ShutdownTimeout c ∧ 0 < mc_MaxHeaderBytes c)%Z ∧
  (let '(network, address) := endpoint (mc_Listen c) in
     listen network address = None ∧ ∀ path, path ∈ paths → has_prefix "/debug/" path = true → local_endpoint network address) ∧
  (block_rate p = 0%Z → ∀ errs1 errs2, let '(_, m1, p1) := Shutdown m errs1 p' in p1 = p ∧ Shutdown m1 errs2 p1 = ([], m1, p1)).
Proof.
  intros Hc (Hl&->&Hm&Hs&Hp)%Start_inv. unfold NewManagementServer in Hc. cbv zeta in Hc. destruct (_ && _) eqn:Hpp in Hc; [done|]. injection Hc as Hc.
  split; [|split].
  - rewrite <-Hc. unfold positiveOr, second. cbn [mc_ReadHeaderTimeout mc_WriteTimeout mc_IdleTimeout mc_ShutdownTimeout mc_MaxHeaderBytes].
    assert (0 < Z.shiftl 16 10)%Z by (by vm_compute). repeat case_match; rewrite ?Z.ltb_lt, ?Z.leb_le in *; lia.
  - destruct (endpoint (mc_Listen c)) as [network address] eqn:Ee. split; [exact Hl|]. intros path Hin Hpath.
    pose proof (local_listen (mc_Listen c)) as Hloc. rewrite Ee in Hloc. apply Hloc. rewrite Hc in Hpp. cbn in Hpp.
    destruct (mc_Pprof c) eqn:E; [by apply negb_false_iff|]. cbn in Hin. exfalso. set_unfold in Hin. naive_solver.
  - intros Hb errs1 errs2. unfold Shutdown. rewrite Hs, Hm. split; [|done]. destruct (mc_Pprof c); [|done].
    destruct Hp as [-> ->]. by destruct p; cbn in *; subst.
Qed.

(** ** The example *)
Module ManageDemo.
Import (hints) WgKernel.Demo GatewaySpec.Toy StatusDemo LoopDemo.
#[local] Instance manage_unicode : UnicodeTables := {| unicode_to_lower := λ s, s |}.
#[local] Existing Instance LoopDemo.boot_keys.
Import LoopDemo.
Abbreviation toy_daemon := (daemon (K:=view) (F:=GatewaySpec.Toy.firewall)).
Definition clean_status : reconcileStatus :=
  {| ks_LastApplyTime := 7; ks_LastApplySuccess := true; ks_LastApplyError := ""; ks_KernelDrift := 0; ks_FirewallDrift := 0; ks_Sysctls := ∅ |}.
Lemma readyz_exact_witness : ∃ d : toy_daemon, runs (Cl:=unit) the_demo d ∧ re_code (readyz demo_env d) = 200%Z.
Proof.
  destruct boots as (h&file&hm&rt&Hd). pose proof (runs_others (Cl:=unit) the_demo _ h (Some clean_status) Hd) as Hd'.
  eexists. split; [exact Hd'|]. apply (readyz_exact the_demo _ demo_env Hd').
  split; [discriminate|]. split; [reflexivity|]. by exists clean_status.
Defined.

Definition up_run : result wg_error (result wg_error unit * option reconcileStatus) * DaemonDemo.toy_host :=
  runUp StatusDemo.written PlanDemo.cfg None None PlanDemo.before.
Definition up_file : option reconcileStatus := match up_run.1 with Ok (_, file) => file | Err _ => None end.
Definition clean_b (file : option reconcileStatus) : bool :=
  match file with Some st => ks_LastApplySuccess st && (ks_KernelDrift st =? 0)%Z && (ks_FirewallDrift st =? 0)%Z | None => false end.
Lemma up_clean : match up_run.1 with Ok (r, file) => is_ok r && clean_b file | Err _ => false end = true.
Proof. vm_compute. reflexivity. Qed.
Lemma up_file_clean : ∃ st, up_file = Some st ∧ clean st.
Proof.
  pose proof up_clean as Hc. unfold up_file, clean_b in *. destruct up_run.1 as [[r [st|]]|]; [|by rewrite andb_false_r in Hc|discriminate Hc].
  rewrite !andb_true_iff, !Z.eqb_eq in Hc. destruct Hc as [_ [[??]?]]. exists st. by split.
Qed.
Lemma up_runUp : runUp StatusDemo.written PlanDemo.cfg None None PlanDemo.before = (Ok (Ok tt, up_file), up_run.2).
Proof.
  pose proof up_clean as Hok. unfold up_file, up_run in *.
  destruct (runUp StatusDemo.written PlanDemo.cfg None None PlanDemo.before) as [[[[[]|] file']|] h']; [|discriminate Hok..]. reflexivity.
Qed.
Lemma up_run_typed : Forall rule_typed (v_rules (sees up_run.2.1)).
Proof.
  assert (forallb PlanDemo.typed_b (v_rules (sees up_run.2.1)) = true) as Hb by (vm_compute; reflexivity).
  rewrite forallb_forall in Hb. apply Forall_forall. intros r Hr%list_elem_of_In%Hb. revert Hr.
  unfold PlanDemo.typed_b, rule_typed, is_u32, u32_max. rewrite !andb_true_iff, !Z.leb_le. lia.
Qed.
Lemma readyz_vouches_witness : in_order PlanDemo.cfg up_run.2.
Proof.
  destruct boots as (h&file&hm&rt&Hd). set (d' := boot demo_env PlanDemo.cfg None up_run.2 up_file None rt : toy_daemon).
  destruct (readyz_vouches the_demo _ demo_env KernelTick d' Hd eq_refl PlanDemo.cfg_plannable up_run_typed) as [Hboot _].
  refine (Hboot PlanDemo.cfg None None rt PlanDemo.before None up_file up_runUp eq_refl demo_env _).
  apply readyz_steady; [apply boot_steady|]. split; [discriminate|]. split; [reflexivity|exact up_file_clean].
Defined.

Definition with_listen (listen : string) : ManagementConfig :=
  {| mc_Listen := listen; mc_ReadHeaderTimeout := 0; mc_WriteTimeout := 0; mc_IdleTimeout := 0; mc_ShutdownTimeout := 0;
     mc_MaxHeaderBytes := 0; mc_Pprof := true |}.
Definition local_config : ManagementConfig := with_listen "127.0.0.1:9091".
(** Only this address is free. *)
Definition only_local (network address : string) : option string := if bool_decide (address = "127.0.0.1:9091") then None else Some "in use".
Definition fresh_rates : profiling := {| block_rate := 0; mutex_fraction := 2 |}.
Definition served : result string (running * list string) * profiling :=
  match NewManagementServer local_config with Ok c => Start (λ _, false) only_local c fresh_rates | Err e => (Err e, fresh_rates) end.
Lemma served_Ok : is_ok (NewManagementServer local_config) = true ∧ is_ok served.1 = true.
Proof. vm_compute. auto. Qed.
Lemma pprof_local_witness : ∃ m paths, served.1 = Ok (m, paths) ∧ ru_stopped (Shutdown m [] served.2).1.2 = true ∧ (Shutdown m [] served.2).2 = fresh_rates.
Proof.
  destruct served_Ok as [Hc Hs]. unfold served in *. destruct (NewManagementServer local_config) as [c|] eqn:E; [|discriminate Hc].
  destruct (Start (λ _, false) only_local c fresh_rates) as [[[m paths]|] p'] eqn:E'; [|discriminate Hs]. exists m, paths. split; [reflexivity|].
  destruct (pprof_local local_config c (λ _, false) only_local fresh_rates m paths p' E E') as (_&_&Hr). specialize (Hr eq_refl [] []).
  cbn [snd]. destruct (Start_inv _ _ _ _ _ _ _ E') as (_&_&_&Hst&_). unfold Shutdown in *. rewrite Hst in *. split; [reflexivity|exact (proj1 Hr)].
Defined.
(** A profiler that would be reachable from elsewhere is refused. *)
Example pprof_remote : is_ok (NewManagementServer (with_listen "0.0.0.0:9091")) = false ∧
  is_ok (NewManagementServer (with_listen "localhost:9091")) = false ∧ is_ok (NewManagementServer (with_listen "unix:/run/x")) = true.
Proof. vm_compute. auto. Qed.
End ManageDemo.
