(* ===== verification/UpdaterSpec.v ===== *)
(** * Properties of the route updater

    What a cycle keeps for every source and queues for the tunnels, what is pushed to
    pfSense, and that the published list is read back as the routes it was made of. *)
From S2P Require Import Prelude Netip Firewall RouteSource Config Startup Netlink Updater.

(** ** Canonical IPv4 networks *)
Definition canonical (c : string) : Prop := ∃ b s, aligned b s ∧ c = block_string (b, s).

Lemma str_contains_slash s t : str_contains "/" (s +:+ String "/" t) = true.
Proof.
  induction s as [|c s IH]; [rewrite str_app_nil_l; cbn; by destruct t|]. rewrite str_app_cons.
  cbn [str_contains]. rewrite IH. by rewrite orb_true_r.
Qed.
Lemma block_string_prefix b s : aligned b s → block_string (b, s) = prefix_String (prefix4 b (32 - Z.of_nat s)).
Proof. intros (?&_&_). by rewrite prefix_String4 by lia. Qed.
Lemma canonical_str_free d c : is_digit d = false → d ≠ "."%char → d ≠ "/"%char → canonical c → str_free d c.
Proof.
  intros ??? (b&s&Ha&->). rewrite block_string_prefix by done. destruct Ha as (?&_&_). apply prefix_String4_free; auto with lia.
Qed.

(** The text of an aligned network is its normal form. *)
Lemma normalize_block b s : aligned b s → normalizeIPv4CIDR (block_string (b, s)) = Some (block_string (b, s)).
Proof.
  intros Ha. unfold normalizeIPv4CIDR. rewrite trim_space_block by done. destruct Ha as (Hs&Hb&Hm).
  rewrite bool_decide_false.
  2:{ unfold block_string, uint32IP, string4. cbn [fst snd]. destruct (small_itoa (octet b 24) (octet_bound _ _)) as (Hd&_).
      by destruct (itoa (octet b 24)). }
  unfold block_string, uint32IP. cbn [fst snd].
  change ("/" +:+ itoa (32 - Z.of_nat s)) with (String "/" (itoa (32 - Z.of_nat s))). rewrite str_contains_slash. cbn [negb].
  change (String "/" (itoa (32 - Z.of_nat s))) with ("/" +:+ itoa (32 - Z.of_nat s)) at 1. rewrite ParseCIDR_String4 by lia.
  rewrite index_byte_first, str_take_app by (done || by apply string4_free). rewrite ParseAddr_string4 by done.
  unfold To4. cbn [Unmap]. unfold IPNet_String, ip_String. cbn [n_ip n_ones Unmap addr_String].
  rewrite mask_value_aligned; [done|lia|]. by replace (32 - (32 - Z.of_nat s))%Z with (Z.of_nat s) by lia.
Qed.

Lemma str_free_take c n s : str_free c s → str_free c (str_take n s).
Proof. rewrite <-(str_take_drop n s) at 1. by intros [? _]%str_free_app. Qed.
Lemma str_free_drop c n s : str_free c s → str_free c (str_drop n s).
Proof. rewrite <-(str_take_drop n s) at 1. by intros [_ ?]%str_free_app. Qed.
Lemma str_free_trim c s : str_free c s → str_free c (trim_space s).
Proof.
  assert (∀ n s, str_free c s → str_free c (trim_left_fuel n s)) as Hl.
  { induction n as [|n IH]; intros s'; [done|]. cbn [trim_left_fuel]. case_match; eauto using str_free_drop. }
  assert (∀ n s, str_free c s → str_free c (trim_right_fuel n s)) as Hr.
  { induction n as [|n IH]; intros s'; [done|]. cbn [trim_right_fuel]. case_match; eauto using str_free_take. }
  unfold trim_space. auto.
Qed.
Lemma ParseAddr_no_colon s a : str_free ":" s → ParseAddr s = Some a → ∃ v, a = Addr4 v ∧ (0 ≤ v < 2 ^ 32)%Z.
Proof.
  intros Hs H. assert (∃ v, a = Addr4 v) as [v ->]; [|eauto using ParseAddr_Addr4].
  revert H. unfold ParseAddr. destruct (addr_family s) as [d|] eqn:E; [|done].
  assert (d ≠ ":"%char) as Hd.
  { intros ->. revert E Hs. induction s as [|e s IH]; [done|]. cbn [addr_family]. intros E [He Hs]%str_free_cons.
    case_bool_decide; [by simplify_eq|auto]. }
  destruct d as [[] [] [] [] [] [] [] []]; try done. destruct (parseIPv4 s); [|done]. intros [= <-]. eauto.
Qed.

(** Text that is not IPv6 is normalized to the network it stands for, or rejected. *)
Lemma normalize_canonical s c : str_free ":" s → normalizeIPv4CIDR s = Some c →
  canonical c ∧ (str_contains "/" (trim_space s) = true → cidrRange c = cidrRange s).
Proof.
  intros Hs%str_free_trim. unfold normalizeIPv4CIDR, cidrRange at 2. set (s' := trim_space s) in *. clearbody s'.
  case_bool_decide; [done|]. destruct (str_contains "/" s') eqn:Hc; cbn [negb].
  - unfold ParseCIDR. destruct (index_byte _ _) as [i|]; [|done]. destruct (ParseAddr _) as [a|] eqn:Ea; [|done].
    apply ParseAddr_no_colon in Ea as (v&->&Hv); [|by apply str_free_take]. cbn [Zone BitLen].
    rewrite bool_decide_true by done. cbn [negb]. destruct (dtoi _) as [n|] eqn:En; [|done]. apply dtoi_nonneg in En.
    destruct (Z.leb_spec n 32); [|done]. unfold To4. cbn [Unmap mask_addr n_ip n_ones]. intros [= <-].
    pose proof (mask_value_bounds 32 n v) as Hb. set (b := mask_value 32 n v) in *.
    assert (aligned b (Z.to_nat (32 - n))) as Hal.
    { split_and!; [lia..|]. rewrite Z2Nat.id by lia. apply shiftl_mod. lia. }
    assert (IPNet_String {| n_ip := Addr4 b; n_ones := n |} = block_string (b, Z.to_nat (32 - n))) as ->.
    { unfold block_string. cbn [fst snd]. rewrite Z2Nat.id by lia. by replace (32 - (32 - n))%Z with n by lia. }
    split; [by eexists _, _|]. intros _. rewrite cidrRange_block by done. cbn [n_ip Unmap]. rewrite ipUint32_id by lia.
    rewrite <-(range_high _ _ Hal), Z2Nat.id by lia. replace (32 - (32 - n))%Z with n by lia. by case_match.
  - unfold ParseIP. destruct (ParseAddr _) as [a|] eqn:Ea; [|done]. apply ParseAddr_no_colon in Ea as (v&->&Hv); [|done].
    cbn [Zone]. rewrite bool_decide_true by done. unfold To4. cbn [Unmap]. intros [= <-]. split; [|done].
    exists v, 0. split; [|done]. split_and!; [lia|lia..|]. apply Z.mod_1_r.
Qed.

(** ** A cycle *)

(** What a cycle keeps for the source called [n]: the last good list when it fails. *)
Definition source_kept (fetch : RouteSource → result source_error (list string)) (old : gmap string (list string))
    (l : list RouteSource) (n : string) : list string :=
  match head (filter (λ s, rs_Name s = n) l) with
  | Some s => match fetch s with Ok cidrs => sortDedup cidrs | Err _ => default [] (old !! n) end
  | None => default [] (old !! n)
  end.

Section cycles.
Context (fetch : RouteSource → result source_error (list string)).
Implicit Types (f : gmap string (list string)) (seen : gset string).

Lemma fetch_one_spec f s : let '(f', c) := fetch_one fetch f s in
  (∀ n, default [] (f' !! n) =
     match fetch s with
     | Ok cidrs => if decide (n = rs_Name s) then sortDedup cidrs else default [] (f !! n)
     | Err _ => default [] (f !! n)
     end) ∧
  (c = true ↔ default [] (f' !! rs_Name s) ≠ default [] (f !! rs_Name s)).
Proof.
  unfold fetch_one. destruct (fetch s) as [cidrs|e]; [|done]. unfold equalStrings. case_bool_decide as E.
  - split; [|done]. intros n. case_decide; by subst.
  - split; [|rewrite lookup_insert_eq; naive_solver]. intros n. case_decide; subst; by simplify_map_eq.
Qed.

Lemma fetch_all_spec l seen f ch : let '(f', ch') := fetch_all fetch seen f ch l in
  (∀ n, default [] (f' !! n) = if decide (n ∈ seen) then default [] (f !! n) else source_kept fetch f l n) ∧
  (ch' = true ↔ ch = true ∨ ∃ n, default [] (f' !! n) ≠ default [] (f !! n)).
Proof.
  revert seen f ch. induction l as [|s l IH]; intros seen f ch; cbn [fetch_all].
  { split; [intros n; by case_decide|]. naive_solver. }
  case_bool_decide as Hs.
  - specialize (IH seen f ch). destruct (fetch_all fetch seen f ch l) as [f' ch']. destruct IH as [Hf Hch].
    split; [|done]. intros n. rewrite Hf. case_decide as Hn; [done|]. unfold source_kept.
    by rewrite filter_cons_False by (by intros <-).
  - pose proof (fetch_one_spec f s) as H1. destruct (fetch_one fetch f s) as [f1 c]. destruct H1 as [H1 Hc].
    specialize (IH ({[ rs_Name s ]} ∪ seen) f1 (ch || c)). destruct (fetch_all _ _ _ _ l) as [f' ch'].
    destruct IH as [Hf Hch]. split.
    + intros n. rewrite Hf. unfold source_kept. destruct (decide (n = rs_Name s)) as [->|Hne].
      * rewrite decide_True, decide_False by set_solver. rewrite H1, filter_cons_True by done. cbn [head].
        case_match; [by rewrite decide_True|done].
      * assert (default [] (f1 !! n) = default [] (f !! n)) as He by (rewrite H1; case_match; [by rewrite decide_False|done]).
        rewrite He, filter_cons_False by done.
        rewrite (decide_ext (n ∈ {[rs_Name s]} ∪ seen) (n ∈ seen)) by set_solver. by case_decide.
    + rewrite Hch, orb_true_iff, Hc. assert (default [] (f' !! rs_Name s) = default [] (f1 !! rs_Name s)) as He
        by (rewrite Hf, decide_True by set_solver; done).
      assert (∀ n, n ≠ rs_Name s → default [] (f1 !! n) = default [] (f !! n)) as Ho
        by (intros n Hn; rewrite H1; case_match; [by rewrite decide_False|done]).
      split.
      * intros [[?|?]|[n Hn]]; [by left|right; exists (rs_Name s); by rewrite He|]. right. exists n.
        destruct (decide (n = rs_Name s)) as [->|]; [done|]. by rewrite <-Ho.
      * intros [?|[n Hn]]; [by left; left|]. destruct (decide (n = rs_Name s)) as [->|]; [left; right; by rewrite <-He|].
        right. exists n. by rewrite Ho.
Qed.
End cycles.

Lemma add_new_spec merged set l : (∀ c, c ∈ set ↔ c ∈ merged) → NoDup merged →
  let '(merged', set') := add_new merged set l in
  (∀ c, c ∈ set' ↔ c ∈ merged') ∧ NoDup merged' ∧ ∀ c, c ∈ merged' ↔ c ∈ merged ∨ c ∈ l.
Proof.
  revert merged set. induction l as [|x l IH]; intros merged set Hs Hnd; cbn [add_new].
  { split_and!; [done..|]. intros c. set_solver. }
  case_bool_decide as Hx.
  - specialize (IH merged set Hs Hnd). destruct (add_new merged set l). destruct IH as (?&?&IH).
    split_and!; [done..|]. intros c. rewrite IH. set_solver.
  - specialize (IH (merged ++ [x]) ({[ x ]} ∪ set)). destruct (add_new _ _ l). destruct IH as (?&?&IH).
    + set_solver.
    + apply NoDup_app. split_and!; [done| |apply NoDup_singleton]. set_solver.
    + split_and!; [done..|]. intros c. rewrite IH. set_solver.
Qed.
Lemma merged_routes_spec fetched t :
  StronglySorted String.le (merged_routes fetched t) ∧ NoDup (merged_routes fetched t) ∧
  ∀ c, c ∈ merged_routes fetched t ↔
    c ∈ omap normalizeIPv4CIDR (routes t) ∨ ∃ s, s ∈ route_sources t ∧ c ∈ default [] (fetched !! rs_Name s).
Proof.
  unfold merged_routes. set (l1 := omap normalizeIPv4CIDR (routes t)).
  set (l2 := route_sources t ≫= λ s, default [] (fetched !! rs_Name s)).
  pose proof (add_new_spec [] ∅ l1) as H1. destruct (add_new [] ∅ l1) as [m1 s1].
  destruct H1 as (Hs1&Hn1&H1); [set_solver|constructor|].
  pose proof (add_new_spec m1 s1 l2 Hs1 Hn1) as H2. destruct (add_new m1 s1 l2) as [m2 s2]. destruct H2 as (_&Hn2&H2).
  split_and!; [apply sort_strings_sorted|by rewrite sort_strings_perm|]. intros c.
  rewrite elem_of_sort_strings, H2, H1. unfold l2. rewrite list_elem_of_bind. set_solver.
Qed.
Lemma routes_with t l : routes (with_routes t l) = l.
Proof. by destruct l. Qed.

(** C26: a cycle keeps for every source the sorted CIDRs of this fetch, or the last good
    ones when the fetch fails, asks for the cache to be saved exactly when some source
    changed, and queues the base configuration with only the routes replaced: for every
    tunnel the sorted union, without duplicates, of its normalized static routes and what is
    kept for its sources. *)
Theorem cycle_spec fetch u : let '(u', changed, queued) := cycle fetch u in
  (∀ n, default [] (u_fetched u' !! n) = source_kept fetch (u_fetched u) (sources_of (u_base u)) n) ∧
  (changed = true ↔ ∃ n, default [] (u_fetched u' !! n) ≠ default [] (u_fetched u !! n)) ∧
  queued = with_tunnels (u_base u) (c_Tunnels queued) ∧
  Forall2 (λ t t', t' = with_routes t (routes t') ∧ StronglySorted String.le (routes t') ∧ NoDup (routes t') ∧
    ∀ c, c ∈ routes t' ↔ c ∈ omap normalizeIPv4CIDR (routes t) ∨
      ∃ s, s ∈ route_sources t ∧ c ∈ default [] (u_fetched u' !! rs_Name s))
    (c_Tunnels (u_base u)) (c_Tunnels queued).
Proof.
  unfold cycle. pose proof (fetch_all_spec fetch (sources_of (u_base u)) ∅ (u_fetched u) false) as H.
  destruct (fetch_all _ _ _ _ _) as [f changed]. destruct H as [Hf Hch]. cbn [with_fetched u_fetched u_base].
  split_and!; [done|naive_solver|done|].
  unfold Merge, MergeBase, merge_base. cbn [with_fetched with_tunnels c_Tunnels u_base u_fetched].
  apply Forall2_fmap_r, Forall_Forall2_diag, Forall_forall. intros t _. unfold compose. rewrite !routes_with.
  split; [done|]. apply merged_routes_spec.
Qed.

(** ** The push to pfSense *)
Lemma AggregateIPv4_canonical_nets cidrs : Forall canonical (AggregateIPv4 cidrs).
Proof. apply Forall_forall. intros c (b&s&->&(?&_&_))%elem_of_AggregateIPv4. by exists b, s. Qed.
Lemma csv_split cidrs : AggregateIPv4 cidrs ≠ [] →
  str_split "," (str_join "," (AggregateIPv4 cidrs)) = AggregateIPv4 cidrs.
Proof.
  intros Hne. apply str_split_join; [done|]. eapply Forall_impl; [apply AggregateIPv4_canonical_nets|].
  intros c Hc. by apply canonical_str_free.
Qed.

(** The reconciliation with pfSense never sends fewer than five networks nor the list of
    the last successful push; what it sends splits back at the commas into distinct
    canonical networks that stand for exactly the addresses of the kept networks and the
    routes.  A list is remembered exactly when the remote took it without an error, and
    then the same routes are not sent again. *)
Theorem Reconcile_spec push p cidrs : let '(outcome, sent, p') := Reconcile push p cidrs in
  (∀ csv, sent = Some csv → let nets := str_split "," csv in
     5 ≤ length nets ∧ nets ≠ ps_last p ∧ NoDup nets ∧ Forall canonical nets ∧
     ∀ a, covered nets a ↔ covered (ps_keep p ++ cidrs) a) ∧
  (sent = None ↔ length (desired p cidrs) < 5 ∨ desired p cidrs = ps_last p) ∧
  (outcome = Pushed ↔ ∃ csv out, sent = Some csv ∧ push csv = Ok out ∧ has_prefix "ERR" out = false) ∧
  (outcome = Pushed → ∃ csv, sent = Some csv ∧ ps_last p' = str_split "," csv ∧
     Reconcile push p' cidrs = (Skipped, None, p')) ∧
  (outcome ≠ Pushed → p' = p).
Proof.
  unfold Reconcile at 1. set (nets := desired p cidrs).
  assert (∀ o : push_outcome, o ≠ Pushed → o = Pushed ↔ ∃ csv out, None = Some csv ∧ push csv = Ok out ∧ has_prefix "ERR" out = false)
    as Hno by (intros o ?; split; [done|by intros (?&?&?&?)]).
  destruct (Nat.ltb_spec (length nets) 5) as [Hlen|Hlen]; [refine (conj _ (conj _ (conj (Hno _ _) (conj _ _)))); try done; by split; auto|].
  case_bool_decide as Hlast; [refine (conj _ (conj _ (conj (Hno _ _) (conj _ _)))); try done; by split; auto|].
  assert (str_split "," (str_join "," nets) = nets) as Hcsv.
  { apply csv_split. intros Hnil. unfold nets, desired in Hlen. rewrite Hnil in Hlen. simpl in Hlen. lia. }
  assert (∀ csv, Some (str_join "," nets) = Some csv → let nets' := str_split "," csv in
     5 ≤ length nets' ∧ nets' ≠ ps_last p ∧ NoDup nets' ∧ Forall canonical nets' ∧
     ∀ a, covered nets' a ↔ covered (ps_keep p ++ cidrs) a) as Hsent.
  { intros csv [= <-]. cbv zeta. rewrite Hcsv.
    split_and!; [done|by intros ?|apply AggregateIPv4_NoDup|apply AggregateIPv4_canonical_nets|apply AggregateIPv4_covered]. }
  assert (Some (str_join "," nets) = None ↔ length nets < 5 ∨ nets = ps_last p) as Hnone.
  { split; [done|]. intros [?|?]; [lia|by destruct Hlast]. }
  destruct (push (str_join "," nets)) as [out|e] eqn:Hp; [destruct (has_prefix "ERR" out) eqn:Herr|].
  - refine (conj Hsent (conj Hnone (conj _ (conj _ _)))); [|done|done]. split; [done|]. intros (?&?&[= <-]&?&?). congruence.
  - refine (conj Hsent (conj Hnone (conj _ (conj _ _)))); [by split; eauto| |done]. intros _. eexists. split_and!; [done|by rewrite Hcsv|].
    unfold Reconcile, desired. cbn [ps_keep ps_last]. fold (desired p cidrs). fold nets.
    destruct (Nat.ltb_spec (length nets) 5); [lia|]. by rewrite bool_decide_true.
  - refine (conj Hsent (conj Hnone (conj _ (conj _ _)))); [|done|done]. split; [done|]. intros (?&?&[= <-]&?&?). congruence.
Qed.

(** ** The published list *)
Lemma first_field_free s : (∀ c, is_separator c = true → str_free c s) → first_field s = s.
Proof.
  induction s as [|d s IH]; intros Hs; [done|]. cbn [first_field]. destruct (is_separator d) eqn:E.
  - by destruct (proj1 (str_free_cons _ _ _) (Hs d E)).
  - f_equal. apply IH. intros c Hc. by destruct (proj1 (str_free_cons _ _ _) (Hs c Hc)).
Qed.
Lemma parse_line_canonical c : canonical c → parse_line c = Some c.
Proof.
  intros Hc. pose proof Hc as (b&s&Ha&->). unfold parse_line. rewrite trim_space_block by done.
  rewrite first_field_free.
  - rewrite normalize_block by done. destruct Ha as (_&Hb&_).
    assert (∃ d r, block_string (b, s) = String d r ∧ is_digit d = true) as (d&r&->&Hd).
    { unfold block_string, uint32IP, string4. cbn [fst snd]. destruct (small_itoa (octet b 24) (octet_bound _ _)) as (Hd&_).
      unfold all_digits in Hd. destruct (itoa (octet b 24)) as [|d r]; [done|]. cbn in Hd.
      apply andb_true_iff in Hd as [[? _]%andb_true_iff _]. by eexists d, _. }
    rewrite bool_decide_false by done. cbn [orb]. unfold has_prefix. cbn [String.prefix].
    destruct (Ascii.ascii_dec "#" d) as [<-|]; done.
  - intros d. unfold is_separator. rewrite bool_decide_eq_true.
    intros [->|[->|[->| ->]]]; by apply (canonical_str_free _ (block_string (b, s))).
Qed.

(** The list published for the firewall is read back by the parser of route sources
    as the routes of all tunnels, in order: for an updater whose static routes are not
    IPv6 text and whose kept CIDRs come from such text, when there is a route and the list
    stays below the size bound of a source. *)
Theorem list_roundtrip u :
  Forall (λ t, Forall (str_free ":") (routes t)) (c_Tunnels (u_base u)) →
  (∀ n l, u_fetched u !! n = Some l → Forall canonical l) →
  (c_Tunnels (Merge u) ≫= routes) ≠ [] → too_long (list_body (Merge u)) = false →
  parseCIDRLines (list_body (Merge u)) = Ok (c_Tunnels (Merge u) ≫= routes).
Proof.
  intros Hst Hf Hne Hlong. assert (Forall canonical (c_Tunnels (Merge u) ≫= routes)) as Hc.
  { unfold Merge, MergeBase, merge_base. cbn [with_tunnels c_Tunnels]. apply Forall_bind, Forall_fmap, Forall_forall.
    intros t Ht. unfold compose. rewrite routes_with. apply Forall_forall. intros c Hc.
    apply merged_routes_spec in Hc as [(r&Hr&Hn)%list_elem_of_omap|(s&Hs&Hc)].
    - eapply normalize_canonical; [|done]. rewrite Forall_forall in Hst. specialize (Hst t Ht). rewrite Forall_forall in Hst. auto.
    - destruct (u_fetched u !! rs_Name s) as [l|] eqn:E; [|by apply elem_of_nil in Hc]. specialize (Hf _ _ E).
      rewrite Forall_forall in Hf. auto. }
  unfold parseCIDRLines. rewrite Hlong. unfold list_body. set (l := c_Tunnels (Merge u) ≫= routes) in *. clearbody l.
  rewrite split_lines by (eapply Forall_impl; [done|]; intros c ?; by apply canonical_str_free).
  rewrite omap_app. replace (omap parse_line [""]) with (@nil string) by (symmetry; by vm_compute). rewrite app_nil_r.
  assert (omap parse_line l = l) as ->; [|by destruct l]. clear Hne. induction Hc as [|c l Hc _ IH]; [done|].
  cbn [omap list_omap]. rewrite parse_line_canonical by done. by f_equal.
Qed.

(** ** A source of two networks *)
Module UpdaterDemo.
Definition source : RouteSource := {| rs_Name := "ru"; rs_URL := "https://feed.example/ru"; rs_Format := "cidr-lines"; rs_Via := "" |}.
Definition tunnel : Tunnel :=
  let t := demo_tunnel "wg0" "10.200.0.2/32" 100 " 203.0.113.7/24" in
  {| t_Name := t_Name t; t_PrivateKey := t_PrivateKey t; t_Address := t_Address t; t_MTU := t_MTU t; t_Fwmark := t_Fwmark t;
     t_FwmarkMask := t_FwmarkMask t; t_Table := t_Table t; t_RulePriority := t_RulePriority t;
     t_AdoptExisting := t_AdoptExisting t; t_Routes := t_Routes t; t_RouteSources := Some [source]; t_Peer := t_Peer t;
     t_Resolver := t_Resolver t |}.
Definition updater : RouteUpdater := NewRouteUpdater (with_tunnels (demo_loaded "wg0") [tunnel]) None.
Definition fetched_with (body : string) : RouteUpdater * bool * Config :=
  cycle (fetchSource (λ _, None) (λ _, Ok (200%Z, body))) updater.
Definition feed : string := foldr (λ l s, l +:+ nl +:+ s) "" ["# feed"; "198.51.100.9, x"; "10.1.2.3/16"].

Example demo_cycle : (c_Tunnels (fetched_with feed).2 ≫= routes) = ["10.1.0.0/16"; "198.51.100.9/32"; "203.0.113.0/24"].
Proof. vm_compute. reflexivity. Qed.

Definition kept : gmap string (list string) := {["ru" := ["10.1.0.0/16"; "198.51.100.9/32"]]}.
Lemma list_roundtrip_witness :
  parseCIDRLines (list_body (Merge (with_fetched updater kept))) = Ok ["10.1.0.0/16"; "198.51.100.9/32"; "203.0.113.0/24"].
Proof.
  assert ((c_Tunnels (Merge (with_fetched updater kept)) ≫= routes) = ["10.1.0.0/16"; "198.51.100.9/32"; "203.0.113.0/24"]) as E
    by (vm_compute; reflexivity).
  rewrite <-E. apply (list_roundtrip (with_fetched updater kept)).
  - apply Forall_singleton, Forall_singleton. vm_compute. reflexivity.
  - intros n l. cbn [with_fetched u_fetched]. unfold kept. intros [<- <-]%lookup_singleton_Some.
    repeat constructor; [exists 167837696%Z, 16|exists 3325256713%Z, 0]; (split; [|vm_compute; reflexivity]);
      (split_and!; [lia|lia|lia|vm_compute; reflexivity]).
  - rewrite E. discriminate.
  - vm_compute. reflexivity.
Defined.

(** An IPv4-mapped IPv6 network passes for IPv4; the firewall then refuses the whole
    configuration, so the networks of the other lines are not applied either. *)
Example mapped_network_passes :
  normalizeIPv4CIDR "::ffff:10.1.2.3/64" = Some "::/64" ∧
  is_ok (compileGatewayRuleset (fetched_with feed).2) = true ∧
  is_ok (compileGatewayRuleset (fetched_with (feed +:+ "::ffff:10.1.2.3/64")).2) = false.
Proof. vm_compute. auto. Qed.
End UpdaterDemo.
